(* ===== verification/_CoqProject ===== *)
-Q . S2P
Prelude.v
Wire.v
WireProofs.v
TimeoutReader.v
SeqQueue.v
Streams.v
GoPath.v
Proto.v
Labels.v
World.v
Libpod.v
Mem.v
BaseRuntime.v
Expand.v
Remove.v
Storage.v
Mounts.v
TimeoutQueue.v
Find.v
Network.v
Translate.v
Container.v
ContainerProofs.v
Pod.v
PodProofs.v
DeleteProofs.v
EnsureProofs.v
Image.v
Logs.v
LogsProofs.v
Action.v
Handler.v
Messages.v
MessageProofs.v
Fields.v
PodMessages.v
FieldProofs.v
PodMessageProofs.v
Ticket.v
Engine.v
HandlerProofs.v
Connection.v
Drivers.v
Conf.v
Samples.v
Runtime.v
App.v
StorageProofs.v
PodTheorems.v
BaseTheorems.v
ConfigTheorems.v
ServiceTheorems.v
SessionSamples.v
Commands.v
SessionTheorems.v
WireCodec.v
WireTheorems.v
Service.v
ServiceProofs.v
Concurrent.v
ConcurrentTheorems.v
