(* ===== verification/Prelude.v ===== *)
(** * A verification development of runtime-podman

    runtime-podman is an extension of arhat: it connects to the extension hub of
    arhat, receives commands about pods, containers, images and sessions, and
    carries them out with libpod.  A pod is a libpod pod with a pause (infra)
    container that holds its namespaces and one container per requested spec;
    everything the program knows about a pod it finds again through labels.
    Pods on the cluster network are connected by the abbot container, which the
    program reaches by running a command in it.

    ** The parts and their models

    - [Prelude]: outcomes (value, error, panic, block for ever), the state and
      error monad [M], [try]/[wrap]/[with_defer], the weakest precondition [wp]
      with its rules, the judgements [keeps R m] (an operation respects a
      relation on worlds), [returns] and [never_panics] with their automation,
      and generic lemmas on lists.
    - [GoPath]: the functions of Go's [strings] and [path/filepath] in use.
    - [Proto]: the messages and helpers of [aranyagopb/runtimepb].
    - [Wire]: what the generated code does with bytes, a definition per kind of
      field: encoders on a buffer, decoders on an index.  [Messages]: the fields
      of each message in the order of its generated functions.  [Fields]: the
      same as tables, with nested messages and maps of them; [PodMessages]: the
      tables of the messages about pods and images.  [WireCodec]: the codec of
      the handler made of all these.
    - [Labels]: [containerutil/{constant,labels,names,image}.go] and the label
      filter of [pkg/runtime/util.go].
    - [World]: every call that leaves the program is a constructor of [Ev]
      (libpod, files, processes, clocks, map order); [Env] is the environment
      that answers; a [World] holds its state, the trace of calls and answers,
      the cancelled contexts and the storage client.
    - [Libpod]: the contract with libpod, as a class of laws over the observed
      pods and containers ([Store], [LibpodLaws]); frames; reliable engines.
      [Mem] is an in-memory engine with scripted faults that satisfies it.
    - [BaseRuntime]: [containerutil/base_runtime.go].
    - [Expand]: [envhelper/expansion.go].
    - [Storage]: [storageutil/{client,exec,volume}.go] and the drivers, a call
      at a time.  [Mounts]: the client again, with any number of calls,
      monitors, timers and commands interleaved.  [Drivers]: the registry, the
      constructors and the configuration of the drivers, [NewClient].
    - [Remove]: [storageutil/remove.go] on a tree of files with devices.
    - [Find], [Container]: [pkg/runtime/container.go].
    - [Network]: execs in containers, hooks, [handleAbbotExec] and
      [networkutil/client.go].
    - [Translate]: status messages ([pkg/runtime/translate.go]).
    - [Pod]: [EnsurePod], [DeletePod], [ListPods] of [pkg/runtime/pod.go].
    - [Image]: [pkg/runtime/image.go].  [Logs]: [actionutil/logs.go].
      [Action]: [pkg/runtime/action.go].
    - [TimeoutReader]: the reader behind an upload, as far as its streams have
      deadlines ([arhat.dev/pkg/iohelper/timeout_reader.go]).
    - [SeqQueue]: [arhat.dev/pkg/queue/seq_queue.go].  [Streams]: the input of
      sessions, [libext/extutil/streaming.go], which writes what the queue hands
      out; its state is reached through the class [HasStreams], so that it is
      used alone and inside the handler.
    - [Handler]: [libext/extruntime], from a decoded command to the messages
      that answer it, against the class [RuntimeEngine]; the command loop of the
      controller.  [Engine]: the podman runtime as an instance of that class.
      [Ticket]: [nextSeq] under concurrency.
    - [Connection]: the main loop, the client and the controller
      ([libext/{client,controller,channel_bundle}.go]) as goroutines with
      channels.
    - [Commands]: the requests as abstract operations on the set of managed
      pods, and the refinement.
    - [Service]: the connection, the handler and an engine as one transition
      system; a command there runs in one step.  [Concurrent]: requests whose
      calls to libpod are interleaved one by one.
    - [Conf]: [pkg/constant], [pkg/conf], [pkg/version].  [Runtime]:
      [pkg/runtime/runtime.go].  [App]: [pkg/cmd/runtime-podman.go] and
      [cmd/runtime-podman/main.go].
    - [Samples], [SessionSamples]: concrete requests and worlds, used by the
      witnesses.

    [ContainerProofs], [PodProofs], [DeleteProofs], [EnsureProofs],
    [StorageProofs], [LogsProofs], [HandlerProofs], [WireProofs],
    [MessageProofs], [FieldProofs] (a class of laws per layer: kinds, fields,
    messages, values of maps) and [PodMessageProofs] (an instance per table)
    hold the lemmas of their components; the properties are in
    [PodTheorems], [BaseTheorems], [ServiceTheorems], [SessionTheorems],
    [ConfigTheorems], [WireTheorems], [ServiceProofs], [ConcurrentTheorems], and
    at the end of [Commands], [Connection], [SeqQueue], [Streams], [Ticket],
    [Mounts] and [Remove].

    ** How the code is read

    A Go function that can fail is a computation in [M]; an [if err != nil
    return] is the short circuit of the monad, an error that is looked at goes
    through [try], a [defer] is [with_defer], a nil dereference is a [Panic].
    A long function is cut into one definition per block, composed in the order
    of the source.  Logging is left out.  Error messages keep their prefix;
    quoted arguments of the format are shortened, which no branch of the
    program depends on (only [errors.Is] looks at errors).  Pods and containers
    are handles: the immutable fields the program reads.  In the monadic
    models a goroutine runs at the point where it is started, and the
    environment answers how each [select] ended; the reads of the two uploading
    goroutines of a session, with what the streams do until the deadlines,
    follow a schedule, over which the theorems quantify.  Where the interleaving is the point, the goroutines are a
    transition system: every lock, channel operation and access to shared data
    is a step of its own in [Ticket], [Mounts] and [Connection].  Requests share
    libpod only, so their unit is the call: a trace of a request is what it does
    against any answers, and [Concurrent] merges traces that libpod answered.

    Code outside the program is a parameter: libpod and the operating system
    are [Env] (with [LibpodLaws] where the theorem depends on libpod), the YAML
    decoder, the flag parser and the logger setup are arguments of
    [ReadConfig], and time and JSON parsing are arguments of the log reader.
    The handler takes its encoders and decoders as an argument ([Codec]);
    [WireCodec.wire_codec] fills it with the generated code, where only the
    texts of errors and the order of a [range] over a map are left open.  Maps
    of messages hold pointers: an entry may be nil, and reading through it
    panics.

    ** What is shown

    - The whole engine ([Commands]): each request implements its contract on
      the set of managed pods, and whatever is requested and whatever fails, no
      two pods share a UID and no pod appears that nobody asked for.
    - The service ([ServiceProofs]): the same for everything the hub may send
      over any sequence of connections, and every message for the hub belongs to
      a command it sent.
    - Concurrent requests ([ConcurrentTheorems]): identifiers stay unique, new
      pods are requested pods, and a pod that no request is about survives
      with its containers.  What does not hold: the uniqueness of UIDs, and the
      safety of a pod in the making from a list request.
    - The wire format ([WireTheorems]): round trips of all messages, decoders
      that end and stay inside of the bytes, replies that decode as packets;
      requests about pods from the bytes of the hub to the status that it
      decodes; and the bytes that bring a decoder of a map to read in front of
      the message, or a request to read through a nil entry.
    - The connection ([Connection]): commands are handled in order and once,
      and none is stuck while every attempt to connect succeeds; one failed
      attempt to connect stops the service for good; a session that outlives its
      connection may end the process.
    - Sessions ([SessionTheorems], [SeqQueue], [Streams], [Ticket]): the
      messages an exec produces, one typed reply per command, input delivered
      in order whatever the order of arrival, unique numbers; and the ways a
      session can go wrong: closed input, a session number used twice, input
      that comes early, a lost last byte, a list of images.
    - Storage ([Mounts], [Remove], [ConfigTheorems]): mutual exclusion, release
      of the mutex, monitors that are never stuck, the late monitor that forgets
      a newer mount, removal that stays on its file system, the drivers that
      cannot be configured, the exit code of the process.
    - Pods ([PodTheorems]): what a successful [EnsurePod] establishes, what a
      failed one takes back, that it leaves other pods alone and does not
      panic; what [DeletePod] and [ListPods] remove, spare and report; the
      guards of [deletePod]; that a created container is found again; that the
      start of the runtime spares managed pods.  They hold for every engine
      that satisfies the laws; some also need a reliable one, whose queries and
      removals do not fail.
    - Basics ([BaseTheorems]): the label filter as inclusion, labels a request
      cannot override, namespaces, image environment, disjoint directories,
      expansion of references.
    - Services ([ServiceTheorems]): the mutex and the table of the storage
      client, bounded cleanup, the tail position of a log, the CRI line format,
      the byte limit and the end of a log read, exactly the requested images,
      the target of an exec, the signals, the registered flags.
    - Where the code does something else than it means to, a theorem states
      what it does: named containers are never deleted, an unknown name
      panics, a pod without pause container is stuck, a failed lookup removes a
      pod, the default storage driver leaves the mutex locked, cleanup does not
      retry, image lists begin with nil entries, requests to abbot are dropped,
      port forwards dial a network, the stored context is cancelled.

    ** Bounds

    [cleanup_loop] runs the five iterations of the source.  [tail_blocks] gets
    the size of the file as fuel: every iteration moves down by a block, so it
    is never used up (part of [findTail_spec]).  [read_loop] gets the size plus
    three, one iteration per line, one for the rest and one to stop; a read that
    does not follow never exhausts it ([ReadLogs_terminates]).  A read that
    follows, [waitLogs] and the connection loop [serve] have no end of their
    own: out of fuel they answer [Hang], which reads "still running".  A number
    on the wire takes at most ten bytes ([put_varint]) and a decoder gives up
    before the eleventh ([varint_loop]); the loops over fields get the length of
    the bytes plus one, an entry of a map the length plus two, as every iteration
    moves on ([decoders_return]).  Messages are shorter than 2^63 bytes.

    The schedule of a session lists the reads of its uploaders; the outputs are
    read to their end when it has a read per byte, which the theorems say where
    they need it.

    ** Not modelled

    TLS, cobra's parsing of arguments and logging; the copy loops of
    [nethelper.Forward] and the delayed close of a port forward; the buffered
    mode of the timeout reader, for streams without deadlines; the timeout queue
    of the storage client beyond its timers; races of the file system with a
    removal.  In [Concurrent] the table of mounts
    is the request's own ([Mounts] interleaves the accesses to it), and a trace
    says nothing about the messages of its request.  An encoder ranges over all
    the maps of a message by one rule; messages that the program neither reads
    nor writes have no table. *)

From stdpp Require Import base gmap strings pretty list fin_maps numbers.

Declare Scope go_scope.
Delimit Scope go_scope with go.
Open Scope go_scope.

(** * Outcomes of a Go call

    A Go function of this program returns a value and an [error], may panic
    (a nil pointer, an index out of range), and may block for ever (a mutex
    that nobody unlocks). *)

(** Errors: the sentinel values of [wellknownerrors] and [storageutil], the
    error of a finished context ([ErrCtx]), the opaque errors of the code the
    program calls ([ErrExt]), an [aranyagopb.ErrorMsg] used as an error
    ([ErrMsg]), [errors.New] or [fmt.Errorf] without a wrapped error
    ([Errorf]), and [fmt.Errorf] with [%w] ([Wrapf], and [WrapNil] where the
    argument of [%w] is a nil error). *)
Inductive error : Type :=
| ErrNotFound
| ErrAlreadyExists
| ErrNotSupported
| ErrInvalidOperation
| ErrMountpointInUse
| ErrMountpointInProcess
| ErrCtx
| ErrExt (descr : string)
| ErrMsg (descr : string) (code : Z)
| Errorf (msg : string)
| WrapNil (msg : string)
| Wrapf (msg : string) (inner : error).

Inductive panic : Type :=
| NilDereference
| IndexOutOfRange.

Inductive outcome (A : Type) : Type :=
| Ok (a : A)
| Err (e : error)
| Panic (p : panic)
| Hang.
Global Arguments Ok {A} a.
Global Arguments Err {A} e.
Global Arguments Panic {A} p.
Global Arguments Hang {A}.

Global Instance error_eq_dec : EqDecision error.
Proof. solve_decision. Defined.
Global Instance panic_eq_dec : EqDecision panic.
Proof. solve_decision. Defined.
Global Instance outcome_eq_dec {A} `{!EqDecision A} : EqDecision (outcome A).
Proof. solve_decision. Defined.

(** [errors.Is(err, target)]: some error of the chain is the target value. *)
Fixpoint errors_Is (e target : error) : bool :=
  bool_decide (e = target) ||
  match e with
  | Wrapf _ e' => errors_Is e' target
  | _ => false
  end.

Definition outcome_map {A B} (f : A → B) (o : outcome A) : outcome B :=
  match o with
  | Ok a => Ok (f a)
  | Err e => Err e
  | Panic p => Panic p
  | Hang => Hang
  end.

(** * The effect monad

    Stateful code is a function from the world to an outcome and the next
    world.  An [Err] short-circuits, which is the [if err != nil { return }]
    of the source; code that looks at an error value uses [try]. *)
Definition M (W A : Type) : Type := W → outcome A * W.

Section monad.
Context {W : Type}.

Global Instance M_ret : MRet (M W) := λ A a w, (Ok a, w).

Global Instance M_bind : MBind (M W) := λ A B k m w,
  match m w with
  | (Ok a, w') => k a w'
  | (Err e, w') => (Err e, w')
  | (Panic p, w') => (Panic p, w')
  | (Hang, w') => (Hang, w')
  end.

Definition fail {A} (e : error) : M W A := λ w, (Err e, w).
Definition crash {A} (p : panic) : M W A := λ w, (Panic p, w).
Definition hang {A} : M W A := λ w, (Hang, w).

(** The value behind a pointer. *)
Definition deref {A} (p : option A) : M W A :=
  match p with Some a => mret a | None => crash NilDereference end.

(** [v, err := m()]: the error becomes a value. *)
Definition try {A} (m : M W A) : M W (error + A) := λ w,
  match m w with
  | (Ok a, w') => (Ok (inr a), w')
  | (Err e, w') => (Ok (inl e), w')
  | (Panic p, w') => (Panic p, w')
  | (Hang, w') => (Hang, w')
  end.

(** [_ = m()]. *)
Definition ignore {A} (m : M W A) : M W unit := r ← try m; mret ().

(** [if err != nil { return fmt.Errorf("msg: %w", err) }]. *)
Definition wrap {A} (msg : string) (m : M W A) : M W A := λ w,
  match m w with
  | (Err e, w') => (Err (Wrapf msg e), w')
  | r => r
  end.

(** [fmt.Errorf("msg: %v", err)]: the error is only text. *)
Definition explain {A} (msg : string) (m : M W A) : M W A := λ w,
  match m w with
  | (Err e, w') => (Err (Errorf msg), w')
  | r => r
  end.

(** [body] with a deferred call: [d] sees how the body ended, runs when the
    body returns or panics, and can only replace the outcome by panicking (or
    by blocking).  No deferred call of this program assigns the results. *)
Definition with_defer {A} (body : M W A) (d : outcome A → M W unit) : M W A := λ w,
  match body w with
  | (Hang, w') => (Hang, w')
  | (o, w') =>
      match d o w' with
      | (Panic p, w'') => (Panic p, w'')
      | (Hang, w'') => (Hang, w'')
      | (_, w'') => (o, w'')
      end
  end.

(** A deferred function whose body is [if err != nil { ... }]. *)
Definition on_error {A} (d : M W unit) (o : outcome A) : M W unit :=
  match o with
  | Err _ => d
  | _ => mret ()
  end.

(** [for _, x := range l { acc = body(acc, x) }], left to right. *)
Fixpoint fold_m {A B} (body : B → A → M W B) (acc : B) (l : list A) : M W B :=
  match l with
  | [] => mret acc
  | x :: l => acc' ← body acc x; fold_m body acc' l
  end.

Definition for_each {A} (l : list A) (body : A → M W unit) : M W unit :=
  fold_m (λ _, body) () l.

Definition map_m {A B} (f : A → M W B) (l : list A) : M W (list B) :=
  fold_m (λ acc x, b ← f x; mret (acc ++ [b])) [] l.

(** Weakest preconditions: [wp m Q w] says what holds of the outcome and of
    the world after [m] runs from [w]. *)
Definition wp {A} (m : M W A) (Q : outcome A → W → Prop) (w : W) : Prop :=
  Q (m w).1 (m w).2.

End monad.

Global Instance M_fmap {W} : FMap (M W) := λ A B f m, a ← m; mret (f a).

(** * Rules of the weakest-precondition calculus *)

Definition obind {W A B} (k : A → W → Prop) (Q : outcome B → W → Prop) :
    outcome A → W → Prop := λ o w,
  match o with
  | Ok a => k a w
  | Err e => Q (Err e) w
  | Panic p => Q (Panic p) w
  | Hang => Q Hang w
  end.

Section wp_rules.
Context {W : Type}.
Implicit Types w : W.

Lemma wp_run {A} (m : M W A) Q w o w' : wp m Q w → m w = (o, w') → Q o w'.
Proof. unfold wp. intros HQ Hm. by rewrite Hm in HQ. Qed.

Lemma wp_mono {A} (m : M W A) (P Q : outcome A → W → Prop) w :
  (∀ o w', P o w' → Q o w') → wp m P w → wp m Q w.
Proof. unfold wp. eauto. Qed.

Lemma wp_and {A} (m : M W A) (P Q : outcome A → W → Prop) w :
  wp m P w → wp m Q w → wp m (λ o w', P o w' ∧ Q o w') w.
Proof. unfold wp. eauto. Qed.

Lemma wp_ret {A} (a : A) Q w : Q (Ok a) w → wp (mret a) Q w.
Proof. done. Qed.

Lemma wp_fail {A} e (Q : outcome A → W → Prop) w : Q (Err e) w → wp (fail e) Q w.
Proof. done. Qed.

Lemma wp_crash {A} p (Q : outcome A → W → Prop) w : Q (Panic p) w → wp (crash p) Q w.
Proof. done. Qed.

Lemma wp_hang {A} (Q : outcome A → W → Prop) w : Q Hang w → wp hang Q w.
Proof. done. Qed.

Lemma wp_bind {A B} (m : M W A) (k : A → M W B) Q w :
  wp m (obind (λ a, wp (k a) Q) Q) w → wp (m ≫= k) Q w.
Proof. unfold wp, mbind, M_bind. destruct (m w) as [[] w']; done. Qed.

Lemma wp_fmap {A B} (f : A → B) (m : M W A) Q w :
  wp m (λ o, Q (outcome_map f o)) w → wp (f <$> m) Q w.
Proof.
  intros H. apply wp_bind. eapply wp_mono; [|exact H].
  by intros [] w' HQ.
Qed.

Lemma wp_try {A} (m : M W A) (Q : outcome (error + A) → W → Prop) w :
  wp m (λ o w', match o with
                | Ok a => Q (Ok (inr a)) w'
                | Err e => Q (Ok (inl e)) w'
                | Panic p => Q (Panic p) w'
                | Hang => Q Hang w'
                end) w →
  wp (try m) Q w.
Proof. unfold wp, try. destruct (m w) as [[] w']; done. Qed.

Lemma wp_ignore {A} (m : M W A) (Q : outcome unit → W → Prop) w :
  wp m (λ o w', match o with
                | Ok _ | Err _ => Q (Ok ()) w'
                | Panic p => Q (Panic p) w'
                | Hang => Q Hang w'
                end) w →
  wp (ignore m) Q w.
Proof.
  intros H. unfold ignore. apply wp_bind, wp_try. eapply wp_mono; [|exact H].
  by intros [] w' HQ.
Qed.

Lemma wp_wrap {A} msg (m : M W A) (Q : outcome A → W → Prop) w :
  wp m (λ o w', match o with
                | Err e => Q (Err (Wrapf msg e)) w'
                | o => Q o w'
                end) w →
  wp (wrap msg m) Q w.
Proof. unfold wp, wrap. destruct (m w) as [[] w']; done. Qed.

Lemma wp_explain {A} msg (m : M W A) (Q : outcome A → W → Prop) w :
  wp m (λ o w', match o with
                | Err e => Q (Err (Errorf msg)) w'
                | o => Q o w'
                end) w →
  wp (explain msg m) Q w.
Proof. unfold wp, explain. destruct (m w) as [[] w']; done. Qed.

Lemma wp_with_defer {A} (body : M W A) d (Q : outcome A → W → Prop) w :
  wp body (λ o w', match o with
                   | Hang => Q Hang w'
                   | o => wp (d o) (λ od w'', match od with
                                              | Panic p => Q (Panic p) w''
                                              | Hang => Q Hang w''
                                              | _ => Q o w''
                                              end) w'
                   end) w →
  wp (with_defer body d) Q w.
Proof.
  unfold wp, with_defer.
  destruct (body w) as [[a|e|p|] w']; simpl; [..|done];
    by destruct (d _ w') as [[] w''].
Qed.

Lemma wp_on_error {A} (d : M W unit) (o : outcome A) (Q : outcome unit → W → Prop) w :
  match o with Err _ => wp d Q w | _ => Q (Ok ()) w end → wp (on_error d o) Q w.
Proof. by destruct o. Qed.

(** A deferred rollback: it runs on the error paths only. *)
Lemma wp_rollback {A} (body : M W A) d (Q : outcome A → W → Prop) w :
  wp body (λ o w', match o with
                   | Err e => wp d (λ od w'', match od with
                                              | Panic p => Q (Panic p) w''
                                              | Hang => Q Hang w''
                                              | _ => Q (Err e) w''
                                              end) w'
                   | o => Q o w'
                   end) w →
  wp (with_defer body (on_error d)) Q w.
Proof.
  intros H. apply wp_with_defer. eapply wp_mono; [|exact H]. by intros [] w' HQ.
Qed.

Lemma wp_fold_m {A B} (I : list A → B → W → Prop) (Q : outcome B → W → Prop) body acc l w :
  I l acc w →
  (∀ x l' acc' w', I (x :: l') acc' w' → wp (body acc' x) (obind (I l') Q) w') →
  (∀ acc' w', I [] acc' w' → Q (Ok acc') w') →
  wp (fold_m body acc l) Q w.
Proof.
  intros HI Hstep Hend. revert acc w HI.
  induction l as [|x l IH]; intros acc w HI; simpl; [by apply wp_ret, Hend|].
  apply wp_bind. eapply wp_mono; [|by apply Hstep].
  by intros [] w'; simpl; [apply IH|..].
Qed.

(** An invariant of a preorder kept by a computation, whatever its outcome. *)
Definition keeps {A} (R : relation W) (m : M W A) : Prop := ∀ w, R w (m w).2.

Lemma wp_keeps {A} (R : relation W) (m : M W A) w : keeps R m → wp m (λ _ w', R w w') w.
Proof. intros H. apply H. Qed.

Context (R : relation W) `{!PreOrder R}.

Lemma keeps_ret {A} (a : A) : keeps R (mret a).
Proof. intros w. by simpl. Qed.

Lemma keeps_fail {A} e : keeps R (@fail W A e).
Proof. intros w. by simpl. Qed.

Lemma keeps_crash {A} p : keeps R (@crash W A p).
Proof. intros w. by simpl. Qed.

Lemma keeps_deref {A} (p : option A) : keeps R (deref p).
Proof. intros w. by destruct p. Qed.

Lemma keeps_hang {A} : keeps R (@hang W A).
Proof. intros w. by simpl. Qed.

Lemma keeps_bind {A B} (m : M W A) (k : A → M W B) :
  keeps R m → (∀ a, keeps R (k a)) → keeps R (m ≫= k).
Proof.
  intros Hm Hk w. specialize (Hm w). unfold mbind, M_bind.
  destruct (m w) as [[a|e|p|] w']; simpl in *; [|done..].
  etrans; [exact Hm|apply Hk].
Qed.

Lemma keeps_try {A} (m : M W A) : keeps R m → keeps R (try m).
Proof. intros Hm w. specialize (Hm w). unfold try. by destruct (m w) as [[] w']. Qed.

Lemma keeps_ignore {A} (m : M W A) : keeps R m → keeps R (ignore m).
Proof. intros Hm. apply keeps_bind; [by apply keeps_try|]. intros. apply keeps_ret. Qed.

Lemma keeps_wrap {A} msg (m : M W A) : keeps R m → keeps R (wrap msg m).
Proof. intros Hm w. specialize (Hm w). unfold wrap. by destruct (m w) as [[] w']. Qed.

Lemma keeps_explain {A} msg (m : M W A) : keeps R m → keeps R (explain msg m).
Proof. intros Hm w. specialize (Hm w). unfold explain. by destruct (m w) as [[] w']. Qed.

Lemma keeps_with_defer {A} (body : M W A) d :
  keeps R body → (∀ o, keeps R (d o)) → keeps R (with_defer body d).
Proof.
  intros Hb Hd w. specialize (Hb w). unfold with_defer.
  destruct (body w) as [o w'] eqn:E. simpl in Hb.
  destruct o as [a|e|p|]; [..|done];
    match goal with |- context [d ?o w'] => pose proof (Hd o w'); destruct (d o w') as [[] ?] end;
    simpl in *; by etrans.
Qed.

Lemma keeps_on_error {A} d (o : outcome A) : keeps R d → keeps R (on_error d o).
Proof. destruct o; simpl; intros; first [done | apply keeps_ret]. Qed.

Lemma keeps_fold_m {A B} (body : B → A → M W B) acc l :
  (∀ b x, keeps R (body b x)) → keeps R (fold_m body acc l).
Proof.
  intros Hb. revert acc. induction l as [|x l IH]; intros acc; simpl; [apply keeps_ret|].
  by apply keeps_bind.
Qed.

(** The same where the body is known to keep the relation on the list only. *)
Lemma keeps_fold_m_in {A B} (body : B → A → M W B) acc l :
  (∀ b x, x ∈ l → keeps R (body b x)) → keeps R (fold_m body acc l).
Proof.
  intros Hb. revert acc Hb. induction l as [|x l IH]; intros acc Hb; simpl; [apply keeps_ret|].
  apply keeps_bind; [apply Hb; by left|]. intros b. apply IH. intros b' y Hy. apply Hb. by right.
Qed.

Lemma keeps_fmap {A B} (f : A → B) (m : M W A) : keeps R m → keeps R (f <$> m).
Proof. intros Hm. apply keeps_bind; [done|]. intros. apply keeps_ret. Qed.

End wp_rules.

Create HintDb keeps discriminated.

(** Proves [keeps R m] by the structure of [m]: the rules above, case analysis
    on the branches of the source, and the hints of [keeps] for the calls. *)
Ltac keeps_step :=
  first
    [ progress intros
    | assumption
    | match goal with |- PreOrder _ => apply _ end
    | apply keeps_ret | apply keeps_fail | apply keeps_crash | apply keeps_hang | apply keeps_deref
    | solve [auto with keeps nocore]
    | apply keeps_bind | apply keeps_with_defer | apply keeps_wrap | apply keeps_explain | apply keeps_try
    | apply keeps_ignore | apply keeps_on_error | apply keeps_fold_m | apply keeps_fmap
    | match goal with
      | |- keeps _ (match ?x with _ => _ end) => destruct x
      end ].

Ltac keeps_solve := repeat keeps_step.

(** How a computation ends: never with a panic, and blocked only where [h]
    allows it.  [returns]: with a value or an error; [never_panics]: a value,
    an error, or blocked. *)
Definition settled {A} (h : bool) (o : outcome A) : Prop :=
  match o with
  | Ok _ | Err _ => True
  | Panic _ => False
  | Hang => h = true
  end.

Definition settles {W A} (h : bool) (m : M W A) : Prop := ∀ w, settled h (m w).1.

Notation returns_outcome := (settled false).
Notation returns := (settles false).
Notation never_panics := (settles true).

Section returns_rules.
Context {W : Type} (h : bool).

Lemma returns_ret {A} (a : A) : settles (W := W) h (mret a).
Proof. done. Qed.
Lemma returns_fail {A} e : settles h (@fail W A e).
Proof. done. Qed.

Lemma returns_deref {A} (p : option A) : is_Some p → settles (W := W) h (deref p).
Proof. by intros [a ->]. Qed.

Lemma returns_bind {A B} (m : M W A) (k : A → M W B) :
  settles h m → (∀ a, settles h (k a)) → settles h (m ≫= k).
Proof.
  intros Hm Hk w. specialize (Hm w). unfold mbind, M_bind.
  destruct (m w) as [[a|e|p|] w']; simpl in *; [apply Hk|done..].
Qed.

Lemma returns_fmap {A B} (f : A → B) (m : M W A) : settles h m → settles h (f <$> m).
Proof. intros Hm. by apply returns_bind. Qed.

Lemma returns_try {A} (m : M W A) : settles h m → settles h (try m).
Proof. intros Hm w. specialize (Hm w). unfold try. by destruct (m w) as [[] w']. Qed.

Lemma returns_ignore {A} (m : M W A) : settles h m → settles h (ignore m).
Proof. intros Hm. apply returns_bind; [by apply returns_try|done]. Qed.

Lemma returns_wrap {A} msg (m : M W A) : settles h m → settles h (wrap msg m).
Proof. intros Hm w. specialize (Hm w). unfold wrap. by destruct (m w) as [[] w']. Qed.

Lemma returns_explain {A} msg (m : M W A) : settles h m → settles h (explain msg m).
Proof. intros Hm w. specialize (Hm w). unfold explain. by destruct (m w) as [[] w']. Qed.

Lemma returns_on_error {A} (d : M W unit) (o : outcome A) : settles h d → settles h (on_error d o).
Proof. by destruct o. Qed.

Lemma returns_with_defer {A} (body : M W A) d :
  settles h body → (∀ o, settles h (d o)) → settles h (with_defer body d).
Proof.
  intros Hb Hd w. specialize (Hb w). unfold with_defer.
  destruct (body w) as [o w'] eqn:E. simpl in Hb.
  destruct o as [a|e|p|]; [| |done..];
    match goal with |- context [d ?o w'] => pose proof (Hd o w'); by destruct (d o w') as [[] ?] end.
Qed.

Lemma returns_fold_m {A B} (body : B → A → M W B) acc l :
  (∀ b x, settles h (body b x)) → settles h (fold_m body acc l).
Proof.
  intros Hb. revert acc. induction l as [|x l IH]; intros acc; simpl; [done|].
  by apply returns_bind.
Qed.

Lemma returns_fold_m_in {A B} (body : B → A → M W B) acc l :
  (∀ b x, x ∈ l → settles h (body b x)) → settles h (fold_m body acc l).
Proof.
  revert acc. induction l as [|x l IH]; intros acc Hb; simpl; [done|].
  apply returns_bind; [apply Hb; by left|]. intros b. apply IH. intros b' y Hy. apply Hb. by right.
Qed.

Lemma wp_returns {A} (m : M W A) w : settles h m → wp m (λ o _, settled h o) w.
Proof. intros H. apply H. Qed.

(** An ignored call that returns always continues. *)
Lemma wp_ignore_returns {A} (m : M W A) (P : W → Prop) w :
  returns m → wp m (λ _ w', P w') w → wp (ignore m) (λ o w', o = Ok () ∧ P w') w.
Proof.
  intros Hr HP. apply wp_ignore. specialize (Hr w). unfold wp in *.
  destruct (m w) as [[] w']; simpl in *; by split.
Qed.

(** A computation that returns never panics either. *)
Lemma returns_weaken {A} (m : M W A) : returns m → settles h m.
Proof. intros Hm w. specialize (Hm w). by destruct (m w) as [[] w']. Qed.
End returns_rules.

Create HintDb returns discriminated.

Ltac returns_step :=
  first
    [ progress intros
    | assumption
    | apply returns_ret | apply returns_fail
    | solve [auto with returns nocore]
    | solve [apply returns_weaken; auto with returns nocore]
    | apply returns_bind | apply returns_with_defer | apply returns_wrap | apply returns_explain | apply returns_try
    | apply returns_ignore | apply returns_on_error | apply returns_fold_m | apply returns_fmap
    | match goal with
      | |- settles _ (match ?x with _ => _ end) => destruct x
      end ].

Ltac returns_solve := repeat returns_step.

(** A property of the value returned, from whatever world. *)
Section yields.
Context {W : Type}.

Definition yields {A} (P : A → Prop) (m : M W A) : Prop := ∀ w, wp m (λ o _, ∀ a, o = Ok a → P a) w.

Lemma yields_ret {A} (P : A → Prop) a : P a → yields P (mret a).
Proof. intros HP w. apply wp_ret. by intros ? [= <-]. Qed.

Lemma yields_fail {A} (P : A → Prop) e : yields P (fail e).
Proof. intros w. by apply wp_fail. Qed.

Lemma yields_crash {A} (P : A → Prop) p : yields P (crash p).
Proof. intros w. by apply wp_crash. Qed.

Lemma yields_bind {A B} (P : B → Prop) (m : M W A) (k : A → M W B) :
  (∀ a, yields P (k a)) → yields P (m ≫= k).
Proof.
  intros Hk w. apply wp_bind. unfold wp at 1.
  destruct (m w) as [[a|e|p|] w']; simpl; [apply Hk|done..].
Qed.

Lemma yields_with_defer {A} (P : A → Prop) (body : M W A) d :
  yields P body → yields P (with_defer body d).
Proof.
  intros Hb w. apply wp_with_defer. eapply wp_mono; [|apply (Hb w)].
  intros [a|e|p|] w' HP; [..|done]; unfold wp; destruct (d _ w') as [[] w'']; naive_solver.
Qed.

Lemma yields_wrap {A} (P : A → Prop) msg (m : M W A) : yields P m → yields P (wrap msg m).
Proof.
  intros Hm w. apply wp_wrap. eapply wp_mono; [|apply (Hm w)]. by intros [] w' HP.
Qed.
End yields.

(** One step of symbolic execution of a [wp] goal. *)
Ltac wp_step :=
  first
    [ apply wp_ret | apply wp_fail | apply wp_crash | apply wp_hang | apply wp_bind | apply wp_fmap
    | apply wp_try | apply wp_ignore | apply wp_wrap | apply wp_explain | apply wp_with_defer | apply wp_on_error
    | match goal with
      | |- wp (match ?x with _ => _ end) _ _ => let E := fresh "E" in destruct x eqn:E
      end ]; simpl.

(** * Running a computation on a concrete world *)

Definition is_ok {A} (o : outcome A) : bool := match o with Ok _ => true | _ => false end.
Definition is_err {A} (o : outcome A) : bool := match o with Err _ => true | _ => false end.

Lemma run_ok {W A} (m : M W A) w : is_ok (m w).1 = true → ∃ a w', m w = (Ok a, w').
Proof. destruct (m w) as [[] w']; naive_solver. Qed.

Lemma run_err {W A} (m : M W A) w : is_err (m w).1 = true → ∃ e w', m w = (Err e, w').
Proof. destruct (m w) as [[] w']; naive_solver. Qed.

Lemma wp_elim {W A} (m : M W A) (Q : outcome A → W → Prop) w o w' :
  m w = (o, w') → wp m Q w → Q o w'.
Proof. unfold wp. by intros ->. Qed.

(** The entries of a map, by its keys in any order. *)
Lemma keys_to_list {A} (m : gmap string A) ks :
  ks ≡ₚ elements (dom m) → omap (λ k, pair k <$> m !! k) ks ≡ₚ map_to_list m.
Proof.
  intros ->. apply NoDup_Permutation.
  - apply (NoDup_fmap_1 fst).
    assert (∀ ks, (omap (λ k, pair k <$> m !! k) ks).*1 `sublist_of` ks) as Hsub.
    { clear. induction ks as [|k ks IH]; simpl; [done|]. destruct (m !! k); simpl; by constructor. }
    eapply sublist_NoDup; [|apply Hsub]. apply NoDup_elements.
  - apply NoDup_map_to_list.
  - intros [k x]. rewrite elem_of_map_to_list, list_elem_of_omap. split.
    + intros (k' & _ & Hk). destruct (m !! k') eqn:Hm; simplify_eq/=. done.
    + intros Hk. exists k. rewrite elem_of_elements, elem_of_dom, Hk. eauto.
Qed.

(** Elements with different keys. *)
Lemma NoDup_fmap_same {A B} (f : A → B) (l : list A) x y :
  NoDup (f <$> l) → x ∈ l → y ∈ l → f x = f y → x = y.
Proof.
  intros Hnd [i Hi]%list_elem_of_lookup [j Hj]%list_elem_of_lookup Hf. assert (i = j) as ->; [|congruence].
  eapply NoDup_lookup; [exact Hnd|..]; rewrite list_lookup_fmap; [by rewrite Hi|by rewrite Hj, Hf].
Qed.

(** * Boolean filters *)

Section filters.
Context {A : Type}.
Implicit Types (f g : A → bool) (l : list A).

Lemma elem_of_bfilter f l x : x ∈ List.filter f l ↔ x ∈ l ∧ f x = true.
Proof. by rewrite !list_elem_of_In, filter_In. Qed.

Lemma bfilter_idem f l : List.filter f (List.filter f l) = List.filter f l.
Proof. induction l as [|x l IH]; simpl; [done|]. destruct (f x) eqn:Ef; simpl; by rewrite ?Ef, ?IH. Qed.

(** A filter sees nothing of a coarser filter below it. *)
Lemma bfilter_bfilter f g l :
  (∀ x, f x = true → g x = true) → List.filter f (List.filter g l) = List.filter f l.
Proof.
  intros H. induction l as [|x l IH]; simpl; [done|].
  destruct (g x) eqn:Eg; simpl; [by rewrite IH|]. rewrite IH.
  destruct (f x) eqn:Ef; [|done]. apply H in Ef. congruence.
Qed.

Lemma bfilter_all f l : (∀ x, x ∈ l → f x = true) → List.filter f l = l.
Proof.
  induction l as [|x l IH]; intros H; simpl; [done|].
  rewrite (H x) by (by left). f_equal. apply IH. intros y Hy. apply H. by right.
Qed.

Lemma bfilter_none f l : (∀ x, x ∈ l → f x = false) → List.filter f l = [].
Proof.
  induction l as [|x l IH]; intros H; simpl; [done|].
  rewrite (H x) by (by left). apply IH. intros y Hy. apply H. by right.
Qed.

Lemma bfilter_sublist f l : List.filter f l `sublist_of` l.
Proof. induction l as [|x l IH]; simpl; [done|]. destruct (f x); by constructor. Qed.

#[global] Instance bfilter_perm f : Proper ((≡ₚ) ==> (≡ₚ)) (List.filter f).
Proof.
  intros l l' H. induction H as [|x l l' H IH|x y l|l1 l2 l3 _ IH1 _ IH2]; simpl.
  - done.
  - destruct (f x); by rewrite IH.
  - destruct (f x), (f y); [apply Permutation_swap|done..].
  - by etrans.
Qed.
End filters.
