(* ===== verification/Wire.v ===== *)
(** The wire format: what the generated code of [runtimepb], [aranyagopb] and
    [arhatgopb] does with bytes.

    The generator repeats one pattern per kind of field; each pattern is a
    definition here, and [Messages] composes them in the order of the generated
    functions.  An encoder fills a buffer from its end: it is a computation on
    the buffer, and an index outside of it panics.  A decoder is a computation
    on the index [iNdEx]; the bytes do not change.  Integers keep their width:
    [uint w] and [sint w] are the conversions to [w] bits. *)

From stdpp Require Import base strings list numbers.
From S2P Require Import Prelude.

Local Open Scope Z_scope.
Local Open Scope list_scope.

Notation buffer := (list Ascii.ascii).

(** ** Numbers and bytes *)

Definition uint (w x : Z) : Z := x mod 2 ^ w.
Definition sint (w x : Z) : Z :=
  if uint w x <? 2 ^ (w - 1) then uint w x else uint w x - 2 ^ w.

(** [uint8(v)] and back. *)
Definition byte_of (v : Z) : Ascii.ascii := Ascii.ascii_of_N (Z.to_N (uint 8 v)).
Definition byte_val (b : Ascii.ascii) : Z := Z.of_N (Ascii.N_of_ascii b).

(** A Go string and its bytes. *)
Notation to_bytes := String.list_ascii_of_string.
Notation of_bytes := String.string_of_list_ascii.

Notation size d := (Z.of_nat (length d)).

(** ** Encoding *)

(** [dAtA[i] = b] *)
Definition put (i : Z) (b : Ascii.ascii) : M buffer unit := λ d,
  if (0 <=? i) && (i <? size d) then (Ok (), <[Z.to_nat i := b]> d) else (Panic IndexOutOfRange, d).

(** [copy(dAtA[i:], src)] *)
Definition copy_at (i : Z) (src : buffer) : M buffer unit := λ d,
  if (0 <=? i) && (i <=? size d) then
    let k := Z.to_nat i in
    (Ok (), take k d ++ take (length d - k) src ++ drop (k + length src) d)
  else (Panic IndexOutOfRange, d).

(** [math_bits.Len64] and [sovRuntime] *)
Definition Len64 (x : Z) : Z := if x =? 0 then 0 else Z.log2 x + 1.
Definition sov (x : Z) : Z := (Len64 (Z.lor x 1) + 6) / 7.

(** The loop of [encodeVarintRuntime]; 64 bits take at most ten bytes. *)
Fixpoint put_varint (fuel : nat) (offset v : Z) : M buffer unit :=
  match fuel with
  | O => hang
  | S fuel =>
      if 128 <=? v then
        put offset (byte_of (Z.lor (Z.land v 127) 128));;
        put_varint fuel (offset + 1) (Z.shiftr v 7)
      else put offset (byte_of v)
  end.

Definition encodeVarint (offset v : Z) : M buffer Z :=
  let offset := offset - sov v in
  put_varint 10 offset v;;
  mret offset.

(** [i--; dAtA[i] = tag] *)
Definition put_tag (tag i : Z) : M buffer Z :=
  put (i - 1) (byte_of tag);;
  mret (i - 1).

(** An integer, an enum ([uint64(m.F)] extends the sign), or nothing for zero. *)
Definition put_int (tag v i : Z) : M buffer Z :=
  if v =? 0 then mret i
  else
    i ← encodeVarint i (uint 64 v);
    put_tag tag i.

Definition put_bool (tag : Z) (v : bool) (i : Z) : M buffer Z :=
  if v then
    put (i - 1) (byte_of 1);;
    put_tag tag (i - 1)
  else mret i.

(** An element of a repeated field is written even when it is empty. *)
Definition put_item (tag : Z) (b : buffer) (i : Z) : M buffer Z :=
  let i := i - size b in
  copy_at i b;;
  i ← encodeVarint i (size b);
  put_tag tag i.

Definition put_bytes (tag : Z) (b : buffer) (i : Z) : M buffer Z :=
  if size b =? 0 then mret i else put_item tag b i.

(** [for iNdEx := len(m.F) - 1; iNdEx >= 0; iNdEx--] *)
Fixpoint put_all {A} (item : A → Z → M buffer Z) (l : list A) (i : Z) : M buffer Z :=
  match l with
  | [] => mret i
  | x :: l => i ← put_all item l i; item x i
  end.

(** A nested message: [f] writes at the end of [dAtA[:i]] and answers how many
    bytes it wrote. *)
Definition put_message (tag : Z) (f : M buffer Z) (i : Z) : M buffer Z :=
  n ← (λ d, let '(o, d') := f (take (Z.to_nat i) d) in (o, d' ++ drop (Z.to_nat i) d));
  i ← encodeVarint (i - n) (uint 64 n);
  put_tag tag i.

(** An entry of a map with string keys and values: value, key, length, tag. *)
Definition put_entry (tag : Z) (kv : buffer * buffer) (i : Z) : M buffer Z :=
  let baseI := i in
  i ← put_item 18 kv.2 i;
  i ← put_item 10 kv.1 i;
  i ← encodeVarint i (baseI - i);
  put_tag tag i.

(** [MarshalToSizedBuffer]: the fields are written from the last to the first,
    [i] starts at the end. *)
Fixpoint put_fields (fields : list (Z → M buffer Z)) (i : Z) : M buffer Z :=
  match fields with
  | [] => mret i
  | f :: fields => i ← put_fields fields i; f i
  end.

Definition MarshalToSizedBuffer (fields : list (Z → M buffer Z)) : M buffer Z := λ d,
  (i ← put_fields fields (size d); mret (size d - i)) d.

(** [Marshal]: [make([]byte, size)] is full of zeros. *)
Definition Marshal (n : Z) (fields : list (Z → M buffer Z)) : outcome buffer :=
  match MarshalToSizedBuffer fields (replicate (Z.to_nat n) (byte_of 0)) with
  | (Ok k, d) => Ok (take (Z.to_nat k) d)
  | (Err e, _) => Err e
  | (Panic p, _) => Panic p
  | (Hang, _) => Hang
  end.

(** The sizes of the fields. *)
Definition size_int (v : Z) : Z := if v =? 0 then 0 else 1 + sov (uint 64 v).
Definition size_bool (v : bool) : Z := if v then 2 else 0.
Definition size_item (l : Z) : Z := 1 + l + sov (uint 64 l).
Definition size_bytes (l : Z) : Z := if 0 <? l then size_item l else 0.
Definition sum_sizes {A} (f : A → Z) (l : list A) : Z := foldl (λ n x, n + f x) 0 l.

(** ** Decoding *)

Definition ErrIntOverflow : error := Errorf "proto: integer overflow".
Definition ErrInvalidLength : error := Errorf "proto: negative length found during unmarshaling".
Definition ErrUnexpectedEndOfGroup : error := Errorf "proto: unexpected end of group".
Definition ErrUnexpectedEOF : error := ErrExt "unexpected EOF".
Definition wrong_wireType : error := Errorf "proto: wrong wireType".

Definition get : M Z Z := λ i, (Ok i, i).
Definition set (i : Z) : M Z unit := λ _, (Ok (), i).
Definition returned {A} (o : outcome A) : M Z A := λ i, (o, i).

Section decoding.
Context (d : buffer).

(** [if iNdEx >= l { ... }; b := dAtA[iNdEx]; iNdEx++] *)
Definition next_byte : M Z Z :=
  i ← get;
  if size d <=? i then fail ErrUnexpectedEOF
  else
    match (if 0 <=? i then d !! Z.to_nat i else None) with
    | Some b => set (i + 1);; mret (byte_val b)
    | None => crash IndexOutOfRange
    end.

(** [x |= T(b&0x7F) << shift]; [conv] is the conversion to [T]. *)
Fixpoint varint_loop (conv : Z → Z) (fuel : nat) (shift x : Z) : M Z Z :=
  if 64 <=? shift then fail ErrIntOverflow
  else
    match fuel with
    | O => hang
    | S fuel =>
        b ← next_byte;
        let x := Z.lor x (conv (Z.shiftl (Z.land b 127) shift)) in
        if b <? 128 then mret x else varint_loop conv fuel (shift + 7) x
    end.

Definition read_varint (conv : Z → Z) : M Z Z := varint_loop conv 11 0 0.

(** The bytes of a field of length [n]. *)
Definition read_length (n : Z) : M Z buffer :=
  if n <? 0 then fail ErrInvalidLength
  else
    i ← get;
    let postIndex := sint 64 (i + n) in
    if postIndex <? 0 then fail ErrInvalidLength
    else if size d <? postIndex then fail ErrUnexpectedEOF
    else if (0 <=? i) && (i <=? postIndex) then
      set postIndex;;
      mret (take (Z.to_nat (postIndex - i)) (drop (Z.to_nat i) d))
    else crash IndexOutOfRange.

(** [byteLen |= int(b&0x7F) << shift]; [msglen] is read the same way. *)
Definition read_bytes : M Z buffer :=
  n ← read_varint (sint 64);
  read_length n.

(** [stringLen |= uint64(b&0x7F) << shift], then [int(stringLen)]. *)
Definition read_string : M Z string :=
  n ← read_varint (uint 64);
  b ← read_length (sint 64 n);
  mret (of_bytes b).

(** [bool(v != 0)] *)
Definition read_bool : M Z bool :=
  v ← read_varint (sint 64);
  mret (negb (v =? 0)).

(** The loop of [skipRuntime]. *)
Fixpoint skip_loop (fuel : nat) (depth : Z) : M Z Z :=
  i ← get;
  if size d <=? i then fail ErrUnexpectedEOF
  else
    match fuel with
    | O => hang
    | S fuel =>
        wire ← read_varint (uint 64);
        depth ←
          match Z.land wire 7 with
          | 0 => read_varint (uint 64);; mret depth
          | 1 => i ← get; set (sint 64 (i + 8));; mret depth
          | 2 =>
              n ← read_varint (sint 64);
              if n <? 0 then fail ErrInvalidLength
              else i ← get; set (sint 64 (i + n));; mret depth
          | 3 => mret (depth + 1)
          | 4 => if depth =? 0 then fail ErrUnexpectedEndOfGroup else mret (depth - 1)
          | 5 => i ← get; set (sint 64 (i + 4));; mret depth
          | _ => fail (Errorf "proto: illegal wireType")
          end;
        i ← get;
        if i <? 0 then fail ErrInvalidLength
        else if depth =? 0 then mret i
        else skip_loop fuel depth
    end.
End decoding.

Definition skip (d : buffer) : outcome Z := (skip_loop d (S (length d)) 0 0).1.

Section fields.
Context (d : buffer).

(** A field that the message does not know. *)
Definition skip_field (preIndex : Z) : M Z unit :=
  set preIndex;;
  skippy ← returned (skip (drop (Z.to_nat preIndex) d));
  let next := sint 64 (preIndex + skippy) in
  if skippy <? 0 then fail ErrInvalidLength
  else if next <? 0 then fail ErrInvalidLength
  else if size d <? next then fail ErrUnexpectedEOF
  else set next.

(** The entry of a map with string keys up to [postIndex]; [value] reads a
    value.  The end of an unknown field is compared with [postIndex] only. *)
Fixpoint entry_loop {V} (value : M Z V) (fuel : nat) (postIndex : Z) (kv : string * V) : M Z (string * V) :=
  i ← get;
  if postIndex <=? i then mret kv
  else
    match fuel with
    | O => hang
    | S fuel =>
        wire ← read_varint d (uint 64);
        let fieldNum := sint 32 (Z.shiftr wire 3) in
        if fieldNum =? 1 then
          k ← read_string d;
          entry_loop value fuel postIndex (k, kv.2)
        else if fieldNum =? 2 then
          v ← value;
          entry_loop value fuel postIndex (kv.1, v)
        else
          set i;;
          skippy ← returned (skip (drop (Z.to_nat i) d));
          let next := sint 64 (i + skippy) in
          if skippy <? 0 then fail ErrInvalidLength
          else if postIndex <? next then fail ErrUnexpectedEOF
          else set next;; entry_loop value fuel postIndex kv
    end.

(** An entry; [zero] is the value when none is given. *)
Definition read_entry {V} (value : M Z V) (zero : V) : M Z (string * V) :=
  n ← read_varint d (sint 64);
  if n <? 0 then fail ErrInvalidLength
  else
    i ← get;
    let postIndex := sint 64 (i + n) in
    if postIndex <? 0 then fail ErrInvalidLength
    else if size d <? postIndex then fail ErrUnexpectedEOF
    else
      kv ← entry_loop value (S (S (length d))) postIndex (""%string, zero);
      set postIndex;;
      mret kv.

(** The loop of [Unmarshal].  [field] is the [switch] on the number of a field:
    how the message reads it, or nothing when it is unknown. *)
Fixpoint fields_loop {A} (field : A → Z → Z → option (M Z A)) (fuel : nat) (m : A) : M Z A :=
  preIndex ← get;
  if size d <=? preIndex then
    if size d <? preIndex then fail ErrUnexpectedEOF else mret m
  else
    match fuel with
    | O => hang
    | S fuel =>
        wire ← read_varint d (uint 64);
        let fieldNum := sint 32 (Z.shiftr wire 3) in
        let wireType := Z.land wire 7 in
        if wireType =? 4 then fail (Errorf "proto: wiretype end group for non-group")
        else if fieldNum <=? 0 then fail (Errorf "proto: illegal tag")
        else
          m ← match field m fieldNum wireType with
              | Some read => read
              | None => skip_field preIndex;; mret m
              end;
          fields_loop field fuel m
    end.

(** [if wireType != w { return ... }] *)
Definition with_type {A} (w wireType : Z) (read : M Z A) : M Z A :=
  if wireType =? w then read else fail wrong_wireType.
End fields.

Definition Unmarshal {A} (field : buffer → A → Z → Z → option (M Z A)) (m : A) (d : buffer) : outcome A :=
  (fields_loop d (field d) (S (length d)) m 0).1.
