(* ===== verification/WireProofs.v ===== *)
(** The wire format: what the encoders write and what the decoders read.

    [emits f s]: the encoder [f] writes [s] in front of what is there already;
    [reads r s a]: the decoder [r] takes [s] and answers [a], whatever surrounds
    it.  Both compose over the fields of a message. *)

From stdpp Require Import base strings list sets numbers.
From S2P Require Import Prelude Wire.

Local Open Scope Z_scope.
Local Open Scope list_scope.

(** ** Integers of a width *)

Lemma uint_small w x : 0 ≤ x < 2 ^ w → uint w x = x.
Proof. apply Z.mod_small. Qed.

Lemma uint_bound w x : 0 ≤ w → 0 ≤ uint w x < 2 ^ w.
Proof. intros. apply Z.mod_pos_bound. lia. Qed.

Lemma uint_idem w x : 0 ≤ w → uint w (uint w x) = uint w x.
Proof. intros. by apply uint_small, uint_bound. Qed.

Lemma pow2_half w : 0 < w → 2 ^ w = 2 * 2 ^ (w - 1).
Proof. intros. rewrite <- Z.pow_succ_r by lia. f_equal. lia. Qed.

Lemma sint_small w x : 0 < w → - 2 ^ (w - 1) ≤ x < 2 ^ (w - 1) → sint w x = x.
Proof.
  intros Hw Hx. unfold sint, uint. pose proof (pow2_half w Hw).
  destruct (decide (0 ≤ x)).
  - rewrite Z.mod_small by lia. by rewrite (proj2 (Z.ltb_lt _ _)) by lia.
  - rewrite <- (Z.mod_unique x (2 ^ w) (-1) (x + 2 ^ w)) by lia.
    rewrite (proj2 (Z.ltb_ge _ _)) by lia. lia.
Qed.

Lemma sint_bound w x : 0 < w → - 2 ^ (w - 1) ≤ sint w x < 2 ^ (w - 1).
Proof.
  intros Hw. unfold sint. pose proof (pow2_half w Hw). pose proof (uint_bound w x).
  destruct (Z.ltb_spec (uint w x) (2 ^ (w - 1))); lia.
Qed.

Lemma sint64_small x : - 2 ^ 63 ≤ x < 2 ^ 63 → sint 64 x = x.
Proof. intros. by apply sint_small. Qed.

(** A conversion to a narrower type forgets the wider one. *)
Lemma sint_uint w v x : 0 < w ≤ v → sint w (uint v x) = sint w x.
Proof.
  intros Hw. unfold sint. enough (uint w (uint v x) = uint w x) as -> by done. unfold uint.
  rewrite <- !Z.land_ones by lia. apply Z.bits_inj'. intros n Hn.
  rewrite !Z.land_spec, !Z.testbit_ones_nonneg by lia.
  destruct (Z.ltb_spec n w), (Z.ltb_spec n v); try lia; by rewrite ?andb_false_r, ?andb_true_r.
Qed.

Lemma sint_uint_small w x : 0 < w ≤ 64 → - 2 ^ (w - 1) ≤ x < 2 ^ (w - 1) → sint w (uint 64 x) = x.
Proof. intros. by rewrite sint_uint, sint_small by lia. Qed.

Lemma uint_uint_small w x : 0 < w ≤ 64 → 0 ≤ x < 2 ^ w → uint w (uint 64 x) = x.
Proof.
  intros. rewrite (uint_small 64); [by apply uint_small|]. split; [lia|].
  eapply Z.lt_le_trans; [apply H0|]. apply Z.pow_le_mono_r; lia.
Qed.

(** The bits of a conversion: those of the number, and the sign. *)
Lemma testbit_uint w x n : 0 ≤ n → 0 ≤ w → Z.testbit (uint w x) n = (n <? w) && Z.testbit x n.
Proof.
  intros. unfold uint. rewrite <- Z.land_ones by lia. rewrite Z.land_spec, Z.testbit_ones_nonneg by lia.
  apply andb_comm.
Qed.

Lemma testbit_sint w x n :
  0 ≤ n → 0 < w → Z.testbit (sint w x) n = Z.testbit x (if n <? w then n else w - 1).
Proof.
  intros Hn Hw. unfold sint. pose proof (pow2_half w Hw) as Hp. pose proof (uint_bound w x) as Hb.
  assert (Z.testbit x (w - 1) = negb (uint w x <? 2 ^ (w - 1))) as Hsign.
  { transitivity (Z.testbit (uint w x) (w - 1)).
    { rewrite testbit_uint by lia. by rewrite (proj2 (Z.ltb_lt _ _)) by lia. }
    rewrite Z.testbit_eqb by lia. destruct (Z.ltb_spec (uint w x) (2 ^ (w - 1))) as [Hl|Hl].
    - rewrite Z.div_small by lia. done.
    - replace (uint w x `div` 2 ^ (w - 1)) with 1; [done|].
      apply (Z.div_unique _ _ 1 (uint w x - 2 ^ (w - 1))); lia. }
  destruct (Z.ltb_spec (uint w x) (2 ^ (w - 1))) as [Hl|Hl].
  - rewrite testbit_uint by lia. destruct (Z.ltb_spec n w); [done|]. by rewrite Hsign.
  - replace (uint w x - 2 ^ w) with (Z.lor (uint w x) (Z.shiftl (-1) w)).
    2:{ rewrite Z.shiftl_mul_pow2 by lia. rewrite <- Z.lxor_lor, <- Z.add_nocarry_lxor; [lia|..];
        apply Z.bits_inj'; intros k Hk; rewrite Z.land_spec, <- Z.shiftl_mul_pow2, Z.bits_0 by lia;
        rewrite testbit_uint by lia; destruct (Z.ltb_spec k w); simpl; try done;
        by rewrite Z.shiftl_spec_low, andb_false_r by lia. }
    rewrite Z.lor_spec, testbit_uint by lia. destruct (Z.ltb_spec n w) as [Hk|Hk]; simpl.
    + by rewrite Z.shiftl_spec_low, orb_false_r by lia.
    + rewrite Hsign, Z.shiftl_spec by lia. by rewrite Z.bits_m1 by lia.
Qed.

(** The conversions that an accumulator may use. *)
Class Conv (conv : Z → Z) : Prop := {
  conv_0 : conv 0 = 0;
  conv_lor a b : conv (Z.lor a b) = Z.lor (conv a) (conv b) }.

#[global] Instance conv_uint w : 0 <= w → Conv (uint w).
Proof.
  intros Hw. split; [by apply Zmod_0_l|]. intros a b. apply Z.bits_inj'. intros n Hn.
  rewrite Z.lor_spec, !testbit_uint, Z.lor_spec by lia. by destruct (n <? w).
Qed.

#[global] Instance conv_sint w : 0 < w → Conv (sint w).
Proof.
  intros Hw. split.
  - apply sint_small; [done|]. pose proof (Z.pow_pos_nonneg 2 (w - 1)). lia.
  - intros a b. apply Z.bits_inj'. intros n Hn. by rewrite Z.lor_spec, !testbit_sint, Z.lor_spec by lia.
Qed.

#[global] Hint Extern 0 (Conv (uint _)) => (apply conv_uint; lia) : typeclass_instances.
#[global] Hint Extern 0 (Conv (sint _)) => (apply conv_sint; lia) : typeclass_instances.

(** ** Bytes *)

Lemma byte_val_of v : byte_val (byte_of v) = uint 8 v.
Proof.
  unfold byte_val, byte_of. pose proof (uint_bound 8 v ltac:(lia)).
  rewrite Ascii.N_ascii_embedding by (change 256%N with (Z.to_N 256); lia). lia.
Qed.

Lemma byte_val_bound b : 0 ≤ byte_val b < 256.
Proof. unfold byte_val. pose proof (Ascii.N_ascii_bounded b). lia. Qed.

(** The low seven bits and the rest. *)
Lemma varint_digits v shift :
  0 ≤ shift →
  Z.lor (Z.shiftl (Z.land v 127) shift) (Z.shiftl (Z.shiftr v 7) (shift + 7)) = Z.shiftl v shift.
Proof.
  intros Hs. apply Z.bits_inj'. intros n Hn. rewrite Z.lor_spec, !Z.shiftl_spec by lia.
  change 127 with (Z.ones 7). destruct (Z.ltb_spec n shift).
  { rewrite !Z.testbit_neg_r by lia. done. }
  rewrite Z.land_spec, Z.testbit_ones_nonneg by lia. destruct (Z.ltb_spec (n - shift) 7).
  - rewrite (Z.testbit_neg_r _ (n - (shift + 7))) by lia. by rewrite andb_true_r, orb_false_r.
  - rewrite andb_false_r, Z.shiftr_spec by lia. simpl. f_equal. lia.
Qed.

Lemma low_bits v : 0 ≤ Z.land v 127 < 128.
Proof. change 127 with (Z.ones 7). rewrite Z.land_ones by lia. apply Z.mod_pos_bound. lia. Qed.

Lemma uint8_more v : uint 8 (Z.lor (Z.land v 127) 128) = Z.lor (Z.land v 127) 128 ∧
  Z.land (Z.lor (Z.land v 127) 128) 127 = Z.land v 127 ∧ 128 ≤ Z.lor (Z.land v 127) 128.
Proof.
  assert (Z.lor (Z.land v 127) 128 = Z.land v 127 + 128) as He.
  { rewrite <- Z.lxor_lor, <- Z.add_nocarry_lxor; [done|..];
      rewrite <- Z.land_assoc; change (Z.land 127 128) with 0; apply Z.land_0_r. }
  pose proof (low_bits v) as Hl. split; [|split].
  - rewrite He. apply uint_small. lia.
  - rewrite Z.land_lor_distr_l, <- Z.land_assoc. change (Z.land 128 127) with 0. by rewrite Z.lor_0_r.
  - lia.
Qed.

(** ** What is written *)

Fixpoint varint_digits_of (fuel : nat) (v : Z) : buffer :=
  match fuel with
  | O => []
  | S fuel =>
      if 128 <=? v then byte_of (Z.lor (Z.land v 127) 128) :: varint_digits_of fuel (Z.shiftr v 7)
      else [byte_of v]
  end.
Definition varint (v : Z) : buffer := varint_digits_of 10 v.

Lemma shiftr7_bound k v : 0 ≤ v < 2 ^ (7 * Z.of_nat (S k)) → 0 ≤ Z.shiftr v 7 < 2 ^ (7 * Z.of_nat k).
Proof.
  intros Hv. rewrite Z.shiftr_div_pow2 by lia. split; [apply Z.div_pos; lia|].
  apply Z.div_lt_upper_bound; [lia|]. rewrite <- Z.pow_add_r by lia.
  eapply Z.lt_le_trans; [apply Hv|]. apply Z.pow_le_mono_r; lia.
Qed.

Lemma sov_log v : 0 ≤ v → sov v = Z.log2 v / 7 + 1.
Proof.
  intros Hv. unfold sov, Len64.
  assert (1 ≤ Z.lor v 1) as H1.
  { assert (0 ≤ Z.lor v 1) by (apply Z.lor_nonneg; lia).
    assert (Z.lor v 1 ≠ 0); [|lia]. intros H0%Z.lor_eq_0_iff. lia. }
  rewrite (proj2 (Z.eqb_neq _ _)) by lia. rewrite Z.log2_lor by lia. change (Z.log2 1) with 0.
  pose proof (Z.log2_nonneg v). rewrite Z.max_l by done.
  replace (Z.log2 v + 1 + 6) with (Z.log2 v + 1 * 7) by lia. by rewrite Z.div_add.
Qed.

Lemma length_varint_digits k v :
  (0 < k)%nat → 0 ≤ v < 2 ^ (7 * Z.of_nat k) → size (varint_digits_of k v) = sov v.
Proof.
  revert v. induction k as [|k IH]; intros v Hk Hv; [lia|]. simpl.
  rewrite sov_log by lia. destruct (Z.leb_spec 128 v) as [Hl|Hl].
  - assert (7 ≤ Z.log2 v) by (apply (Z.log2_le_pow2 v 7); lia).
    assert (k ≠ O) by (intros ->; simpl in Hv; lia).
    cbn [length]. rewrite Nat2Z.inj_succ, IH by (try apply shiftr7_bound; lia).
    pose proof (shiftr7_bound k v Hv). rewrite sov_log, Z.log2_shiftr by lia.
    rewrite Z.max_r by lia. replace (Z.log2 v) with (Z.log2 v - 7 + 1 * 7) at 2 by lia.
    rewrite Z.div_add by lia. lia.
  - rewrite Z.div_small; [done|]. split; [apply Z.log2_nonneg|].
    destruct (decide (v = 0)) as [->|]; [done|]. apply Z.log2_lt_pow2; lia.
Qed.

Lemma size_varint v : 0 ≤ v < 2 ^ 64 → size (varint v) = sov v.
Proof. intros Hv. apply length_varint_digits; lia. Qed.

(** The fields of a message. *)
Definition enc_int (tag v : Z) : buffer :=
  if v =? 0 then [] else byte_of tag :: varint (uint 64 v).
Definition enc_bool (tag : Z) (v : bool) : buffer := if v then [byte_of tag; byte_of 1] else [].
Definition enc_item (tag : Z) (b : buffer) : buffer := byte_of tag :: varint (size b) ++ b.
Definition enc_bytes (tag : Z) (b : buffer) : buffer := if size b =? 0 then [] else enc_item tag b.
Definition enc_entry (tag : Z) (kv : buffer * buffer) : buffer :=
  enc_item tag (enc_item 10 kv.1 ++ enc_item 18 kv.2).

(** [f], called with the index behind a gap of the size of [s], fills the gap
    with [s] and answers the index in front of it. *)
Definition emits (f : Z → M buffer Z) (s : buffer) : Prop :=
  ∀ pre gap post, length gap = length s →
    f (size (pre ++ s)) (pre ++ gap ++ post) = (Ok (size pre), pre ++ s ++ post).

(** The same for an encoder of a whole message, whose buffer ends behind the gap. *)
Definition fills (f : M buffer Z) (s : buffer) : Prop :=
  ∀ pre gap, length gap = length s → f (pre ++ gap) = (Ok (size s), pre ++ s).

Lemma put_run pre x b post : put (size pre) b (pre ++ x :: post) = (Ok (), pre ++ b :: post).
Proof.
  unfold put. rewrite length_app. simpl.
  rewrite (proj2 (Z.leb_le _ _)), (proj2 (Z.ltb_lt _ _)) by lia. simpl.
  by rewrite Nat2Z.id, insert_app_r_alt, Nat.sub_diag by lia.
Qed.

Lemma copy_run pre gap b post : length gap = length b →
  copy_at (size pre) b (pre ++ gap ++ post) = (Ok (), pre ++ b ++ post).
Proof.
  intros Hl. unfold copy_at. rewrite !length_app, Hl.
  rewrite !(proj2 (Z.leb_le _ _)) by lia. simpl. rewrite Nat2Z.id.
  rewrite take_app_length, (take_ge b) by lia.
  replace (length pre + length b)%nat with (length (pre ++ gap)) by by rewrite length_app, Hl.
  by rewrite (app_assoc pre gap), drop_app_length.
Qed.

Lemma put_varint_run k v pre gap post :
  (0 < k)%nat → 0 ≤ v < 2 ^ (7 * Z.of_nat k) → length gap = length (varint_digits_of k v) →
  put_varint k (size pre) v (pre ++ gap ++ post) = (Ok (), pre ++ varint_digits_of k v ++ post).
Proof.
  revert v pre gap. induction k as [|k IH]; intros v pre gap Hk Hv Hg; [lia|]. simpl in *.
  destruct (Z.leb_spec 128 v) as [Hl|Hl]; destruct gap as [|x gap]; try discriminate Hg; simpl in *.
  - assert (k ≠ O) by (intros ->; simpl in Hv; lia).
    unfold mbind, M_bind. rewrite put_run.
    replace (size pre + 1) with (size (pre ++ [byte_of (Z.lor (Z.land v 127) 128)])).
    2:{ rewrite length_app. simpl. lia. }
    set (c := byte_of (Z.lor (Z.land v 127) 128)) in *.
    replace (pre ++ c :: gap ++ post) with ((pre ++ [c]) ++ gap ++ post) by by rewrite <- app_assoc.
    rewrite IH; [by rewrite <- app_assoc|lia|by apply shiftr7_bound|lia].
  - destruct gap; [|done]. apply put_run.
Qed.

Lemma emits_varint v : 0 ≤ v < 2 ^ 64 → emits (λ i, encodeVarint i v) (varint v).
Proof.
  intros Hv pre gap post Hg. unfold encodeVarint. rewrite length_app, Nat2Z.inj_add, size_varint by done.
  replace (size pre + sov v - sov v) with (size pre) by lia.
  unfold mbind, M_bind. unfold varint in *. by rewrite put_varint_run by lia.
Qed.

Lemma emits_ret : emits (λ i, mret i) [].
Proof. intros pre [|] post Hg; [|done]. by rewrite app_nil_r. Qed.

(** Encoders run from the last field to the first. *)
Lemma emits_bind f g s t : emits f s → emits g t → emits (λ i, i ← f i; g i) (t ++ s).
Proof.
  intros Hf Hg pre gap post Hl. rewrite length_app in Hl.
  rewrite <- (take_drop (length t) gap), <- (app_assoc (take _ _)).
  unfold mbind, M_bind. rewrite (app_assoc pre (take _ _)).
  replace (size (pre ++ t ++ s)) with (size ((pre ++ take (length t) gap) ++ s)).
  2:{ rewrite !length_app, length_take. lia. }
  rewrite Hf by (rewrite length_drop; lia).
  replace (size (pre ++ take (length t) gap)) with (size (pre ++ t)).
  2:{ rewrite !length_app, length_take. lia. }
  rewrite <- app_assoc. rewrite (Hg pre _ (s ++ post)) by (rewrite length_take; lia).
  by rewrite <- app_assoc.
Qed.

Lemma emits_tag tag : emits (put_tag tag) [byte_of tag].
Proof.
  intros pre [|x [|]] post Hg; try done. unfold put_tag. rewrite length_app. simpl.
  replace (Z.of_nat (length pre + 1) - 1) with (size pre) by lia.
  unfold mbind, M_bind. by rewrite put_run.
Qed.

Lemma emits_ext f g s : (∀ i d, f i d = g i d) → emits f s → emits g s.
Proof. intros He Hf pre gap post Hl. rewrite <- He. by apply Hf. Qed.

Lemma emits_int tag v : emits (put_int tag v) (enc_int tag v).
Proof.
  unfold put_int, enc_int. destruct (v =? 0); [apply emits_ret|].
  apply (emits_bind _ (put_tag tag) _ [_]); [|apply emits_tag].
  apply emits_varint. by apply uint_bound.
Qed.

Lemma emits_bool tag v : emits (put_bool tag v) (enc_bool tag v).
Proof.
  unfold put_bool, enc_bool. destruct v; [|apply emits_ret].
  apply (emits_ext (λ i, i ← put_tag 1 i; put_tag tag i)).
  { intros i d. unfold put_tag, mbind, M_bind. by destruct (put _ _ d) as [[] ?]. }
  apply (emits_bind _ (put_tag tag) _ [_]); apply emits_tag.
Qed.

Lemma emits_copy b : emits (λ i, copy_at (i - size b) b;; mret (i - size b)) b.
Proof.
  intros pre gap post Hl. rewrite length_app.
  replace (Z.of_nat (length pre + length b) - size b) with (size pre) by lia.
  unfold mbind, M_bind. by rewrite copy_run.
Qed.

Lemma emits_item tag b : size b < 2 ^ 64 → emits (put_item tag b) (enc_item tag b).
Proof.
  intros Hb. unfold enc_item.
  apply (emits_ext (λ i, i ← (λ i, i ← (copy_at (i - size b) b;; mret (i - size b)); encodeVarint i (size b)) i;
                      put_tag tag i)).
  { intros i d. unfold put_item, mbind, M_bind. by destruct (copy_at _ _ d) as [[] ?]. }
  apply (emits_bind _ (put_tag tag) _ [_]); [|apply emits_tag].
  apply (emits_bind _ (λ i, encodeVarint i (size b))); [apply emits_copy|apply emits_varint]. lia.
Qed.

Lemma emits_bytes tag b : size b < 2 ^ 64 → emits (put_bytes tag b) (enc_bytes tag b).
Proof.
  intros Hb. unfold put_bytes, enc_bytes. destruct (size b =? 0); [apply emits_ret|by apply emits_item].
Qed.

Lemma emits_all {A} (item : A → Z → M buffer Z) (enc : A → buffer) l :
  (∀ x, x ∈ l → emits (item x) (enc x)) → emits (put_all item l) (concat (enc <$> l)).
Proof.
  induction l as [|x l IH]; intros Hi; simpl; [apply emits_ret|].
  apply (emits_bind _ (item x)); [|apply Hi; by left]. apply IH. intros y Hy. apply Hi. by right.
Qed.

Lemma emits_message tag f s : size s < 2 ^ 64 → fills f s → emits (put_message tag f) (enc_item tag s).
Proof.
  intros Hs Hf pre gap post Hl. unfold enc_item in *.
  set (k := length (byte_of tag :: varint (size s))).
  assert (length gap = (k + length s)%nat) as Hg.
  { rewrite Hl. unfold k. simpl. by rewrite length_app. }
  rewrite <- (take_drop k gap). set (g1 := take k gap). set (g2 := drop k gap).
  assert (length g1 = k) as H1 by (unfold g1; rewrite length_take; lia).
  assert (length g2 = length s) as H2 by (unfold g2; rewrite length_drop; lia).
  assert (Z.to_nat (size (pre ++ byte_of tag :: varint (size s) ++ s)) = length ((pre ++ g1) ++ g2)) as Hi.
  { rewrite Nat2Z.id. change (byte_of tag :: varint (size s) ++ s) with ((byte_of tag :: varint (size s)) ++ s).
    rewrite !length_app. fold k. lia. }
  unfold put_message. unfold mbind at 1, M_bind at 1. rewrite Hi.
  replace (pre ++ (g1 ++ g2) ++ post) with (((pre ++ g1) ++ g2) ++ post) by by rewrite !app_assoc.
  rewrite take_app_length, drop_app_length, Hf by done. rewrite uint_small by lia.
  pose proof (emits_bind _ (put_tag tag) _ [_] (emits_varint (size s) ltac:(lia)) (emits_tag tag)) as He.
  specialize (He pre g1 (s ++ post) H1). rewrite <- !app_assoc in *. simpl in He |- *.
  rewrite <- (app_assoc (varint _)).
  replace (size (pre ++ byte_of tag :: varint (size s) ++ s) - size s)
    with (size (pre ++ byte_of tag :: varint (size s))); [exact He|].
  rewrite !length_app. simpl. rewrite length_app. lia.
Qed.

(** Something that is written, then its length, then its key; [g] is the
    conversion of the length. *)
Lemma emits_counted (g : Z → Z) f key e kb :
  g (size e) = size e → size e < 2 ^ 64 → emits f e → emits key kb →
  emits (λ i, j ← f i; j ← encodeVarint j (g (i - j)); key j) (kb ++ varint (size e) ++ e).
Proof.
  intros Hg Hs Hf Hkey pre gap post Hl. set (k := length (kb ++ varint (size e))).
  assert (length gap = (k + length e)%nat) as Hgap by (rewrite Hl; unfold k; rewrite !length_app; lia).
  rewrite <- (take_drop k gap). set (g1 := take k gap). set (g2 := drop k gap).
  assert (length g1 = k) as H1 by (unfold g1; rewrite length_take; lia).
  assert (length g2 = length e) as H2 by (unfold g2; rewrite length_drop; lia).
  specialize (Hf (pre ++ g1) g2 post H2).
  assert (size (pre ++ kb ++ varint (size e) ++ e) = size ((pre ++ g1) ++ e)) as Hi.
  { unfold k in H1. rewrite !length_app in *. lia. }
  unfold mbind, M_bind. rewrite Hi.
  replace (pre ++ (g1 ++ g2) ++ post) with ((pre ++ g1) ++ g2 ++ post) by by rewrite !app_assoc.
  rewrite Hf. replace (size ((pre ++ g1) ++ e) - size (pre ++ g1)) with (size e) by (rewrite !length_app; lia).
  rewrite Hg.
  pose proof (emits_bind _ key _ kb (emits_varint (size e) ltac:(lia)) Hkey) as He.
  specialize (He pre g1 (e ++ post) H1). unfold mbind, M_bind in He. rewrite <- app_assoc in *.
  replace (size (pre ++ g1)) with (size (pre ++ kb ++ varint (size e)))
    by (unfold k in H1; rewrite !length_app in *; lia).
  rewrite He. by rewrite <- !app_assoc.
Qed.

Lemma emits_entry tag k v :
  size (enc_item 10 k ++ enc_item 18 v) < 2 ^ 64 →
  emits (put_entry tag (k, v)) (enc_entry tag (k, v)).
Proof.
  intros Hs. apply (emits_ext (λ i, j ← (λ i, i ← put_item 18 v i; put_item 10 k i) i;
    j ← encodeVarint j (id (i - j)); put_tag tag j)).
  { intros i d. unfold put_entry, mbind, M_bind. cbn [fst snd]. by destruct (put_item 18 v i d) as [[] ?]. }
  apply (emits_counted id _ (put_tag tag) _ [_]); [done|done| |apply emits_tag].
  assert (size k < 2 ^ 64 ∧ size v < 2 ^ 64) as [??].
  { revert Hs. unfold enc_item. simpl. rewrite length_app. simpl. rewrite !length_app. lia. }
  apply emits_bind; by apply emits_item.
Qed.

(** ** Whole messages *)

Lemma emits_fields fs ss : Forall2 emits fs ss → emits (put_fields fs) (concat ss).
Proof.
  induction 1 as [|f s fs ss Hf Hfs IH]; simpl; [apply emits_ret|]. by apply (emits_bind _ f).
Qed.

Lemma fills_fields fs ss : Forall2 emits fs ss → fills (MarshalToSizedBuffer fs) (concat ss).
Proof.
  intros Hf pre gap Hl. unfold MarshalToSizedBuffer, mbind, M_bind.
  pose proof (emits_fields fs ss Hf pre gap [] Hl) as He. rewrite !app_nil_r in He.
  replace (size (pre ++ gap)) with (size (pre ++ concat ss)) by (rewrite !length_app; lia).
  rewrite He. unfold mret, M_ret. rewrite length_app. f_equal. f_equal. lia.
Qed.

Lemma Marshal_fills n fs ss :
  Forall2 emits fs ss → n = size (concat ss) → Marshal n fs = Ok (concat ss).
Proof.
  intros Hf ->. unfold Marshal. rewrite Nat2Z.id.
  pose proof (fills_fields fs ss Hf [] (replicate (length (concat ss)) (byte_of 0))) as He.
  simpl in He. rewrite He by apply length_replicate. by rewrite Nat2Z.id, firstn_all.
Qed.

(** The sizes that the code computes. *)
Lemma size_enc_int tag v : size (enc_int tag v) = size_int v.
Proof.
  unfold enc_int, size_int. destruct (v =? 0); [done|]. cbn [length].
  rewrite Nat2Z.inj_succ, size_varint by by apply uint_bound. lia.
Qed.

Lemma size_enc_bool tag v : size (enc_bool tag v) = size_bool v.
Proof. by destruct v. Qed.

Lemma size_enc_item tag b : size b < 2 ^ 64 → size (enc_item tag b) = size_item (size b).
Proof.
  intros Hb. unfold enc_item, size_item. cbn [length]. rewrite length_app, uint_small by lia.
  rewrite <- size_varint by lia. lia.
Qed.

Lemma size_enc_bytes tag b : size b < 2 ^ 64 → size (enc_bytes tag b) = size_bytes (size b).
Proof.
  intros Hb. unfold enc_bytes, size_bytes. destruct (Z.eqb_spec (size b) 0) as [->|]; [done|].
  rewrite (proj2 (Z.ltb_lt _ _)) by lia. by apply size_enc_item.
Qed.

Lemma size_enc_all {A} (enc : A → buffer) (f : A → Z) l :
  (∀ x, x ∈ l → size (enc x) = f x) → size (concat (enc <$> l)) = sum_sizes f l.
Proof.
  unfold sum_sizes. intros Hf.
  assert (∀ n l', l' ⊆ l → foldl (λ n x, n + f x) n l' = n + size (concat (enc <$> l'))) as Hgen.
  { intros n l'. revert n. induction l' as [|x l' IH]; intros n Hsub; [simpl; lia|]. rewrite fmap_cons. cbn [concat foldl].
    rewrite IH by set_solver. rewrite length_app, <- Hf by set_solver. lia. }
  rewrite Hgen by done. lia.
Qed.

(** ** What is read *)

Definition reads {A} (r : buffer → M Z A) (s : buffer) (a : A) : Prop :=
  ∀ pre post, size (pre ++ s ++ post) < 2 ^ 63 →
    r (pre ++ s ++ post) (size pre) = (Ok a, size (pre ++ s)).

Lemma reads_ret {A} (a : A) : reads (λ _, mret a) [] a.
Proof. intros pre post _. by rewrite app_nil_r. Qed.

Lemma reads_bind {A B} (r : buffer → M Z A) (k : buffer → A → M Z B) s t a b :
  reads r s a → reads (λ d, k d a) t b → reads (λ d, x ← r d; k d x) (s ++ t) b.
Proof.
  intros Hr Hk pre post Hl. unfold mbind, M_bind. rewrite <- app_assoc in *.
  rewrite Hr by done. specialize (Hk (pre ++ s) post). rewrite <- !app_assoc in Hk. by rewrite Hk.
Qed.

Lemma reads_map {A B} (r : buffer → M Z A) (f : A → B) s a :
  reads r s a → reads (λ d, x ← r d; mret (f x)) s (f a).
Proof.
  intros Hr. rewrite <- (app_nil_r s).
  apply (reads_bind r (λ _ x, mret (f x)) _ _ a); [done|apply reads_ret].
Qed.

Lemma next_byte_run pre b post :
  next_byte (pre ++ b :: post) (size pre) = (Ok (byte_val b), size (pre ++ [b])).
Proof.
  unfold next_byte, get, set, mbind, M_bind. rewrite !length_app. simpl.
  rewrite (proj2 (Z.leb_gt _ _)), (proj2 (Z.leb_le _ _)) by lia.
  rewrite Nat2Z.id, list_lookup_middle by done. unfold mret, M_ret. f_equal. lia.
Qed.

Lemma varint_loop_run conv k fuel shift a v pre post :
  Conv conv → (0 < k ≤ fuel)%nat → 0 ≤ v < 2 ^ (7 * Z.of_nat k) → 0 ≤ shift < 64 → v < 2 ^ (64 - shift) →
  varint_loop (pre ++ varint_digits_of k v ++ post) conv fuel shift (conv a) (size pre)
  = (Ok (conv (Z.lor a (Z.shiftl v shift))), size (pre ++ varint_digits_of k v)).
Proof.
  intros Hc. revert fuel shift a v pre. induction k as [|k IH]; intros fuel shift a v pre Hk Hv Hs Hb; [lia|].
  destruct fuel as [|fuel]; [lia|]. simpl. rewrite (proj2 (Z.leb_gt _ _)) by lia.
  destruct (Z.leb_spec 128 v) as [Hl|Hl]; simpl; unfold mbind, M_bind; rewrite next_byte_run, byte_val_of.
  - destruct (uint8_more v) as (-> & -> & Hge). rewrite (proj2 (Z.ltb_ge _ _)) by done.
    rewrite <- conv_lor. set (c := byte_of (Z.lor (Z.land v 127) 128)).
    assert (7 < 64 - shift).
    { apply (Z.pow_lt_mono_r_iff 2); [lia..|]. change (2 ^ 7) with 128. lia. }
    assert (k ≠ O) by (intros ->; simpl in Hv; lia).
    replace (pre ++ c :: varint_digits_of k (Z.shiftr v 7) ++ post)
      with ((pre ++ [c]) ++ varint_digits_of k (Z.shiftr v 7) ++ post) by by rewrite <- app_assoc.
    rewrite IH; [|lia|by apply shiftr7_bound|lia|].
    + rewrite <- Z.lor_assoc, varint_digits by lia. by rewrite <- app_assoc.
    + rewrite Z.shiftr_div_pow2 by lia. apply Z.div_lt_upper_bound; [lia|].
      rewrite <- Z.pow_add_r by lia. by replace (7 + (64 - (shift + 7))) with (64 - shift) by lia.
  - rewrite uint_small by lia. rewrite (proj2 (Z.ltb_lt _ _)) by lia.
    change 127 with (Z.ones 7). rewrite Z.land_ones, Z.mod_small by lia. by rewrite <- conv_lor.
Qed.

Lemma reads_varint conv v : Conv conv → 0 ≤ v < 2 ^ 64 → reads (λ d, read_varint d conv) (varint v) (conv v).
Proof.
  intros Hc Hv pre post _. unfold read_varint, varint.
  pose proof (varint_loop_run conv 10 11 0 0 v pre post) as H.
  rewrite (conv_0 (conv := conv)), Z.lor_0_l, Z.shiftl_0_r in H. apply H; [done|lia..].
Qed.

Lemma reads_length b : reads (λ d, read_length d (size b)) b b.
Proof.
  intros pre post Hl. unfold read_length, get, set, mbind, M_bind. rewrite !length_app in *.
  rewrite (proj2 (Z.ltb_ge _ _)) by lia. rewrite sint_small by (simpl; lia).
  rewrite !(proj2 (Z.ltb_ge _ _)) by lia. rewrite !(proj2 (Z.leb_le _ _)) by lia. simpl.
  replace (size pre + size b - size pre) with (size b) by lia.
  rewrite !Nat2Z.id, drop_app_length, take_app_length. unfold mret, M_ret. f_equal. lia.
Qed.

Lemma reads_bytes b : size b < 2 ^ 63 → reads read_bytes (varint (size b) ++ b) b.
Proof.
  intros Hb. apply (reads_bind (λ d, read_varint d (sint 64)) read_length _ _ (sint 64 (size b))).
  - apply reads_varint; [apply _|lia].
  - rewrite sint_small by (simpl; lia). apply reads_length.
Qed.

Lemma reads_string x :
  size (to_bytes x) < 2 ^ 63 → reads read_string (varint (size (to_bytes x)) ++ to_bytes x) x.
Proof.
  intros Hb.
  apply (reads_bind (λ d, read_varint d (uint 64)) (λ d n, b ← read_length d (sint 64 n); mret (of_bytes b))
           _ _ (uint 64 (size (to_bytes x)))).
  - apply reads_varint; [apply _|lia].
  - rewrite sint_uint, sint_small by (simpl; lia).
    pose proof (reads_map _ of_bytes _ _ (reads_length (to_bytes x))) as H.
    by rewrite String.string_of_list_ascii_of_string in H.
Qed.

Lemma reads_bool : reads read_bool [byte_of 1] true.
Proof.
  apply (reads_map (λ d, read_varint d (sint 64)) (λ v, negb (v =? 0)) (varint 1) (sint 64 1)).
  apply reads_varint; [apply _|lia].
Qed.

(** ** The loop over the fields *)

Section parsing.
Context {A : Type} (field : buffer → A → Z → Z → option (M Z A)).

(** The loop takes [s] and turns [m] into [m']. *)
Definition parses (m : A) (s : buffer) (m' : A) : Prop :=
  ∀ fuel pre post, size (pre ++ s ++ post) < 2 ^ 63 → (length (s ++ post) < fuel)%nat →
    ∃ fuel', (length post < fuel')%nat ∧
      fields_loop (pre ++ s ++ post) (field (pre ++ s ++ post)) fuel m (size pre)
      = fields_loop (pre ++ s ++ post) (field (pre ++ s ++ post)) fuel' m' (size (pre ++ s)).

Lemma parses_nil m : parses m [] m.
Proof. intros fuel pre post Hl Hf. exists fuel. by rewrite app_nil_r. Qed.

Lemma parses_app m s m1 t m2 : parses m s m1 → parses m1 t m2 → parses m (s ++ t) m2.
Proof.
  intros H1 H2 fuel pre post Hl Hf. rewrite <- app_assoc in *.
  destruct (H1 fuel pre (t ++ post) Hl Hf) as (f1 & Hf1 & ->).
  specialize (H2 f1 (pre ++ s) post). rewrite <- !app_assoc in H2. by apply H2.
Qed.

Lemma parses_concat {B} (enc : B → buffer) (upd : A → B → A) l m :
  (∀ m x, x ∈ l → parses m (enc x) (upd m x)) → parses m (concat (enc <$> l)) (foldl upd m l).
Proof.
  revert m. induction l as [|x l IH]; intros m Hp; simpl; [apply parses_nil|].
  eapply parses_app; [apply Hp; by left|]. apply IH. intros m' y Hy. apply Hp. by right.
Qed.

(** The tag of field [n] with wire type [w]. *)
Lemma tag_parts n w : 0 < n < 16 → 0 ≤ w < 8 →
  uint 8 (8 * n + w) = 8 * n + w ∧ Z.land (8 * n + w) 7 = w ∧ sint 32 (Z.shiftr (8 * n + w) 3) = n ∧
  8 * n + w < 128.
Proof.
  intros Hn Hw. split_and!; [apply uint_small; lia| | |lia].
  - change 7 with (Z.ones 3). rewrite Z.land_ones by lia. change (2 ^ 3) with 8.
    symmetry. apply (Z.mod_unique _ _ n); lia.
  - rewrite Z.shiftr_div_pow2 by lia. change (2 ^ 3) with 8.
    rewrite <- (Z.div_unique (8 * n + w) 8 n w) by lia. apply sint_small; simpl; lia.
Qed.

Lemma read_tag tag pre post :
  0 ≤ tag < 128 →
  read_varint (pre ++ byte_of tag :: post) (uint 64) (size pre) = (Ok tag, size (pre ++ [byte_of tag])).
Proof.
  intros Ht. unfold read_varint.
  pose proof (varint_loop_run (uint 64) 1 11 0 0 tag pre post ltac:(apply _) ltac:(lia) ltac:(simpl; lia)
                ltac:(lia) ltac:(simpl; lia)) as H.
  rewrite Z.lor_0_l, Z.shiftl_0_r, (uint_small 64 tag), (conv_0 (conv := uint 64)) in H by lia.
  simpl varint_digits_of in H. by rewrite (proj2 (Z.leb_gt _ _)) in H by lia.
Qed.

Lemma parses_field n w r m s m' :
  0 < n < 16 → 0 ≤ w < 8 → w ≠ 4 → (∀ d, field d m n w = Some (r d)) → reads r s m' →
  parses m (byte_of (8 * n + w) :: s) m'.
Proof.
  intros Hn Hw Hw4 Hfield Hr fuel pre post Hl Hf. destruct fuel as [|fuel]; [simpl in Hf; lia|].
  exists fuel. simpl in Hf. rewrite length_app in Hf. split; [lia|]. simpl.
  destruct (tag_parts n w Hn Hw) as (_ & Ht & Hnum & Hlt).
  unfold get, mbind at 1, M_bind at 1.
  rewrite (proj2 (Z.leb_gt _ _)) by (rewrite length_app; simpl; lia).
  unfold mbind at 1, M_bind at 1. rewrite read_tag by lia. rewrite Ht, Hnum.
  rewrite (proj2 (Z.eqb_neq _ _)), (proj2 (Z.leb_gt _ _)) by lia. rewrite Hfield.
  unfold mbind, M_bind. set (d := pre ++ byte_of (8 * n + w) :: s ++ post).
  assert (d = (pre ++ [byte_of (8 * n + w)]) ++ s ++ post) as Hd.
  { unfold d. by rewrite <- app_assoc. }
  rewrite Hd at 1. rewrite Hr by by rewrite <- Hd. by rewrite <- app_assoc.
Qed.

Lemma Unmarshal_parses m s m' : parses m s m' → size s < 2 ^ 63 → Unmarshal field m s = Ok m'.
Proof.
  intros Hp Hl. specialize (Hp (S (length s)) [] []). rewrite !app_nil_l, !app_nil_r in Hp.
  destruct Hp as (fuel' & Hf & He); [done|lia|]. unfold Unmarshal.
  change (size (@nil Ascii.ascii)) with 0 in He. rewrite He.
  destruct fuel' as [|fuel']; [simpl in Hf; lia|]. simpl. unfold get, mbind, M_bind.
  by rewrite (proj2 (Z.leb_le _ _)), (proj2 (Z.ltb_ge _ _)) by lia.
Qed.

(** Fields that are left out when they have their zero value. *)
Lemma parses_int n r m v m' :
  0 < n < 16 → (∀ d, field d m n 0 = Some (r d)) → (v = 0 → m' = m) →
  (v ≠ 0 → reads r (varint (uint 64 v)) m') → parses m (enc_int (8 * n) v) m'.
Proof.
  intros Hn Hf Hz Hr. unfold enc_int. destruct (Z.eqb_spec v 0) as [Hv|Hv].
  - rewrite Hz by done. apply parses_nil.
  - rewrite <- (Z.add_0_r (8 * n)). eapply parses_field; [lia..|done|by apply Hr].
Qed.

Lemma parses_item n r m b m' :
  0 < n < 16 → (∀ d, field d m n 2 = Some (r d)) → reads r (varint (size b) ++ b) m' →
  parses m (enc_item (8 * n + 2) b) m'.
Proof. intros Hn Hf Hr. eapply parses_field; [lia..|done|done]. Qed.

Lemma parses_bytes n r m b m' :
  0 < n < 16 → (∀ d, field d m n 2 = Some (r d)) → (b = [] → m' = m) →
  reads r (varint (size b) ++ b) m' → parses m (enc_bytes (8 * n + 2) b) m'.
Proof.
  intros Hn Hf Hz Hr. unfold enc_bytes. destruct (Z.eqb_spec (size b) 0) as [Hb|Hb].
  - destruct b; [|simpl in Hb; lia]. rewrite Hz by done. apply parses_nil.
  - by eapply parses_item.
Qed.

Lemma parses_bool n r m (v : bool) m' :
  0 < n < 16 → (∀ d, field d m n 0 = Some (r d)) → (v = false → m' = m) →
  (v = true → reads r [byte_of 1] m') → parses m (enc_bool (8 * n) v) m'.
Proof.
  intros Hn Hf Hz Hr. unfold enc_bool. destruct v; [|rewrite Hz by done; apply parses_nil].
  rewrite <- (Z.add_0_r (8 * n)). eapply parses_field; [lia..|done|by apply Hr].
Qed.
End parsing.

(** ** How a decoder ends

    [ends p P o i]: a value with [P], or an error; a panic only when [p]; never
    without an answer. *)

Definition ends {A} (p : bool) (P : A → Z → Prop) (o : outcome A) (i : Z) : Prop :=
  match o with
  | Ok a => P a i
  | Err _ => True
  | Panic _ => p = true
  | Hang => False
  end.

Definition index_ok (i : Z) : Prop := 0 ≤ i < 2 ^ 63.

(** From a possible index, the decoder moves on to a later one. *)
Definition moves {A} (p : bool) (P : A → Prop) (m : M Z A) : Prop :=
  ∀ i, index_ok i → wp m (ends p (λ a j, i < j ∧ index_ok j ∧ P a)) i.

Notation any := (λ _, True).

Lemma ends_weaken {A} (p : bool) (P Q : A → Z → Prop) o i :
  (∀ a, P a i → Q a i) → ends false P o i → ends p Q o i.
Proof. destruct o; simpl; naive_solver. Qed.

Lemma wp_ends_weaken {A} p (m : M Z A) (P : A → Z → Prop) i :
  wp m (ends false P) i → wp m (ends p P) i.
Proof. unfold wp. destruct (m i) as [[] ?]; simpl; done. Qed.

Lemma ends_impl {A} (p : bool) (P Q : A → Z → Prop) o i :
  (∀ a, P a i → Q a i) → ends p P o i → ends p Q o i.
Proof. destruct o; simpl; naive_solver. Qed.

Lemma wp_ends_bind {A B} p (m : M Z A) (k : A → M Z B) (P : A → Z → Prop) (Q : B → Z → Prop) i :
  wp m (ends p P) i → (∀ a j, P a j → wp (k a) (ends p Q) j) → wp (m ≫= k) (ends p Q) i.
Proof.
  intros Hm Hk. apply wp_bind. eapply wp_mono; [|exact Hm]. intros [a|e|q|] j; simpl; [apply Hk|done..].
Qed.

Lemma moves_weaken {A} p (P Q : A → Prop) (m : M Z A) :
  (∀ a, P a → Q a) → moves false P m → moves p Q m.
Proof.
  intros HPQ Hm i Hi. eapply wp_mono; [|by apply Hm]. intros o j. apply ends_weaken. naive_solver.
Qed.

Lemma wp_get {A} (k : Z → M Z A) Q i : wp (k i) Q i → wp (get ≫= k) Q i.
Proof. intros H. by apply wp_bind. Qed.

Lemma wp_set {A} j (k : unit → M Z A) Q i : wp (k ()) Q j → wp (set j ≫= k) Q i.
Proof. intros H. by apply wp_bind. Qed.

Lemma moves_map {A B} p (P : A → Prop) (Q : B → Prop) (m : M Z A) (f : A → B) :
  (∀ a, P a → Q (f a)) → moves p P m → moves p Q (x ← m; mret (f x)).
Proof.
  intros HPQ Hm i Hi. eapply wp_ends_bind; [by apply Hm|]. intros a j (? & ? & ?). apply wp_ret. simpl. auto.
Qed.

(** A sum of two indices is itself or has overflown. *)
Lemma sint_sum i n : index_ok i → index_ok n → sint 64 (i + n) = i + n ∨ sint 64 (i + n) < 0.
Proof.
  unfold index_ok. intros Hi Hn. destruct (decide (i + n < 2 ^ 63)) as [Hl|Hl].
  - left. apply sint_small; simpl; lia.
  - right. unfold sint. rewrite uint_small by lia. change (2 ^ (64 - 1)) with (2 ^ 63).
    rewrite (proj2 (Z.ltb_ge _ _)) by lia. lia.
Qed.

Lemma sint64_index x : 0 ≤ sint 64 x → index_ok (sint 64 x).
Proof. intros H. pose proof (sint_bound 64 x ltac:(lia)) as Hb. simpl in Hb. unfold index_ok. lia. Qed.

Section ending.
Context (d : buffer) (Hd : size d < 2 ^ 63).

Lemma moves_next_byte : moves false any (next_byte d).
Proof.
  intros i Hi. unfold next_byte. apply wp_get. destruct (Z.leb_spec (size d) i) as [Hl|Hl]; [done|].
  unfold index_ok in Hi. rewrite (proj2 (Z.leb_le _ _)) by lia.
  destruct (lookup_lt_is_Some_2 d (Z.to_nat i)) as [b ->]; [lia|].
  apply wp_set, wp_ret. simpl. unfold index_ok. lia.
Qed.

Lemma moves_varint_loop conv fuel shift x :
  Conv conv → (∃ y, x = conv y) → 64 ≤ 7 * Z.of_nat fuel + shift →
  moves false (λ v, ∃ y, v = conv y) (varint_loop d conv fuel shift x).
Proof.
  intros Hc. revert shift x. induction fuel as [|fuel IH]; intros shift x [y ->] Hf i Hi; simpl.
  - by destruct (Z.leb_spec 64 shift); [|lia].
  - destruct (Z.leb_spec 64 shift); [done|].
    eapply wp_ends_bind; [by apply moves_next_byte|]. intros b j (Hij & Hj & _). simpl.
    rewrite <- conv_lor. destruct (b <? 128).
    + apply wp_ret. simpl. eauto.
    + eapply wp_mono; [|apply IH; [by eexists|lia|done]].
      intros o k. apply ends_impl. intros a (? & ? & ?). split_and!; [lia|done|done].
Qed.

Lemma moves_varint conv : Conv conv → moves false (λ v, ∃ y, v = conv y) (read_varint d conv).
Proof. intros Hc. apply moves_varint_loop; [done|exists 0; by rewrite conv_0|lia]. Qed.

(** The bytes of a field: the index moves to their end. *)
Lemma wp_read_length n i :
  index_ok i → n < 2 ^ 63 →
  wp (read_length d n) (ends false (λ b j, i ≤ j ∧ index_ok j ∧ size b < 2 ^ 63)) i.
Proof.
  intros Hi Hn. unfold read_length. destruct (Z.ltb_spec n 0); [done|]. apply wp_get. simpl.
  destruct (Z.ltb_spec (sint 64 (i + n)) 0) as [|H0]; [done|].
  destruct (Z.ltb_spec (size d) (sint 64 (i + n))); [done|].
  destruct (sint_sum i n Hi) as [He|He]; [unfold index_ok; lia| |lia]. rewrite He in *.
  unfold index_ok in *. rewrite !(proj2 (Z.leb_le _ _)) by lia. simpl. apply wp_set, wp_ret. simpl.
  rewrite length_take, length_drop. lia.
Qed.

Lemma moves_bytes : moves false (λ b, size b < 2 ^ 63) (read_bytes d).
Proof.
  intros i Hi. eapply wp_ends_bind; [apply moves_varint; [apply _|done]|].
  intros n j (Hij & Hj & y & ->). pose proof (sint_bound 64 y ltac:(lia)) as Hb. simpl in Hb.
  eapply wp_mono; [|apply wp_read_length; [done|lia]].
  intros o k. apply ends_impl. intros b (? & ? & ?). split_and!; [lia|done|done].
Qed.

Lemma moves_string : moves false any (read_string d).
Proof.
  intros i Hi. eapply wp_ends_bind; [apply moves_varint; [apply _|done]|].
  intros n j (Hij & Hj & y & ->). pose proof (sint_bound 64 (uint 64 y) ltac:(lia)) as Hb. simpl in Hb.
  eapply wp_ends_bind; [apply wp_read_length; [done|lia]|].
  intros b k (? & ? & ?). apply wp_ret. simpl. split_and!; [lia|done|done].
Qed.

Lemma moves_bool : moves false any (read_bool d).
Proof. eapply moves_map; [done|by apply moves_varint, _]. Qed.
End ending.

(** [skip] answers a positive number of bytes. *)
Lemma skip_loop_ends d fuel depth i :
  size d < 2 ^ 63 → index_ok i → size d < i + Z.of_nat fuel →
  wp (skip_loop d fuel depth) (ends false (λ n _, i < n ∧ index_ok n)) i.
Proof.
  intros Hd. revert depth i. induction fuel as [|fuel IH]; intros depth i Hi Hf; simpl; apply wp_get.
  { by destruct (Z.leb_spec (size d) i); [|lia]. }
  destruct (Z.leb_spec (size d) i); [done|].
  eapply wp_ends_bind; [apply moves_varint; [done|apply _|done]|]. intros wire j (Hij & Hj & _).
  set (P := λ (_ : Z) k, k < 0 ∨ (i < k ∧ index_ok k)).
  assert (∀ n (x : Z), index_ok n → wp (i ← get; set (sint 64 (i + n));; mret x) (ends false P) j) as Hadd.
  { intros n x Hn. apply wp_get, wp_set, wp_ret. simpl. unfold P.
    destruct (sint_sum j n Hj Hn) as [He|He]; [|by left]. rewrite He in *.
    pose proof (sint64_index (j + n)) as Hs. rewrite He in Hs. unfold index_ok in *. lia. }
  assert (P 0 j) as HPj by by right.
  eapply (wp_ends_bind _ _ _ P).
  - destruct (Z.land wire 7) as [|[[[]|[]|]|[[]|[]|]|]|]; try done.
    + eapply wp_ends_bind; [apply moves_varint; [done|apply _|done]|].
      intros ? k (? & ? & _). apply wp_ret. right. split; [lia|done].
    + by apply Hadd.
    + by destruct (depth =? 0).
    + eapply wp_ends_bind; [apply moves_varint; [done|apply _|done]|].
      intros n k (Hjk & Hk & y & ->). destruct (Z.ltb_spec (sint 64 y) 0) as [|H0]; [done|].
      apply wp_get, wp_set, wp_ret. simpl. unfold P.
      destruct (sint_sum k _ Hk (sint64_index y H0)) as [He|He]; [|by left]. rewrite He in *.
      pose proof (sint64_index (k + sint 64 y)) as Hs. rewrite He in Hs. unfold index_ok in *. lia.
    + by apply Hadd.
  - intros depth' k HP. apply wp_get. unfold P in HP.
    destruct (Z.ltb_spec k 0) as [|Hk]; [done|]. destruct HP as [|[Hik HkI]]; [lia|].
    destruct (depth' =? 0); [by apply wp_ret|].
    eapply wp_mono; [|apply IH; [done|lia]]. intros o k'. apply ends_impl. intros a (? & ?). split; [lia|done].
Qed.

Lemma skip_ends d : size d < 2 ^ 63 → ends false (λ n _, 0 < n ∧ index_ok n) (skip d) 0.
Proof.
  intros Hd. pose proof (skip_loop_ends d (S (length d)) 0 0 Hd) as H.
  unfold wp in H. unfold skip. destruct (skip_loop d _ 0 0) as [[n| | |] j]; simpl in *; apply H;
    unfold index_ok; lia.
Qed.

Lemma wp_skip {A} p d (k : Z → M Z A) (Q : A → Z → Prop) i :
  size d < 2 ^ 63 → (∀ n, 0 < n → index_ok n → wp (k n) (ends p Q) i) →
  wp (x ← returned (skip d); k x) (ends p Q) i.
Proof.
  intros Hd Hk. apply (wp_ends_bind _ _ _ (λ n j, j = i ∧ 0 < n ∧ index_ok n)).
  - pose proof (skip_ends d Hd). unfold wp, returned. simpl. destruct (skip d); simpl in *; naive_solver.
  - intros n j (-> & ? & ?). auto.
Qed.

Lemma moves_skip_field d pre i :
  size d < 2 ^ 63 → index_ok pre →
  wp (skip_field d pre) (ends false (λ _ j, pre < j ∧ index_ok j)) i.
Proof.
  intros Hd Hp. unfold skip_field. apply wp_set, wp_skip; [rewrite length_drop; lia|].
  intros n Hn0 Hn. rewrite (proj2 (Z.ltb_ge _ _)) by lia.
  destruct (Z.ltb_spec (sint 64 (pre + n)) 0) as [|H0]; [done|].
  destruct (Z.ltb_spec (size d) (sint 64 (pre + n))); [done|].
  destruct (sint_sum pre n Hp Hn) as [He|He]; [|lia]. rewrite He in *.
  unfold wp, set. simpl. unfold index_ok in *. lia.
Qed.

(** The entry of a map may panic, but it ends. *)
Lemma entry_loop_ends {V} d (value : M Z V) fuel post kv i :
  size d < 2 ^ 63 → moves true any value → post ≤ size d → (index_ok i ∧ size d < i + Z.of_nat fuel - 1 ∨ i < 0 ∧ (0 < fuel)%nat) →
  wp (entry_loop d value fuel post kv) (ends true (λ _ _, True)) i.
Proof.
  intros Hd Hvalue Hpost. revert kv i. induction fuel as [|fuel IH]; intros kv i Hi; simpl; apply wp_get.
  { destruct (Z.leb_spec post i); [done|]. exfalso. unfold index_ok in Hi. lia. }
  destruct (Z.leb_spec post i); [done|]. destruct Hi as [[Hi Hf]|[Hi _]].
  - eapply wp_ends_bind.
    { apply wp_ends_weaken, (moves_varint d Hd (uint 64)); [apply _|done]. }
    intros wire j (Hij & Hj & _). simpl.
    assert (∀ {X} (r : M Z X) f, moves true any r →
      wp (x ← r; entry_loop d value fuel post (f x)) (ends true (λ _ _, True)) j) as Hr.
    { intros X r f Hr. eapply wp_ends_bind; [by apply Hr|].
      intros x k (Hjk & Hk & _). apply IH. left. split; [done|lia]. }
    destruct (_ =? 1).
    { apply (Hr _ _ (λ x, (x, kv.2))). by eapply moves_weaken, moves_string. }
    destruct (_ =? 2); [by apply (Hr _ _ (λ x, (kv.1, x)))|].
    apply wp_set, wp_skip; [rewrite length_drop; lia|]. intros n Hn0 Hn.
    rewrite (proj2 (Z.ltb_ge _ _)) by lia. destruct (Z.ltb_spec post (sint 64 (i + n))); [done|].
    apply wp_set, IH. unfold index_ok in *. destruct (sint_sum i n Hi Hn) as [He|He]; [rewrite He|]; lia.
  - unfold wp, read_varint. simpl. unfold next_byte, get, mbind, M_bind.
    rewrite (proj2 (Z.leb_gt _ _)) by lia. by rewrite (proj2 (Z.leb_gt 0 i)) by lia.
Qed.

Lemma moves_entry {V} d (value : M Z V) zero :
  size d < 2 ^ 63 → moves true any value → moves true any (read_entry d value zero).
Proof.
  intros Hd Hvalue i Hi. eapply wp_ends_bind.
  { apply wp_ends_weaken, (moves_varint d Hd (sint 64)); [apply _|done]. }
  intros n j (Hij & Hj & y & ->). destruct (Z.ltb_spec (sint 64 y) 0) as [|H0]; [done|]. apply wp_get. cbv zeta.
  destruct (Z.ltb_spec (sint 64 (j + sint 64 y)) 0) as [|Hp]; [done|].
  destruct (Z.ltb_spec (size d) (sint 64 (j + sint 64 y))); [done|].
  destruct (sint_sum j _ Hj (sint64_index y H0)) as [He|He]; [|lia].
  apply (wp_ends_bind _ _ _ (λ _ _, True)); [apply entry_loop_ends; [done|done|done|left; unfold index_ok in *; lia]|].
  intros kv k _. apply wp_set, wp_ret. simpl. split_and!; [unfold index_ok in *; lia|by apply sint64_index|done].
Qed.

(** A message all of whose fields move on is decoded to an end. *)
Lemma fields_loop_ends {A} p d (field : A → Z → Z → option (M Z A)) fuel m i :
  size d < 2 ^ 63 → (∀ m n w r, field m n w = Some r → moves p any r) →
  index_ok i → size d < i + Z.of_nat fuel →
  wp (fields_loop d field fuel m) (ends p (λ _ _, True)) i.
Proof.
  intros Hd Hfield. revert m i. induction fuel as [|fuel IH]; intros m i Hi Hf; simpl; apply wp_get.
  { destruct (Z.leb_spec (size d) i); [|lia]. by destruct (_ <? _). }
  destruct (Z.leb_spec (size d) i); [by destruct (_ <? _)|].
  eapply wp_ends_bind.
  { apply wp_ends_weaken, (moves_varint d Hd (uint 64)); [apply _|done]. }
  intros wire j (Hij & Hj & _). simpl. destruct (_ =? 4); [done|]. destruct (_ <=? 0); [done|].
  apply (wp_ends_bind _ _ _ (λ _ k, i < k ∧ index_ok k)).
  - destruct (field m _ _) as [r|] eqn:Er.
    + eapply wp_mono; [|by eapply Hfield]. intros o k. apply ends_impl. intros a (? & ? & _). split; [lia|done].
    + apply (wp_ends_bind _ _ _ (λ _ k, i < k ∧ index_ok k)); [|intros; by apply wp_ret].
      eapply wp_mono; [|by apply moves_skip_field]. intros o k. apply (ends_weaken p). done.
  - intros m' k (? & ?). apply IH; [done|lia].
Qed.

Lemma Unmarshal_ends {A} p field (m : A) d :
  size d < 2 ^ 63 → (∀ m n w r, field d m n w = Some r → moves p any r) →
  ends p (λ _ _, True) (Unmarshal field m d) 0.
Proof.
  intros Hd Hf. pose proof (fields_loop_ends p d (field d) (S (length d)) m 0 Hd Hf) as H.
  unfold wp in H. unfold Unmarshal. destruct (fields_loop _ _ _ _ _) as [[a| | |] j]; simpl in *; apply H;
    unfold index_ok; lia.
Qed.

(** The outcomes of a nested message. *)
Lemma moves_message {A B} p field (m : A) (f : A → B) d :
  size d < 2 ^ 63 → (∀ b, size b < 2 ^ 63 → ends p (λ _ _, True) (Unmarshal field m b) 0) →
  moves p any (b ← read_bytes d; x ← returned (Unmarshal field m b); mret (f x)).
Proof.
  intros Hd Hu i Hi. eapply wp_ends_bind.
  { apply wp_ends_weaken, (moves_bytes d Hd); done. }
  intros b j (? & ? & Hb). specialize (Hu b Hb). unfold wp, returned, mbind, M_bind.
  destruct (Unmarshal field m b); simpl in *; auto.
Qed.

(** ** The kinds of fields *)

Lemma reads_with_type {A} w (r : buffer → M Z A) s a :
  reads r s a → reads (λ d, with_type w w (r d)) s a.
Proof. intros Hr. unfold with_type. by rewrite Z.eqb_refl. Qed.

Lemma reads_message {A B} field (zero m : A) (f : A → B) s :
  size s < 2 ^ 63 → Unmarshal field zero s = Ok m →
  reads (λ d, b ← read_bytes d; x ← returned (Unmarshal field zero b); mret (f x)) (varint (size s) ++ s) (f m).
Proof.
  intros Hs Hu. rewrite <- (app_nil_r (_ ++ s)).
  apply (reads_bind read_bytes (λ _ b, x ← returned (Unmarshal field zero b); mret (f x)) _ _ s);
    [by apply reads_bytes|].
  rewrite Hu. apply (reads_ret (f m)).
Qed.

Lemma run_get {A} (k : Z → M Z A) i : (get ≫= k) i = k i i.
Proof. done. Qed.

Lemma run_set {A} j (k : unit → M Z A) i : (set j ≫= k) i = k () j.
Proof. done. Qed.

Lemma run_bind {A B} (m : M Z A) (k : A → M Z B) a i j : m i = (Ok a, j) → (m ≫= k) i = k a j.
Proof. intros H. unfold mbind, M_bind. by rewrite H. Qed.

(** An entry, when the loop over its bytes [e] ends with [kv]. *)
Lemma reads_entry_body {V} (value : buffer → M Z V) zero e kv :
  (∀ i post, size (i ++ e ++ post) < 2 ^ 63 →
     entry_loop (i ++ e ++ post) (value (i ++ e ++ post)) (S (S (length (i ++ e ++ post))))
       (size i + size e) (""%string, zero) (size i) = (Ok kv, size i + size e)) →
  size e < 2 ^ 63 → reads (λ d, read_entry d (value d) zero) (varint (size e) ++ e) kv.
Proof.
  intros Hloop Hl pre post Hd. unfold read_entry. rewrite <- app_assoc in *.
  erewrite run_bind by (apply reads_varint; [apply _|lia|exact Hd]). rewrite sint64_small by lia.
  rewrite (proj2 (Z.ltb_ge _ _)) by lia. rewrite run_get. cbv zeta.
  assert (size (pre ++ varint (size e)) + size e ≤ size (pre ++ varint (size e) ++ e ++ post)) as Hle.
  { rewrite !length_app. lia. }
  set (i := pre ++ varint (size e)) in *. rewrite sint64_small by lia.
  rewrite !(proj2 (Z.ltb_ge _ _)) by lia.
  assert (i ++ e ++ post = pre ++ varint (size e) ++ e ++ post) as Hi by by unfold i; rewrite <- app_assoc.
  assert (size (pre ++ varint (size e) ++ e) = size i + size e) as ->.
  { unfold i. rewrite !length_app. lia. }
  rewrite <- Hi in *. by rewrite (run_bind _ _ _ _ _ (Hloop i post Hd)), run_set.
Qed.

Lemma entry_loop_end {V} d (value : M Z V) fuel p kv i : p ≤ i → entry_loop d value fuel p kv i = (Ok kv, i).
Proof. intros Hi. destruct fuel; simpl; by rewrite run_get, (proj2 (Z.leb_le _ _)). Qed.

(** The loop reads the key. *)
Lemma entry_loop_key {V} (value : M Z V) i k rest fuel p kv :
  size (i ++ enc_item 10 (to_bytes k) ++ rest) < 2 ^ 63 → size i < p →
  entry_loop (i ++ enc_item 10 (to_bytes k) ++ rest) value (S fuel) p kv (size i)
  = entry_loop (i ++ enc_item 10 (to_bytes k) ++ rest) value fuel p (k, kv.2) (size (i ++ enc_item 10 (to_bytes k))).
Proof.
  intros Hd Hp. simpl entry_loop. rewrite run_get, (proj2 (Z.leb_gt p _)) by done. unfold enc_item in *.
  set (kb := varint (size (to_bytes k)) ++ to_bytes k) in *. simpl app in *.
  erewrite run_bind by (apply read_tag; lia). change (sint 32 (10 ≫ 3) =? 1) with true. cbn match.
  assert (i ++ byte_of 10 :: kb ++ rest = (i ++ [byte_of 10]) ++ kb ++ rest) as Hi by by rewrite <- !app_assoc.
  rewrite Hi in *. erewrite run_bind.
  2:{ apply reads_string; [|exact Hd]. revert Hd. unfold kb. rewrite !length_app. lia. }
  f_equal. by rewrite <- app_assoc.
Qed.

(** The loop reads the value. *)
Lemma entry_loop_value {V} (value : buffer → M Z V) i b v rest fuel p kv :
  size (i ++ enc_item 18 b ++ rest) < 2 ^ 63 → size i < p → reads value (varint (size b) ++ b) v →
  entry_loop (i ++ enc_item 18 b ++ rest) (value (i ++ enc_item 18 b ++ rest)) (S fuel) p kv (size i)
  = entry_loop (i ++ enc_item 18 b ++ rest) (value (i ++ enc_item 18 b ++ rest)) fuel p (kv.1, v)
      (size (i ++ enc_item 18 b)).
Proof.
  intros Hd Hp Hv. simpl entry_loop. rewrite run_get, (proj2 (Z.leb_gt p _)) by done. unfold enc_item in *.
  set (vb := varint (size b) ++ b) in *. simpl app in *.
  erewrite run_bind by (apply read_tag; lia).
  change (sint 32 (18 ≫ 3) =? 1) with false. change (sint 32 (18 ≫ 3) =? 2) with true. cbn match.
  assert (i ++ byte_of 18 :: vb ++ rest = (i ++ [byte_of 18]) ++ vb ++ rest) as Hi by by rewrite <- !app_assoc.
  rewrite Hi in *. rewrite (run_bind _ _ _ _ _ (Hv _ _ Hd)). f_equal. by rewrite <- app_assoc.
Qed.

(** The key and the value of an entry. *)
Lemma reads_entry {V} (value : buffer → M Z V) zero k b v :
  size (enc_item 10 (to_bytes k) ++ enc_item 18 b) < 2 ^ 63 → reads value (varint (size b) ++ b) v →
  reads (λ d, read_entry d (value d) zero)
    (varint (size (enc_item 10 (to_bytes k) ++ enc_item 18 b)) ++ enc_item 10 (to_bytes k) ++ enc_item 18 b) (k, v).
Proof.
  intros Hl Hv. apply reads_entry_body; [|done]. intros i post Hd. rewrite <- app_assoc in *.
  set (p := size i + _).
  assert (p = size (i ++ enc_item 10 (to_bytes k)) + size (enc_item 18 b)) as Hp by (unfold p; rewrite !length_app; lia).
  assert (0 < size (enc_item 10 (to_bytes k)) ∧ 0 < size (enc_item 18 b)) as [??] by (unfold enc_item; simpl; lia).
  rewrite entry_loop_key by (first [done|rewrite Hp, length_app; lia]). cbn [snd].
  rewrite (app_assoc i) in *. rewrite (entry_loop_value _ _ b v) by (first [done|rewrite Hp; lia]). cbn [fst].
  assert (size ((i ++ enc_item 10 (to_bytes k)) ++ enc_item 18 b) = p) as -> by (rewrite Hp, length_app; lia).
  by rewrite entry_loop_end.
Qed.

(** An entry without a value. *)
Lemma reads_entry_key {V} (value : buffer → M Z V) zero k :
  size (enc_item 10 (to_bytes k)) < 2 ^ 63 →
  reads (λ d, read_entry d (value d) zero)
    (varint (size (enc_item 10 (to_bytes k))) ++ enc_item 10 (to_bytes k)) (k, zero).
Proof.
  intros Hl. apply reads_entry_body; [|done]. intros i post Hd.
  rewrite entry_loop_key by (first [done|unfold enc_item; simpl; lia]).
  assert (size (i ++ enc_item 10 (to_bytes k)) = size i + size (enc_item 10 (to_bytes k))) as ->
    by (rewrite length_app; lia).
  by rewrite entry_loop_end.
Qed.

(** A field that the message does not know is passed over. *)
Lemma skip_int tag v post :
  0 ≤ tag < 128 → Z.land tag 7 = 0 → 0 ≤ v < 2 ^ 64 → size (byte_of tag :: varint v ++ post) < 2 ^ 63 →
  skip (byte_of tag :: varint v ++ post) = Ok (size (byte_of tag :: varint v)).
Proof.
  intros Ht Hw Hv Hl. unfold skip.
  enough (skip_loop (byte_of tag :: varint v ++ post) (S (length (byte_of tag :: varint v ++ post))) 0 0
    = (Ok (size (byte_of tag :: varint v)), size (byte_of tag :: varint v))) as -> by done.
  pose proof (read_tag tag [] (varint v ++ post) Ht) as Hr.
  pose proof (reads_varint (uint 64) v ltac:(apply _) Hv [byte_of tag] post Hl) as Hr2.
  rewrite !app_nil_l in Hr. change (size (@nil Ascii.ascii)) with 0 in Hr.
  change ([byte_of tag] ++ varint v ++ post) with (byte_of tag :: varint v ++ post) in Hr2.
  change ([byte_of tag] ++ varint v) with (byte_of tag :: varint v) in Hr2.
  set (d := byte_of tag :: varint v ++ post) in *. simpl skip_loop. rewrite run_get.
  rewrite (proj2 (Z.leb_gt _ _)) by (unfold d; simpl; lia).
  erewrite run_bind by exact Hr. rewrite Hw. erewrite run_bind by (by erewrite run_bind by exact Hr2).
  rewrite run_get. by rewrite (proj2 (Z.ltb_ge _ _)) by lia.
Qed.

Lemma skip_item tag b post :
  0 ≤ tag < 128 → Z.land tag 7 = 2 → size (enc_item tag b ++ post) < 2 ^ 63 →
  skip (enc_item tag b ++ post) = Ok (size (enc_item tag b)).
Proof.
  intros Ht Hw Hl. unfold skip.
  enough (skip_loop (enc_item tag b ++ post) (S (length (enc_item tag b ++ post))) 0 0
    = (Ok (size (enc_item tag b)), size (enc_item tag b))) as -> by done.
  assert (size b < 2 ^ 63 ∧ size (enc_item tag b) = size ([byte_of tag] ++ varint (size b)) + size b ∧
    size (enc_item tag b) ≤ size (enc_item tag b ++ post) ∧ 0 < size (enc_item tag b ++ post)) as (Hb & Hs & Hsd & Hd0).
  { revert Hl. unfold enc_item. simpl. rewrite !length_app. simpl. rewrite ?length_app. lia. }
  assert (enc_item tag b ++ post = [byte_of tag] ++ varint (size b) ++ b ++ post) as Hd.
  { unfold enc_item. simpl. by rewrite <- app_assoc. }
  pose proof (read_tag tag [] (varint (size b) ++ b ++ post) Ht) as Hr.
  pose proof (reads_varint (sint 64) (size b) ltac:(apply _) ltac:(lia) [byte_of tag] (b ++ post)) as Hr2.
  rewrite !app_nil_l in Hr. change (size (@nil Ascii.ascii)) with 0 in Hr.
  change (byte_of tag :: varint (size b) ++ b ++ post) with ([byte_of tag] ++ varint (size b) ++ b ++ post) in Hr.
  rewrite <- Hd in *. specialize (Hr2 Hl). set (d := enc_item tag b ++ post) in *. simpl skip_loop.
  rewrite run_get. rewrite (proj2 (Z.leb_gt _ _)) by lia.
  erewrite run_bind by exact Hr. rewrite Hw.
  erewrite run_bind.
  2:{ erewrite run_bind by exact Hr2. rewrite sint64_small by lia. rewrite (proj2 (Z.ltb_ge _ _)) by lia.
      rewrite run_get, run_set, <- Hs, sint64_small by lia. done. }
  rewrite run_get. by rewrite (proj2 (Z.ltb_ge _ _)) by lia.
Qed.

Lemma parses_unknown {A} (field : buffer → A → Z → Z → option (M Z A)) n w m t :
  0 < n < 16 → 0 ≤ w < 8 → w ≠ 4 → (∀ d, field d m n w = None) →
  (∀ post, size (byte_of (8 * n + w) :: t ++ post) < 2 ^ 63 →
     skip (byte_of (8 * n + w) :: t ++ post) = Ok (size (byte_of (8 * n + w) :: t))) →
  parses field m (byte_of (8 * n + w) :: t) m.
Proof.
  intros Hn Hw Hw4 Hfield Hskip fuel pre post Hl Hf. destruct fuel as [|fuel]; [simpl in Hf; lia|].
  exists fuel. simpl in Hf. rewrite length_app in Hf. split; [lia|].
  destruct (tag_parts n w Hn Hw) as (_ & Ht & Hnum & Hlt). set (tag := 8 * n + w) in *.
  pose proof (read_tag tag pre (t ++ post) ltac:(unfold tag; lia)) as Hr.
  specialize (Hskip post). specialize (Hfield (pre ++ (byte_of tag :: t) ++ post)).
  change (byte_of tag :: t ++ post) with ((byte_of tag :: t) ++ post) in *.
  set (s := byte_of tag :: t) in *. assert (0 < size s) by (unfold s; simpl; lia).
  assert (size pre + size s ≤ size (pre ++ s ++ post)) as Hle by (rewrite !length_app; lia).
  clearbody s. simpl fields_loop. rewrite run_get.
rewrite (proj2 (Z.leb_gt (size (pre ++ s ++ post)) (size pre))) by lia.
  erewrite run_bind by exact Hr. rewrite Ht, Hnum.
  rewrite (proj2 (Z.eqb_neq _ _)), (proj2 (Z.leb_gt _ _)) by lia. rewrite Hfield.
  erewrite run_bind; [done|]. erewrite run_bind; [done|]. unfold skip_field. rewrite run_set.
  rewrite Nat2Z.id, drop_app_length. unfold returned.
  erewrite run_bind by (rewrite Hskip; [done|rewrite length_app in Hl; lia]).
  rewrite (proj2 (Z.ltb_ge (size s) 0)) by lia. rewrite sint64_small by lia.
  rewrite !(proj2 (Z.ltb_ge _ _)) by lia. unfold set. f_equal. rewrite length_app. lia.
Qed.
