(* ===== verification/TimeoutReader.v ===== *)
(** The reader behind an upload: [arhat.dev/pkg/iohelper/timeout_reader.go].

    A pipe of the operating system and a connection have read deadlines; the
    reader then works with one byte at a time in the background:
    [FallbackReading] reads it without a deadline when [WaitForData] asks for
    it, and [Read] adds what the stream has until a deadline.  (Without
    deadlines, which happens only when no pipe can be made, the reader collects
    bytes in a buffer; this is not modelled.) *)

From stdpp Require Import base strings list numbers.
From S2P Require Import Prelude.

Local Open Scope nat_scope.

Inductive read_error := EOF | ErrDeadlineExceeded.

#[global] Instance read_error_eq_dec : EqDecision read_error.
Proof. solve_decision. Defined.

(** What a stream does before the deadline of a read: how many bytes the read
    finds, and whether the stream has ended. *)
Record arrival := mkArrival { ar_More : nat; ar_Ended : bool }.

(** A read of at most [len] bytes from a stream with [data] still to come. *)
Definition stream_Read (len : nat) (a : arrival) (data : string) : string * option read_error :=
  match len with
  | O => (""%string, None)
  | _ =>
      match String.substring 0 (Nat.min (ar_More a) len) data with
      | EmptyString =>
          (""%string, Some (if ar_Ended a && bool_decide (data = ""%string) then EOF else ErrDeadlineExceeded))
      | found => (found, None)
      end
  end.

(** [WaitForData] with the read of one byte; at the end of the stream there is
    none. *)
Definition WaitForData (data : string) : option (Ascii.ascii * string) :=
  match data with
  | EmptyString => None
  | String c rest => Some (c, rest)
  end.

(** [Read]: the first byte is in the answer, whatever the read of the others
    answers. *)
Definition Read (maxReadSize : nat) (a : arrival) (firstByte : Ascii.ascii) (rest : string) :
    string * option read_error :=
  let r := stream_Read (maxReadSize - 1) a rest in
  (String firstByte r.1, r.2).

(** ** Cutting a string *)

Lemma substring_all s : String.substring 0 (String.length s) s = s.
Proof. induction s as [|c s IH]; simpl; [done|]. by f_equal. Qed.

Lemma substring_split k s :
  String.substring 0 k s +:+ String.substring k (String.length s - k) s = s.
Proof.
  revert s. induction k as [|k IH]; intros [|c s]; simpl; [done|..].
  - exact (f_equal (String c) (substring_all s)).
  - done.
  - exact (f_equal (String c) (IH s)).
Qed.

Lemma length_append a b : String.length (a +:+ b) = String.length a + String.length b.
Proof. induction a as [|c a IH]; [done|]. exact (f_equal S IH). Qed.

Lemma length_substring k s : String.length (String.substring 0 k s) = Nat.min k (String.length s).
Proof. revert s. induction k as [|k IH]; intros [|c s]; simpl; [done..|]. by rewrite IH. Qed.

(** ** What a read answers *)

Lemma stream_Read_data len a data :
  let r := stream_Read len a data in
  r.1 = String.substring 0 (Nat.min (ar_More a) len) data ∧
  (r.2 = Some EOF ↔ 0 < len ∧ data = ""%string ∧ ar_Ended a = true).
Proof.
  unfold stream_Read. destruct len as [|len].
  - rewrite Nat.min_0_r. split; [by destruct data|]. split; [done|lia].
  - destruct (String.substring 0 (Nat.min (ar_More a) (S len)) data) as [|c s] eqn:Hs; (split; [done|]); simpl.
    + destruct (ar_Ended a); simpl; [|split; [done|naive_solver]].
      destruct (bool_decide_reflect (data = ""%string)) as [->|Hne]; split; try done; naive_solver lia.
    + split; [done|]. intros (_ & -> & _). by destruct (Nat.min _ _).
Qed.

(** [Read] answers a piece of the stream that fits the buffer; it meets the end
    exactly when the stream ends behind the first byte, in time. *)
Lemma Read_data maxReadSize a c rest :
  1 ≤ maxReadSize →
  let r := Read maxReadSize a c rest in
  ∃ k, r.1 = String.substring 0 k (String c rest) ∧ 1 ≤ k ≤ maxReadSize ∧
    (r.2 = Some EOF ↔ 1 < maxReadSize ∧ rest = ""%string ∧ ar_Ended a = true).
Proof.
  intros Hmax. unfold Read. destruct (stream_Read_data (maxReadSize - 1) a rest) as [Hd He].
  exists (S (Nat.min (ar_More a) (maxReadSize - 1))). cbn [fst snd]. rewrite Hd. split; [done|].
  split; [lia|]. rewrite He. split; intros (? & ? & ?); split_and!; done || lia.
Qed.
