(* ===== verification/SeqQueue.v ===== *)
(** Reordering of unordered data: [arhat.dev/pkg/queue/seq_queue.go].

    The input of a session arrives as numbered chunks in any order; the queue
    hands them out in the order of their numbers.  Numbers are [uint64].  The
    contract of the queue is [ordered]: what was handed out is the longest
    gapless sequence of the chunks offered first under the numbers 0, 1, 2, ...
    up to the closing number, and the queue refines it. *)

From S2P Require Import Prelude.
From stdpp Require Import base list numbers sorting sets.

Local Open Scope Z_scope.
Local Open Scope list_scope.

Definition MaxUint64 : Z := 2 ^ 64 - 1.

(** [x++] on a [uint64]. *)
Definition uint64_succ (x : Z) : Z := (x + 1) mod 2 ^ 64.

Section queue.
Context {A : Type}.

Record SeqQueue := mkSeqQueue {
  sq_next : Z;
  sq_max : Z;
  sq_data : list (Z * A) }.

Definition NewSeqQueue : SeqQueue := mkSeqQueue 0 MaxUint64 [].

(** The loop that pops the chunks following the expected one: the data popped
    and the new [next]. *)
Fixpoint pop_ready (next max : Z) (data : list (Z * A)) : list A * Z :=
  match data with
  | [] => ([], next)
  | (seq, d) :: rest =>
      if decide (seq ≠ next ∨ max < seq) then ([], next)
      else let '(out, next') := pop_ready (uint64_succ next) max rest in (d :: out, next')
  end.

(** The loop that looks for the place of a chunk; [None]: duplicated. *)
Fixpoint insert_at (i : nat) (seq : Z) (data : list (Z * A)) : option nat :=
  match data with
  | [] => Some i
  | (s, _) :: rest =>
      if decide (seq < s) then Some i
      else if decide (s = seq) then None
      else insert_at (S i) seq rest
  end.

Definition Offer (q : SeqQueue) (seq : Z) (d : A) : SeqQueue * (list A * bool) :=
  if decide (sq_max q < sq_next q) then (q, ([], true))
  else if decide (sq_max q < seq ∨ seq < sq_next q) then (q, ([], false))
  else if decide (seq = sq_next q) then
    let '(ready, next) := pop_ready (uint64_succ (sq_next q)) (sq_max q) (sq_data q) in
    let out := d :: ready in
    (mkSeqQueue next (sq_max q) (drop (length out - 1) (sq_data q)),
     (out, bool_decide (sq_max q < next)))
  else
    match insert_at 0 seq (sq_data q) with
    | None => (q, ([], false))
    | Some i =>
        (mkSeqQueue (sq_next q) (sq_max q) (take i (sq_data q) ++ (seq, d) :: drop i (sq_data q)),
         ([], false))
    end.

Definition SetMaxSeq (q : SeqQueue) (maxSeq : Z) : SeqQueue * bool :=
  if decide (maxSeq < sq_next q) then (mkSeqQueue (sq_next q) (sq_next q) (sq_data q), true)
  else (mkSeqQueue (sq_next q) maxSeq (sq_data q), false).

Definition Reset (q : SeqQueue) : SeqQueue := NewSeqQueue.

(** A run of offers and everything it handed out. *)
Fixpoint offers (q : SeqQueue) (l : list (Z * A)) : SeqQueue * list A :=
  match l with
  | [] => (q, [])
  | (seq, d) :: l =>
      let '(q', (out, _)) := Offer q seq d in
      let '(q'', outs) := offers q' l in (q'', out ++ outs)
  end.

(** ** The contract *)

(** The chunk offered first under a number. *)
Fixpoint first_offer (l : list (Z * A)) (seq : Z) : option A :=
  match l with
  | [] => None
  | (s, d) :: l => if decide (s = seq) then Some d else first_offer l seq
  end.

(** [out] is the longest gapless sequence of the first offers in [l] that does
    not go past [max]. *)
Definition ordered (max : Z) (l : list (Z * A)) (out : list A) : Prop :=
  (∀ i d, out !! i = Some d → first_offer l (Z.of_nat i) = Some d) ∧
  Z.of_nat (length out) ≤ max + 1 ∧
  (Z.of_nat (length out) ≤ max → first_offer l (Z.of_nat (length out)) = None).

(** A number that can be offered: the last [uint64] is left out, the counter
    would wrap around. *)
Definition offerable (x : Z * A) : Prop := 0 ≤ x.1 < MaxUint64.

Lemma first_offer_app l k seq :
  first_offer (l ++ k) seq =
  match first_offer l seq with Some d => Some d | None => first_offer k seq end.
Proof.
  induction l as [|[s d] l IH]; simpl; [done|]. by case_decide.
Qed.

(** The contract determines the output. *)
Lemma ordered_unique max l out1 out2 : ordered max l out1 → ordered max l out2 → out1 = out2.
Proof.
  intros (H1 & L1 & N1) (H2 & L2 & N2).
  assert (length out1 = length out2) as Hlen.
  { destruct (Nat.lt_trichotomy (length out1) (length out2)) as [Hl|[Hl|Hl]]; [|done|]; exfalso.
    - destruct (lookup_lt_is_Some_2 out2 (length out1)) as [d Hd]; [lia|].
      apply H2 in Hd. rewrite N1 in Hd by lia. done.
    - destruct (lookup_lt_is_Some_2 out1 (length out2)) as [d Hd]; [lia|].
      apply H1 in Hd. rewrite N2 in Hd by lia. done. }
  apply list_eq_same_length with (length out2); [done..|].
  intros i x y _ Hx Hy. apply H1 in Hx. apply H2 in Hy. congruence.
Qed.
End queue.

Arguments SeqQueue : clear implicits.

(** ** The queue refines the contract *)

Section refinement.
Context {A : Type}.
Implicit Types (q : SeqQueue A) (l data : list (Z * A)) (out : list A).

Definition seq_lt (x y : Z * A) : Prop := x.1 < y.1.

(** The queue after the offers [l], having handed out [out]: it keeps, sorted,
    exactly the first offers that are not handed out yet. *)
Record tracks l out q : Prop := {
  tr_next : sq_next q = Z.of_nat (length out);
  tr_range : sq_next q ≤ MaxUint64;
  tr_max : sq_next q ≤ sq_max q + 1;
  tr_out i d : out !! i = Some d → first_offer l (Z.of_nat i) = Some d;
  tr_gap : sq_next q ≤ sq_max q → first_offer l (sq_next q) = None;
  tr_sorted : StronglySorted seq_lt (sq_data q);
  tr_later x : x ∈ sq_data q → sq_next q ≤ x.1 < MaxUint64;
  tr_data x : x ∈ sq_data q → first_offer l x.1 = Some x.2;
  tr_complete s d : first_offer l s = Some d → s ≤ sq_max q →
    s < sq_next q ∨ (s, d) ∈ sq_data q }.

Lemma tracks_ordered l out q : tracks l out q → ordered (sq_max q) l out.
Proof. intros []. split; [done|]. rewrite <- tr_next0. split; [lia|done]. Qed.

Lemma tracks_new : tracks [] [] (NewSeqQueue (A := A)).
Proof. split; simpl; try done; try lia; [constructor|by intros ? ?%not_elem_of_nil..]. Qed.

Lemma uint64_succ_small x : 0 ≤ x < MaxUint64 → uint64_succ x = x + 1.
Proof. unfold uint64_succ, MaxUint64. intros H. apply Z.mod_small. lia. Qed.

Lemma pop_ready_spec max data n out n' :
  StronglySorted seq_lt data → (∀ x, x ∈ data → n ≤ x.1 < MaxUint64) → 0 ≤ n →
  pop_ready n max data = (out, n') →
  ∃ taken rest, data = taken ++ rest ∧ out = taken.*2 ∧ n' = n + Z.of_nat (length taken) ∧
    (∀ j x, taken !! j = Some x → x.1 = n + Z.of_nat j ∧ x.1 ≤ max) ∧
    (∀ x, x ∈ rest → n' ≤ x.1 ∧ (x.1 = n' → max < n')).
Proof.
  revert n out n'. induction data as [|[s d] data IH]; intros n out n' Hsort Hin Hn; simpl.
  { intros [= <- <-]. exists [], []. split; [done|]. split; [done|]. split; [simpl; lia|].
    split; [done|]. by intros ? ?%not_elem_of_nil. }
  apply StronglySorted_inv in Hsort as [Hsort Hlt]. rewrite Forall_forall in Hlt.
  assert (∀ x, x ∈ data → s + 1 ≤ x.1 < MaxUint64) as Hin'.
  { intros x Hx. specialize (Hlt x Hx). unfold seq_lt in Hlt. simpl in Hlt.
    destruct (Hin x); [by right|]. lia. }
  destruct (Hin (s, d)) as [Hs1 Hs2]; [by left|]. simpl in *.
  case_decide as Hd.
  - intros [= <- <-]. exists [], ((s, d) :: data). split; [done|]. split; [done|].
    split; [simpl; lia|]. split; [done|]. intros x [->|Hx]%elem_of_cons; simpl; [lia|].
    specialize (Hin' x Hx). lia.
  - assert (s = n) as -> by lia. rewrite uint64_succ_small by lia.
    destruct (pop_ready (n + 1) max data) as [out1 n1] eqn:Ep. intros [= <- <-].
    destruct (IH (n + 1) out1 n1) as (taken & rest & -> & -> & -> & Ht & Hr); [done..|lia|done|].
    exists ((n, d) :: taken), rest. split; [done|]. split; [done|].
    split; [simpl length; lia|]. split; [|done].
    intros [|j] x Hx; simpl in Hx; [injection Hx as <-; simpl; lia|].
    destruct (Ht j x Hx). lia.
Qed.

Lemma insert_at_spec data i seq :
  StronglySorted seq_lt data →
  match insert_at i seq data with
  | None => ∃ d, (seq, d) ∈ data
  | Some j => ∃ k, j = (i + k)%nat ∧ (k ≤ length data)%nat ∧
                   (∀ x, x ∈ take k data → x.1 < seq) ∧ (∀ x, x ∈ drop k data → seq < x.1)
  end.
Proof.
  revert i. induction data as [|[s d] data IH]; intros i Hsort; simpl.
  { exists 0%nat. split; [lia|]. split; [done|]. split; by intros ? ?%not_elem_of_nil. }
  apply StronglySorted_inv in Hsort as [Hsort Hlt]. rewrite Forall_forall in Hlt.
  case_decide as H1; [|case_decide as H2].
  - exists 0%nat. split; [lia|]. split; [lia|]. split; [by intros ? ?%not_elem_of_nil|].
    intros x [->|Hx]%elem_of_cons; [done|]. specialize (Hlt x Hx). unfold seq_lt in Hlt. simpl in *. lia.
  - subst. exists d. by left.
  - specialize (IH (S i) Hsort). destruct (insert_at (S i) seq data) as [j|].
    + destruct IH as (k & -> & Hk & Hb & Ha). exists (S k). split; [lia|]. split; [simpl; lia|].
      split; [|done]. intros x [->|Hx]%elem_of_cons; [simpl; lia|by apply Hb].
    + destruct IH as [d' Hd]. exists d'. by right.
Qed.

(** An offer that the queue ignores: the number is taken, or past the end. *)
Lemma tracks_skip l out q seq d :
  tracks l out q → is_Some (first_offer l seq) ∨ sq_max q < seq →
  tracks (l ++ [(seq, d)]) out q.
Proof.
  intros T Hseq.
  assert (∀ s, s ≤ sq_max q → first_offer (l ++ [(seq, d)]) s = first_offer l s) as Hsame.
  { intros s Hs. rewrite first_offer_app. destruct (first_offer l s) eqn:E; [done|]. simpl.
    case_decide; [subst|done]. destruct Hseq as [[? ?]|?]; [congruence|lia]. }
  destruct T. split; try done.
  - intros i e He. rewrite first_offer_app. by rewrite (tr_out0 i e He).
  - intros Hle. rewrite Hsame by done. by apply tr_gap0.
  - intros x Hx. rewrite first_offer_app. by rewrite (tr_data0 x Hx).
  - intros s e. intros He Hle. rewrite Hsame in He by done. by apply tr_complete0.
Qed.

(** The expected chunk: it is handed out with those that follow it. *)
Lemma tracks_next l out q d taken rest :
  tracks l out q → sq_next q ≤ sq_max q → sq_next q < MaxUint64 →
  sq_data q = taken ++ rest →
  (∀ j x, taken !! j = Some x →
     x.1 = sq_next q + 1 + Z.of_nat j ∧ x.1 ≤ sq_max q) →
  (∀ x, x ∈ rest → sq_next q + 1 + Z.of_nat (length taken) ≤ x.1 ∧
     (x.1 = sq_next q + 1 + Z.of_nat (length taken) → sq_max q < x.1)) →
  tracks (l ++ [(sq_next q, d)]) (out ++ d :: taken.*2)
    (mkSeqQueue (sq_next q + 1 + Z.of_nat (length taken)) (sq_max q) rest).
Proof.
  intros T Hle Hmx Hdata Htk Hrest. destruct T. set (n := sq_next q) in *.
  assert (∀ s e, first_offer l s = Some e → first_offer (l ++ [(n, d)]) s = Some e) as Hold.
  { intros s e He. rewrite first_offer_app. by rewrite He. }
  assert (∀ x, x ∈ taken → n + 1 ≤ x.1 < n + 1 + Z.of_nat (length taken) ∧ x.1 ≤ sq_max q) as Htk'.
  { intros x Hx. apply list_elem_of_lookup in Hx as [j Hj].
    pose proof (lookup_lt_Some _ _ _ Hj). destruct (Htk j x Hj). lia. }
  assert (taken = [] ∨ n + Z.of_nat (length taken) < MaxUint64 ∧
          n + Z.of_nat (length taken) ≤ sq_max q) as Hlast.
  { destruct taken as [|y t] using rev_ind; [by left|right].
    destruct (Htk (length t) y) as [Hy1 Hy2]; [by rewrite lookup_app_r, Nat.sub_diag by lia|].
    destruct (tr_later0 y); [rewrite Hdata; set_solver|]. rewrite length_app. simpl. lia. }
  split; simpl.
  - rewrite length_app. simpl. rewrite length_fmap. lia.
  - destruct Hlast as [->|]; simpl; lia.
  - destruct Hlast as [->|]; simpl; lia.
  - intros i e He. apply lookup_app_Some in He as [He|[Hi He]]; [by apply Hold, tr_out0|].
    destruct (i - length out)%nat as [|j] eqn:Ej; simpl in He.
    + injection He as <-. rewrite first_offer_app.
      replace (Z.of_nat i) with n by lia. rewrite tr_gap0 by done. simpl. by rewrite decide_True.
    + apply list_lookup_fmap_Some in He as ([s e'] & -> & Hx). destruct (Htk j _ Hx) as [Hs _].
      simpl in *. replace (Z.of_nat i) with s by lia.
      apply Hold, (tr_data0 (s, e')). rewrite Hdata. apply list_elem_of_lookup_2 in Hx. set_solver.
  - intros Hle'. rewrite first_offer_app. destruct (first_offer l (n + 1 + Z.of_nat (length taken))) as [e|] eqn:Ee.
    + exfalso. apply tr_complete0 in Ee as [?|Hin]; [lia| |done].
      rewrite Hdata in Hin. apply elem_of_app in Hin as [Hin|Hin].
      * apply Htk' in Hin. simpl in Hin. lia.
      * apply Hrest in Hin. simpl in Hin. lia.
    + simpl. rewrite decide_False by lia. done.
  - rewrite Hdata in tr_sorted0. by apply StronglySorted_app_1_r in tr_sorted0.
  - intros x Hx. split; [by apply Hrest|]. apply tr_later0. rewrite Hdata. set_solver.
  - intros x Hx. apply Hold, tr_data0. rewrite Hdata. set_solver.
  - intros s e He Hs. rewrite first_offer_app in He.
    destruct (first_offer l s) as [e'|] eqn:Ee.
    + injection He as ->. apply tr_complete0 in Ee as [?|Hin]; [left; lia| |done].
      rewrite Hdata in Hin. apply elem_of_app in Hin as [Hin|Hin]; [left|by right].
      apply Htk' in Hin. simpl in Hin. lia.
    + simpl in He. destruct (decide (n = s)); [left; lia|done].
Qed.

Lemma sorted_insert data k seq d :
  StronglySorted seq_lt data → (∀ x, x ∈ take k data → x.1 < seq) →
  (∀ x, x ∈ drop k data → seq < x.1) →
  StronglySorted seq_lt (take k data ++ (seq, d) :: drop k data).
Proof.
  intros Hs Hb Ha. rewrite <- (take_drop k data) in Hs.
  apply StronglySorted_app in Hs as (Hc & Ht & Hd). apply StronglySorted_app. split_and!; [|done|].
  - intros x y Hx [->|Hy]%elem_of_cons; [by apply Hb|by apply Hc].
  - constructor; [done|]. apply Forall_forall. intros x Hx. by apply Ha.
Qed.

(** A later chunk: it is kept at its place. *)
Lemma tracks_later l out q seq d k :
  tracks l out q → offerable (seq, d) → sq_next q < seq → first_offer l seq = None →
  (∀ x, x ∈ take k (sq_data q) → x.1 < seq) → (∀ x, x ∈ drop k (sq_data q) → seq < x.1) →
  tracks (l ++ [(seq, d)]) out
    (mkSeqQueue (sq_next q) (sq_max q) (take k (sq_data q) ++ (seq, d) :: drop k (sq_data q))).
Proof.
  intros T Hof Hlt Hnone Hb Ha. destruct T.
  assert (∀ x, x ∈ take k (sq_data q) ++ (seq, d) :: drop k (sq_data q) ↔
          x = (seq, d) ∨ x ∈ sq_data q) as Hin.
  { intros x. rewrite <- (take_drop k (sq_data q)) at 3. set_solver. }
  split; simpl; try done.
  - intros i e He. rewrite first_offer_app. by rewrite (tr_out0 i e He).
  - intros Hle. rewrite first_offer_app. rewrite tr_gap0 by done. simpl. case_decide; [lia|done].
  - by apply sorted_insert.
  - intros x [->|Hx]%Hin; [|by apply tr_later0]. destruct Hof. simpl in *. lia.
  - intros x [->|Hx]%Hin; rewrite first_offer_app; [|by rewrite (tr_data0 x Hx)].
    simpl. rewrite Hnone. by rewrite decide_True.
  - intros s e He Hs. rewrite Hin. rewrite first_offer_app in He.
    destruct (first_offer l s) as [e'|] eqn:Ee.
    + injection He as ->. destruct (tr_complete0 s e); [done..| |]; auto.
    + simpl in He. case_decide; [|done]. injection He as ->. subst. auto.
Qed.

Lemma Offer_tracks l out q seq d q' o c :
  tracks l out q → offerable (seq, d) → Offer q seq d = (q', (o, c)) →
  tracks (l ++ [(seq, d)]) (out ++ o) q'.
Proof.
  intros T Hof. unfold Offer.
  assert (0 ≤ seq < sq_next q → is_Some (first_offer l seq)) as Hpast.
  { intros Hs. destruct T. destruct (lookup_lt_is_Some_2 out (Z.to_nat seq)) as [e He]; [lia|].
    apply tr_out0 in He. rewrite Z2Nat.id in He by lia. eauto. }
  destruct Hof as [Hs0 Hs1]. simpl in *.
  case_decide as H1.
  { intros [= <- <- <-]. rewrite app_nil_r. apply tracks_skip; [done|].
    destruct (decide (sq_max q < seq)); [by right|]. left. apply Hpast. lia. }
  case_decide as H2.
  { intros [= <- <- <-]. rewrite app_nil_r. apply tracks_skip; [done|].
    destruct (decide (sq_max q < seq)); [by right|]. left. apply Hpast. lia. }
  case_decide as H3.
  - subst seq. rewrite uint64_succ_small by (destruct T; lia).
    destruct (pop_ready _ _ _) as [ready nx] eqn:Ep. intros [= <- <- <-].
    apply pop_ready_spec in Ep as (taken & rest & Hd & -> & -> & Htk & Hr).
    + rewrite Hd. simpl. rewrite length_fmap, Nat.sub_0_r, drop_app_length.
      apply tracks_next; auto; [lia|]. intros x Hx. destruct (Hr x Hx). lia.
    + by destruct T.
    + intros x Hx. destruct T. destruct (tr_later0 x Hx) as [Hx1 Hx2].
      apply tr_data0 in Hx. destruct (decide (x.1 = sq_next q)) as [He|]; [|lia].
      rewrite He, tr_gap0 in Hx by lia. done.
    + destruct T. lia.
  - pose proof (insert_at_spec (sq_data q) 0 seq (tr_sorted _ _ _ T)) as Hi.
    destruct (insert_at 0 seq (sq_data q)) as [i|]; intros [= <- <- <-]; rewrite app_nil_r.
    + destruct Hi as (k & -> & _ & Hb & Ha). apply tracks_later; auto; [done|lia|].
      destruct (first_offer l seq) as [e|] eqn:Ee; [exfalso|done].
      apply (tr_complete _ _ _ T) in Ee as [?|Hin]; [lia| |lia].
      rewrite <- (take_drop k (sq_data q)) in Hin.
      apply elem_of_app in Hin as [Hin|Hin]; [apply Hb in Hin|apply Ha in Hin]; simpl in Hin; lia.
    + destruct Hi as [e He]. apply tracks_skip; [done|]. left. exists e.
      apply (tr_data _ _ _ T) in He. done.
Qed.

Lemma offers_tracks l2 l1 out q q' outs :
  tracks l1 out q → Forall offerable l2 → offers q l2 = (q', outs) →
  tracks (l1 ++ l2) (out ++ outs) q'.
Proof.
  revert l1 out q outs. induction l2 as [|[seq d] l2 IH]; intros l1 out q outs T Hof; simpl.
  { intros [= <- <-]. by rewrite !app_nil_r. }
  apply Forall_cons in Hof as [Hx Hof].
  destruct (Offer q seq d) as [q1 [o c]] eqn:Eo. destruct (offers q1 l2) as [q2 os] eqn:Es.
  intros [= <- <-]. rewrite cons_middle, !app_assoc.
  eapply IH; [|done|exact Es]. by eapply Offer_tracks.
Qed.


Lemma offers_max l q : sq_max (offers q l).1 = sq_max q.
Proof.
  revert q. induction l as [|[s d] l IH]; intros q; [done|]. cbn [offers].
  destruct (Offer q s d) as [q1 [o c]] eqn:Eo.
  assert (sq_max q1 = sq_max q) as Hm.
  { unfold Offer in Eo. repeat case_decide; try by simplify_eq.
    - destruct (pop_ready _ _ _). by simplify_eq.
    - destruct (insert_at _ _ _); by simplify_eq. }
  specialize (IH q1). destruct (offers q1 l). simpl in *. congruence.
Qed.
End refinement.

(** ** The contract holds *)




(** The first offers decide, so the order of distinct chunks does not matter. *)
Lemma first_offer_elem {A} (l : list (Z * A)) s d : first_offer l s = Some d → (s, d) ∈ l.
Proof.
  induction l as [|[s' d'] l IH]; simpl; [done|]. case_decide.
  - intros [= ->]. subst. by left.
  - intros H'. right. by apply IH.
Qed.

Lemma first_offer_distinct {A} (l : list (Z * A)) s d :
  NoDup l.*1 → (s, d) ∈ l → first_offer l s = Some d.
Proof.
  induction l as [|[s' d'] l IH]; simpl; [by intros _ ?%not_elem_of_nil|].
  intros [Hs Hnd]%NoDup_cons [Heq|Hin]%elem_of_cons.
  - simplify_eq. by rewrite decide_True.
  - rewrite decide_False; [by apply IH|]. intros ->. apply Hs.
    apply list_elem_of_fmap. by exists (s, d).
Qed.

Lemma first_offer_perm {A} (l k : list (Z * A)) s :
  l ≡ₚ k → NoDup l.*1 → first_offer l s = first_offer k s.
Proof.
  intros Hp Hnd. assert (NoDup k.*1) as Hnd' by by rewrite <- Hp.
  destruct (first_offer l s) as [d|] eqn:El.
  - symmetry. apply first_offer_distinct; [done|]. rewrite <- Hp. by apply first_offer_elem.
  - destruct (first_offer k s) as [d|] eqn:Ek; [|done].
    apply first_offer_elem in Ek. rewrite <- Hp in Ek.
    apply first_offer_distinct in Ek; [congruence|done].
Qed.

(** Two arrivals of the same chunks deliver the same data. *)
Theorem SeqQueue_confluent {A} (l k : list (Z * A)) :
  l ≡ₚ k → NoDup l.*1 → Forall offerable l →
  (offers NewSeqQueue l).2 = (offers NewSeqQueue k).2.
Proof.
  intros Hp Hnd Hl. assert (Forall offerable k) as Hk by by rewrite <- Hp.
  assert (∀ j : list (Z * A), Forall offerable j →
    ordered MaxUint64 j (offers NewSeqQueue j).2) as Hord.
  { intros j Hj. destruct (offers NewSeqQueue j) as [q out] eqn:Eq.
    pose proof (offers_max j NewSeqQueue) as Hmax. rewrite Eq in Hmax. simpl in *.
    apply (offers_tracks j [] []) in Eq; [|apply tracks_new|done].
    apply tracks_ordered in Eq. by rewrite Hmax in Eq. }
  apply (ordered_unique MaxUint64 l); [by apply Hord|].
  destruct (Hord k Hk) as (H1 & H2 & H3). split_and!; [|done|].
  - intros i d Hi. rewrite (first_offer_perm l k) by done. by apply H1.
  - intros Hle. rewrite (first_offer_perm l k) by done. by apply H3.
Qed.

(** A closing number below what was handed out does not close the queue: it
    reports completion, and the next chunk is handed out all the same. *)
Theorem SetMaxSeq_late {A} (q : SeqQueue A) m d :
  m < sq_next q → 0 ≤ sq_next q < MaxUint64 →
  (SetMaxSeq q m).2 = true ∧
  ∃ rest, (Offer (SetMaxSeq q m).1 (sq_next q) d).2.1 = d :: rest.
Proof.
  intros Hm Hn. unfold SetMaxSeq. rewrite decide_True by done. split; [done|]. simpl.
  unfold Offer. simpl. rewrite !decide_False by lia. rewrite decide_True by done.
  destruct (pop_ready _ _ _) as [out n]. by exists out.
Qed.

Lemma SeqQueue_confluent_witness :
  (offers NewSeqQueue [(1, 10); (2, 20); (0, 0)]).2 = (offers NewSeqQueue [(0, 0); (2, 20); (1, 10)]).2.
Proof.
  apply (SeqQueue_confluent [(1, 10); (2, 20); (0, 0)] [(0, 0); (2, 20); (1, 10)]).
  - apply (bool_decide_unpack _). vm_compute. exact I.
  - apply (bool_decide_unpack _). vm_compute. exact I.
  - repeat constructor; simpl; unfold MaxUint64; lia.
Defined.
