(* ===== verification/Streams.v ===== *)
(** Input of sessions: [arhat.dev/libext/extutil/streaming.go].

    The manager keeps the open sessions under a lock; each session puts its
    input in order with a [SeqQueue] and writes it to a pipe.  The manager is a
    part of a larger state, reached through the class [HasStreams], since
    opening a session runs code of the client under the lock.

    A spinning [CompareAndSwap] that finds the flag set is [Hang]: the caller
    never gets past it unless somebody else resets the flag.  [Hang] stops the
    calling goroutine only; what the others see is the state it leaves. *)

From S2P Require Import Prelude SeqQueue.
From stdpp Require Import base gmap strings list fin_maps numbers.

Local Open Scope Z_scope.
Local Open Scope list_scope.

(** A session: its queue, the chunks written to its pipe, how often the pipe was
    closed, the sizes passed to the resize function, and the spin flag. *)
Record stream := mkStream {
  st_seqQ : SeqQueue string;
  st_written : list string;
  st_closed : nat;
  st_resized : list (Z * Z);
  st_working : bool }.

Definition new_stream : stream := mkStream NewSeqQueue [] 0 [] false.

(** [data = None] is a nil slice. *)
Definition stream_write (s : stream) (seq : Z) (data : option string) : outcome stream :=
  if st_working s then Hang
  else match data with
       | None =>
           Ok (mkStream (SetMaxSeq (st_seqQ s) seq).1 (st_written s) (st_closed s) (st_resized s) true)
       | Some d =>
           let '(q, (out, _)) := Offer (st_seqQ s) seq d in
           Ok (mkStream q (st_written s ++ out) (st_closed s) (st_resized s) false)
       end.

Definition stream_resize (s : stream) (cols rows : Z) : stream :=
  mkStream (st_seqQ s) (st_written s) (st_closed s) (st_resized s ++ [(cols, rows)]) (st_working s).

Definition stream_close (s : stream) : outcome stream :=
  if st_working s then Hang
  else Ok (mkStream (st_seqQ s) (st_written s) (S (st_closed s)) (st_resized s) false).

Record StreamManager := mkStreamManager {
  sm_sessions : gmap Z stream;
  sm_locked : bool }.

Definition NewStreamManager : StreamManager := mkStreamManager ∅ false.

Class HasStreams (W : Type) := {
  get_sm : W → StreamManager;
  put_sm : StreamManager → W → W;
  get_put_sm m w : get_sm (put_sm m w) = m }.

(** The manager on its own. *)
#[global] Instance sm_self : HasStreams StreamManager :=
  {| get_sm m := m; put_sm m _ := m; get_put_sm _ _ := eq_refl |}.

Section manager.
Context {W : Type} `{!HasStreams W}.
Notation M := (M W).

Definition sm_get : M StreamManager := λ w, (Ok (get_sm w), w).
Definition sm_put (m : StreamManager) : M unit := λ w, (Ok (), put_sm m w).
Definition of_outcome {A} (o : outcome A) : M A := λ w, (o, w).

Definition set_sessions (f : gmap Z stream → gmap Z stream) : M unit :=
  m ← sm_get; sm_put (mkStreamManager (f (sm_sessions m)) (sm_locked m)).

(** [mu.Lock()] and [mu.Unlock()]. *)
Definition sm_Lock : M unit :=
  m ← sm_get;
  if sm_locked m then hang else sm_put (mkStreamManager (sm_sessions m) true).
Definition sm_Unlock : M unit :=
  m ← sm_get; sm_put (mkStreamManager (sm_sessions m) false).

(** [mu.RLock(); s, ok := m.sessions[sid]; mu.RUnlock()]. *)
Definition sm_find (sid : Z) : M (option stream) :=
  m ← sm_get;
  if sm_locked m then hang else mret (sm_sessions m !! sid).

(** What [create] leaves in the variables of its caller is its value. *)
Definition Add {A} (sid : Z) (create : M A) : M A :=
  sm_Lock;;
  with_defer
    (m ← sm_get;
     match sm_sessions m !! sid with
     | Some _ => fail ErrAlreadyExists
     | None => a ← create; set_sessions <[sid := new_stream]>;; mret a
     end)
    (λ _, sm_Unlock).

Definition Del (sid : Z) : M unit :=
  sm_Lock;;
  with_defer
    (m ← sm_get;
     match sm_sessions m !! sid with
     | Some s => of_outcome (stream_close s);; set_sessions (delete sid)
     | None => mret ()
     end)
    (λ _, sm_Unlock).

Definition Write (sid seq : Z) (data : option string) : M unit :=
  s ← sm_find sid;
  match s with
  | None => mret ()
  | Some s => s' ← of_outcome (stream_write s seq data); set_sessions <[sid := s']>
  end.

Definition Resize (sid cols rows : Z) : M unit :=
  s ← sm_find sid;
  match s with
  | None => mret ()
  | Some s => set_sessions <[sid := stream_resize s cols rows]>
  end.
End manager.

(** A chunk of input that arrives: session, number, data. *)
Notation input := (Z * (Z * string))%type.

Definition write_input {W} `{!HasStreams W} (x : input) : M W unit :=
  Write x.1 x.2.1 (Some x.2.2).

(** ** The manager at rest

    Nobody holds the lock or is at work on a session; every operation but the
    close of an input returns and leaves the manager at rest. *)

Definition sm_idle (m : StreamManager) : Prop :=
  sm_locked m = false ∧ ∀ sid s, sm_sessions m !! sid = Some s → st_working s = false.

Definition same_sm {W} `{!HasStreams W} (w w' : W) : Prop := get_sm w' = get_sm w.

#[global] Instance same_sm_preorder {W} `{!HasStreams W} : PreOrder (same_sm (W := W)).
Proof. split; [done|]. unfold same_sm. intros ???. by intros -> ->. Qed.

(** The session after a chunk. *)
Definition deliver (seq : Z) (d : string) (s : stream) : stream :=
  let '(q, (out, _)) := Offer (st_seqQ s) seq d in
  mkStream q (st_written s ++ out) (st_closed s) (st_resized s) false.

Section laws.
Context {W : Type} `{!HasStreams W}.
Implicit Types w : W.

Lemma wp_sm_get (Q : outcome StreamManager → W → Prop) w : Q (Ok (get_sm w)) w → wp sm_get Q w.
Proof. done. Qed.

Lemma wp_sm_put (Q : outcome unit → W → Prop) m w :
  (∀ w', get_sm w' = m → Q (Ok ()) w') → wp (sm_put m) Q w.
Proof. intros H. apply H, get_put_sm. Qed.

Lemma wp_set_sessions (Q : outcome unit → W → Prop) f w :
  (∀ w', get_sm w' = mkStreamManager (f (sm_sessions (get_sm w))) (sm_locked (get_sm w)) → Q (Ok ()) w') →
  wp (set_sessions f) Q w.
Proof. intros H. apply wp_bind, wp_sm_get. simpl. by apply wp_sm_put. Qed.

Lemma wp_sm_Lock (Q : outcome unit → W → Prop) w :
  sm_locked (get_sm w) = false →
  (∀ w', get_sm w' = mkStreamManager (sm_sessions (get_sm w)) true → Q (Ok ()) w') →
  wp sm_Lock Q w.
Proof. intros Hl H. apply wp_bind, wp_sm_get. simpl. rewrite Hl. by apply wp_sm_put. Qed.

Lemma wp_sm_Unlock (Q : outcome unit → W → Prop) w :
  (∀ w', get_sm w' = mkStreamManager (sm_sessions (get_sm w)) false → Q (Ok ()) w') →
  wp sm_Unlock Q w.
Proof. intros H. apply wp_bind, wp_sm_get. simpl. by apply wp_sm_put. Qed.

(** With the lock held every operation blocks. *)
Lemma locked_blocks w sid :
  sm_locked (get_sm w) = true →
  (∀ A (create : M W A), (Add sid create w).1 = Hang) ∧ (Del sid w).1 = Hang ∧
  (∀ seq data, (Write sid seq data w).1 = Hang) ∧ (∀ cols rows, (Resize sid cols rows w).1 = Hang).
Proof.
  intros Hl.
  assert (sm_Lock w = (Hang, w)) as HL by by unfold sm_Lock, mbind, M_bind, sm_get; rewrite Hl.
  assert (sm_find sid w = (Hang, w)) as HF by by unfold sm_find, mbind, M_bind, sm_get; rewrite Hl.
  split_and!; intros; unfold Add, Del, Write, Resize;
    unfold mbind at 1, M_bind at 1; by rewrite ?HL, ?HF.
Qed.

(** [Write] of data. *)
Lemma wp_Write sid seq d w :
  sm_idle (get_sm w) →
  wp (Write sid seq (Some d)) (λ o w', o = Ok () ∧
    get_sm w' = mkStreamManager (alter (deliver seq d) sid (sm_sessions (get_sm w))) false) w.
Proof.
  intros [Hl Hw]. unfold Write. apply wp_bind, wp_bind, wp_sm_get. simpl. rewrite Hl.
  apply wp_ret. simpl. destruct (sm_sessions (get_sm w) !! sid) as [s|] eqn:Es.
  - apply wp_bind. unfold wp at 1, of_outcome, stream_write. simpl. rewrite (Hw _ _ Es).
    destruct (Offer _ _ _) as [q [out c]] eqn:Eo. simpl. apply wp_set_sessions.
    intros w' ->. split; [done|]. rewrite Hl. f_equal. apply map_eq. intros k.
    destruct (decide (k = sid)) as [->|Hk]; [|by rewrite lookup_insert_ne, lookup_alter_ne].
    rewrite lookup_insert_eq, lookup_alter_eq, Es. simpl. unfold deliver. by rewrite Eo.
  - apply wp_ret. split; [done|]. destruct (get_sm w) as [ss l] eqn:Em. simpl in *. subst l. f_equal.
    symmetry. apply map_eq. intros k. destruct (decide (k = sid)) as [->|Hk].
    + by rewrite lookup_alter_eq, Es.
    + by rewrite lookup_alter_ne.
Qed.

Lemma idle_alter f sid ss :
  (∀ s, st_working s = false → st_working (f s) = false) →
  sm_idle (mkStreamManager ss false) → sm_idle (mkStreamManager (alter f sid ss) false).
Proof.
  intros Hf [_ Hw]. split; [done|]. simpl in *. intros k s. destruct (decide (k = sid)) as [->|Hk].
  - rewrite lookup_alter_eq. destruct (ss !! sid) as [s0|] eqn:E; simpl; [|done].
    intros [= <-]. apply Hf. by eapply Hw.
  - rewrite lookup_alter_ne by done. apply Hw.
Qed.

Lemma deliver_working seq d s : st_working (deliver seq d s) = false.
Proof. unfold deliver. by destruct (Offer _ _ _) as [? [? ?]]. Qed.

(** [Add] of a session: when it succeeds the session is new and empty; when
    it fails nothing changed.  The lock is free again in every case. *)
Lemma wp_Add {A} sid (create : M W A) w :
  sm_idle (get_sm w) → keeps same_sm create → never_panics create →
  wp (Add sid create) (λ o w',
    match o with
    | Ok _ => sm_sessions (get_sm w) !! sid = None ∧
              get_sm w' = mkStreamManager (<[sid := new_stream]> (sm_sessions (get_sm w))) false
    | Err e => get_sm w' = get_sm w ∧ (is_Some (sm_sessions (get_sm w) !! sid) → e = ErrAlreadyExists)
    | Panic _ => False
    | Hang => sm_locked (get_sm w') = true
    end) w.
Proof.
  intros [Hl Hw] Hk Hr. unfold Add. apply wp_bind, wp_sm_Lock; [done|]. intros w1 Hw1.
  apply wp_with_defer, wp_bind, wp_sm_get. simpl. rewrite Hw1. simpl.
  assert (∀ ss, mkStreamManager ss (sm_locked (get_sm w)) = mkStreamManager ss false) as Hfalse
    by by intros; rewrite Hl.
  assert (mkStreamManager (sm_sessions (get_sm w)) false = get_sm w) as Hsame.
  { rewrite <- Hfalse. by destruct (get_sm w). }
  destruct (sm_sessions (get_sm w) !! sid) as [s|] eqn:Es.
  - apply wp_fail, wp_sm_Unlock. intros w2 ->. rewrite Hw1. done.
  - apply wp_bind. eapply wp_mono; [|apply wp_and; [apply wp_keeps, Hk|apply wp_returns, Hr]].
    intros o w2 [Hs Hres]. unfold same_sm in Hs. rewrite Hw1 in Hs. destruct o as [a|e|p|]; simpl.
    + apply wp_bind, wp_set_sessions. intros w3 Hw3. apply wp_ret, wp_sm_Unlock. intros w4 ->.
      by rewrite Hw3, Hs.
    + apply wp_sm_Unlock. intros w3 ->. rewrite Hs. simpl. split; [done|]. by intros [].
    + done.
    + by rewrite Hs.
Qed.

(** [Del]: the pipe of the session is closed once and the session forgotten. *)
Lemma wp_Del sid w :
  sm_idle (get_sm w) →
  wp (Del sid) (λ o w', o = Ok () ∧
    get_sm w' = mkStreamManager (delete sid (sm_sessions (get_sm w))) false) w.
Proof.
  intros [Hl Hw]. unfold Del. apply wp_bind, wp_sm_Lock; [done|]. intros w1 Hw1.
  apply wp_with_defer, wp_bind, wp_sm_get. simpl. rewrite Hw1. simpl.
  destruct (sm_sessions (get_sm w) !! sid) as [s|] eqn:Es.
  - apply wp_bind. unfold wp at 1, of_outcome, stream_close. simpl. rewrite (Hw _ _ Es). simpl.
    apply wp_set_sessions. intros w2 Hw2. apply wp_sm_Unlock. intros w3 ->. rewrite Hw2, Hw1. done.
  - apply wp_ret, wp_sm_Unlock. intros w2 ->. rewrite Hw1. simpl. by rewrite delete_id.
Qed.

Lemma wp_Resize sid cols rows w :
  sm_idle (get_sm w) →
  wp (Resize sid cols rows) (λ o w', o = Ok () ∧ sm_idle (get_sm w')) w.
Proof.
  intros [Hl Hw]. unfold Resize. apply wp_bind, wp_bind, wp_sm_get. simpl. rewrite Hl.
  apply wp_ret. simpl. destruct (sm_sessions (get_sm w) !! sid) as [s|] eqn:Es; [|by apply wp_ret; split; [|split]].
  apply wp_set_sessions. intros w' ->. split; [done|]. split; [done|]. simpl. intros k s'.
  destruct (decide (k = sid)) as [->|Hk].
  - rewrite lookup_insert_eq. intros [= <-]. exact (Hw _ _ Es).
  - rewrite lookup_insert_ne by done. apply Hw.
Qed.

(** A run of inputs: every session gets its own chunks, in their order of
    arrival. *)
Definition inputs_of (sid : Z) (l : list input) : list (Z * string) :=
  (List.filter (λ x, bool_decide (x.1 = sid)) l).*2.

Lemma wp_write_inputs (l : list input) w :
  sm_idle (get_sm w) →
  wp (for_each l write_input) (λ o w', o = Ok () ∧ sm_idle (get_sm w') ∧
    ∀ sid, sm_sessions (get_sm w') !! sid =
           (λ s, foldl (λ s x, deliver x.1 x.2 s) s (inputs_of sid l)) <$> sm_sessions (get_sm w) !! sid) w.
Proof.
  revert w. induction l as [|[i [n d]] l IH]; intros w Hw.
  { apply wp_ret. split; [done|]. split; [done|]. intros sid. by destruct (_ !! sid). }
  unfold for_each. simpl. apply wp_bind. unfold write_input at 1. simpl.
  eapply wp_mono; [|by apply wp_Write]. intros o w1 [-> Hw1]. simpl.
  eapply wp_mono; [|apply IH].
  - intros o w2 (-> & Hi & Hall). split; [done|]. split; [done|]. intros sid. rewrite (Hall sid), Hw1.
    unfold inputs_of. simpl. destruct (decide (i = sid)) as [->|Hne].
    + rewrite bool_decide_true by done. rewrite lookup_alter_eq. by destruct (sm_sessions _ !! sid).
    + rewrite bool_decide_false by done. by rewrite lookup_alter_ne.
  - rewrite Hw1. apply idle_alter; [by intros; apply deliver_working|].
    destruct Hw as [Hl Hs]. by split.
Qed.

(** The session after its chunks. *)
Lemma deliver_all s (l : list (Z * string)) :
  let s' := foldl (λ s x, deliver x.1 x.2 s) s l in
  st_seqQ s' = (offers (st_seqQ s) l).1 ∧ st_written s' = st_written s ++ (offers (st_seqQ s) l).2 ∧
  st_closed s' = st_closed s.
Proof.
  revert s. induction l as [|[n d] l IH]; intros s; [by simpl; rewrite app_nil_r|].
  cbn [foldl offers fst snd]. destruct (IH (deliver n d s)) as (-> & -> & ->). unfold deliver.
  destruct (Offer (st_seqQ s) n d) as [q [out c]]. simpl. destruct (offers q l) as [q' outs].
  simpl. by rewrite app_assoc.
Qed.
End laws.

(** ** Sessions *)

Lemma inputs_after_Add {W} `{!HasStreams W} sid (create : M W unit) (inputs : list input) (w w1 : W) :
  sm_idle (get_sm w) → keeps same_sm create → never_panics create →
  Forall offerable (inputs_of sid inputs) →
  Add sid create w = (Ok (), w1) →
  ∃ w2 s, for_each inputs write_input w1 = (Ok (), w2) ∧
    sm_sessions (get_sm w2) !! sid = Some s ∧
    ordered MaxUint64 (inputs_of sid inputs) (st_written s).
Proof.
  intros Hi Hk Hr Hof HA.
  pose proof (wp_elim _ _ _ _ _ HA (wp_Add sid create w Hi Hk Hr)) as [Hnone Hw1].
  assert (sm_idle (get_sm w1)) as Hi1.
  { rewrite Hw1. split; [done|]. simpl. intros k s. destruct (decide (k = sid)) as [->|Hne].
    - rewrite lookup_insert_eq. by intros [= <-].
    - rewrite lookup_insert_ne by done. apply Hi. }
  pose proof (wp_write_inputs inputs w1 Hi1) as Hin. unfold wp in Hin.
  destruct (for_each inputs write_input w1) as [o w2]. simpl in Hin.
  destruct Hin as (-> & _ & Hall). specialize (Hall sid).
  rewrite Hw1 in Hall. simpl in Hall. rewrite lookup_insert_eq in Hall. simpl in Hall.
  exists w2. eexists. split; [done|]. split; [exact Hall|].
  destruct (deliver_all new_stream (inputs_of sid inputs)) as (_ & -> & _). simpl.
  destruct (offers NewSeqQueue (inputs_of sid inputs)) as [q out] eqn:Eq.
  pose proof (offers_max (inputs_of sid inputs) NewSeqQueue) as Hmax. rewrite Eq in Hmax. simpl in *.
  apply (offers_tracks _ [] []) in Eq; [|apply tracks_new|done].
  apply tracks_ordered in Eq. by rewrite Hmax in Eq.
Qed.



Lemma gap_nothing {A} (max : Z) (l : list (Z * A)) out :
  first_offer l 0 = None → ordered max l out → out = [].
Proof.
  intros Hn [H1 _]. destruct out as [|d out]; [done|]. specialize (H1 0%nat d eq_refl).
  change (Z.of_nat 0) with 0 in H1. congruence.
Qed.

(** Input that overtakes the opening of its session is dropped without an error
    (commands run in goroutines of their own, input does not).  When the first
    chunk is dropped nothing is ever written. *)
Theorem early_input_lost {W} `{!HasStreams W} sid (create : M W unit) d (later : list (Z * string)) (w : W) :
  sm_idle (get_sm w) → sm_sessions (get_sm w) !! sid = None →
  keeps same_sm create → never_panics create →
  Forall offerable later → first_offer later 0 = None →
  wp (Write sid 0 (Some d);; Add sid create;; for_each ((λ x, (sid, x)) <$> later) write_input)
     (λ o w', o = Ok () → ∃ s, sm_sessions (get_sm w') !! sid = Some s ∧ st_written s = []) w.
Proof.
  intros Hi Hnone Hk Hr Hof Hgap. apply wp_bind. eapply wp_mono; [|by apply wp_Write].
  intros o w1 [-> Hw1]. simpl.
  assert (get_sm w1 = get_sm w) as Heq.
  { rewrite Hw1. destruct Hi as [Hl _]. destruct (get_sm w) as [ss l]. simpl in *. subst l. f_equal.
    apply map_eq. intros k. destruct (decide (k = sid)) as [->|Hne].
    - by rewrite lookup_alter_eq, Hnone.
    - by rewrite lookup_alter_ne. }
  unfold wp. destruct (Add sid create w1) as [oa w2] eqn:EA. unfold mbind, M_bind. rewrite EA.
  destruct oa as [[]|e|p|]; [|done..].
  assert (inputs_of sid ((λ x, (sid, x)) <$> later) = later) as Hins.
  { clear. unfold inputs_of. induction later as [|x l IH]; simpl; [done|].
    rewrite bool_decide_true by done. simpl. f_equal. exact IH. }
  destruct (inputs_after_Add sid create ((λ x, (sid, x)) <$> later) w1 w2)
    as (w3 & s & -> & Hs & Hord); try done; [by rewrite Heq|by rewrite Hins|].
  simpl. intros _. exists s. split; [done|]. rewrite Hins in Hord. by eapply gap_nothing.
Qed.

Lemma early_input_lost_witness :
  wp (Write 7 0 (Some "a"%string);; Add 7 (mret () : M StreamManager unit);;
      for_each ((λ x, (7, x)) <$> [(1, "b"%string); (2, "c"%string)]) write_input)
     (λ o w', o = Ok () → ∃ s, sm_sessions (get_sm w') !! 7 = Some s ∧ st_written s = [])
     NewStreamManager.
Proof.
  apply (early_input_lost 7 (mret ()) "a"%string [(1, "b"%string); (2, "c"%string)] NewStreamManager).
  - split; [done|]. intros k s. simpl. by rewrite lookup_empty.
  - done.
  - apply keeps_ret. apply _.
  - apply returns_ret.
  - repeat constructor; simpl; unfold MaxUint64; lia.
  - reflexivity.
Defined.

(** The close of an input leaves the spin flag set, and the pipe open. *)
Lemma close_keeps_flag {W} `{!HasStreams W} sid seq (w : W) :
  sm_idle (get_sm w) → is_Some (sm_sessions (get_sm w) !! sid) →
  ∃ w1, Write sid seq None w = (Ok (), w1) ∧
    (∃ s0 s, sm_sessions (get_sm w) !! sid = Some s0 ∧ sm_sessions (get_sm w1) !! sid = Some s ∧
       st_closed s = st_closed s0 ∧ st_working s = true) ∧
    (∀ seq' data, (Write sid seq' data w1).1 = Hang) ∧
    sm_locked (get_sm w1) = false.
Proof.
  intros [Hl Hw] [s Hs].
  set (s1 := mkStream (SetMaxSeq (st_seqQ s) seq).1 (st_written s) (st_closed s) (st_resized s) true).
  set (w1 := put_sm (mkStreamManager (<[sid := s1]> (sm_sessions (get_sm w))) false) w).
  assert (get_sm w1 = mkStreamManager (<[sid := s1]> (sm_sessions (get_sm w))) false) as Hw1
    by apply get_put_sm.
  exists w1. split_and!.
  - unfold Write, sm_find, set_sessions, sm_get, sm_put, of_outcome, stream_write, mbind, M_bind.
    simpl. rewrite Hl. simpl. rewrite Hs, (Hw _ _ Hs). by unfold w1; rewrite Hl.
  - exists s, s1. rewrite Hw1. simpl. by rewrite lookup_insert_eq.
  - intros seq' data. unfold Write, sm_find, sm_get, of_outcome, mbind, M_bind.
    rewrite Hw1. simpl. by rewrite lookup_insert_eq.
  - by rewrite Hw1.
Qed.

(** The end of a session whose flag is set: it takes the lock and never gives it
    back. *)
Lemma Del_spins {W} `{!HasStreams W} sid s (w : W) :
  sm_locked (get_sm w) = false → sm_sessions (get_sm w) !! sid = Some s → st_working s = true →
  ∃ w', Del sid w = (Hang, w') ∧ sm_locked (get_sm w') = true.
Proof.
  intros Hl Hs Hw. set (w' := put_sm (mkStreamManager (sm_sessions (get_sm w)) true) w).
  assert (get_sm w' = mkStreamManager (sm_sessions (get_sm w)) true) as Hw' by apply get_put_sm.
  exists w'. split; [|by rewrite Hw'].
  unfold Del, sm_Lock, sm_get, sm_put, of_outcome, with_defer, mbind, M_bind.
  rewrite Hl. fold w'. rewrite Hw'. simpl. rewrite Hs. unfold stream_close. by rewrite Hw.
Qed.

(** The close of an input never gives the session back: [write] returns with
    the spin flag set.  Every further input of the session blocks the loop that
    delivers the commands, and the end of the session blocks with the lock of
    the manager held, after which every operation of every session blocks.
    The pipe is not closed. *)
Theorem input_close_blocks {W} `{!HasStreams W} sid seq (w : W) :
  sm_idle (get_sm w) → is_Some (sm_sessions (get_sm w) !! sid) →
  ∃ w1 w2, Write sid seq None w = (Ok (), w1) ∧
    (∀ s, sm_sessions (get_sm w1) !! sid = Some s →
       ∃ s0, sm_sessions (get_sm w) !! sid = Some s0 ∧ st_closed s = st_closed s0) ∧
    (∀ seq' data, (Write sid seq' data w1).1 = Hang) ∧
    Del sid w1 = (Hang, w2) ∧
    ∀ sid', (∀ A (create : M _ A), (Add sid' create w2).1 = Hang) ∧ (Del sid' w2).1 = Hang ∧
            (∀ seq' data, (Write sid' seq' data w2).1 = Hang) ∧
            (∀ cols rows, (Resize sid' cols rows w2).1 = Hang).
Proof.
  intros Hi Hs. destruct (close_keeps_flag sid seq w Hi Hs) as (w1 & Hw & (s0 & s & Hs0 & Hs1 & Hc & Hf) & Hh & Hl).
  destruct (Del_spins sid s w1 Hl Hs1 Hf) as (w2 & Hd & Hl2). exists w1, w2.
  split_and!; [done| |done|done|intros; by apply locked_blocks].
  intros s' Hs'. exists s0. split; [done|congruence].
Qed.

Lemma input_close_blocks_witness :
  let w := (Add 7 (mret () : M StreamManager unit) NewStreamManager).2 in
  ∃ w1 w2, Write 7 0 None w = (Ok (), w1) ∧
    (∀ s, sm_sessions (get_sm w1) !! 7 = Some s →
       ∃ s0, sm_sessions (get_sm w) !! 7 = Some s0 ∧ st_closed s = st_closed s0) ∧
    (∀ seq' data, (Write 7 seq' data w1).1 = Hang) ∧
    Del 7 w1 = (Hang, w2) ∧
    ∀ sid', (∀ A (create : M _ A), (Add sid' create w2).1 = Hang) ∧ (Del sid' w2).1 = Hang ∧
            (∀ seq' data, (Write sid' seq' data w2).1 = Hang) ∧
            (∀ cols rows, (Resize sid' cols rows w2).1 = Hang).
Proof.
  apply (input_close_blocks 7 0 (Add 7 (mret () : M StreamManager unit) NewStreamManager).2).
  - split; [done|]. intros k s.
    change (sm_sessions (get_sm _)) with (<[7 := new_stream]> (∅ : gmap Z stream)).
    rewrite lookup_insert_Some, lookup_empty. intros [[_ <-]|[_ ?]]; done.
  - by exists new_stream.
Defined.
