(* ===== verification/GoPath.v ===== *)
(** Strings and file paths of the Go standard library, as the program uses
    them: [strings.Split]/[SplitN]/[Join]/[HasPrefix]/[LastIndex], and
    [filepath.Clean], [Join], [Base] and [Dir] on Unix.  The lemmas say how
    [Join] composes, which is what the per-pod directory layout relies on. *)

From S2P Require Import Prelude.
From stdpp Require Import base strings list.
From Stdlib Require Import Ascii String.

Local Open Scope string_scope.
Local Open Scope list_scope.

Definition slash : ascii := "/"%char.

(** [strings.Split(s, sep)] for a one-byte separator. *)
Fixpoint split_on (sep : ascii) (s : string) : list string :=
  match s with
  | EmptyString => [""%string]
  | String c s' =>
      if decide (c = sep) then ""%string :: split_on sep s'
      else match split_on sep s' with
           | [] => [String c ""%string]
           | h :: t => String c h :: t
           end
  end.

(** [strings.SplitN(s, sep, 2)] for a one-byte separator: the part before the
    first separator and, if there is one, the part after it. *)
Fixpoint cut (sep : ascii) (s : string) : string * option string :=
  match s with
  | EmptyString => (""%string, None)
  | String c s' =>
      if decide (c = sep) then (""%string, Some s')
      else let '(a, b) := cut sep s' in (String c a, b)
  end.

(** [strings.Join(l, "/")]. *)
Definition join_slash (l : list string) : string := String.concat "/" l.

(** Whether [s] begins with [p]; [strings.HasPrefix(s, p)]. *)
Definition has_prefix (p s : string) : bool := String.prefix p s.

(** The suffix of [s] that follows the last occurrence of [p], if any:
    [s[strings.LastIndex(s, p)+len(p):]]. *)
Fixpoint after_last (p s : string) : option string :=
  match s with
  | EmptyString =>
      if has_prefix p EmptyString then Some EmptyString else None
  | String c s' =>
      match after_last p s' with
      | Some r => Some r
      | None => if has_prefix p s then Some (String.substring (String.length p) (String.length s) s)
                else None
      end
  end.

(** One component of [filepath.Clean]: [stack] holds the components kept so
    far, the last one first. *)
Definition clean_push (rooted : bool) (stack : list string) (c : string) : list string :=
  if decide (c = "" ∨ c = ".")%string then stack
  else if decide (c = "..")%string then
    match stack with
    | [] => if rooted then [] else [".."%string]
    | top :: rest => if decide (top = "..")%string then c :: stack else rest
    end
  else c :: stack.

Definition clean_comps (rooted : bool) (stack : list string) (l : list string) : list string :=
  foldl (clean_push rooted) stack l.

Definition is_rooted (p : string) : bool :=
  match p with
  | String c _ => bool_decide (c = slash)
  | EmptyString => false
  end.

Definition render (rooted : bool) (comps : list string) : string :=
  if rooted then String slash (join_slash comps)
  else match comps with [] => "."%string | _ => join_slash comps end.

(** [filepath.Clean] *)
Definition filepath_Clean (p : string) : string :=
  render (is_rooted p) (reverse (clean_comps (is_rooted p) [] (split_on slash p))).

(** [filepath.Join]: leading empty elements are dropped. *)
Fixpoint filepath_Join (l : list string) : string :=
  match l with
  | [] => ""%string
  | e :: l' => if decide (e = "")%string then filepath_Join l' else filepath_Clean (join_slash l)
  end.

(** [filepath.Base]: the last element, trailing slashes removed. *)
Definition filepath_Base (p : string) : string :=
  if decide (p = "")%string then "."%string
  else match last (List.filter (λ c, negb (bool_decide (c = ""%string))) (split_on slash p)) with
       | Some b => b
       | None => "/"%string
       end.

(** [filepath.Dir]: everything before the last slash, cleaned. *)
Definition filepath_Dir (p : string) : string :=
  match reverse (split_on slash p) with
  | [] | [_] => "."%string
  | _ :: front => filepath_Clean (join_slash (reverse front) +:+ "/")
  end.

Example clean_examples :
  filepath_Clean "/a//b/./../c/" = "/a/c"%string ∧ filepath_Clean "a/../.." = ".."%string ∧
  filepath_Clean "/.." = "/"%string ∧ filepath_Clean "" = "."%string ∧
  filepath_Join ["";"a";"";"b"]%string = "a/b"%string ∧
  filepath_Base "/usr/lib/systemd/systemd/" = "systemd"%string ∧
  filepath_Dir "/a/b/c" = "/a/b"%string ∧ filepath_Dir "x" = "."%string ∧
  filepath_Dir "/x" = "/"%string.
Proof. by vm_compute. Qed.

(** A plain path component: not empty, not a dot entry, without a slash. *)
Definition plain (c : string) : Prop :=
  c ≠ ""%string ∧ c ≠ "."%string ∧ c ≠ ".."%string ∧ split_on slash c = [c].

Global Instance plain_dec c : Decision (plain c).
Proof. unfold plain. apply _. Defined.

Lemma split_on_nonnil sep s : split_on sep s ≠ [].
Proof.
  destruct s as [|c s]; simpl; [done|]. case_decide; [done|]. by destruct (split_on sep s).
Qed.

Lemma split_on_app sep a b :
  split_on sep (a +:+ String sep b) = split_on sep a ++ split_on sep b.
Proof.
  induction a as [|c a IH]; simpl.
  - by rewrite decide_True.
  - case_decide; [by rewrite IH|]. rewrite IH.
    pose proof (split_on_nonnil sep a). by destruct (split_on sep a).
Qed.

Lemma split_join l :
  l ≠ [] → Forall (λ c, split_on slash c = [c]) l → split_on slash (join_slash l) = l.
Proof.
  intros Hn Hl. induction Hl as [|c l Hc Hl IH]; [done|].
  destruct l as [|d l]; [done|].
  change (join_slash (c :: d :: l)) with (c +:+ String slash (join_slash (d :: l))).
  rewrite split_on_app, Hc, IH by done. done.
Qed.

Lemma clean_push_plain rooted stack c : plain c → clean_push rooted stack c = c :: stack.
Proof.
  intros (? & ? & ? & ?). unfold clean_push. rewrite decide_False by tauto. by rewrite decide_False.
Qed.

Lemma clean_comps_plain rooted stack l :
  Forall plain l → clean_comps rooted stack l = reverse l ++ stack.
Proof.
  intros Hl. revert stack. induction Hl as [|c l Hc Hl IH]; intros stack; [done|].
  unfold clean_comps in *. simpl. rewrite clean_push_plain, IH by done.
  by rewrite reverse_cons, <- app_assoc.
Qed.

Lemma clean_comps_app rooted st l1 l2 :
  clean_comps rooted st (l1 ++ l2) = clean_comps rooted (clean_comps rooted st l1) l2.
Proof. apply foldl_app. Qed.

(** A cleaned rooted path is [/] followed by plain components. *)
Definition rooted_path (comps : list string) : string := String slash (join_slash comps).

Lemma split_rooted comps :
  Forall plain comps → 
  clean_comps true [] (split_on slash (rooted_path comps)) = reverse comps.
Proof.
  intros Hc. unfold rooted_path. simpl. destruct comps as [|c l]; [done|].
  assert (Forall (λ c, split_on slash c = [c]) (c :: l)) as Hs.
  { eapply Forall_impl; [exact Hc|]. by intros ? (?&?&?&?). }
  rewrite split_join by done.
  change (clean_comps true [] ("" :: c :: l)%string) with (clean_comps true [] (c :: l)).
  by rewrite clean_comps_plain, app_nil_r.
Qed.

Lemma is_rooted_app p s : is_rooted p = true → is_rooted (p +:+ s) = true.
Proof. by destruct p. Qed.

Lemma join_slash_cons c l : l ≠ [] → join_slash (c :: l) = c +:+ String slash (join_slash l).
Proof. by destruct l. Qed.

Lemma split_join_slash l :
  l ≠ [] → split_on slash (join_slash l) = l ≫= split_on slash.
Proof.
  induction l as [|c l IH]; intros Hn; [done|].
  destruct l as [|d l]; [by cbn; rewrite app_nil_r|].
  rewrite join_slash_cons by done. rewrite split_on_app, IH by done. done.
Qed.

(** [filepath.Join] of a cleaned rooted path with more components: components
    are appended, empty ones vanish. *)
Lemma Join_rooted comps l :
  Forall plain comps → Forall (λ c, plain c ∨ c = ""%string) l →
  filepath_Join (rooted_path comps :: l) =
  rooted_path (comps ++ List.filter (λ c, negb (bool_decide (c = ""%string))) l).
Proof.
  intros Hc Hl. change (filepath_Join (rooted_path comps :: l)) with
    (filepath_Clean (join_slash (rooted_path comps :: l))). unfold filepath_Clean.
  assert (is_rooted (join_slash (rooted_path comps :: l)) = true) as ->.
  { destruct l as [|d l]; [done|]. by rewrite join_slash_cons. }
  rewrite split_join_slash by done.
  change ((rooted_path comps :: l) ≫= split_on slash) with
    (split_on slash (rooted_path comps) ++ (l ≫= split_on slash)).
  rewrite clean_comps_app, split_rooted by done.
  unfold render, rooted_path. f_equal. f_equal.
  rewrite <- (reverse_involutive (comps ++ _)). f_equal. rewrite reverse_app.
  clear Hc. generalize (reverse comps) as st.
  induction Hl as [|c l Hc Hl IH]; intros st; [done|].
  change ((c :: l) ≫= split_on slash) with (split_on slash c ++ (l ≫= split_on slash)).
  rewrite clean_comps_app. cbn [List.filter]. destruct Hc as [Hc| ->].
  - assert (split_on slash c = [c]) as -> by apply Hc.
    change (clean_comps true st [c]) with (clean_push true st c).
    rewrite clean_push_plain, IH by done. rewrite bool_decide_eq_false_2 by apply Hc. simpl.
    by rewrite reverse_cons, <- app_assoc.
  - apply IH.
Qed.

Lemma Clean_rooted comps : Forall plain comps → filepath_Clean (rooted_path comps) = rooted_path comps.
Proof.
  intros Hc. unfold filepath_Clean. change (is_rooted (rooted_path comps)) with true.
  by rewrite split_rooted, reverse_involutive.
Qed.

Lemma rooted_path_inj l1 l2 :
  Forall plain l1 → Forall plain l2 → rooted_path l1 = rooted_path l2 → l1 = l2.
Proof.
  intros H1 H2 E.
  rewrite <- (reverse_involutive l1), <- (split_rooted l1), E, split_rooted by done.
  apply reverse_involutive.
Qed.
