(* ===== verification/Proto.v ===== *)
(** The messages of [aranya-proto/aranyagopb/runtimepb] that the runtime
    receives and returns, and the hand-written helpers of that package.

    A Go map is a [gmap string]; a nil map and an empty map read the same
    (the code only looks keys up, ranges and takes [len]).  A pointer is an
    [option]: a field that holds a message, and a value in a map of messages,
    which is nil when the entry has no value on the wire.  The elements of a
    repeated field are never nil after decoding and are modelled as values.
    Enums are open in protobuf, so they are [Z] with named values. *)

From S2P Require Import Prelude.
From stdpp Require Import base gmap strings list numbers.

Local Open Scope Z_scope.

Notation strmap := (gmap string string).
Notation bytes := string (only parsing).

(** ** Pod commands (cmd_pod.pb.go) *)

Definition RESTART_ALWAYS : Z := 0.
Definition RESTART_ON_FAILURE : Z := 1.
Definition RESTART_NEVER : Z := 2.

Record NamedData := { nd_DataMap : gmap string bytes }.

Record SELinuxOptions := {
  se_Type : string; se_Level : string; se_Role : string; se_User : string }.

Record ContainerSecuritySpec := {
  sec_Privileged : bool;
  sec_AllowNewPrivileges : bool;
  sec_NonRoot : bool;
  sec_ReadOnlyRootfs : bool;
  sec_User : Z;
  sec_Group : Z;
  sec_CapsAdd : list string;
  sec_CapsDrop : list string;
  sec_ProcMountKind : Z;
  sec_SelinuxOptions : option SELinuxOptions }.

Record ContainerMountSpec := {
  ms_MountPath : string;
  ms_SubPath : string;
  ms_ReadOnly : bool;
  ms_Type : string;
  ms_Options : list string;
  ms_FileMode : Z;
  ms_Remote : bool }.

(** The [oneof] of a container action; [None] is the unset oneof. *)
Inductive ContainerAction_Action :=
| ContainerAction_Exec_ (Command : list string)
| ContainerAction_Http (Method Url : string) (Headers : list (string * string))
| ContainerAction_Socket_ (Address : string).

Record ContainerAction := { ca_Action : option ContainerAction_Action }.

Record ContainerProbeSpec := {
  pr_InitialDelay : Z;
  pr_ProbeTimeout : Z;
  pr_ProbeInterval : Z;
  pr_SuccessThreshold : Z;
  pr_FailureThreshold : Z;
  pr_Method : option ContainerAction }.

Record ContainerSpec := {
  cs_Name : string;
  cs_Image : string;
  cs_WorkingDir : string;
  cs_Stdin : bool;
  cs_StdinOnce : bool;
  cs_Tty : bool;
  cs_Command : list string;
  cs_Args : list string;
  cs_Envs : strmap;
  cs_Mounts : gmap string (option ContainerMountSpec);
  cs_ReadinessCheck : option ContainerProbeSpec;
  cs_LivenessCheck : option ContainerProbeSpec;
  cs_Security : option ContainerSecuritySpec;
  cs_HookPostStart : option ContainerAction }.

Record PodVolumeSpec := {
  vs_HostPaths : strmap;
  vs_VolumeData : gmap string (option NamedData) }.

Record PodSecuritySpec := { ps_Sysctls : strmap }.

Record PodNetworkSpec := {
  nw_Nameservers : list string;
  nw_DnsSearches : list string;
  nw_DnsOptions : list string;
  nw_Hosts : strmap;
  nw_AbbotRequestBytes : bytes }.

Record PodEnsureCmd := {
  pe_PodUid : string;
  pe_Namespace : string;
  pe_Name : string;
  pe_RestartPolicy : Z;
  pe_HostIpc : bool;
  pe_HostNetwork : bool;
  pe_HostPid : bool;
  pe_SharePid : bool;
  pe_Wait : bool;
  pe_Hostname : string;
  pe_Containers : list ContainerSpec;
  pe_Network : option PodNetworkSpec;
  pe_Volumes : option PodVolumeSpec;
  pe_Security : option PodSecuritySpec;
  pe_Labels : strmap }.

Record PodDeleteCmd := {
  pd_PodUid : string;
  pd_Containers : list string;
  pd_GraceTime : Z;
  pd_HookPreStop : gmap string (option ContainerAction) }.

Record PodListCmd := { pl_All : bool; pl_Names : list string }.

(** Nil-safe getters used by [createContainer]. *)
Definition GetHostPaths (o : PodEnsureCmd) : strmap :=
  match pe_Volumes o with Some v => vs_HostPaths v | None => ∅ end.
Definition GetVolumeData (o : PodEnsureCmd) : gmap string (option NamedData) :=
  match pe_Volumes o with Some v => vs_VolumeData v | None => ∅ end.
Definition GetDataMap (d : option NamedData) : gmap string bytes :=
  match d with Some d => nd_DataMap d | None => ∅ end.
Definition GetSysctls (o : PodEnsureCmd) : strmap :=
  match pe_Security o with Some s => ps_Sysctls s | None => ∅ end.
Definition GetPrivileged (s : option ContainerSecuritySpec) : bool :=
  match s with Some s => sec_Privileged s | None => false end.
Definition GetAllowNewPrivileges (s : option ContainerSecuritySpec) : bool :=
  match s with Some s => sec_AllowNewPrivileges s | None => false end.
Definition GetReadOnlyRootfs (s : option ContainerSecuritySpec) : bool :=
  match s with Some s => sec_ReadOnlyRootfs s | None => false end.
Definition GetCapsAdd (s : option ContainerSecuritySpec) : list string :=
  match s with Some s => sec_CapsAdd s | None => [] end.
Definition GetCapsDrop (s : option ContainerSecuritySpec) : list string :=
  match s with Some s => sec_CapsDrop s | None => [] end.
Definition GetSelinuxOptions (s : option ContainerSecuritySpec) : option SELinuxOptions :=
  match s with Some s => sec_SelinuxOptions s | None => None end.

(** ** Pod status (msg_pod.pb.go, msg_pod.go) *)

Record ContainerStatus := {
  st_ContainerId : string;
  st_ImageId : string;
  st_CreatedAt : string;
  st_StartedAt : string;
  st_FinishedAt : string;
  st_ExitCode : Z;
  st_RestartCount : Z;
  st_Reason : string;
  st_Message : string }.

Record PodStatusMsg := {
  psm_Uid : string;
  psm_Network : option bytes;
  psm_Containers : gmap string (option ContainerStatus) }.

Definition NewPodStatusMsg (podUID : string) (network : option bytes)
    (containerStatus : gmap string (option ContainerStatus)) : PodStatusMsg :=
  {| psm_Uid := podUID; psm_Network := network; psm_Containers := containerStatus |}.

(** ** Image commands and status (cmd_image.pb.go, msg_image.pb.go) *)

Definition IMAGE_PULL_ALWAYS : Z := 0.
Definition IMAGE_PULL_IF_NOT_PRESENT : Z := 1.
Definition IMAGE_PULL_NEVER : Z := 2.

Record ImageAuthConfig := {
  ia_Username : string;
  ia_Password : string;
  ia_Auth : string;
  ia_ServerAddress : string;
  ia_IdentityToken : string;
  ia_RegistryToken : string;
  ia_Email : string }.

Record ImagePullSpec := {
  ip_AuthConfig : option ImageAuthConfig;
  ip_PullPolicy : Z }.

Record ImageEnsureCmd := { ie_Images : gmap string (option ImagePullSpec) }.

Record ImageStatusMsg := {
  im_Sha256 : string;
  im_Size : Z;
  im_Refs : list string }.

(** A slice of pointers, which may hold nil. *)
Record ImageStatusListMsg := { iml_Images : list (option ImageStatusMsg) }.

(** ** The state of a container (helper.go)

    [time.Time] is a [Z]; the zero time is [0]. *)

Inductive PodState :=
| POD_STATE_UNKNOWN
| POD_STATE_PENDING
| POD_STATE_RUNNING
| POD_STATE_SUCCEEDED
| POD_STATE_FAILED.

Section GetState.
(** [time.Parse(aranyagoconst.TimeLayout, s)], the zero time on an error. *)
Context (parse_time : string → Z).

Definition GetState (s : option ContainerStatus) : PodState :=
  match s with
  | None => POD_STATE_UNKNOWN
  | Some s =>
      let createdAt := parse_time (st_CreatedAt s) in
      let startedAt := parse_time (st_StartedAt s) in
      let finishedAt := parse_time (st_FinishedAt s) in
      if negb (finishedAt <? startedAt) then
        if negb (st_ExitCode s =? 0) then POD_STATE_FAILED else POD_STATE_SUCCEEDED
      else if negb (startedAt =? 0) then POD_STATE_RUNNING
      else if negb (createdAt =? 0) then POD_STATE_PENDING
      else if bool_decide (st_ContainerId s = ""%string) then POD_STATE_UNKNOWN
      else POD_STATE_PENDING
  end.

(** The state of a container that was created and never started. *)
Lemma GetState_never_started (s : ContainerStatus) :
  parse_time (st_StartedAt s) = 0 → parse_time (st_FinishedAt s) = 0 → st_ExitCode s = 0 →
  GetState (Some s) = POD_STATE_SUCCEEDED.
Proof. intros H1 H2 H3. unfold GetState. by rewrite H1, H2, H3. Qed.

End GetState.
