(* ===== verification/Labels.v ===== *)
(** Labels, names and namespaces of pods and containers:
    [runtimeutil/containerutil/{constant,labels,names,image}.go] and the label
    filter of [pkg/runtime/util.go]. *)

From S2P Require Import Prelude GoPath Proto.
From stdpp Require Import base gmap strings list fin_maps.
From Stdlib Require Import Ascii String.

Local Open Scope string_scope.
Local Open Scope list_scope.
Local Open Scope nat_scope.

(** ** Constants (constant.go) *)

Definition LabelRole : string := "arhat.dev/role".
Definition LabelRoleValueAbbot : string := "Abbot".
Definition ContainerLabelPodNamespace : string := "ctr.arhat.dev/pod-namespace".
Definition ContainerLabelPodName : string := "ctr.arhat.dev/pod-name".
Definition ContainerLabelPodUID : string := "ctr.arhat.dev/pod-uid".
Definition ContainerLabelHostNetwork : string := "config.ctr.arhat.dev/host-network".
Definition ContainerLabelPodContainer : string := "ctr.arhat.dev/pod-container".
Definition ContainerLabelPodContainerRole : string := "ctr.arhat.dev/pod-container-role".
Definition ContainerRoleInfra : string := "infra".
Definition ContainerRoleWork : string := "work".
Definition ContainerNamePause : string := "_pause".
Definition ContainerNameAbbot : string := "abbot".

(** [m[k]] of a Go [map[string]string]: the empty string when absent. *)
Definition get (m : strmap) (k : string) : string := default "" (m !! k).

(** ** labels.go *)

Definition AbbotMatchLabels : strmap :=
  {[ ContainerLabelPodContainerRole := ContainerRoleWork;
     ContainerLabelPodContainer := ContainerNameAbbot;
     LabelRole := LabelRoleValueAbbot;
     ContainerLabelHostNetwork := "true" ]}.

Definition IsPauseContainer (labels : strmap) : bool :=
  bool_decide (get labels ContainerLabelPodContainer = ContainerNamePause).

Definition IsHostNetwork (labels : strmap) : bool :=
  bool_decide (is_Some (labels !! ContainerLabelHostNetwork)).

Definition IsAbbotPod (labels : strmap) : bool :=
  if negb (IsHostNetwork labels) then false
  else if negb (bool_decide (get labels LabelRole = LabelRoleValueAbbot)) then false
  else true.

(** [for k, v := range src { dst[k] = v }] *)
Definition map_assign (dst src : strmap) : strmap := src ∪ dst.

Definition ContainerLabels (options : PodEnsureCmd) (container : string) : strmap :=
  let defaults : strmap :=
    {[ ContainerLabelPodUID := pe_PodUid options;
       ContainerLabelPodNamespace := pe_Namespace options;
       ContainerLabelPodName := pe_Name options;
       ContainerLabelPodContainer := container;
       ContainerLabelPodContainerRole :=
         if decide (container = ContainerNamePause) then ContainerRoleInfra
         else ContainerRoleWork ]} in
  let result := map_assign ∅ (pe_Labels options) in
  let result := map_assign result defaults in
  if pe_HostNetwork options then <[ContainerLabelHostNetwork := "true"]> result else result.

(** ** names.go *)

Definition GetContainerName (namespace name container : string) : string :=
  namespace +:+ "." +:+ name +:+ "." +:+ container.

Definition SharedNamespaces (pauseCtrID : string) (options : PodEnsureCmd) : strmap :=
  let containerNS := "container:" +:+ pauseCtrID in
  let ns : strmap :=
    {[ "net" := containerNS; "user" := containerNS; "ipc" := containerNS; "uts" := containerNS ]} in
  let ns := if pe_HostNetwork options then <["net" := "host"]> ns else ns in
  let ns := if pe_HostIpc options then <["ipc" := "host"]> ns else ns in
  if pe_HostPid options then <["pid" := "host"]> ns
  else if pe_SharePid options then <["pid" := containerNS]> ns
  else ns.

(** ** image.go: environment of an image *)

Definition GetEnv (env : list string) : strmap :=
  foldl (λ result kv,
           match cut "="%char kv with
           | (k, Some v) => <[k := v]> result
           | (k, None) => <[k := ""]> result
           end) ∅ env.

(** ** pkg/runtime/util.go *)

(** Ranging over [filters] and stopping at the first mismatch is the
    conjunction over the entries, in whatever order. *)
Definition filterLabels (filters labels : strmap) : bool :=
  if decide (size filters ≤ size labels) then
    bool_decide (map_Forall (λ k v, get labels k = v) filters)
  else false.

(** ** Lemmas *)

Create HintDb labels discriminated.

Lemma get_Some (m : strmap) k v : m !! k = Some v → get m k = v.
Proof. unfold get. by intros ->. Qed.

Lemma get_nonempty (m : strmap) k v : v ≠ "" → get m k = v ↔ m !! k = Some v.
Proof. unfold get. destruct (m !! k); simpl; naive_solver. Qed.

Lemma filterLabels_true filters labels :
  filterLabels filters labels = true ↔
  size filters ≤ size labels ∧ map_Forall (λ k v, get labels k = v) filters.
Proof.
  unfold filterLabels. case_decide; [|naive_solver].
  rewrite bool_decide_eq_true. tauto.
Qed.

Lemma filterLabels_get filters labels k v :
  filterLabels filters labels = true → filters !! k = Some v → get labels k = v.
Proof. rewrite filterLabels_true. intros [_ H] Hk. by apply (H k v). Qed.

Lemma strmap_subseteq_size (f l : strmap) : f ⊆ l → size f ≤ size l.
Proof. intros H. rewrite <- !size_dom. by apply subseteq_size, subseteq_dom. Qed.

(** With no empty value in the filter, the length test of the source never
    decides: the filter is the inclusion of the filter in the labels. *)
Lemma filterLabels_subseteq filters labels :
  map_Forall (λ _ v, v ≠ "") filters →
  filterLabels filters labels = true ↔ filters ⊆ labels.
Proof.
  intros Hne. rewrite filterLabels_true, map_subseteq_spec. split.
  - intros [_ H] k v Hk. apply get_nonempty; [by apply (Hne k v)|]. by apply (H k v).
  - intros H. split; [by apply strmap_subseteq_size, map_subseteq_spec|].
    intros k v Hk. apply get_Some. by apply H.
Qed.

(** The labels written by [ContainerLabels], key by key: the five keys of the
    runtime cannot be overridden by the labels of the request. *)
Lemma ContainerLabels_lookup o c k :
  ContainerLabels o c !! k =
  if decide (k = ContainerLabelHostNetwork ∧ pe_HostNetwork o = true) then Some "true"
  else if decide (k = ContainerLabelPodUID) then Some (pe_PodUid o)
  else if decide (k = ContainerLabelPodNamespace) then Some (pe_Namespace o)
  else if decide (k = ContainerLabelPodName) then Some (pe_Name o)
  else if decide (k = ContainerLabelPodContainer) then Some c
  else if decide (k = ContainerLabelPodContainerRole) then
    Some (if decide (c = ContainerNamePause) then ContainerRoleInfra else ContainerRoleWork)
  else pe_Labels o !! k.
Proof.
  unfold ContainerLabels, map_assign.
  destruct (pe_HostNetwork o);
    repeat (first [rewrite lookup_insert | rewrite lookup_union | rewrite lookup_singleton
                  | rewrite lookup_empty]);
    repeat case_decide; destruct_and?; subst; try done; try tauto;
    solve [by destruct (pe_Labels o !! _)].
Qed.

Lemma ContainerLabels_uid o c : ContainerLabels o c !! ContainerLabelPodUID = Some (pe_PodUid o).
Proof. by rewrite ContainerLabels_lookup. Qed.

Lemma ContainerLabels_container o c : ContainerLabels o c !! ContainerLabelPodContainer = Some c.
Proof. by rewrite ContainerLabels_lookup. Qed.

Lemma ContainerLabels_role o c :
  ContainerLabels o c !! ContainerLabelPodContainerRole =
  Some (if decide (c = ContainerNamePause) then ContainerRoleInfra else ContainerRoleWork).
Proof. by rewrite ContainerLabels_lookup. Qed.

Lemma ContainerLabels_hostnet o c :
  IsHostNetwork (ContainerLabels o c) = pe_HostNetwork o || IsHostNetwork (pe_Labels o).
Proof.
  unfold IsHostNetwork. rewrite ContainerLabels_lookup.
  by destruct (pe_HostNetwork o).
Qed.

Lemma ContainerLabels_abbot o c :
  IsAbbotPod (ContainerLabels o c) =
  (pe_HostNetwork o || IsHostNetwork (pe_Labels o)) &&
  bool_decide (get (pe_Labels o) LabelRole = LabelRoleValueAbbot).
Proof.
  unfold IsAbbotPod. rewrite ContainerLabels_hostnet.
  assert (get (ContainerLabels o c) LabelRole = get (pe_Labels o) LabelRole) as ->.
  { unfold get. rewrite ContainerLabels_lookup.
    by repeat (rewrite decide_False by (intros H; try destruct H; discriminate)). }
  by destruct (pe_HostNetwork o || _), (bool_decide _).
Qed.

#[export] Hint Rewrite ContainerLabels_uid ContainerLabels_container ContainerLabels_role
  ContainerLabels_hostnet : labels.

Lemma ContainerLabels_size o c : 5 ≤ size (ContainerLabels o c).
Proof.
  pose (ks := [ContainerLabelPodUID; ContainerLabelPodNamespace; ContainerLabelPodName;
               ContainerLabelPodContainer; ContainerLabelPodContainerRole]).
  assert (size (list_to_set ks : gset string) = 5) as <- by by vm_compute.
  rewrite <- size_dom. apply fin_sets.subseteq_size.
  intros k Hk. apply elem_of_dom. rewrite elem_of_list_to_set in Hk.
  rewrite ContainerLabels_lookup. repeat (case_decide; [eauto|]).
  subst ks. set_solver.
Qed.

(** Proofs use the lemmas above; evaluation is by [vm_compute]. *)
Global Opaque filterLabels ContainerLabels AbbotMatchLabels IsHostNetwork IsAbbotPod SharedNamespaces
  GetEnv.
