(* ===== verification/World.v ===== *)
(** The world the program runs in.

    The program is a client of libpod, of the file system, of child processes
    and of the Go runtime.  Each call that leaves the program is a constructor
    of the signature [Ev], indexed by the type of its answer; the environment
    that answers is a parameter of the development (class [Env]), so a theorem
    proved here holds whatever the environment answers.  A world is the state
    of the environment, the trace of the calls made so far with their answers,
    the cancelled contexts and the state of the storage client. *)

From S2P Require Import Prelude Proto.
From stdpp Require Import base gmap strings list fin_maps numbers.

(** ** libpod objects

    [Container] and [Pod] are the handles libpod returns: the immutable part
    of the configuration that the program reads through accessors. *)

Record Container := mkContainer {
  ctr_ID : string;
  ctr_Name : string;
  ctr_Labels : strmap;
  ctr_PodID : string;
  ctr_Command : list string;
  ctr_LogPath : string }.

Record Pod := mkPod {
  pod_ID : string;
  pod_Name : string;
  pod_Labels : strmap }.

Global Instance Container_eq_dec : EqDecision Container.
Proof. solve_decision. Defined.
Global Instance Pod_eq_dec : EqDecision Pod.
Proof. solve_decision. Defined.

(** [define.ContainerStatus] is an int; the last constructor is any other
    value. *)
Inductive ContainerState :=
| ContainerStateUnknown
| ContainerStateConfigured
| ContainerStateCreated
| ContainerStateRunning
| ContainerStateStopped
| ContainerStatePaused
| ContainerStateExited
| ContainerStateRemoving
| ContainerStateOther (n : Z).

Global Instance ContainerState_eq_dec : EqDecision ContainerState.
Proof. solve_decision. Defined.

(** [ContainerStatus.String()] *)
Definition ContainerState_String (s : ContainerState) : string :=
  match s with
  | ContainerStateUnknown => "unknown"
  | ContainerStateConfigured => "configured"
  | ContainerStateCreated => "created"
  | ContainerStateRunning => "running"
  | ContainerStateStopped => "stopped"
  | ContainerStatePaused => "paused"
  | ContainerStateExited => "exited"
  | ContainerStateRemoving => "removing"
  | ContainerStateOther _ => "bad state"
  end.

Record OCIMount := mkMount {
  mnt_Type : string;
  mnt_Source : string;
  mnt_Destination : string;
  mnt_Options : list string }.

Record HealthConfig := mkHealthConfig {
  hc_Test : list string;
  hc_Interval : Z;
  hc_Timeout : Z;
  hc_StartPeriod : Z;
  hc_Retries : Z }.

Record SecurityConfig := mkSecurityConfig {
  sc_Privileged : bool;
  sc_CapAdd : list string;
  sc_CapDrop : list string;
  sc_ReadOnlyRootfs : bool;
  sc_NoNewPrivs : bool;
  sc_SecurityOpts : list string;
  sc_SeccompProfilePath : string;
  sc_Sysctl : strmap }.

Record UserConfig := mkUserConfig {
  uc_HostUIDMapping : bool;
  uc_HostGIDMapping : bool;
  uc_UsernsMode : string;
  uc_User : string }.

Record UtsConfig := mkUtsConfig {
  ut_UtsMode : string;
  ut_HostAdd : list string;
  ut_Hostname : string }.

(** The fields of [libpodspec.CreateConfig] that the program sets; every
    other field keeps its zero value ([UserCommand] among them, which is what
    [Container.Command] later returns). *)
Record CreateConfig := mkCreateConfig {
  cc_Pod : string;
  cc_Tty : bool;
  cc_Env : strmap;
  cc_LogDriver : string;
  cc_Entrypoint : list string;
  cc_Command : list string;
  cc_UserCommand : list string;
  cc_HealthCheck : option HealthConfig;
  cc_Image : string;
  cc_ImageID : string;
  cc_WorkDir : string;
  cc_Labels : strmap;
  cc_StopSignal : Z;
  cc_Name : string;
  cc_Systemd : bool;
  cc_Init : bool;
  cc_Mounts : list OCIMount;
  cc_RestartPolicy : string;
  cc_NetMode : string;
  cc_IpcMode : string;
  cc_PidMode : string;
  cc_Uts : UtsConfig;
  cc_User : UserConfig;
  cc_Security : SecurityConfig }.

Record ExecConfig := mkExecConfig {
  ec_Command : list string;
  ec_Terminal : bool;
  ec_AttachStdin : bool;
  ec_AttachStdout : bool;
  ec_AttachStderr : bool;
  ec_Environment : strmap }.

(** What one [ctr.Exec] did: exit code, error, bytes written to the two
    output streams. *)
Record ExecResult := mkExecResult {
  ex_ExitCode : Z;
  ex_Err : option string;
  ex_Stdout : string;
  ex_Stderr : string }.

Record InspectState := mkInspectState {
  is_StartedAt : string;
  is_FinishedAt : string;
  is_ExitCode : Z;
  is_Error : string;
  is_Restarting : bool;
  is_Dead : bool;
  is_OOMKilled : bool;
  is_Running : bool;
  is_Paused : bool }.

(** [define.InspectContainerData]; times are already formatted with
    [aranyagoconst.TimeLayout]. *)
Record InspectContainerData := mkInspectContainerData {
  ins_ID : string;
  ins_Image : string;
  ins_Created : string;
  ins_RestartCount : Z;
  ins_State : InspectState }.

(** [imagespec.ImageConfig], the fields read here. *)
Record ImageConfig := mkImageConfig {
  ic_User : string;
  ic_WorkingDir : string;
  ic_Entrypoint : list string;
  ic_Cmd : list string;
  ic_Env : list string }.

(** [libpodimage.Image]: its ID, its tag and the [Config] of its embedded
    [ImageData]. *)
Record Image := mkImage {
  img_ID : string;
  img_Tag : string;
  img_Config : option ImageConfig }.

(** [net.IPNet]: the address and the length of the mask, as text and number. *)
Record IPNet := mkIPNet { ipn_IP : string; ipn_Loopback : bool; ipn_Ones : Z }.

(** ** Contexts *)

Inductive Ctx :=
| Background
| TODO
| AppContext
| WithCancel (parent : Ctx) (id : nat)
| WithTimeout (parent : Ctx) (id : nat) (d : Z).

Fixpoint ctx_canceled (canceled : gset nat) (c : Ctx) : bool :=
  match c with
  | Background | TODO | AppContext => false
  | WithCancel p id | WithTimeout p id _ =>
      bool_decide (id ∈ canceled) || ctx_canceled canceled p
  end.

(** How the race between the mount command and the success timer ended. *)
Inductive MountRace :=
| MountTimer
| MountExited (err : option string)
| MountCtxDone.

(** What the watcher of a log file delivers next. *)
Inductive FsEvent :=
| FsCtxDone
| FsWrite
| FsOther
| FsError (descr : string).

(** ** The calls that leave the program

    [string] is the type of the errors of the environment. *)
Inductive Ev : Type → Type :=
(* libpod.Runtime *)
| AllContainers : Ev (string + list Container)
| AllPods : Ev (string + list Pod)
| LookupPod (idOrName : string) : Ev (string + Pod)
| NewPod (name : string) (labels : strmap) : Ev (string + Pod)
| MakeContainerConfig (config : CreateConfig) (pod : Pod) : Ev (string + unit)
| NewContainer (config : CreateConfig) (stdin : bool) : Ev (string + Container)
| RemoveContainer (ctr : Container) (force removeVolume : bool) : Ev (string + unit)
| RemovePod (pod : Pod) (removeCtrs force : bool) : Ev (string + unit)
(* libpod.Container *)
| Ctr_State (ctr : Container) : Ev (string + ContainerState)
| Ctr_Sync (ctr : Container) : Ev (string + unit)
| Ctr_Start (ctr : Container) (recursive : bool) : Ev (string + unit)
| Ctr_Stop (ctr : Container) : Ev (string + unit)
| Ctr_Unpause (ctr : Container) : Ev (string + unit)
| Ctr_ExitCode (ctr : Container) : Ev (string + Z * bool)
| Ctr_PID (ctr : Container) : Ev (Z * option string)
| Ctr_IPs (ctr : Container) : Ev (string + list IPNet)
| Ctr_Wait (ctr : Container) : Ev (Z * option string)
| Ctr_Exec (ctr : Container) (config : ExecConfig) (stdin : option string) : Ev ExecResult
| Ctr_Attach (ctr : Container) (streams : bool * bool * bool) : Ev (option string)
| Ctr_Inspect (ctr : Container) : Ev (string + InspectContainerData)
(* libpod.Pod *)
| Pod_Start (pod : Pod) : Ev (option (string * list (string * string)))
| Pod_AllContainers (pod : Pod) : Ev (string + list Container)
(* libpod/image *)
| Image_NewFromLocal (name : string) : Ev (string + Image)
| Image_New (name : string) (creds : option (string * string)) (pull : Z) : Ev (string + Image)
| Image_Inspect (img : Image) : Ev (string + option (option ImageConfig))
| Image_RepoDigests (img : Image) : Ev (string + list string)
(* os *)
| MkdirAll (path : string) : Ev (string + unit)
| WriteFile (path : string) (data : string) (mode : Z) : Ev (string + unit)
| RemoveAllOneFilesystem (path : string) : Ev (string + unit)
| ReadDir (path : string) : Ev (list string)
| Sleep (d : Z) : Ev unit
(* child processes and the timer queue of the storage client *)
| Exec_Do (cmd : list string) : Ev (string + unit)
| Exec_DoHeadless (cmd : list string) : Ev (string + unit)
| Exec_Lookup (bin : string) : Ev (string + string)
| Timer_Elapsed (key : string) : Ev bool
| Mount_Wait (mountPoint : string) : Ev MountRace
(* log files: symbolic links, the content at the time of opening, the watcher,
   and what was appended since the last read *)
| EvalSymlinks (path : string) : Ev (string + string)
| Open_Read (path : string) : Ev (string + string)
| Watch_File (path : string) : Ev (string + unit)
| Next_FsEvent : Ev FsEvent
| Read_More (path : string) : Ev string
(* the writers of a session: the number of bytes taken and an error *)
| Stream_Write (stderr : bool) (data : string) : Ev (nat * option string)
(* network *)
| Net_Dial (network addr : string) : Ev (string + unit)
(* process environment, configuration and start of libpod *)
| LookupEnv (name : string) : Ev (option string)
| ReadFile (path : string) : Ev (string + string)
| Libpod_NewConfig (path : string) : Ev (string + unit)
| Libpod_NewRuntime (ctx : Ctx) (configFile : option string) (opts : list (string * string)) :
    Ev (string + bool)
(* extension hub: the steps of the start and one connection to the hub *)
| Hub_Step (step : string) : Ev (string + unit)
| Hub_Codec : Ev bool
| Hub_ProcessNewStream : Ev (option string)
(* Go runtime: expiry of a context, choice of a select with several ready
   cases, iteration order of a map *)
| Ctx_Expired (c : Ctx) : Ev bool
| Select_Choice : Ev bool
| Range_Order (keys : list string) : Ev (list string).

(** A call with its answer. *)
Inductive call :=
| Call {X : Type} (e : Ev X) (answer : X).

(** ** The state of the storage client (storageutil/client.go) *)
Record StorageClient := mkStorageClient {
  sto_locked : bool;
  sto_mounted : gmap string (list string);
  sto_timers : gset string }.

Class Env (E : Type) := { handle : ∀ {X : Type}, Ev X → E → X * E }.

Record World (E : Type) := mkWorld {
  w_env : E;
  w_trace : list call;
  w_ctxs : nat;
  w_canceled : gset nat;
  w_storage : StorageClient }.
Global Arguments mkWorld {E}.
Global Arguments w_env {E}.
Global Arguments w_trace {E}.
Global Arguments w_ctxs {E}.
Global Arguments w_canceled {E}.
Global Arguments w_storage {E}.

Section ops.
Context {E : Type} `{!Env E}.
Notation W := (World E).
Notation M := (M W).

(** Every call goes through here. *)
Definition perform {X} (e : Ev X) : M X := λ w,
  let '(x, env') := handle e (w_env w) in
  (Ok x, mkWorld env' (w_trace w ++ [Call e x]) (w_ctxs w) (w_canceled w) (w_storage w)).

(** A call that returns a value or an error. *)
Definition invoke {X} (e : Ev (string + X)) : M X :=
  r ← perform e;
  match r with
  | inl d => fail (ErrExt d)
  | inr x => mret x
  end.

(** [pid, _ := ctr.PID()] keeps the value whatever the error. *)
Definition pid_of (ctr : Container) : M Z := fst <$> perform (Ctr_PID ctr).

(** ** Contexts *)

Definition with_cancel (parent : Ctx) : M Ctx := λ w,
  (Ok (WithCancel parent (w_ctxs w)),
   mkWorld (w_env w) (w_trace w) (S (w_ctxs w)) (w_canceled w) (w_storage w)).

Definition with_timeout (parent : Ctx) (d : Z) : M Ctx := λ w,
  (Ok (WithTimeout parent (w_ctxs w) d),
   mkWorld (w_env w) (w_trace w) (S (w_ctxs w)) (w_canceled w) (w_storage w)).

(** The [CancelFunc] of a derived context. *)
Definition cancel_ctx (c : Ctx) : M unit := λ w,
  match c with
  | WithCancel _ id | WithTimeout _ id _ =>
      (Ok (), mkWorld (w_env w) (w_trace w) (w_ctxs w) ({[id]} ∪ w_canceled w) (w_storage w))
  | _ => (Ok (), w)
  end.

(** Whether [<-ctx.Done()] is ready: cancelled by the program, or expired. *)
Definition ctx_done (c : Ctx) : M bool := λ w,
  if ctx_canceled (w_canceled w) c then (Ok true, w) else perform (Ctx_Expired c) w.

(** [select { case <-ctx.Done(): ... ; case <-other: ... }] where [other] is
    ready: the first case is taken only if the context is done, and then the
    runtime chooses. *)
Definition select_done (c : Ctx) : M bool :=
  done ← ctx_done c;
  if done : bool then perform Select_Choice else mret false.

(** Keys of a map in the order a [range] statement visits them. *)
Definition range_map {A} (m : gmap string A) : M (list (string * A)) :=
  keys ← perform (Range_Order (elements (dom m)));
  mret (omap (λ k, pair k <$> m !! k) keys).

Definition get_storage : M StorageClient := λ w, (Ok (w_storage w), w).
Definition set_storage (s : StorageClient) : M unit := λ w,
  (Ok (), mkWorld (w_env w) (w_trace w) (w_ctxs w) (w_canceled w) s).

(** ** libpod queries (libpod/runtime_ctr.go, runtime_pod.go) *)

Definition GetContainers (filter : Container → bool) : M (list Container) :=
  ctrs ← invoke AllContainers;
  mret (List.filter filter ctrs).

Definition Pods (filter : Pod → bool) : M (list Pod) :=
  pods ← invoke AllPods;
  mret (List.filter filter pods).

End ops.
