(* ===== verification/Libpod.v ===== *)
(** The contract between the program and libpod.

    [Store] observes the containers and pods that libpod knows; [LibpodLaws]
    states what libpod documents about the calls of [World.Ev] that read or
    change them (libpod/runtime_ctr.go, runtime_pod.go, runtime_pod_linux.go,
    pod_api.go).  Theorems about the program's effect on pods and containers
    are proved against this interface.  [Mem] is an in-memory engine with
    scripted faults; it satisfies the laws and is used to run the program on
    concrete inputs. *)

From S2P Require Import Prelude Proto World.
From stdpp Require Import base gmap strings pretty list fin_maps numbers.

Class Store (E : Type) := {
  ctrs : E → list Container;
  pods : E → list Pod }.

(** Calls that create or remove a pod or a container. *)
Definition quiet {X} (e : Ev X) : bool :=
  match e with
  | NewPod _ _ | NewContainer _ _ | RemoveContainer _ _ _ | RemovePod _ _ _ => false
  | _ => true
  end.

Definition other_pod (p q : Pod) : bool := negb (bool_decide (pod_ID q = pod_ID p)).
Definition outside_pod (p : Pod) (c : Container) : bool :=
  negb (bool_decide (ctr_PodID c = pod_ID p)).
Definition other_ctr (c d : Container) : bool := negb (bool_decide (ctr_ID d = ctr_ID c)).
Definition inside_pod (p : Pod) (c : Container) : bool := bool_decide (ctr_PodID c = pod_ID p).

Class LibpodLaws (E : Type) `{!Env E, !Store E} : Prop := {
  (* queries, lifecycle calls, files, processes: no pod or container appears or disappears *)
  law_quiet {X} (e : Ev X) (s : E) : quiet e = true →
    ctrs (handle e s).2 = ctrs s ∧ pods (handle e s).2 = pods s;
  law_AllContainers s l : (handle AllContainers s).1 = inr l → l = ctrs s;
  law_AllPods s l : (handle AllPods s).1 = inr l → l = pods s;
  law_Pod_AllContainers p s l :
    (handle (Pod_AllContainers p) s).1 = inr l → l = List.filter (inside_pod p) (ctrs s);
  (* a pod is found by name or by a prefix of its ID *)
  law_LookupPod n s p :
    (handle (LookupPod n) s).1 = inr p →
    p ∈ pods s ∧ (pod_Name p = n ∨ String.prefix n (pod_ID p) = true);
  (* a created pod has the requested name and labels and a fresh ID, which no
     pod has and no container refers to *)
  law_NewPod n ls s :
    ctrs (handle (NewPod n ls) s).2 = ctrs s ∧
    match (handle (NewPod n ls) s).1 with
    | inl _ => pods (handle (NewPod n ls) s).2 = pods s
    | inr p => pod_Name p = n ∧ pod_Labels p = ls ∧ pod_ID p ∉ pod_ID <$> pods s ∧
               pod_ID p ∉ ctr_PodID <$> ctrs s ∧
               pods (handle (NewPod n ls) s).2 ≡ₚ p :: pods s
    end;
  law_NewContainer cfg i s :
    pods (handle (NewContainer cfg i) s).2 = pods s ∧
    match (handle (NewContainer cfg i) s).1 with
    | inl _ => ctrs (handle (NewContainer cfg i) s).2 = ctrs s
    | inr c => ctr_Name c = cc_Name cfg ∧ ctr_Labels c = cc_Labels cfg ∧
               ctr_PodID c = cc_Pod cfg ∧ ctr_Command c = cc_UserCommand cfg ∧
               ctr_ID c ∉ ctr_ID <$> ctrs s ∧
               ctrs (handle (NewContainer cfg i) s).2 ≡ₚ c :: ctrs s
    end;
  (* a removal touches only what it removes; a failed one may be partial *)
  law_RemovePod p s :
    let s' := (handle (RemovePod p true true) s).2 in
    List.filter (other_pod p) (pods s') = List.filter (other_pod p) (pods s) ∧
    List.filter (outside_pod p) (ctrs s') = List.filter (outside_pod p) (ctrs s) ∧
    pods s' `sublist_of` pods s ∧ ctrs s' `sublist_of` ctrs s ∧
    ((handle (RemovePod p true true) s).1 = inr () →
     pods s' = List.filter (other_pod p) (pods s) ∧
     ctrs s' = List.filter (outside_pod p) (ctrs s));
  law_RemoveContainer c f v s :
    let s' := (handle (RemoveContainer c f v) s).2 in
    pods s' = pods s ∧
    List.filter (other_ctr c) (ctrs s') = List.filter (other_ctr c) (ctrs s) ∧
    ctrs s' `sublist_of` ctrs s ∧
    ((handle (RemoveContainer c f v) s).1 = inr () → ctrs s' = List.filter (other_ctr c) (ctrs s));
  (* a range statement visits each key once *)
  law_Range_Order ks s : (handle (Range_Order ks) s).1 ≡ₚ ks }.

(** ** Frames

    A relation on worlds that is a preorder, is respected by every call that
    creates or removes nothing, and does not look at the contexts and the
    storage client.  An operation made of such calls keeps every such relation:
    the store, what is known of the trace, the health of the engine. *)

Class QuietFrame {E : Type} `{!Env E} (R : relation (World E)) : Prop := {
  frame_preorder :: PreOrder R;
  frame_perform {X} (e : Ev X) w : quiet e = true → R w (perform e w).2;
  frame_local w w' : w_env w' = w_env w → w_trace w' = w_trace w → R w w' }.

#[export] Hint Extern 0 (QuietFrame _) => apply _ : keeps.

Section frames.
Context {E : Type} `{!Env E} {R : relation (World E)} `{!QuietFrame R}.

Lemma keeps_perform {X} (e : Ev X) : quiet e = true → keeps R (perform e).
Proof. intros Hq w. by apply frame_perform. Qed.

Lemma keeps_invoke {X} (e : Ev (string + X)) : quiet e = true → keeps R (invoke e).
Proof.
  intros Hq. apply keeps_bind; [apply _|by apply keeps_perform|]. keeps_solve.
Qed.

Lemma keeps_with_cancel c : keeps R (with_cancel c).
Proof. intros w. by apply frame_local. Qed.
Lemma keeps_with_timeout c d : keeps R (with_timeout c d).
Proof. intros w. by apply frame_local. Qed.
Lemma keeps_cancel c : keeps R (cancel_ctx c).
Proof. intros w. by destruct c; apply frame_local. Qed.
Lemma keeps_get_storage : keeps R get_storage.
Proof. intros w. by apply frame_local. Qed.
Lemma keeps_set_storage s : keeps R (set_storage s).
Proof. intros w. by apply frame_local. Qed.

Lemma keeps_ctx_done c : keeps R (ctx_done c).
Proof.
  intros w. unfold ctx_done. destruct (ctx_canceled _ _); [by apply frame_local|].
  by apply (keeps_perform (Ctx_Expired c)).
Qed.

Lemma keeps_select_done c : keeps R (select_done c).
Proof.
  unfold select_done. apply keeps_bind; [apply _|apply keeps_ctx_done|].
  intros []; [by apply keeps_perform|keeps_solve].
Qed.

Lemma keeps_range_map {A} (m : gmap string A) : keeps R (range_map m).
Proof. apply keeps_bind; [apply _|by apply keeps_perform|]. keeps_solve. Qed.

Lemma keeps_pid_of c : keeps R (pid_of c).
Proof. apply keeps_fmap; [apply _|]. by apply keeps_perform. Qed.

Lemma keeps_GetContainers f : keeps R (GetContainers f).
Proof. apply keeps_bind; [apply _|by apply keeps_invoke|]. keeps_solve. Qed.

Lemma keeps_Pods f : keeps R (Pods f).
Proof. apply keeps_bind; [apply _|by apply keeps_invoke|]. keeps_solve. Qed.
End frames.

#[export] Hint Extern 1 (keeps _ (perform _)) => apply keeps_perform; reflexivity : keeps.
#[export] Hint Extern 1 (keeps _ (invoke _)) => apply keeps_invoke; reflexivity : keeps.
#[export] Hint Extern 1 (keeps _ (with_cancel _)) => apply keeps_with_cancel : keeps.
#[export] Hint Extern 1 (keeps _ (with_timeout _ _)) => apply keeps_with_timeout : keeps.
#[export] Hint Extern 1 (keeps _ (cancel_ctx _)) => apply keeps_cancel : keeps.
#[export] Hint Extern 1 (keeps _ get_storage) => apply keeps_get_storage : keeps.
#[export] Hint Extern 1 (keeps _ (set_storage _)) => apply keeps_set_storage : keeps.
#[export] Hint Resolve keeps_ctx_done keeps_select_done keeps_range_map keeps_pid_of
  keeps_GetContainers keeps_Pods : keeps.

(** A relation respected by every call. *)
Class Frame {E : Type} `{!Env E} (R : relation (World E)) : Prop := {
  frame_quiet :: QuietFrame R;
  frame_any {X} (e : Ev X) w : R w (perform e w).2 }.

#[export] Hint Extern 0 (Frame _) => apply _ : keeps.

Section any_frame.
Context {E : Type} `{!Env E} {R : relation (World E)} `{!Frame R}.
Lemma keeps_perform_any {X} (e : Ev X) : keeps R (perform e).
Proof. intros w. apply frame_any. Qed.
Lemma keeps_invoke_any {X} (e : Ev (string + X)) : keeps R (invoke e).
Proof. apply keeps_bind; [apply _|apply keeps_perform_any|]. keeps_solve. Qed.
End any_frame.

#[export] Hint Resolve keeps_perform_any keeps_invoke_any | 5 : keeps.

(** The trace only grows. *)
Definition trace_grows {E} (w w' : World E) : Prop := ∃ l, w_trace w' = w_trace w ++ l.

Global Instance trace_grows_frame {E} `{!Env E} : Frame (E := E) trace_grows.
Proof.
  assert (PreOrder (trace_grows (E := E))) as Hpre.
  { split; [intros w; exists []; by rewrite app_nil_r|].
    intros w1 w2 w3 [l1 H1] [l2 H2]. exists (l1 ++ l2). by rewrite H2, H1, app_assoc. }
  assert (∀ X (e : Ev X) (w : World E), trace_grows w (perform e w).2) as Hperf.
  { intros X e w. unfold perform. destruct (handle e (w_env w)) as [x s].
    by exists [Call e x]. }
  split; [split|]; [done|intros; apply Hperf| |done].
  intros w w' _ Ht. exists []. by rewrite Ht, app_nil_r.
Qed.

(** A call was made and answered. *)
Definition performed {E} {X} (e : Ev X) (x : X) (w : World E) : Prop := Call e x ∈ w_trace w.

Lemma performed_grows {E} {X} (e : Ev X) x (w w' : World E) :
  trace_grows w w' → performed e x w → performed e x w'.
Proof. intros [l Hl] H. unfold performed. rewrite Hl. apply elem_of_app. by left. Qed.

(** The states of an engine that answers its queries and removes the pods it
    is told to remove. *)
Class reliable {E} `{!Env E} (ok : E → Prop) : Prop := {
  reliable_closed {X} (e : Ev X) s : ok s → ok (handle e s).2;
  reliable_AllContainers s : ok s → ∃ l, (handle AllContainers s).1 = inr l;
  reliable_AllPods s : ok s → ∃ l, (handle AllPods s).1 = inr l;
  reliable_Pod_AllContainers p s : ok s → ∃ l, (handle (Pod_AllContainers p) s).1 = inr l;
  reliable_RemovePod p s : ok s → (handle (RemovePod p true true) s).1 = inr () }.

(** The engine stays in such a state. *)
Definition stays {E} (ok : E → Prop) (w w' : World E) : Prop := ok (w_env w) → ok (w_env w').

Global Instance stays_frame {E} `{!Env E} (ok : E → Prop) `{!reliable ok} : Frame (stays ok).
Proof.
  assert (∀ X (e : Ev X) w, stays ok w (perform e w).2) as Hperf.
  { intros X e w Hok. pose proof (reliable_closed e _ Hok) as H. unfold perform.
    by destruct (handle e (w_env w)). }
  split; [split|]; [|intros; apply Hperf| |done].
  - split; unfold stays; [intros w|intros w1 w2 w3]; tauto.
  - intros w w' He _. unfold stays. by rewrite He.
Qed.

(** ** The same facts on worlds *)

Section world.
Context {E : Type} `{!Env E, !Store E}.
Notation W := (World E).

Definition wctrs (w : W) : list Container := ctrs (w_env w).
Definition wpods (w : W) : list Pod := pods (w_env w).

Definition same_store (w w' : W) : Prop := wctrs w' = wctrs w ∧ wpods w' = wpods w.

Global Instance same_store_preorder : PreOrder same_store.
Proof.
  split; [done|]. intros w1 w2 w3 [H1 H2] [H3 H4].
  unfold same_store. by rewrite H3, H4.
Qed.

(** Only pods and containers that were there remain, and those for which
    [keepP]/[keepC] hold all remain. *)
Definition store_shrinks (keepP : Pod → bool) (keepC : Container → bool) (w w' : W) : Prop :=
  List.filter keepP (wpods w') = List.filter keepP (wpods w) ∧
  List.filter keepC (wctrs w') = List.filter keepC (wctrs w) ∧
  wpods w' `sublist_of` wpods w ∧ wctrs w' `sublist_of` wctrs w.

Global Instance store_shrinks_preorder kp kc : PreOrder (store_shrinks kp kc).
Proof.
  split; [done|]. intros w1 w2 w3 (H1&H2&H3&H4) (H5&H6&H7&H8).
  unfold store_shrinks. rewrite H5, H6. repeat split; [done..|by etrans|by etrans].
Qed.

Lemma same_store_shrinks kp kc w w' : same_store w w' → store_shrinks kp kc w w'.
Proof. intros [H1 H2]. unfold store_shrinks. by rewrite H1, H2. Qed.

Lemma perform_storeless {X} (e : Ev X) w :
  (perform e w).2 = mkWorld (handle e (w_env w)).2 (w_trace w ++ [Call e (handle e (w_env w)).1])
                            (w_ctxs w) (w_canceled w) (w_storage w).
Proof. unfold perform. by destruct (handle e (w_env w)). Qed.

Lemma wp_perform {X} (e : Ev X) (Q : outcome X → W → Prop) w :
  (∀ w', w_env w' = (handle e (w_env w)).2 → 
         w_trace w' = w_trace w ++ [Call e (handle e (w_env w)).1] →
         w_storage w' = w_storage w → w_canceled w' = w_canceled w → w_ctxs w' = w_ctxs w →
         Q (Ok (handle e (w_env w)).1) w') →
  wp (perform e) Q w.
Proof. intros H. unfold wp, perform. destruct (handle e (w_env w)) eqn:Eh. simpl. by apply H. Qed.

Context `{!LibpodLaws E}.

Global Instance same_store_frame : QuietFrame same_store.
Proof.
  split; [apply _| |by intros w w' He _; unfold same_store, wctrs, wpods; rewrite He].
  intros X e w Hq. rewrite perform_storeless. by apply law_quiet.
Qed.

(** The store is the same and the trace has grown. *)
Definition calm (w w' : W) : Prop := same_store w w' ∧ trace_grows w w'.

Global Instance calm_frame : QuietFrame calm.
Proof.
  split; [split| |].
  - intros w. split; reflexivity.
  - intros w1 w2 w3 [H1 H2] [H3 H4]. split; by etrans.
  - intros X e w Hq. split; by apply frame_perform.
  - intros w w' He Ht. split; by apply frame_local.
Qed.

(** A step that leaves the store alone. *)
Lemma wp_quiet {A} h (m : M W A) Q w :
  keeps same_store m → settles h m →
  (∀ o w', same_store w w' → settled h o → Q o w') → wp m Q w.
Proof. intros Hk Hs HQ. apply HQ; [apply Hk|apply Hs]. Qed.

(** [GetContainers] answers the filtered containers of the store, or fails. *)
Lemma wp_GetContainers f w :
  wp (GetContainers f) (λ o w', same_store w w' ∧
     match o with
     | Ok l => l = List.filter f (wctrs w)
     | Err e => ∃ d, e = ErrExt d
     | _ => False
     end) w.
Proof.
  apply wp_and; [apply wp_keeps, keeps_GetContainers|].
  unfold GetContainers, invoke. do 2 apply wp_bind. apply wp_perform. intros w' _ _ _ _ _. simpl.
  destruct (handle AllContainers (w_env w)).1 as [d|l] eqn:Eh; simpl.
  - apply wp_fail. simpl. eauto.
  - apply wp_ret. simpl. apply wp_ret. by rewrite (law_AllContainers _ _ Eh).
Qed.

Lemma wp_Pods f w :
  wp (Pods f) (λ o w', same_store w w' ∧
     match o with
     | Ok l => l = List.filter f (wpods w)
     | Err e => ∃ d, e = ErrExt d
     | _ => False
     end) w.
Proof.
  apply wp_and; [apply wp_keeps, keeps_Pods|].
  unfold Pods, invoke. do 2 apply wp_bind. apply wp_perform. intros w' _ _ _ _ _. simpl.
  destruct (handle AllPods (w_env w)).1 as [d|l] eqn:Eh; simpl.
  - apply wp_fail. simpl. eauto.
  - apply wp_ret. simpl. apply wp_ret. by rewrite (law_AllPods _ _ Eh).
Qed.

(** [invoke] of a call that leaves the store alone: the answer or its error. *)
Lemma wp_invoke_quiet {X} (e : Ev (string + X)) w :
  quiet e = true →
  wp (invoke e) (λ o w', same_store w w' ∧
     match o with
     | Ok x => (handle e (w_env w)).1 = inr x
     | Err er => ∃ d, er = ErrExt d
     | _ => False
     end) w.
Proof.
  intros Hq. apply wp_and; [by apply wp_keeps, keeps_invoke|].
  unfold invoke. apply wp_bind, wp_perform. intros w' _ _ _ _ _. simpl.
  destruct (handle e (w_env w)).1 as [d|x]; simpl; [apply wp_fail|apply wp_ret]; eauto.
Qed.

Lemma wp_invoke_answer {X} (e : Ev (string + X)) x w :
  (handle e (w_env w)).1 = inr x → wp (invoke e) (λ o _, o = Ok x) w.
Proof. intros Hx. unfold invoke. apply wp_bind, wp_perform. intros w' _ _ _ _ _. by rewrite Hx. Qed.

Lemma wp_invoke_performed {X} (e : Ev (string + X)) w :
  wp (invoke e) (λ o w', ∀ x, o = Ok x → performed e (inr x) w') w.
Proof.
  unfold invoke. apply wp_bind, wp_perform. intros w' _ Ht _ _ _. simpl.
  destruct (handle e (w_env w)).1 as [d|x] eqn:Eh; [by apply wp_fail|]. apply wp_ret.
  intros x' [= <-]. unfold performed. rewrite Ht. set_solver.
Qed.

(** A [select] on a context always takes one of its cases. *)
Lemma wp_select_done c w : wp (select_done c) (λ o w', trace_grows w w' ∧ ∃ b, o = Ok b) w.
Proof.
  apply wp_and; [apply wp_keeps, keeps_select_done|].
  unfold select_done. apply wp_bind. unfold wp at 1, ctx_done.
  destruct (ctx_canceled _ _); simpl.
  - apply wp_perform. eauto.
  - unfold perform. destruct (handle (Ctx_Expired c) (w_env w)) as [[] s]; simpl;
      [apply wp_perform|apply wp_ret]; eauto.
Qed.

Lemma wp_RemovePod p w :
  wp (invoke (RemovePod p true true)) (λ o w',
     store_shrinks (other_pod p) (outside_pod p) w w' ∧
     match o with
     | Ok _ => wpods w' = List.filter (other_pod p) (wpods w) ∧
               wctrs w' = List.filter (outside_pod p) (wctrs w)
     | Err e => ∃ d, e = ErrExt d
     | _ => False
     end) w.
Proof.
  unfold invoke. apply wp_bind, wp_perform. intros w' He _ _ _ _.
  pose proof (law_RemovePod p (w_env w)) as (H1&H2&H3&H4&H5).
  unfold store_shrinks, wpods, wctrs. 
  destruct (handle (RemovePod p true true) (w_env w)) as [[d|[]] env'] eqn:Eh; simpl in *;
    [apply wp_fail|apply wp_ret]; rewrite He; simpl; repeat split; eauto; by apply H5.
Qed.

Lemma wp_RemoveContainer c f v w :
  wp (invoke (RemoveContainer c f v)) (λ o w',
     store_shrinks (λ _, true) (other_ctr c) w w' ∧ wpods w' = wpods w ∧
     match o with
     | Ok _ => wctrs w' = List.filter (other_ctr c) (wctrs w)
     | Err e => ∃ d, e = ErrExt d
     | _ => False
     end) w.
Proof.
  unfold invoke. apply wp_bind, wp_perform. intros w' He _ _ _ _.
  pose proof (law_RemoveContainer c f v (w_env w)) as (H1&H2&H3&H4).
  unfold store_shrinks, wpods, wctrs.
  destruct (handle (RemoveContainer c f v) (w_env w)) as [[d|[]] env'] eqn:Eh; simpl in *;
    [apply wp_fail|apply wp_ret]; rewrite He; simpl; rewrite H1; repeat split; eauto; by apply H4.
Qed.

Lemma wp_NewPod n ls w :
  wp (invoke (NewPod n ls)) (λ o w', wctrs w' = wctrs w ∧
     match o with
     | Ok p => pod_Name p = n ∧ pod_Labels p = ls ∧ pod_ID p ∉ pod_ID <$> wpods w ∧
               pod_ID p ∉ ctr_PodID <$> wctrs w ∧ wpods w' ≡ₚ p :: wpods w
     | Err e => wpods w' = wpods w
     | _ => False
     end) w.
Proof.
  unfold invoke. apply wp_bind, wp_perform. intros w' He _ _ _ _.
  pose proof (law_NewPod n ls (w_env w)) as (H1&H2). unfold wpods, wctrs.
  destruct (handle (NewPod n ls) (w_env w)) as [[d|p] env'] eqn:Eh; simpl in *;
    [apply wp_fail|apply wp_ret]; by rewrite He.
Qed.

Lemma wp_NewContainer cfg i w :
  wp (invoke (NewContainer cfg i)) (λ o w', wpods w' = wpods w ∧
     match o with
     | Ok c => ctr_Name c = cc_Name cfg ∧ ctr_Labels c = cc_Labels cfg ∧
               ctr_PodID c = cc_Pod cfg ∧ ctr_Command c = cc_UserCommand cfg ∧
               ctr_ID c ∉ ctr_ID <$> wctrs w ∧ wctrs w' ≡ₚ c :: wctrs w
     | Err e => wctrs w' = wctrs w
     | _ => False
     end) w.
Proof.
  unfold invoke. apply wp_bind, wp_perform. intros w' He _ _ _ _.
  pose proof (law_NewContainer cfg i (w_env w)) as (H1&H2). unfold wpods, wctrs.
  destruct (handle (NewContainer cfg i) (w_env w)) as [[d|c] env'] eqn:Eh; simpl in *;
    [apply wp_fail|apply wp_ret]; by rewrite He.
Qed.

(** A range visits every key. *)
Lemma wp_range_map {A} (m : gmap string A) (w : W) :
  wp (range_map m) (λ o w', same_store w w' ∧ ∃ l, o = Ok l ∧ l ≡ₚ map_to_list m) w.
Proof.
  apply wp_and; [apply wp_keeps, keeps_range_map|].
  unfold range_map. apply wp_bind, wp_perform. intros w' _ _ _ _ _. simpl. apply wp_ret.
  eexists. split; [done|]. apply keys_to_list, law_Range_Order.
Qed.

End world.

Section world_returns.
Context {E : Type} `{!Env E}.

Lemma returns_perform {X} (e : Ev X) : returns (perform (E := E) e).
Proof. intros w. unfold perform. by destruct (handle e (w_env w)). Qed.
Lemma returns_with_cancel c : returns (with_cancel (E := E) c).
Proof. done. Qed.
Lemma returns_with_timeout c d : returns (with_timeout (E := E) c d).
Proof. done. Qed.
Lemma returns_cancel c : returns (cancel_ctx (E := E) c).
Proof. by destruct c. Qed.
#[local] Hint Resolve returns_perform : returns.
Lemma returns_invoke {X} (e : Ev (string + X)) : returns (invoke (E := E) e).
Proof. unfold invoke. returns_solve. Qed.
#[local] Hint Resolve returns_invoke : returns.
Lemma returns_ctx_done c : returns (ctx_done (E := E) c).
Proof. intros w. unfold ctx_done. destruct (ctx_canceled _ _); [done|]. apply returns_perform. Qed.
#[local] Hint Resolve returns_ctx_done : returns.
Lemma returns_select_done c : returns (select_done (E := E) c).
Proof. unfold select_done. returns_solve. Qed.
Lemma returns_range_map {A} (m : gmap string A) : returns (range_map (E := E) m).
Proof. unfold range_map. returns_solve. Qed.
Lemma returns_pid_of c : returns (pid_of (E := E) c).
Proof. unfold pid_of. returns_solve. Qed.
Lemma returns_GetContainers f : returns (GetContainers (E := E) f).
Proof. unfold GetContainers. returns_solve. Qed.
Lemma returns_Pods f : returns (Pods (E := E) f).
Proof. unfold Pods. returns_solve. Qed.
End world_returns.

#[export] Hint Resolve returns_perform returns_with_cancel returns_with_timeout returns_cancel
  returns_invoke returns_ctx_done returns_select_done returns_range_map returns_pid_of
  returns_GetContainers returns_Pods : returns.
