(* ===== verification/Mem.v ===== *)
(** An in-memory container engine with scripted faults.

    It answers every call of [World.Ev]: pods and containers live in lists,
    IDs are generated from a counter, and the calls whose numbers are listed
    in [mem_faults] fail without effect.  It satisfies [LibpodLaws], so the
    hypotheses of the theorems about the store can be met, and it runs the
    program on concrete inputs. *)

From S2P Require Import Prelude Proto World Libpod.
From stdpp Require Import base gmap strings pretty list fin_maps numbers.

Record Mem := mkMem {
  mem_ctrs : list Container;
  mem_pods : list Pod;
  mem_next : nat;
  mem_step : nat;
  mem_faults : list nat;
  mem_state : ContainerState;
  mem_exited : bool;
  mem_exec : ExecResult;
  mem_image : option ImageConfig;
  mem_digests : list string;
  mem_ips : list IPNet;
  mem_log : string }.

Definition mem_upd (s : Mem) (cs : list Container) (ps : list Pod) (next : nat) : Mem :=
  mkMem cs ps next (S (mem_step s)) (mem_faults s) (mem_state s) (mem_exited s) (mem_exec s)
        (mem_image s) (mem_digests s) (mem_ips s) (mem_log s).

(** An ID that is longer than every ID in use. *)
Definition fresh_id (used : list string) : string :=
  String.concat "" ("x"%string :: used).

Definition find_pod (n : string) (ps : list Pod) : option Pod :=
  match List.filter (λ p, bool_decide (pod_Name p = n)) ps with
  | p :: _ => Some p
  | [] => None
  end.

Definition mem_handle {X} (e : Ev X) (s : Mem) : X * Mem :=
  let fault := bool_decide (mem_step s ∈ mem_faults s) in
  let s' := mem_upd s (mem_ctrs s) (mem_pods s) (mem_next s) in
  let ret {Y : Type} (y : Y) : (string + Y) * Mem :=
    (if fault then inl "fault"%string else inr y, s') in
  match e in Ev X return X * Mem with
  | AllContainers => ret (mem_ctrs s)
  | AllPods => ret (mem_pods s)
  | LookupPod n => 
      (if fault then inl "fault"%string else
         match find_pod n (mem_pods s) with Some p => inr p | None => inl "no such pod"%string end, s')
  | NewPod n ls =>
      if fault then (inl "fault"%string, s')
      else let p := mkPod (fresh_id ((pod_ID <$> mem_pods s) ++ (ctr_PodID <$> mem_ctrs s))) n ls in
           (inr p, mem_upd s (mem_ctrs s) (p :: mem_pods s) (S (mem_next s)))
  | MakeContainerConfig _ _ => ret ()
  | NewContainer cfg _ =>
      if fault then (inl "fault"%string, s')
      else let c := mkContainer (fresh_id (ctr_ID <$> mem_ctrs s)) (cc_Name cfg) (cc_Labels cfg)
                      (cc_Pod cfg) (cc_UserCommand cfg) "/ctr.log" in
           (inr c, mem_upd s (c :: mem_ctrs s) (mem_pods s) (S (mem_next s)))
  | RemoveContainer c _ _ =>
      if fault then (inl "fault"%string, s')
      else (inr (), mem_upd s (List.filter (other_ctr c) (mem_ctrs s)) (mem_pods s) (mem_next s))
  | RemovePod p _ _ =>
      if fault then (inl "fault"%string, s')
      else (inr (), mem_upd s (List.filter (outside_pod p) (mem_ctrs s))
                      (List.filter (other_pod p) (mem_pods s)) (mem_next s))
  | Ctr_State _ => ret (mem_state s)
  | Ctr_Sync _ | Ctr_Start _ _ | Ctr_Stop _ | Ctr_Unpause _ => ret ()
  | Ctr_ExitCode _ => ret (0%Z, mem_exited s)
  | Ctr_PID _ => (if fault then ((-1)%Z, Some "fault"%string) else (42%Z, None), s')
  | Ctr_IPs _ => ret (mem_ips s)
  | Ctr_Wait _ => (if fault then ((-1)%Z, Some "fault"%string) else (0%Z, None), s')
  | Ctr_Exec _ _ _ =>
      (if fault then mkExecResult 126 (Some "fault"%string) "" "" else mem_exec s, s')
  | Ctr_Attach _ _ => (if fault then Some "fault"%string else None, s')
  | Ctr_Inspect c =>
      ret (mkInspectContainerData (ctr_ID c) "img" "t0" 0
             (mkInspectState "t1" "t2" 0 "" false false false true false))
  | Pod_Start _ => (if fault then Some ("fault"%string, []) else None, s')
  | Pod_AllContainers p => ret (List.filter (inside_pod p) (mem_ctrs s))
  | Image_NewFromLocal n | Image_New n _ _ => ret (mkImage "sha" n (mem_image s))
  | Image_Inspect i => ret (Some (mem_image s))
  | Image_RepoDigests _ => ret (mem_digests s)
  | MkdirAll _ | WriteFile _ _ _ | RemoveAllOneFilesystem _ => ret ()
  | ReadDir _ => ([], s')
  | Sleep _ => ((), s')
  | Exec_Do _ | Exec_DoHeadless _ => ret ()
  | Exec_Lookup b => ret b
  | Timer_Elapsed _ => (true, s')
  | Mount_Wait _ => (MountTimer, s')
  | EvalSymlinks p => ret p
  | Open_Read _ => ret (mem_log s)
  | Watch_File _ => ret ()
  | Next_FsEvent => (FsCtxDone, s')
  | Read_More _ => (""%string, s')
  | Stream_Write _ d => ((String.length d, None), s')
  | Net_Dial _ _ => ret ()
  | LookupEnv _ => (None, s')
  | ReadFile _ => ret ""%string
  | Libpod_NewConfig _ => ret ()
  | Libpod_NewRuntime _ _ _ => ret true
  | Hub_Step _ => ret ()
  | Hub_Codec => (true, s')
  | Hub_ProcessNewStream => (None, s')
  | Ctx_Expired _ => (false, s')
  | Select_Choice => (false, s')
  | Range_Order ks => (ks, s')
  end.

Global Instance mem_env : Env Mem := {| handle X := @mem_handle X |}.
Global Instance mem_store : Store Mem := {| ctrs := mem_ctrs; pods := mem_pods |}.

Lemma length_append_str (a b : string) :
  String.length (a +:+ b) = String.length a + String.length b.
Proof. induction a as [|c a IH]; simpl; [done|]. by rewrite IH. Qed.

Lemma length_concat_ge (x : string) (l : list string) :
  x ∈ l → String.length x ≤ String.length (String.concat "" l).
Proof.
  assert (∀ y z l, String.length (String.concat "" (y :: z :: l)) =
                   String.length y + String.length (String.concat "" (z :: l))) as Hcons.
  { intros y z l'. by rewrite <- length_append_str. }
  intros Hx. induction Hx as [x l|x y l Hx IH].
  - destruct l; [simpl; lia|]. rewrite Hcons. lia.
  - destruct l as [|z l]; [by apply not_elem_of_nil in Hx|]. rewrite Hcons. lia.
Qed.

Lemma fresh_id_fresh used : fresh_id used ∉ used.
Proof.
  intros H. pose proof (length_concat_ge _ _ H) as Hl. unfold fresh_id in *.
  destruct used as [|y l]; [by apply not_elem_of_nil in H|].
  change (String.concat "" ("x"%string :: y :: l))
    with ("x" +:+ String.concat "" (y :: l)) in Hl.
  rewrite length_append_str in Hl. simpl in Hl. lia.
Qed.

Lemma find_pod_spec n ps p : find_pod n ps = Some p → p ∈ ps ∧ pod_Name p = n.
Proof.
  unfold find_pod. destruct (List.filter _ ps) as [|q l] eqn:Ef; [done|]. intros [= ->].
  assert (In p (List.filter (λ p, bool_decide (pod_Name p = n)) ps)) as H by (rewrite Ef; by left).
  apply filter_In in H as [H1 H2%bool_decide_eq_true]. by rewrite list_elem_of_In.
Qed.

Global Instance mem_laws : LibpodLaws Mem.
Proof.
  split; unfold handle, mem_env, mem_handle, ctrs, pods, mem_store.
  - intros X [] s; simpl; try done; by case_bool_decide.
  - intros s l. simpl. case_bool_decide; simpl; congruence.
  - intros s l. simpl. case_bool_decide; simpl; congruence.
  - intros p s l. simpl. case_bool_decide; simpl; congruence.
  - intros n s p. simpl. case_bool_decide; [done|].
    destruct (find_pod n _) as [q|] eqn:Ef; [|done]. intros [= <-].
    apply find_pod_spec in Ef as [??]. auto.
  - intros n ls s. case_bool_decide; simpl; [done|].
    pose proof (fresh_id_fresh ((pod_ID <$> mem_pods s) ++ (ctr_PodID <$> mem_ctrs s))) as Hf.
    rewrite elem_of_app in Hf. repeat split; first [done | tauto].
  - intros cfg i s. case_bool_decide; simpl; [done|]. repeat split; [|done]. apply fresh_id_fresh.
  - intros p s. case_bool_decide; simpl; [done|].
    rewrite !bfilter_idem. repeat split; auto using bfilter_sublist.
  - intros c f v s. case_bool_decide; simpl; [done|].
    rewrite !bfilter_idem. repeat split; auto using bfilter_sublist.
  - done.
Qed.

(** Without scripted faults the engine is reliable. *)
Definition faultless (s : Mem) : Prop := mem_faults s = [].

Global Instance mem_reliable : reliable faultless.
Proof.
  split; unfold faultless, handle, mem_env, mem_handle.
  - intros X e s Hs. rewrite Hs. by destruct e.
  - intros s ->. simpl. eauto.
  - intros s ->. simpl. eauto.
  - intros p s ->. simpl. eauto.
  - intros p s ->. done.
Qed.

(** An engine that knows the given containers and pods; calls whose numbers
    are in [faults] fail. *)
Definition mem_world (cs : list Container) (ps : list Pod) (faults : list nat) : World Mem :=
  mkWorld
    (mkMem cs ps 0 0 faults ContainerStateRunning false (mkExecResult 0 None "resp" "")
       (Some (mkImageConfig "" "" ["/app"%string] [] [])) [] [] "")
    [] 0 ∅ (mkStorageClient false ∅ ∅).
