(* ===== verification/BaseRuntime.v ===== *)
(** [runtimeutil/containerutil/base_runtime.go]: the per-pod directory layout
    and the action contexts shared by every operation. *)

From S2P Require Import Prelude GoPath World.
From stdpp Require Import base strings list.

Record BaseRuntime := mkBaseRuntime {
  br_dataDir : string;
  br_podActionTimeout : Z;
  br_imageActionTimeout : Z;
  br_name : string;
  br_version : string;
  br_os : string;
  br_osImage : string;
  br_arch : string;
  br_kernelVersion : string }.

Definition NewBaseRuntime (ctx : Ctx) (dataDir : string)
    (imageActionTimeout podActionTimeout : Z)
    (name version os osImage arch kernelVersion : string) : BaseRuntime :=
  {| br_dataDir := dataDir;
     br_imageActionTimeout := imageActionTimeout;
     br_podActionTimeout := podActionTimeout;
     br_name := name; br_version := version; br_os := os;
     br_osImage := osImage; br_arch := arch; br_kernelVersion := kernelVersion |}.

Section contexts.
Context {E : Type}.
Notation M := (M (World E)).

Definition ImageActionContext (r : BaseRuntime) (ctx : Ctx) : M Ctx :=
  with_timeout ctx (br_imageActionTimeout r).
Definition PodActionContext (r : BaseRuntime) (ctx : Ctx) : M Ctx :=
  with_timeout ctx (br_podActionTimeout r).
Definition ActionContext (r : BaseRuntime) (ctx : Ctx) : M Ctx := with_cancel ctx.
End contexts.

Definition PodDir (r : BaseRuntime) (podUID : string) : string :=
  filepath_Join [br_dataDir r; "pods"%string; podUID].

Definition podVolumeDir (r : BaseRuntime) (podUID typ volumeName : string) : string :=
  filepath_Join [PodDir r podUID; "volumes"%string; typ; volumeName].

Definition PodRemoteVolumeDir (r : BaseRuntime) (podUID volumeName : string) : string :=
  podVolumeDir r podUID "remote" volumeName.
Definition PodBindVolumeDir (r : BaseRuntime) (podUID volumeName : string) : string :=
  podVolumeDir r podUID "bind" volumeName.
Definition PodTmpfsVolumeDir (r : BaseRuntime) (podUID volumeName : string) : string :=
  podVolumeDir r podUID "tmpfs" volumeName.
Definition PodResolvConfFile (r : BaseRuntime) (podUID : string) : string :=
  filepath_Join [PodDir r podUID; "volumes"%string; "bind"%string; "_net"%string; "resolv.conf"%string].

(** ** The layout, for a data directory given as a clean absolute path *)

Section layout.
Context (r : BaseRuntime) (base : list string).
Hypothesis Hdir : br_dataDir r = rooted_path base.
Hypothesis Hbase : Forall plain base.

Local Ltac plain_literal := by (apply (bool_decide_unpack _); vm_compute).

(** Each element of a list literal is plain (or empty, where allowed). *)
Local Ltac plain_elems :=
  repeat first [apply Forall_nil_2 | apply Forall_cons_2];
  first [assumption | left; assumption | plain_literal | left; plain_literal].

Lemma PodDir_layout uid : plain uid → PodDir r uid = rooted_path (base ++ ["pods"%string; uid]).
Proof.
  intros Hu. unfold PodDir. rewrite Hdir, Join_rooted; [| done |].
  - simpl. by rewrite bool_decide_eq_false_2 by apply Hu.
  - plain_elems.
Qed.

Lemma podVolumeDir_layout uid typ vol :
  plain uid → plain typ → plain vol ∨ vol = ""%string →
  podVolumeDir r uid typ vol =
  rooted_path (base ++ ["pods"%string; uid; "volumes"%string; typ] ++
               (if decide (vol = ""%string) then [] else [vol])).
Proof.
  intros Hu Ht Hv. unfold podVolumeDir. rewrite PodDir_layout by done. rewrite Join_rooted.
  - rewrite <- app_assoc. cbn [List.filter]. rewrite (bool_decide_eq_false_2 (typ = _)) by apply Ht.
    simpl. case_decide; [subst; done|by rewrite (bool_decide_eq_false_2 (vol = _))].
  - apply Forall_app. split; [done|]. plain_elems.
  - plain_elems.
Qed.
End layout.
