(* ===== verification/Expand.v ===== *)
(** [arhat.dev/pkg/envhelper/expansion.go]: expansion of [$var], [${var}] and
    [$(var)], used on the configuration file and on the arguments of the mount
    commands.

    The loop of the source advances its index past what it consumed; here the
    recursion is on the string with the number of bytes still to skip, so the
    function is total. *)

From S2P Require Import Prelude GoPath.
From stdpp Require Import base strings list.
From Stdlib Require Import Ascii String.

Local Open Scope char_scope.
Local Open Scope nat_scope.

Definition isShellSpecialVar (c : ascii) : bool :=
  bool_decide (c ∈ ["*"; "#"; "$"; "@"; "!"; "?"; "-";
                    "0"; "1"; "2"; "3"; "4"; "5"; "6"; "7"; "8"; "9"]).

Definition in_range (lo c hi : ascii) : bool :=
  (nat_of_ascii lo <=? nat_of_ascii c) && (nat_of_ascii c <=? nat_of_ascii hi).

Definition isAlphaNum (c : ascii) : bool :=
  bool_decide (c = "_") || in_range "0" c "9" || in_range "a" c "z" || in_range "A" c "Z".

(** The index of the first [close] in [s], counting from [i]. *)
Fixpoint scan (close : ascii) (i : nat) (s : string) : option nat :=
  match s with
  | EmptyString => None
  | String c s' => if decide (c = close) then Some i else scan close (S i) s'
  end.

(** The longest prefix of alphanumeric bytes. *)
Fixpoint take_alnum (s : string) : string :=
  match s with
  | EmptyString => EmptyString
  | String c s' => if isAlphaNum c then String c (take_alnum s') else EmptyString
  end.

(** The two bracketed forms: [rest] is [s[1:]]. *)
Definition bracketed (close : ascii) (rest : string) : string * nat :=
  match rest with
  | String c1 (String c2 _) =>
      if isShellSpecialVar c1 && bool_decide (c2 = close) then (String c1 EmptyString, 3)
      else match scan close 1 rest with
           | Some 1 => (EmptyString, 2)
           | Some i => (String.substring 0 (i - 1) rest, S i)
           | None => (EmptyString, 1)
           end
  | _ => match scan close 1 rest with
         | Some 1 => (EmptyString, 2)
         | Some i => (String.substring 0 (i - 1) rest, S i)
         | None => (EmptyString, 1)
         end
  end.

Definition getShellName (s : string) : string * nat :=
  match s with
  | EmptyString => (EmptyString, 0)
  | String c rest =>
      if decide (c = "(") then bracketed ")" rest
      else if decide (c = "{") then bracketed "}" rest
      else if isShellSpecialVar c then (String c EmptyString, 1)
      else let name := take_alnum s in (name, String.length name)
  end.

Section Expand.
Context (mapping : string → string → string).

Fixpoint expand_from (skip : nat) (s : string) : string :=
  match s with
  | EmptyString => EmptyString
  | String c rest =>
      match skip with
      | S k => expand_from k rest
      | O =>
          if bool_decide (c = "$") && negb (bool_decide (rest = EmptyString)) then
            let '(name, w) := getShellName rest in
            (if decide (name = EmptyString) then
               (if decide (0 < w) then EmptyString else String c EmptyString)
             else mapping name (String.substring 0 (S w) s)) +:+ expand_from w rest
          else String c (expand_from 0 rest)
      end
  end.

Definition Expand (s : string) : string := expand_from 0 s.

Fixpoint has_dollar (s : string) : bool :=
  match s with
  | EmptyString => false
  | String c s' => bool_decide (c = "$") || has_dollar s'
  end.

Lemma Expand_plain s : has_dollar s = false → Expand s = s.
Proof.
  unfold Expand. induction s as [|c s IH]; simpl; [done|].
  intros [Hc Hs]%orb_false_iff. rewrite Hc. simpl. by rewrite IH.
Qed.

(** Text without a dollar sign in front of a reference is copied. *)
Lemma Expand_prefix p s : has_dollar p = false → Expand (p +:+ s) = p +:+ Expand s.
Proof.
  unfold Expand. induction p as [|c p IH]; simpl; [done|].
  intros [Hc Hp]%orb_false_iff. rewrite Hc. simpl. by rewrite IH.
Qed.

Fixpoint all_alnum (s : string) : bool :=
  match s with
  | EmptyString => true
  | String c s' => isAlphaNum c && all_alnum s'
  end.

Lemma expand_skip name s k :
  expand_from (String.length name + k) (name +:+ s) = expand_from k s.
Proof. induction name as [|c n IH]; simpl; [done|]. apply IH. Qed.

Lemma scan_name close name s i :
  all_alnum name = true → isAlphaNum close = false →
  scan close i (name +:+ String close s) = Some (i + String.length name).
Proof.
  intros Hn Hc. revert i Hn. induction name as [|c n IH]; intros i Hn; simpl.
  - rewrite decide_True by done. f_equal. lia.
  - simpl in Hn. apply andb_true_iff in Hn as [H1 H2]. rewrite decide_False by congruence.
    rewrite IH by done. f_equal. lia.
Qed.

Lemma substring_app a b : String.substring 0 (String.length a) (a +:+ b) = a.
Proof. induction a as [|c a IH]; simpl; [by destruct b|]. by rewrite IH. Qed.

(** A name in brackets, where the name is not a lone special variable. *)
Lemma bracketed_name close name s :
  all_alnum name = true → 2 ≤ String.length name → isAlphaNum close = false →
  bracketed close (name +:+ String close s) = (name, S (S (String.length name))).
Proof.
  intros Hn Hl Hc. unfold bracketed.
  destruct name as [|c1 [|c2 n]]; simpl in Hl; [lia..|].
  set (rest := String c1 (String c2 n) +:+ String close s).
  assert (scan close 1 rest = Some (1 + String.length (String c1 (String c2 n)))) as Hscan
    by by apply scan_name.
  change rest with (String c1 (String c2 (n +:+ String close s))) at 1. cbv iota beta.
  assert (c2 ≠ close) as Hne.
  { simpl in Hn. apply andb_true_iff in Hn as [_ Hn]. apply andb_true_iff in Hn as [Hn _]. congruence. }
  rewrite (bool_decide_eq_false_2 _ Hne), andb_false_r.
  change (String c1 (String c2 (n +:+ String close s))) with rest.
  rewrite Hscan. simpl. f_equal. f_equal. f_equal. apply substring_app.
Qed.
(** A reference in brackets is replaced by what the mapping gives for the name,
    and the expansion goes on after the bracket. *)
Lemma substring_bracket o name close s :
  String.substring 0 (S (S (S (String.length name)))) (String "$" (String o (name +:+ String close s))) =
  String "$" (String o (name +:+ String close EmptyString)).
Proof.
  simpl. do 2 f_equal. induction name as [|c name IH]; simpl; [by destruct s|]. by rewrite IH.
Qed.

Lemma expand_dollar rest name w :
  rest ≠ ""%string → getShellName rest = (name, w) → name ≠ ""%string →
  expand_from 0 (String "$" rest) =
  mapping name (String.substring 0 (S w) (String "$" rest)) +:+ expand_from w rest.
Proof.
  intros Hr Hg Hn. cbn [expand_from]. rewrite Hg.
  assert (bool_decide ("$" = "$") && negb (bool_decide (rest = ""%string)) = true) as ->
    by (by rewrite bool_decide_eq_true_2, bool_decide_eq_false_2).
  by rewrite decide_False.
Qed.

Lemma Expand_bracketed o close name s :
  (o, close) = ("{", "}") ∨ (o, close) = ("(", ")") →
  all_alnum name = true → 2 ≤ String.length name →
  Expand (String "$" (String o (name +:+ String close s))) =
  mapping name (String "$" (String o (name +:+ String close EmptyString))) +:+ Expand s.
Proof.
  intros Ho Hn Hl.
  assert (isAlphaNum close = false) as Hc by by destruct Ho as [[= -> ->]|[= -> ->]].
  unfold Expand. rewrite (expand_dollar _ name (S (S (String.length name)))).
  - rewrite substring_bracket. f_equal. cbn [expand_from].
    replace (S (String.length name)) with (String.length name + 1) by lia. by rewrite expand_skip.
  - done.
  - destruct Ho as [[= -> ->]|[= -> ->]]; by apply bracketed_name.
  - intros ->. simpl in Hl. lia.
Qed.
End Expand.
