(* ===== verification/Remove.v ===== *)
(** Removal of a directory tree that stays on one file system:
    [storageutil/remove.go] and [storageutil/remove_check_unix.go].

    A file system is a tree whose directories know the device they are on; a
    directory on another device than its parent is a mount point.  [denied]
    marks what [os.Remove] refuses, [unreadable] a directory that cannot be
    opened.  The source reads the names of a directory in batches; the errors and
    the order do not depend on where a batch ends. *)

From S2P Require Import Prelude.
From stdpp Require Import base strings numbers list.

Inductive node :=
| File (denied : bool)
| Dir (dev : Z) (denied unreadable : bool) (entries : list (string * node)).

(** The errors: of [os.Remove], of [os.Open], and of the mount check. *)
Inductive rm_error := EPERM | EBUSY | ENOTEMPTY | EACCES | EMOUNT.

Global Instance rm_error_eq_dec : EqDecision rm_error.
Proof. solve_decision. Defined.

(** [os.Remove(path)] in a directory on device [pdev]; a mount point is busy. *)
Definition os_Remove (pdev : Z) (n : node) : option rm_error :=
  match n with
  | File denied => if denied then Some EPERM else None
  | Dir dev denied _ entries =>
      if denied then Some EPERM
      else if negb (bool_decide (dev = pdev)) then Some EBUSY
      else match entries with [] => None | _ => Some ENOTEMPTY end
  end.

(** [IsLikelyNotMountPoint]: the devices of the directory and of its parent. *)
Definition IsLikelyNotMountPoint (pdev : Z) (dev : Z) : bool := bool_decide (dev = pdev).

(** What is left of a node, and the error returned.  [remove_entry] keeps the
    entry if something is left, and the first error. *)
Definition remove_entry (rec : node → option node * option rm_error)
    (acc : list (string * node) * option rm_error) (x : string * node) :
    list (string * node) * option rm_error :=
  let '(left_over, err1) := rec x.2 in
  (match left_over with Some n => acc.1 ++ [(x.1, n)] | None => acc.1 end,
   match acc.2 with Some e => Some e | None => err1 end).

Fixpoint RemoveAllOneFilesystem (pdev : Z) (n : node) : option node * option rm_error :=
  match os_Remove pdev n with
  | None => (None, None)
  | Some err =>
      match n with
      | File _ => (Some n, Some err)
      | Dir dev denied unreadable entries =>
          if negb (IsLikelyNotMountPoint pdev dev) then (Some n, Some EMOUNT)
          else if unreadable then (Some n, Some EACCES)
          else
            let '(entries', err) :=
              foldl (remove_entry (RemoveAllOneFilesystem dev)) ([], None) entries in
            let n' := Dir dev denied unreadable entries' in
            match os_Remove pdev n' with
            | None => (None, None)
            | Some err1 => (Some n', Some (default err1 err))
            end
      end
  end.

(** ** The recursion through the entries *)

Section induction.
Context (P : node → Prop).
Hypothesis P_File : ∀ denied, P (File denied).
Hypothesis P_Dir : ∀ dev denied unreadable entries,
  Forall (λ x, P x.2) entries → P (Dir dev denied unreadable entries).

Fixpoint node_ind' (n : node) : P n :=
  match n with
  | File denied => P_File denied
  | Dir dev denied unreadable entries =>
      P_Dir dev denied unreadable entries
        ((fix go (l : list (string * node)) : Forall (λ x, P x.2) l :=
            match l with
            | [] => Forall_nil_2 _
            | x :: l => Forall_cons_2 _ x l (node_ind' x.2) (go l)
            end) entries)
  end.
End induction.

Definition remove_entries (dev : Z) (entries : list (string * node)) :
    list (string * node) * option rm_error :=
  foldl (remove_entry (RemoveAllOneFilesystem dev)) ([], None) entries.

Lemma RemoveAll_dir pdev dev denied unreadable entries :
  RemoveAllOneFilesystem pdev (Dir dev denied unreadable entries) =
  match os_Remove pdev (Dir dev denied unreadable entries) with
  | None => (None, None)
  | Some err =>
      if negb (bool_decide (dev = pdev)) then (Some (Dir dev denied unreadable entries), Some EMOUNT)
      else if unreadable then (Some (Dir dev denied unreadable entries), Some EACCES)
      else
        let '(entries', err) := remove_entries dev entries in
        match os_Remove pdev (Dir dev denied unreadable entries') with
        | None => (None, None)
        | Some err1 => (Some (Dir dev denied unreadable entries'), Some (default err1 err))
        end
  end.
Proof. done. Qed.

(** What is left of the entries, and whether there was an error, entry by entry. *)
Lemma remove_entries_spec dev entries :
  (remove_entries dev entries).1 =
    omap (λ x, pair x.1 <$> (RemoveAllOneFilesystem dev x.2).1) entries ∧
  ((remove_entries dev entries).2 = None ↔
    Forall (λ x, (RemoveAllOneFilesystem dev x.2).2 = None) entries).
Proof.
  unfold remove_entries.
  assert (∀ acc, let r := foldl (remove_entry (RemoveAllOneFilesystem dev)) acc entries in
    r.1 = acc.1 ++ omap (λ x, pair x.1 <$> (RemoveAllOneFilesystem dev x.2).1) entries ∧
    (r.2 = None ↔ acc.2 = None ∧ Forall (λ x, (RemoveAllOneFilesystem dev x.2).2 = None) entries)) as H.
  { induction entries as [|x l IH]; intros acc; simpl.
    - split; [by rewrite app_nil_r|]. split; [intros ?; by split; [|constructor]|by intros [? _]].
    - destruct (IH (remove_entry (RemoveAllOneFilesystem dev) acc x)) as [-> Herr]. split.
      + unfold remove_entry. destruct (RemoveAllOneFilesystem dev x.2) as [[n|] e]; simpl; [|done].
        by rewrite <- app_assoc.
      + rewrite Herr, Forall_cons. unfold remove_entry.
        destruct (RemoveAllOneFilesystem dev x.2) as [m e]; simpl. destruct (acc.2); naive_solver. }
  destruct (H ([], None)) as [H1 H2]. split; [done|]. rewrite H2. simpl. tauto.
Qed.

(** ** Specification *)



(** What can be left: a mount point, a file that is not to be removed, an
    unreadable directory that is not simply removed, and a directory that is
    denied or that still holds something, with nothing else in it. *)
Inductive obstructed (pdev : Z) : node → Prop :=
| obs_file : obstructed pdev (File true)
| obs_mount dev denied unreadable entries :
    dev ≠ pdev → obstructed pdev (Dir dev denied unreadable entries)
| obs_unreadable denied entries :
    denied = true ∨ entries ≠ [] → obstructed pdev (Dir pdev denied true entries)
| obs_dir denied unreadable entries :
    denied = true ∨ entries ≠ [] → Forall (λ x, obstructed pdev x.2) entries →
    obstructed pdev (Dir pdev denied unreadable entries).

(** What stands in the way of nothing. *)
Inductive removable (pdev : Z) : node → Prop :=
| rem_file : removable pdev (File false)
| rem_dir entries :
    Forall (λ x, removable pdev x.2) entries → removable pdev (Dir pdev false false entries).



Lemma RemoveAll_error pdev n :
  (RemoveAllOneFilesystem pdev n).1 = None ↔ (RemoveAllOneFilesystem pdev n).2 = None.
Proof.
  destruct n as [denied|dev denied unreadable entries]; [by destruct denied|].
  rewrite RemoveAll_dir. destruct (os_Remove _ _); [|done].
  destruct (negb _); [done|]. destruct unreadable; [done|].
  destruct (remove_entries dev entries) as [es e]. by destruct (os_Remove _ _).
Qed.

Lemma RemoveAll_obstructed pdev n n' :
  (RemoveAllOneFilesystem pdev n).1 = Some n' → obstructed pdev n'.
Proof.
  revert pdev n'. induction n as [denied|dev denied unreadable entries IH] using node_ind'; intros pdev n'.
  { destruct denied; [|done]. intros [= <-]. constructor. }
  rewrite RemoveAll_dir. destruct (os_Remove pdev _) as [err|] eqn:Eo; [|done].
  destruct (bool_decide (dev = pdev)) eqn:Ed; cbn [negb].
  2:{ intros [= <-]. apply obs_mount. by apply bool_decide_eq_false in Ed. }
  apply bool_decide_eq_true in Ed as ->. simpl in Eo. rewrite bool_decide_eq_true_2 in Eo by done.
  simpl in Eo. destruct unreadable.
  { intros [= <-]. apply obs_unreadable. destruct denied; [by left|]. right. by destruct entries. }
  destruct (remove_entries pdev entries) as [entries' err'] eqn:Er.
  pose proof (remove_entries_spec pdev entries) as [Hl _]. rewrite Er in Hl. simpl in Hl.
  destruct (os_Remove pdev (Dir pdev denied false entries')) eqn:Eo'; [|by intros [=]]. intros [= <-].
  simpl in Eo'. rewrite bool_decide_eq_true_2 in Eo' by done. simpl in Eo'. apply obs_dir.
  - destruct denied; [by left|]. right. by destruct entries'.
  - rewrite Hl, Forall_forall. intros x Hx. apply list_elem_of_omap in Hx as (y & Hy & Hn).
    rewrite Forall_forall in IH. destruct (RemoveAllOneFilesystem pdev y.2) as [[m|] e] eqn:Ey; [|done].
    simpl in Hn. injection Hn as <-. simpl. apply (IH y Hy). by rewrite Ey.
Qed.

Lemma RemoveAll_removable pdev n : removable pdev n → RemoveAllOneFilesystem pdev n = (None, None).
Proof.
  revert pdev. induction n as [denied|dev denied unreadable entries IH] using node_ind'; intros pdev Hr.
  { by inversion Hr. }
  inversion Hr as [|es Hes]; subst. clear Hr. rewrite RemoveAll_dir.
  match goal with |- context [os_Remove ?d ?m] => destruct (os_Remove d m) as [err|]; [|done]; rename d into dv end.
  rewrite bool_decide_eq_true_2 by done. cbn [negb].
  destruct (remove_entries dv entries) as [entries' err'] eqn:Er.
  pose proof (remove_entries_spec dv entries) as [Hl _]. rewrite Er in Hl. simpl in Hl.
  assert (entries' = []) as ->.
  { rewrite Hl. rewrite Forall_forall in IH, Hes. clear -IH Hes.
    induction entries as [|x l IHl]; [done|]. simpl.
    rewrite (IH x) by (try apply Hes; by left). simpl. apply IHl; intros y Hy; [apply IH|apply Hes]; by right. }
  simpl. by rewrite bool_decide_eq_true_2.
Qed.


(** C28: It removes everything it can: an error is returned exactly when something is
    left, what is left are obstacles and the directories above them, and without
    obstacles nothing is left. *)
Theorem RemoveAll_complete pdev n n' err :
  RemoveAllOneFilesystem pdev n = (n', err) →
  (err = None ↔ n' = None) ∧ (∀ m, n' = Some m → obstructed pdev m) ∧ (removable pdev n → n' = None).
Proof.
  intros H. pose proof (RemoveAll_error pdev n) as He. rewrite H in He. simpl in He.
  split; [naive_solver|]. split.
  - intros m ->. apply (RemoveAll_obstructed pdev n). by rewrite H.
  - intros Hr%RemoveAll_removable. congruence.
Qed.

(** A pod directory with a remote volume still mounted and a volume file. *)
Definition sample_tree : node :=
  Dir 1 false false
    [("volumes"%string, Dir 1 false false
        [("remote"%string, Dir 1 false false [("data"%string, Dir 2 false false [("file"%string, File false)])]);
         ("bind"%string, Dir 1 false false [("conf"%string, File false)])])].


Lemma RemoveAll_complete_witness :
  let r := RemoveAllOneFilesystem 1 sample_tree in
  r.2 = Some EMOUNT ∧
  (r.2 = None ↔ r.1 = None) ∧ (∀ m, r.1 = Some m → obstructed 1 m) ∧ (removable 1 sample_tree → r.1 = None).
Proof.
  split; [reflexivity|]. apply (RemoveAll_complete 1 sample_tree). apply surjective_pairing.
Defined.
