(* ===== verification/Storage.v ===== *)
(** Pod volumes: [runtimeutil/storageutil].

    The storage client keeps a mutex, the table of mount points with the
    command that serves them, and a timer per mount point that decides when a
    mount command counts as successful ([World.StorageClient]).  A [Lock] of a
    mutex that is already held blocks for ever in this sequential model, which
    is what happens when no other goroutine will unlock it. *)

From S2P Require Import Prelude GoPath World Libpod BaseRuntime Expand.
From stdpp Require Import base gmap strings list fin_maps numbers.

(** ** Drivers (types.go, nop.go, general/general_unix.go, sshfs/sshfs_unix.go, exec.go) *)

Inductive Driver :=
| NopDriver
| GeneralDriver (Command : string) (Args : list string) (Fuse : bool)
| SshfsDriver (args : list string).

Definition StorageArgEnvRemotePath : string := "ARHAT_STORAGE_REMOTE_PATH".
Definition StorageArgEnvMountpoint : string := "ARHAT_STORAGE_MOUNTPOINT".

Definition storage_mapping (remotePath localPath : string) (s orig : string) : string :=
  if decide (s = StorageArgEnvMountpoint) then localPath
  else if decide (s = StorageArgEnvRemotePath) then remotePath
  else orig.

Definition ResolveStorageCommand (bin : string) (args : list string)
    (remotePath localPath : string) : list string :=
  bin :: (Expand (storage_mapping (filepath_Clean remotePath) localPath) <$> args).

Definition GetMountCmd (d : Driver) (remotePath mountPoint : string) : list string :=
  match d with
  | NopDriver => []
  | GeneralDriver command args _ => ResolveStorageCommand command args remotePath mountPoint
  | SshfsDriver args => ResolveStorageCommand "sshfs" args remotePath mountPoint
  end.

(** [runtime.GOOS] is linux. *)
Definition GenerateUnmountCmd (binPath mountPoint : string) : list string :=
  let base := filepath_Base binPath in
  if decide (base = "fusermount"%string) then [binPath; "-z"; "-u"; mountPoint]%string
  else if decide (base = "umount"%string) then [binPath; "-l"; mountPoint]%string
  else [].

Section client.
Context {E : Type} `{!Env E}.
Notation W := (World E).
Notation M := (M W).

Definition LookupUnmountUtil (fuse : bool) : M string :=
  invoke (Exec_Lookup (if fuse then "fusermount" else "umount")%string).

Definition unmount_cmd (fuse : bool) (mountPoint : string) : M (list string) :=
  r ← try (LookupUnmountUtil fuse);
  match r with
  | inl _ => mret []
  | inr umountBin => mret (GenerateUnmountCmd umountBin mountPoint)
  end.

Definition GetUnmountCmd (d : Driver) (mountPoint : string) : M (list string) :=
  match d with
  | NopDriver => mret []
  | GeneralDriver _ _ fuse => unmount_cmd fuse mountPoint
  | SshfsDriver _ => unmount_cmd true mountPoint
  end.

(** ** The client (client.go) *)

Definition lock : M unit :=
  s ← get_storage;
  if sto_locked s then hang
  else set_storage (mkStorageClient true (sto_mounted s) (sto_timers s)).

Definition unlock : M unit :=
  s ← get_storage;
  set_storage (mkStorageClient false (sto_mounted s) (sto_timers s)).

Definition set_mounted (f : gmap string (list string) → gmap string (list string)) : M unit :=
  s ← get_storage;
  set_storage (mkStorageClient (sto_locked s) (f (sto_mounted s)) (sto_timers s)).

Definition set_timers (f : gset string → gset string) : M unit :=
  s ← get_storage;
  set_storage (mkStorageClient (sto_locked s) (sto_mounted s) (f (sto_timers s))).

(** [c.tq.Find(mountPoint)]: whether the timer of an earlier mount still runs. *)
Definition tq_Find (mountPoint : string) : M bool :=
  s ← get_storage;
  if decide (mountPoint ∈ sto_timers s) then
    elapsed ← perform (Timer_Elapsed mountPoint);
    if elapsed : bool then set_timers (λ t, t ∖ {[mountPoint]});; mret false else mret true
  else mret false.

(** The part of [Mount] after the unlock: wait for the timer (success), the
    exit of the command, or the context. *)
Definition mount_wait (mountPoint : string) : M unit :=
  race ← perform (Mount_Wait mountPoint);
  match race with
  | MountCtxDone => set_mounted (delete mountPoint);; fail ErrCtx
  | MountTimer => set_timers (λ t, t ∖ {[mountPoint]});; mret ()
  | MountExited err =>
      set_mounted (delete mountPoint);;
      match err with
      | None => mret ()
      | Some d => lock;; set_mounted (delete mountPoint);; unlock;; fail (ErrExt d)
      end
  end.

Definition Mount (d : Driver) (remotePath mountPoint : string) : M unit :=
  lock;;
  s ← get_storage;
  if decide (is_Some (sto_mounted s !! mountPoint)) then unlock;; fail ErrMountpointInUse
  else
    mounting ← tq_Find mountPoint;
    if mounting : bool then unlock;; fail ErrMountpointInProcess
    else
      match GetMountCmd d remotePath mountPoint with
      | [] => fail (Errorf "invalid empty mount command")
      | cmd =>
          r ← try (invoke (Exec_Do cmd));
          match r with
          | inl e => unlock;; fail e
          | inr _ =>
              set_timers (λ t, {[mountPoint]} ∪ t);;
              set_mounted (<[mountPoint := cmd]>);;
              unlock;;
              mount_wait mountPoint
          end
      end.

Definition Unmount (d : Driver) (mountPoint : string) : M unit :=
  lock;;
  s ← get_storage;
  if decide (is_Some (sto_mounted s !! mountPoint)) then
    set_mounted (delete mountPoint);;
    unlock;;
    cmd ← GetUnmountCmd d mountPoint;
    match cmd with
    | [] => fail (Errorf "invalid empty unmount command")
    | _ => invoke (Exec_DoHeadless cmd)
    end
  else unlock;; mret ().

(** The command of a successful mount exits: the goroutine of [Mount] finds
    [errCh] closed, forgets the mount point and reports to [onExited]. *)
Definition mount_exited (remotePath mountPoint : string) (err : option error)
    (onExited : string → string → option error → M unit) : M unit :=
  lock;; set_mounted (delete mountPoint);; unlock;;
  onExited remotePath mountPoint err.

(** ** Pod data (volume.go) *)

(** [for _, dir := range dirs { err = unmount(...) }] *)
Definition unmount_all (unmount : string → M unit) (dir : string)
    (err : option error) (names : list string) : M (option error) :=
  fold_m (λ _ name, r ← try (unmount (filepath_Join [dir; name]));
                    mret (match r with inl e => Some e | inr _ => None end)) err names.

Definition try_remove (podDir : string) : M (option error) :=
  r ← try (invoke (RemoveAllOneFilesystem podDir));
  mret (match r with inl e => Some e | inr _ => None end).

(** The retry loop; [n] is the number of iterations left of the five. *)
Fixpoint cleanup_loop (n : nat) (podDir remoteVolumeDir tmpfsVolumeDir : string)
    (unmount : string → M unit) (err : option error) : M (option error) :=
  match n, err with
  | O, _ | _, None => mret err
  | S n, Some _ =>
      dirs ← perform (ReadDir remoteVolumeDir);
      err ← unmount_all unmount remoteVolumeDir err dirs;
      (match err with
       | None => perform (ReadDir tmpfsVolumeDir);; mret ()
       | Some _ => mret ()
       end);;
      perform (Sleep 5);;
      err ← (match err with None => try_remove podDir | Some _ => mret err end);
      cleanup_loop n podDir remoteVolumeDir tmpfsVolumeDir unmount err
  end.

Definition CleanupPodData (podDir remoteVolumeDir tmpfsVolumeDir : string)
    (unmount : string → M unit) : M unit :=
  err ← try_remove podDir;
  err ← cleanup_loop 5 podDir remoteVolumeDir tmpfsVolumeDir unmount err;
  match err with
  | None => mret ()
  | Some e => fail e
  end.

(** [os.MkdirAll] of a directory that exists succeeds, so [os.IsExist] adds
    nothing to the error test. *)
Definition ResolveHostPathMountSource (path podUID volName : string) (remote : bool)
    (getRemoteVolumeDir getTmpfsVolumeDir : string → string → string) : M string :=
  if negb (bool_decide (path = ""%string)) then
    if negb remote then mret path
    else
      let mountSource := getRemoteVolumeDir podUID volName in
      invoke (MkdirAll mountSource);; mret mountSource
  else if negb remote then
    let mountSource := getTmpfsVolumeDir podUID volName in
    invoke (MkdirAll mountSource);; mret mountSource
  else fail (Errorf "unsupported options").

End client.

(** ** The store is not involved *)

Section frames.
Context {E : Type} `{!Env E} {R : relation (World E)} `{!QuietFrame R}.

Lemma keeps_lock : keeps R lock.
Proof. unfold lock. keeps_solve. Qed.
Lemma keeps_unlock : keeps R unlock.
Proof. unfold unlock. keeps_solve. Qed.
Lemma keeps_set_mounted f : keeps R (set_mounted f).
Proof. unfold set_mounted. keeps_solve. Qed.
Lemma keeps_set_timers f : keeps R (set_timers f).
Proof. unfold set_timers. keeps_solve. Qed.

#[local] Hint Extern 1 (keeps _ lock) => apply keeps_lock : keeps.
#[local] Hint Extern 1 (keeps _ unlock) => apply keeps_unlock : keeps.
#[local] Hint Extern 1 (keeps _ (set_mounted _)) => apply keeps_set_mounted : keeps.
#[local] Hint Extern 1 (keeps _ (set_timers _)) => apply keeps_set_timers : keeps.

Lemma keeps_Mount d r m : keeps R (Mount d r m).
Proof. unfold Mount, tq_Find, mount_wait. keeps_solve. Qed.

Lemma keeps_Unmount d m : keeps R (Unmount d m).
Proof. unfold Unmount, GetUnmountCmd, unmount_cmd, LookupUnmountUtil. keeps_solve. Qed.

Lemma keeps_CleanupPodData a b c u :
  (∀ p, keeps R (u p)) → keeps R (CleanupPodData a b c u).
Proof.
  intros Hu. unfold CleanupPodData, try_remove.
  assert (∀ n err, keeps R (cleanup_loop n a b c u err)) as Hl.
  { induction n as [|n IH]; intros err; simpl; unfold unmount_all, try_remove; keeps_solve; apply Hu. }
  keeps_solve.
Qed.

Lemma keeps_ResolveHostPath p u v rm f g :
  keeps R (ResolveHostPathMountSource p u v rm f g).
Proof. unfold ResolveHostPathMountSource. keeps_solve. Qed.
End frames.

#[export] Hint Extern 1 (keeps _ lock) => apply keeps_lock : keeps.
#[export] Hint Extern 1 (keeps _ unlock) => apply keeps_unlock : keeps.
#[export] Hint Extern 1 (keeps _ (set_mounted _)) => apply keeps_set_mounted : keeps.
#[export] Hint Extern 1 (keeps _ (set_timers _)) => apply keeps_set_timers : keeps.
#[export] Hint Resolve keeps_Mount keeps_Unmount keeps_CleanupPodData keeps_ResolveHostPath : keeps.

(** ** The client never panics, whatever the state of its mutex *)

Section panics.
Context {E : Type} `{!Env E}.

Lemma settles_get_storage h : settles h (get_storage (E := E)).
Proof. done. Qed.
Lemma settles_set_storage h s : settles h (set_storage (E := E) s).
Proof. done. Qed.
#[local] Hint Resolve settles_get_storage settles_set_storage : returns.
Lemma never_panics_hang : never_panics (@hang (World E) unit).
Proof. done. Qed.
#[local] Hint Resolve never_panics_hang : returns.
Lemma never_panics_lock : never_panics (lock (E := E)).
Proof. unfold lock. returns_solve. Qed.
Lemma never_panics_unlock : never_panics (unlock (E := E)).
Proof. unfold unlock. returns_solve. Qed.
Lemma never_panics_set_mounted f : never_panics (set_mounted (E := E) f).
Proof. unfold set_mounted. returns_solve. Qed.
Lemma never_panics_set_timers f : never_panics (set_timers (E := E) f).
Proof. unfold set_timers. returns_solve. Qed.
#[local] Hint Resolve never_panics_lock never_panics_unlock never_panics_set_mounted
  never_panics_set_timers : returns.
Lemma never_panics_Mount d rp mp : never_panics (Mount (E := E) d rp mp).
Proof. unfold Mount, tq_Find, mount_wait. returns_solve. Qed.
Lemma never_panics_Unmount d mp : never_panics (Unmount (E := E) d mp).
Proof. unfold Unmount, GetUnmountCmd, unmount_cmd, LookupUnmountUtil. returns_solve. Qed.
Lemma never_panics_CleanupPodData a b c (u : string → M (World E) unit) :
  (∀ p, never_panics (u p)) → never_panics (CleanupPodData a b c u).
Proof.
  intros Hu. unfold CleanupPodData, try_remove.
  assert (∀ n err, never_panics (cleanup_loop n a b c u err)) as Hl.
  { induction n as [|n IH]; intros err; simpl; unfold unmount_all, try_remove; returns_solve; apply Hu. }
  returns_solve.
Qed.
Lemma returns_ResolveHostPath p u v rm f g :
  returns (ResolveHostPathMountSource (E := E) p u v rm f g).
Proof. unfold ResolveHostPathMountSource. returns_solve. Qed.
End panics.

#[export] Hint Resolve never_panics_Mount never_panics_Unmount never_panics_CleanupPodData
  returns_ResolveHostPath : returns.
