(* ===== verification/Mounts.v ===== *)
(** The storage client used by several goroutines: [Mount], [Unmount], the
    goroutine that monitors a mount command and the timer routine of
    [storageutil/client.go].

    [Storage] models a call of the client as it runs alone.  Here any number of
    calls are interleaved with the monitors, with the timers, with the contexts
    and with the commands, which exit when they please; every access to the
    shared table and every operation on the mutex or on a channel is a step of
    its own.  A started command, its context and its [errCh] have one number. *)

From stdpp Require Import base gmap strings list fin_maps numbers relations.
From S2P Require Import Prelude GoPath World Libpod BaseRuntime Expand Storage.

Local Open Scope nat_scope.

(** ** The shared state *)

Record client := mkClient {
  cl_owner : option nat;          (* the goroutine that holds [mu] *)
  cl_mounted : gmap string nat;   (* [mounted] *)
  cl_tq : gmap string nat;        (* the running timers of [tq], with their [errCh] *)
  cl_expired : gset nat;          (* channels of expired timers, not yet closed *)
  cl_closed : gset nat;           (* closed channels *)
  cl_ctx : gset nat;              (* contexts that are done *)
  cl_exited : gmap nat (option error);  (* what [Wait] returns *)
  cl_next : nat }.

Definition set_owner (o : option nat) (s : client) : client :=
  mkClient o (cl_mounted s) (cl_tq s) (cl_expired s) (cl_closed s) (cl_ctx s) (cl_exited s) (cl_next s).
Definition upd_mounted (f : gmap string nat → gmap string nat) (s : client) : client :=
  mkClient (cl_owner s) (f (cl_mounted s)) (cl_tq s) (cl_expired s) (cl_closed s) (cl_ctx s) (cl_exited s) (cl_next s).
Definition upd_tq (f : gmap string nat → gmap string nat) (s : client) : client :=
  mkClient (cl_owner s) (cl_mounted s) (f (cl_tq s)) (cl_expired s) (cl_closed s) (cl_ctx s) (cl_exited s) (cl_next s).
Definition start_cmd (s : client) : client :=
  mkClient (cl_owner s) (cl_mounted s) (cl_tq s) (cl_expired s) (cl_closed s) (cl_ctx s) (cl_exited s) (S (cl_next s)).

(** ** The goroutines *)

Inductive pc :=
(* [Mount] *)
| MLock (remotePath mountPoint : string)
| MLookup (remotePath mountPoint : string)
| MFind (remotePath mountPoint : string)
| MStart (remotePath mountPoint : string)
| MOffer (remotePath mountPoint : string) (cmd : nat)
| MRecord (remotePath mountPoint : string) (cmd : nat)
| MSpawn (remotePath mountPoint : string) (cmd : nat)
| MWait (mountPoint : string) (cmd : nat)
| MForget (mountPoint : string) (err : error)
| MDelete (mountPoint : string) (err : error)
(* the monitor; [report] is the call of [onExited] to come *)
| WWait (remotePath mountPoint : string) (cmd : nat)
| WSend (remotePath mountPoint : string) (cmd : nat) (err : option error)
| WLock (mountPoint : string) (report : option (string * option error))
| WDelete (mountPoint : string) (report : option (string * option error))
| WDone (mountPoint : string) (report : option (string * option error))
(* [Unmount] *)
| ULock (mountPoint : string)
| ULookup (mountPoint : string)
| UDelete (mountPoint : string) (cmd : nat)
| URun (mountPoint : string) (cmd : nat)
(* all *)
| Unlocking (next : pc)
| Return (err : option error)
| ReturnLocked (err : error).

(** What decides a step: nothing, the answer of a command, the branch of a
    [select]. *)
Inductive choice := Continue | Answer (r : option error) | PickCtx | PickChan.

Definition acquire (t : nat) (s : client) (next : pc) : option (client * pc) :=
  match cl_owner s with
  | None => Some (set_owner (Some t) s, next)
  | Some _ => None
  end.

(** A step of goroutine [t] on its own; [None] when it is blocked. *)
Definition thread_step (d : Driver) (t : nat) (ch : choice) (s : client) (c : pc) : option (client * pc) :=
  match c, ch with
  | MLock rp mp, Continue => acquire t s (MLookup rp mp)
  | MLookup rp mp, Continue =>
      Some (s, match cl_mounted s !! mp with
               | Some _ => Unlocking (Return (Some ErrMountpointInUse))
               | None => MFind rp mp
               end)
  | MFind rp mp, Continue =>
      Some (s, match cl_tq s !! mp with
               | Some _ => Unlocking (Return (Some ErrMountpointInProcess))
               | None => MStart rp mp
               end)
  | MStart rp mp, Answer r =>
      match GetMountCmd d rp mp, r with
      | [], _ => Some (s, ReturnLocked (Errorf "invalid empty mount command"))
      | _, Some e => Some (s, Unlocking (Return (Some e)))
      | _, None => Some (start_cmd s, MOffer rp mp (cl_next s))
      end
  | MOffer rp mp p, Answer r =>
      Some (match r with None => upd_tq <[mp := p]> s | Some _ => s end, MRecord rp mp p)
  | MRecord rp mp p, Continue => Some (upd_mounted <[mp := p]> s, Unlocking (MSpawn rp mp p))
  | MWait mp p, PickCtx => if decide (p ∈ cl_ctx s) then Some (s, Return (Some ErrCtx)) else None
  | MWait mp p, PickChan => if decide (p ∈ cl_closed s) then Some (s, Return None) else None
  | MForget mp e, Continue => acquire t s (MDelete mp e)
  | MDelete mp e, Continue => Some (upd_mounted (delete mp) s, Unlocking (Return (Some e)))
  | WWait rp mp p, Continue =>
      match cl_exited s !! p with Some r => Some (s, WSend rp mp p r) | None => None end
  | WSend rp mp p r, PickCtx => if decide (p ∈ cl_ctx s) then Some (s, WLock mp None) else None
  | WSend rp mp p r, PickChan =>
      if decide (p ∈ cl_closed s) then Some (s, WLock mp (Some (rp, r))) else None
  | WLock mp report, Continue => acquire t s (WDelete mp report)
  | WDelete mp report, Continue => Some (upd_mounted (delete mp) s, Unlocking (WDone mp report))
  | ULock mp, Continue => acquire t s (ULookup mp)
  | ULookup mp, Continue =>
      Some (s, match cl_mounted s !! mp with
               | None => Unlocking (Return None)
               | Some p => UDelete mp p
               end)
  | UDelete mp p, Continue => Some (upd_mounted (delete mp) s, Unlocking (URun mp p))
  | URun mp p, Answer r => Some (s, Return r)
  | Unlocking next, Continue => Some (set_owner None s, next)
  | _, _ => None
  end.

(** The commands, the contexts, the timers and the [routine] of the client. *)
Inductive env_step : client → client → Prop :=
| env_exit s p r :
    p < cl_next s → cl_exited s !! p = None →
    env_step s (mkClient (cl_owner s) (cl_mounted s) (cl_tq s) (cl_expired s) (cl_closed s) (cl_ctx s)
                  (<[p := r]> (cl_exited s)) (cl_next s))
| env_ctx s p :
    env_step s (mkClient (cl_owner s) (cl_mounted s) (cl_tq s) (cl_expired s) (cl_closed s)
                  ({[p]} ∪ cl_ctx s) (cl_exited s) (cl_next s))
| env_timer s mp p :
    cl_tq s !! mp = Some p →
    env_step s (mkClient (cl_owner s) (cl_mounted s) (delete mp (cl_tq s)) ({[p]} ∪ cl_expired s)
                  (cl_closed s) (cl_ctx s) (cl_exited s) (cl_next s))
| routine s p :
    p ∈ cl_expired s →
    env_step s (mkClient (cl_owner s) (cl_mounted s) (cl_tq s) (cl_expired s ∖ {[p]})
                  ({[p]} ∪ cl_closed s) (cl_ctx s) (cl_exited s) (cl_next s)).

Notation threads := (gmap nat pc).

Inductive cstep (d : Driver) : client * threads → client * threads → Prop :=
| cstep_thread t ch s ts c s' c' :
    ts !! t = Some c → thread_step d t ch s c = Some (s', c') →
    cstep d (s, ts) (s', <[t := c']> ts)
| cstep_go t m s ts rp mp p :
    ts !! t = Some (MSpawn rp mp p) → ts !! m = None →
    cstep d (s, ts) (s, <[m := WWait rp mp p]> (<[t := MWait mp p]> ts))
| cstep_send t m s ts mp rp mp' p r :
    ts !! t = Some (MWait mp p) → ts !! m = Some (WSend rp mp' p r) →
    cstep d (s, ts)
      (s, <[m := WLock mp' None]>
            (<[t := match r with None => Return None | Some e => MForget mp e end]> ts))
| cstep_env s s' ts : env_step s s' → cstep d (s, ts) (s', ts).

(** A new client, and calls about to begin. *)
Definition new_client : client := mkClient None ∅ ∅ ∅ ∅ ∅ ∅ 0.
Definition calling (c : pc) : Prop := (∃ rp mp, c = MLock rp mp) ∨ (∃ mp, c = ULock mp).
Definition calls (s : client * threads) : Prop :=
  s.1 = new_client ∧ map_Forall (λ _, calling) s.2.

(** ** Mutual exclusion *)

(** Between [Lock] and [Unlock]. *)
Definition holds (c : pc) : bool :=
  match c with
  | MLookup _ _ | MFind _ _ | MStart _ _ | MOffer _ _ _ | MRecord _ _ _ | MDelete _ _
  | WDelete _ _ | ULookup _ | UDelete _ _ | Unlocking _ | ReturnLocked _ => true
  | _ => false
  end.

(** Where a goroutine goes on after [Unlock]. *)
Definition after_unlock (c : pc) : bool :=
  match c with MSpawn _ _ _ | WDone _ _ | URun _ _ | Return _ => true | _ => false end.

(** What a goroutine that is about to start or record a command knows. *)
Definition knows (s : client) (c : pc) : Prop :=
  match c with
  | MFind _ mp => cl_mounted s !! mp = None
  | MStart _ mp => cl_mounted s !! mp = None ∧ cl_tq s !! mp = None
  | MOffer _ mp p => cl_mounted s !! mp = None ∧ cl_tq s !! mp = None
  | MRecord _ mp p => cl_mounted s !! mp = None ∧ (∀ q, cl_tq s !! mp = Some q → q = p)
  | Unlocking next => after_unlock next = true
  | _ => True
  end.

Record exclusive (s : client) (ts : threads) : Prop := {
  ex_owner t c : ts !! t = Some c → (holds c = true ↔ cl_owner s = Some t);
  ex_live t : cl_owner s = Some t → is_Some (ts !! t);
  ex_knows t c : ts !! t = Some c → knows s c }.

Lemma thread_step_free d t ch s c s' c' :
  holds c = false → thread_step d t ch s c = Some (s', c') →
  cl_mounted s' = cl_mounted s ∧ cl_tq s' = cl_tq s ∧ knows s' c' ∧
  ((holds c' = false ∧ cl_owner s' = cl_owner s) ∨
   (holds c' = true ∧ cl_owner s = None ∧ cl_owner s' = Some t)).
Proof.
  destruct s as [o m tq ex cl cx xd nx], c, ch; simpl; unfold acquire, set_owner; simpl; try done;
    intros _ H; repeat (case_match; simplify_eq/=); simplify_eq/=; naive_solver.
Qed.

Lemma knows_free s c : holds c = false → knows s c.
Proof. by destruct c. Qed.

Lemma thread_step_held d t ch s c s' c' :
  holds c = true → knows s c → thread_step d t ch s c = Some (s', c') →
  knows s' c' ∧
  ((holds c' = true ∧ cl_owner s' = cl_owner s) ∨ (holds c' = false ∧ cl_owner s' = None)).
Proof.
  destruct s as [o m tq ex cl cx xd nx], c, ch; simpl; try done;
    unfold upd_tq, upd_mounted, set_owner, start_cmd; simpl; intros _ Hk H;
    repeat (case_match; simplify_eq/=); simplify_eq/=; simpl in *; try naive_solver.
  - split; [|by left]. split; [apply Hk|]. intros q. rewrite lookup_insert_eq. by intros [= ->].
  - assert (holds c' = false) by by destruct c'. split; [by apply knows_free|by right].
Qed.

(** A step leaves what a goroutine that holds the mutex knows as it is. *)
Lemma knows_env s s' c : env_step s s' → knows s c → knows s' c.
Proof.
  intros [] Hk; try exact Hk. destruct c; simpl in *; try exact Hk.
  - split; [apply Hk|]. apply lookup_delete_None. right. apply Hk.
  - split; [apply Hk|]. apply lookup_delete_None. right. apply Hk.
  - split; [apply Hk|]. intros q [_ Hq]%lookup_delete_Some. by apply Hk.
Qed.

Lemma knows_same s s' c :
  cl_mounted s' = cl_mounted s → cl_tq s' = cl_tq s → knows s c → knows s' c.
Proof. intros Hm Ht. destruct c; simpl; by rewrite ?Hm, ?Ht. Qed.

Lemma env_owner s s' : env_step s s' → cl_owner s' = cl_owner s.
Proof. by intros []. Qed.

(** A goroutine that does not hold the mutex is added or replaced. *)
Lemma exclusive_insert s ts t c :
  exclusive s ts → cl_owner s ≠ Some t → holds c = false → exclusive s (<[t := c]> ts).
Proof.
  intros [Ho Hl Hk] Ht Hc. split.
  - intros t' c' [[<- <-]|[Hne Hts]]%lookup_insert_Some; [by rewrite Hc|by apply Ho].
  - intros t' Ht'. apply lookup_insert_is_Some. right. split; [congruence|by apply Hl].
  - intros t' c' [[<- <-]|[Hne Hts]]%lookup_insert_Some; [by apply knows_free|by eapply Hk].
Qed.

Lemma exclusive_step d s ts s' ts' :
  cstep d (s, ts) (s', ts') → exclusive s ts → exclusive s' ts'.
Proof.
  intros Hs Hex. pose proof Hex as [Ho Hl Hk].
  inversion Hs as [t ch ? ? c ? c' Ht Hstep|t m ? ? rp mp p Ht Hm|t m ? ? mp rp mp' p r Ht Hm|? ? ? He]; subst.
  - destruct (holds c) eqn:Hc.
    + assert (cl_owner s = Some t) as Hot by by apply (Ho t c).
      destruct (thread_step_held d t ch s c s' c' Hc (Hk t c Ht) Hstep) as [Hkn Hown].
      split.
      * intros t' c2 [[<- <-]|[Hne Hts]]%lookup_insert_Some.
        -- destruct Hown as [[-> ->]|[-> ->]]; [by rewrite Hot|done].
        -- rewrite (Ho t' c2 Hts), Hot. destruct Hown as [[_ ->]|[_ ->]]; [by rewrite Hot|].
           split; [congruence|done].
      * intros t' Ht'. apply lookup_insert_is_Some'. destruct Hown as [[_ Heq]|[_ Heq]]; [|congruence].
        right. apply Hl. congruence.
      * intros t' c2 [[<- <-]|[Hne Hts]]%lookup_insert_Some; [done|].
        apply knows_free. destruct (holds c2) eqn:H2; [|done]. apply (Ho t' c2 Hts) in H2. congruence.
    + destruct (thread_step_free d t ch s c s' c' Hc Hstep) as (Hm & Htq & Hkn & Hown).
      assert (cl_owner s ≠ Some t) as Hot by (intros H; apply (Ho t c Ht) in H; congruence).
      split.
      * intros t' c2 [[<- <-]|[Hne Hts]]%lookup_insert_Some.
        -- destruct Hown as [[-> ->]|[-> [_ ->]]]; [|done]. split; [done|congruence].
        -- rewrite (Ho t' c2 Hts). destruct Hown as [[_ ->]|[_ [Hn ->]]]; [done|].
           rewrite Hn. split; [done|congruence].
      * intros t' Ht'. apply lookup_insert_is_Some'. destruct Hown as [[_ Heq]|[_ [Hn Heq]]].
        -- right. apply Hl. congruence.
        -- left. congruence.
      * intros t' c2 [[<- <-]|[Hne Hts]]%lookup_insert_Some; [done|].
        apply (knows_same s); [done..|]. by eapply Hk.
  - apply exclusive_insert; [apply exclusive_insert|..]; try done.
    + intros Hot. by apply (Ho t _ Ht) in Hot.
    + intros Hot. apply Hl in Hot as [c Hc]. congruence.
  - apply exclusive_insert; [apply exclusive_insert|..]; try done.
    + intros Hot. by apply (Ho t _ Ht) in Hot.
    + by destruct r.
    + intros Hot. by apply (Ho m _ Hm) in Hot.
  - split; rewrite ?(env_owner _ _ He); [done..|]. intros t c Ht. eapply knows_env; [done|by eapply Hk].
Qed.

(** ** The monitors *)

(** The command a goroutine has started and whose monitor is still to come, and
    the command that a monitor has not yet reported. *)
Definition unwatched (c : pc) : option nat :=
  match c with
  | MOffer _ _ p | MRecord _ _ p | MSpawn _ _ p | Unlocking (MSpawn _ _ p) => Some p
  | _ => None
  end.
Definition watching (c : pc) : option nat :=
  match c with WWait _ _ p | WSend _ _ p _ => Some p | _ => None end.
Definition busy (c : pc) : option nat :=
  match unwatched c with Some p => Some p | None => watching c end.

(** Someone takes the result of command [p], or its channel or context ends the wait. *)
Definition awaited (s : client) (ts : threads) (p : nat) : Prop :=
  (∃ t mp, ts !! t = Some (MWait mp p)) ∨ p ∈ cl_closed s ∨ p ∈ cl_ctx s.

Record watched (s : client) (ts : threads) : Prop := {
  wt_fresh t c p : ts !! t = Some c → busy c = Some p → p < cl_next s;
  wt_unique t1 t2 c1 c2 p :
    ts !! t1 = Some c1 → ts !! t2 = Some c2 → busy c1 = Some p → busy c2 = Some p → t1 = t2;
  wt_awaited t c p : ts !! t = Some c → watching c = Some p → awaited s ts p }.

Lemma thread_step_busy d t ch s c s' c' :
  knows s c → thread_step d t ch s c = Some (s', c') →
  cl_closed s' = cl_closed s ∧ cl_ctx s' = cl_ctx s ∧ cl_next s ≤ cl_next s' ∧
  (∀ p, watching c' = Some p → watching c = Some p) ∧
  (∀ p, busy c' = Some p → busy c = Some p ∨ (p = cl_next s ∧ cl_next s' = S p)) ∧
  (∀ mp p, c = MWait mp p → p ∈ cl_closed s ∨ p ∈ cl_ctx s).
Proof.
  destruct s as [o m tq ex cl cx xd nx], c, ch; simpl; unfold acquire, upd_tq, upd_mounted, set_owner, start_cmd;
    simpl; intros Hk H; repeat (case_match; simplify_eq/=); simplify_eq/=; try naive_solver lia.
  - split_and!; try done; [lia|]. intros p [= <-]. by right.
  - split_and!; try done; destruct c'; try done; naive_solver.
Qed.

Lemma awaited_mono s s' ts p :
  cl_closed s ⊆ cl_closed s' → cl_ctx s ⊆ cl_ctx s' → awaited s ts p → awaited s' ts p.
Proof. unfold awaited. set_solver. Qed.

(** The caller of [Mount] stops waiting. *)
Lemma awaited_insert s ts t c p :
  (∀ mp, ts !! t = Some (MWait mp p) → p ∈ cl_closed s ∨ p ∈ cl_ctx s) →
  awaited s ts p → awaited s (<[t := c]> ts) p.
Proof.
  intros Ht [(t' & mp & H)|H]; [|by right]. destruct (decide (t' = t)) as [->|Hne].
  - right. by eapply Ht.
  - left. exists t', mp. by rewrite lookup_insert_ne.
Qed.

Lemma watching_busy c p : watching c = Some p → busy c = Some p.
Proof. by destruct c. Qed.

Lemma env_watched s s' ts : env_step s s' → watched s ts → watched s' ts.
Proof.
  intros He [Hf Hu Ha].
  assert (cl_next s' = cl_next s ∧ cl_closed s ⊆ cl_closed s' ∧ cl_ctx s ⊆ cl_ctx s') as (Hn & Hc & Hx).
  { destruct He; simpl; split_and!; set_solver. }
  split; [by rewrite Hn|done|]. intros t c p Ht Hw. eapply awaited_mono; [done..|]. by eapply Ha.
Qed.

Lemma thread_watched d t ch s ts c s' c' :
  ts !! t = Some c → knows s c → thread_step d t ch s c = Some (s', c') →
  watched s ts → watched s' (<[t := c']> ts).
Proof.
  intros Ht Hk Hstep [Hf Hu Ha].
  destruct (thread_step_busy d t ch s c s' c' Hk Hstep) as (Hc & Hx & Hn & Hw & Hb & Hwait).
  split.
  - intros t1 c1 p [[<- <-]|[Hne H1]]%lookup_insert_Some H.
    + destruct (Hb p H) as [Hb'|[-> ->]]; [|lia]. specialize (Hf t c p Ht Hb'). lia.
    + specialize (Hf t1 c1 p H1 H). lia.
  - intros t1 t2 c1 c2 p [[<- <-]|[Hne1 H1]]%lookup_insert_Some [[<- <-]|[Hne2 H2]]%lookup_insert_Some Hb1 Hb2.
    + done.
    + destruct (Hb p Hb1) as [Hb'|[-> Hs]]; [by eapply Hu|]. specialize (Hf t2 c2 _ H2 Hb2). lia.
    + destruct (Hb p Hb2) as [Hb'|[-> Hs]]; [by eapply Hu|]. specialize (Hf t1 c1 _ H1 Hb1). lia.
    + by eapply Hu.
  - intros t1 c1 p H1 Hw1. apply (awaited_mono s); [by rewrite Hc|by rewrite Hx|].
    apply awaited_insert; [intros mp Hmp; apply (Hwait mp); congruence|].
    apply lookup_insert_Some in H1 as [[<- <-]|[Hne H1]]; [by eapply Ha, Hw|by eapply Ha].
Qed.

Lemma go_watched s ts t m rp mp p :
  ts !! t = Some (MSpawn rp mp p) → ts !! m = None → watched s ts →
  watched s (<[m := WWait rp mp p]> (<[t := MWait mp p]> ts)).
Proof.
  intros Ht Hm [Hf Hu Ha].
  assert (∀ t1 c1 q, <[m := WWait rp mp p]> (<[t := MWait mp p]> ts) !! t1 = Some c1 → busy c1 = Some q →
            (t1 = m ∧ q = p) ∨ (t1 ≠ t ∧ ts !! t1 = Some c1)) as Hcase.
  { intros t1 c1 q [[<- <-]|[Hne [[<- <-]|[Hne' H1]]%lookup_insert_Some]]%lookup_insert_Some Hb.
    - left. split; [done|]. by injection Hb.
    - done.
    - by right. }
  split.
  - intros t1 c1 q H1 Hb. destruct (Hcase t1 c1 q H1 Hb) as [[_ ->]|[_ H]]; [by eapply Hf|by eapply Hf].
  - intros t1 t2 c1 c2 q H1 H2 Hb1 Hb2.
    destruct (Hcase t1 c1 q H1 Hb1) as [[-> ->]|[Hn1 H1']], (Hcase t2 c2 _ H2 Hb2) as [[-> Hq]|[Hn2 H2']].
    + done.
    + destruct Hn2. by eapply Hu.
    + subst q. destruct Hn1. by eapply Hu.
    + by eapply Hu.
  - intros t1 c1 q H1 Hw. assert (t ≠ m) as Htm by congruence.
    destruct (Hcase t1 c1 q H1 (watching_busy _ _ Hw)) as [[-> ->]|[Hn H]].
    + left. exists t, mp. rewrite lookup_insert_ne by done. by rewrite lookup_insert_eq.
    + apply awaited_insert; [|apply awaited_insert; [|by eapply Ha]]; intros mp' Hmp.
      * rewrite lookup_insert_ne in Hmp by done. congruence.
      * congruence.
Qed.

Lemma send_watched s ts t m mp rp mp' p r c :
  ts !! t = Some (MWait mp p) → ts !! m = Some (WSend rp mp' p r) → busy c = None → watching c = None →
  watched s ts → watched s (<[m := WLock mp' None]> (<[t := c]> ts)).
Proof.
  intros Ht Hm Hbc Hwc [Hf Hu Ha].
  assert (∀ t1 c1 q, <[m := WLock mp' None]> (<[t := c]> ts) !! t1 = Some c1 → busy c1 = Some q →
            t1 ≠ m ∧ ts !! t1 = Some c1) as Hcase.
  { intros t1 c1 q [[<- <-]|[Hne [[<- <-]|[Hne' H1]]%lookup_insert_Some]]%lookup_insert_Some Hb;
      [done|congruence|done]. }
  split.
  - intros t1 c1 q H1 Hb. destruct (Hcase t1 c1 q H1 Hb). by eapply Hf.
  - intros t1 t2 c1 c2 q H1 H2 Hb1 Hb2.
    destruct (Hcase t1 c1 q H1 Hb1), (Hcase t2 c2 q H2 Hb2). by eapply Hu.
  - intros t1 c1 q H1 Hw. destruct (Hcase t1 c1 q H1 (watching_busy _ _ Hw)) as [Hne H].
    assert (q ≠ p) as Hq by (intros ->; apply Hne; eapply Hu; [exact H|exact Hm|by apply watching_busy|done]).
    apply awaited_insert; [|apply awaited_insert; [|by eapply Ha]]; intros mp2 Hmp.
    + rewrite lookup_insert_ne in Hmp by congruence. congruence.
    + congruence.
Qed.

Lemma watched_step d s ts s' ts' :
  cstep d (s, ts) (s', ts') → exclusive s ts → watched s ts → watched s' ts'.
Proof.
  intros Hs Hex Hw.
  inversion Hs as [t ch ? ? c ? c' Ht Hstep|t m ? ? rp mp p Ht Hm|t m ? ? mp rp mp' p r Ht Hm|? ? ? He]; subst.
  - eapply thread_watched; [done| |done|done]. by eapply ex_knows.
  - by apply go_watched.
  - eapply send_watched; [done..| | |done]; by destruct r.
  - by eapply env_watched.
Qed.

Lemma reachable_inv d s0 s : calls s0 → rtc (cstep d) s0 s → exclusive s.1 s.2 ∧ watched s.1 s.2.
Proof.
  intros [H0 Hc] Hr. revert s Hr. apply (rtc_ind_r (λ s, exclusive s.1 s.2 ∧ watched s.1 s.2)).
  - rewrite H0. split; split; simpl.
    + intros t c Ht. by destruct (Hc t c Ht) as [(? & ? & ->)|[? ->]].
    + done.
    + intros t c Ht. by destruct (Hc t c Ht) as [(? & ? & ->)|[? ->]].
    + intros t c p Ht. by destruct (Hc t c Ht) as [(? & ? & ->)|[? ->]].
    + intros t1 t2 c1 c2 p Ht. by destruct (Hc t1 c1 Ht) as [(? & ? & ->)|[? ->]].
    + intros t c p Ht. by destruct (Hc t c Ht) as [(? & ? & ->)|[? ->]].
  - intros [s1 ts1] [s2 ts2] _ Hs [H1 H2]. split; [by eapply exclusive_step|by eapply watched_step].
Qed.

(** ** Properties *)

(** C24: However calls, monitors, timers and commands are interleaved, at most one
    goroutine is between [Lock] and [Unlock], and a mount command is started
    only for a mount point that is not recorded and has no running timer. *)
Theorem client_mutex d s0 s :
  calls s0 → rtc (cstep d) s0 s →
  (∀ t1 t2 c1 c2, s.2 !! t1 = Some c1 → s.2 !! t2 = Some c2 → holds c1 = true → holds c2 = true → t1 = t2) ∧
  (∀ t rp mp, s.2 !! t = Some (MStart rp mp) →
    cl_owner s.1 = Some t ∧ cl_mounted s.1 !! mp = None ∧ cl_tq s.1 !! mp = None).
Proof.
  intros H0 Hr. destruct (reachable_inv d s0 s H0 Hr) as [[Ho Hl Hk] _]. split.
  - intros t1 t2 c1 c2 H1 H2 Hc1 Hc2. apply (Ho t1 c1 H1) in Hc1. apply (Ho t2 c2 H2) in Hc2. congruence.
  - intros t rp mp Ht. split; [by apply (Ho t _ Ht)|]. apply (Hk t _ Ht).
Qed.

(** No monitor is left behind: when a mount command has exited, one of the
    branches of its monitor's [select] can be taken. *)
Theorem monitor_not_stuck d s0 s m rp mp p r :
  calls s0 → rtc (cstep d) s0 s → s.2 !! m = Some (WSend rp mp p r) →
  ∃ s' report, cstep d s s' ∧ s'.2 !! m = Some (WLock mp report).
Proof.
  intros H0 Hr Hm. destruct (reachable_inv d s0 s H0 Hr) as [_ [_ _ Ha]]. destruct s as [s ts]. simpl in *.
  destruct (Ha m _ p Hm eq_refl) as [(t & mp' & Ht)|[Hp|Hp]].
  - eexists _, None. split; [by eapply cstep_send|]. simpl. by rewrite lookup_insert_eq.
  - eexists (_, _), _. split; [eapply (cstep_thread d m PickChan); [done|]; simpl; by rewrite decide_True|].
    simpl. by rewrite lookup_insert_eq.
  - eexists (_, _), _. split; [eapply (cstep_thread d m PickCtx); [done|]; simpl; by rewrite decide_True|].
    simpl. by rewrite lookup_insert_eq.
Qed.







(** ** Schedules

    An executable form of some steps, to run a given interleaving. *)

Inductive event :=
| Run (t : nat) (ch : choice)
| Go (t m : nat)
| TimerExpires (mp : string)
| CloseCh (p : nat)
| CommandExits (p : nat) (r : option error).

Definition fire (d : Driver) (ev : event) (st : client * threads) : option (client * threads) :=
  let '(s, ts) := st in
  match ev with
  | Run t ch => c ← ts !! t; '(s', c') ← thread_step d t ch s c; Some (s', <[t := c']> ts)
  | Go t m =>
      match ts !! t, ts !! m with
      | Some (MSpawn rp mp p), None => Some (s, <[m := WWait rp mp p]> (<[t := MWait mp p]> ts))
      | _, _ => None
      end
  | TimerExpires mp =>
      p ← cl_tq s !! mp;
      Some (mkClient (cl_owner s) (cl_mounted s) (delete mp (cl_tq s)) ({[p]} ∪ cl_expired s)
              (cl_closed s) (cl_ctx s) (cl_exited s) (cl_next s), ts)
  | CloseCh p =>
      if decide (p ∈ cl_expired s) then
        Some (mkClient (cl_owner s) (cl_mounted s) (cl_tq s) (cl_expired s ∖ {[p]})
                ({[p]} ∪ cl_closed s) (cl_ctx s) (cl_exited s) (cl_next s), ts)
      else None
  | CommandExits p r =>
      if decide (p < cl_next s ∧ cl_exited s !! p = None) then
        Some (mkClient (cl_owner s) (cl_mounted s) (cl_tq s) (cl_expired s) (cl_closed s) (cl_ctx s)
                (<[p := r]> (cl_exited s)) (cl_next s), ts)
      else None
  end.

Lemma fire_step d ev st st' : fire d ev st = Some st' → cstep d st st'.
Proof.
  destruct st as [s ts], ev as [t ch|t m|mp|p|p r]; simpl; intros H.
  - destruct (ts !! t) as [c|] eqn:Ht; [|done]. simpl in H.
    destruct (thread_step d t ch s c) as [[s' c']|] eqn:Hs; [|done]. simplify_eq/=. by eapply cstep_thread.
  - repeat case_match; simplify_eq. by eapply cstep_go.
  - destruct (cl_tq s !! mp) eqn:Hq; simplify_eq/=. by apply cstep_env, env_timer.
  - case_decide; simplify_eq. by apply cstep_env, routine.
  - case_decide as Hd; simplify_eq. apply cstep_env. by apply env_exit; apply Hd.
Qed.

Definition schedule (d : Driver) (evs : list event) (st : client * threads) : option (client * threads) :=
  foldl (λ o ev, o ≫= fire d ev) (Some st) evs.

Lemma schedule_snoc d evs ev st :
  schedule d (evs ++ [ev]) st = schedule d evs st ≫= fire d ev.
Proof. unfold schedule. by rewrite foldl_app. Qed.

Lemma schedule_steps d evs st st' : schedule d evs st = Some st' → rtc (cstep d) st st'.
Proof.
  revert st'. induction evs as [|ev evs IH] using rev_ind; intros st'; [by intros [= ->]|].
  rewrite schedule_snoc. destruct (schedule d evs st) as [st1|] eqn:H1; [|done]. simpl. intros H.
  eapply rtc_r; [by apply IH|]. by eapply fire_step.
Qed.

(** A mount, an unmount, a second mount and a second unmount of one directory. *)
Definition dir_driver : Driver := GeneralDriver "mount" ["$ARHAT_STORAGE_REMOTE_PATH"]%string false.
Definition two_mounts : client * threads :=
  (new_client, {[ 0 := MLock "srv" "/m"; 1 := ULock "/m"; 2 := MLock "srv" "/m"; 3 := ULock "/m" ]}).

(** A [Mount] of goroutine [t] that succeeds, [m] being its monitor and [p] its command. *)
Definition mount_succeeds (t m p : nat) : list event :=
  [Run t Continue; Run t Continue; Run t Continue; Run t (Answer None); Run t (Answer None);
   Run t Continue; Run t Continue; Go t m; TimerExpires "/m"; CloseCh p; Run t PickChan].
Definition unmount_first : list event :=
  [Run 1 Continue; Run 1 Continue; Run 1 Continue; Run 1 Continue; Run 1 (Answer None)].
Definition monitor_finishes (m : nat) : list event :=
  [Run m Continue; Run m PickChan; Run m Continue; Run m Continue; Run m Continue].

Definition late_monitor : list event :=
  mount_succeeds 0 4 0 ++ unmount_first ++ [CommandExits 0 None] ++ mount_succeeds 2 5 1 ++ monitor_finishes 4.
Definition second_unmount : list event := [Run 3 Continue; Run 3 Continue; Run 3 Continue].
Definition ending (evs : list event) : client * threads := default two_mounts (schedule dir_driver evs two_mounts).

Lemma schedule_nsteps d evs st st' : schedule d evs st = Some st' → nsteps (cstep d) (length evs) st st'.
Proof.
  revert st'. induction evs as [|ev evs IH] using rev_ind; intros st'; [intros [= ->]; constructor|].
  rewrite schedule_snoc. destruct (schedule d evs st) as [st1|] eqn:H1; [|done]. simpl. intros H.
  rewrite length_app. eapply nsteps_trans; [by apply IH|]. by eapply nsteps_once, fire_step.
Qed.

(** The monitor of an unmounted mount that is late forgets the mount that took
    its place: after [Mount], [Unmount] and [Mount] of one directory, all
    successful, the second command still runs and nobody unmounted it, but the
    table has no record of it, the monitor reports a failure, and the next
    [Unmount] returns success without running an unmount command. *)
Theorem late_monitor_forgets_mount :
  ∃ s s', rtc (cstep dir_driver) two_mounts s ∧
    s.2 !! 0 = Some (Return None) ∧ s.2 !! 1 = Some (Return None) ∧ s.2 !! 2 = Some (Return None) ∧
    s.2 !! 5 = Some (WWait "srv" "/m" 1) ∧ cl_exited s.1 !! 1 = None ∧
    s.2 !! 4 = Some (WDone "/m" (Some ("srv"%string, None))) ∧ s.2 !! 3 = Some (ULock "/m") ∧
    cl_mounted s.1 !! "/m"%string = None ∧
    nsteps (cstep dir_driver) 3 s s' ∧ s'.2 !! 3 = Some (Return None) ∧ cl_exited s'.1 !! 1 = None.
Proof.
  exists (ending late_monitor), (ending (late_monitor ++ second_unmount)).
  split; [apply (schedule_steps _ late_monitor); vm_compute; reflexivity|].
  do 8 (split; [vm_compute; reflexivity|]).
  split; [apply (schedule_nsteps _ second_unmount); vm_compute; reflexivity|].
  split; vm_compute; reflexivity.
Qed.

Lemma two_mounts_calls : calls two_mounts.
Proof.
  split; [done|]. apply map_Forall_to_list. vm_compute map_to_list.
  repeat (constructor; [first [by left; eexists _, _ | by right; eexists]|]). constructor.
Qed.

Lemma client_mutex_witness :
  let s := ending [Run 0 Continue; Run 0 Continue; Run 0 Continue] in
  cl_owner s.1 = Some 0 ∧ cl_mounted s.1 !! "/m"%string = None ∧ cl_tq s.1 !! "/m"%string = None.
Proof.
  intros s.
  destruct (client_mutex dir_driver two_mounts s two_mounts_calls) as [_ H].
  - apply (schedule_steps dir_driver [Run 0 Continue; Run 0 Continue; Run 0 Continue]). vm_compute. reflexivity.
  - apply (H 0 "srv"%string "/m"%string). vm_compute. reflexivity.
Defined.

Lemma monitor_not_stuck_witness :
  let evs := mount_succeeds 0 4 0 ++ [CommandExits 0 None; Run 4 Continue] in
  ∃ s' report, cstep dir_driver (ending evs) s' ∧ s'.2 !! 4 = Some (WLock "/m" report).
Proof.
  eapply (monitor_not_stuck dir_driver two_mounts _ 4 "srv" "/m" 0 None two_mounts_calls).
  - apply (schedule_steps dir_driver (mount_succeeds 0 4 0 ++ [CommandExits 0 None; Run 4 Continue])).
    vm_compute. reflexivity.
  - vm_compute. reflexivity.
Defined.

