(* ===== verification/TimeoutQueue.v ===== *)
(** The timeout queue: [arhat.dev/pkg/queue/timeout_queue.go].

    The queue keeps what waits for its time, ordered when its timer fires.  Its
    goroutines are a transition system: the one of the timer, which sorts and
    takes out what is due, the one that delivers it, and the caller, which looks
    up a key and then adds it, as [Client.Mount] does under its own mutex (so
    there is one caller at a time).  Every operation on the mutex or on a
    channel is a step of its own; what happens between [Lock] and [Unlock] on the
    data is one step.  The reader of the results closes the channels that it
    gets ([Client.routine]).

    The wall clock is part of the environment.  [back] tells whether it can be set
    back; between two readings it may stand still or jump ahead.  The program
    never forbids, removes or clears keys. *)

From stdpp Require Import base gmap strings list list_numbers sorting relations numbers.
From S2P Require Import Prelude.

Local Open Scope nat_scope.

(** ** The state *)

(** [TimeoutData]; the data is the channel of a mount, here a number. *)
Record item := mkItem { it_key : string; it_val : nat; it_at : Z }.

Inductive timer := TimerStopped | TimerRunning | TimerFired.
Inductive who := TimerRoutine | Caller.

Record queue := mkQueue {
  q_mu : option who;              (* the goroutine that holds [mu] *)
  q_now : Z;                      (* [time.Now().UTC().UnixNano()] *)
  q_stop : bool;                  (* [stop] is closed *)
  q_nextSort : Z;
  q_data : list item;
  q_index : gmap string nat;
  q_resetCh : list Z;             (* a buffer of one *)
  q_timer : timer;
  q_timeGot : bool;
  q_signaled : bool;              (* [expireSignaled], and [hasExpiredData] is closed *)
  q_expired : list item;          (* [expiredData] *)
  q_timeoutCh : list item;        (* a buffer of one *)
  q_taken : list item }.          (* what the reader got *)

Definition set_mu o q := mkQueue o (q_now q) (q_stop q) (q_nextSort q) (q_data q) (q_index q) (q_resetCh q)
  (q_timer q) (q_timeGot q) (q_signaled q) (q_expired q) (q_timeoutCh q) (q_taken q).
Definition set_now t q := mkQueue (q_mu q) t (q_stop q) (q_nextSort q) (q_data q) (q_index q) (q_resetCh q)
  (q_timer q) (q_timeGot q) (q_signaled q) (q_expired q) (q_timeoutCh q) (q_taken q).
Definition set_stop q := mkQueue (q_mu q) (q_now q) true (q_nextSort q) (q_data q) (q_index q) (q_resetCh q)
  (q_timer q) (q_timeGot q) (q_signaled q) (q_expired q) (q_timeoutCh q) (q_taken q).
Definition set_nextSort t q := mkQueue (q_mu q) (q_now q) (q_stop q) t (q_data q) (q_index q) (q_resetCh q)
  (q_timer q) (q_timeGot q) (q_signaled q) (q_expired q) (q_timeoutCh q) (q_taken q).
Definition set_data l m q := mkQueue (q_mu q) (q_now q) (q_stop q) (q_nextSort q) l m (q_resetCh q)
  (q_timer q) (q_timeGot q) (q_signaled q) (q_expired q) (q_timeoutCh q) (q_taken q).
Definition set_resetCh l q := mkQueue (q_mu q) (q_now q) (q_stop q) (q_nextSort q) (q_data q) (q_index q) l
  (q_timer q) (q_timeGot q) (q_signaled q) (q_expired q) (q_timeoutCh q) (q_taken q).
Definition set_timer t got q := mkQueue (q_mu q) (q_now q) (q_stop q) (q_nextSort q) (q_data q) (q_index q)
  (q_resetCh q) t got (q_signaled q) (q_expired q) (q_timeoutCh q) (q_taken q).
Definition set_expired b l q := mkQueue (q_mu q) (q_now q) (q_stop q) (q_nextSort q) (q_data q) (q_index q)
  (q_resetCh q) (q_timer q) (q_timeGot q) b l (q_timeoutCh q) (q_taken q).
Definition set_out l taken q := mkQueue (q_mu q) (q_now q) (q_stop q) (q_nextSort q) (q_data q) (q_index q)
  (q_resetCh q) (q_timer q) (q_timeGot q) (q_signaled q) (q_expired q) l taken.

(** ** The goroutines *)

(** The timer: where [sort] goes on is [after], a reset that was taken from the
    channel or nothing; [n] items are due. *)
Inductive tpc :=
| TSelect
| TDrain (newWait : Z)
| TLock (after : option Z)
| TSort (after : option Z)
| TSend (after : option Z) (wait : Z) (n : nat)
| TSignal (after : option Z) (n : nat)
| TSpin (after : option Z) (n : nat)
| TUnlock (after : option Z)
| TReset (newWait : Z)
| TDone.

(** The delivery; [rest] is still to be sent. *)
Inductive dpc := DSelect | DSend (rest : list item) | DDone (rest : list item).

(** The caller. *)
Inductive cpc :=
| CIdle
| CFind (key : string)
| COffer (key : string) (val : nat)
| CLock (key : string) (val : nat) (at_ : Z)
| CAppend (key : string) (val : nat) (at_ : Z)
| CSend (wait : Z)
| CUnlock.

Inductive choice := Continue | PickStop | PickReset | PickTimer | Sorts (l : list item) | Key (key : string) | Val (val : nat).

Definition room {A} (ch : list A) : bool := match ch with [] => true | _ => false end.

Definition millisecond : Z := 1000000.

(** The items at the front whose time has come. *)
Fixpoint expired_count (now : Z) (l : list item) : nat :=
  match l with
  | [] => 0
  | x :: l => if (it_at x - now <? millisecond)%Z then S (expired_count now l) else 0
  end.

(** [for i, d := range q.data { q.index[d.Key] = i }] *)
Definition rebuild (l : list item) (m : gmap string nat) : gmap string nat :=
  foldl (λ m ix, <[it_key ix.2 := ix.1]> m) m (zip (seq 0 (length l)) l).

Definition acquire (w : who) (q : queue) : option queue :=
  match q_mu q with None => Some (set_mu (Some w) q) | Some _ => None end.

(** The second goroutine of [Start], with [sort].  What [sort.Sort] makes of the
    data is a choice ([sorts] below), its swaps keep the index. *)
Definition timer_step (ch : choice) (q : queue) (c : tpc) : option (queue * tpc) :=
  match c, ch with
  | TSelect, PickStop => if q_stop q then Some (set_timer TimerStopped (q_timeGot q) q, TDone) else None
  | TSelect, PickReset =>
      match q_resetCh q with
      | [] => None
      | newWait :: l =>
          match q_timer q with
          | TimerRunning => Some (set_timer TimerStopped (q_timeGot q) (set_resetCh l q), TReset newWait)
          | _ => Some (set_resetCh l q, if q_timeGot q then TReset newWait else TDrain newWait)
          end
      end
  | TSelect, PickTimer =>
      match q_timer q with
      | TimerFired => Some (set_timer TimerStopped true q, TLock None)
      | _ => None
      end
  | TDrain newWait, Continue =>
      match q_timer q with
      | TimerFired => Some (set_timer TimerStopped true q, TLock (Some newWait))
      | _ => None
      end
  | TLock after, Continue => q ← acquire TimerRoutine q; Some (q, TSort after)
  | TSort after, Sorts l =>
      match q_data q with
      | [] => Some (q, TUnlock after)
      | _ =>
          let n := expired_count (q_now q) l in
          let q := set_data l (rebuild l (q_index q)) q in
          match drop n l with
          | x :: _ => Some (set_nextSort (it_at x) q, TSend after (it_at x - q_now q)%Z n)
          | [] => Some (q, TSignal after n)
          end
      end
  | TSend after wait n, Continue =>
      if room (q_resetCh q) then Some (set_resetCh [wait] q, match n with O => TUnlock after | _ => TSignal after n end)
      else None
  | TSend after wait n, PickStop => if q_stop q then Some (q, TUnlock after) else None
  | TSignal after n, Continue => Some (q, if q_stop q then TUnlock after else TSpin after n)
  | TSpin after n, Continue =>
      if q_signaled q then None
      else
        let due := take n (q_data q) in
        let rest := drop n (q_data q) in
        let index := rebuild rest (foldr delete (q_index q) (it_key <$> due)) in
        Some (set_expired true due (set_data rest index q), TUnlock after)
  | TUnlock after, Continue => Some (set_mu None q, match after with Some w => TReset w | None => TSelect end)
  | TReset newWait, Continue => Some (set_timer TimerRunning false q, TSelect)
  | _, _ => None
  end.

(** The first goroutine of [Start]. *)
Definition deliver_step (ch : choice) (q : queue) (c : dpc) : option (queue * dpc) :=
  match c, ch with
  | DSelect, Continue => if q_signaled q then Some (q, DSend (q_expired q)) else None
  | DSelect, PickStop => if q_stop q then Some (q, DDone (q_expired q)) else None
  | DSend (d :: rest), Continue =>
      if room (q_timeoutCh q) then Some (set_out [d] (q_taken q) q, DSend rest) else None
  | DSend (d :: rest), PickStop => if q_stop q then Some (q, DDone (d :: rest)) else None
  | DSend [], Continue => Some (set_expired false [] q, DSelect)
  | _, _ => None
  end.

(** [Find], then [OfferWithDelay] if the key was not there. *)
Definition caller_step (wait : Z) (ch : choice) (q : queue) (c : cpc) : option (queue * cpc) :=
  match c, ch with
  | CIdle, Key key => Some (q, CFind key)
  | CFind key, Val val =>
      match q_mu q with
      | None => Some (q, match q_index q !! key with Some _ => CIdle | None => COffer key val end)
      | Some _ => None
      end
  | COffer key val, Continue => Some (q, CLock key val (q_now q + wait)%Z)
  | CLock key val at_, Continue => q ← acquire Caller q; Some (q, CAppend key val at_)
  | CAppend key val at_, Continue =>
      if q_stop q then Some (q, CUnlock)
      else
        let n := length (q_data q) in
        let q' := set_data (q_data q ++ [mkItem key val at_]) (<[key := n]> (q_index q)) q in
        if (n =? 0) || (at_ <? q_nextSort q)%Z then Some (set_nextSort at_ q', CSend (at_ - q_now q)%Z)
        else Some (q', CUnlock)
  | CSend wait, Continue => if room (q_resetCh q) then Some (set_resetCh [wait] q, CUnlock) else None
  | CSend _, PickStop => if q_stop q then Some (q, CUnlock) else None
  | CUnlock, Continue => Some (set_mu None q, CIdle)
  | _, _ => None
  end.

(** ** The system *)

Definition state : Type := queue * tpc * dpc * cpc.

(** What [sort.Sort] may leave, which is not stable. *)
Definition sorts (data l : list item) : Prop := l ≡ₚ data ∧ Sorted (λ a b, it_at a ≤ it_at b)%Z l.

Inductive qstep (back : bool) (wait : Z) : state → state → Prop :=
| q_timer_step ch q t d c q' t' :
    (∀ l, ch = Sorts l → sorts (q_data q) l) → timer_step ch q t = Some (q', t') →
    qstep back wait (q, t, d, c) (q', t', d, c)
| q_deliver_step ch q t d c q' d' :
    deliver_step ch q d = Some (q', d') → qstep back wait (q, t, d, c) (q', t, d', c)
| q_caller_step ch q t d c q' c' :
    caller_step wait ch q c = Some (q', c') → qstep back wait (q, t, d, c) (q', t, d, c')
| q_take q t d c x l :
    q_timeoutCh q = x :: l → qstep back wait (q, t, d, c) (set_out l (q_taken q ++ [x]) q, t, d, c)
| q_fire q t d c :
    q_timer q = TimerRunning → qstep back wait (q, t, d, c) (set_timer TimerFired (q_timeGot q) q, t, d, c)
| q_clock q t d c now :
    (back = true ∨ q_now q ≤ now)%Z → qstep back wait (q, t, d, c) (set_now now q, t, d, c)
| q_stopped q t d c : qstep back wait (q, t, d, c) (set_stop q, t, d, c).

(** [NewTimeoutQueue] and [Start]. *)
Definition started (now : Z) : state :=
  (mkQueue None now false 0 [] ∅ [] TimerStopped true false [] [] [], TSelect, DSelect, CIdle).
