(* ===== verification/Find.v ===== *)
(** The runtime object and the lookups by label of [pkg/runtime/container.go]
    (lines 49-107), with what a lookup returns. *)

From S2P Require Import Prelude Proto Labels World Libpod BaseRuntime Storage.
From stdpp Require Import base gmap strings list fin_maps numbers.

(** [libpodRuntime] (runtime.go).  The libpod, image, storage and network
    clients are the world; the storage driver is kept here. *)
Record libpodRuntime := mkRuntime {
  rt_ctx : Ctx;
  rt_base : BaseRuntime;
  rt_pauseImage : string;
  rt_pauseCommand : list string;
  rt_abbotSubCmd : string;
  rt_driver : Driver }.

Definition containerLabelFilterFunc (filters : strmap) (ctr : Container) : bool :=
  filterLabels filters (ctr_Labels ctr).
Definition podLabelFilterFunc (filters : strmap) (pod : Pod) : bool :=
  filterLabels filters (pod_Labels pod).

(** The container carries the labels of the filter. *)
Record ctr_matches (filters : strmap) (ctr : Container) : Prop := ctr_match {
  matches_eq : containerLabelFilterFunc filters ctr = true }.

(** The filters used by the lookups. *)
Definition pause_filter : strmap := {[ ContainerLabelPodContainerRole := ContainerRoleInfra ]}.
Definition container_filter (podUID container : string) : strmap :=
  {[ ContainerLabelPodUID := podUID; ContainerLabelPodContainer := container ]}.
Definition pod_filter (podUID : string) : strmap := {[ ContainerLabelPodUID := podUID ]}.

(** The container carries this pod UID and this container name. *)
Definition is_container (podUID name : string) (ctr : Container) : Prop :=
  get (ctr_Labels ctr) ContainerLabelPodUID = podUID ∧
  get (ctr_Labels ctr) ContainerLabelPodContainer = name.

Lemma container_filter_is podUID name ctr :
  ctr_matches (container_filter podUID name) ctr → is_container podUID name ctr.
Proof. intros [H]. split; eapply filterLabels_get; (exact H || done). Qed.

Lemma pod_filter_get uid p :
  podLabelFilterFunc (pod_filter uid) p = true → get (pod_Labels p) ContainerLabelPodUID = uid.
Proof.
  intros H. eapply filterLabels_get; [exact H|]. unfold pod_filter. by rewrite lookup_singleton_eq.
Qed.

(** A pod that carries the UID passes the filter of the UID. *)
Lemma pod_filter_carries uid p :
  pod_Labels p !! ContainerLabelPodUID = Some uid → podLabelFilterFunc (pod_filter uid) p = true.
Proof.
  intros Hl. unfold podLabelFilterFunc, pod_filter. apply filterLabels_true. split.
  - apply strmap_subseteq_size. by apply map_singleton_subseteq_l.
  - intros k v [<- <-]%lookup_singleton_Some. by apply get_Some.
Qed.

Section find.
Context {E : Type} `{!Env E}.
Notation M := (M (World E)).

Definition listContainersByLabels (labels : strmap) : M (list Container) :=
  GetContainers (containerLabelFilterFunc labels).

Definition listPauseContainers : M (list Container) := listContainersByLabels pause_filter.

Definition findContainerByLabels (labels : strmap) : M Container :=
  containers ← listContainersByLabels labels;
  match containers with
  | [] => fail ErrNotFound
  | c :: _ => mret c
  end.

Definition findAbbotContainer : M Container := findContainerByLabels AbbotMatchLabels.

Definition findContainer (podUID container : string) : M Container :=
  findContainerByLabels (container_filter podUID container).

Definition findPod (podUID : string) : M Pod :=
  pods ← Pods (podLabelFilterFunc (pod_filter podUID));
  match pods with
  | [] => fail ErrNotFound
  | [p] => mret p
  | _ => fail (Errorf "unexpected multiple pods for single pod uid")
  end.
End find.

Section frames.
Context {E : Type} `{!Env E} {R : relation (World E)} `{!QuietFrame R}.
Lemma keeps_findContainerByLabels filters : keeps R (findContainerByLabels filters).
Proof. unfold findContainerByLabels, listContainersByLabels. keeps_solve. Qed.
Lemma keeps_findContainer u c : keeps R (findContainer u c).
Proof. apply keeps_findContainerByLabels. Qed.
Lemma keeps_findAbbotContainer : keeps R findAbbotContainer.
Proof. apply keeps_findContainerByLabels. Qed.
Lemma keeps_listPauseContainers : keeps R listPauseContainers.
Proof. apply keeps_GetContainers. Qed.
Lemma keeps_findPod u : keeps R (findPod u).
Proof. unfold findPod. keeps_solve. Qed.
End frames.

#[export] Hint Resolve keeps_findContainer keeps_findAbbotContainer keeps_findContainerByLabels
  keeps_listPauseContainers keeps_findPod : keeps.

(** ** What a lookup returns *)

Section specs.
Context {E : Type} `{!Env E, !Store E, !LibpodLaws E}.
Notation W := (World E).

(** The one pod of the store that carries the UID. *)
Definition sole_pod (uid : string) (p : Pod) (w : W) : Prop :=
  p ∈ wpods w ∧ get (pod_Labels p) ContainerLabelPodUID = uid ∧
  ∀ q, q ∈ wpods w → pod_Labels q !! ContainerLabelPodUID = Some uid → q = p.

Lemma filtered_sole_pod uid p (w : W) :
  List.filter (podLabelFilterFunc (pod_filter uid)) (wpods w) = [p] → sole_pod uid p w.
Proof.
  intros Hf. assert (∀ q, q ∈ wpods w ∧ podLabelFilterFunc (pod_filter uid) q = true ↔ q = p) as H.
  { intros q. by rewrite <- elem_of_bfilter, Hf, list_elem_of_singleton. }
  destruct (H p) as [_ Hp]. destruct (Hp eq_refl) as [Hin Hm].
  split; [done|]. split; [by apply pod_filter_get|].
  intros q Hq Hl. apply H. split; [done|]. by apply pod_filter_carries.
Qed.

(** The answer of a label lookup over the containers [cs]. *)
Definition found_in (filters : strmap) (cs : list Container) (o : outcome Container) : Prop :=
  match o with
  | Ok c => c ∈ cs ∧ ctr_matches filters c
  | Err e => (e = ErrNotFound ∧ List.filter (containerLabelFilterFunc filters) cs = []) ∨
             (∃ d, e = ErrExt d)
  | _ => False
  end.

Lemma wp_findContainerByLabels filters (w : W) :
  wp (findContainerByLabels filters)
     (λ o w', same_store w w' ∧ found_in filters (wctrs w) o) w.
Proof.
  unfold findContainerByLabels, listContainersByLabels. apply wp_bind.
  eapply wp_mono; [|apply wp_GetContainers].
  intros [l|e|p|] w' [Hs Ho]; simpl; [|eauto|done|done]. subst l.
  destruct (List.filter _ (wctrs w)) as [|c l] eqn:Ef.
  - apply wp_fail. simpl. eauto.
  - apply wp_ret. simpl. split; [done|].
    assert (In c (List.filter (containerLabelFilterFunc filters) (wctrs w))) as Hin
      by (rewrite Ef; by left).
    apply filter_In in Hin as [Hin Hm]. split; [by apply list_elem_of_In|by constructor].
Qed.

(** A reliable engine answers every lookup: the container or [ErrNotFound]. *)
Lemma wp_findContainerByLabels_reliable (ok : E → Prop) `{!reliable ok} filters (w : W) :
  ok (w_env w) →
  wp (findContainerByLabels filters)
     (λ o w', (same_store w w' ∧ ok (w_env w')) ∧
        match o with
        | Ok c => c ∈ wctrs w ∧ ctr_matches filters c
        | Err e => e = ErrNotFound ∧ ∀ c, c ∈ wctrs w → ¬ ctr_matches filters c
        | _ => False
        end) w.
Proof.
  intros Hok. apply wp_and.
  { apply wp_and; [apply wp_keeps, keeps_findContainerByLabels|].
    by apply (keeps_findContainerByLabels (R := stays ok)). }
  destruct (reliable_AllContainers _ Hok) as [l Hl].
  eapply (wp_mono _ (λ o _, found_in filters (wctrs w) o ∧ ∀ d, o ≠ Err (ErrExt d))).
  { intros [c|e|p|] w' [Hf Hne]; simpl in *; try done.
    destruct Hf as [[-> Hnil]|[d ->]]; [|by destruct (Hne d)]. split; [done|].
    intros c Hc [Hm]. assert (c ∈ List.filter (containerLabelFilterFunc filters) (wctrs w)) as Hin
      by by apply elem_of_bfilter. rewrite Hnil in Hin. by apply not_elem_of_nil in Hin. }
  apply wp_and; [eapply wp_mono; [|apply wp_findContainerByLabels]; by intros o w' [_ ?]|].
  unfold findContainerByLabels, listContainersByLabels, GetContainers, invoke.
  apply wp_bind, wp_bind, wp_bind, wp_perform. intros w' _ _ _ _ _. rewrite Hl. simpl.
  apply wp_ret, wp_ret. simpl.
  destruct (List.filter _ l); [by apply wp_fail|by apply wp_ret].
Qed.

Lemma wp_findPod uid (w : W) :
  wp (findPod uid) (λ o w', same_store w w' ∧
    match o with
    | Ok p => List.filter (podLabelFilterFunc (pod_filter uid)) (wpods w) = [p]
    | Err e => (e = ErrNotFound ∧
                List.filter (podLabelFilterFunc (pod_filter uid)) (wpods w) = []) ∨
               e ≠ ErrNotFound ∧ errors_Is e ErrNotFound = false
    | _ => False
    end) w.
Proof.
  unfold findPod. apply wp_bind. eapply wp_mono; [|apply wp_Pods].
  intros [l|e|p|] w' [Hs Ho]; simpl; [|split; [done|]; right; by destruct Ho as [d ->]|done|done].
  subst l. destruct (List.filter _ (wpods w)) as [|p [|q l]] eqn:Ef;
    [apply wp_fail|apply wp_ret|apply wp_fail]; simpl; auto.
Qed.

End specs.

Section returns.
Context {E : Type} `{!Env E}.
Lemma returns_findContainerByLabels f : returns (findContainerByLabels (E := E) f).
Proof. unfold findContainerByLabels, listContainersByLabels. returns_solve. Qed.
#[local] Hint Resolve returns_findContainerByLabels : returns.
Lemma returns_findContainer u c : returns (findContainer (E := E) u c).
Proof. apply returns_findContainerByLabels. Qed.
Lemma returns_findAbbotContainer : returns (findAbbotContainer (E := E)).
Proof. apply returns_findContainerByLabels. Qed.
Lemma returns_listPauseContainers : returns (listPauseContainers (E := E)).
Proof. apply returns_GetContainers. Qed.
Lemma returns_findPod u : returns (findPod (E := E) u).
Proof. unfold findPod. returns_solve. Qed.
End returns.

#[export] Hint Resolve returns_findContainerByLabels returns_findContainer
  returns_findAbbotContainer returns_listPauseContainers returns_findPod : returns.
