(* ===== verification/Network.v ===== *)
(** Execution in containers and the pod network client:
    [pkg/runtime/translate.go] (streams, hooks), [container.go]
    (execInContainer), [runtime.go] (handleAbbotExec) and
    [runtimeutil/networkutil/client.go].

    An exec runs in a goroutine that reports over a channel; the caller waits
    in a [select] on that channel and on its context.  The model runs the exec
    at the point of the call; the two selects ask the environment which ready
    case is taken. *)

From S2P Require Import Prelude Proto Labels World Libpod BaseRuntime Storage Find.
From stdpp Require Import base gmap strings pretty list fin_maps numbers.

(** ** resolv.conf (the rendered template of client.go) *)

Definition nl : string := String (Ascii.ascii_of_nat 10) "".

Definition concat_map (f : string → string) (l : list string) : string :=
  String.concat "" (f <$> l).

Definition CreateResolvConf (nameservers searches options : list string) : string :=
  let nameservers := match nameservers with [] => ["::1"; "127.0.0.1"]%string | _ => nameservers end in
  let searches := match searches with [] => ["."%string] | _ => searches end in
  "# resolv.conf generated by ext.arhat.dev/runtimeutil" +:+ nl +:+
  concat_map (λ s, "nameserver " +:+ s +:+ nl) nameservers +:+
  "search" +:+ concat_map (λ s, " " +:+ s) searches +:+ nl +:+
  (match options with
   | [] => ""
   | _ => "options" +:+ concat_map (λ s, " " +:+ s) options
   end) +:+ nl.

(** ** Streams (translate.go)

    A reader is the bytes it will deliver, [None] for nil; of a writer only
    whether it is nil matters, what it receives is in the result of the exec. *)
Record AttachStreams := mkAttachStreams {
  as_AttachOutput : bool;
  as_AttachError : bool;
  as_AttachInput : bool;
  as_Input : option string }.

Definition translateStreams (stdin : option string) (stdout stderr : bool) : AttachStreams :=
  {| as_AttachOutput := stdout;
     as_AttachError := stderr;
     as_AttachInput := bool_decide (is_Some stdin);
     as_Input := stdin |}.

(** The terminal size sent on the resize channel: [uint16] of two [uint32]. *)
Definition resize_size (cols rows : Z) : Z * Z := (cols mod 2 ^ 16, rows mod 2 ^ 16)%Z.

Section exec.
Context {E : Type} `{!Env E}.
Notation M := (M (World E)).

(** What arrives on the error channel before it is closed, and the bytes
    written to the two output streams. *)
Definition execInContainer (ctx : Ctx) (ctr : Container) (stdin : option string)
    (stdout stderr : bool) (command : list string) (tty : bool) (env : strmap) :
    M (option error * (string * string)) :=
  let streams := translateStreams stdin stdout stderr in
  let execConfig :=
    {| ec_Command := command;
       ec_Terminal := tty;
       ec_AttachStdin := as_AttachInput streams;
       ec_AttachStdout := as_AttachOutput streams;
       ec_AttachStderr := as_AttachError streams;
       ec_Environment := env |} in
  res ← perform (Ctr_Exec ctr execConfig (as_Input streams));
  let out := (ex_Stdout res, ex_Stderr res) in
  match ex_Err res with
  | None => mret (None, out)
  | Some d =>
      done ← select_done ctx;
      if done : bool then mret (None, out)
      else mret (Some (ErrMsg d (ex_ExitCode res)), out)
  end.

(** [select { case err := <-errCh: ... ; case <-ctx.Done(): return ctx.Err() }] *)
Definition wait_errCh (ctx : Ctx) (msg : option error) : M unit :=
  done ← select_done ctx;
  if done : bool then fail ErrCtx
  else match msg with
       | Some e => fail e
       | None => mret ()
       end.

Definition doHookAction (ctx : Ctx) (ctr : Container) (hook : ContainerAction) : M unit :=
  match ca_Action hook with
  | Some (ContainerAction_Exec_ cmd) =>
      match cmd with
      | [] => mret ()
      | _ =>
          r ← execInContainer ctx ctr None true true cmd false ∅;
          wait_errCh ctx r.1
      end
  | Some (ContainerAction_Http _ _ _) => mret ()
  | Some (ContainerAction_Socket_ _) => mret ()
  | None => mret ()
  end.

Definition handleAbbotExec (r : libpodRuntime) (ctx : Ctx) (env : strmap)
    (stdin : option string) (stdout stderr : bool) : M (string * string) :=
  ctr ← findAbbotContainer;
  status ← wrap "failed to get abbot contaienr status" (invoke (Ctr_State ctr));
  (if negb (bool_decide (status = ContainerStateRunning)) then
     wrap "failed to start abbot container" (invoke (Ctr_Start ctr true));;
     perform (Sleep 5);;
     wrap "failed to get abbot container status" (invoke (Ctr_State ctr));; mret ()
   else mret ());;
  let cmd := ctr_Command ctr ++ [rt_abbotSubCmd r] in
  res ← execInContainer ctx ctr None stdout stderr cmd false ∅;
  wait_errCh ctx res.1;;
  mret res.2.

(** ** The network client (networkutil/client.go) *)

Definition abbot_env (action : option string) (pid : Z) (containerID : string) : strmap :=
  let env : strmap :=
    {[ "ABBOT_REQ_CONTAINER_ID"%string := containerID;
       "ABBOT_REQ_CONTAINER_PID"%string := pretty pid ]} in
  match action with
  | Some a => <["ABBOT_REQ_ACTION"%string := a]> env
  | None => env
  end.

(** Each operation runs [execAbbot] and treats anything on stderr as failure. *)
Definition abbot_request (r : libpodRuntime) (ctx : Ctx) (env : strmap)
    (stdin : option string) (stdout : bool) : M string :=
  out ← handleAbbotExec r ctx env stdin stdout true;
  if bool_decide (out.2 = ""%string) then mret out.1 else fail (Errorf out.2).

Definition net_Do (r : libpodRuntime) (ctx : Ctx) (abbotReqData : string) (pid : Z)
    (containerID : string) : M string :=
  abbot_request r ctx (abbot_env None pid containerID) (Some abbotReqData) true.

Definition net_Restore (r : libpodRuntime) (ctx : Ctx) (pid : Z) (containerID : string) : M unit :=
  abbot_request r ctx (abbot_env (Some "container:restore"%string) pid containerID) None false;;
  mret ().

Definition net_Query (r : libpodRuntime) (ctx : Ctx) (pid : Z) (containerID : string) : M string :=
  abbot_request r ctx (abbot_env (Some "container:query"%string) pid containerID) None true.

Definition net_Delete (r : libpodRuntime) (ctx : Ctx) (pid : Z) (containerID : string) : M unit :=
  abbot_request r ctx (abbot_env (Some "container:delete"%string) pid containerID) None false;;
  mret ().
End exec.

Section frames.
Context {E : Type} `{!Env E} {R : relation (World E)} `{!QuietFrame R}.

Lemma keeps_execInContainer ctx c i o e cmd t env :
  keeps R (execInContainer (E := E) ctx c i o e cmd t env).
Proof. unfold execInContainer. keeps_solve. Qed.

Lemma keeps_wait_errCh ctx m : keeps R (wait_errCh (E := E) ctx m).
Proof. unfold wait_errCh. keeps_solve. Qed.

#[local] Hint Resolve keeps_execInContainer keeps_wait_errCh : keeps.

Lemma keeps_doHookAction ctx c h : keeps R (doHookAction (E := E) ctx c h).
Proof. unfold doHookAction. keeps_solve. Qed.

Lemma keeps_abbot_request r ctx env i o :
  keeps R (abbot_request (E := E) r ctx env i o).
Proof. unfold abbot_request, handleAbbotExec. keeps_solve. Qed.

#[local] Hint Resolve keeps_abbot_request : keeps.

Lemma keeps_net_Do r ctx d p i : keeps R (net_Do (E := E) r ctx d p i).
Proof. unfold net_Do. keeps_solve. Qed.
Lemma keeps_net_Restore r ctx p i : keeps R (net_Restore (E := E) r ctx p i).
Proof. unfold net_Restore. keeps_solve. Qed.
Lemma keeps_net_Query r ctx p i : keeps R (net_Query (E := E) r ctx p i).
Proof. unfold net_Query. keeps_solve. Qed.
Lemma keeps_net_Delete r ctx p i : keeps R (net_Delete (E := E) r ctx p i).
Proof. unfold net_Delete. keeps_solve. Qed.
End frames.

#[export] Hint Resolve keeps_execInContainer keeps_wait_errCh keeps_doHookAction
  keeps_abbot_request keeps_net_Do keeps_net_Restore keeps_net_Query keeps_net_Delete : keeps.

Section returns.
Context {E : Type} `{!Env E}.
Lemma returns_execInContainer ctx c i o e cmd t env :
  returns (execInContainer (E := E) ctx c i o e cmd t env).
Proof. unfold execInContainer. returns_solve. Qed.
Lemma returns_wait_errCh ctx m : returns (wait_errCh (E := E) ctx m).
Proof. unfold wait_errCh. returns_solve. Qed.
#[local] Hint Resolve returns_execInContainer returns_wait_errCh : returns.
Lemma returns_doHookAction ctx c h : returns (doHookAction (E := E) ctx c h).
Proof. unfold doHookAction. returns_solve. Qed.
Lemma returns_abbot_request r ctx env i o : returns (abbot_request (E := E) r ctx env i o).
Proof. unfold abbot_request, handleAbbotExec. returns_solve. Qed.
#[local] Hint Resolve returns_abbot_request : returns.
Lemma returns_net_Do r ctx d p i : returns (net_Do (E := E) r ctx d p i).
Proof. unfold net_Do. returns_solve. Qed.
Lemma returns_net_Restore r ctx p i : returns (net_Restore (E := E) r ctx p i).
Proof. unfold net_Restore. returns_solve. Qed.
Lemma returns_net_Query r ctx p i : returns (net_Query (E := E) r ctx p i).
Proof. unfold net_Query. returns_solve. Qed.
Lemma returns_net_Delete r ctx p i : returns (net_Delete (E := E) r ctx p i).
Proof. unfold net_Delete. returns_solve. Qed.
End returns.

#[export] Hint Resolve returns_execInContainer returns_wait_errCh returns_doHookAction
  returns_abbot_request returns_net_Do returns_net_Restore returns_net_Query
  returns_net_Delete : returns.

Section requests.
Context {E : Type} `{!Env E, !Store E, !LibpodLaws E}.
Notation W := (World E).

(** Whether the store holds an abbot container. *)
Definition has_abbot (cs : list Container) : Prop :=
  ∃ c, c ∈ cs ∧ ctr_matches AbbotMatchLabels c.

(** A network request that succeeds found an abbot container. *)
Lemma wp_abbot_request r ctx env i o (w : W) :
  wp (abbot_request r ctx env i o) (λ res w', same_store w w' ∧
    match res with
    | Ok _ => has_abbot (wctrs w)
    | Err _ => True
    | _ => False
    end) w.
Proof.
  apply wp_and; [apply wp_keeps; keeps_solve|].
  unfold abbot_request, handleAbbotExec. do 2 apply wp_bind.
  eapply wp_mono; [|apply wp_findContainerByLabels].
  intros [c|e|p|] w' [_ Hf]; simpl in Hf; simpl; [|done..].
  assert (has_abbot (wctrs w)) as Hab by (exists c; tauto).
  match goal with |- wp ?m _ _ => assert (returns m) as Hr by returns_solve end.
  pose proof (Hr w') as Hw. unfold wp.
  match goal with |- obind _ _ ?x.1 _ => destruct x as [[out|e|p|] w''] end; simpl in *; try done.
  case_bool_decide; simpl; done.
Qed.

Lemma wp_net_Delete r ctx pid id (w : W) :
  wp (net_Delete r ctx pid id) (λ res w', same_store w w' ∧
    match res with
    | Ok _ => has_abbot (wctrs w)
    | Err _ => True
    | _ => False
    end) w.
Proof.
  unfold net_Delete. apply wp_bind. eapply wp_mono; [|apply wp_abbot_request].
  by intros [] w' [? ?].
Qed.

Lemma wp_net_Do r ctx d pid id (w : W) :
  wp (net_Do r ctx d pid id) (λ res w', same_store w w' ∧
    match res with
    | Ok _ => has_abbot (wctrs w)
    | Err _ => True
    | _ => False
    end) w.
Proof. apply wp_abbot_request. Qed.
End requests.
