(* ===== verification/Translate.v ===== *)
(** Translation of libpod's answers into runtime messages:
    [pkg/runtime/translate.go] (lines 69-141). *)

From S2P Require Import Prelude Proto Labels World Libpod.
From stdpp Require Import base gmap strings list fin_maps numbers.

Definition RestartPolicyNo : string := "no".
Definition RestartPolicyAlways : string := "always".
Definition RestartPolicyOnFailure : string := "on-failure".

Definition translateRestartPolicy (policy : Z) : string :=
  if decide (policy = RESTART_ALWAYS) then RestartPolicyAlways
  else if decide (policy = RESTART_ON_FAILURE) then RestartPolicyOnFailure
  else if decide (policy = RESTART_NEVER) then RestartPolicyNo
  else RestartPolicyAlways.

(** The [Reason] of a container status: the first case of the switch that
    holds. *)
Definition status_reason (s : InspectState) : string :=
  if is_Restarting s then "Restarting"
  else if is_Dead s then "Dead"
  else if is_OOMKilled s then "OutOfMemoryKilled"
  else if is_Running s then "Running"
  else if is_Paused s then "Paused"
  else "".

Definition container_status (info : InspectContainerData) : ContainerStatus :=
  {| st_ContainerId := ins_ID info;
     st_ImageId := ins_Image info;
     st_CreatedAt := ins_Created info;
     st_StartedAt := is_StartedAt (ins_State info);
     st_FinishedAt := is_FinishedAt (ins_State info);
     st_ExitCode := is_ExitCode (ins_State info);
     st_RestartCount := ins_RestartCount info;
     st_Message := is_Error (ins_State info);
     st_Reason := status_reason (ins_State info) |}.

Section translate.
Context {E : Type} `{!Env E}.
Notation M := (M (World E)).

Definition translateContainerStatus (ctr : Container) : M ContainerStatus :=
  info ← invoke (Ctr_Inspect ctr);
  mret (container_status info).

(** Containers without a name or of another pod are skipped. *)
Definition reportable (podUID : string) (ctr : Container) : bool :=
  let labels := ctr_Labels ctr in
  negb (bool_decide (get labels ContainerLabelPodContainer = ""%string) ||
        negb (bool_decide (get labels ContainerLabelPodUID = podUID))).

Lemma reportable_true podUID ctr :
  reportable podUID ctr = true ↔
  get (ctr_Labels ctr) ContainerLabelPodContainer ≠ ""%string ∧
  get (ctr_Labels ctr) ContainerLabelPodUID = podUID.
Proof.
  unfold reportable. rewrite negb_true_iff, orb_false_iff, negb_false_iff.
  by rewrite bool_decide_eq_false, bool_decide_eq_true.
Qed.

Definition ctr_label_name (ctr : Container) : string :=
  get (ctr_Labels ctr) ContainerLabelPodContainer.

Definition translatePodStatus (abbotRespBytes : option string) (pauseCtr : Container)
    (containers : list Container) : M PodStatusMsg :=
  let podUID := get (ctr_Labels pauseCtr) ContainerLabelPodUID in
  ctrStatus ← fold_m (λ acc ctr,
    if negb (reportable podUID ctr) then mret acc
    else
      status ← translateContainerStatus ctr;
      mret (<[ctr_label_name ctr := Some status]> acc)) ∅ containers;
  mret (NewPodStatusMsg podUID abbotRespBytes ctrStatus).
End translate.

Section frames.
Context {E : Type} `{!Env E} {R : relation (World E)} `{!QuietFrame R}.
Lemma keeps_translatePodStatus b p l : keeps R (translatePodStatus b p l).
Proof. unfold translatePodStatus, translateContainerStatus. keeps_solve. Qed.
End frames.

#[export] Hint Resolve keeps_translatePodStatus : keeps.

Section specs.
Context {E : Type} `{!Env E, !Store E, !LibpodLaws E}.
Notation W := (World E).

(** The keys of a pod status are the names of the reportable containers. *)
Lemma wp_translatePodStatus b p l (w : W) :
  wp (translatePodStatus b p l) (λ o w', same_store w w' ∧
    match o with
    | Ok msg => psm_Uid msg = get (ctr_Labels p) ContainerLabelPodUID ∧ psm_Network msg = b ∧
                dom (psm_Containers msg) =
                list_to_set (ctr_label_name <$>
                  List.filter (reportable (get (ctr_Labels p) ContainerLabelPodUID)) l)
    | Err _ => True
    | _ => False
    end) w.
Proof.
  apply wp_and; [apply wp_keeps, (keeps_translatePodStatus (R := same_store))|].
  unfold translatePodStatus. apply wp_bind.
  set (uid := get (ctr_Labels p) ContainerLabelPodUID).
  eapply (wp_fold_m (λ rest acc _,
    dom acc ∪ list_to_set (ctr_label_name <$> List.filter (reportable uid) rest) =
    list_to_set (ctr_label_name <$> List.filter (reportable uid) l))).
  - by rewrite dom_empty_L, (left_id_L ∅ (∪)).
  - intros c rest acc w' HI. simpl in HI. destruct (reportable uid c); simpl in *.
    + unfold translateContainerStatus. apply wp_bind, wp_bind.
      eapply wp_mono; [|by apply wp_invoke_quiet].
      intros [info|e|pp|] w'' [_ Ho]; simpl; try done.
      apply wp_ret. simpl. apply wp_ret. simpl. rewrite <- HI, dom_insert_L. set_solver.
    + apply wp_ret. simpl. by rewrite <- HI.
  - intros acc w' HI. simpl in *. apply wp_ret. simpl. repeat split.
    rewrite <- HI. set_solver.
Qed.
End specs.

Section returns.
Context {E : Type} `{!Env E}.
Lemma returns_translatePodStatus b p l : returns (translatePodStatus (E := E) b p l).
Proof. unfold translatePodStatus, translateContainerStatus. returns_solve. Qed.
End returns.

#[export] Hint Resolve returns_translatePodStatus : returns.
