(* ===== verification/Container.v ===== *)
(** Containers of a pod: [pkg/runtime/container.go].

    [createPauseContainer] makes the pod and its pause (infra) container,
    [createContainer] a work container, [deleteContainer] and [deletePod]
    remove them, [handleStorageFailure] remounts a lost remote volume.  The
    long [createContainer] is cut along its blocks; the blocks are composed in
    the order of the source. *)

From S2P Require Import Prelude GoPath Proto Labels World Libpod BaseRuntime Storage Find Network Translate.
From stdpp Require Import base gmap strings pretty list fin_maps numbers.

Definition KubernetesLogging : string := "k8s-file".
Definition SIGTERM : Z := 15.

(** ** Blocks of [createContainer] that do not leave the program *)

Definition container_hostname (options : PodEnsureCmd) : string :=
  if pe_HostNetwork options then ""
  else if negb (bool_decide (pe_Hostname options = ""%string)) then pe_Hostname options
  else pe_Name options.

Definition health_check (spec : ContainerSpec) : option HealthConfig :=
  match cs_LivenessCheck spec with
  | Some probe =>
      match pr_Method probe with
      | Some m =>
          match ca_Action m with
          | Some (ContainerAction_Exec_ command) =>
              Some {| hc_Test := "CMD"%string :: command;
                      hc_Interval := pr_ProbeInterval probe;
                      hc_Timeout := pr_ProbeTimeout probe;
                      hc_StartPeriod := pr_InitialDelay probe;
                      hc_Retries := pr_FailureThreshold probe |}
          | Some (ContainerAction_Socket_ _) | Some (ContainerAction_Http _ _ _) | None => None
          end
      | None => None
      end
  | None => None
  end.

Definition user_and_group (spec : ContainerSpec) (imageConfig : ImageConfig) : string :=
  let s :=
    match cs_Security spec with
    | Some sec =>
        (if decide (sec_User sec = -1)%Z then "" else pretty (sec_User sec)) +:+
        (if decide (sec_Group sec = -1)%Z then "" else ":" +:+ pretty (sec_Group sec))
    | None => ""
    end in
  if decide (s = ""%string) then ic_User imageConfig else s.

Definition work_dir (spec : ContainerSpec) (imageConfig : ImageConfig) : string :=
  if decide (cs_WorkingDir spec = ""%string) then
    if decide (ic_WorkingDir imageConfig = ""%string) then "/" else ic_WorkingDir imageConfig
  else cs_WorkingDir spec.

(** The entrypoint and whether it is the default one. *)
Definition entrypoint_of (spec : ContainerSpec) (imageConfig : ImageConfig) : list string * bool :=
  match cs_Command spec with
  | [] => (match ic_Entrypoint imageConfig with
           | [] => ["/bin/sh"; "-c"]%string
           | e => e
           end, true)
  | c => (c, false)
  end.

Definition command_of (spec : ContainerSpec) (imageConfig : ImageConfig) : list string :=
  let '(entrypoint, useDefaultEntrypoint) := entrypoint_of spec imageConfig in
  match cs_Args spec with
  | [] => if useDefaultEntrypoint : bool then entrypoint ++ ic_Cmd imageConfig else entrypoint
  | args => entrypoint ++ args
  end.

Definition env_of (spec : ContainerSpec) (imageConfig : ImageConfig) : strmap :=
  map_assign (GetEnv (ic_Env imageConfig)) (cs_Envs spec).

(** [useInit] and [useSystemd], from [entrypoint[0]]. *)
Definition init_system (entry0 : string) : bool * bool :=
  if decide (entry0 = "/sbin/init" ∨ entry0 = "/usr/sbin/init")%string then (true, false)
  else if decide (filepath_Base entry0 = "systemd"%string) then (false, true)
  else (false, false).

Definition security_opts (spec : ContainerSpec) : list string :=
  match GetSelinuxOptions (cs_Security spec) with
  | None => []
  | Some opts =>
      let opt (key v : string) := if decide (v = ""%string) then [] else [key +:+ v] in
      opt "user:" (se_User opts) ++ opt "type:" (se_Type opts) ++
      opt "level:" (se_Level opts) ++ opt "role:" (se_Role opts)
  end.

(** The [createConfig] literal. *)
Definition container_config (options : PodEnsureCmd) (pod : Pod) (spec : ContainerSpec)
    (ns : strmap) (mounts : list OCIMount) (image : Image) (imageConfig : ImageConfig)
    (entry0 : string) : CreateConfig :=
  {| cc_Pod := pod_ID pod;
     cc_Tty := cs_Tty spec;
     cc_Env := env_of spec imageConfig;
     cc_LogDriver := KubernetesLogging;
     cc_Entrypoint := (entrypoint_of spec imageConfig).1;
     cc_Command := command_of spec imageConfig;
     cc_UserCommand := [];
     cc_HealthCheck := health_check spec;
     cc_Image := cs_Image spec;
     cc_ImageID := img_ID image;
     cc_WorkDir := work_dir spec imageConfig;
     cc_Labels := ContainerLabels options (cs_Name spec);
     cc_StopSignal := SIGTERM;
     cc_Name := GetContainerName (pe_Namespace options) (pe_Name options) (cs_Name spec);
     cc_Systemd := (init_system entry0).2;
     cc_Init := (init_system entry0).1;
     cc_Mounts := mounts;
     cc_RestartPolicy := translateRestartPolicy (pe_RestartPolicy options);
     cc_NetMode := get ns "net";
     cc_IpcMode := get ns "ipc";
     cc_PidMode := get ns "pid";
     cc_Uts := {| ut_UtsMode := get ns "uts";
                  ut_HostAdd := [];
                  ut_Hostname := container_hostname options |};
     cc_User := {| uc_HostUIDMapping := true;
                   uc_HostGIDMapping := true;
                   uc_UsernsMode := "host";
                   uc_User := user_and_group spec imageConfig |};
     cc_Security := {| sc_Privileged := GetPrivileged (cs_Security spec);
                       sc_CapAdd := GetCapsAdd (cs_Security spec);
                       sc_CapDrop := GetCapsDrop (cs_Security spec);
                       sc_ReadOnlyRootfs := GetReadOnlyRootfs (cs_Security spec);
                       sc_NoNewPrivs := negb (GetAllowNewPrivileges (cs_Security spec));
                       sc_SecurityOpts := security_opts spec;
                       sc_SeccompProfilePath := "unconfined";
                       sc_Sysctl := GetSysctls options |} |}.

(** The [config] literal of [createPauseContainer]. *)
Definition pause_config (r : libpodRuntime) (options : PodEnsureCmd) (pod : Pod)
    (image : Image) (imageConfig : ImageConfig) : CreateConfig :=
  {| cc_Pod := pod_ID pod;
     cc_Tty := false;
     cc_Env := GetEnv (ic_Env imageConfig);
     cc_LogDriver := KubernetesLogging;
     cc_Entrypoint := rt_pauseCommand r;
     cc_Command := [];
     cc_UserCommand := [];
     cc_HealthCheck := None;
     cc_Image := rt_pauseImage r;
     cc_ImageID := img_ID image;
     cc_WorkDir := if decide (ic_WorkingDir imageConfig = ""%string) then "/"
                   else ic_WorkingDir imageConfig;
     cc_Labels := ContainerLabels options ContainerNamePause;
     cc_StopSignal := SIGTERM;
     cc_Name := GetContainerName (pe_Namespace options) (pe_Name options) ContainerNamePause;
     cc_Systemd := false;
     cc_Init := false;
     cc_Mounts := [];
     cc_RestartPolicy := translateRestartPolicy RESTART_ALWAYS;
     cc_NetMode := if pe_HostNetwork options then "host" else "none";
     cc_IpcMode := if pe_HostIpc options then "host" else "shareable";
     cc_PidMode := if pe_HostPid options then "host" else "";
     cc_Uts := {| ut_UtsMode := ""; ut_HostAdd := []; ut_Hostname := pe_Name options |};
     cc_User := {| uc_HostUIDMapping := false; uc_HostGIDMapping := false;
                   uc_UsernsMode := "host"; uc_User := "" |};
     cc_Security := {| sc_Privileged := false; sc_CapAdd := []; sc_CapDrop := [];
                       sc_ReadOnlyRootfs := false; sc_NoNewPrivs := false; sc_SecurityOpts := [];
                       sc_SeccompProfilePath := "unconfined"; sc_Sysctl := ∅ |} |}.

(** The labels of the pod: those of the pause container less the two that
    name a container. *)
Definition pod_labels (options : PodEnsureCmd) : strmap :=
  delete ContainerLabelPodContainerRole
    (delete ContainerLabelPodContainer (ContainerLabels options ContainerNamePause)).

Definition pod_name (options : PodEnsureCmd) : string :=
  pe_Namespace options +:+ "." +:+ pe_Name options.

Section container.
Context {E : Type} `{!Env E}.
Notation M := (M (World E)).

(** image.go.  [Image_Inspect] answers [None] for nil data; a nil [Config] is
    replaced by the empty one. *)
Definition getImageConfig (image : Image) : M ImageConfig :=
  imageData ← wrap "failed to inspect image" (invoke (Image_Inspect image));
  let config := match imageData with None => img_Config image | Some d => d end in
  mret (default (mkImageConfig "" "" [] [] []) config).

(** [ContainerMountSpec.Ensure] (runtimepb/helper.go). *)
Definition Ensure (v : ContainerMountSpec) (dir : string) (dataMap : gmap string string) :
    M string :=
  let m := ms_FileMode v in
  let fileMode := if decide (0 < m ∧ m ≤ 511)%Z then m else 420%Z in
  if decide (ms_SubPath v = ""%string) then
    files ← range_map dataMap;
    for_each files (λ '(fileName, data), invoke (WriteFile (filepath_Join [dir; fileName]) data fileMode));;
    mret dir
  else
    match dataMap !! ms_SubPath v with
    | None => fail (Errorf "volume data not found")
    | Some data =>
        let dataFilePath := filepath_Join [dir; ms_SubPath v] in
        invoke (WriteFile dataFilePath data fileMode);; mret dataFilePath
    end.

(** One volume of the mount loop; [volMountSpec] is a pointer.  A decoded
    [NamedData] without entries has a nil map, so [dataMap != nil] is
    [dataMap ≠ ∅]. *)
Definition resolve_volume (r : libpodRuntime) (options : PodEnsureCmd)
    (volName : string) (volMountSpec : option ContainerMountSpec) : M OCIMount :=
  source ← (match GetHostPaths options !! volName with
            | None => mret ""%string
            | Some hostPath =>
                spec ← deref volMountSpec;
                source ← ResolveHostPathMountSource hostPath (pe_PodUid options) volName
                           (ms_Remote spec)
                           (PodRemoteVolumeDir (rt_base r)) (PodTmpfsVolumeDir (rt_base r));
                (if ms_Remote spec then Mount (rt_driver r) hostPath source else mret ());;
                mret source
            end);
  source ← (match GetVolumeData options !! volName with
            | None => mret source
            | Some volData =>
                if decide (GetDataMap volData = ∅) then mret source
                else
                  let dir := PodBindVolumeDir (rt_base r) (pe_PodUid options) volName in
                  invoke (MkdirAll dir);;
                  spec ← deref volMountSpec;
                  Ensure spec dir (GetDataMap volData)
            end);
  spec ← deref volMountSpec;
  mret {| mnt_Type := "bind";
          mnt_Source := source;
          mnt_Destination := filepath_Join [ms_MountPath spec; ms_SubPath spec];
          mnt_Options := ms_Options spec ++ (if ms_ReadOnly spec then ["ro"%string] else []) |}.

Definition volume_mounts (r : libpodRuntime) (options : PodEnsureCmd) (spec : ContainerSpec) :
    M (list OCIMount) :=
  vols ← range_map (cs_Mounts spec);
  map_m (λ '(volName, volMountSpec), resolve_volume r options volName volMountSpec) vols.

(** The generated resolv.conf and its mount; [options.Network] may be nil. *)
Definition resolv_conf_mount (r : libpodRuntime) (options : PodEnsureCmd) : M (list OCIMount) :=
  match pe_Network options with
  | None => crash NilDereference
  | Some netOpts =>
      match nw_Nameservers netOpts with
      | [] => mret []
      | _ =>
          let resolvConfFile := PodResolvConfFile (rt_base r) (pe_PodUid options) in
          invoke (MkdirAll (filepath_Dir resolvConfFile));;
          let data := CreateResolvConf (nw_Nameservers netOpts) (nw_DnsSearches netOpts)
                        (nw_DnsOptions netOpts) in
          invoke (WriteFile resolvConfFile data 288);;
          mret [{| mnt_Type := "bind"; mnt_Source := resolvConfFile;
                   mnt_Destination := "/etc/resolv.conf"; mnt_Options := [] |}]
      end
  end.

(** The end of [createContainer], where libpod makes the container. *)
Definition new_container (createConfig : CreateConfig) (pod : Pod) (stdin : bool) : M Container :=
  invoke (MakeContainerConfig createConfig pod);;
  invoke (NewContainer createConfig stdin).

Definition createContainer (r : libpodRuntime) (options : PodEnsureCmd) (pod : Pod)
    (spec : ContainerSpec) (ns : strmap) : M Container :=
  mounts ← volume_mounts r options spec;
  resolv ← resolv_conf_mount r options;
  image ← invoke (Image_NewFromLocal (cs_Image spec));
  imageConfig ← getImageConfig image;
  match (entrypoint_of spec imageConfig).1 with
  | [] => crash IndexOutOfRange
  | entry0 :: _ =>
      let createConfig :=
        container_config options pod spec ns (mounts ++ resolv) image imageConfig entry0 in
      new_container createConfig pod (cs_Stdin spec)
  end.

(** ** Deletion *)

(** [for _, ctr := range containers { if !IsHostNetwork(...) { return err } }] *)
Definition deny_abbot_deletion (labels : strmap) : M unit :=
  if IsAbbotPod labels then
    containers ← listPauseContainers;
    if List.existsb (λ c, negb (IsHostNetwork (ctr_Labels c))) containers then
      fail (Wrapf "unable to delete abbot container" ErrInvalidOperation)
    else mret ()
  else mret ().

(** The argument is a pointer: [DeletePod] passes nil when the lookup found
    nothing. *)
Definition deleteContainer (ctr : option Container) : M unit :=
  match ctr with
  | None => crash NilDereference
  | Some ctr =>
      let labels := ctr_Labels ctr in
      deny_abbot_deletion labels;;
      match labels !! ContainerLabelPodUID with
      | Some _ => mret ()
      | None =>
          match labels !! ContainerLabelPodContainer with
          | None => mret ()
          | Some name =>
              if decide (name = ContainerNamePause) then
                fail (Wrapf "pause container should not be delete as normal container"
                        ErrInvalidOperation)
              else
                ignore (invoke (Ctr_Stop ctr));;
                invoke (RemoveContainer ctr true true)
          end
      end
  end.

(** The network and abbot checks of [deletePod] for a pod with a UID. *)
Definition deletePod_checks (r : libpodRuntime) (ctx : Ctx) (podUID : string) : M unit :=
  pauseCtr ← findContainer podUID ContainerNamePause;
  ignore (invoke (Ctr_Sync pauseCtr));;
  let labels := ctr_Labels pauseCtr in
  (if negb (IsHostNetwork labels) then
     pid ← pid_of pauseCtr;
     net_Delete r ctx pid (ctr_ID pauseCtr)
   else mret ());;
  deny_abbot_deletion labels.

Definition deletePod (r : libpodRuntime) (ctx : Ctx) (pod : Pod) : M unit :=
  (match pod_Labels pod !! ContainerLabelPodUID with
   | Some podUID => deletePod_checks r ctx podUID
   | None => mret ()
   end);;
  invoke (RemovePod pod true true).

(** ** The pause container *)

(** [prevPod, _ := r.runtimeClient.LookupPod(podName)] and its deletion. *)
Definition delete_previous (r : libpodRuntime) (ctx : Ctx) (name : string) : M unit :=
  prev ← try (invoke (LookupPod name));
  match prev with
  | inr prevPod => deletePod r ctx prevPod
  | inl _ => mret ()
  end.

(** Cluster network needs an abbot container. *)
Definition require_abbot (options : PodEnsureCmd) : M unit :=
  if pe_HostNetwork options then mret ()
  else wrap "abbot container required but not found" findAbbotContainer;; mret ().

(** From the started pause container to the return: exit check, network. *)
Definition pause_started (r : libpodRuntime) (ctx : Ctx) (options : PodEnsureCmd)
    (pauseCtr : Container) : M (option string) :=
  invoke (Ctr_Start pauseCtr true);;
  x ← invoke (Ctr_ExitCode pauseCtr);
  if x.2 : bool then
    fail (Errorf ("pause container exited with code " +:+ pretty x.1))
  else if pe_HostNetwork options then mret None
  else
    pid ← pid_of pauseCtr;
    match pe_Network options with
    | None => crash NilDereference
    | Some netOpts =>
        resp ← net_Do r ctx (nw_AbbotRequestBytes netOpts) pid (ctr_ID pauseCtr);
        mret (Some resp)
    end.

(** The deferred deletions log their own error. *)
Definition cleanup_pod (r : libpodRuntime) (pod : Pod) : M unit := ignore (deletePod r TODO pod).

(** From the new pod to the return, under the two deferred deletions. *)
Definition pause_in_pod (r : libpodRuntime) (ctx : Ctx) (options : PodEnsureCmd) (pod : Pod)
    (image : Image) (imageConfig : ImageConfig) : M (Pod * Container * option string) :=
  with_defer
    (let config := pause_config r options pod image imageConfig in
     invoke (MakeContainerConfig config pod);;
     pauseCtr ← invoke (NewContainer config false);
     with_defer
       (abbotRespBytes ← pause_started r ctx options pauseCtr;
        mret (pod, pauseCtr, abbotRespBytes))
       (on_error (cleanup_pod r pod)))
    (on_error (cleanup_pod r pod)).

Definition createPauseContainer (r : libpodRuntime) (ctx : Ctx) (options : PodEnsureCmd) :
    M (Pod * Container * option string) :=
  delete_previous r ctx (pod_name options);;
  require_abbot options;;
  image ← invoke (Image_NewFromLocal (rt_pauseImage r));
  imageConfig ← getImageConfig image;
  pod ← invoke (NewPod (pod_name options) (pod_labels options));
  pause_in_pod r ctx options pod image imageConfig.

(** ** Remote volumes that stop *)

(** The callback of a mount: remount unless the pod is gone. *)
Definition handleStorageFailure (r : libpodRuntime) (podUID remotePath mountPoint : string)
    (err : option error) : M unit :=
  res ← try (findContainer podUID ContainerNamePause);
  match res with
  | inl e =>
      if errors_Is e ErrNotFound then mret ()
      else ignore (Mount (rt_driver r) remotePath mountPoint)
  | inr _ => ignore (Mount (rt_driver r) remotePath mountPoint)
  end.

(** [startPod] (unused by the program): start a pod, then run the post-start
    hooks; the map of hooks is a list in iteration order. *)
Definition startPod (ctx : Ctx) (pod : Pod)
    (containers : list (Container * option ContainerAction)) : M unit :=
  res ← perform (Pod_Start pod);
  match res with
  | Some (err, errMap) =>
      match errMap with
      | [] => fail (ErrExt err)
      | (_, e) :: errList =>
          fail (ErrExt (String.concat "; " (e :: (snd <$> errList))))
      end
  | None =>
      for_each containers (λ '(ctr, postStartHook),
        match postStartHook with
        | Some h => ignore (doHookAction ctx ctr h)
        | None => mret ()
        end)
  end.
End container.
