(* ===== verification/ContainerProofs.v ===== *)
(** What the container operations do to the pods and containers of the store,
    proved against the libpod interface: deletion is selective and guarded,
    creation adds exactly one container, and the pause container is created
    with its pod or the pod is taken back. *)

From S2P Require Import Prelude GoPath Proto Labels World Libpod Mem BaseRuntime Storage Find Network Translate Container.
From stdpp Require Import base gmap strings pretty list fin_maps numbers.

Section frames.
Context {E : Type} `{!Env E} {R : relation (World E)} `{!QuietFrame R}.

Lemma keeps_getImageConfig i : keeps R (getImageConfig (E := E) i).
Proof. unfold getImageConfig. keeps_solve. Qed.

Lemma keeps_resolve_volume r o v s : keeps R (resolve_volume (E := E) r o v s).
Proof. unfold resolve_volume, Ensure, for_each. keeps_solve. Qed.
#[local] Hint Resolve keeps_resolve_volume : keeps.

Lemma keeps_volume_mounts r o s : keeps R (volume_mounts (E := E) r o s).
Proof. unfold volume_mounts, map_m. keeps_solve. Qed.

Lemma keeps_resolv_conf_mount r o : keeps R (resolv_conf_mount (E := E) r o).
Proof. unfold resolv_conf_mount. keeps_solve. Qed.

Lemma keeps_deny_abbot_deletion ls : keeps R (deny_abbot_deletion (E := E) ls).
Proof. unfold deny_abbot_deletion. keeps_solve. Qed.

Lemma keeps_require_abbot o : keeps R (require_abbot (E := E) o).
Proof. unfold require_abbot. keeps_solve. Qed.

Lemma keeps_pause_started r ctx o c : keeps R (pause_started (E := E) r ctx o c).
Proof. unfold pause_started. keeps_solve. Qed.
End frames.

#[export] Hint Resolve keeps_getImageConfig keeps_resolve_volume keeps_volume_mounts keeps_resolv_conf_mount
  keeps_deny_abbot_deletion keeps_require_abbot keeps_pause_started : keeps.

Section returns.
Context {E : Type} `{!Env E}.
Lemma returns_getImageConfig i : returns (getImageConfig (E := E) i).
Proof. unfold getImageConfig. returns_solve. Qed.
Lemma never_panics_resolve_volume r o v spec :
  never_panics (resolve_volume (E := E) r o v (Some spec)).
Proof. unfold resolve_volume, Ensure, for_each, deref. returns_solve. Qed.
Lemma returns_resolv_conf_mount r o :
  is_Some (pe_Network o) → returns (resolv_conf_mount (E := E) r o).
Proof. intros [n Hn]. unfold resolv_conf_mount. rewrite Hn. returns_solve. Qed.
Lemma returns_deny_abbot_deletion ls : returns (deny_abbot_deletion (E := E) ls).
Proof. unfold deny_abbot_deletion. returns_solve. Qed.
#[local] Hint Resolve returns_deny_abbot_deletion : returns.
Lemma returns_deletePod r ctx p : returns (deletePod (E := E) r ctx p).
Proof. unfold deletePod, deletePod_checks. returns_solve. Qed.
Lemma returns_require_abbot o : returns (require_abbot (E := E) o).
Proof. unfold require_abbot. returns_solve. Qed.
Lemma returns_deleteContainer c : returns (deleteContainer (E := E) (Some c)).
Proof. unfold deleteContainer. returns_solve. Qed.
#[local] Hint Resolve returns_deletePod : returns.
Lemma returns_cleanup_pod r p : returns (cleanup_pod (E := E) r p).
Proof. unfold cleanup_pod. returns_solve. Qed.
Lemma returns_delete_previous r ctx n : returns (delete_previous (E := E) r ctx n).
Proof. unfold delete_previous. returns_solve. Qed.
End returns.

#[export] Hint Resolve returns_getImageConfig returns_deny_abbot_deletion returns_deletePod
  returns_require_abbot returns_deleteContainer returns_cleanup_pod returns_delete_previous : returns.

Section deletion.
Context {E : Type} `{!Env E, !Store E, !LibpodLaws E}.
Notation W := (World E).

(** Some pause container of the store uses the cluster network. *)
Definition has_cluster_pod (cs : list Container) : Prop :=
  ∃ c, c ∈ cs ∧ ctr_Labels c !! ContainerLabelPodContainerRole = Some ContainerRoleInfra ∧
       IsHostNetwork (ctr_Labels c) = false.

Lemma pause_filter_infra c :
  ctr_Labels c !! ContainerLabelPodContainerRole = Some ContainerRoleInfra →
  containerLabelFilterFunc pause_filter c = true.
Proof.
  intros Hl. unfold containerLabelFilterFunc, pause_filter. apply filterLabels_subseteq.
  - by intros k v [_ <-]%lookup_singleton_Some.
  - by apply map_singleton_subseteq_l.
Qed.

Lemma wp_deny_abbot_deletion ls (w : W) :
  wp (deny_abbot_deletion ls) (λ o w', same_store w w' ∧
    match o with
    | Ok _ => IsAbbotPod ls = true → ¬ has_cluster_pod (wctrs w)
    | Err _ => IsAbbotPod ls = true
    | _ => False
    end) w.
Proof.
  unfold deny_abbot_deletion. destruct (IsAbbotPod ls); [|by apply wp_ret].
  apply wp_bind. eapply wp_mono; [|apply wp_GetContainers].
  intros [l|e|p|] w' [Hs Ho]; simpl; [|done..]. subst l.
  destruct (List.existsb _ _) eqn:Ex; [by apply wp_fail|]. apply wp_ret.
  split; [done|]. intros _ (c & Hc & Hp & Hh).
  apply not_true_iff_false in Ex. apply Ex, List.existsb_exists. exists c.
  rewrite Hh. split; [|reflexivity]. apply filter_In.
  split; [by apply list_elem_of_In|by apply pause_filter_infra].
Qed.

(** What the checks of [deletePod] establish when they pass. *)
Definition deletable (cs : list Container) (uid : string) : Prop :=
  ∃ c, c ∈ cs ∧ ctr_matches (container_filter uid ContainerNamePause) c ∧
       (IsHostNetwork (ctr_Labels c) = false → has_abbot cs) ∧
       (IsAbbotPod (ctr_Labels c) = true → ¬ has_cluster_pod cs).

Lemma wp_deletePod_checks r ctx uid (w : W) :
  wp (deletePod_checks r ctx uid) (λ o w', same_store w w' ∧
    match o with
    | Ok _ => deletable (wctrs w) uid
    | Err _ => True
    | _ => False
    end) w.
Proof.
  unfold deletePod_checks. apply wp_bind. eapply wp_mono; [|apply wp_findContainerByLabels].
  intros [c|e|p|] w1 [Hs1 Hf]; simpl in Hf; simpl; [|done..]. destruct Hf as [Hin Hf].
  apply wp_bind, wp_ignore. eapply wp_mono; [|by apply wp_invoke_quiet].
  intros o1 w2 [Hs2 Ho1].
  assert (same_store w w2) as Hs by by etrans.
  assert (wctrs w2 = wctrs w) as Hc2 by apply Hs.
  cut (wp ((if negb (IsHostNetwork (ctr_Labels c))
            then pid ← pid_of c; net_Delete r ctx pid (ctr_ID c) else mret ());;
           deny_abbot_deletion (ctr_Labels c))
         (λ o w', same_store w w' ∧
            match o with Ok _ => deletable (wctrs w) uid | Err _ => True | _ => False end) w2).
  { destruct o1; simpl; tauto. }
  apply wp_bind.
  assert (wp (if negb (IsHostNetwork (ctr_Labels c))
              then pid ← pid_of c; net_Delete r ctx pid (ctr_ID c) else mret ())
            (λ o w', same_store w2 w' ∧
               match o with
               | Ok _ => IsHostNetwork (ctr_Labels c) = false → has_abbot (wctrs w)
               | Err _ => True | _ => False end) w2) as Hnet.
  { destruct (IsHostNetwork (ctr_Labels c)); simpl; [by apply wp_ret|].
    apply wp_bind. eapply wp_mono; [|apply wp_and; [apply wp_keeps, (keeps_pid_of (R := same_store))|apply wp_returns, returns_pid_of]].
    intros [pid|e|p|] w3 [Hs3 Hr]; simpl; try done.
    eapply wp_mono; [|apply wp_net_Delete]. intros o w4 [Hs4 Ho].
    split; [by etrans|]. destruct Hs3 as [Hc3 _]. rewrite Hc3, Hc2 in Ho. destruct o; tauto. }
  eapply wp_mono; [|exact Hnet]. intros [[]|e|p|] w3 [Hs3 Ho]; simpl; [|split; [by etrans|done]|done..].
  eapply wp_mono; [|apply wp_deny_abbot_deletion]. intros o w4 [Hs4 Ho4].
  split; [do 2 (etrans; [done|]); done|].
  destruct o; [|done..]. exists c.
  assert (wctrs w3 = wctrs w) as Hc3 by (destruct Hs3 as [-> _]; done). rewrite Hc3 in Ho4. auto.
Qed.

(** [deletePod]: only the pod and its containers can go; on success they are
    gone, and a pod with a UID passed the checks. *)
Lemma wp_deletePod r ctx pod (w : W) :
  wp (deletePod r ctx pod) (λ o w',
    store_shrinks (other_pod pod) (outside_pod pod) w w' ∧
    (∀ uid, pod_Labels pod !! ContainerLabelPodUID = Some uid →
       ¬ deletable (wctrs w) uid → same_store w w') ∧
    match o with
    | Ok _ => wpods w' = List.filter (other_pod pod) (wpods w) ∧
              wctrs w' = List.filter (outside_pod pod) (wctrs w) ∧
              (∀ uid, pod_Labels pod !! ContainerLabelPodUID = Some uid → deletable (wctrs w) uid)
    | Err _ => True
    | _ => False
    end) w.
Proof.
  unfold deletePod. apply wp_bind.
  assert (wp (match pod_Labels pod !! ContainerLabelPodUID with
              | Some podUID => deletePod_checks r ctx podUID | None => mret () end)
            (λ o w', same_store w w' ∧
               match o with
               | Ok _ => ∀ uid, pod_Labels pod !! ContainerLabelPodUID = Some uid → deletable (wctrs w) uid
               | Err _ => True | _ => False end) w) as Hchk.
  { destruct (pod_Labels pod !! ContainerLabelPodUID) as [uid|]; [|by apply wp_ret].
    eapply wp_mono; [|apply wp_deletePod_checks]. intros [] w' [? ?]; split; naive_solver. }
  eapply wp_mono; [|exact Hchk]. intros [[]|e|p|] w1 [Hs Ho]; simpl; [|..].
  - eapply wp_mono; [|apply wp_RemovePod]. intros o w2 [Hsh Ho2].
    pose proof Hs as [Hc Hp]. split; [etrans; [by apply same_store_shrinks|done]|].
    split; [naive_solver|]. destruct o; [|done..]. rewrite Hc, Hp in Ho2. naive_solver.
  - split; [by apply same_store_shrinks|]. done.
  - done.
  - done.
Qed.

Lemma shrinks_deletePod r ctx pod (w : W) :
  store_shrinks (other_pod pod) (outside_pod pod) w (deletePod r ctx pod w).2.
Proof. apply (wp_deletePod r ctx pod w). Qed.

(** [deleteContainer] of a container with a pod UID label changes nothing. *)
Lemma wp_deleteContainer_managed c (w : W) :
  is_Some (ctr_Labels c !! ContainerLabelPodUID) →
  wp (deleteContainer (Some c)) (λ o w', same_store w w' ∧ returns_outcome o) w.
Proof.
  intros [uid Hu]. apply wp_and; [|apply wp_returns, returns_deleteContainer].
  unfold deleteContainer. apply wp_bind. eapply wp_mono; [|apply wp_keeps, (keeps_deny_abbot_deletion (R := same_store))].
  intros [] w' Hs; simpl; try done. rewrite Hu. by apply wp_ret.
Qed.
End deletion.

(** ** Creation *)

Section creation.
Context {E : Type} `{!Env E, !Store E, !LibpodLaws E}.
Notation W := (World E).

Lemma entrypoint_nonempty spec ic : (entrypoint_of spec ic).1 ≠ [].
Proof. unfold entrypoint_of. by destruct (cs_Command spec), (ic_Entrypoint ic). Qed.

(** The container is new, in the given pod, with the given name and labels. *)
Definition created (pod : Pod) (name : string) (labels : strmap) (c : Container) (w w' : W) : Prop :=
  wpods w' = wpods w ∧ wctrs w' ≡ₚ c :: wctrs w ∧ ctr_ID c ∉ ctr_ID <$> wctrs w ∧
  ctr_Name c = name ∧ ctr_Labels c = labels ∧ ctr_PodID c = pod_ID pod ∧ ctr_Command c = [].

Lemma created_frame pod n ls c (w0 w w' : W) :
  same_store w0 w → created pod n ls c w w' → created pod n ls c w0 w'.
Proof. intros [H1 H2]. unfold created. by rewrite H1, H2. Qed.

Lemma wp_new_container pod cfg i (w : W) :
  cc_Pod cfg = pod_ID pod → cc_UserCommand cfg = [] →
  wp (invoke (MakeContainerConfig cfg pod);; invoke (NewContainer cfg i)) (λ o w',
    match o with
    | Ok c => created pod (cc_Name cfg) (cc_Labels cfg) c w w'
    | Err _ => same_store w w'
    | _ => False
    end) w.
Proof.
  intros Hp Hu. apply wp_bind. eapply wp_mono; [|by apply wp_invoke_quiet].
  intros [[]|e|p|] w1 [Hs Ho]; simpl; [|done..].
  eapply wp_mono; [|apply wp_NewContainer]. intros [c|e|p|] w2 [Hpods Ho2]; [|split; by destruct Hs; etrans|done..].
  eapply created_frame; [done|]. destruct Ho2 as (?&?&?&?&?&?). rewrite Hp, Hu in *. by repeat split.
Qed.

Lemma wp_resolv_conf_mount r options (w : W) :
  wp (resolv_conf_mount r options) (λ o w', same_store w w' ∧
    match o with
    | Panic _ => pe_Network options = None
    | Hang => False
    | _ => True
    end) w.
Proof.
  destruct (pe_Network options) as [net|] eqn:Hnet.
  - apply (wp_quiet false); [auto with keeps|apply returns_resolv_conf_mount; eauto|].
    by intros [] w' Hs Hr.
  - unfold resolv_conf_mount. rewrite Hnet. by apply wp_crash.
Qed.

(** A mount is resolved only when the request says how to mount it. *)
Lemma wp_resolve_volume r o v spec (w : W) :
  wp (resolve_volume r o v spec) (λ out w', same_store w w' ∧
    match out with Ok _ => spec ≠ None | Panic _ => spec = None | _ => True end) w.
Proof.
  apply wp_and; [apply wp_keeps; auto with keeps|]. destruct spec as [spec|].
  - eapply wp_mono; [|apply wp_returns, never_panics_resolve_volume]. by intros [].
  - unfold resolve_volume. apply wp_bind, (wp_mono _ (λ _ _, True)); [|exact I].
    intros [] w1 _; simpl; [|done..]. apply wp_bind, (wp_mono _ (λ _ _, True)); [|exact I].
    by intros [] w2 _.
Qed.

(** A mount of the container has no spec. *)
Definition mount_missing (spec : ContainerSpec) : Prop := ∃ v, cs_Mounts spec !! v = Some None.

(** A request that names its network and says how every mount is to be made. *)
Definition complete (o : PodEnsureCmd) : Prop :=
  is_Some (pe_Network o) ∧ ∀ spec, spec ∈ pe_Containers o → ¬ mount_missing spec.

Lemma wp_volume_mounts r o spec (w : W) :
  wp (volume_mounts r o spec) (λ out w', same_store w w' ∧
    match out with
    | Ok _ => ¬ mount_missing spec
    | Panic _ => mount_missing spec
    | _ => True
    end) w.
Proof.
  unfold volume_mounts. apply wp_bind. eapply wp_mono; [|apply wp_range_map].
  intros o1 w1 (Hs1 & vols & -> & Hvols). simpl.
  assert (∀ v s, (v, s) ∈ vols ↔ cs_Mounts spec !! v = Some s) as Hin.
  { intros v s. by rewrite Hvols, elem_of_map_to_list. }
  unfold map_m.
  eapply (wp_fold_m (λ rest _ w', same_store w w' ∧ ∃ before, vols = before ++ rest ∧ ∀ v, (v, None) ∉ before)).
  - split; [done|]. exists []. split; [done|]. intros v. apply not_elem_of_nil.
  - intros [v s] rest acc w2 (Hs2 & before & Heq & Hb). apply wp_bind.
    eapply wp_mono; [|apply wp_resolve_volume]. intros [m|e|p|] w3 [Hs3 Hr]; simpl; (assert (same_store w w3) by by etrans).
    + apply wp_ret. split; [done|]. exists (before ++ [(v, s)]). rewrite <- app_assoc. split; [done|].
      intros v' [Hv|Hv%list_elem_of_singleton]%elem_of_app; [by eapply Hb|]. by injection Hv as _ <-.
    + done.
    + split; [done|]. exists v. apply Hin. subst s. rewrite Heq. set_solver.
    + done.
  - intros acc w2 (Hs2 & before & Heq & Hb). split; [done|]. intros [v Hv%Hin].
    rewrite app_nil_r in Heq. subst. by eapply Hb.
Qed.

Lemma wp_createContainer r options pod spec ns (w : W) :
  wp (createContainer r options pod spec ns) (λ o w',
    match o with
    | Ok c => created pod (GetContainerName (pe_Namespace options) (pe_Name options) (cs_Name spec))
                (ContainerLabels options (cs_Name spec)) c w w'
    | Panic p => (pe_Network options = None ∨ mount_missing spec) ∧ same_store w w'
    | _ => same_store w w'
    end) w.
Proof.
  unfold createContainer, new_container. apply wp_bind.
  eapply wp_mono; [|apply wp_volume_mounts].
  intros [mounts|e|p|] w1 [Hs1 Hr1]; simpl; [|by auto..].
  apply wp_bind. eapply wp_mono; [|apply wp_resolv_conf_mount].
  intros [resolv|e|p|] w2 [Hs2 Hr2]; simpl; [|by etrans|split; [by left|by etrans]|done].
  apply wp_bind. eapply (wp_quiet false); [auto with keeps|auto with returns|].
  intros [image|e|p|] w3 Hs3 Hr3; simpl; [|by do 2 (etrans; [done|])|done..].
  apply wp_bind. eapply (wp_quiet false); [auto with keeps|auto with returns|].
  intros [ic|e|p|] w4 Hs4 Hr4; simpl; [|by do 3 (etrans; [done|])|done..].
  assert (same_store w w4) as Hs by by do 3 (etrans; [done|]).
  destruct (entrypoint_of spec ic).1 as [|entry0 rest] eqn:Ee; [by apply entrypoint_nonempty in Ee|].
  eapply wp_mono; [|by apply wp_new_container]. intros [c|e|p|] w5 H5; simpl in H5.
  - by eapply created_frame.
  - by etrans.
  - done.
  - by etrans.
Qed.
End creation.
