(* ===== verification/Pod.v ===== *)
(** Pod operations: [pkg/runtime/pod.go]. *)

From S2P Require Import Prelude GoPath Proto Labels World Libpod BaseRuntime Storage Find Network Translate Container.
From stdpp Require Import base gmap strings pretty list fin_maps numbers.

Section pod.
Context {E : Type} `{!Env E}.
Notation M := (M (World E)).

(** The deferred cleanup of the pod's data; its error is logged. *)
Definition cleanup_pod_data (r : libpodRuntime) (podUID : string) : M unit :=
  ignore (CleanupPodData
            (PodDir (rt_base r) podUID)
            (PodRemoteVolumeDir (rt_base r) podUID "")
            (PodTmpfsVolumeDir (rt_base r) podUID "")
            (λ path, Unmount (rt_driver r) path)).

(** ** EnsurePod *)

(** The existing pod with its pause container, or a new one. *)
Definition obtain_pod (r : libpodRuntime) (ctx : Ctx) (options : PodEnsureCmd) :
    M (Pod * Container * option string) :=
  res ← try (findPod (pe_PodUid options));
  match res with
  | inl e =>
      if negb (errors_Is e ErrNotFound) then fail (Wrapf "failed to look up pod" e)
      else wrap "failed to create pod for containers" (createPauseContainer r ctx options)
  | inr pod =>
      res ← try (findContainer (pe_PodUid options) ContainerNamePause);
      match res with
      | inl e => ignore (deletePod r TODO pod);; fail e
      | inr pauseCtr => mret (pod, pauseCtr, None)
      end
  end.

Definition start_pause (pauseCtr : Container) : M unit :=
  ignore (invoke (Ctr_Sync pauseCtr));;
  state ← wrap "failed to get pause container state" (invoke (Ctr_State pauseCtr));
  match state with
  | ContainerStateConfigured | ContainerStateCreated
  | ContainerStateStopped | ContainerStateExited =>
      wrap "failed to start pause container" (invoke (Ctr_Start pauseCtr false))
  | ContainerStatePaused =>
      wrap "failed to unpause pause container" (invoke (Ctr_Unpause pauseCtr))
  | ContainerStateUnknown => fail (Errorf "pause container state unknow")
  | ContainerStateRemoving => fail (Errorf "pause container is to be removed")
  | ContainerStateRunning => mret ()
  | ContainerStateOther _ =>
      fail (Errorf ("invalid container state " +:+ ContainerState_String state))
  end.

(** [ctrList] with [ctrPostStartHooks], index by index. *)
Definition create_containers (r : libpodRuntime) (options : PodEnsureCmd) (pod : Pod)
    (pauseCtr : Container) : M (list (Container * option ContainerAction)) :=
  map_m (λ spec,
    ctr ← wrap "failed to create container"
            (createContainer r options pod spec (SharedNamespaces (ctr_ID pauseCtr) options));
    mret (ctr, cs_HookPostStart spec)) (pe_Containers options).

Definition start_container (ctx : Ctx) (options : PodEnsureCmd)
    (ch : Container * option ContainerAction) : M unit :=
  wrap "failed to start container" (invoke (Ctr_Start ch.1 false));;
  (match ch.2 with
   | Some h => wrap "failed to execute post start hooks" (doHookAction ctx ch.1 h)
   | None => mret ()
   end);;
  if negb (pe_Wait options) then mret ()
  else
    x ← perform (Ctr_Wait ch.1);
    match x.2 with
    | Some d => fail (Wrapf ("container exited with error code " +:+ pretty x.1) (ErrExt d))
    | None => mret ()
    end.

Definition check_container (options : PodEnsureCmd) (ctr : Container) : M unit :=
  if pe_Wait options then mret ()
  else
    x ← wrap ("failed to check whether container exited: " +:+ ctr_Name ctr)
          (invoke (Ctr_ExitCode ctr));
    if x.2 : bool then
      fail (WrapNil ("container " +:+ ctr_Name ctr +:+ " exited with code " +:+ pretty x.1))
    else mret ().

(** From the running pause container to the status message. *)
Definition run_containers (r : libpodRuntime) (ctx : Ctx) (options : PodEnsureCmd) (pod : Pod)
    (pauseCtr : Container) (abbotRespBytes : option string) : M PodStatusMsg :=
  start_pause pauseCtr;;
  ctrList ← create_containers r options pod pauseCtr;
  for_each ctrList (start_container ctx options);;
  perform (Sleep 5);;
  for_each ctrList.*1 (check_container options);;
  translatePodStatus abbotRespBytes pauseCtr ctrList.*1.

Definition EnsurePod (r : libpodRuntime) (ctx : Ctx) (options : PodEnsureCmd) : M PodStatusMsg :=
  ctx ← PodActionContext (rt_base r) ctx;
  with_defer
    (x ← obtain_pod r ctx options;
     with_defer
       (run_containers r ctx options x.1.1 x.1.2 x.2)
       (on_error (cleanup_pod r x.1.1)))
    (λ o, cancel_ctx ctx;; on_error (cleanup_pod_data r (pe_PodUid options)) o).

(** ** DeletePod *)

(** One requested container; a lookup that finds nothing passes nil on. *)
Definition delete_named (podUID ctrName : string) : M unit :=
  res ← try (findContainer podUID ctrName);
  ctr ← (match res with
         | inl e => if negb (errors_Is e ErrNotFound)
                    then fail (Wrapf "failed to do container find" e)
                    else mret None
         | inr c => mret (Some c)
         end);
  wrap ("failed to delete container " +:+ ctrName) (deleteContainer ctr).

Definition delete_some (r : libpodRuntime) (options : PodDeleteCmd) (pod : Pod) : M PodStatusMsg :=
  res ← try (invoke (Pod_AllContainers pod));
  let ctrs := match res with inl _ => [] | inr l => l end in
  match List.filter (λ c, IsPauseContainer (ctr_Labels c)) ctrs with
  | [] => fail (Errorf "no pause container in pod")
  | pauseCtr :: _ =>
      for_each (pd_Containers options) (delete_named (pd_PodUid options));;
      translatePodStatus None pauseCtr ctrs
  end.

Definition DeletePod (r : libpodRuntime) (ctx : Ctx) (options : PodDeleteCmd) : M PodStatusMsg :=
  with_defer
    (pod ← wrap "failed to find pod" (findPod (pd_PodUid options));
     match pd_Containers options with
     | [] =>
         deletePod r TODO pod;;
         mret (NewPodStatusMsg (pd_PodUid options) None ∅)
     | _ => delete_some r options pod
     end)
    (λ _, cleanup_pod_data r (pd_PodUid options)).

(** ** ListPods *)

Definition list_filters (options : PodListCmd) : strmap :=
  if pl_All options then ∅
  else match pl_Names options with
       | [] => ∅
       | name :: _ => {[ ContainerLabelPodName := name ]}
       end.

(** The status of a pod with a pause container. *)
Definition list_report (r : libpodRuntime) (actionCtx : Ctx) (pod : Pod) (pauseCtr : Container) :
    M PodStatusMsg :=
  ignore (invoke (Ctr_Sync pauseCtr));;
  abbotRespBytes ←
    (if IsHostNetwork (ctr_Labels pauseCtr) then
       pid ← pid_of pauseCtr;
       q ← try (net_Query r actionCtx pid (ctr_ID pauseCtr));
       mret (match q with inl _ => None | inr b => Some b end)
     else mret None);
  ctrList ← wrap "failed to find all containers in pod" (invoke (Pod_AllContainers pod));
  wrap "failed to translate pod status" (translatePodStatus abbotRespBytes pauseCtr ctrList).

(** One pod of the list: its status, or [None] where the source continues
    after removing a pod that is not a complete pod. *)
Definition list_one (r : libpodRuntime) (actionCtx : Ctx) (pod : Pod) : M (option PodStatusMsg) :=
  match pod_Labels pod !! ContainerLabelPodUID with
  | None => ignore (deletePod r TODO pod);; mret None
  | Some podUID =>
      res ← try (findContainer podUID ContainerNamePause);
      match res with
      | inl _ => invoke (RemovePod pod true true);; mret None
      | inr pauseCtr => Some <$> list_report r actionCtx pod pauseCtr
      end
  end.

Definition ListPods (r : libpodRuntime) (ctx : Ctx) (options : PodListCmd) : M (list PodStatusMsg) :=
  pods ← Pods (podLabelFilterFunc (list_filters options));
  actionCtx ← PodActionContext (rt_base r) ctx;
  with_defer
    (fold_m (λ results pod,
       status ← list_one r actionCtx pod;
       mret (match status with Some s => results ++ [s] | None => results end)) [] pods)
    (λ _, cancel_ctx actionCtx).
End pod.
