(* ===== verification/PodProofs.v ===== *)
(** What the pod operations do to the pods and containers of the store: the
    operations of a pod leave every other pod alone, a successful [EnsurePod]
    leaves the requested containers, a failed one takes its pod back, and
    [DeletePod] and [ListPods] remove what they say and no more. *)

From S2P Require Import Prelude GoPath Proto Labels World Libpod Mem BaseRuntime Storage Find Network Translate Container ContainerProofs Pod.
From stdpp Require Import base gmap strings pretty list fin_maps numbers.

Section frames.
Context {E : Type} `{!Env E} {R : relation (World E)} `{!QuietFrame R}.
Lemma keeps_start_pause c : keeps R (start_pause c).
Proof. unfold start_pause. keeps_solve. Qed.
Lemma keeps_start_container ctx o ch : keeps R (start_container ctx o ch).
Proof. unfold start_container. keeps_solve. Qed.
Lemma keeps_check_container o c : keeps R (check_container o c).
Proof. unfold check_container. keeps_solve. Qed.
Lemma keeps_cleanup_pod_data r uid : keeps R (cleanup_pod_data r uid).
Proof. unfold cleanup_pod_data. keeps_solve. Qed.
Lemma keeps_PodActionContext r ctx : keeps R (PodActionContext r ctx).
Proof. apply keeps_with_timeout. Qed.
End frames.

#[export] Hint Resolve keeps_start_pause keeps_start_container keeps_check_container
  keeps_cleanup_pod_data : keeps.
#[export] Hint Extern 1 (keeps _ (PodActionContext _ _)) => apply keeps_PodActionContext : keeps.

Section any_frame.
Context {E : Type} `{!Env E} {R : relation (World E)} `{!Frame R}.
Lemma keeps_any_deletePod r ctx p : keeps R (deletePod r ctx p).
Proof. unfold deletePod, deletePod_checks. keeps_solve. Qed.
Lemma keeps_any_deleteContainer c : keeps R (deleteContainer c).
Proof. unfold deleteContainer. keeps_solve. Qed.
Lemma keeps_any_createContainer r o p spec ns : keeps R (createContainer r o p spec ns).
Proof. unfold createContainer, new_container. keeps_solve. Qed.
#[local] Hint Resolve keeps_any_deletePod keeps_any_deleteContainer keeps_any_createContainer : keeps.
Lemma keeps_any_cleanup_pod r p : keeps R (cleanup_pod r p).
Proof. unfold cleanup_pod. keeps_solve. Qed.
#[local] Hint Resolve keeps_any_cleanup_pod : keeps.
Lemma keeps_any_createPauseContainer r ctx o : keeps R (createPauseContainer r ctx o).
Proof. unfold createPauseContainer, pause_in_pod, delete_previous. keeps_solve. Qed.
Lemma keeps_any_run_containers r ctx o p c b : keeps R (run_containers r ctx o p c b).
Proof. unfold run_containers, create_containers, map_m, for_each. keeps_solve. Qed.
#[local] Hint Resolve keeps_any_createPauseContainer keeps_any_run_containers : keeps.
Lemma keeps_any_EnsurePod r ctx o : keeps R (EnsurePod r ctx o).
Proof. unfold EnsurePod, obtain_pod. keeps_solve. Qed.
Lemma keeps_any_DeletePod r ctx o : keeps R (DeletePod r ctx o).
Proof. unfold DeletePod, delete_some, delete_named, for_each. keeps_solve. Qed.
Lemma keeps_any_list_one r ctx p : keeps R (list_one r ctx p).
Proof. unfold list_one, list_report. keeps_solve. Qed.
#[local] Hint Resolve keeps_any_list_one : keeps.
Lemma keeps_any_ListPods r ctx o : keeps R (ListPods r ctx o).
Proof. unfold ListPods. keeps_solve. Qed.
End any_frame.

#[export] Hint Resolve keeps_any_deletePod keeps_any_deleteContainer keeps_any_createContainer
  keeps_any_cleanup_pod keeps_any_createPauseContainer keeps_any_run_containers keeps_any_EnsurePod
  keeps_any_DeletePod keeps_any_list_one keeps_any_ListPods : keeps.

(** ** Isolation between pods *)

Section isolation.
Context {E : Type} `{!Env E, !Store E, !LibpodLaws E}.
Notation W := (World E).
Context (q : Pod).

(** Pod IDs are unique and [q] is one of the pods. *)
Definition has_pod (w : W) : Prop := NoDup (pod_ID <$> wpods w) ∧ q ∈ wpods w.

(** [q] and its containers are still there, and no container was added to it. *)
Definition undisturbed (w w' : W) : Prop :=
  has_pod w →
  has_pod w' ∧ List.filter (inside_pod q) (wctrs w') ≡ₚ List.filter (inside_pod q) (wctrs w).

Global Instance undisturbed_preorder : PreOrder undisturbed.
Proof.
  split; [by intros w Hw|]. intros w1 w2 w3 H12 H23 Hw1.
  destruct (H12 Hw1) as [Hw2 Hc2]. destruct (H23 Hw2) as [Hw3 Hc3].
  split; [done|]. by etrans.
Qed.

Lemma undisturbed_same w w' : same_store w w' → undisturbed w w'.
Proof. intros [H1 H2] Hw. unfold has_pod in *. by rewrite H1, H2. Qed.

Lemma keeps_undisturbed {A} (m : M W A) : keeps same_store m → keeps undisturbed m.
Proof. intros H w. by apply undisturbed_same. Qed.

Lemma inside_outside p c : pod_ID p ≠ pod_ID q → inside_pod q c = true → outside_pod p c = true.
Proof.
  unfold inside_pod, outside_pod. rewrite !bool_decide_eq_true, negb_true_iff, bool_decide_eq_false.
  congruence.
Qed.

Lemma other_pod_neq p : pod_ID p ≠ pod_ID q → other_pod p q = true.
Proof. unfold other_pod. rewrite negb_true_iff, bool_decide_eq_false. congruence. Qed.

(** Removals confined to another pod. *)
Lemma undisturbed_shrinks p w w' :
  pod_ID p ≠ pod_ID q → store_shrinks (other_pod p) (outside_pod p) w w' → undisturbed w w'.
Proof.
  intros Hne (Hp & Hc & Hsp & Hsc) [Hnd Hq]. split; [split|].
  - eapply sublist_NoDup; [done|]. by apply fmap_sublist.
  - assert (q ∈ List.filter (other_pod p) (wpods w)) as Hin
      by (apply elem_of_bfilter; split; [done|by apply other_pod_neq]).
    rewrite <- Hp in Hin. by apply elem_of_bfilter in Hin as [? _].
  - rewrite <- (bfilter_bfilter (inside_pod q) (outside_pod p) (wctrs w')),
      <- (bfilter_bfilter (inside_pod q) (outside_pod p) (wctrs w)), Hc;
      [done|intros; by apply inside_outside..].
Qed.

Lemma keeps_undisturbed_deletePod r ctx p :
  pod_ID p ≠ pod_ID q → keeps undisturbed (deletePod r ctx p).
Proof. intros Hne w. eapply undisturbed_shrinks; [done|]. apply shrinks_deletePod. Qed.

Lemma keeps_undisturbed_NewContainer cfg i :
  cc_Pod cfg ≠ pod_ID q → keeps undisturbed (invoke (NewContainer cfg i)).
Proof.
  intros Hne w. apply (wp_mono _ _ (λ _ w', undisturbed w w') w) with (2 := wp_NewContainer cfg i w).
  intros [c|e|p|] w' [Hp Hc]; [|by apply undisturbed_same|done..].
  destruct Hc as (_ & _ & Hpod & _ & _ & Hc). intros Hw. unfold has_pod in *. rewrite Hp.
  split; [done|]. rewrite Hc. simpl. unfold inside_pod at 1.
  rewrite bool_decide_eq_false_2 by congruence. done.
Qed.

Lemma keeps_undisturbed_createContainer r o p spec ns :
  pod_ID p ≠ pod_ID q → keeps undisturbed (createContainer r o p spec ns).
Proof.
  intros Hne w. apply (wp_mono _ _ (λ _ w', undisturbed w w') w)
    with (2 := wp_createContainer r o p spec ns w).
  intros [c|e|p'|] w' H; [|apply undisturbed_same; tauto..].
  destruct H as (Hp & Hc & _ & _ & _ & Hpod & _). intros Hw. unfold has_pod in *. rewrite Hp.
  split; [done|]. rewrite Hc. simpl. unfold inside_pod at 1.
  by rewrite bool_decide_eq_false_2 by congruence.
Qed.

Lemma has_pod_neq w p : has_pod w → p ∈ wpods w → p ≠ q → pod_ID p ≠ pod_ID q.
Proof.
  intros [Hnd Hq] Hp Hne Heq. apply Hne. by apply (NoDup_fmap_same pod_ID (wpods w)).
Qed.

(** ** A request about another pod *)

(** [q] has another UID and another name, and cannot be taken for the pod the
    request names by a prefix of its ID. *)
Record foreign (options : PodEnsureCmd) : Prop := {
  foreign_uid : get (pod_Labels q) ContainerLabelPodUID ≠ pe_PodUid options;
  foreign_name : pod_Name q ≠ pod_name options;
  foreign_id : String.prefix (pod_name options) (pod_ID q) = false }.

Lemma foreign_delete_previous r ctx o w :
  foreign o → undisturbed w (delete_previous r ctx (pod_name o) w).2.
Proof.
  intros Hf. change (wp (delete_previous r ctx (pod_name o)) (λ _ w', undisturbed w w') w).
  unfold delete_previous. apply wp_bind, wp_try.
  eapply wp_mono; [|by apply wp_invoke_quiet].
  intros [p|e|p|] w1 [Hs Hp]; simpl; [|apply wp_ret; by apply undisturbed_same|done..].
  apply law_LookupPod in Hp as [Hin Hname]. intros Hw.
  eapply undisturbed_preorder; [by apply undisturbed_same| |done].
  apply keeps_undisturbed_deletePod. eapply has_pod_neq; [done..|].
  intros ->. destruct Hname as [Hn|Hn]; [by apply Hf in Hn|].
  rewrite (foreign_id _ Hf) in Hn. discriminate.
Qed.

Lemma keeps_undisturbed_cleanup_pod r p :
  pod_ID p ≠ pod_ID q → keeps undisturbed (cleanup_pod r p).
Proof. intros Hne. apply keeps_ignore; [apply _|]. by apply keeps_undisturbed_deletePod. Qed.

(** What holds once a pod was obtained: it is not [q]. *)
Definition obtained (w : W) (o : outcome (Pod * Container * option string)) (w' : W) : Prop :=
  undisturbed w w' ∧ (has_pod w → ∀ x, o = Ok x → pod_ID x.1.1 ≠ pod_ID q).

Lemma obtained_frame w w1 w2 o : undisturbed w w1 → obtained w1 o w2 → obtained w o w2.
Proof.
  intros H1 [H2 H3]. split; [by etrans|]. intros Hw. by apply H3, H1.
Qed.

Lemma keeps_undisturbed_pause_in_pod r ctx o p i ic :
  pod_ID p ≠ pod_ID q →
  keeps undisturbed (pause_in_pod r ctx o p i ic).
Proof.
  intros Hne. unfold pause_in_pod. cbv zeta.
  assert (keeps undisturbed (cleanup_pod r p)) as Hcl by by apply keeps_undisturbed_cleanup_pod.
  apply keeps_with_defer; [apply _| |intros; apply keeps_on_error; first [done|apply _]].
  apply keeps_bind; [apply _|apply keeps_undisturbed; keeps_solve|intros _].
  apply keeps_bind; [apply _|by apply keeps_undisturbed_NewContainer|intros c].
  apply keeps_with_defer; [apply _| |intros; apply keeps_on_error; first [done|apply _]].
  apply keeps_undisturbed. keeps_solve.
Qed.

Lemma yields_pause_in_pod r ctx o p i ic :
  yields (W := W) (λ x, x.1.1 = p) (pause_in_pod r ctx o p i ic).
Proof.
  apply yields_with_defer, yields_bind; intros _. apply yields_bind; intros c.
  apply yields_with_defer, yields_bind; intros b. by apply yields_ret.
Qed.

(** Steps that leave [q] alone, in front of the steps that obtain a pod. *)
Lemma wp_obtained_bind {A} (m : M W A) k w :
  keeps same_store m → (∀ a w1, same_store w w1 → wp (k a) (obtained w1) w1) →
  wp (m ≫= k) (obtained w) w.
Proof.
  intros Hm Hk. apply wp_bind. unfold wp at 1. specialize (Hm w).
  destruct (m w) as [[a|e|p|] w1]; simpl in *;
    [|split; [by apply undisturbed_same|done]..].
  eapply wp_mono; [|by apply Hk]. intros o w2. apply obtained_frame. by apply undisturbed_same.
Qed.

Lemma foreign_createPauseContainer r ctx o w :
  foreign o → wp (createPauseContainer r ctx o) (obtained w) w.
Proof.
  intros Hf. unfold createPauseContainer. apply wp_bind. unfold wp at 1.
  pose proof (foreign_delete_previous r ctx o w Hf) as Hd.
  destruct (delete_previous r ctx (pod_name o) w) as [[[]|e|p|] w1]; simpl in *; [|done..].
  eapply wp_mono; [intros o' w' H; by eapply obtained_frame|].
  clear Hd w. apply wp_obtained_bind; [auto with keeps|intros _ w Hs].
  apply wp_obtained_bind; [auto with keeps|intros image w2 Hs2].
  apply wp_obtained_bind; [auto with keeps|intros ic w3 Hs3].
  apply wp_bind. eapply wp_mono; [|apply wp_NewPod].
  intros [p|e|p|] w4 [Hc Hp]; simpl; [|by split; [apply undisturbed_same|]|done..].
  destruct Hp as (_ & _ & Hid & _ & Hp).
  assert (has_pod w3 → pod_ID p ≠ pod_ID q) as Hne.
  { intros [_ Hq] Heq. apply Hid. rewrite Heq. by apply list_elem_of_fmap_2. }
  destruct (decide (pod_ID p = pod_ID q)) as [Heq|Hpq].
  { unfold wp. split; [intros Hw|intros Hw]; by destruct (Hne Hw). }
  eapply wp_mono; [intros o' w' H; eapply obtained_frame; [|exact H]|].
  { intros Hw. split; [|by rewrite Hc]. destruct Hw as [Hnd Hq].
    split; rewrite Hp; [|by right]. simpl. by constructor. }
  split; [by apply keeps_undisturbed_pause_in_pod|]. intros Hw x Hx.
  pose proof (yields_pause_in_pod r ctx o p image ic w4 x) as Hy. unfold wp in Hy.
  by rewrite Hy.
Qed.

Lemma foreign_obtain_pod r ctx o w :
  foreign o → wp (obtain_pod r ctx o) (obtained w) w.
Proof.
  intros Hf. unfold obtain_pod. apply wp_bind, wp_try. eapply wp_mono; [|apply wp_findPod].
  intros [p|e|p|] w1 [Hs Hp]; simpl; [| |done..].
  - assert (has_pod w → pod_ID p ≠ pod_ID q) as Hne.
    { assert (p ∈ wpods w ∧ podLabelFilterFunc (pod_filter (pe_PodUid o)) p = true) as [Hin Hm].
      { apply elem_of_bfilter. rewrite Hp. by left. }
      intros Hw. eapply has_pod_neq; [done..|]. intros ->.
      by apply pod_filter_get, Hf in Hm. }
    apply wp_bind, wp_try. eapply wp_mono; [|apply wp_keeps, (keeps_findContainer (R := same_store))].
    intros res w2 Hs2. assert (undisturbed w w2) as Hu by (apply undisturbed_same; by etrans).
    destruct res as [c|e|p'|]; simpl; [| |done..].
    + apply wp_ret. split; [done|]. intros Hw x [= <-]. by apply Hne.
    + apply wp_bind, wp_ignore. unfold wp at 1.
      destruct (decide (pod_ID p = pod_ID q)) as [Heq|Hpq].
      { pose proof (returns_deletePod r TODO p w2) as Hr.
        destruct (deletePod r TODO p w2) as [[] w3]; simpl in *; try done;
        apply wp_fail; split; intros Hw; by destruct (Hne Hw). }
      pose proof (keeps_undisturbed_deletePod r TODO p Hpq w2) as Hd.
      pose proof (returns_deletePod r TODO p w2) as Hr.
      destruct (deletePod r TODO p w2) as [[] w3]; simpl in *; try done;
        apply wp_fail; (split; [by etrans|done]).
  - destruct (negb (errors_Is e ErrNotFound)).
    { apply wp_fail. split; [by apply undisturbed_same|done]. }
    apply wp_wrap. eapply wp_mono; [|by apply foreign_createPauseContainer].
    intros o' w2 Ho. apply (obtained_frame w) in Ho; [|by apply undisturbed_same].
    destruct o'; try done. split; [apply Ho|done].
Qed.

Lemma keeps_undisturbed_run_containers r ctx o p c b :
  pod_ID p ≠ pod_ID q → keeps undisturbed (run_containers r ctx o p c b).
Proof.
  intros Hne. unfold run_containers.
  apply keeps_bind; [apply _|apply keeps_undisturbed; auto with keeps|intros _].
  apply keeps_bind; [apply _| |intros l].
  - unfold create_containers, map_m. apply keeps_fold_m; [apply _|]. intros acc spec.
    apply keeps_bind; [apply _| |intros ?; apply keeps_ret; apply _].
    apply keeps_bind; [apply _| |intros ?; apply keeps_ret; apply _].
    apply keeps_wrap. by apply keeps_undisturbed_createContainer.
  - apply keeps_undisturbed. unfold for_each. keeps_solve.
Qed.

(** [EnsurePod] of one pod leaves a foreign pod and its containers alone. *)
Lemma EnsurePod_undisturbed r ctx o w :
  foreign o → undisturbed w (EnsurePod r ctx o w).2.
Proof.
  intros Hf. change (wp (EnsurePod r ctx o) (λ _ w', undisturbed w w') w).
  unfold EnsurePod. apply wp_bind. unfold PodActionContext.
  eapply wp_mono; [|apply wp_and; [apply wp_keeps, (keeps_with_timeout (R := same_store))|apply wp_returns, returns_with_timeout]].
  intros [ctx'|e|p|] w1 [Hs Hr]; simpl; [|by apply undisturbed_same|done..].
  assert (∀ o' : outcome PodStatusMsg,
    keeps undisturbed (cancel_ctx ctx';; on_error (cleanup_pod_data r (pe_PodUid o)) o')) as Hd.
  { intros o'. apply keeps_undisturbed. keeps_solve. }
  eapply (wp_mono _ (λ _ w', undisturbed w1 w')).
  { intros _ w' H. etrans; [by apply undisturbed_same|done]. }
  clear Hs. apply wp_with_defer.
  eapply (wp_mono _ (λ _ w', undisturbed w1 w')).
  { intros o' w' H. destruct o'; [| | |done];
      (eapply wp_mono; [|apply wp_keeps, Hd]; intros o'' w'' H''; destruct o''; by etrans). }
  apply wp_bind. eapply wp_mono; [|by apply foreign_obtain_pod].
  intros [x|e|p|] w2 [Hu Hx]; simpl; [|done..].
  destruct (decide (pod_ID x.1.1 = pod_ID q)) as [Heq|Hne].
  { intros Hw. by destruct (Hx Hw x). }
  assert (keeps undisturbed
    (with_defer (run_containers r ctx' o x.1.1 x.1.2 x.2) (on_error (cleanup_pod r x.1.1)))) as Hk.
  { apply keeps_with_defer; [apply _|by apply keeps_undisturbed_run_containers|].
    intros o'. apply keeps_on_error; [apply _|by apply keeps_undisturbed_cleanup_pod]. }
  eapply wp_mono; [|apply wp_keeps, Hk]. intros o' w3 H3. by etrans.
Qed.
End isolation.

