(* ===== verification/DeleteProofs.v ===== *)
(** [DeletePod] and [ListPods]: what they remove, what they spare, and what
    they report. *)

From S2P Require Import Prelude GoPath Proto Labels World Libpod Mem BaseRuntime Storage Find Network Translate Container ContainerProofs Pod PodProofs.
From stdpp Require Import base gmap strings pretty list fin_maps numbers.

Section delete.
Context {E : Type} `{!Env E, !Store E, !LibpodLaws E}.
Notation W := (World E).

Lemma never_panics_cleanup_pod_data r uid : never_panics (cleanup_pod_data (E := E) r uid).
Proof. unfold cleanup_pod_data. returns_solve. Qed.

(** The deferred cleanup of [DeletePod] does not change the result (it can
    block on the mutex of the storage client). *)
Lemma wp_with_cleanup {A} r uid (body : M W A) (Q : outcome A → W → Prop) w :
  wp body (λ o w', ∀ w'', same_store w' w'' → Q o w'' ∧ Q Hang w'') w →
  wp (with_defer body (λ _, cleanup_pod_data r uid)) Q w.
Proof.
  intros HQ. apply wp_with_defer. eapply wp_mono; [|exact HQ].
  intros o w' Ho. destruct o; [..|by apply Ho];
    (apply (wp_quiet true); [auto with keeps|apply never_panics_cleanup_pod_data|]);
    intros [] w'' Hs Hh; simpl in *; try done; by apply Ho.
Qed.

(** A container found under a pod UID carries that UID. *)
Lemma container_filter_uid uid n c :
  ctr_matches (container_filter uid n) c → get (ctr_Labels c) ContainerLabelPodUID = uid.
Proof. by intros [? _]%container_filter_is. Qed.

Lemma container_filter_managed uid n c :
  uid ≠ ""%string → ctr_matches (container_filter uid n) c →
  is_Some (ctr_Labels c !! ContainerLabelPodUID).
Proof.
  intros Hu Hm. apply container_filter_uid in Hm. exists uid. by apply get_nonempty.
Qed.

(** One name of the list of containers to delete. *)
Lemma wp_delete_named uid n (w : W) :
  uid ≠ ""%string →
  wp (delete_named uid n) (λ o w', same_store w w' ∧
    match o with
    | Panic p => p = NilDereference ∧
                 List.filter (containerLabelFilterFunc (container_filter uid n)) (wctrs w) = []
    | Hang => False
    | _ => True
    end) w.
Proof.
  intros Hu. unfold delete_named. apply wp_bind, wp_try.
  eapply wp_mono; [|apply wp_findContainerByLabels].
  intros [c|e|p|] w1 [Hs Hf]; simpl in Hf; simpl; [| |done..].
  - apply wp_bind, wp_ret. simpl. apply wp_wrap. destruct Hf as [_ Hm].
    eapply wp_mono; [|apply wp_deleteContainer_managed; by eapply container_filter_managed].
    intros o w2 [Hs2 Hr]. assert (same_store w w2) by by etrans. by destruct o.
  - destruct Hf as [[-> Hnil]|[d ->]]; simpl.
    + apply wp_bind, wp_ret. simpl. apply wp_wrap. simpl. by apply wp_crash.
    + apply wp_bind, wp_fail. done.
Qed.

Lemma wp_delete_some r o p (w : W) :
  pd_PodUid o ≠ ""%string → wp (delete_some r o p) (λ out w', same_store w w' ∧ out ≠ Hang) w.
Proof.
  intros Hu. unfold delete_some. apply wp_bind, wp_try.
  eapply wp_mono; [|by apply wp_invoke_quiet].
  assert (∀ l w1, same_store w w1 →
    wp (match List.filter (λ c, IsPauseContainer (ctr_Labels c)) l with
        | [] => fail (Errorf "no pause container in pod")
        | pauseCtr :: _ =>
            for_each (pd_Containers o) (delete_named (pd_PodUid o));;
            translatePodStatus None pauseCtr l
        end) (λ out w', same_store w w' ∧ out ≠ Hang) w1) as Hrest.
  { intros l w1 Hs. destruct (List.filter _ l) as [|pc rest]; [by apply wp_fail|].
    apply wp_bind. unfold for_each. eapply (wp_fold_m (λ _ _ w', same_store w w')); [done|..].
    - intros n rest' [] w' Hs'. eapply wp_mono; [|by apply wp_delete_named].
      intros out w'' [Hs'' Ho]. assert (same_store w w'') by by etrans. by destruct out.
    - intros [] w' Hs'. simpl.
      apply (wp_quiet false); [auto with keeps|apply returns_translatePodStatus|].
      intros out w'' Hs'' Hr. split; [by etrans|]. by destruct out. }
  intros [l|e|pp|] w1 [Hs Ho]; simpl; [by apply Hrest|by apply (Hrest [])|done..].
Qed.

(** [DeletePod] of a whole pod. *)
Lemma wp_DeletePod_whole r ctx o (w : W) :
  pd_Containers o = [] →
  wp (DeletePod r ctx o) (λ out w',
    match out with
    | Ok msg =>
        msg = NewPodStatusMsg (pd_PodUid o) None ∅ ∧
        ∃ p, List.filter (podLabelFilterFunc (pod_filter (pd_PodUid o))) (wpods w) = [p] ∧
             wpods w' = List.filter (other_pod p) (wpods w) ∧
             wctrs w' = List.filter (outside_pod p) (wctrs w)
    | Panic _ => False
    | _ => same_store w w' ∨
           ∃ p, List.filter (podLabelFilterFunc (pod_filter (pd_PodUid o))) (wpods w) = [p] ∧
                store_shrinks (other_pod p) (outside_pod p) w w'
    end) w.
Proof.
  intros Hnil. unfold DeletePod. apply wp_with_cleanup, wp_bind, wp_wrap.
  eapply wp_mono; [|apply wp_findPod].
  intros [p|e|p|] w1 [Hs Hp]; simpl; [| |done..]; cycle 1.
  { intros w2 Hs2. assert (same_store w w2) by by etrans. auto. }
  rewrite Hnil. apply wp_bind. eapply wp_mono; [|apply wp_deletePod].
  intros [[]|e|p'|] w2 (Hsh & _ & Ho); simpl; [| |done..].
  - apply wp_ret. intros w3 Hs3.
    assert (store_shrinks (other_pod p) (outside_pod p) w w3) as Hall.
    { etrans; [by apply same_store_shrinks|]. etrans; [done|by apply same_store_shrinks]. }
    split; [|right; eauto]. split; [done|]. exists p.
    destruct Hs as [Hc Hpp], Hs3 as [Hc3 Hp3], Ho as (Hop & Hoc & _). by rewrite Hc3, Hp3, Hop, Hoc, Hc, Hpp.
  - intros w3 Hs3.
    assert (store_shrinks (other_pod p) (outside_pod p) w w3) as Hall.
    { etrans; [by apply same_store_shrinks|]. etrans; [done|by apply same_store_shrinks]. }
    split; right; eauto.
Qed.

(** [DeletePod] with a list of containers removes none of them. *)
Lemma wp_DeletePod_containers r ctx o (w : W) :
  pd_Containers o ≠ [] → pd_PodUid o ≠ ""%string →
  wp (DeletePod r ctx o) (λ _ w', same_store w w') w.
Proof.
  intros Hne Hu. unfold DeletePod. apply wp_with_cleanup, wp_bind, wp_wrap.
  eapply wp_mono; [|apply wp_findPod].
  intros [p|e|p|] w1 [Hs Hp]; simpl; [| |done..]; cycle 1.
  { intros w2 Hs2. split; by etrans. }
  destruct (pd_Containers o) as [|n ns]; [done|].
  eapply wp_mono; [|by apply wp_delete_some].
  intros out w2 [Hs2 _] w3 Hs3. split; (etrans; [done|]; by etrans).
Qed.

(** The request names a container that does not exist: nil is dereferenced. *)
Lemma delete_named_missing uid n l (w : W) :
  (handle AllContainers (w_env w)).1 = inr l →
  List.filter (containerLabelFilterFunc (container_filter uid n)) (wctrs w) = [] →
  (delete_named uid n w).1 = Panic NilDereference.
Proof.
  intros Hl Hnil. change (wp (delete_named uid n) (λ o _, o = Panic NilDereference) w).
  unfold delete_named, findContainer, findContainerByLabels, listContainersByLabels, GetContainers,
    invoke. apply wp_bind, wp_try, wp_bind, wp_bind, wp_bind, wp_perform.
  intros w' _ _ _ _ _. rewrite Hl. pose proof (law_AllContainers _ _ Hl) as ->. simpl.
  apply wp_ret, wp_ret. simpl. fold (wctrs w). rewrite Hnil. apply wp_fail. simpl.
  apply wp_bind, wp_ret. simpl. apply wp_wrap. by apply wp_crash.
Qed.
End delete.

Section panic.
Context {E : Type} `{!Env E, !Store E, !LibpodLaws E}.
Notation W := (World E).
Context (ok : E → Prop) `{!reliable ok}.

Lemma wp_findPod_reliable uid p (w : W) :
  ok (w_env w) → List.filter (podLabelFilterFunc (pod_filter uid)) (wpods w) = [p] →
  wp (findPod uid) (λ o w', o = Ok p ∧ same_store w w' ∧ ok (w_env w')) w.
Proof.
  intros Hok Hp. destruct (reliable_AllPods _ Hok) as [l Hl].
  eapply (wp_mono _ (λ o w', (same_store w w' ∧ stays ok w w') ∧ o = Ok p)).
  { intros o w' [[Hs Hst] ->]. auto. }
  apply wp_and; [apply wp_and; apply wp_keeps, keeps_findPod|].
  unfold findPod, Pods, invoke. apply wp_bind, wp_bind, wp_bind, wp_perform.
  intros w' _ _ _ _ _. rewrite Hl. simpl. rewrite (law_AllPods _ _ Hl).
  apply wp_ret, wp_ret. fold (wpods w). rewrite Hp. by apply wp_ret.
Qed.

(** A name without a container dereferences nil. *)
Lemma wp_delete_some_missing r o p n ns (w : W) :
  ok (w_env w) → pd_Containers o = n :: ns →
  (∃ c, c ∈ wctrs w ∧ inside_pod p c = true ∧ IsPauseContainer (ctr_Labels c) = true) →
  List.filter (containerLabelFilterFunc (container_filter (pd_PodUid o) n)) (wctrs w) = [] →
  wp (delete_some r o p) (λ out _, out = Panic NilDereference) w.
Proof.
  intros Hok Hc (c & Hin & Hi & Hpc) Hnil. unfold delete_some. apply wp_bind, wp_try.
  destruct (reliable_Pod_AllContainers p _ Hok) as [l Hl].
  eapply wp_mono; [|apply wp_and; [apply (wp_keeps (stays ok)); keeps_solve|
    apply wp_and; [apply (wp_keeps same_store); keeps_solve|by apply wp_invoke_answer]]].
  intros out w1 [Hok1 [[Hc1 _] ->]]. simpl. rewrite (law_Pod_AllContainers _ _ _ Hl).
  destruct (List.filter _ (List.filter _ _)) as [|pc rest] eqn:Ef.
  { assert (c ∈ List.filter (λ c, IsPauseContainer (ctr_Labels c))
                  (List.filter (inside_pod p) (ctrs (w_env w)))) as H
      by (rewrite !elem_of_bfilter; done). rewrite Ef in H. by apply not_elem_of_nil in H. }
  rewrite Hc. apply wp_bind. unfold for_each. simpl. apply wp_bind.
  destruct (reliable_AllContainers _ (Hok1 Hok)) as [l2 Hl2].
  pose proof (delete_named_missing (pd_PodUid o) n l2 w1 Hl2) as Hd. rewrite Hc1 in Hd.
  specialize (Hd Hnil). unfold wp. by rewrite Hd.
Qed.

(** [DeletePod] then panics; it can only block instead, in the deferred
    cleanup, on a mutex of the storage client that was left locked. *)
Lemma wp_DeletePod_missing r ctx o p n ns (w : W) :
  ok (w_env w) → pd_Containers o = n :: ns →
  List.filter (podLabelFilterFunc (pod_filter (pd_PodUid o))) (wpods w) = [p] →
  (∃ c, c ∈ wctrs w ∧ inside_pod p c = true ∧ IsPauseContainer (ctr_Labels c) = true) →
  List.filter (containerLabelFilterFunc (container_filter (pd_PodUid o) n)) (wctrs w) = [] →
  wp (DeletePod r ctx o) (λ out _, out = Panic NilDereference ∨ out = Hang) w.
Proof.
  intros Hok Hc Hp Hpause Hnil. unfold DeletePod. apply wp_with_cleanup, wp_bind, wp_wrap.
  eapply wp_mono; [|by apply wp_findPod_reliable]. intros out w1 (-> & [Hc1 Hp1] & Hok1). simpl.
  rewrite Hc. eapply wp_mono; [|apply (wp_delete_some_missing r o p n ns)]; try done.
  - intros out w2 -> w3 _. auto.
  - by rewrite Hc1.
  - by rewrite Hc1.
Qed.
End panic.

(** ** ListPods *)

Section list.
Context {E : Type} `{!Env E, !Store E, !LibpodLaws E}.
Notation W := (World E).

(** The pod carries a UID and its pause container is one of its own. *)
Definition complete_pod (q : Pod) (w : W) : Prop :=
  ∃ uid c, pod_Labels q !! ContainerLabelPodUID = Some uid ∧ c ∈ wctrs w ∧
           inside_pod q c = true ∧ ctr_matches (container_filter uid ContainerNamePause) c.

(** The pod carries a UID and no container is its pause container. *)
Definition headless_pod (q : Pod) (w : W) : Prop :=
  ∃ uid, pod_Labels q !! ContainerLabelPodUID = Some uid ∧
         ∀ c, c ∈ wctrs w → ¬ ctr_matches (container_filter uid ContainerNamePause) c.

Lemma complete_undisturbed q w w' :
  has_pod q w → undisturbed q w w' → complete_pod q w → complete_pod q w'.
Proof.
  intros Hw Hu (uid & c & Hl & Hc & Hi & Hm). destruct (Hu Hw) as [_ Hp].
  exists uid, c. repeat split; [done| |done|apply Hm].
  assert (c ∈ List.filter (inside_pod q) (wctrs w')) as H; [|by apply elem_of_bfilter in H as [? _]].
  rewrite Hp. by apply elem_of_bfilter.
Qed.

Lemma wp_list_report r ctx p c (w : W) :
  wp (list_report r ctx p c) (λ o w', same_store w w' ∧
    match o with
    | Ok s => psm_Uid s = get (ctr_Labels c) ContainerLabelPodUID
    | Err _ => True
    | _ => False
    end) w.
Proof.
  unfold list_report. apply wp_and; [apply wp_keeps; keeps_solve|].
  apply wp_bind. eapply wp_mono; [|apply wp_returns, returns_ignore, returns_invoke].
  intros [[]|e|pp|] w1 Hr1; simpl; try done.
  apply wp_bind. eapply (wp_mono _ (λ o _, returns_outcome o)); [|apply wp_returns; returns_solve].
  intros [b|e|pp|] w2 Hr2; simpl; try done.
  apply wp_bind, wp_wrap. eapply wp_mono; [|apply wp_returns, returns_invoke].
  intros [l|e|pp|] w3 Hr3; simpl; try done.
  apply wp_wrap. eapply wp_mono; [|apply wp_translatePodStatus].
  intros [s|e|pp|] w4 [_ Ho]; simpl; try done. by destruct Ho as [-> _].
Qed.

(** One pod of the list: either its status, from an unchanged store, or the
    pod itself was removed. *)
Lemma wp_list_one r ctx p (w : W) :
  wp (list_one r ctx p) (λ o w',
    store_shrinks (other_pod p) (outside_pod p) w w' ∧
    match o with
    | Ok (Some s) => pod_Labels p !! ContainerLabelPodUID = Some (psm_Uid s) ∧ ¬ headless_pod p w
    | Ok None => headless_pod p w → p ∉ wpods w'
    | Err _ => True
    | _ => False
    end) w.
Proof.
  unfold list_one. destruct (pod_Labels p !! ContainerLabelPodUID) as [uid|] eqn:Hl; cycle 1.
  { apply wp_bind, wp_ignore. eapply wp_mono; [|apply wp_deletePod].
    intros [[]|e|pp|] w1 (Hsh & _ & Ho); simpl; try done; apply wp_ret;
      (split; [done|]); intros (uid & Hu & _); congruence. }
  apply wp_bind, wp_try. eapply wp_mono; [|apply wp_findContainerByLabels].
  intros [c|e|pp|] w1 [Hs Hf]; simpl in Hf; simpl; [| |done..].
  - destruct Hf as [Hin Hm]. apply wp_fmap. eapply wp_mono; [|apply wp_list_report].
    intros o w2 [Hs2 Ho]. split; [apply same_store_shrinks; by etrans|].
    destruct o as [s|e|pp|]; simpl; try done. pose proof (container_filter_uid _ _ _ Hm).
    split; [congruence|]. intros (u & Hu & Hno). simplify_eq. by eapply Hno.
  - apply wp_bind. eapply wp_mono; [|apply wp_RemovePod].
    intros [[]|e'|pp|] w2 [Hsh Ho]; simpl; try done;
      (apply wp_ret || idtac); (split; [etrans; [by apply same_store_shrinks|done]|try done]).
    intros _. destruct Ho as [-> _]. intros [_ Hx]%elem_of_bfilter. unfold other_pod in Hx.
    by rewrite bool_decide_eq_true_2 in Hx.
Qed.

(** With a reliable engine a complete pod is reported and kept. *)
Lemma wp_list_one_complete (ok : E → Prop) `{!reliable ok} r ctx p (w : W) :
  ok (w_env w) → complete_pod p w →
  wp (list_one r ctx p) (λ o w', same_store w w' ∧ ∀ s, o = Ok s →
    ∃ s', s = Some s' ∧ pod_Labels p !! ContainerLabelPodUID = Some (psm_Uid s')) w.
Proof.
  intros Hok (uid & c & Hl & Hc & _ & Hm). unfold list_one. rewrite Hl.
  apply wp_bind, wp_try. eapply wp_mono; [|by apply (wp_findContainerByLabels_reliable ok)].
  intros [d|e|pp|] w1 [[Hs _] Hf]; simpl; [|by destruct Hf as [_ []%(λ H, H c)]|done..].
  destruct Hf as [_ Hd%container_filter_uid]. apply wp_fmap.
  eapply wp_mono; [|apply wp_list_report]. intros o w2 [Hs2 Ho]. split; [by etrans|].
  destruct o as [s|e|pp|]; simpl; intros s' Hs'; simplify_eq. exists s. split; congruence.
Qed.

(** The pods a request lists. *)
Definition listed (o : PodListCmd) (w : W) : list Pod :=
  List.filter (podLabelFilterFunc (list_filters o)) (wpods w).

(** The loop of [ListPods] over the pods the engine answered; the rest of the
    function only makes and cancels a context. *)
Lemma wp_ListPods r ctx o (Q : outcome (list PodStatusMsg) → W → Prop) w :
  (∀ w' e, same_store w w' → Q (Err e) w') →
  (∀ actionCtx w', same_store w w' → trace_grows w w' → 
     (∀ ok : E → Prop, reliable ok → stays ok w w') →
     wp (fold_m (λ results pod,
           status ← list_one r actionCtx pod;
           mret (match status with Some s => results ++ [s] | None => results end)) []
           (listed o w))
        (λ out w'', ∀ w3, same_store w'' w3 → Q out w3) w') →
  wp (ListPods r ctx o) Q w.
Proof.
  intros HE HQ. unfold ListPods. apply wp_bind.
  assert (∀ R, QuietFrame R → R w (Pods (podLabelFilterFunc (list_filters o)) w).2) as HR
    by (intros R HR; apply keeps_Pods).
  pose proof (wp_Pods (podLabelFilterFunc (list_filters o)) w) as HP. unfold wp in HP |- *.
  destruct (Pods (podLabelFilterFunc (list_filters o)) w) as [[l|e|p|] w1]; simpl in *;
    destruct HP as [Hs HP]; [|by apply HE|done..]. subst l.
  unfold PodActionContext, with_timeout. unfold mbind, M_bind. simpl.
  set (c := WithTimeout _ _ _). set (w2 := mkWorld _ _ _ _ _).
  assert (∀ R, QuietFrame R → R w w2) as HR2.
  { intros R HR'. transitivity w1; [by apply HR|]. by apply frame_local. }
  match goal with |- Q (?m w2).1 (?m w2).2 => change (wp m Q w2) end.
  apply wp_with_defer. eapply wp_mono; [|apply HQ; [apply HR2; apply _..|]].
  - intros out w3 H3. destruct out; [..|by apply H3];
      (eapply (wp_quiet false); [auto with keeps|apply returns_cancel|]);
      intros [] w4 Hs4 Hr4; simpl in *; try done; by apply H3.
  - intros ok Hok. apply HR2, _.
Qed.

(** Reports come from listed pods; headless pods are gone after a success. *)
Lemma wp_ListPods_report r ctx o w :
  wp (ListPods r ctx o) (λ out w',
    match out with
    | Ok results =>
        wpods w' `sublist_of` wpods w ∧ wctrs w' `sublist_of` wctrs w ∧
        Forall (λ s, ∃ p, p ∈ listed o w ∧
                          pod_Labels p !! ContainerLabelPodUID = Some (psm_Uid s)) results ∧
        (∀ p, p ∈ listed o w → headless_pod p w → p ∉ wpods w')
    | Err _ => True
    | _ => False
    end) w.
Proof.
  apply wp_ListPods; [done|]. intros c w1 [Hc1 Hp1] _ _.
  eapply (wp_fold_m (λ rest results w',
    (wpods w' `sublist_of` wpods w ∧ wctrs w' `sublist_of` wctrs w ∧ rest ⊆ listed o w ∧
     Forall (λ s, ∃ p, p ∈ listed o w ∧
                       pod_Labels p !! ContainerLabelPodUID = Some (psm_Uid s)) results ∧
     (∀ p, p ∈ listed o w → headless_pod p w → p ∈ rest ∨ p ∉ wpods w')))).
  - rewrite Hc1, Hp1. repeat split; auto.
  - intros p rest results w' (Hsp & Hsc & Hrest & Hres & Hgone).
    apply wp_bind. eapply wp_mono; [|apply wp_list_one].
    intros [st|e|pp|] w2 [(_ & _ & Hsp2 & Hsc2) Ho]; simpl; try done.
    apply wp_ret. simpl. repeat split; [by etrans|by etrans|set_solver| |].
    + destruct st as [s|]; [|done]. apply Forall_app. split; [done|].
      apply Forall_singleton. exists p. split; [set_solver|apply Ho].
    + intros p' Hp' Hh. destruct (Hgone p' Hp' Hh) as [[->|Hin]%elem_of_cons|Hout]; [|by left|].
      * right. destruct st as [s|].
        -- destruct Ho as [_ []]. destruct Hh as (u & Hu & Hno). exists u. split; [done|].
           intros d Hd. apply Hno. by eapply elem_of_sublist.
        -- apply Ho. destruct Hh as (u & Hu & Hno). exists u. split; [done|].
           intros d Hd. apply Hno. by eapply elem_of_sublist.
      * right. intros Hin. apply Hout. by eapply elem_of_sublist.
  - intros results w' (Hsp & Hsc & _ & Hres & Hgone) w3 [Hc3 Hp3].
    rewrite Hc3, Hp3. repeat split; [done..|].
    intros p Hp Hh. destruct (Hgone p Hp Hh) as [[]%not_elem_of_nil|]; done.
Qed.

(** A step of the loop on another pod. *)
Lemma list_one_undisturbed q r ctx p (w : W) :
  pod_ID p ≠ pod_ID q → undisturbed q w (list_one r ctx p w).2.
Proof.
  intros Hne. eapply undisturbed_shrinks; [done|]. apply (wp_list_one r ctx p w).
Qed.

(** A complete pod survives the listing, and is reported if it is listed. *)
Lemma wp_ListPods_complete (ok : E → Prop) `{!reliable ok} q r ctx o w :
  ok (w_env w) → has_pod q w → complete_pod q w →
  wp (ListPods r ctx o) (λ out w', undisturbed q w w' ∧
    ∀ results, out = Ok results → q ∈ listed o w →
      ∃ s, s ∈ results ∧ pod_Labels q !! ContainerLabelPodUID = Some (psm_Uid s)) w.
Proof.
  intros Hok Hhas Hcomp. apply wp_ListPods; [intros w' e Hs; split; [by apply undisturbed_same|done]|].
  intros c w1 Hs1 _ Hst. specialize (Hst ok _ Hok).
  eapply (wp_fold_m (λ rest results w',
    (undisturbed q w w' ∧ ok (w_env w') ∧ rest ⊆ wpods w ∧
     (q ∈ listed o w → q ∈ rest ∨
        ∃ s, s ∈ results ∧ pod_Labels q !! ContainerLabelPodUID = Some (psm_Uid s))))).
  - split; [by apply undisturbed_same|]. split; [done|]. split; [|by left].
    intros p [Hp _]%elem_of_bfilter. done.
  - intros p rest results w' (Hu & Hok' & Hrest & Hrep).
    pose proof (complete_undisturbed _ _ _ Hhas Hu Hcomp) as Hcomp'.
    apply wp_bind. destruct (decide (p = q)) as [->|Hpq].
    + eapply wp_mono; [|apply wp_and; [apply wp_keeps, (keeps_any_list_one (R := stays ok))|
                          by apply (wp_list_one_complete ok)]].
      intros st w2 [Hok2 [Hs2 Ho]].
      assert (undisturbed q w w2) as Hu2 by (etrans; [done|by apply undisturbed_same]).
      destruct st as [st|e|pp|]; simpl; [|by intros w3 Hs3; split; [etrans; [done|by apply undisturbed_same]|]..].
      apply wp_ret. destruct (Ho st eq_refl) as (s' & -> & Hs'). simpl.
      split; [done|]. split; [by apply Hok2|]. split; [set_solver|].
      intros _. right. exists s'. split; [set_solver|done].
    + assert (pod_ID p ≠ pod_ID q) as Hne by (eapply has_pod_neq; [done| |done]; set_solver).
      pose proof (list_one_undisturbed q r c p w' Hne) as Hu2.
      pose proof (keeps_any_list_one (R := stays ok) r c p w' Hok') as Hok2.
      unfold wp. destruct (list_one r c p w') as [st w2]. simpl in *.
      assert (undisturbed q w w2) as Hu' by by etrans.
      destruct st as [st|e|pp|]; simpl; [|by intros w3 Hs3; split; [etrans; [done|by apply undisturbed_same]|]..].
      split; [done|]. split; [done|]. split; [set_solver|]. intros Hl.
      destruct (Hrep Hl) as [[->|Hin]%elem_of_cons|(s' & Hs' & Hs2)]; [done|by left|].
      right. exists s'. split; [|done]. destruct st; set_solver.
  - intros results w' (Hu & _ & _ & Hrep) w3 Hs3.
    split; [etrans; [done|by apply undisturbed_same]|].
    intros results' [= <-] Hl. destruct (Hrep Hl) as [[]%not_elem_of_nil|H]; done.
Qed.

(** A lookup that fails for whatever reason counts as a missing pause
    container: the pod is removed. *)
Lemma list_one_lookup_failure r ctx p uid d (w : W) :
  pod_Labels p !! ContainerLabelPodUID = Some uid →
  (handle AllContainers (w_env w)).1 = inl d →
  wp (list_one r ctx p) (λ o w',
    match o with
    | Ok s => s = None ∧ p ∉ wpods w' ∧ wctrs w' = List.filter (outside_pod p) (wctrs w)
    | Err _ => True
    | _ => False
    end) w.
Proof.
  intros Hl Hd. unfold list_one. rewrite Hl. apply wp_bind, wp_try.
  eapply (wp_mono _ (λ o w', same_store w w' ∧ o = Err (ErrExt d))).
  - intros o w1 [Hs ->]. apply wp_bind. eapply wp_mono; [|apply wp_RemovePod].
    intros [[]|e|pp|] w2 [_ Ho]; simpl; try done. apply wp_ret. split; [done|].
    destruct Hs as [Hc _], Ho as [-> ->]. rewrite Hc. split; [|done].
    intros [_ Hx]%elem_of_bfilter. unfold other_pod in Hx. by rewrite bool_decide_eq_true_2 in Hx.
  - apply wp_and; [apply wp_keeps, keeps_findContainer|].
    unfold findContainer, findContainerByLabels, listContainersByLabels, GetContainers, invoke.
    apply wp_bind, wp_bind, wp_bind, wp_perform. intros w' _ _ _ _ _. by rewrite Hd.
Qed.
End list.
