(* ===== verification/EnsureProofs.v ===== *)
(** [EnsurePod]: what a success establishes, what a failure takes back. *)

From S2P Require Import Prelude GoPath Proto Labels World Libpod Mem BaseRuntime Storage Find Network Translate Container ContainerProofs Pod PodProofs DeleteProofs.
From stdpp Require Import base gmap strings pretty list fin_maps numbers.

Lemma pod_labels_uid o : pod_labels o !! ContainerLabelPodUID = Some (pe_PodUid o).
Proof. unfold pod_labels. rewrite !lookup_delete_ne by done. apply ContainerLabels_uid. Qed.

(** The labels of a created container match the lookup of that container. *)
Lemma ContainerLabels_matches o n c :
  ctr_Labels c = ContainerLabels o n → ctr_matches (container_filter (pe_PodUid o) n) c.
Proof.
  intros Hl. constructor. unfold containerLabelFilterFunc. rewrite Hl.
  apply filterLabels_true. split.
  - etrans; [|apply ContainerLabels_size]. unfold container_filter.
    rewrite map_size_insert_None, map_size_singleton by by rewrite lookup_singleton_ne. lia.
  - unfold container_filter. intros k v. rewrite lookup_insert_Some, lookup_singleton_Some.
    intros [[<- <-]|[_ [<- <-]]]; apply get_Some;
      [apply ContainerLabels_uid|apply ContainerLabels_container].
Qed.

(** ** Growth of one pod *)

Section growth.
Context {E : Type} `{!Env E, !Store E, !LibpodLaws E}.
Notation W := (World E).
Context (o : PodEnsureCmd) (p : Pod).

(** A container of the pod, labelled for the request. *)
Definition member (c : Container) : Prop :=
  ctr_PodID c = pod_ID p ∧ ∃ n, ctr_Labels c = ContainerLabels o n.

(** Only members of the pod were added. *)
Definition adds (w w' : W) : Prop :=
  wpods w' = wpods w ∧ ∃ l, wctrs w' ≡ₚ l ++ wctrs w ∧ Forall member l.

Lemma adds_same w w' : same_store w w' → adds w w'.
Proof. intros [Hc Hp]. split; [done|]. exists []. by rewrite Hc. Qed.

Global Instance adds_frame : QuietFrame adds.
Proof.
  split; [split| |].
  - intros w. by apply adds_same.
  - intros w1 w2 w3 [Hp1 (l1 & Hc1 & Hm1)] [Hp2 (l2 & Hc2 & Hm2)]. split; [congruence|].
    exists (l2 ++ l1). split; [by rewrite Hc2, Hc1, app_assoc|by apply Forall_app].
  - intros X e w Hq. apply adds_same. by apply (frame_perform (R := same_store)).
  - intros w w' He Ht. apply adds_same. by apply frame_local.
Qed.

Lemma keeps_adds {A} (m : M W A) : keeps same_store m → keeps adds m.
Proof. intros H w. apply adds_same, H. Qed.


Lemma keeps_adds_createContainer r spec ns : keeps adds (createContainer r o p spec ns).
Proof.
  intros w. apply (wp_mono _ _ (λ _ w', adds w w') w) with (2 := wp_createContainer r o p spec ns w).
  intros [c|e|pp|] w' H; [|apply adds_same; tauto..].
  destruct H as (Hp & Hc & _ & _ & Hl & Hpod & _). split; [done|]. exists [c]. split; [done|].
  apply Forall_singleton. split; eauto.
Qed.

Lemma keeps_adds_create_containers r c : keeps adds (create_containers r o p c).
Proof.
  unfold create_containers, map_m. apply keeps_fold_m; [apply _|]. intros acc spec.
  apply keeps_bind; [apply _| |intros ?; apply keeps_ret; apply _].
  apply keeps_bind; [apply _| |intros ?; apply keeps_ret; apply _].
  apply keeps_wrap. apply keeps_adds_createContainer.
Qed.

Lemma keeps_adds_run_containers r ctx c b : keeps adds (run_containers r ctx o p c b).
Proof.
  unfold run_containers.
  apply keeps_bind; [apply _|apply keeps_start_pause|intros _].
  apply keeps_bind; [apply _|apply keeps_adds_create_containers|intros l].
  unfold for_each. keeps_solve.
Qed.

Lemma adds_elem c w w' : adds w w' → c ∈ wctrs w → c ∈ wctrs w'.
Proof. intros [_ (l & Hc & _)] Hin. rewrite Hc. apply elem_of_app. by right. Qed.

(** With the pod taken away, the containers are those there were. *)
Lemma adds_outside w w' :
  pod_ID p ∉ ctr_PodID <$> wctrs w → adds w w' →
  List.filter (outside_pod p) (wctrs w') ≡ₚ wctrs w.
Proof.
  intros Hfresh [_ (l & Hc & Hm)]. rewrite Hc, List.filter_app.
  rewrite (bfilter_none _ l), (bfilter_all _ (wctrs w)); [done| |].
  - intros c Hin. unfold outside_pod. rewrite negb_true_iff, bool_decide_eq_false. intros Heq.
    apply Hfresh. rewrite <- Heq. by apply list_elem_of_fmap_2.
  - intros c Hin. rewrite List.Forall_forall in Hm.
    apply list_elem_of_In in Hin. destruct (Hm c Hin) as [Heq _].
    unfold outside_pod. by rewrite Heq, bool_decide_eq_true_2.
Qed.
End growth.

(** ** Success *)

Section success.
Context {E : Type} `{!Env E, !Store E, !LibpodLaws E}.
Notation W := (World E).

(** The pod of the request with its pause container. *)
Definition pod_ready (o : PodEnsureCmd) (p : Pod) (c : Container) (w : W) : Prop :=
  p ∈ wpods w ∧ get (pod_Labels p) ContainerLabelPodUID = pe_PodUid o ∧
  c ∈ wctrs w ∧ is_container (pe_PodUid o) ContainerNamePause c.

Lemma pod_ready_adds o p c w w' : adds o p w w' → pod_ready o p c w → pod_ready o p c w'.
Proof.
  intros Ha (H1 & H2 & H3 & H4). pose proof (adds_elem _ _ _ _ _ Ha H3). destruct Ha as [Hp _].
  unfold pod_ready. by rewrite Hp.
Qed.

(** The pause container of [pause_in_pod] is in the pod and labelled. *)
Lemma wp_pause_in_pod r ctx o p i ic (w : W) :
  wp (pause_in_pod r ctx o p i ic) (λ out w', ∀ x, out = Ok x →
    x.1.1 = p ∧ x.1.2 ∈ wctrs w' ∧ ctr_Labels x.1.2 = ContainerLabels o ContainerNamePause ∧
    adds o p w w') w.
Proof.
  unfold pause_in_pod. cbv zeta. apply wp_rollback.
  eapply (wp_mono _ (λ out w', ∀ x, out = Ok x →
    x.1.1 = p ∧ x.1.2 ∈ wctrs w' ∧ ctr_Labels x.1.2 = ContainerLabels o ContainerNamePause ∧
    adds o p w w')).
  { intros [x|e|pp|] w' H; try done. unfold wp. by destruct (cleanup_pod r p w') as [[] ?]. }
  assert (∀ c w1 w2, created p (GetContainerName (pe_Namespace o) (pe_Name o) ContainerNamePause)
            (ContainerLabels o ContainerNamePause) c w w1 → same_store w1 w2 →
          c ∈ wctrs w2 ∧ ctr_Labels c = ContainerLabels o ContainerNamePause ∧ adds o p w w2) as Hcr.
  { intros c w1 w2 (Hp & Hc & _ & _ & Hl & Hpod & _) [Hc2 Hp2]. rewrite Hc2. split.
    - rewrite Hc. by left.
    - split; [done|]. split; [congruence|]. exists [c]. rewrite Hc2. split; [done|].
      apply Forall_singleton. split; eauto. }
  apply wp_bind. eapply wp_mono; [|by apply wp_invoke_quiet].
  intros [[]|e|pp|] w0 [Hs0 Ho0]; simpl; [|done..].
  apply wp_bind. eapply wp_mono; [|apply wp_NewContainer].
  intros [c|e|pp|] w1 [Hp1 Ho1]; simpl; [|done..].
  apply wp_rollback, wp_bind.
  eapply wp_mono; [|apply wp_keeps, (keeps_pause_started (R := same_store))].
  intros [b|e|pp|] w2 Hs2; simpl; [|unfold wp; by destruct (cleanup_pod r p w2) as [[] ?]|done..].
  apply wp_ret. intros x [= <-]. simpl. split; [done|].
  apply (Hcr c w1 w2); [|done]. destruct Hs0 as [Hc0 Hp0], Ho1 as (?&?&?&?&?&?).
  unfold created. rewrite <- Hc0, <- Hp0. by repeat split.
Qed.

Lemma wp_createPauseContainer r ctx o (w : W) :
  wp (createPauseContainer r ctx o) (λ out w', ∀ x, out = Ok x → pod_ready o x.1.1 x.1.2 w') w.
Proof.
  unfold createPauseContainer. apply wp_bind. unfold wp at 1.
  destruct (delete_previous r ctx (pod_name o) w) as [[[]|e|p|] w1]; simpl; [|done..].
  apply wp_bind. unfold wp at 1.
  destruct (require_abbot o w1) as [[[]|e|p|] w2]; simpl; [|done..].
  apply wp_bind. unfold wp at 1.
  destruct (invoke (Image_NewFromLocal (rt_pauseImage r)) w2) as [[i|e|p|] w3]; simpl; [|done..].
  apply wp_bind. unfold wp at 1.
  destruct (getImageConfig i w3) as [[ic|e|p|] w4]; simpl; [|done..].
  apply wp_bind. eapply wp_mono; [|apply wp_NewPod].
  intros [p|e|p|] w5 [_ Hp]; simpl; [|done..]. destruct Hp as (_ & Hl & _ & _ & Hp).
  eapply wp_mono; [|apply wp_pause_in_pod]. intros out w6 Ho x Hx.
  destruct (Ho x Hx) as (-> & Hc & Hcl & [Hpods _]).
  split; [rewrite Hpods, Hp; by left|]. rewrite Hl. split; [apply get_Some, pod_labels_uid|].
  split; [done|]. by apply container_filter_is, ContainerLabels_matches.
Qed.

Lemma wp_obtain_pod r ctx o (w : W) :
  wp (obtain_pod r ctx o) (λ out w', ∀ x, out = Ok x → pod_ready o x.1.1 x.1.2 w') w.
Proof.
  unfold obtain_pod. apply wp_bind, wp_try. eapply wp_mono; [|apply wp_findPod].
  intros [p|e|p|] w1 [[Hc1 Hp1] Hp]; simpl; [| |done..].
  - apply wp_bind, wp_try. eapply wp_mono; [|apply wp_findContainerByLabels].
    intros [c|e|pp|] w2 [[Hc2 Hp2] Hf]; simpl in Hf; simpl; [| |done..].
    + apply wp_ret. intros x [= <-]. simpl.
      assert (p ∈ wpods w ∧ podLabelFilterFunc (pod_filter (pe_PodUid o)) p = true) as [Hin Hm].
      { apply elem_of_bfilter. rewrite Hp. by left. }
      unfold pod_ready. rewrite Hp2, Hp1, Hc2. destruct Hf as [Hin' Hm'%container_filter_is].
      by apply pod_filter_get in Hm.
    + apply wp_bind. unfold wp at 1. by destruct (ignore (deletePod r TODO p) w2) as [[] w3].
  - destruct (negb (errors_Is e ErrNotFound)); [by apply wp_fail|].
    apply wp_wrap. eapply wp_mono; [|apply wp_createPauseContainer]. by intros [] w2 Ho.
Qed.

(** The container made for a container spec. *)
Definition container_for (o : PodEnsureCmd) (p : Pod) (spec : ContainerSpec) (c : Container)
    (w : W) : Prop :=
  c ∈ wctrs w ∧ ctr_PodID c = pod_ID p ∧ ctr_Labels c = ContainerLabels o (cs_Name spec) ∧
  ctr_Name c = GetContainerName (pe_Namespace o) (pe_Name o) (cs_Name spec).

Lemma container_for_adds o p spec c w w' :
  adds o p w w' → container_for o p spec c w → container_for o p spec c w'.
Proof. intros Ha [Hin H]. split; [by eapply adds_elem|done]. Qed.

Lemma wp_create_containers r o p pc (w : W) :
  wp (create_containers r o p pc) (λ out w', ∀ l, out = Ok l →
    Forall2 (λ spec ch, container_for o p spec ch.1 w' ∧ ch.2 = cs_HookPostStart spec)
      (pe_Containers o) l) w.
Proof.
  unfold create_containers, map_m.
  eapply (wp_fold_m (λ rest acc w', ∃ before, pe_Containers o = before ++ rest ∧
    Forall2 (λ spec ch, container_for o p spec ch.1 w' ∧ ch.2 = cs_HookPostStart spec) before acc)).
  - exists []. split; [done|constructor].
  - intros spec rest acc w1 (before & Heq & Hall).
    pose proof (keeps_adds_createContainer o p r spec (SharedNamespaces (ctr_ID pc) o) w1) as Ha.
    apply wp_bind, wp_bind, wp_wrap.
    pose proof (wp_createContainer r o p spec (SharedNamespaces (ctr_ID pc) o) w1) as Hc.
    unfold wp in Hc |- *.
    destruct (createContainer r o p spec _ w1) as [[c|e|pp|] w2]; simpl in *; [|done..].
    exists (before ++ [spec]). rewrite <- app_assoc. split; [done|].
    apply Forall2_app.
    + eapply Forall2_impl; [|exact Hall]. intros s' ch [H1 H2]. split; [|done].
      by eapply container_for_adds.
    + constructor; [|constructor]. destruct Hc as (_ & Hp & _ & Hn & Hl & Hpod & _).
      split; [|done]. split; [simpl; rewrite Hp; by left|done].
  - intros acc w1 (before & Heq & Hall) l [= <-]. rewrite app_nil_r in Heq. by rewrite Heq.
Qed.

(** What a started container went through: its start succeeded; with [Wait]
    it was waited for, without it was seen not to have exited. *)
Definition started (c : Container) (w : W) : Prop := performed (Ctr_Start c false) (inr ()) w.
Definition waited (c : Container) (w : W) : Prop := ∃ code, performed (Ctr_Wait c) (code, None) w.
Definition alive (c : Container) (w : W) : Prop :=
  ∃ code, performed (Ctr_ExitCode c) (inr (code, false)) w.

Lemma wp_start_container ctx o ch (w : W) :
  wp (start_container ctx o ch) (λ out w', ∀ u, out = Ok u →
    started ch.1 w' ∧ (pe_Wait o = true → waited ch.1 w')) w.
Proof.
  unfold start_container. apply wp_bind, wp_wrap. eapply wp_mono; [|apply wp_invoke_performed].
  intros [[]|e|pp|] w1 Hst; simpl; [|done..]. specialize (Hst _ eq_refl).
  apply wp_bind.
  eapply wp_mono; [|apply (wp_keeps trace_grows); destruct ch.2; keeps_solve].
  intros [[]|e|pp|] w2 Hg2; simpl; [|done..].
  assert (started ch.1 w2) as Hst2 by by eapply performed_grows.
  destruct (pe_Wait o); simpl; [|by apply wp_ret].
  apply wp_bind, wp_perform. intros w3 _ Ht _ _ _. simpl.
  destruct (handle (Ctr_Wait ch.1) (w_env w2)).1 as [code [d|]] eqn:Ex; [by apply wp_fail|].
  apply wp_ret. intros u _. simpl in Ht. split.
  - eapply performed_grows; [|exact Hst2]. eexists. exact Ht.
  - intros _. exists code. unfold performed. rewrite Ht. set_solver.
Qed.

Lemma wp_check_container o c (w : W) :
  wp (check_container o c) (λ out w', ∀ u, out = Ok u → pe_Wait o = false → alive c w') w.
Proof.
  unfold check_container. destruct (pe_Wait o); [by apply wp_ret|].
  apply wp_bind, wp_wrap. eapply wp_mono; [|apply wp_invoke_performed].
  intros [[code exited]|e|pp|] w1 Hst; simpl; [|done..]. specialize (Hst _ eq_refl).
  destruct exited; [by apply wp_fail|]. apply wp_ret. intros _ _ _. by exists code.
Qed.

(** A loop over containers, each of which leaves a mark in the trace. *)
Lemma wp_for_each_trace {A} (body : A → M W unit) (P : A → W → Prop) l (w : W) :
  (∀ x, keeps trace_grows (body x)) →
  (∀ x w w', trace_grows w w' → P x w → P x w') →
  (∀ x w, wp (body x) (λ out w', ∀ u, out = Ok u → P x w') w) →
  wp (for_each l body) (λ out w', ∀ u, out = Ok u → Forall (λ x, P x w') l) w.
Proof.
  intros Hk Hmono Hb. unfold for_each.
  eapply (wp_fold_m (λ rest _ w', ∃ before, l = before ++ rest ∧ Forall (λ x, P x w') before)).
  - by exists [].
  - intros x rest [] w1 (before & Heq & Hall).
    eapply wp_mono; [|apply wp_and; [apply wp_keeps, Hk|apply Hb]].
    intros [[]|e|pp|] w2 [Hg Ho]; simpl; [|done..].
    exists (before ++ [x]). rewrite <- app_assoc. split; [done|]. apply Forall_app. split.
    + eapply Forall_impl; [|exact Hall]. intros y. by apply Hmono.
    + apply Forall_singleton. by eapply Ho.
  - intros [] w1 (before & Heq & Hall) u _. rewrite app_nil_r in Heq. by subst.
Qed.

Definition named (n : string) : bool := negb (bool_decide (n = ""%string)).

(** The status keys of containers made from the specs are the names of the
    specs. *)
Lemma reportable_names o p specs ctrs (w : W) :
  Forall2 (λ spec c, container_for o p spec c w) specs ctrs →
  ctr_label_name <$> List.filter (reportable (pe_PodUid o)) ctrs =
  List.filter named (cs_Name <$> specs).
Proof.
  induction 1 as [|spec c specs ctrs (_ & _ & Hl & _) _ IH]; [done|].
  rewrite fmap_cons. cbn [List.filter].
  assert (ctr_label_name c = cs_Name spec) as Hn
    by (unfold ctr_label_name; rewrite Hl; apply get_Some, ContainerLabels_container).
  assert (reportable (pe_PodUid o) c = named (cs_Name spec)) as ->.
  { unfold reportable. fold (ctr_label_name c). rewrite Hn, Hl.
    rewrite (get_Some _ _ _ (ContainerLabels_uid o (cs_Name spec))).
    rewrite (bool_decide_eq_true_2 (pe_PodUid o = _)) by done. simpl. by rewrite orb_false_r. }
  destruct (named (cs_Name spec)); rewrite ?fmap_cons; congruence.
Qed.

(** The containers of the request run in the pod. *)
Definition runs (o : PodEnsureCmd) (p : Pod) (w : W) (spec : ContainerSpec) (c : Container) : Prop :=
  container_for o p spec c w ∧ started c w ∧ (if pe_Wait o then waited c w else alive c w).

(** The status message of a request. *)
Definition status_of (o : PodEnsureCmd) (msg : PodStatusMsg) : Prop :=
  psm_Uid msg = pe_PodUid o ∧
  dom (psm_Containers msg) = list_to_set (List.filter named (cs_Name <$> pe_Containers o)).

Definition ensured (o : PodEnsureCmd) (p : Pod) (msg : PodStatusMsg) (w : W) : Prop :=
  (∃ pc, pod_ready o p pc w) ∧ (∃ ctrs, Forall2 (runs o p w) (pe_Containers o) ctrs) ∧
  status_of o msg.

Lemma started_grows c (w w' : W) : trace_grows w w' → started c w → started c w'.
Proof. apply performed_grows. Qed.
Lemma waited_grows c (w w' : W) : trace_grows w w' → waited c w → waited c w'.
Proof. intros Hg [x Hx]. exists x. by eapply performed_grows. Qed.
Lemma alive_grows c (w w' : W) : trace_grows w w' → alive c w → alive c w'.
Proof. intros Hg [x Hx]. exists x. by eapply performed_grows. Qed.

Lemma container_for_same o p spec c (w w' : W) :
  same_store w w' → container_for o p spec c w → container_for o p spec c w'.
Proof. intros [Hc _]. unfold container_for. by rewrite Hc. Qed.

Lemma ensured_calm o p msg (w w' : W) : calm w w' → ensured o p msg w → ensured o p msg w'.
Proof.
  intros [Hs Hg] ([pc Hpc] & [ctrs Hc] & Hm). split; [|split; [|done]].
  - exists pc. eapply pod_ready_adds; [by apply adds_same|done].
  - exists ctrs. eapply Forall2_impl; [|exact Hc]. intros spec c (H1 & H2 & H3).
    split; [by eapply container_for_same|]. split; [by eapply started_grows|].
    destruct (pe_Wait o); [by eapply waited_grows|by eapply alive_grows].
Qed.

Lemma runs_intro o p (w : W) specs ctrs :
  Forall2 (λ spec c, container_for o p spec c w) specs ctrs →
  Forall (λ c, started c w ∧ (pe_Wait o = true → waited c w)) ctrs →
  Forall (λ c, pe_Wait o = false → alive c w) ctrs →
  Forall2 (runs o p w) specs ctrs.
Proof.
  induction 1 as [|spec c specs ctrs Hc _ IH]; intros Hst Hal; [constructor|].
  inversion Hst as [|?? [H1 H2] Hst']; subst. inversion Hal as [|?? H3 Hal']; subst.
  constructor; [|by apply IH]. split; [done|]. split; [done|]. destruct (pe_Wait o); auto.
Qed.

Lemma wp_run_containers r ctx o p pc b (w : W) :
  pod_ready o p pc w →
  wp (run_containers r ctx o p pc b) (λ out w', ∀ msg, out = Ok msg → ensured o p msg w') w.
Proof.
  intros Hready. unfold run_containers. apply wp_bind. unfold wp at 1.
  pose proof (keeps_start_pause (R := calm) pc w) as [Hs1 _].
  destruct (start_pause pc w) as [[[]|e|pp|] w1]; simpl in *; [|done..].
  apply wp_bind. eapply wp_mono; [|apply wp_and; [apply wp_keeps,
    (keeps_adds_create_containers o p r pc)|apply wp_create_containers]].
  intros [l|e|pp|] w2 [Ha Hl]; simpl; [|done..]. specialize (Hl _ eq_refl).
  assert (pod_ready o p pc w2) as Hready2
    by (eapply pod_ready_adds; [done|]; eapply pod_ready_adds; [by apply adds_same|done]).
  apply wp_bind. eapply wp_mono; [|apply wp_and; [apply (wp_keeps calm); unfold for_each; keeps_solve|
    apply (wp_for_each_trace (start_container ctx o)
      (λ ch w, started ch.1 w ∧ (pe_Wait o = true → waited ch.1 w)))]];
    [|intros; keeps_solve| |intros; apply wp_start_container]; cycle 1.
  { intros ch w' w'' Hg [H1 H2]. split; [by eapply started_grows|].
    intros Hw. eapply waited_grows; eauto. }
  intros [[]|e|pp|] w3 [[Hs3 Hg3] Hst]; simpl; [|done..]. specialize (Hst _ eq_refl).
  apply wp_bind. eapply wp_mono; [|apply (wp_keeps calm); keeps_solve].
  intros [[]|e|pp|] w4 [Hs4 Hg4]; simpl; [|done..].
  apply wp_bind. eapply wp_mono; [|apply wp_and; [apply (wp_keeps calm); unfold for_each; keeps_solve|
    apply (wp_for_each_trace (check_container o) (λ c w, pe_Wait o = false → alive c w))]];
    [|intros; keeps_solve| |]; cycle 1.
  { intros c w' w'' Hg H Hw. eapply alive_grows; eauto. }
  { intros c w'. eapply wp_mono; [|apply wp_check_container]. eauto. }
  intros [[]|e|pp|] w5 [[Hs5 Hg5] Hal]; simpl; [|done..]. specialize (Hal _ eq_refl).
  eapply wp_mono; [|apply wp_and; [apply (wp_keeps calm); keeps_solve|apply wp_translatePodStatus]].
  intros out w6 [[Hs6 Hg6] [_ Ho]] msg ->.
  assert (same_store w2 w6) as Hs26 by by do 3 (etrans; [done|]).
  assert (trace_grows w3 w6) as Hg36 by by do 2 (etrans; [done|]).
  assert (Forall2 (λ spec c, container_for o p spec c w6) (pe_Containers o) l.*1) as Hfor.
  { apply Forall2_fmap_r. eapply Forall2_impl; [|exact Hl]. intros spec ch [H _].
    by eapply container_for_same. }
  destruct Ho as (Huid & _ & Hdom).
  assert (get (ctr_Labels pc) ContainerLabelPodUID = pe_PodUid o) as Hpc by apply Hready.
  rewrite Hpc in Huid, Hdom. split; [|split].
  - exists pc. eapply pod_ready_adds; [by apply adds_same|done].
  - exists l.*1. apply runs_intro; [done|..].
    + apply Forall_fmap. eapply Forall_impl; [|exact Hst]. intros ch [H1 H2]. simpl.
      split; [by eapply started_grows|]. intros Hw. eapply waited_grows; [exact Hg36|auto].
    + eapply Forall_impl; [|exact Hal]. intros c H Hw. eapply alive_grows; [exact Hg6|auto].
  - split; [done|]. rewrite Hdom. f_equal. by eapply reportable_names.
Qed.

(** A successful [EnsurePod]. *)
Lemma wp_EnsurePod_success r ctx o (w : W) :
  wp (EnsurePod r ctx o) (λ out w', ∀ msg, out = Ok msg → ∃ p, ensured o p msg w') w.
Proof.
  unfold EnsurePod. apply wp_bind. unfold wp at 1, PodActionContext, with_timeout. simpl.
  set (ctx' := WithTimeout _ _ _). set (w1 := mkWorld _ _ _ _ _). clearbody w1.
  apply wp_with_defer.
  eapply (wp_mono _ (λ out w', ∀ msg, out = Ok msg → ∃ p, ensured o p msg w')).
  { intros [msg|e|pp|] w2 Ho; [..|done]; unfold wp.
    - destruct (Ho msg eq_refl) as [p Hp].
      destruct ctx'; simpl; intros m [= <-]; exists p; eapply ensured_calm; try exact Hp;
        by apply frame_local.
    - destruct ((cancel_ctx ctx';; on_error (cleanup_pod_data r (pe_PodUid o)) (Err e)) w2)
        as [[] ?]; done.
    - destruct ((cancel_ctx ctx';; on_error (cleanup_pod_data r (pe_PodUid o)) (Panic pp)) w2)
        as [[] ?]; done. }
  apply wp_bind. eapply wp_mono; [|apply wp_obtain_pod].
  intros [x|e|pp|] w2 Hx; simpl; [|done..]. specialize (Hx _ eq_refl).
  apply wp_rollback. eapply wp_mono; [|by apply wp_run_containers].
  intros [msg|e|pp|] w3 Ho; [eauto| |done..].
  unfold wp. by destruct (cleanup_pod r x.1.1 w3) as [[] ?].
Qed.
End success.

(** ** Failure

    The rollback is [deletePod], which refuses a pod without a pause container
    and asks abbot about a pod on the cluster network.  On the host network
    and with a reliable engine it succeeds whenever the pause container was
    created. *)

Section rollback.
Context {E : Type} `{!Env E, !Store E, !LibpodLaws E}.
Notation W := (World E).
Context (ok : E → Prop) `{!reliable ok}.

Lemma wp_RemovePod_reliable p (w : W) :
  ok (w_env w) →
  wp (invoke (RemovePod p true true)) (λ o w',
    o = Ok () ∧ ok (w_env w') ∧ wpods w' = List.filter (other_pod p) (wpods w) ∧
    wctrs w' = List.filter (outside_pod p) (wctrs w)) w.
Proof.
  intros Hok. pose proof (reliable_RemovePod p _ Hok) as Hr.
  eapply (wp_mono _ (λ o w', (o = Ok () ∧ ok (w_env w')) ∧
    match o with Ok _ => wpods w' = List.filter (other_pod p) (wpods w) ∧
                         wctrs w' = List.filter (outside_pod p) (wctrs w) | _ => True end)).
  { intros out w' [[-> Hok'] H]. naive_solver. }
  apply wp_and; [apply wp_and|].
  - unfold invoke. apply wp_bind, wp_perform. intros w' _ _ _ _ _. by rewrite Hr.
  - apply (keeps_invoke_any (R := stays ok) _ w Hok).
  - eapply wp_mono; [|apply wp_RemovePod]. intros [] w' [_ H]; naive_solver.
Qed.

(** The containers a lookup of the pause container can return. *)
Definition pause_candidate (uid : string) (w : W) (c : Container) : Prop :=
  c ∈ wctrs w ∧ ctr_matches (container_filter uid ContainerNamePause) c.

Definition removable (labels : strmap) : Prop :=
  IsHostNetwork labels = true ∧ IsAbbotPod labels = false.

Lemma wp_cleanup_pod r p uid (w : W) :
  ok (w_env w) → pod_Labels p !! ContainerLabelPodUID = Some uid →
  (∀ c, pause_candidate uid w c → removable (ctr_Labels c)) →
  wp (cleanup_pod r p) (λ out w', out = Ok () ∧ ok (w_env w') ∧
    ((∃ c, pause_candidate uid w c) →
       wpods w' = List.filter (other_pod p) (wpods w) ∧
       wctrs w' = List.filter (outside_pod p) (wctrs w)) ∧
    ((∀ c, ¬ pause_candidate uid w c) → same_store w w')) w.
Proof.
  intros Hok Hl Hrem. unfold cleanup_pod. apply wp_ignore. unfold deletePod. rewrite Hl.
  unfold deletePod_checks. apply wp_bind, wp_bind.
  eapply wp_mono; [|by apply (wp_findContainerByLabels_reliable ok)].
  intros [c|e|pp|] w1 [[Hs1 Hok1] Hf]; simpl; [| |done..].
  - destruct (Hrem c Hf) as [Hh Ha]. apply wp_bind.
    eapply wp_mono; [|apply (wp_ignore_returns _ (λ w', same_store w1 w' ∧ stays ok w1 w'));
      [apply returns_invoke|apply wp_and; apply wp_keeps; keeps_solve]].
    intros out w2 [-> [Hs2 Hok2]]. simpl. specialize (Hok2 Hok1).
    assert (same_store w w2) as [Hc Hp] by by etrans.
    rewrite Hh. simpl. apply wp_bind, wp_ret. unfold deny_abbot_deletion. rewrite Ha.
    simpl. apply wp_ret. simpl. eapply wp_mono; [|by apply wp_RemovePod_reliable].
    intros out w3 (-> & Hok3 & Hp3 & Hc3). rewrite Hc, Hp in *.
    split; [done|]. split; [done|]. split; [done|]. intros Hno. by destruct (Hno c).
  - destruct Hf as [-> Hno]. split; [done|]. split; [done|]. split; [|done].
    intros [c [Hin Hm]]. by destruct (Hno c Hin).
Qed.

(** A request on the host network that is not for the abbot pod. *)
Context (o : PodEnsureCmd).
Hypothesis Hhost : pe_HostNetwork o = true.
Hypothesis Hrole : get (pe_Labels o) LabelRole ≠ LabelRoleValueAbbot.

Lemma request_removable n : removable (ContainerLabels o n).
Proof.
  split; [rewrite ContainerLabels_hostnet; by rewrite Hhost|].
  by rewrite ContainerLabels_abbot, Hhost, bool_decide_eq_false_2.
Qed.

Definition fresh_request (w : W) : Prop := ∀ c, ¬ pause_candidate (pe_PodUid o) w c.

Lemma fresh_request_perm w w' : wctrs w' ≡ₚ wctrs w → fresh_request w → fresh_request w'.
Proof. intros Hc Hf c [Hin Hm]. apply (Hf c). split; [|done]. by rewrite <- Hc. Qed.

Lemma candidates_removable p w w' :
  adds o p w w' → fresh_request w →
  ∀ c, pause_candidate (pe_PodUid o) w' c → removable (ctr_Labels c).
Proof.
  intros [_ (l & Hc & Hm)] Hf c [Hin Hmatch]. rewrite Hc in Hin.
  apply elem_of_app in Hin as [Hin|Hin]; [|by destruct (Hf c)].
  rewrite List.Forall_forall in Hm. apply list_elem_of_In, Hm in Hin as [_ [n ->]].
  apply request_removable.
Qed.

(** The store of [w], possibly without the pod. *)
Definition taken_back (p : Pod) (w w' : W) : Prop :=
  ok (w_env w') ∧ wctrs w' ≡ₚ wctrs w ∧
  (wpods w' = wpods w ∨ wpods w' = List.filter (other_pod p) (wpods w)).

(** The rollback once the pause container exists. *)
Lemma wp_cleanup_pod_grown r p c (w w' : W) :
  pod_Labels p = pod_labels o → pod_ID p ∉ ctr_PodID <$> wctrs w → fresh_request w →
  ok (w_env w') → adds o p w w' → pause_candidate (pe_PodUid o) w' c →
  wp (cleanup_pod r p) (λ out w'', out = Ok () ∧ ok (w_env w'') ∧ wctrs w'' ≡ₚ wctrs w ∧
    wpods w'' = List.filter (other_pod p) (wpods w)) w'.
Proof.
  intros Hl Hid Hf Hok Ha Hc.
  eapply wp_mono; [|apply (wp_cleanup_pod r p (pe_PodUid o)); [done| |by eapply candidates_removable]].
  - intros out w2 (-> & Hok2 & Hdel & _). destruct Hdel as [Hp2 Hc2]; [eauto|].
    repeat split; [done| |].
    + rewrite Hc2. by apply (adds_outside o).
    + rewrite Hp2. by destruct Ha as [-> _].
  - rewrite Hl. apply pod_labels_uid.
Qed.

Lemma wp_pause_in_pod_failure r ctx p i ic (w : W) :
  ok (w_env w) → pod_Labels p = pod_labels o → pod_ID p ∉ ctr_PodID <$> wctrs w →
  fresh_request w →
  wp (pause_in_pod r ctx o p i ic) (λ out w',
    match out with Err _ => taken_back p w w' | Ok _ => ok (w_env w') | _ => True end) w.
Proof.
  intros Hok Hl Hid Hf. unfold pause_in_pod. cbv zeta. apply wp_rollback.
  eapply (wp_mono _ (λ out w',
    match out with Err _ => taken_back p w w' | Ok _ => ok (w_env w') | _ => True end)).
  { intros [x|e|pp|] w' H; try done. destruct H as (Hok' & Hc & Hp).
    eapply wp_mono; [|apply (wp_cleanup_pod r p (pe_PodUid o)); [done| |]].
    - intros out w2 (-> & Hok2 & _ & Hs). destruct Hs as [Hc2 Hp2].
      { by apply (fresh_request_perm w w'). }
      unfold taken_back. by rewrite Hc2, Hp2.
    - rewrite Hl. apply pod_labels_uid.
    - intros c Hcand. destruct (fresh_request_perm w w' Hc Hf c Hcand). }
  apply wp_bind. eapply wp_mono; [|apply wp_and; [apply (wp_keeps (stays ok)); keeps_solve|by apply wp_invoke_quiet]].
  intros [[]|e|pp|] w0 [Hok0 [[Hc0 Hp0] Ho0]]; simpl; [| |done..]; specialize (Hok0 Hok); cycle 1.
  { split; [done|]. rewrite Hc0, Hp0. auto. }
  apply wp_bind. eapply wp_mono; [|apply wp_and; [apply (wp_keeps (stays ok)); keeps_solve|apply wp_NewContainer]].
  intros [c|e|pp|] w1 [Hok1 [Hp1 Ho1]]; simpl; [| |done..]; specialize (Hok1 Hok0); cycle 1.
  { split; [done|]. rewrite Hp1, Ho1, Hc0, Hp0. auto. }
  destruct Ho1 as (_ & Hcl & Hcp & _ & _ & Hc1). simpl in Hcl, Hcp.
  assert (adds o p w w1) as Ha.
  { split; [congruence|]. exists [c]. rewrite Hc1, Hc0. split; [done|].
    apply Forall_singleton. split; eauto. }
  apply wp_rollback, wp_bind.
  eapply wp_mono; [|apply wp_and; [apply (wp_keeps (stays ok)); keeps_solve|
    apply wp_keeps, (keeps_pause_started (R := adds o p))]].
  intros [b|e|pp|] w2 [Hok2 Ha2]; simpl; [by apply Hok2| |done..].
  eapply wp_mono; [|eapply (wp_cleanup_pod_grown r p c w w2); [done..|by apply Hok2|by etrans|]].
  - intros out w3 (-> & Hok3 & Hc3 & Hp3). split; [done|]. auto.
  - split; [|by apply ContainerLabels_matches]. eapply adds_elem; [exact Ha2|].
    rewrite Hc1. by left.
Qed.

(** No pod has the UID, the name, or an ID that starts with the name. *)
Definition unused_name (w : W) : Prop :=
  List.filter (podLabelFilterFunc (pod_filter (pe_PodUid o))) (wpods w) = [] ∧
  ∀ p, p ∈ wpods w → pod_Name p ≠ pod_name o ∧ String.prefix (pod_name o) (pod_ID p) = false.

(** The pod is the only addition to the pods of [w], and no container of [w]
    refers to it. *)
Definition with_pod (p : Pod) (w w' : W) : Prop :=
  pod_Labels p = pod_labels o ∧ pod_ID p ∉ pod_ID <$> wpods w ∧
  pod_ID p ∉ ctr_PodID <$> wctrs w ∧ wpods w' ≡ₚ p :: wpods w.

(** The store of [w], possibly with a pod that has no container. *)
Definition restored (w w' : W) : Prop :=
  wctrs w' ≡ₚ wctrs w ∧ (wpods w' ≡ₚ wpods w ∨ ∃ p, with_pod p w w').

Lemma with_pod_removed p w w' :
  with_pod p w w' → List.filter (other_pod p) (wpods w') ≡ₚ wpods w.
Proof.
  intros (_ & Hid & _ & Hp). rewrite Hp. simpl. unfold other_pod at 1.
  rewrite bool_decide_eq_true_2 by done. simpl. rewrite bfilter_all; [done|].
  intros q Hq. unfold other_pod. rewrite negb_true_iff, bool_decide_eq_false. intros Heq.
  apply Hid. rewrite <- Heq. by apply list_elem_of_fmap_2.
Qed.

Lemma restored_same w w1 w2 : restored w w1 → same_store w1 w2 → restored w w2.
Proof. intros H [Hc Hp]. unfold restored, with_pod in *. by rewrite Hc, Hp. Qed.

Lemma wp_delete_previous_unused r ctx (w : W) :
  unused_name w → wp (delete_previous r ctx (pod_name o)) (λ _ w', same_store w w') w.
Proof.
  intros [_ Hn]. unfold delete_previous. apply wp_bind, wp_try.
  eapply wp_mono; [|by apply wp_invoke_quiet].
  intros [p|e|pp|] w1 [Hs Hp]; simpl; [|by apply wp_ret|done..].
  apply law_LookupPod in Hp as [Hin Hor]. destruct (Hn p Hin) as [H1 H2].
  destruct Hor as [?|Hpre]; [done|]. rewrite Hpre in H2. discriminate.
Qed.

(** The pod was created with its pause container, or nothing but an empty pod
    is left. *)
Definition obtained_or_restored (w : W) (out : outcome (Pod * Container * option string))
    (w' : W) : Prop :=
  match out with
  | Ok x => ok (w_env w') ∧ pause_candidate (pe_PodUid o) w' x.1.2 ∧
            ∃ w1, with_pod x.1.1 w w1 ∧ wctrs w1 = wctrs w ∧ adds o x.1.1 w1 w'
  | Err _ => restored w w'
  | _ => True
  end.

Lemma wp_createPauseContainer_failure r ctx (w : W) :
  ok (w_env w) → unused_name w → fresh_request w →
  wp (createPauseContainer r ctx o) (obtained_or_restored w) w.
Proof.
  intros Hok Hname Hf. unfold createPauseContainer. apply wp_bind.
  assert (∀ w', same_store w w' → restored w w') as Hsame by (intros w' [Hc Hp]; split; [by rewrite Hc|left; by rewrite Hp]).
  eapply wp_mono; [|apply wp_and; [apply (wp_keeps (stays ok)); unfold delete_previous; keeps_solve|
    by apply wp_delete_previous_unused]].
  intros [[]|e|pp|] w1 [Hok1 Hs1]; simpl; [|by apply Hsame|done..]. specialize (Hok1 Hok).
  apply wp_bind. unfold require_abbot. rewrite Hhost. apply wp_ret. simpl.
  apply wp_bind. eapply wp_mono; [|apply wp_and; [apply (wp_keeps (stays ok)); keeps_solve|
    apply (wp_keeps same_store); keeps_solve]].
  intros [i|e|pp|] w2 [Hok2 Hs2]; simpl; [|apply Hsame; by etrans|done..]. specialize (Hok2 Hok1).
  apply wp_bind. eapply wp_mono; [|apply wp_and; [apply (wp_keeps (stays ok)); keeps_solve|
    apply (wp_keeps same_store); keeps_solve]].
  intros [ic|e|pp|] w3 [Hok3 Hs3]; simpl; [|apply Hsame; do 2 (etrans; [done|]); done|done..].
  specialize (Hok3 Hok2). assert (same_store w w3) as [Hc Hp] by by do 2 (etrans; [done|]).
  apply wp_bind. eapply wp_mono; [|apply wp_and; [apply (wp_keeps (stays ok)); keeps_solve|apply wp_NewPod]].
  intros [p|e|pp|] w4 [Hok4 [Hc4 Hp4]]; simpl; [|apply Hsame; split; congruence|done..].
  specialize (Hok4 Hok3). destruct Hp4 as (_ & Hl & Hid & Hidc & Hp4). rewrite Hc, Hp in *.
  assert (with_pod p w w4) as Hwith by done.
  eapply wp_mono; [|apply wp_and; [apply wp_pause_in_pod|apply wp_pause_in_pod_failure]];
    [|done..|by rewrite Hc4|eapply fresh_request_perm; [|done]; by rewrite Hc4].
  intros [x|e|pp|] w5 [Hx Ho]; simpl; try done.
  - destruct (Hx x eq_refl) as (-> & Hin & Hcl & Ha). split; [done|].
    split; [split; [done|by apply ContainerLabels_matches]|]. eauto.
  - destruct Ho as (_ & Hc5 & Hp5). split; [by rewrite Hc5, Hc4|].
    destruct Hp5 as [Hp5|Hp5].
    + right. exists p. unfold with_pod. by rewrite Hp5.
    + left. rewrite Hp5. by apply with_pod_removed.
Qed.

Lemma wp_obtain_pod_failure r ctx (w : W) :
  ok (w_env w) → unused_name w → fresh_request w →
  wp (obtain_pod r ctx o) (obtained_or_restored w) w.
Proof.
  intros Hok Hname Hf. unfold obtain_pod. apply wp_bind, wp_try.
  eapply wp_mono; [|apply wp_and; [apply (wp_keeps (stays ok)); keeps_solve|apply wp_findPod]].
  intros [p|e|pp|] w1 [Hok1 [[Hc Hp] Ho]]; simpl; [| |done..].
  { destruct Hname as [Hnil _]. rewrite Hnil in Ho. discriminate. }
  specialize (Hok1 Hok).
  destruct (negb (errors_Is e ErrNotFound)).
  { apply wp_fail. split; [by rewrite Hc|left; by rewrite Hp]. }
  apply wp_wrap. eapply wp_mono; [|apply wp_createPauseContainer_failure; [done|..]].
  - intros out w2 Hout. unfold obtained_or_restored, restored, with_pod in *.
    rewrite Hc, Hp in Hout. by destruct out.
  - unfold unused_name. by rewrite Hp.
  - eapply fresh_request_perm; [|done]. by rewrite Hc.
Qed.

(** A failed [EnsurePod] leaves every container as it was, and at most an
    empty pod more. *)
Lemma wp_EnsurePod_failure r ctx (w : W) :
  ok (w_env w) → unused_name w → fresh_request w →
  wp (EnsurePod r ctx o) (λ out w', ∀ e, out = Err e → restored w w') w.
Proof.
  intros Hok Hname Hf. unfold EnsurePod. apply wp_bind.
  unfold wp at 1, PodActionContext, with_timeout. simpl.
  set (ctx' := WithTimeout _ _ _). set (w1 := mkWorld _ _ _ _ _).
  change (ok (w_env w1)) in Hok. change (unused_name w1) in Hname. change (fresh_request w1) in Hf.
  change (restored w) with (restored w1). clearbody ctx' w1. clear w. apply wp_with_defer.
  eapply (wp_mono _ (λ out w', ∀ e, out = Err e → restored w1 w')).
  { intros out w2 Ho.
    assert (∀ d : M W unit, keeps same_store d →
              wp d (λ od w'', match od with Panic p => ∀ e, Panic (A := PodStatusMsg) p = Err e → restored w1 w''
                              | Hang => ∀ e, Hang (A := PodStatusMsg) = Err e → restored w1 w''
                              | _ => ∀ e, out = Err e → restored w1 w'' end) w2) as Hd.
    { intros d Hd. specialize (Hd w2). unfold wp. destruct (d w2) as [[] w3]; simpl in *; try done;
        intros e1 He; eapply restored_same; eauto. }
    destruct out; [..|done]; apply Hd; keeps_solve. }
  apply wp_bind. eapply wp_mono; [|by apply wp_obtain_pod_failure].
  intros [x|e|pp|] w2 Hx; simpl; [|by intros ? _|done..].
  destruct Hx as (Hok2 & Hcand & w0 & Hwith & Hc0 & Ha). apply wp_rollback.
  eapply wp_mono; [|apply wp_and; [apply (wp_keeps (stays ok)); keeps_solve|
    apply wp_keeps, (keeps_adds_run_containers o x.1.1)]].
  intros [msg|e|pp|] w3 [Hok3 Ha3]; try done. specialize (Hok3 Hok2).
  eapply wp_mono; [|eapply (wp_cleanup_pod_grown r x.1.1 x.1.2 w0 w3)].
  - intros out w4 (-> & _ & Hc4 & Hp4) ? _. split; [by rewrite Hc4, Hc0|].
    left. rewrite Hp4. by apply with_pod_removed.
  - apply Hwith.
  - rewrite Hc0. apply Hwith.
  - eapply fresh_request_perm; [|done]. by rewrite Hc0.
  - done.
  - by etrans.
  - destruct Hcand. split; [by eapply adds_elem|done].
Qed.
End rollback.

(** ** A pod without its pause container *)

Section stuck.
Context {E : Type} `{!Env E, !Store E, !LibpodLaws E}.
Notation W := (World E).

(** The only pod of the UID carries the label and has no pause container. *)
Definition headless (uid : string) (p : Pod) (w : W) : Prop :=
  List.filter (podLabelFilterFunc (pod_filter uid)) (wpods w) = [p] ∧
  pod_Labels p !! ContainerLabelPodUID = Some uid ∧
  ∀ c, c ∈ wctrs w → ¬ ctr_matches (container_filter uid ContainerNamePause) c.

Lemma headless_same uid p w w' : same_store w w' → headless uid p w → headless uid p w'.
Proof. intros [Hc Hp]. unfold headless. by rewrite Hc, Hp. Qed.

Lemma headless_not_deletable uid p (w : W) : headless uid p w → ¬ deletable (wctrs w) uid.
Proof. intros (_ & _ & Hno) (c & Hin & Hm & _). by apply (Hno c). Qed.

(** [deletePod] never removes it. *)
Lemma wp_deletePod_headless r ctx uid p (w : W) :
  headless uid p w →
  wp (deletePod r ctx p) (λ out w', same_store w w' ∧ ∃ e, out = Err e) w.
Proof.
  intros Hh. eapply wp_mono; [|apply wp_deletePod].
  intros out w' (_ & Hnd & Ho). pose proof (headless_not_deletable _ _ _ Hh) as Hnot.
  destruct Hh as (_ & Hl & _). split; [by eapply Hnd|].
  destruct out as [[]|e|pp|]; [|by eexists|done..].
  destruct Ho as (_ & _ & Hd). by destruct Hnot; apply Hd.
Qed.

Lemma wp_obtain_pod_headless r ctx o p (w : W) :
  headless (pe_PodUid o) p w →
  wp (obtain_pod r ctx o) (λ out w', same_store w w' ∧ ∃ e, out = Err e) w.
Proof.
  intros Hh. unfold obtain_pod. apply wp_bind, wp_try. eapply wp_mono; [|apply wp_findPod].
  intros [q|e|pp|] w1 [Hs Ho]; simpl; [| |done..].
  - destruct Hh as (Hf & Hl & Hno) eqn:HH. clear HH. rewrite Hf in Ho. simplify_eq.
    assert (headless (pe_PodUid o) q w) as Hh' by done.
    apply wp_bind, wp_try. eapply wp_mono; [|apply wp_findContainerByLabels].
    intros [c|e|pp|] w2 [Hs2 Hfound]; simpl in Hfound; simpl; [| |done..].
    { destruct Hfound as [Hin Hm]. destruct Hs as [Hc _]. rewrite Hc in Hin. by destruct (Hno c). }
    assert (same_store w w2) as Hs' by by etrans.
    apply wp_bind, wp_ignore.
    eapply wp_mono; [|eapply wp_deletePod_headless, headless_same; [exact Hs'|done]].
    intros out w3 [Hs3 [e' ->]]. apply wp_fail. split; [by etrans|eauto].
  - destruct Ho as [[-> Hnil]|[_ Hne]].
    { destruct Hh as (Hf & _). rewrite Hf in Hnil. discriminate. }
    rewrite Hne. simpl. apply wp_fail. eauto.
Qed.

(** [EnsurePod] of such a pod fails and changes nothing, every time. *)
Lemma wp_EnsurePod_headless r ctx o p (w : W) :
  headless (pe_PodUid o) p w →
  wp (EnsurePod r ctx o) (λ out w', same_store w w' ∧ ∀ msg, out ≠ Ok msg) w.
Proof.
  intros Hh. unfold EnsurePod. apply wp_bind. unfold wp at 1, PodActionContext, with_timeout. simpl.
  set (ctx' := WithTimeout _ _ _). set (w1 := mkWorld _ _ _ _ _).
  change (same_store w) with (same_store w1). change (headless (pe_PodUid o) p w1) in Hh.
  clearbody ctx' w1. clear w. apply wp_with_defer, wp_bind.
  eapply wp_mono; [|by eapply wp_obtain_pod_headless]. intros out w2 [Hs [e ->]]. simpl.
  eapply wp_mono; [|apply (wp_keeps same_store); keeps_solve].
  intros out w3 Hs3. assert (same_store w1 w3) by by etrans. by destruct out.
Qed.
End stuck.

(** ** Panics *)

Section panics.
Context {E : Type} `{!Env E, !Store E, !LibpodLaws E}.
Notation W := (World E).
Context (o : PodEnsureCmd).
Hypothesis Hcomplete : complete o.

Lemma never_panics_createContainer r p spec ns :
  spec ∈ pe_Containers o → never_panics (createContainer (E := E) r o p spec ns).
Proof.
  destruct Hcomplete as [Hnet Hmounts]. intros Hspec w. pose proof (wp_createContainer r o p spec ns w) as H. unfold wp in H.
  destruct (createContainer r o p spec ns w) as [[] w']; simpl in *; try done.
  destruct H as [[H|H] _]; [by rewrite H in Hnet; destruct Hnet|by eapply Hmounts].
Qed.

Lemma never_panics_pause_started r ctx c : never_panics (pause_started (E := E) r ctx o c).
Proof. unfold pause_started. destruct Hcomplete as [[n ->] _]. returns_solve. Qed.

Lemma never_panics_create_containers r p c : never_panics (create_containers (E := E) r o p c).
Proof.
  unfold create_containers, map_m. apply returns_fold_m_in. intros b spec Hspec.
  pose proof (never_panics_createContainer r p spec (SharedNamespaces (ctr_ID c) o) Hspec). returns_solve.
Qed.

#[local] Hint Resolve never_panics_create_containers never_panics_pause_started
  never_panics_cleanup_pod_data : returns.

Lemma never_panics_obtain_pod r ctx : never_panics (obtain_pod (E := E) r ctx o).
Proof. unfold obtain_pod, createPauseContainer, pause_in_pod. returns_solve. Qed.

Lemma never_panics_run_containers r ctx p c b : never_panics (run_containers (E := E) r ctx o p c b).
Proof.
  unfold run_containers, start_pause, for_each, start_container, check_container. returns_solve.
Qed.
#[local] Hint Resolve never_panics_obtain_pod never_panics_run_containers : returns.

Lemma never_panics_EnsurePod r ctx : never_panics (EnsurePod (E := E) r ctx o).
Proof. unfold EnsurePod, PodActionContext. returns_solve. Qed.
End panics.
