(* ===== verification/Image.v ===== *)
(** Images: [pkg/runtime/image.go] (getImageConfig is in [Container]). *)

From S2P Require Import Prelude GoPath Proto Labels World Libpod BaseRuntime Storage Find.
From stdpp Require Import base gmap strings pretty list fin_maps numbers.

(** [libpodutil.PullType], an int counted from zero. *)
Definition PullImageAlways : Z := 0.
Definition PullImageMissing : Z := 1.
Definition PullImageNever : Z := 2.

Definition pullTypeMapping : gmap Z Z :=
  {[ IMAGE_PULL_ALWAYS := PullImageAlways;
     IMAGE_PULL_IF_NOT_PRESENT := PullImageMissing;
     IMAGE_PULL_NEVER := PullImageNever ]}.

(** [pullTypeMapping[policy]]: the zero value for an unknown policy. *)
Definition pull_type (policy : Z) : Z := default 0%Z (pullTypeMapping !! policy).

(** The credentials of [dockerRegistryOptions]; [None] is nil options. *)
Definition registry_creds (spec : ImagePullSpec) : option (string * string) :=
  match ip_AuthConfig spec with
  | Some auth => Some (ia_Username auth, ia_Password auth)
  | None => None
  end.

(** The last digest with a sha256 part decides. *)
Definition sha256_of (digests : list string) : string :=
  foldl (λ hash digest, match after_last "sha256:" digest with
                        | Some h => h
                        | None => hash
                        end) ""%string digests.

(** The images of a request and the pause image; a request for the pause image
    itself wins. *)
Definition all_images (pauseImage : string) (options : ImageEnsureCmd) : gmap string (option ImagePullSpec) :=
  ie_Images options ∪
  {[ pauseImage := Some {| ip_AuthConfig := None; ip_PullPolicy := IMAGE_PULL_IF_NOT_PRESENT |} ]}.

Section image.
Context {E : Type} `{!Env E}.
Notation M := (M (World E)).

Definition pull_image (pulled : gmap string Image) (x : string * option ImagePullSpec) :
    M (gmap string Image) :=
  spec ← deref x.2;
  image ← invoke (Image_New x.1 (registry_creds spec) (pull_type (ip_PullPolicy spec)));
  mret (<[x.1 := image]> pulled).

Definition ensureImages (r : libpodRuntime) (ctx : Ctx) (images : gmap string (option ImagePullSpec)) :
    M (gmap string Image) :=
  ctx ← ImageActionContext (rt_base r) ctx;
  with_defer
    (specs ← range_map images;
     fold_m pull_image ∅ specs)
    (λ _, cancel_ctx ctx).

(** One image of the status list. *)
Definition image_status (images : list (option ImageStatusMsg)) (x : string * Image) :
    M (list (option ImageStatusMsg)) :=
  digests ← invoke (Image_RepoDigests x.2);
  let sha256Hash := sha256_of digests in
  if decide (sha256Hash = ""%string) then mret images
  else mret (images ++ [Some {| im_Sha256 := sha256Hash; im_Size := 0; im_Refs := [img_Tag x.2] |}]).

(** The slice is made with one nil entry per pulled image, then appended to. *)
Definition EnsureImages (r : libpodRuntime) (ctx : Ctx) (options : ImageEnsureCmd) :
    M ImageStatusListMsg :=
  pulledImages ← ensureImages r ctx (all_images (rt_pauseImage r) options);
  pulled ← range_map pulledImages;
  images ← fold_m image_status (replicate (size pulledImages) None) pulled;
  mret {| iml_Images := images |}.

Definition DeleteImages (r : libpodRuntime) (ctx : Ctx) : M ImageStatusListMsg := fail ErrNotSupported.
Definition ListImages (r : libpodRuntime) (ctx : Ctx) : M ImageStatusListMsg := fail ErrNotSupported.
End image.

Section frames.
Context {E : Type} `{!Env E} {R : relation (World E)} `{!QuietFrame R}.
Lemma keeps_ImageActionContext r ctx : keeps R (ImageActionContext r ctx).
Proof. apply keeps_with_timeout. Qed.
#[local] Hint Extern 1 (keeps _ (ImageActionContext _ _)) => apply keeps_ImageActionContext : keeps.
Lemma keeps_ensureImages r ctx images : keeps R (ensureImages r ctx images).
Proof. unfold ensureImages, pull_image. keeps_solve. Qed.
#[local] Hint Resolve keeps_ensureImages : keeps.
Lemma keeps_image_status l x : keeps R (image_status l x).
Proof. unfold image_status. keeps_solve. Qed.
#[local] Hint Resolve keeps_image_status : keeps.
Lemma keeps_EnsureImages r ctx o : keeps R (EnsureImages r ctx o).
Proof. unfold EnsureImages. keeps_solve. Qed.
End frames.

#[export] Hint Resolve keeps_ensureImages keeps_image_status keeps_EnsureImages : keeps.

Section specs.
Context {E : Type} `{!Env E, !Store E, !LibpodLaws E}.
Notation W := (World E).

(** The image was pulled as its spec says: with its credentials, if any, and
    never, when missing or always as its policy says (always for a policy that
    is not known). *)
Definition pulled_as (name : string) (spec : ImagePullSpec) (img : Image) (w : W) : Prop :=
  ∃ creds pull, performed (Image_New name creds pull) (inr img) w ∧
    creds = (λ auth, (ia_Username auth, ia_Password auth)) <$> ip_AuthConfig spec ∧
    (ip_PullPolicy spec = IMAGE_PULL_IF_NOT_PRESENT → pull = PullImageMissing) ∧
    (ip_PullPolicy spec = IMAGE_PULL_NEVER → pull = PullImageNever) ∧
    (ip_PullPolicy spec ≠ IMAGE_PULL_IF_NOT_PRESENT → ip_PullPolicy spec ≠ IMAGE_PULL_NEVER →
     pull = PullImageAlways).

Lemma pulled_as_intro name spec img (w : W) :
  performed (Image_New name (registry_creds spec) (pull_type (ip_PullPolicy spec))) (inr img) w →
  pulled_as name spec img w.
Proof.
  intros H. eexists _, _. split; [exact H|]. split; [by destruct spec as [[]]|].
  split; [by intros ->|]. split; [by intros ->|]. intros H1 H2.
  unfold pull_type, pullTypeMapping.
  destruct (decide (ip_PullPolicy spec = IMAGE_PULL_ALWAYS)) as [->|H0]; [done|].
  by rewrite !lookup_insert_ne, lookup_singleton_ne.
Qed.

Lemma pulled_as_grows name spec img (w w' : W) :
  trace_grows w w' → pulled_as name spec img w → pulled_as name spec img w'.
Proof. intros Hg (creds & pull & H & Hs). exists creds, pull. split; [by eapply performed_grows|done]. Qed.

Lemma wp_pull_images (specs : list (string * option ImagePullSpec)) (w : W) :
  wp (fold_m pull_image ∅ specs) (λ o w',
    match o with
    | Ok pulled =>
        dom pulled = list_to_set specs.*1 ∧
        (∀ name img, pulled !! name = Some img →
           ∃ spec, (name, Some spec) ∈ specs ∧ pulled_as name spec img w')
    | Err _ => True
    | Panic _ => ∃ name, (name, None) ∈ specs
    | Hang => False
    end) w.
Proof.
  eapply (wp_fold_m (λ rest pulled w', ∃ before, specs = before ++ rest ∧
    dom pulled = list_to_set before.*1 ∧
    (∀ name img, pulled !! name = Some img →
       ∃ spec, (name, Some spec) ∈ specs ∧ pulled_as name spec img w'))).
  - exists []. split; [done|]. split; [by rewrite dom_empty_L|].
    intros name img. by rewrite lookup_empty.
  - intros [name [spec|]] rest pulled w1 (before & -> & Hdom & Hall); unfold pull_image; apply wp_bind;
      [|exists name; set_solver].
    apply wp_ret. simpl. apply wp_bind. eapply wp_mono; [|apply wp_and; [apply (wp_keeps trace_grows); keeps_solve|
      apply wp_and; [apply wp_invoke_performed|apply wp_returns, returns_invoke]]].
    intros [img|e|pp|] w2 [Hg [Hp Hr]]; simpl; [|done..]. apply wp_ret.
    exists (before ++ [(name, Some spec)]). rewrite <- app_assoc. split; [done|]. split.
    + rewrite dom_insert_L, Hdom, fmap_app, list_to_set_app_L. simpl. set_solver.
    + intros n' i'. rewrite lookup_insert_Some. intros [[<- <-]|[_ Hn]].
      * exists spec. split; [set_solver|]. by apply pulled_as_intro, Hp.
      * destruct (Hall n' i' Hn) as (sp & Hin & Hpu). exists sp. split; [done|].
        by eapply pulled_as_grows.
  - intros pulled w1 (before & Heq & Hdom & Hall). rewrite app_nil_r in Heq. by subst.
Qed.

(** Every requested image, and no other, was pulled. *)
Lemma wp_ensureImages r ctx images (w : W) :
  wp (ensureImages r ctx images) (λ o w', same_store w w' ∧
    match o with
    | Ok pulled =>
        dom pulled = dom images ∧
        (∀ name img, pulled !! name = Some img →
           ∃ spec, images !! name = Some (Some spec) ∧ pulled_as name spec img w')
    | Err _ => True
    | Panic _ => ∃ name, images !! name = Some None
    | Hang => False
    end) w.
Proof.
  apply wp_and; [apply wp_keeps, keeps_ensureImages|].
  unfold ensureImages. apply wp_bind. unfold wp at 1, ImageActionContext, with_timeout. simpl.
  set (c := WithTimeout _ _ _). set (w1 := mkWorld _ _ _ _ _). clearbody w1.
  apply wp_with_defer, wp_bind. eapply wp_mono; [|apply wp_range_map].
  intros o w2 (_ & l & -> & Hl). simpl. eapply wp_mono; [|apply wp_pull_images].
  intros o w3 Ho. destruct o as [pulled|e|pp|]; subst c; simpl; [|done| |done].
  2: { destruct Ho as (name & Hn). exists name. apply elem_of_map_to_list. by rewrite <- Hl. }
  destruct Ho as [Hdom Hall]. split.
  - rewrite Hdom, <- (list_to_map_to_list images), dom_list_to_map_L. by rewrite Hl.
  - intros name img Hn. destruct (Hall name img Hn) as (spec & Hin & Hp). exists spec.
    split; [|done]. apply elem_of_map_to_list. by rewrite <- Hl.
Qed.

Lemma wp_image_statuses (n : nat) l (w : W) :
  wp (fold_m image_status (replicate n None) l) (λ o _,
    match o with
    | Ok images => ∃ msgs, images = replicate n None ++ (Some <$> msgs) ∧
                           Forall (λ m, im_Sha256 m ≠ ""%string) msgs ∧ length msgs ≤ length l
    | Err _ => True
    | _ => False
    end) w.
Proof.
  eapply (wp_fold_m (λ rest images _, ∃ msgs, images = replicate n None ++ (Some <$> msgs) ∧
    Forall (λ m, im_Sha256 m ≠ ""%string) msgs ∧ length msgs + length rest ≤ length l)).
  - exists []. rewrite app_nil_r. split; [done|]. split; [constructor|simpl; lia].
  - intros x rest images w1 (msgs & -> & Hne & Hlen). unfold image_status. apply wp_bind.
    eapply wp_mono; [|apply wp_returns, returns_invoke].
    intros [ds|e|pp|] w2 Hr; simpl; [|done..]. case_decide as Hsha; apply wp_ret; simpl in *.
    + exists msgs. split; [done|]. split; [done|lia].
    + exists (msgs ++ [{| im_Sha256 := sha256_of ds; im_Size := 0; im_Refs := [img_Tag x.2] |}]).
      rewrite fmap_app, app_assoc. split; [done|]. rewrite length_app. simpl. split; [|lia].
      apply Forall_app. split; [done|]. by apply Forall_singleton.
  - intros images w1 (msgs & -> & Hne & Hlen). exists msgs. simpl in Hlen.
    split; [done|]. split; [done|lia].
Qed.

(** The status list of a success: one nil entry per image, then one status per
    image with a digest. *)
Lemma wp_EnsureImages r ctx o (w : W) :
  wp (EnsureImages r ctx o) (λ out w', same_store w w' ∧
    match out with
    | Ok msg => ∃ msgs,
        iml_Images msg = replicate (size (all_images (rt_pauseImage r) o)) None ++ (Some <$> msgs) ∧
        Forall (λ m, im_Sha256 m ≠ ""%string) msgs ∧
        length msgs ≤ size (all_images (rt_pauseImage r) o)
    | Err _ => True
    | Panic _ => ∃ name, all_images (rt_pauseImage r) o !! name = Some None
    | Hang => False
    end) w.
Proof.
  apply wp_and; [apply wp_keeps, keeps_EnsureImages|].
  unfold EnsureImages. apply wp_bind. eapply wp_mono; [|apply wp_ensureImages].
  intros [pulled|e|pp|] w1 [_ Hp]; simpl; [|done..]. destruct Hp as [Hdom _].
  apply wp_bind. eapply wp_mono; [|apply wp_range_map]. intros out w2 (_ & l & -> & Hl). simpl.
  apply wp_bind. eapply wp_mono; [|apply wp_image_statuses].
  intros [images|e|pp|] w3 Ho; simpl; [|done..]. apply wp_ret. simpl.
  assert (size pulled = size (all_images (rt_pauseImage r) o)) as Hsz
    by by rewrite <- !size_dom, Hdom.
  destruct Ho as (msgs & -> & Hne & Hlen). exists msgs. rewrite Hsz. split; [done|].
  split; [done|]. rewrite Hl, length_map_to_list, Hsz in Hlen. done.
Qed.
End specs.
