(* ===== verification/Logs.v ===== *)
(** Container logs: [runtimeutil/actionutil/logs.go].

    Log data is a list of bytes.  [time.Parse], [time.Format] and
    [json.Unmarshal] are parameters of the component.  The read loop asks the
    environment for the file, for what was appended to it and for the events
    of the watcher; each write goes to a writer of the environment.  Times are
    counted from [time.Time{}].  A file that is open is read without error, in
    full blocks: the errors of [Seek] and [Read] on it are not modelled. *)

From S2P Require Import Prelude World Libpod BaseRuntime.
From stdpp Require Import base gmap strings pretty list numbers.
From Stdlib Require Import Ascii.

Local Open Scope nat_scope.
Local Open Scope list_scope.

Notation bytes := (list ascii).

Definition eol : ascii := ascii_of_nat 10.
Definition delimiter : ascii := " "%char.
Definition tagDelimiter : ascii := ":"%char.
Definition tab : ascii := ascii_of_nat 9.

Definition blockSize : nat := 1024.

(** [bytes.Count(l, eol)] *)
Definition count_eol (l : bytes) : nat := length (List.filter (λ c, bool_decide (c = eol)) l).

(** [bytes.Index] of one byte. *)
Fixpoint index_of (c : ascii) (l : bytes) : option nat :=
  match l with
  | [] => None
  | x :: l => if decide (x = c) then Some 0 else S <$> index_of c l
  end.

(** [bytes.Split] at one byte, the first part. *)
Definition split_first (c : ascii) (l : bytes) : bytes :=
  match index_of c l with Some i => take i l | None => l end.

(** [len(l) > 0 && l[len(l)-1] == '\n'] *)
Definition ends_with_eol (l : bytes) : bool := bool_decide (drop (length l - 1) l = [eol]).

(** ** Where the last [n] lines start *)

(** The blocks read backwards from [right], the loop state being the number of
    line ends seen, the offset and the content of the block read last.  Every
    iteration moves [right] down, so [size] iterations are enough. *)
Fixpoint tail_blocks (fuel : nat) (f : bytes) (n right cnt off : nat) (buf : bytes) :
    nat * nat * bytes :=
  match fuel with
  | O => (cnt, off, buf)
  | S fuel =>
      if decide (0 < right ∧ cnt ≤ n) then
        let off := right - blockSize in
        let buf := take (right - off) (drop off f) in
        tail_blocks fuel f n (right - blockSize) (cnt + count_eol buf) off buf
      else (cnt, off, buf)
  end.

(** [for ; cnt > n; cnt-- { ... }]: [k] is [cnt - n]. *)
Fixpoint skip_lines (k : nat) (off : nat) (buf : bytes) : nat :=
  match k with
  | O => off
  | S k =>
      let idx := match index_of eol buf with Some i => S i | None => 0 end in
      skip_lines k (off + idx) (drop idx buf)
  end.

Definition findTailLineStartIndex (f : bytes) (n : Z) : nat :=
  if decide (n < 0)%Z then 0
  else
    let n := Z.to_nat n in
    let '(cnt, off, buf) := tail_blocks (length f) f n (length f) 0 0 [] in
    skip_lines (cnt - n) off buf.

(** ** Messages *)

Inductive streamType :=
| stdout
| stderr
| otherStream (name : bytes).

Record logMessage := mkLogMessage {
  lm_timestamp : Z;
  lm_stream : streamType;
  lm_log : bytes }.

Record LogOptions := mkLogOptions {
  lo_tail : Z;
  lo_bytes : Z;
  lo_since : Z;
  lo_follow : bool;
  lo_timestamp : bool }.

(** [aranyagopb.LogsCmd]; the program reads neither [Previous] nor [Path]. *)
Record LogsCmd := mkLogsCmd {
  lc_PodUid : string;
  lc_Container : string;
  lc_Follow : bool;
  lc_Timestamp : bool;
  lc_Since : string;
  lc_TailLines : Z;
  lc_BytesLimit : Z;
  lc_Previous : bool;
  lc_Path : string }.

Definition stream_of (name : bytes) : streamType :=
  if decide (name = String.list_ascii_of_string "stdout") then stdout
  else if decide (name = String.list_ascii_of_string "stderr") then stderr
  else otherStream name.

Inductive parseFunc := CRILog | DockerJSONLog | ArhatConsoleLog | ArhatJSONLog.

Definition MaxInt64 : Z := 2 ^ 63 - 1.

Section logs.
(** [time.Parse] with the layout of the log ([None]: an error), with the
    layout of arhat, [time.Format], and the two JSON decoders: the fields
    [log], [stream] and [time] of a docker entry, the time of an arhat entry. *)
Context (parse_rfc3339 parse_arhat_time parse_since : bytes → option Z).
Context (format_time : Z → bytes).
Context (docker_json : bytes → option (bytes * bytes * Z)) (arhat_json : bytes → option bytes).

Definition parseCRILog (log : bytes) : error + logMessage :=
  match index_of delimiter log with
  | None => inl (Errorf "timestamp is not found")
  | Some idx =>
      match parse_rfc3339 (take idx log) with
      | None => inl (Errorf "unexpected timestamp format")
      | Some timestamp =>
          let log := drop (S idx) log in
          match index_of delimiter log with
          | None => inl (Errorf "stream type is not found")
          | Some idx =>
              match stream_of (take idx log) with
              | otherStream _ => inl (Errorf "unexpected stream type")
              | stream =>
                  let log := drop (S idx) log in
                  match index_of delimiter log with
                  | None => inl (Errorf "log tag is not found")
                  | Some idx =>
                      let partial := bool_decide (split_first tagDelimiter (take idx log) = ["P"%char]) in
                      let log :=
                        if partial && ends_with_eol log then take (length log - 1) log
                        else log in
                      inr (mkLogMessage timestamp stream (drop (S idx) log))
                  end
              end
          end
      end
  end.

Definition parseDockerJSONLog (log : bytes) : error + logMessage :=
  match docker_json log with
  | None => inl (Errorf "failed to unmarshal log")
  | Some (text, stream, created) =>
      if decide (stream = []) then inl (Errorf "stream type is not found")
      else inr (mkLogMessage created (stream_of stream) text)
  end.

Definition parseArhatConsoleLog (line : bytes) : error + logMessage :=
  match index_of tab line with
  | None => inl (Errorf "unexpected non tab existence")
  | Some i =>
      match parse_arhat_time (take i line) with
      | None => inl (Errorf "unexpected timestamp format")
      | Some timestamp => inr (mkLogMessage timestamp stderr line)
      end
  end.

Definition zero_time : Z := 0.

Definition parseArhatJSONLog (line : bytes) : error + logMessage :=
  match arhat_json line with
  | None => inl (Errorf "invalid json")
  | Some time => inr (mkLogMessage (default zero_time (parse_arhat_time time)) stderr line)
  end.

Definition run_parse (p : parseFunc) (log : bytes) : error + logMessage :=
  match p with
  | CRILog => parseCRILog log
  | DockerJSONLog => parseDockerJSONLog log
  | ArhatConsoleLog => parseArhatConsoleLog log
  | ArhatJSONLog => parseArhatJSONLog log
  end.

Definition parseFuncs : list parseFunc := [CRILog; DockerJSONLog; ArhatConsoleLog; ArhatJSONLog].

(** The first format that parses the sample line. *)
Definition getParseFunc (log : bytes) : error + parseFunc :=
  match List.find (λ p, match run_parse p log with inr _ => true | inl _ => false end) parseFuncs with
  | Some p => inr p
  | None => inl (Errorf "unsupported log format")
  end.

Definition newLogOptions (apiOpts : LogsCmd) : LogOptions :=
  {| lo_tail := lc_TailLines apiOpts;
     lo_bytes := lc_BytesLimit apiOpts;
     lo_since := if decide (lc_Since apiOpts = ""%string) then zero_time
                 else default zero_time (parse_since (String.list_ascii_of_string (lc_Since apiOpts)));
     lo_follow := lc_Follow apiOpts;
     lo_timestamp := lc_Timestamp apiOpts |}.

(** [newLogWriter]: what remains to be written. *)
Definition initial_remain (opts : LogOptions) : Z :=
  if decide (0 ≤ lo_bytes opts)%Z then lo_bytes opts else MaxInt64.

Section read.
Context {E : Type} `{!Env E}.
Notation M := (M (World E)).

Inductive write_result := Written | MaximumWrite.

(** The bytes of a message that go to a writer. *)
Definition log_line (opts : LogOptions) (remain : Z) (msg : logMessage) : bytes :=
  let line := if lo_timestamp opts then format_time (lm_timestamp msg) ++ delimiter :: lm_log msg
              else lm_log msg in
  if decide (remain < Z.of_nat (length line))%Z then take (Z.to_nat remain) line else line.

(** [logWriter.write]: the new value of [remain] and whether it is used up. *)
Definition log_write (opts : LogOptions) (remain : Z) (msg : logMessage) : M (Z * write_result) :=
  if decide (lm_timestamp msg < lo_since opts)%Z then mret (remain, Written)
  else
    let line := log_line opts remain msg in
    match lm_stream msg with
    | otherStream _ => fail (Errorf "unexpected stream type")
    | stream =>
        let is_stderr := match stream with stderr => true | _ => false end in
        res ← perform (Stream_Write is_stderr (String.string_of_list_ascii line));
        let n := res.1 in
        let remain := (remain - Z.of_nat n)%Z in
        match res.2 with
        | Some d => fail (ErrExt d)
        | None =>
            if decide (n < length line) then fail (Errorf "short write")
            else if decide (remain ≤ 0)%Z then mret (remain, MaximumWrite)
            else mret (remain, Written)
        end
    end.

(** [waitLogs]; the watcher can deliver events that are no writes for ever. *)
Fixpoint waitLogs (fuel : nat) (errRetry : nat) : M bool :=
  match fuel with
  | O => hang
  | S fuel =>
      e ← perform Next_FsEvent;
      match e with
      | FsCtxDone => fail ErrCtx
      | FsWrite => mret true
      | FsOther => waitLogs fuel errRetry
      | FsError d =>
          match errRetry with
          | O => fail (ErrExt d)
          | S k => waitLogs fuel k
          end
      end
  end.

Record read_state := mkReadState {
  rs_rest : bytes;           (* unread bytes of the file *)
  rs_stop : bool;
  rs_parse : option parseFunc;
  rs_watcher : bool;
  rs_found : bool;
  rs_remain : Z }.

(** [r.ReadBytes('\n')]: the line with its end, the rest; or the remaining
    bytes at the end of the file. *)
Definition read_line (rest : bytes) : bytes * option bytes :=
  match index_of eol rest with
  | Some i => (take (S i) rest, Some (drop (S i) rest))
  | None => (rest, None)
  end.

(** Parse and write one line; [None] ends the read. *)
Definition emit_line (opts : LogOptions) (st : read_state) (l : bytes) : M (option read_state) :=
  p ← (match rs_parse st with
       | Some p => mret p
       | None => match getParseFunc l with
                 | inr p => mret p
                 | inl e => fail (Errorf "failed to get parse function")
                 end
       end);
  let st := mkReadState (rs_rest st) (rs_stop st) (Some p) (rs_watcher st) (rs_found st) (rs_remain st) in
  match run_parse p l with
  | inl _ => mret (Some st)
  | inr msg =>
      res ← log_write opts (rs_remain st) msg;
      match res.2 with
      | MaximumWrite => mret None
      | Written =>
          mret (Some (mkReadState (rs_rest st) (rs_stop st) (rs_parse st) (rs_watcher st)
                        (rs_found st) res.1))
      end
  end.

(** At the end of the file while following: watch, then wait; the incomplete
    line is read again with what was appended. *)
Definition follow_eof (fuel : nat) (path : string) (st : read_state) (l : bytes) :
    M (option read_state) :=
  if negb (rs_found st) then mret None
  else
    found ← (if rs_watcher st then waitLogs fuel 5
             else explain "failed to watch file" (invoke (Watch_File path));; mret true);
    more ← perform (Read_More path);
    mret (Some (mkReadState (l ++ String.list_ascii_of_string more) (rs_stop st) (rs_parse st) true
                  found (rs_remain st))).

Fixpoint read_loop (fuel : nat) (ctx : Ctx) (path : string) (opts : LogOptions) (st : read_state) :
    M unit :=
  match fuel with
  | O => hang
  | S fuel =>
      exiting ← ctx_done ctx;
      if exiting : bool then mret ()
      else if rs_stop st then mret ()
      else
        let '(l, rest) := read_line (rs_rest st) in
        next ←
          (match rest with
           | Some rest =>
               emit_line opts (mkReadState rest false (rs_parse st) (rs_watcher st) (rs_found st)
                                 (rs_remain st)) l
           | None =>
               if lo_follow opts then follow_eof fuel path st l
               else
                 let st := mkReadState [] true (rs_parse st) (rs_watcher st) (rs_found st)
                             (rs_remain st) in
                 match l with
                 | [] => mret (Some st)
                 | _ => emit_line opts st l
                 end
           end);
        match next with
        | None => mret ()
        | Some st => read_loop fuel ctx path opts st
        end
  end.

(** Enough iterations to read a file of that size to its end. *)
Definition read_fuel (f : bytes) : nat := length f + 3.

Definition ReadLogs (extra : nat) (ctx : Ctx) (path : string) (options : LogsCmd) : M unit :=
  let opts := newLogOptions options in
  path ← invoke (EvalSymlinks path);
  content ← explain "failed to open log file" (invoke (Open_Read path));
  let f := String.list_ascii_of_string content in
  let start := findTailLineStartIndex f (lo_tail opts) in
  read_loop (read_fuel f + extra) ctx path opts
    (mkReadState (drop start f) false None false true (initial_remain opts)).
End read.
End logs.
