(* ===== verification/LogsProofs.v ===== *)
(** Correctness of the log reader: the tail position, the CRI line format, the
    byte limit, and termination of a read that does not follow. *)

From S2P Require Import Prelude World Libpod BaseRuntime Logs.
From stdpp Require Import base gmap strings pretty list numbers.
From Stdlib Require Import Ascii.

Local Open Scope nat_scope.
Local Open Scope list_scope.

(** ** Line ends *)

Lemma count_eol_app l k : count_eol (l ++ k) = count_eol l + count_eol k.
Proof. unfold count_eol. by rewrite List.filter_app, length_app. Qed.

Lemma count_eol_cons c l : count_eol (c :: l) = (if decide (c = eol) then 1 else 0) + count_eol l.
Proof. unfold count_eol. simpl. by case_bool_decide as H; case_decide. Qed.

Lemma count_eol_split i l : count_eol l = count_eol (take i l) + count_eol (drop i l).
Proof. by rewrite <- count_eol_app, take_drop. Qed.

Lemma index_of_Some c l i :
  index_of c l = Some i → l !! i = Some c ∧ index_of c (take i l) = None ∧ l = take i l ++ c :: drop (S i) l.
Proof.
  revert i. induction l as [|x l IH]; intros i; simpl; [done|].
  case_decide as Hx; [intros [= <-]; by subst|].
  destruct (index_of c l) as [j|] eqn:Ej; simpl; [|done]. intros [= <-].
  destruct (IH j eq_refl) as (H1 & H2 & H3). simpl. rewrite decide_False, H2 by done.
  repeat split; [done|]. by rewrite <- H3.
Qed.

Lemma index_of_eol_None l : index_of eol l = None → count_eol l = 0.
Proof.
  induction l as [|x l IH]; simpl; [done|]. case_decide; [done|].
  destruct (index_of eol l) eqn:E; [done|]. intros _. rewrite count_eol_cons, decide_False, IH by done.
  done.
Qed.

Lemma index_of_eol_Some l i :
  index_of eol l = Some i →
  l !! i = Some eol ∧ S i ≤ length l ∧ count_eol l = S (count_eol (drop (S i) l)).
Proof.
  intros H. apply index_of_Some in H as (H1 & H2 & H3). split; [done|].
  split; [by apply lookup_lt_Some in H1|].
  rewrite H3 at 1. rewrite count_eol_app, count_eol_cons, decide_True by done.
  by rewrite (index_of_eol_None _ H2).
Qed.

(** ** The tail position *)

(** Skipping [k] line ends that are there ends just after the last of them. *)
Lemma skip_lines_spec k off buf :
  k ≤ count_eol buf →
  ∃ i, skip_lines k off buf = off + i ∧ count_eol (drop i buf) + k = count_eol buf ∧
       (0 < k → ∃ j, i = S j ∧ buf !! j = Some eol).
Proof.
  revert off buf. induction k as [|k IH]; intros off buf Hk; simpl.
  { exists 0. rewrite drop_0. split; [lia|]. split; [lia|lia]. }
  destruct (index_of eol buf) as [i|] eqn:Ei; cycle 1.
  { apply index_of_eol_None in Ei. lia. }
  apply index_of_eol_Some in Ei as (Hi & Hlen & Hc).
  destruct (IH (off + S i) (drop (S i) buf)) as (i' & Heq & Hcnt & Hj); [lia|].
  exists (S i + i'). rewrite Heq. split; [lia|].
  rewrite drop_drop in Hcnt. split; [lia|]. intros _.
  destruct k as [|k].
  - exists i. simpl in Heq. split; [lia|done].
  - destruct Hj as (j & -> & Hj); [lia|]. exists (S i + j). split; [lia|].
    by rewrite lookup_drop in Hj.
Qed.

Section tail.
Context (f : bytes) (n : nat).

(** The state at the head of the loop: the line ends from [right] on are
    counted, and the block read last is in [buf]. *)
Definition block_inv (right cnt off : nat) (buf : bytes) : Prop :=
  cnt = count_eol (drop right f) ∧ right ≤ length f ∧
  ((right = length f ∧ off = 0 ∧ buf = []) ∨
   (off = right ∧ ∃ k, buf = take k (drop off f) ∧ count_eol (drop (off + k) f) ≤ n)).

Lemma tail_blocks_spec fuel right cnt off buf :
  right ≤ fuel → block_inv right cnt off buf →
  ∃ right' cnt' off' buf', tail_blocks fuel f n right cnt off buf = (cnt', off', buf') ∧
    block_inv right' cnt' off' buf' ∧ (right' = 0 ∨ n < cnt').
Proof.
  revert right cnt off buf. induction fuel as [|fuel IH]; intros right cnt off buf Hfuel Hinv; simpl.
  { exists right, cnt, off, buf. split; [done|]. split; [done|lia]. }
  case_decide as Hcond; cycle 1.
  { exists right, cnt, off, buf. split; [done|]. split; [done|lia]. }
  apply IH; [unfold blockSize; lia|].
  destruct Hinv as (Hcnt & Hle & _). set (l := right - blockSize).
  split; [|split; [unfold l; lia|]].
  - rewrite Hcnt, (count_eol_split (right - l) (drop l f)), drop_drop.
    replace (l + (right - l)) with right by (unfold l; lia). lia.
  - right. split; [done|]. exists (right - l). split; [done|].
    replace (l + (right - l)) with right by (unfold l; lia). lia.
Qed.

Lemma findTail_spec :
  let r := findTailLineStartIndex f (Z.of_nat n) in
  (count_eol f ≤ n → r = 0) ∧
  (n < count_eol f → count_eol (drop r f) = n ∧ ∃ j, r = S j ∧ f !! j = Some eol).
Proof.
  unfold findTailLineStartIndex. rewrite decide_False by lia. rewrite Nat2Z.id.
  destruct (tail_blocks_spec (length f) (length f) 0 0 []) as (right & cnt & off & buf & -> & Hinv & Hend).
  { done. }
  { split; [by rewrite drop_all|]. split; [done|]. by left. }
  destruct Hinv as (Hcnt & Hle & Hblk). cbv zeta. split.
  - intros Hfew. assert (cnt ≤ count_eol f) as Hc by (rewrite Hcnt, (count_eol_split right f); lia).
    replace (cnt - n) with 0 by lia. simpl. destruct Hblk as [(_ & -> & _)|[-> _]]; [done|lia].
  - intros Hmany. destruct (decide (n < cnt)) as [Hgt|Hle'].
    + destruct Hblk as [(Heq & -> & ->)|(-> & k & -> & Hk)].
      { rewrite Heq, drop_all in Hcnt. unfold count_eol in Hcnt. simpl in Hcnt. lia. }
      assert (cnt = count_eol (take k (drop right f)) + count_eol (drop (right + k) f)) as Hc
        by (rewrite Hcnt, (count_eol_split k (drop right f)), drop_drop; done).
      destruct (skip_lines_spec (cnt - n) right (take k (drop right f))) as (i & -> & Hi & Hj); [lia|].
      destruct Hj as (j & -> & Hj); [lia|]. split.
      * assert (S j ≤ k) as Hjk.
        { apply lookup_lt_Some in Hj. rewrite length_take in Hj. lia. }
        rewrite <- drop_drop. rewrite (count_eol_split (k - S j) (drop (S j) (drop right f))).
        rewrite skipn_firstn_comm in Hi. rewrite !drop_drop in *.
        replace (right + S j + (k - S j)) with (right + k) by lia. lia.
      * exists (right + j). split; [lia|]. rewrite lookup_take_Some in Hj.
        destruct Hj as [Hj _]. by rewrite lookup_drop in Hj.
    + destruct Hend as [->|?]; [|lia]. rewrite drop_0 in Hcnt. lia.
Qed.
End tail.

(** ** The CRI line format *)

Lemma index_of_fresh c l k : c ∉ l → index_of c (l ++ c :: k) = Some (length l).
Proof.
  induction l as [|x l IH]; intros Hc; simpl; [by rewrite decide_True|].
  apply not_elem_of_cons in Hc as [Hx Hl]. rewrite decide_False, IH by done. done.
Qed.

Definition cri_line (ts stream tag text : bytes) : bytes :=
  ts ++ delimiter :: stream ++ delimiter :: tag ++ delimiter :: text.

Lemma drop_S_app {A} (l : list A) c k : drop (S (length l)) (l ++ c :: k) = k.
Proof. induction l as [|x l IH]; simpl; [done|]. apply IH. Qed.

Section cri.
Context (parse_rfc3339 : bytes → option Z).

Lemma ends_with_eol_tag tag text :
  text ≠ [] → ends_with_eol (tag ++ delimiter :: text) = ends_with_eol text.
Proof.
  intros Hne. unfold ends_with_eol.
  replace (length (tag ++ delimiter :: text) - 1) with (length (tag ++ [delimiter]) + (length text - 1)).
  - change (tag ++ delimiter :: text) with (tag ++ [delimiter] ++ text). rewrite app_assoc.
    by rewrite drop_app_add.
  - rewrite !length_app. destruct text; [done|]. simpl. lia.
Qed.

(** What comes back of a line: the time, the stream, and the text, without its
    line end when the line is partial. *)
Lemma parseCRILog_line ts t stream st tag text :
  delimiter ∉ ts → parse_rfc3339 ts = Some t →
  (stream, st) ∈ [(String.list_ascii_of_string "stdout", stdout);
                  (String.list_ascii_of_string "stderr", stderr)] →
  delimiter ∉ tag →
  parseCRILog parse_rfc3339 (cri_line ts stream tag text) =
  inr (mkLogMessage t st
         (if bool_decide (split_first tagDelimiter tag = ["P"%char]) && ends_with_eol text
          then take (length text - 1) text else text)).
Proof.
  intros Hts Ht Hst Htag. unfold parseCRILog, cri_line.
  rewrite index_of_fresh, take_app_length, Ht, drop_S_app by done.
  assert (delimiter ∉ stream ∧ stream_of stream = st) as [Hns Hso].
  { rewrite !elem_of_cons in Hst. destruct Hst as [[= -> ->]|[[= -> ->]|[]%not_elem_of_nil]];
      (split; [|by vm_compute]); apply (bool_decide_unpack _); by vm_compute. }
  rewrite index_of_fresh, take_app_length, Hso, drop_S_app by done.
  rewrite index_of_fresh, take_app_length by done.
  assert (st = stdout ∨ st = stderr) as Hcase
    by (rewrite !elem_of_cons in Hst; destruct Hst as [[= _ ->]|[[= _ ->]|[]%not_elem_of_nil]]; auto).
  assert ((if bool_decide (split_first tagDelimiter tag = ["P"%char]) && ends_with_eol (tag ++ delimiter :: text)
           then take (length (tag ++ delimiter :: text) - 1) (tag ++ delimiter :: text)
           else tag ++ delimiter :: text) =
          tag ++ delimiter ::
            (if bool_decide (split_first tagDelimiter tag = ["P"%char]) && ends_with_eol text
             then take (length text - 1) text else text)) as Htrim.
  { destruct (bool_decide (split_first tagDelimiter tag = _)); simpl; [|done].
    destruct text as [|x text].
    - assert (ends_with_eol (tag ++ [delimiter]) = false) as ->; [|done].
      unfold ends_with_eol. replace (length (tag ++ [delimiter]) - 1) with (length tag)
        by (rewrite length_app; simpl; lia). by rewrite drop_app_length.
    - rewrite ends_with_eol_tag by done. destruct (ends_with_eol (x :: text)); [|done].
      replace (length (tag ++ delimiter :: x :: text) - 1)
        with (length (tag ++ [delimiter]) + (length (x :: text) - 1))
        by (rewrite !length_app; simpl; lia).
      change (tag ++ delimiter :: x :: text) with (tag ++ [delimiter] ++ x :: text).
      rewrite app_assoc, take_app_add. by rewrite <- app_assoc. }
  destruct Hcase as [-> | ->]; rewrite Htrim, drop_S_app; done.
Qed.
End cri.

(** ** The byte limit and termination *)

(** Bytes handed to the writers of the session. *)
Definition write_size (c : call) : nat :=
  match c with
  | Call e _ => match e with Stream_Write _ d => String.length d | _ => 0 end
  end.
Definition written {E} (w : World E) : nat := sum_list (write_size <$> w_trace w).

Section reading.
Context (parse_rfc3339 parse_arhat_time parse_since : bytes → option Z).
Context (format_time : Z → bytes).
Context (docker_json : bytes → option (bytes * bytes * Z)) (arhat_json : bytes → option bytes).
Context {E : Type} `{!Env E}.
Notation W := (World E).

Notation emit_line := (emit_line parse_rfc3339 parse_arhat_time format_time docker_json arhat_json).
Notation read_loop := (read_loop parse_rfc3339 parse_arhat_time format_time docker_json arhat_json).
Notation log_write := (log_write format_time).
Notation ReadLogs := (ReadLogs parse_rfc3339 parse_arhat_time parse_since format_time docker_json
                        arhat_json).

(** Nothing was handed to a writer. *)
Definition silent (w w' : W) : Prop := written w' = written w.
Global Instance silent_preorder : PreOrder silent.
Proof. split; unfold silent; [done|congruence]. Qed.

Lemma written_snoc (w w' : W) c :
  w_trace w' = w_trace w ++ [c] → written w' = written w + write_size c.
Proof. unfold written. intros ->. rewrite fmap_app, sum_list_with_app. simpl. lia. Qed.

Lemma silent_perform {X} (e : Ev X) :
  (∀ x, write_size (Call e x) = 0) → keeps silent (perform e).
Proof.
  intros He w. unfold silent. rewrite (written_snoc w _ (Call e (handle e (w_env w)).1)).
  - rewrite He. lia.
  - unfold perform. by destruct (handle e (w_env w)).
Qed.

Lemma silent_invoke {X} (e : Ev (string + X)) :
  (∀ x, write_size (Call e x) = 0) → keeps silent (invoke e).
Proof. intros He. apply keeps_bind; [apply _|by apply silent_perform|]. keeps_solve. Qed.

Lemma silent_ctx_done c : keeps silent (ctx_done c).
Proof.
  intros w. unfold ctx_done. destruct (ctx_canceled _ _); [done|]. by apply (silent_perform (Ctx_Expired c)).
Qed.

Lemma silent_waitLogs fuel k : keeps silent (waitLogs fuel k).
Proof.
  revert k. induction fuel as [|fuel IH]; intros k; simpl; [by intros w|].
  apply keeps_bind; [apply _|by apply silent_perform|]. intros []; keeps_solve; apply IH.
Qed.

Lemma log_line_bound opts remain msg :
  (0 ≤ remain)%Z → (Z.of_nat (length (log_line format_time opts remain msg)) ≤ remain)%Z.
Proof. intros Hr. unfold log_line. case_decide; rewrite ?length_take; lia. Qed.

Lemma length_string_of l : String.length (String.string_of_list_ascii l) = length l.
Proof. induction l as [|c l IH]; simpl; [done|]. by rewrite IH. Qed.

(** A write hands over no more than what remains, and what then remains has
    shrunk by as much. *)
Lemma wp_log_write opts remain msg (w : W) :
  (0 ≤ remain)%Z →
  wp (log_write opts remain msg) (λ o w', ∃ k, written w' = written w + k ∧ (Z.of_nat k ≤ remain)%Z ∧
    match o with
    | Ok (r, Written) => 0 ≤ r ≤ remain - Z.of_nat k
    | Ok (_, MaximumWrite) | Err _ => True
    | _ => False
    end%Z) w.
Proof.
  intros Hr. unfold Logs.log_write. case_decide.
  { apply wp_ret. exists 0. split; [lia|]. lia. }
  set (line := log_line format_time opts remain msg).
  assert (Z.of_nat (length line) ≤ remain)%Z as Hline by by apply log_line_bound.
  assert (∀ b, wp (res ← perform (Stream_Write b (String.string_of_list_ascii line));
        let n := res.1 in
        let remain := (remain - Z.of_nat n)%Z in
        match res.2 with
        | Some d => fail (ErrExt d)
        | None =>
            if decide (n < length line) then fail (Errorf "short write")
            else if decide (remain ≤ 0)%Z then mret (remain, MaximumWrite)
            else mret (remain, Written)
        end) (λ o w', ∃ k, written w' = written w + k ∧ (Z.of_nat k ≤ remain)%Z ∧
    match o with
    | Ok (r, Written) => 0 ≤ r ≤ remain - Z.of_nat k
    | Ok (_, MaximumWrite) | Err _ => True
    | _ => False
    end%Z) w) as Hw.
  { intros b. apply wp_bind, wp_perform. intros w' _ Ht _ _ _. simpl.
    apply written_snoc in Ht. simpl in Ht. rewrite length_string_of in Ht.
    destruct (handle _ (w_env w)).1 as [n [d|]]; simpl.
    { apply wp_fail. exists (length line). done. }
    case_decide; [apply wp_fail; by exists (length line)|].
    case_decide; apply wp_ret; exists (length line); split; (done || lia). }
  destruct (lm_stream msg); [apply Hw|apply Hw|]. apply wp_fail. exists 0. split; [lia|]. lia.
Qed.

Lemma wp_emit_line opts st l (w : W) :
  (0 ≤ rs_remain st)%Z →
  wp (emit_line opts st l) (λ o w', ∃ k, written w' = written w + k ∧
    (Z.of_nat k ≤ rs_remain st)%Z ∧
    match o with
    | Ok (Some st') => rs_stop st' = rs_stop st ∧ rs_rest st' = rs_rest st ∧
                       (0 ≤ rs_remain st' ≤ rs_remain st - Z.of_nat k)%Z
    | Ok None | Err _ => True
    | _ => False
    end) w.
Proof.
  intros Hr. unfold Logs.emit_line. apply wp_bind.
  assert (wp (match rs_parse st with
       | Some p => mret p
       | None => match getParseFunc parse_rfc3339 parse_arhat_time docker_json arhat_json l with
                 | inr p => mret p
                 | inl e => fail (Errorf "failed to get parse function")
                 end
       end) (λ o w', w' = w ∧ returns_outcome o) w) as Hp.
  { destruct (rs_parse st); [by apply wp_ret|]. destruct (getParseFunc _ _ _ _ l); [by apply wp_fail|by apply wp_ret]. }
  eapply wp_mono; [|exact Hp]. intros [p|e|pp|] w1 [-> Ho]; simpl; [| |done..]; cycle 1.
  { exists 0. split; [lia|]. lia. }
  destruct (run_parse _ _ _ _ p l) as [e|msg].
  { apply wp_ret. exists 0. simpl. repeat split; lia. }
  apply wp_bind. eapply wp_mono; [|by apply wp_log_write].
  intros [[r res]|e|pp|] w2 (k & Hw & Hk & Hres); simpl; [|by exists k|done..].
  destruct res; apply wp_ret; exists k; simpl; [|done]. repeat split; (done || lia).
Qed.

(** What is left to hand over bounds what the loop hands over. *)
Lemma wp_read_loop_limit fuel ctx path opts st (w : W) :
  (0 ≤ rs_remain st)%Z →
  wp (read_loop fuel ctx path opts st)
    (λ _ w', Z.of_nat (written w') ≤ Z.of_nat (written w) + rs_remain st)%Z w.
Proof.
  revert st w. induction fuel as [|fuel IH]; intros st w Hr; simpl; [apply wp_hang; lia|].
  apply wp_bind. eapply wp_mono; [|apply (wp_keeps silent), silent_ctx_done].
  intros o w1 Hw1. unfold silent in Hw1. destruct o as [ex|e|pp|]; simpl; try lia.
  destruct ex; [apply wp_ret; lia|]. destruct (rs_stop st); [apply wp_ret; lia|].
  destruct (read_line (rs_rest st)) as [l rest]. apply wp_bind.
  eapply (wp_mono _ (λ o w', ∃ k, written w' = written w1 + k ∧ (Z.of_nat k ≤ rs_remain st)%Z ∧
     match o with Ok (Some st') => 0 ≤ rs_remain st' ≤ rs_remain st - Z.of_nat k | _ => True end%Z)).
  { intros o w2 (k & Hk & Hle & Ho). destruct o as [[st'|]|e|pp|]; simpl; try lia; [|apply wp_ret; lia].
    eapply wp_mono; [|apply IH; lia]. intros o' w3 H3. simpl in H3. lia. }
  destruct rest as [rest|].
  { eapply wp_mono; [|apply wp_emit_line; done].
    intros o w2 (k & Hk & Hle & Ho). exists k. destruct o as [[st'|]|e|pp|]; naive_solver. }
  destruct (lo_follow opts).
  - unfold follow_eof. destruct (rs_found st); simpl; [|apply wp_ret; exists 0; split; [lia|]; lia].
    apply wp_bind.
    eapply wp_mono; [|apply (wp_keeps silent); destruct (rs_watcher st);
      [apply silent_waitLogs|apply keeps_bind; [apply _|apply keeps_explain, silent_invoke; done|keeps_solve]]].
    intros o w2 H2. unfold silent in H2. destruct o; simpl; try (exists 0; split; [lia|]; lia).
    apply wp_bind. eapply wp_mono; [|by apply (wp_keeps silent), silent_perform].
    intros o w3 H3. unfold silent in H3. destruct o; simpl; try (exists 0; split; [lia|]; lia).
    apply wp_ret. exists 0. simpl. split; [lia|]. lia.
  - destruct l as [|c l]; [apply wp_ret; exists 0; simpl; split; [lia|]; lia|].
    eapply wp_mono; [|apply wp_emit_line; done].
    intros o w2 (k & Hk & Hle & Ho). exists k. destruct o as [[st'|]|e|pp|]; naive_solver.
Qed.

Lemma read_line_shorter rest l rest' : read_line rest = (l, Some rest') → length rest' < length rest.
Proof.
  unfold read_line. destruct (index_of eol rest) as [i|] eqn:Ei; [|done]. intros [= _ <-].
  apply index_of_Some in Ei as (Hi & _). apply lookup_lt_Some in Hi. rewrite length_drop. lia.
Qed.

Lemma returns_emit_line opts st l : (0 ≤ rs_remain st)%Z → ∀ w : W,
  returns_outcome (emit_line opts st l w).1.
Proof.
  intros Hr w. destruct (wp_emit_line opts st l w Hr) as (k & _ & _ & Ho).
  by destruct ((emit_line opts st l w).1).
Qed.

(** Iterations needed from a state when the file is not followed. *)
Definition iterations (st : read_state) : nat :=
  if rs_stop st then 1 else length (rs_rest st) + 2.

Lemma read_loop_returns fuel ctx path opts st (w : W) :
  lo_follow opts = false → (0 ≤ rs_remain st)%Z → iterations st ≤ fuel →
  returns_outcome (read_loop fuel ctx path opts st w).1.
Proof.
  intros Hfol. change (_ → _ → returns_outcome _) with ((0 ≤ rs_remain st)%Z → iterations st ≤ fuel →
    wp (read_loop fuel ctx path opts st) (λ o _, returns_outcome o) w).
  revert st w. induction fuel as [|fuel IH]; intros st w Hr Hit; simpl.
  { unfold iterations in Hit. destruct (rs_stop st); lia. }
  apply wp_bind. eapply wp_mono; [|apply wp_returns, returns_ctx_done].
  intros [ex|e|pp|] w1 Ho; simpl; try done.
  destruct ex; [by apply wp_ret|]. destruct (rs_stop st) eqn:Hstop; [by apply wp_ret|].
  unfold iterations in Hit. rewrite Hstop in Hit.
  destruct (read_line (rs_rest st)) as [l rest] eqn:Hl. apply wp_bind.
  assert (∀ st1 l', rs_stop st1 = true ∨ length (rs_rest st1) < length (rs_rest st) →
    (0 ≤ rs_remain st1)%Z →
    wp (emit_line opts st1 l') (obind (λ next, wp (match next with None => mret ()
        | Some st => read_loop fuel ctx path opts st end) (λ (o : outcome unit) _, returns_outcome o))
        (λ (o : outcome unit) _, returns_outcome o)) w1) as Hemit.
  { intros st1 l' Hst1 Hr1. eapply wp_mono; [|by apply wp_emit_line].
    intros [[st2|]|e|pp|] w2 (k & _ & _ & Ho2); simpl; try done.
    destruct Ho2 as (Hs2 & Hrest2 & Hrem). apply IH; [lia|].
    unfold iterations. rewrite Hs2, Hrest2. destruct (rs_stop st1); [lia|]. destruct Hst1; [done|lia]. }
  destruct rest as [rest|].
  { apply Hemit; [|done]. right. by eapply read_line_shorter. }
  rewrite Hfol. destruct l as [|c l]; [|apply Hemit; [by left|done]].
  apply wp_ret. simpl. apply IH; [done|]. unfold iterations. simpl. lia.
Qed.

Lemma initial_remain_nonneg opts : (0 ≤ initial_remain opts)%Z.
Proof. unfold initial_remain, MaxInt64. case_decide; lia. Qed.

(** A read that does not follow the file ends. *)
Lemma ReadLogs_ends extra ctx path o :
  lc_Follow o = false → settles (W := W) false (ReadLogs extra ctx path o).
Proof.
  intros Hfol. unfold Logs.ReadLogs.
  apply returns_bind; [apply returns_invoke|intros p].
  apply returns_bind; [apply returns_explain, returns_invoke|intros content].
  intros w. apply read_loop_returns; [done|apply initial_remain_nonneg|].
  unfold iterations, read_fuel. simpl. rewrite length_drop. lia.
Qed.

(** A read hands over at most the requested number of bytes. *)
Lemma ReadLogs_limit extra ctx path o (w : W) :
  (0 ≤ lc_BytesLimit o)%Z →
  wp (ReadLogs extra ctx path o)
    (λ _ w', Z.of_nat (written w') ≤ Z.of_nat (written w) + lc_BytesLimit o)%Z w.
Proof.
  intros Hlim. unfold Logs.ReadLogs. apply wp_bind.
  eapply wp_mono; [|by apply (wp_keeps silent), silent_invoke].
  intros o1 w1 H1. unfold silent in H1. destruct o1; simpl; try lia.
  apply wp_bind. eapply wp_mono; [|by apply (wp_keeps silent), keeps_explain, silent_invoke].
  intros o2 w2 H2. unfold silent in H2. destruct o2; simpl; try lia.
  eapply wp_mono; [|apply wp_read_loop_limit, initial_remain_nonneg].
  intros o3 w3 H3. simpl in H3. unfold initial_remain in H3. simpl in H3.
  rewrite decide_True in H3 by done. lia.
Qed.
End reading.
