(* ===== verification/Action.v ===== *)
(** Sessions with a container: [pkg/runtime/action.go] and the dial of
    [nethelper/forward.go]. *)

From S2P Require Import Prelude GoPath Proto Labels World Libpod BaseRuntime Storage Find Network Logs.
From stdpp Require Import base gmap strings pretty list fin_maps numbers.
From Stdlib Require Import Ascii.

(** [net.IPNet.String()], for a mask of leading ones. *)
Definition IPNet_String (n : IPNet) : string := ipn_IP n +:+ "/" +:+ pretty (ipn_Ones n).

(** [net.JoinHostPort] *)
Definition JoinHostPort (host port : string) : string :=
  match cut ":"%char host with
  | (_, Some _) => "[" +:+ host +:+ "]:" +:+ port
  | (_, None) => host +:+ ":" +:+ port
  end.

(** The last address that is not a loopback address. *)
Definition pod_address (addresses : list IPNet) : string :=
  foldl (λ address addr, if negb (ipn_Loopback addr) then IPNet_String addr else address) ""%string
    addresses.

Lemma pod_address_last addresses :
  pod_address addresses =
  match list.last (List.filter (λ a, negb (ipn_Loopback a)) addresses) with
  | Some a => ipn_IP a +:+ "/" +:+ pretty (ipn_Ones a)
  | None => ""
  end.
Proof.
  unfold pod_address. induction addresses as [|a l IH] using rev_ind; [done|].
  rewrite foldl_app, List.filter_app. simpl. destruct (ipn_Loopback a); simpl.
  - by rewrite app_nil_r.
  - by rewrite last_snoc.
Qed.

Section action.
Context {E : Type} `{!Env E}.
Notation M := (M (World E)).

Definition Exec (ctx : Ctx) (podUID container : string) (stdin : option string)
    (stdout stderr : bool) (command : list string) (tty : bool) :
    M (option error * (string * string)) :=
  ctr ← findContainer podUID container;
  execInContainer ctx ctr stdin stdout stderr command tty ∅.

(** What arrives on the error channel of the attach. *)
Definition Attach (ctx : Ctx) (podUID container : string) (stdin : option string)
    (stdout stderr : bool) : M (option error) :=
  ctr ← findContainer podUID container;
  let streams := translateStreams stdin stdout stderr in
  err ← perform (Ctr_Attach ctr (as_AttachInput streams, as_AttachOutput streams, as_AttachError streams));
  match err with
  | None => mret None
  | Some d =>
      done ← select_done ctx;
      if done : bool then mret None else mret (Some (ErrMsg d 0))
  end.

(** [nethelper.Forward] up to the connection; the two copy loops belong to the
    connection. *)
Definition Forward (network addr : string) : M unit := invoke (Net_Dial network addr).

Definition PortForward (podUID protocol : string) (port : Z) : M unit :=
  pauseCtr ← findContainer podUID ContainerNamePause;
  res ← try (invoke (Ctr_IPs pauseCtr));
  let addresses := match res with inl _ => [] | inr l => l end in
  Forward protocol (JoinHostPort (pod_address addresses) (pretty port)).

Section logs.
Context (parse_rfc3339 parse_arhat_time parse_since : Logs.bytes → option Z).
Context (format_time : Z → Logs.bytes).
Context (docker_json : Logs.bytes → option (Logs.bytes * Logs.bytes * Z)).
Context (arhat_json : Logs.bytes → option Logs.bytes).

Definition runtime_Logs (extra : nat) (ctx : Ctx) (options : LogsCmd) : M unit :=
  ctr ← findContainer (lc_PodUid options) (lc_Container options);
  ReadLogs parse_rfc3339 parse_arhat_time parse_since format_time docker_json arhat_json
    extra ctx (ctr_LogPath ctr) options.
End logs.
End action.

Section specs.
Context {E : Type} `{!Env E, !Store E, !LibpodLaws E}.
Notation W := (World E).

(** [performed] for a call whose answer does not matter. *)
Definition attempted {X} (e : Ev X) (w : W) : Prop := ∃ x, performed e x w.

Lemma wp_perform_attempted {X} (e : Ev X) (w : W) :
  wp (perform e) (λ o w', (∃ x, o = Ok x) ∧ attempted e w') w.
Proof.
  apply wp_perform. intros w' _ Ht _ _ _. split; [eauto|]. eexists. unfold performed. rewrite Ht.
  apply elem_of_app. right. by left.
Qed.

(** The exec reaches the container of the request with the command of the
    request, or the container was not found and nothing was executed. *)
Lemma wp_Exec ctx uid n i o e cmd tty (w : W) :
  wp (Exec ctx uid n i o e cmd tty) (λ out w', same_store w w' ∧
    match out with
    | Ok _ => ∃ c cfg, c ∈ wctrs w ∧ ctr_matches (container_filter uid n) c ∧
                       ec_Command cfg = cmd ∧ ec_Terminal cfg = tty ∧
                       ec_AttachStdin cfg = bool_decide (is_Some i) ∧
                       attempted (Ctr_Exec c cfg i) w'
    | Err er => found_in (container_filter uid n) (wctrs w) (Err er)
    | _ => False
    end) w.
Proof.
  apply wp_and; [apply wp_keeps; unfold Exec; keeps_solve|].
  unfold Exec. apply wp_bind. eapply wp_mono; [|apply wp_findContainerByLabels].
  intros [c|er|p|] w1 [Hs Hf]; simpl; [|done..]. destruct Hf as [Hin Hm].
  unfold execInContainer. apply wp_bind. eapply wp_mono; [|apply wp_perform_attempted].
  intros out w2 [[res ->] Hatt]. simpl.
  match type of Hatt with attempted (Ctr_Exec _ ?cfg' _) _ => set (cfg := cfg') in * end.
  eapply (wp_mono _ (λ o w', trace_grows w2 w' ∧ ∃ x, o = Ok x)).
  - intros out w3 [Hg [x ->]]. exists c, cfg.
    split; [done|]. split; [done|]. split; [done|]. split; [done|]. split; [done|].
    destruct Hatt as [y Hy]. exists y. by eapply performed_grows.
  - destruct (ex_Err res) as [d|]; [|apply wp_ret; split; [reflexivity|eauto]].
    apply wp_bind. eapply wp_mono; [|apply wp_select_done].
    intros out w3 [Hg [[] ->]]; simpl; apply wp_ret; eauto.
Qed.

(** The address that is dialled. *)
Lemma wp_PortForward uid proto port (w : W) :
  wp (PortForward uid proto port) (λ out w', same_store w w' ∧
    match out with
    | Ok _ => ∃ c, c ∈ wctrs w ∧ ctr_matches (container_filter uid ContainerNamePause) c ∧
        ∃ addresses, (performed (Ctr_IPs c) (inr addresses) w' ∨ addresses = []) ∧
          attempted (Net_Dial proto (JoinHostPort (pod_address addresses) (pretty port))) w'
    | Err _ => True
    | _ => False
    end) w.
Proof.
  apply wp_and; [apply wp_keeps; unfold PortForward, Forward; keeps_solve|].
  unfold PortForward, Forward. apply wp_bind. eapply wp_mono; [|apply wp_findContainerByLabels].
  intros [c|er|p|] w1 [Hs Hf]; simpl; [|done..]. destruct Hf as [Hin Hm].
  assert (∀ addresses w2, (performed (Ctr_IPs c) (inr addresses) w2 ∨ addresses = []) →
    wp (invoke (Net_Dial proto (JoinHostPort (pod_address addresses) (pretty port))))
      (λ out w', match out with
       | Ok _ => ∃ c, c ∈ wctrs w ∧ ctr_matches (container_filter uid ContainerNamePause) c ∧
           ∃ addresses, (performed (Ctr_IPs c) (inr addresses) w' ∨ addresses = []) ∧
             attempted (Net_Dial proto (JoinHostPort (pod_address addresses) (pretty port))) w'
       | Err _ => True
       | _ => False
       end) w2) as Hdial.
  { intros addresses w2 Ha. eapply wp_mono; [|apply wp_and; [apply (wp_keeps trace_grows); keeps_solve|
      apply wp_and; [apply wp_invoke_performed|apply wp_returns, returns_invoke]]].
    intros [[]|e|p|] w3 [Hg [Hp Hr]]; try done. exists c. split; [done|]. split; [done|].
    exists addresses. split; [|eexists; by apply Hp].
    destruct Ha as [Ha|Ha]; [left; by eapply performed_grows|by right]. }
  apply wp_bind, wp_try.
  eapply wp_mono; [|apply wp_and; [apply wp_invoke_performed|apply wp_returns, returns_invoke]].
  intros [l|e|p|] w2 [Hp Hr]; simpl; try done; apply Hdial; auto.
Qed.
End specs.
