(* ===== verification/Handler.v ===== *)
(** The handler of commands: [arhat.dev/libext/extruntime] (and [SendMsg] of
    [extutil/handler.go]).

    The handler serves a [RuntimeEngine], the interface that the podman runtime
    implements.  Its state [HState] is the state of the engine, the stream
    manager and the messages handed to the send function.  The encoders and
    decoders are a parameter here ([Codec]; the generated code is in [Messages]);
    that the encoder of an image list dereferences the entries is explicit.

    A command runs in a goroutine of its own ([go]): here it runs when it is
    started, an error or a blocked goroutine stays in it, a panic ends the
    process.  The reads of the two uploading goroutines of a session are given
    by a schedule. *)

From stdpp Require Import base gmap strings pretty list fin_maps numbers.
From S2P Require Import Prelude Proto World Logs TimeoutReader SeqQueue Streams.

Local Open Scope Z_scope.
Local Open Scope list_scope.

(** ** Messages *)

(** [runtimepb.PacketType] *)
Definition CMD_GET_INFO : Z := 1.
Definition CMD_EXEC : Z := 2.
Definition CMD_ATTACH : Z := 3.
Definition CMD_LOGS : Z := 4.
Definition CMD_TTY_RESIZE : Z := 5.
Definition CMD_PORT_FORWARD : Z := 6.
Definition MSG_RUNTIME_INFO : Z := 9.
Definition CMD_IMAGE_LIST : Z := 11.
Definition CMD_IMAGE_ENSURE : Z := 12.
Definition CMD_IMAGE_DELETE : Z := 13.
Definition MSG_IMAGE_STATUS_LIST : Z := 22.
Definition CMD_POD_LIST : Z := 31.
Definition CMD_POD_ENSURE : Z := 32.
Definition CMD_POD_DELETE : Z := 33.
Definition MSG_POD_STATUS : Z := 41.
Definition MSG_POD_STATUS_LIST : Z := 42.

(** [arhatgopb.CmdType] and [arhatgopb.MsgType] *)
Definition CMD_DATA_INPUT : Z := 0.
Definition CMD_DATA_CLOSE : Z := 10.
Definition CMD_RUNTIME_ARANYA_PROTO : Z := 20.
Definition MSG_DATA_OUTPUT : Z := 0.
Definition MSG_ERROR : Z := 2.
Definition MSG_RUNTIME_ARANYA_PROTO : Z := 20.
Definition MSG_RUNTIME_DATA_STDERR : Z := 21.

Definition ERR_COMMON : Z := 0.
Definition DefaultExitCodeOnError : Z := 128.

(** A message to the hub; a nil payload is [None]. *)
Record Msg := mkMsg {
  msg_Kind : Z;
  msg_Id : Z;
  msg_Ack : Z;
  msg_Payload : option string }.

(** A command of the hub. *)
Record Cmd := mkCmd {
  cmd_Kind : Z;
  cmd_Id : Z;
  cmd_Seq : Z;
  cmd_Payload : option string }.

(** [aranyagopb.ErrorMsg] *)
Record ErrorMsg := mkErrorMsg {
  em_Kind : Z;
  em_Description : string;
  em_Code : Z }.

(** [runtimepb.Packet] *)
Record Packet := mkPacket { pkt_Kind : Z; pkt_Payload : string }.

Record ExecOrAttachCmd := mkExecOrAttachCmd {
  ea_PodUid : string;
  ea_Container : string;
  ea_Stdin : bool;
  ea_Stdout : bool;
  ea_Stderr : bool;
  ea_Tty : bool;
  ea_Command : list string;
  ea_Envs : strmap }.

Record PortForwardCmd := mkPortForwardCmd {
  pf_PodUid : string;
  pf_Port : Z;
  pf_Protocol : string }.

Record RuntimeInfo := mkRuntimeInfo {
  ri_Name : string;
  ri_Version : string;
  ri_Os : string;
  ri_OsImage : string;
  ri_Arch : string;
  ri_KernelVersion : string }.

Global Instance Msg_eq_dec : EqDecision Msg.
Proof. solve_decision. Defined.
Global Instance Packet_eq_dec : EqDecision Packet.
Proof. solve_decision. Defined.

(** The generated encoders and decoders, and [err.Error()] (the texts of errors
    are shortened in this development). *)
Record Codec := mkCodec {
  dec_Packet : string → outcome Packet;
  enc_Packet : Packet → string;
  dec_PodEnsure : string → outcome PodEnsureCmd;
  dec_PodDelete : string → outcome PodDeleteCmd;
  dec_PodList : string → outcome PodListCmd;
  dec_ImageEnsure : string → outcome ImageEnsureCmd;
  dec_ImageDelete : string → outcome (list string);
  dec_ImageList : string → outcome (list string);
  dec_ExecOrAttach : string → outcome ExecOrAttachCmd;
  dec_Logs : string → outcome LogsCmd;
  dec_Resize : string → outcome (Z * Z);
  dec_PortForward : string → outcome PortForwardCmd;
  enc_PodStatus : PodStatusMsg → string;
  enc_PodStatusList : list PodStatusMsg → string;
  enc_ImageStatusList : list ImageStatusMsg → string;
  enc_RuntimeInfo : RuntimeInfo → string;
  enc_ErrorMsg : ErrorMsg → string;
  enc_HubError : string → string;
  err_Error : error → string }.

(** ** The engine (types.go) *)

(** What a port forward delivers: the data read from the connection (when all
    the return values are there), and the errors that arrive on its channel. *)
Record Forwarded := mkForwarded {
  fw_Downstream : option string;
  fw_Errors : list error }.

(** The state [W] of an engine is passed through.  The operations with streams
    answer what they wrote to them, and the messages on their error channel;
    [stdin] tells whether there is an input. *)
Class RuntimeEngine (W : Type) := mkEngine {
  eng_Info : RuntimeInfo;
  eng_Exec (ctx : Ctx) (podUID container : string) (stdin stdout stderr : bool)
    (command : list string) (tty : bool) : M W (list ErrorMsg * (string * string));
  eng_Attach (ctx : Ctx) (podUID container : string) (stdin stdout stderr : bool) :
    M W (list ErrorMsg * (string * string));
  eng_Logs (ctx : Ctx) (options : LogsCmd) : M W (option error * (string * string));
  eng_PortForward (ctx : Ctx) (podUID protocol : string) (port : Z) : M W Forwarded;
  eng_EnsurePod (ctx : Ctx) (options : PodEnsureCmd) : M W PodStatusMsg;
  eng_DeletePod (ctx : Ctx) (options : PodDeleteCmd) : M W PodStatusMsg;
  eng_ListPods (ctx : Ctx) (options : PodListCmd) : M W (list PodStatusMsg);
  eng_EnsureImages (ctx : Ctx) (options : ImageEnsureCmd) : M W ImageStatusListMsg;
  eng_DeleteImages (ctx : Ctx) (refs : list string) : M W ImageStatusListMsg;
  eng_ListImages (ctx : Ctx) (refs : list string) : M W ImageStatusListMsg;
  (* how a select between [ctx.Done()] and a ready channel ends *)
  eng_CtxDone (ctx : Ctx) : M W bool }.

(** ** The state *)

Record HState (W : Type) := mkHState {
  hs_engine : W;
  hs_streams : StreamManager;
  hs_sent : list (Msg * option error);
  (* what the send function answers to its n-th call; [None] is a nil error *)
  hs_link : nat → option error }.
Global Arguments mkHState {W}.
Global Arguments hs_engine {W}.
Global Arguments hs_streams {W}.
Global Arguments hs_sent {W}.
Global Arguments hs_link {W}.

#[global] Instance hstate_streams {W} : HasStreams (HState W) :=
  {| get_sm := hs_streams;
     put_sm m h := mkHState (hs_engine h) m (hs_sent h) (hs_link h);
     get_put_sm _ _ := eq_refl |}.

(** A read of one of the two uploading goroutines: which one, and what the stream
    does meanwhile. *)
Notation schedule := (list (bool * arrival)).

Section handler.
Context {W : Type} `{!RuntimeEngine W} (codec : Codec) (maxPayloadSize : nat).
Notation H := (HState W).
Notation M := (M H).

(** A call of the engine. *)
Definition lift {A} (m : Prelude.M W A) : M A := λ h,
  let '(o, w) := m (hs_engine h) in (o, mkHState w (hs_streams h) (hs_sent h) (hs_link h)).

(** [go func() { ... }()]; what the goroutine returns is dropped. *)
Definition go {A} (m : M A) : M unit := λ h,
  match m h with
  | (Panic p, h') => (Panic p, h')
  | (_, h') => (Ok (), h')
  end.

(** What a decoder answers; one that panics takes the goroutine with it. *)
Definition decode {A} (r : outcome A) : M A := λ h, (r, h).

Definition SendMsg (m : Msg) : M unit := λ h,
  let e := hs_link h (length (hs_sent h)) in
  let h' := mkHState (hs_engine h) (hs_streams h) (hs_sent h ++ [(m, e)]) (hs_link h) in
  match e with
  | None => (Ok (), h')
  | Some e => (Err e, h')
  end.

(** ** Unary commands (handler.go, handler_pod.go, handler_image.go) *)

Definition reply (kind : Z) (payload : string) : M (option Packet) :=
  mret (Some (mkPacket kind payload)).

Definition handleGetInfo : M (option Packet) :=
  reply MSG_RUNTIME_INFO (enc_RuntimeInfo codec eng_Info).

Definition handlePodList (ctx : Ctx) (payload : string) : M (option Packet) :=
  opts ← decode (dec_PodList codec payload);
  msg ← lift (eng_ListPods ctx opts);
  reply MSG_POD_STATUS_LIST (enc_PodStatusList codec msg).

Definition handlePodEnsure (ctx : Ctx) (payload : string) : M (option Packet) :=
  opts ← decode (dec_PodEnsure codec payload);
  msg ← lift (eng_EnsurePod ctx opts);
  reply MSG_POD_STATUS (enc_PodStatus codec msg).

Definition handlePodDelete (ctx : Ctx) (payload : string) : M (option Packet) :=
  opts ← decode (dec_PodDelete codec payload);
  msg ← lift (eng_DeletePod ctx opts);
  reply MSG_POD_STATUS (enc_PodStatus codec msg).

(** [ImageStatusListMsg.Marshal]: [MarshalToSizedBuffer] of an entry reads its
    fields, a nil entry panics. *)
Definition Marshal_ImageStatusList (msg : ImageStatusListMsg) : M string :=
  match mapM id (iml_Images msg) with
  | Some images => mret (enc_ImageStatusList codec images)
  | None => crash NilDereference
  end.

Definition reply_images (msg : ImageStatusListMsg) : M (option Packet) :=
  data ← Marshal_ImageStatusList msg;
  reply MSG_IMAGE_STATUS_LIST data.

Definition handleImageList (ctx : Ctx) (payload : string) : M (option Packet) :=
  opts ← decode (dec_ImageList codec payload);
  msg ← lift (eng_ListImages ctx opts);
  reply_images msg.

Definition handleImageEnsure (ctx : Ctx) (payload : string) : M (option Packet) :=
  opts ← decode (dec_ImageEnsure codec payload);
  msg ← lift (eng_EnsureImages ctx opts);
  reply_images msg.

Definition handleImageDelete (ctx : Ctx) (payload : string) : M (option Packet) :=
  opts ← decode (dec_ImageDelete codec payload);
  msg ← lift (eng_DeleteImages ctx opts);
  reply_images msg.

(** ** The output of a session (handler_stream.go) *)

(** One pipe as its uploader sees it: what has not been sent, and whether the
    uploader still runs ([false] after a failed send and after the end of the
    stream). *)
Record pipe := mkPipe { pp_Kind : Z; pp_Data : string; pp_Live : bool }.

(** [nextSeq], called by one goroutine at a time (see [Ticket] for all). *)
Definition nextSeq (seq : Z) : Z * Z := (seq, uint64_succ seq).

(** An iteration of [uploadDataOutput]: what is read is sent, but not when the
    end came with it. *)
Definition upload_read (sid : Z) (a : arrival) (p : pipe) (seq : Z) : M (pipe * Z) :=
  match pp_Live p, WaitForData (pp_Data p) with
  | true, Some (firstByte, rest) =>
      let '(data, err) := Read maxPayloadSize a firstByte rest in
      if decide (err = Some EOF) then mret (mkPipe (pp_Kind p) (pp_Data p) false, seq)
      else
        let n := String.length data in
        let left := String.substring n (String.length (pp_Data p) - n) (pp_Data p) in
        let '(ack, seq) := nextSeq seq in
        r ← try (SendMsg (mkMsg (pp_Kind p) sid ack (Some data)));
        mret (mkPipe (pp_Kind p) left (match r with inl _ => false | inr _ => true end), seq)
  | _, _ => mret (p, seq)
  end.

(** The two uploaders, interleaved by the schedule. *)
Fixpoint uploads (sid : Z) (sched : schedule) (out err : pipe) (seq : Z) : M (pipe * pipe * Z) :=
  match sched with
  | [] => mret (out, err, seq)
  | (true, a) :: sched =>
      r ← upload_read sid a err seq;
      uploads sid sched out r.1 r.2
  | (false, a) :: sched =>
      r ← upload_read sid a out seq;
      uploads sid sched r.1 err r.2
  end.

(** [collectStreamErrors]: [errs] arrive, then the channel is closed. *)
Fixpoint collectStreamErrors (ctx : Ctx) (errMsg : option ErrorMsg) (errs : list ErrorMsg) :
    M (option ErrorMsg) :=
  done ← lift (eng_CtxDone ctx);
  if done : bool then
    mret (Some (mkErrorMsg ERR_COMMON (err_Error codec ErrCtx) DefaultExitCodeOnError))
  else
    match errs with
    | [] => mret errMsg
    | e :: errs =>
        collectStreamErrors ctx
          (Some match errMsg with
                | None => e
                | Some m =>
                    mkErrorMsg (em_Kind m) (em_Description m +:+ "; " +:+ em_Description e)
                      (if negb (em_Code e =? 0) && (em_Code m =? 0) then em_Code e else em_Code m)
                end) errs
    end.

Definition last_message (sid seq : Z) (err : option ErrorMsg) : Msg :=
  match err with
  | None => mkMsg MSG_DATA_OUTPUT sid seq None
  | Some e => mkMsg MSG_ERROR sid seq (Some (enc_ErrorMsg codec e))
  end.

(** [handleStreamOperation]; every caller passes a nil [preRun].  [run] answers
    the error of the session and what was written to the two pipes. *)
Definition handleStreamOperation (sid : Z) (useStdout useStderr : bool) (sched : schedule)
    (run : M (option ErrorMsg * (string * string))) : M unit :=
  r ← run;
  u ← uploads sid sched
        (mkPipe MSG_DATA_OUTPUT (if useStdout then r.2.1 else "") useStdout)
        (mkPipe MSG_RUNTIME_DATA_STDERR (if useStderr then r.2.2 else "") useStderr) 0;
  ignore (SendMsg (last_message sid (nextSeq u.2).1 r.1));;
  Del sid.

(** An operation with streams; with an input it runs under the stream manager,
    which registers the session when the operation has started. *)
Definition start_session {A} (sid : Z) (stdin : bool) (op : Prelude.M W A) : M A :=
  if stdin then Add sid (lift op) else lift op.

Definition error_message (e : error) : ErrorMsg := mkErrorMsg ERR_COMMON (err_Error codec e) 0.

(** The [run] of an exec or an attach. *)
Definition run_session (ctx : Ctx) (sid : Z) (stdin : bool)
    (op : Prelude.M W (list ErrorMsg * (string * string))) :
    M (option ErrorMsg * (string * string)) :=
  r ← try (start_session sid stdin op);
  match r with
  | inl e => mret (Some (error_message e), (""%string, ""%string))
  | inr (errs, out) =>
      err ← collectStreamErrors ctx None errs;
      mret (err, out)
  end.

(** ** Commands with a session (handle_action.go) *)

Definition handleExec (sched : schedule) (ctx : Ctx) (sid : Z) (payload : string) :
    M (option Packet) :=
  opts ← decode (dec_ExecOrAttach codec payload);
  handleStreamOperation sid (ea_Stdout opts) (ea_Stderr opts) sched
    (run_session ctx sid (ea_Stdin opts)
       (eng_Exec ctx (ea_PodUid opts) (ea_Container opts) (ea_Stdin opts) (ea_Stdout opts)
          (ea_Stderr opts) (ea_Command opts) (ea_Tty opts)));;
  mret None.

Definition handleAttach (sched : schedule) (ctx : Ctx) (sid : Z) (payload : string) :
    M (option Packet) :=
  opts ← decode (dec_ExecOrAttach codec payload);
  handleStreamOperation sid (ea_Stdout opts) (ea_Stderr opts) sched
    (run_session ctx sid (ea_Stdin opts)
       (eng_Attach ctx (ea_PodUid opts) (ea_Container opts) (ea_Stdin opts) (ea_Stdout opts)
          (ea_Stderr opts)));;
  mret None.

Definition handleLogs (sched : schedule) (ctx : Ctx) (sid : Z) (payload : string) :
    M (option Packet) :=
  opts ← decode (dec_Logs codec payload);
  handleStreamOperation sid true true sched
    (r ← lift (eng_Logs ctx opts);
     mret (error_message <$> r.1, r.2));;
  mret None.

Definition handleTtyResize (sid : Z) (payload : string) : M (option Packet) :=
  opts ← decode (dec_Resize codec payload);
  Resize sid opts.1 opts.2;;
  mret None.

(** The deferred part of [handlePortForward]. *)
Definition end_forward (sid seq : Z) (err : option error) : M unit :=
  ignore (SendMsg (last_message sid (nextSeq seq).1 (error_message <$> err)));;
  Del sid.

(** [for { select { ... } }] over the channel of the forward: the errors are
    put together until the channel is closed or the context is done. *)
Fixpoint collect_forward_errors (ctx : Ctx) (err : option error) (errs : list error) :
    M (option error) :=
  done ← lift (eng_CtxDone ctx);
  if done : bool then mret err
  else
    match errs with
    | [] => mret err
    | e :: errs =>
        collect_forward_errors ctx
          (Some match err with None => e | Some e0 => Wrapf (err_Error codec e0) e end) errs
    end.

Definition handlePortForward (sched : schedule) (ctx : Ctx) (sid : Z) (payload : string) :
    M (option Packet) :=
  opts ← decode (dec_PortForward codec payload);
  r ← try (Add sid
         (f ← lift (eng_PortForward ctx (pf_PodUid opts) (pf_Protocol opts) (pf_Port opts));
          match fw_Downstream f with
          | None => fail (Errorf "bad port-forward implementation, missing required return values")
          | Some d => mret (d, fw_Errors f)
          end));
  match r with
  | inl e => end_forward sid 0 (Some e);; fail e
  | inr (downstream, errs) =>
      (* one uploader: there is no second pipe *)
      u ← uploads sid sched (mkPipe MSG_DATA_OUTPUT downstream true)
            (mkPipe MSG_RUNTIME_DATA_STDERR "" false) 0;
      err ← collect_forward_errors ctx None errs;
      end_forward sid u.2 err;;
      mret None
  end.

(** ** Dispatch (handler.go) *)

Definition funcMap (sched : schedule) (kind : Z) : option (Ctx → Z → string → M (option Packet)) :=
  if decide (kind = CMD_GET_INFO) then Some (λ _ _ _, handleGetInfo)
  else if decide (kind = CMD_EXEC) then Some (handleExec sched)
  else if decide (kind = CMD_ATTACH) then Some (handleAttach sched)
  else if decide (kind = CMD_LOGS) then Some (handleLogs sched)
  else if decide (kind = CMD_TTY_RESIZE) then Some (λ _, handleTtyResize)
  else if decide (kind = CMD_PORT_FORWARD) then Some (handlePortForward sched)
  else if decide (kind = CMD_IMAGE_LIST) then Some (λ ctx _, handleImageList ctx)
  else if decide (kind = CMD_IMAGE_ENSURE) then Some (λ ctx _, handleImageEnsure ctx)
  else if decide (kind = CMD_IMAGE_DELETE) then Some (λ ctx _, handleImageDelete ctx)
  else if decide (kind = CMD_POD_LIST) then Some (λ ctx _, handlePodList ctx)
  else if decide (kind = CMD_POD_ENSURE) then Some (λ ctx _, handlePodEnsure ctx)
  else if decide (kind = CMD_POD_DELETE) then Some (λ ctx _, handlePodDelete ctx)
  else None.

(** The goroutine of a command: run it and send what it returns, or the error.
    The payload of an error is a bare [ErrorMsg], not a packet. *)
Definition serve_command (sid seq : Z) (do : M (option Packet)) : M unit :=
  r ← try do;
  match r with
  | inl e =>
      ignore (SendMsg (mkMsg MSG_RUNTIME_ARANYA_PROTO sid seq
                         (Some (enc_ErrorMsg codec (error_message e)))))
  | inr None => mret ()
  | inr (Some pkt) =>
      ignore (SendMsg (mkMsg MSG_RUNTIME_ARANYA_PROTO sid seq (Some (enc_Packet codec pkt))))
  end.

(** Every branch returns the message type 0 and no message. *)
Definition HandleCmd (sched : schedule) (ctx : Ctx) (sid seq kind : Z) (payload : option string) :
    M unit :=
  if decide (kind = CMD_DATA_INPUT) then Write sid seq (Some (default ""%string payload))
  else if decide (kind = CMD_DATA_CLOSE) then Write sid seq None
  else if decide (kind = CMD_RUNTIME_ARANYA_PROTO) then
    pkt ← decode (dec_Packet codec (default ""%string payload));
    match funcMap sched (pkt_Kind pkt) with
    | None => fail (Errorf "unknown runtime cmd type")
    | Some do => go (serve_command sid seq (do ctx sid (pkt_Payload pkt)))
    end
  else fail (Errorf "unknown cmd type").

(** ** The loop of the controller (libext/controller.go) *)

(** One command: an error is answered with the returned message type, which is
    0, and nothing else is answered here. *)
Definition handle_one (sched : schedule) (ctx : Ctx) (cmd : Cmd) : M unit :=
  r ← try (HandleCmd sched ctx (cmd_Id cmd) (cmd_Seq cmd) (cmd_Kind cmd) (cmd_Payload cmd));
  match r with
  | inl e => SendMsg (mkMsg 0 (cmd_Id cmd) (cmd_Seq cmd) (Some (enc_HubError codec (err_Error codec e))))
  | inr _ => mret ()
  end.

Definition handleSession (ctx : Ctx) (cmds : list (schedule * Cmd)) : M unit :=
  for_each cmds (λ x, handle_one x.1 ctx x.2).
End handler.
