(* ===== verification/Messages.v ===== *)
(** The generated messages: their fields in the order of [MarshalToSizedBuffer]
    (which writes them from the last to the first), their [Size], and the
    [switch] of their [Unmarshal].

    Tags: [8 * n] for integers, enums and booleans, [8 * n + 2] for what has a
    length.  The records are those of [Proto], [Logs] and [Handler]. *)

From stdpp Require Import base gmap strings list fin_maps numbers.
From S2P Require Import Prelude Wire WireProofs Proto Logs SeqQueue Streams Handler.

Local Open Scope Z_scope.
Local Open Scope list_scope.

Notation length_of s := (size (to_bytes s)).

(** [string(dAtA[iNdEx:postIndex])] appended to a repeated field. *)
Definition read_append (l : list string) (d : buffer) : M Z (list string) :=
  s ← read_string d;
  mret (l ++ [s]).

(** ** Packet (runtime.pb.go) *)

Definition Packet_Size (m : Packet) : Z :=
  size_int (pkt_Kind m) + size_bytes (length_of (pkt_Payload m)).

Definition Packet_fields (m : Packet) : list (Z → M buffer Z) :=
  [put_int 8 (pkt_Kind m); put_bytes 18 (to_bytes (pkt_Payload m))].

Definition Packet_Marshal (m : Packet) : outcome buffer := Marshal (Packet_Size m) (Packet_fields m).

Definition Packet_field (d : buffer) (m : Packet) (n w : Z) : option (M Z Packet) :=
  match n with
  | 1 => Some (with_type 0 w (k ← read_varint d (sint 32); mret (mkPacket k (pkt_Payload m))))
  | 2 => Some (with_type 2 w (b ← read_bytes d; mret (mkPacket (pkt_Kind m) (of_bytes b))))
  | _ => None
  end.

Definition Packet_Unmarshal : buffer → outcome Packet := Unmarshal Packet_field (mkPacket 0 "").

(** ** RuntimeInfo (runtime.pb.go) *)

Definition RuntimeInfo_Size (m : RuntimeInfo) : Z :=
  size_bytes (length_of (ri_Name m)) + size_bytes (length_of (ri_Version m))
  + size_bytes (length_of (ri_Os m)) + size_bytes (length_of (ri_OsImage m))
  + size_bytes (length_of (ri_Arch m)) + size_bytes (length_of (ri_KernelVersion m)).

Definition RuntimeInfo_fields (m : RuntimeInfo) : list (Z → M buffer Z) :=
  [put_bytes 10 (to_bytes (ri_Name m)); put_bytes 18 (to_bytes (ri_Version m));
   put_bytes 26 (to_bytes (ri_Os m)); put_bytes 34 (to_bytes (ri_OsImage m));
   put_bytes 42 (to_bytes (ri_Arch m)); put_bytes 50 (to_bytes (ri_KernelVersion m))].

Definition RuntimeInfo_Marshal (m : RuntimeInfo) : outcome buffer :=
  Marshal (RuntimeInfo_Size m) (RuntimeInfo_fields m).

Definition RuntimeInfo_field (d : buffer) (m : RuntimeInfo) (n w : Z) : option (M Z RuntimeInfo) :=
  let '(mkRuntimeInfo name version os osImage arch kernel) := m in
  match n with
  | 1 => Some (with_type 2 w (x ← read_string d; mret (mkRuntimeInfo x version os osImage arch kernel)))
  | 2 => Some (with_type 2 w (x ← read_string d; mret (mkRuntimeInfo name x os osImage arch kernel)))
  | 3 => Some (with_type 2 w (x ← read_string d; mret (mkRuntimeInfo name version x osImage arch kernel)))
  | 4 => Some (with_type 2 w (x ← read_string d; mret (mkRuntimeInfo name version os x arch kernel)))
  | 5 => Some (with_type 2 w (x ← read_string d; mret (mkRuntimeInfo name version os osImage x kernel)))
  | 6 => Some (with_type 2 w (x ← read_string d; mret (mkRuntimeInfo name version os osImage arch x)))
  | _ => None
  end.

Definition RuntimeInfo_Unmarshal : buffer → outcome RuntimeInfo :=
  Unmarshal RuntimeInfo_field (mkRuntimeInfo "" "" "" "" "" "").

(** ** Messages of the hub (arhatgopb/proto.pb.go)

    A payload that was given is not nil after decoding, even when it is empty;
    an empty payload is not written. *)

Definition Msg_Size (m : Msg) : Z :=
  size_int (msg_Kind m) + size_int (msg_Id m) + size_int (msg_Ack m)
  + size_bytes (length_of (default ""%string (msg_Payload m))).

Definition Msg_fields (m : Msg) : list (Z → M buffer Z) :=
  [put_int 8 (msg_Kind m); put_int 16 (msg_Id m); put_int 24 (msg_Ack m);
   put_bytes 82 (to_bytes (default ""%string (msg_Payload m)))].

Definition Msg_Marshal (m : Msg) : outcome buffer := Marshal (Msg_Size m) (Msg_fields m).

Definition Msg_field (d : buffer) (m : Msg) (n w : Z) : option (M Z Msg) :=
  let '(mkMsg kind id ack payload) := m in
  match n with
  | 1 => Some (with_type 0 w (x ← read_varint d (sint 32); mret (mkMsg x id ack payload)))
  | 2 => Some (with_type 0 w (x ← read_varint d (uint 64); mret (mkMsg kind x ack payload)))
  | 3 => Some (with_type 0 w (x ← read_varint d (uint 64); mret (mkMsg kind id x payload)))
  | 10 => Some (with_type 2 w (b ← read_bytes d; mret (mkMsg kind id ack (Some (of_bytes b)))))
  | _ => None
  end.

Definition Msg_Unmarshal : buffer → outcome Msg := Unmarshal Msg_field (mkMsg 0 0 0 None).

Definition Cmd_Size (m : Cmd) : Z :=
  size_int (cmd_Kind m) + size_int (cmd_Id m) + size_int (cmd_Seq m)
  + size_bytes (length_of (default ""%string (cmd_Payload m))).

Definition Cmd_fields (m : Cmd) : list (Z → M buffer Z) :=
  [put_int 8 (cmd_Kind m); put_int 16 (cmd_Id m); put_int 24 (cmd_Seq m);
   put_bytes 82 (to_bytes (default ""%string (cmd_Payload m)))].

Definition Cmd_Marshal (m : Cmd) : outcome buffer := Marshal (Cmd_Size m) (Cmd_fields m).

Definition Cmd_field (d : buffer) (m : Cmd) (n w : Z) : option (M Z Cmd) :=
  let '(mkCmd kind id seq payload) := m in
  match n with
  | 1 => Some (with_type 0 w (x ← read_varint d (sint 32); mret (mkCmd x id seq payload)))
  | 2 => Some (with_type 0 w (x ← read_varint d (uint 64); mret (mkCmd kind x seq payload)))
  | 3 => Some (with_type 0 w (x ← read_varint d (uint 64); mret (mkCmd kind id x payload)))
  | 10 => Some (with_type 2 w (b ← read_bytes d; mret (mkCmd kind id seq (Some (of_bytes b)))))
  | _ => None
  end.

Definition Cmd_Unmarshal : buffer → outcome Cmd := Unmarshal Cmd_field (mkCmd 0 0 0 None).

(** The error message of the hub has a description only. *)
Definition HubError_Marshal (descr : string) : outcome buffer :=
  Marshal (size_bytes (length_of descr)) [put_bytes 10 (to_bytes descr)].

(** ** ErrorMsg (aranyagopb/proto.pb.go) *)

Definition ErrorMsg_Size (m : ErrorMsg) : Z :=
  size_int (em_Kind m) + size_bytes (length_of (em_Description m)) + size_int (em_Code m).

Definition ErrorMsg_fields (m : ErrorMsg) : list (Z → M buffer Z) :=
  [put_int 8 (em_Kind m); put_bytes 18 (to_bytes (em_Description m)); put_int 24 (em_Code m)].

Definition ErrorMsg_Marshal (m : ErrorMsg) : outcome buffer := Marshal (ErrorMsg_Size m) (ErrorMsg_fields m).

Definition ErrorMsg_field (d : buffer) (m : ErrorMsg) (n w : Z) : option (M Z ErrorMsg) :=
  let '(mkErrorMsg kind descr code) := m in
  match n with
  | 1 => Some (with_type 0 w (x ← read_varint d (sint 32); mret (mkErrorMsg x descr code)))
  | 2 => Some (with_type 2 w (x ← read_string d; mret (mkErrorMsg kind x code)))
  | 3 => Some (with_type 0 w (x ← read_varint d (sint 64); mret (mkErrorMsg kind descr x)))
  | _ => None
  end.

Definition ErrorMsg_Unmarshal : buffer → outcome ErrorMsg := Unmarshal ErrorMsg_field (mkErrorMsg 0 "" 0).

(** ** Status of images (msg_image.pb.go) *)

Definition ImageStatusMsg_Size (m : ImageStatusMsg) : Z :=
  size_bytes (length_of (im_Sha256 m)) + size_int (im_Size m)
  + sum_sizes (λ s, size_item (length_of s)) (im_Refs m).

Definition ImageStatusMsg_fields (m : ImageStatusMsg) : list (Z → M buffer Z) :=
  [put_bytes 10 (to_bytes (im_Sha256 m)); put_int 16 (im_Size m);
   put_all (λ s, put_item 26 (to_bytes s)) (im_Refs m)].

Definition ImageStatusMsg_field (d : buffer) (m : ImageStatusMsg) (n w : Z) : option (M Z ImageStatusMsg) :=
  match n with
  | 1 => Some (with_type 2 w (x ← read_string d;
           mret {| im_Sha256 := x; im_Size := im_Size m; im_Refs := im_Refs m |}))
  | 2 => Some (with_type 0 w (x ← read_varint d (uint 64);
           mret {| im_Sha256 := im_Sha256 m; im_Size := x; im_Refs := im_Refs m |}))
  | 3 => Some (with_type 2 w (l ← read_append (im_Refs m) d;
           mret {| im_Sha256 := im_Sha256 m; im_Size := im_Size m; im_Refs := l |}))
  | _ => None
  end.

Definition no_image : ImageStatusMsg := {| im_Sha256 := ""; im_Size := 0; im_Refs := [] |}.

(** [e.Size()] is 0 for a nil entry, and [MarshalToSizedBuffer] of a nil entry
    reads its fields. *)
Definition ImageStatusListMsg_Size (m : ImageStatusListMsg) : Z :=
  sum_sizes (λ e, size_item (match e with Some e => ImageStatusMsg_Size e | None => 0 end)) (iml_Images m).

Definition put_image (e : option ImageStatusMsg) : M buffer Z :=
  match e with
  | Some e => MarshalToSizedBuffer (ImageStatusMsg_fields e)
  | None => crash NilDereference
  end.

Definition ImageStatusListMsg_fields (m : ImageStatusListMsg) : list (Z → M buffer Z) :=
  [put_all (λ e, put_message 10 (put_image e)) (iml_Images m)].

Definition ImageStatusListMsg_Marshal (m : ImageStatusListMsg) : outcome buffer :=
  Marshal (ImageStatusListMsg_Size m) (ImageStatusListMsg_fields m).

Definition ImageStatusListMsg_field (d : buffer) (m : ImageStatusListMsg) (n w : Z) :
    option (M Z ImageStatusListMsg) :=
  match n with
  | 1 => Some (with_type 2 w (b ← read_bytes d;
           e ← returned (Unmarshal ImageStatusMsg_field no_image b);
           mret {| iml_Images := iml_Images m ++ [Some e] |}))
  | _ => None
  end.

Definition ImageStatusListMsg_Unmarshal : buffer → outcome ImageStatusListMsg :=
  Unmarshal ImageStatusListMsg_field {| iml_Images := [] |}.

(** ** Commands of sessions (aranyagopb/proto.pb.go) *)

Definition ExecOrAttachCmd_Size (m : ExecOrAttachCmd) (envs : list (string * string)) : Z :=
  size_bytes (length_of (ea_PodUid m)) + size_bytes (length_of (ea_Container m))
  + size_bool (ea_Stdin m) + size_bool (ea_Stdout m) + size_bool (ea_Stderr m) + size_bool (ea_Tty m)
  + sum_sizes (λ s, size_item (length_of s)) (ea_Command m)
  + sum_sizes (λ e, size_item (size_item (length_of e.1) + size_item (length_of e.2))) envs.

(** [envs] lists the entries of [Envs]; [range] visits them from the last to the
    first. *)
Definition ExecOrAttachCmd_fields (m : ExecOrAttachCmd) (envs : list (string * string)) :
    list (Z → M buffer Z) :=
  [put_bytes 10 (to_bytes (ea_PodUid m)); put_bytes 18 (to_bytes (ea_Container m));
   put_bool 24 (ea_Stdin m); put_bool 32 (ea_Stdout m); put_bool 40 (ea_Stderr m); put_bool 48 (ea_Tty m);
   put_all (λ s, put_item 58 (to_bytes s)) (ea_Command m);
   put_all (λ e, put_entry 66 (to_bytes e.1, to_bytes e.2)) envs].

Definition ExecOrAttachCmd_Marshal (m : ExecOrAttachCmd) (envs : list (string * string)) : outcome buffer :=
  Marshal (ExecOrAttachCmd_Size m envs) (ExecOrAttachCmd_fields m envs).

Definition ExecOrAttachCmd_field (d : buffer) (m : ExecOrAttachCmd) (n w : Z) : option (M Z ExecOrAttachCmd) :=
  let '(mkExecOrAttachCmd uid ctr i o e t cmd envs) := m in
  match n with
  | 1 => Some (with_type 2 w (x ← read_string d; mret (mkExecOrAttachCmd x ctr i o e t cmd envs)))
  | 2 => Some (with_type 2 w (x ← read_string d; mret (mkExecOrAttachCmd uid x i o e t cmd envs)))
  | 3 => Some (with_type 0 w (x ← read_bool d; mret (mkExecOrAttachCmd uid ctr x o e t cmd envs)))
  | 4 => Some (with_type 0 w (x ← read_bool d; mret (mkExecOrAttachCmd uid ctr i x e t cmd envs)))
  | 5 => Some (with_type 0 w (x ← read_bool d; mret (mkExecOrAttachCmd uid ctr i o x t cmd envs)))
  | 6 => Some (with_type 0 w (x ← read_bool d; mret (mkExecOrAttachCmd uid ctr i o e x cmd envs)))
  | 7 => Some (with_type 2 w (x ← read_append cmd d; mret (mkExecOrAttachCmd uid ctr i o e t x envs)))
  | 8 => Some (with_type 2 w (kv ← read_entry d (read_string d) ""%string;
           mret (mkExecOrAttachCmd uid ctr i o e t cmd (<[kv.1 := kv.2]> envs))))
  | _ => None
  end.

Definition ExecOrAttachCmd_Unmarshal : buffer → outcome ExecOrAttachCmd :=
  Unmarshal ExecOrAttachCmd_field (mkExecOrAttachCmd "" "" false false false false [] ∅).

Definition LogsCmd_Size (m : LogsCmd) : Z :=
  size_bytes (length_of (lc_PodUid m)) + size_bytes (length_of (lc_Container m))
  + size_bool (lc_Follow m) + size_bool (lc_Timestamp m) + size_bytes (length_of (lc_Since m))
  + size_int (lc_TailLines m) + size_int (lc_BytesLimit m) + size_bool (lc_Previous m)
  + size_bytes (length_of (lc_Path m)).

Definition LogsCmd_fields (m : LogsCmd) : list (Z → M buffer Z) :=
  [put_bytes 10 (to_bytes (lc_PodUid m)); put_bytes 18 (to_bytes (lc_Container m));
   put_bool 24 (lc_Follow m); put_bool 32 (lc_Timestamp m); put_bytes 42 (to_bytes (lc_Since m));
   put_int 48 (lc_TailLines m); put_int 56 (lc_BytesLimit m); put_bool 64 (lc_Previous m);
   put_bytes 74 (to_bytes (lc_Path m))].

Definition LogsCmd_Marshal (m : LogsCmd) : outcome buffer := Marshal (LogsCmd_Size m) (LogsCmd_fields m).

Definition LogsCmd_field (d : buffer) (m : LogsCmd) (n w : Z) : option (M Z LogsCmd) :=
  let '(mkLogsCmd uid ctr f t since tail lim prev path) := m in
  match n with
  | 1 => Some (with_type 2 w (x ← read_string d; mret (mkLogsCmd x ctr f t since tail lim prev path)))
  | 2 => Some (with_type 2 w (x ← read_string d; mret (mkLogsCmd uid x f t since tail lim prev path)))
  | 3 => Some (with_type 0 w (x ← read_bool d; mret (mkLogsCmd uid ctr x t since tail lim prev path)))
  | 4 => Some (with_type 0 w (x ← read_bool d; mret (mkLogsCmd uid ctr f x since tail lim prev path)))
  | 5 => Some (with_type 2 w (x ← read_string d; mret (mkLogsCmd uid ctr f t x tail lim prev path)))
  | 6 => Some (with_type 0 w (x ← read_varint d (sint 64); mret (mkLogsCmd uid ctr f t since x lim prev path)))
  | 7 => Some (with_type 0 w (x ← read_varint d (sint 64); mret (mkLogsCmd uid ctr f t since tail x prev path)))
  | 8 => Some (with_type 0 w (x ← read_bool d; mret (mkLogsCmd uid ctr f t since tail lim x path)))
  | 9 => Some (with_type 2 w (x ← read_string d; mret (mkLogsCmd uid ctr f t since tail lim prev x)))
  | _ => None
  end.

Definition LogsCmd_Unmarshal : buffer → outcome LogsCmd :=
  Unmarshal LogsCmd_field (mkLogsCmd "" "" false false "" 0 0 false "").

Definition PortForwardCmd_Size (m : PortForwardCmd) : Z :=
  size_bytes (length_of (pf_PodUid m)) + size_int (pf_Port m) + size_bytes (length_of (pf_Protocol m)).

Definition PortForwardCmd_fields (m : PortForwardCmd) : list (Z → M buffer Z) :=
  [put_bytes 10 (to_bytes (pf_PodUid m)); put_int 16 (pf_Port m); put_bytes 26 (to_bytes (pf_Protocol m))].

Definition PortForwardCmd_Marshal (m : PortForwardCmd) : outcome buffer :=
  Marshal (PortForwardCmd_Size m) (PortForwardCmd_fields m).

Definition PortForwardCmd_field (d : buffer) (m : PortForwardCmd) (n w : Z) : option (M Z PortForwardCmd) :=
  let '(mkPortForwardCmd uid port protocol) := m in
  match n with
  | 1 => Some (with_type 2 w (x ← read_string d; mret (mkPortForwardCmd x port protocol)))
  | 2 => Some (with_type 0 w (x ← read_varint d (sint 32); mret (mkPortForwardCmd uid x protocol)))
  | 3 => Some (with_type 2 w (x ← read_string d; mret (mkPortForwardCmd uid port x)))
  | _ => None
  end.

Definition PortForwardCmd_Unmarshal : buffer → outcome PortForwardCmd :=
  Unmarshal PortForwardCmd_field (mkPortForwardCmd "" 0 "").

(** Columns and rows. *)
Definition TerminalResizeCmd_Size (m : Z * Z) : Z := size_int m.1 + size_int m.2.
Definition TerminalResizeCmd_Marshal (m : Z * Z) : outcome buffer :=
  Marshal (TerminalResizeCmd_Size m) [put_int 8 m.1; put_int 16 m.2].

Definition TerminalResizeCmd_field (d : buffer) (m : Z * Z) (n w : Z) : option (M Z (Z * Z)) :=
  match n with
  | 1 => Some (with_type 0 w (x ← read_varint d (uint 32); mret (x, m.2)))
  | 2 => Some (with_type 0 w (x ← read_varint d (uint 32); mret (m.1, x)))
  | _ => None
  end.

Definition TerminalResizeCmd_Unmarshal : buffer → outcome (Z * Z) := Unmarshal TerminalResizeCmd_field (0, 0).

(** ** Lists of pods and images (cmd_pod.pb.go, cmd_image.pb.go) *)

Definition PodListCmd_Size (m : PodListCmd) : Z :=
  size_bool (pl_All m) + sum_sizes (λ s, size_item (length_of s)) (pl_Names m).

Definition PodListCmd_Marshal (m : PodListCmd) : outcome buffer :=
  Marshal (PodListCmd_Size m) [put_bool 8 (pl_All m); put_all (λ s, put_item 18 (to_bytes s)) (pl_Names m)].

Definition PodListCmd_field (d : buffer) (m : PodListCmd) (n w : Z) : option (M Z PodListCmd) :=
  match n with
  | 1 => Some (with_type 0 w (x ← read_bool d; mret {| pl_All := x; pl_Names := pl_Names m |}))
  | 2 => Some (with_type 2 w (x ← read_append (pl_Names m) d; mret {| pl_All := pl_All m; pl_Names := x |}))
  | _ => None
  end.

Definition PodListCmd_Unmarshal : buffer → outcome PodListCmd :=
  Unmarshal PodListCmd_field {| pl_All := false; pl_Names := [] |}.

(** [ImageListCmd] and [ImageDeleteCmd] have the same fields. *)
Definition ImageRefs_Marshal (refs : list string) : outcome buffer :=
  Marshal (sum_sizes (λ s, size_item (length_of s)) refs) [put_all (λ s, put_item 10 (to_bytes s)) refs].

Definition ImageRefs_field (d : buffer) (m : list string) (n w : Z) : option (M Z (list string)) :=
  match n with
  | 1 => Some (with_type 2 w (l ← read_append m d; mret l))
  | _ => None
  end.

Definition ImageRefs_Unmarshal : buffer → outcome (list string) := Unmarshal ImageRefs_field [].

(** ** Examples *)

Example packet_bytes :
  Packet_Marshal (mkPacket 32 "ab") = Ok [byte_of 8; byte_of 32; byte_of 18; byte_of 2; byte_of 97; byte_of 98].
Proof. vm_compute. reflexivity. Qed.

Example negative_kind :
  match Msg_Marshal (mkMsg (-1) 300 0 None) with
  | Ok b => length b = 14%nat ∧ Msg_Unmarshal b = Ok (mkMsg (-1) 300 0 None)
  | _ => False
  end.
Proof. vm_compute. done. Qed.

Example nil_image :
  ImageStatusListMsg_Marshal {| iml_Images := [None] |} = Panic NilDereference.
Proof. vm_compute. reflexivity. Qed.

Example exec_bytes :
  let m := mkExecOrAttachCmd "u" "c" true false false true ["sh"; ""]%string {["A"%string := "b"%string]} in
  match ExecOrAttachCmd_Marshal m [("A", "b")]%string with
  | Ok b => ExecOrAttachCmd_Unmarshal b = Ok m
  | _ => False
  end.
Proof. vm_compute. reflexivity. Qed.
