(* ===== verification/MessageProofs.v ===== *)
(** Round trips of the messages, and how their decoders end. *)

From stdpp Require Import base gmap strings list sets fin_maps numbers.
From S2P Require Import Prelude Wire WireProofs Proto Logs SeqQueue Streams Handler Messages.

Local Open Scope Z_scope.
Local Open Scope list_scope.

(** ** Sizes *)

Lemma sov_pos x : 0 ≤ x → 1 ≤ sov x.
Proof. intros Hx. rewrite sov_log by done. pose proof (Z.div_pos (Z.log2 x) 7 (Z.log2_nonneg x)). lia. Qed.

Lemma size_int_nonneg v : 0 ≤ size_int v.
Proof. unfold size_int. destruct (_ =? _); [lia|]. pose proof (sov_pos (uint 64 v)). pose proof (uint_bound 64 v). lia. Qed.

Lemma sov_bound v : 0 ≤ v < 2 ^ 64 → sov v ≤ 10.
Proof.
  intros Hv. rewrite sov_log by lia. assert (Z.log2 v < 64) as Hl.
  { destruct (decide (v = 0)) as [->|]; [done|]. apply Z.log2_lt_pow2; lia. }
  pose proof (Z.div_le_upper_bound (Z.log2 v) 7 9). lia.
Qed.

Lemma size_int_bound v : size_int v ≤ 11.
Proof.
  unfold size_int. destruct (_ =? _); [lia|]. pose proof (sov_bound (uint 64 v) (uint_bound 64 v ltac:(lia))). lia.
Qed.

Lemma size_bool_nonneg v : 0 ≤ size_bool v.
Proof. by destruct v. Qed.

Lemma size_item_bound l : 0 ≤ l → l < size_item l.
Proof.
  intros Hl. unfold size_item. pose proof (sov_pos (uint 64 l)). pose proof (uint_bound 64 l). lia.
Qed.

Lemma size_item_nonneg l : 0 ≤ size_item (Z.of_nat l).
Proof. pose proof (size_item_bound (Z.of_nat l)). lia. Qed.

Lemma size_bytes_bound l : 0 ≤ l → l ≤ size_bytes l.
Proof.
  intros Hl. unfold size_bytes. destruct (Z.ltb_spec 0 l); [|lia]. pose proof (size_item_bound l). lia.
Qed.

Lemma foldl_sizes {A} (f : A → Z) l n : foldl (λ n x, n + f x) n l = n + sum_sizes f l.
Proof.
  unfold sum_sizes. revert n. induction l as [|x l IH]; intros n; simpl; [lia|].
  rewrite IH, (IH (0 + f x)). lia.
Qed.

Lemma sum_sizes_cons {A} (f : A → Z) x l : sum_sizes f (x :: l) = f x + sum_sizes f l.
Proof. unfold sum_sizes at 1. cbn [foldl]. rewrite foldl_sizes. lia. Qed.

Lemma sum_sizes_nonneg {A} (f : A → Z) l : (∀ x, 0 ≤ f x) → 0 ≤ sum_sizes f l.
Proof.
  intros Hf. induction l as [|x l IH]; [done|]. rewrite sum_sizes_cons. pose proof (Hf x). lia.
Qed.

Lemma sum_sizes_bound {A} (f : A → Z) l x : (∀ x, 0 ≤ f x) → x ∈ l → f x ≤ sum_sizes f l.
Proof.
  intros Hf. induction 1 as [x l|x y l Hx IH]; rewrite sum_sizes_cons.
  - pose proof (sum_sizes_nonneg f l Hf). lia.
  - pose proof (Hf y). lia.
Qed.

Lemma sum_sizes_ext {A} (f g : A → Z) l : (∀ x, x ∈ l → f x = g x) → sum_sizes f l = sum_sizes g l.
Proof.
  induction l as [|x l IH]; intros He; [done|]. rewrite !sum_sizes_cons, He, IH by set_solver. done.
Qed.

(** The parts of a size that is small enough are small enough. *)
Ltac size_facts :=
  repeat match goal with
  | H : context [size_int ?v] |- _ =>
      lazymatch goal with _ : 0 ≤ size_int v |- _ => fail | _ => pose proof (size_int_nonneg v) end
  | H : context [size_bool ?v] |- _ =>
      lazymatch goal with _ : 0 ≤ size_bool v |- _ => fail | _ => pose proof (size_bool_nonneg v) end
  | H : context [size_bytes ?l] |- _ =>
      lazymatch goal with _ : l ≤ size_bytes l |- _ => fail | _ => pose proof (size_bytes_bound l ltac:(lia)) end
  | H : context [sum_sizes ?f ?l] |- _ =>
      lazymatch goal with
      | _ : 0 ≤ sum_sizes f l |- _ => fail
      | _ => assert (0 ≤ sum_sizes f l) by (apply sum_sizes_nonneg; intros; apply size_item_nonneg)
      end
  end.

(** ** Round trips *)

Lemma roundtrip {A} field (zero m : A) n fs ss :
  Forall2 emits fs ss → size (concat ss) = n → n < 2 ^ 63 → parses field zero (concat ss) m →
  ∃ b, Marshal n fs = Ok b ∧ size b = n ∧ Unmarshal field zero b = Ok m.
Proof.
  intros Hf Hn Hl Hp. exists (concat ss). split; [|split]; [|done|].
  - by apply Marshal_fills.
  - apply Unmarshal_parses; [done|lia].
Qed.

Create HintDb wire discriminated.
#[export] Hint Resolve emits_int emits_bool : wire.
#[export] Hint Extern 1 (emits (put_bytes _ _) _) => (apply emits_bytes; lia) : wire.
#[export] Hint Extern 1 (emits (put_item _ _) _) => (apply emits_item; lia) : wire.

Ltac emits_solve := repeat first [apply Forall2_nil_2 | apply Forall2_cons; [solve [auto with wire]|]].

Ltac sizes_solve :=
  cbn [concat]; rewrite ?length_app, ?Nat2Z.inj_add, ?size_enc_int, ?size_enc_bool, ?size_enc_bytes by lia;
  cbn [length]; lia.

(** A field is read back; the answer determines the next state of the message. *)
Ltac reads_solve :=
  apply reads_with_type;
  first
    [ eapply reads_map; apply reads_varint; [apply _|by apply uint_bound]
    | eapply reads_map; apply reads_string; lia
    | eapply reads_map; apply reads_bytes; lia
    | eapply reads_map; apply reads_bool ].

Ltac empty_string := match goal with |- to_bytes ?s = [] → _ => destruct s; [reflexivity|discriminate] end.

Ltac parses_step :=
  eapply parses_app;
  [match goal with
   | |- parses _ _ (enc_int ?t _) _ =>
       let n := eval compute in (t / 8) in
       eapply (parses_int _ n); [lia|intros; reflexivity|..|intros; reads_solve]; intros ->; reflexivity
   | |- parses _ _ (enc_bool ?t _) _ =>
       let n := eval compute in (t / 8) in
       eapply (parses_bool _ n)
   | |- parses _ _ (enc_bytes ?t _) _ =>
       let n := eval compute in (t / 8) in
       eapply (parses_bytes _ n); [lia|intros; reflexivity|..|reads_solve]; empty_string
   end|].

Definition int32 (v : Z) : Prop := - 2 ^ 31 ≤ v < 2 ^ 31.
Definition int64 (v : Z) : Prop := - 2 ^ 63 ≤ v < 2 ^ 63.
Definition uint64 (v : Z) : Prop := 0 ≤ v < 2 ^ 64.
Definition uint32 (v : Z) : Prop := 0 ≤ v < 2 ^ 32.

Lemma read_int32 v : int32 v → sint 32 (uint 64 v) = v.
Proof. intros [??]. apply sint_uint_small; simpl; lia. Qed.
Lemma read_int64 v : int64 v → sint 64 (uint 64 v) = v.
Proof. intros [??]. apply sint_uint_small; simpl; lia. Qed.
Lemma read_uint64 v : uint64 v → uint 64 (uint 64 v) = v.
Proof. intros [??]. apply uint_uint_small; simpl; lia. Qed.
Lemma read_uint32 v : uint32 v → uint 32 (uint 64 v) = v.
Proof. intros [??]. apply uint_uint_small; simpl; lia. Qed.

(** The message that was read is the one that was written. *)
Ltac parses_end :=
  match goal with |- parses _ ?a [] ?b => replace b with a; [apply parses_nil|] end; cbn;
  rewrite ?String.string_of_list_ascii_of_string, ?read_int32, ?read_int64, ?read_uint64, ?read_uint32 by done;
  try done.

Lemma item_fits (l : list string) x :
  sum_sizes (λ s, size_item (length_of s)) l < 2 ^ 63 → x ∈ l → length_of x < 2 ^ 63.
Proof.
  intros Hl Hx. assert (∀ s, length_of s < size_item (length_of s)) as Hs by (intros; apply size_item_bound; lia).
  pose proof (sum_sizes_bound (λ s, size_item (length_of s)) l x ltac:(intros s; specialize (Hs s); lia) Hx).
  specialize (Hs x). simpl in *. lia.
Qed.

(** A repeated field of strings, seen through [get] and [set]. *)
Lemma parses_repeated {A} field n (get : A → list string) (set : A → list string → A) m l :
  0 < n < 16 → (∀ m l, get (set m l) = l) → (∀ m l l', set (set m l) l' = set m l') → (∀ m, set m (get m) = m) →
  (∀ d m, field d m n 2 = Some (with_type 2 2 (x ← read_append (get m) d; mret (set m x)))) →
  sum_sizes (λ s, size_item (length_of s)) l < 2 ^ 63 →
  parses field m (concat ((λ s, enc_item (8 * n + 2) (to_bytes s)) <$> l)) (set m (get m ++ l)).
Proof.
  intros Hn Hgs Hss Hsg Hf Hl.
  assert (set m (get m ++ l) = foldl (λ m x, set m (get m ++ [x])) m l) as ->.
  { clear Hl. revert m. induction l as [|x l IH]; intros m; simpl; [by rewrite app_nil_r|].
    by rewrite <- IH, Hgs, Hss, <- app_assoc. }
  apply parses_concat. intros m' x Hx. eapply parses_item; [done|intros d; apply Hf|].
  apply reads_with_type. unfold read_append. pose proof (item_fits l x Hl Hx).
  apply (reads_map (λ d, s ← read_string d; mret (get m' ++ [s])) (set m')).
  apply (reads_map read_string (λ s, get m' ++ [s])). by apply reads_string.
Qed.

Lemma emits_repeated tag l : sum_sizes (λ s, size_item (length_of s)) l < 2 ^ 63 →
  emits (put_all (λ s, put_item tag (to_bytes s)) l) (concat ((λ s, enc_item tag (to_bytes s)) <$> l)).
Proof.
  intros Hl. apply emits_all. intros x Hx. apply emits_item.
  pose proof (item_fits l x Hl Hx). lia.
Qed.

Lemma size_repeated tag l : sum_sizes (λ s, size_item (length_of s)) l < 2 ^ 63 →
  size (concat ((λ s, enc_item tag (to_bytes s)) <$> l)) = sum_sizes (λ s, size_item (length_of s)) l.
Proof.
  intros Hl. apply size_enc_all. intros x Hx. apply size_enc_item.
  pose proof (item_fits l x Hl Hx). lia.
Qed.

Lemma Packet_roundtrip m :
  int32 (pkt_Kind m) → Packet_Size m < 2 ^ 63 →
  ∃ b, Packet_Marshal m = Ok b ∧ size b = Packet_Size m ∧ Packet_Unmarshal b = Ok m.
Proof.
  destruct m as [kind payload]. unfold Packet_Marshal, Packet_Size, Packet_fields.
  cbn [pkt_Kind pkt_Payload]. intros Hk Hs. size_facts.
  eapply (roundtrip _ _ _ _ _ [enc_int 8 kind; enc_bytes 18 (to_bytes payload)]); [emits_solve|sizes_solve|done|].
  cbn [concat]. do 2 parses_step. parses_end.
Qed.

Lemma RuntimeInfo_roundtrip m :
  RuntimeInfo_Size m < 2 ^ 63 →
  ∃ b, RuntimeInfo_Marshal m = Ok b ∧ size b = RuntimeInfo_Size m ∧ RuntimeInfo_Unmarshal b = Ok m.
Proof.
  destruct m as [n v o i a k]. unfold RuntimeInfo_Marshal, RuntimeInfo_Size, RuntimeInfo_fields.
  cbn [ri_Name ri_Version ri_Os ri_OsImage ri_Arch ri_KernelVersion]. intros Hs. size_facts.
  eapply (roundtrip _ _ _ _ _ [enc_bytes 10 (to_bytes n); enc_bytes 18 (to_bytes v); enc_bytes 26 (to_bytes o);
    enc_bytes 34 (to_bytes i); enc_bytes 42 (to_bytes a); enc_bytes 50 (to_bytes k)]);
    [emits_solve|sizes_solve|done|].
  cbn [concat]. do 6 parses_step. parses_end.
Qed.

(** An empty payload arrives as nil. *)
Definition payload_given (p : option string) : Prop := p ≠ Some ""%string.

Lemma parses_payload {A} field (m : A) (upd : option string → A) p :
  (∀ d, field d m 10 2 = Some (with_type 2 2 (b ← read_bytes d; mret (upd (Some (of_bytes b)))))) →
  payload_given p → upd None = m → length_of (default ""%string p) < 2 ^ 63 →
  parses field m (enc_bytes 82 (to_bytes (default ""%string p))) (upd p).
Proof.
  intros Hf Hp Hn Hl. destruct p as [s|]; [|rewrite Hn; apply parses_nil].
  eapply (parses_bytes _ 10); [lia|intros d; apply Hf|by destruct s|]. simpl in *.
  apply reads_with_type. rewrite <- (String.string_of_list_ascii_of_string s) at 3.
  apply (reads_map read_bytes (λ b, upd (Some (of_bytes b)))), reads_bytes. lia.
Qed.

Lemma Msg_roundtrip m :
  int32 (msg_Kind m) → uint64 (msg_Id m) → uint64 (msg_Ack m) → payload_given (msg_Payload m) →
  Msg_Size m < 2 ^ 63 → ∃ b, Msg_Marshal m = Ok b ∧ size b = Msg_Size m ∧ Msg_Unmarshal b = Ok m.
Proof.
  destruct m as [kind id ack p]. unfold Msg_Marshal, Msg_Size, Msg_fields.
  cbn [msg_Kind msg_Id msg_Ack msg_Payload]. intros Hk Hi Ha Hp Hs. size_facts.
  eapply (roundtrip _ _ _ _ _ [enc_int 8 kind; enc_int 16 id; enc_int 24 ack;
    enc_bytes 82 (to_bytes (default ""%string p))]); [emits_solve|sizes_solve|done|].
  cbn [concat]. do 3 parses_step. eapply parses_app.
  { eapply (parses_payload _ _ (mkMsg _ _ _)); [intros; reflexivity|done|reflexivity|lia]. }
  parses_end.
Qed.

Lemma Cmd_roundtrip m :
  int32 (cmd_Kind m) → uint64 (cmd_Id m) → uint64 (cmd_Seq m) → payload_given (cmd_Payload m) →
  Cmd_Size m < 2 ^ 63 → ∃ b, Cmd_Marshal m = Ok b ∧ size b = Cmd_Size m ∧ Cmd_Unmarshal b = Ok m.
Proof.
  destruct m as [kind id seq p]. unfold Cmd_Marshal, Cmd_Size, Cmd_fields.
  cbn [cmd_Kind cmd_Id cmd_Seq cmd_Payload]. intros Hk Hi Ha Hp Hs. size_facts.
  eapply (roundtrip _ _ _ _ _ [enc_int 8 kind; enc_int 16 id; enc_int 24 seq;
    enc_bytes 82 (to_bytes (default ""%string p))]); [emits_solve|sizes_solve|done|].
  cbn [concat]. do 3 parses_step. eapply parses_app.
  { eapply (parses_payload _ _ (mkCmd _ _ _)); [intros; reflexivity|done|reflexivity|lia]. }
  parses_end.
Qed.

Lemma ErrorMsg_roundtrip m :
  int32 (em_Kind m) → int64 (em_Code m) → ErrorMsg_Size m < 2 ^ 63 →
  ∃ b, ErrorMsg_Marshal m = Ok b ∧ size b = ErrorMsg_Size m ∧ ErrorMsg_Unmarshal b = Ok m.
Proof.
  destruct m as [kind descr code]. unfold ErrorMsg_Marshal, ErrorMsg_Size, ErrorMsg_fields.
  cbn [em_Kind em_Description em_Code]. intros Hk Hc Hs. size_facts.
  eapply (roundtrip _ _ _ _ _ [enc_int 8 kind; enc_bytes 18 (to_bytes descr); enc_int 24 code]);
    [emits_solve|sizes_solve|done|].
  cbn [concat]. do 3 parses_step. parses_end.
Qed.

(** ** Booleans and lists *)

Ltac parses_flag n :=
  eapply parses_app;
  [eapply (parses_bool _ n _ _ _ _ ltac:(lia) ltac:(intros; reflexivity))|].

Lemma parses_switch {A} field n (m : A) (upd : bool → A) v :
  0 < n < 16 → (∀ d, field d m n 0 = Some (with_type 0 0 (x ← read_bool d; mret (upd x)))) → upd false = m →
  parses field m (enc_bool (8 * n) v) (upd v).
Proof.
  intros Hn Hf Hz. eapply parses_bool; [done|intros d; apply Hf|by intros ->|]. intros ->.
  apply reads_with_type, (reads_map read_bool upd), reads_bool.
Qed.

Lemma LogsCmd_roundtrip m :
  int64 (lc_TailLines m) → int64 (lc_BytesLimit m) → LogsCmd_Size m < 2 ^ 63 →
  ∃ b, LogsCmd_Marshal m = Ok b ∧ size b = LogsCmd_Size m ∧ LogsCmd_Unmarshal b = Ok m.
Proof.
  destruct m as [uid ctr f t since tail lim prev path]. unfold LogsCmd_Marshal, LogsCmd_Size, LogsCmd_fields.
  cbn [lc_PodUid lc_Container lc_Follow lc_Timestamp lc_Since lc_TailLines lc_BytesLimit lc_Previous lc_Path].
  intros Ht Hb Hs. size_facts.
  eapply (roundtrip _ _ _ _ _ [enc_bytes 10 (to_bytes uid); enc_bytes 18 (to_bytes ctr); enc_bool 24 f;
    enc_bool 32 t; enc_bytes 42 (to_bytes since); enc_int 48 tail; enc_int 56 lim; enc_bool 64 prev;
    enc_bytes 74 (to_bytes path)]); [emits_solve|sizes_solve|done|].
  cbn [concat]. do 2 parses_step.
  eapply parses_app; [eapply (parses_switch _ 3 _ (λ x, mkLogsCmd _ _ x _ _ _ _ _ _)); [lia|intros; reflexivity..]|].
  eapply parses_app; [eapply (parses_switch _ 4 _ (λ x, mkLogsCmd _ _ _ x _ _ _ _ _)); [lia|intros; reflexivity..]|].
  do 3 parses_step.
  eapply parses_app; [eapply (parses_switch _ 8 _ (λ x, mkLogsCmd _ _ _ _ _ _ _ x _)); [lia|intros; reflexivity..]|].
  parses_step. parses_end.
Qed.

Lemma PortForwardCmd_roundtrip m :
  int32 (pf_Port m) → PortForwardCmd_Size m < 2 ^ 63 →
  ∃ b, PortForwardCmd_Marshal m = Ok b ∧ size b = PortForwardCmd_Size m ∧ PortForwardCmd_Unmarshal b = Ok m.
Proof.
  destruct m as [uid port p]. unfold PortForwardCmd_Marshal, PortForwardCmd_Size, PortForwardCmd_fields.
  cbn [pf_PodUid pf_Port pf_Protocol]. intros Hp Hs. size_facts.
  eapply (roundtrip _ _ _ _ _ [enc_bytes 10 (to_bytes uid); enc_int 16 port; enc_bytes 26 (to_bytes p)]);
    [emits_solve|sizes_solve|done|].
  cbn [concat]. do 3 parses_step. parses_end.
Qed.

Lemma TerminalResizeCmd_roundtrip m :
  uint32 m.1 → uint32 m.2 →
  ∃ b, TerminalResizeCmd_Marshal m = Ok b ∧ size b = TerminalResizeCmd_Size m ∧ TerminalResizeCmd_Unmarshal b = Ok m.
Proof.
  destruct m as [cols rows]. unfold TerminalResizeCmd_Marshal, TerminalResizeCmd_Size. cbn [fst snd]. intros Hc Hr.
  pose proof (size_int_bound cols). pose proof (size_int_bound rows).
  eapply (roundtrip _ _ _ _ _ [enc_int 8 cols; enc_int 16 rows]); [emits_solve|sizes_solve|lia|].
  cbn [concat]. do 2 parses_step. parses_end.
Qed.

#[export] Hint Resolve emits_repeated : wire.
#[export] Hint Extern 1 (emits (put_all (λ s, put_item _ (to_bytes s)) _) _) => (apply emits_repeated; lia) : wire.

Lemma PodListCmd_roundtrip m :
  PodListCmd_Size m < 2 ^ 63 →
  ∃ b, PodListCmd_Marshal m = Ok b ∧ size b = PodListCmd_Size m ∧ PodListCmd_Unmarshal b = Ok m.
Proof.
  destruct m as [all names]. unfold PodListCmd_Marshal, PodListCmd_Size. cbn [pl_All pl_Names]. intros Hs. size_facts.
  eapply (roundtrip _ _ _ _ _ [enc_bool 8 all; concat ((λ s, enc_item 18 (to_bytes s)) <$> names)]).
  - emits_solve.
  - cbn [concat]. rewrite !length_app, !Nat2Z.inj_add, size_enc_bool, size_repeated by lia. simpl. lia.
  - done.
  - cbn [concat].
    eapply parses_app; [eapply (parses_switch _ 1 _ (λ x, Build_PodListCmd x _)); [lia|intros; reflexivity..]|].
    eapply parses_app; [eapply (parses_repeated _ 2 pl_Names (λ m l, Build_PodListCmd (pl_All m) l)); try lia; try done;
      by intros []|].
    parses_end.
Qed.

Lemma ImageRefs_roundtrip refs :
  sum_sizes (λ s, size_item (length_of s)) refs < 2 ^ 63 →
  ∃ b, ImageRefs_Marshal refs = Ok b ∧ size b = sum_sizes (λ s, size_item (length_of s)) refs ∧
    ImageRefs_Unmarshal b = Ok refs.
Proof.
  unfold ImageRefs_Marshal. intros Hs.
  eapply (roundtrip _ _ _ _ _ [concat ((λ s, enc_item 10 (to_bytes s)) <$> refs)]).
  - emits_solve.
  - cbn [concat]. by rewrite app_nil_r, size_repeated.
  - done.
  - cbn [concat]. rewrite app_nil_r.
    apply (parses_repeated ImageRefs_field 1 (λ m, m) (λ _ l, l) []); try lia; try done.
Qed.

(** ** Status of images *)

Definition enc_image (m : ImageStatusMsg) : buffer :=
  concat [enc_bytes 10 (to_bytes (im_Sha256 m)); enc_int 16 (im_Size m);
          concat ((λ s, enc_item 26 (to_bytes s)) <$> im_Refs m)].

Lemma ImageStatusMsg_Size_nonneg m : 0 ≤ ImageStatusMsg_Size m.
Proof.
  unfold ImageStatusMsg_Size. pose proof (size_bytes_bound (length_of (im_Sha256 m)) ltac:(lia)).
  pose proof (size_int_nonneg (im_Size m)).
  assert (0 ≤ sum_sizes (λ s, size_item (length_of s)) (im_Refs m)); [|lia].
  apply sum_sizes_nonneg. intros s. pose proof (size_item_bound (length_of s)). lia.
Qed.

Lemma image_roundtrip m :
  uint64 (im_Size m) → ImageStatusMsg_Size m < 2 ^ 63 →
  fills (MarshalToSizedBuffer (ImageStatusMsg_fields m)) (enc_image m) ∧
  size (enc_image m) = ImageStatusMsg_Size m ∧ Unmarshal ImageStatusMsg_field no_image (enc_image m) = Ok m.
Proof.
  destruct m as [sha sz refs]. unfold ImageStatusMsg_Size, ImageStatusMsg_fields, enc_image.
  cbn [im_Sha256 im_Size im_Refs]. intros Hz Hs. size_facts.
  assert (size (concat [enc_bytes 10 (to_bytes sha); enc_int 16 sz; concat ((λ s, enc_item 26 (to_bytes s)) <$> refs)])
    = size_bytes (length_of sha) + size_int sz + sum_sizes (λ s, size_item (length_of s)) refs) as Hl.
  { cbn [concat]. rewrite !length_app, !Nat2Z.inj_add, size_enc_bytes, size_enc_int, size_repeated by lia. simpl. lia. }
  split; [|split]; [|done|].
  - apply fills_fields. emits_solve.
  - apply Unmarshal_parses; [|lia]. cbn [concat]. do 2 parses_step.
    eapply parses_app; [eapply (parses_repeated _ 3 im_Refs
      (λ m l, {| im_Sha256 := im_Sha256 m; im_Size := im_Size m; im_Refs := l |})); try lia; try done; by intros []|].
    parses_end.
Qed.

(** The list of images with all its entries. *)
Lemma ImageStatusListMsg_roundtrip (l : list ImageStatusMsg) :
  Forall (λ m, uint64 (im_Size m)) l → ImageStatusListMsg_Size {| iml_Images := Some <$> l |} < 2 ^ 63 →
  ∃ b, ImageStatusListMsg_Marshal {| iml_Images := Some <$> l |} = Ok b ∧
    ImageStatusListMsg_Unmarshal b = Ok {| iml_Images := Some <$> l |}.
Proof.
  unfold ImageStatusListMsg_Marshal, ImageStatusListMsg_fields. cbn [iml_Images]. intros Hz Hs.
  set (f := λ e : option ImageStatusMsg, size_item (match e with Some e => ImageStatusMsg_Size e | None => 0 end)).
  assert (∀ m, m ∈ l → ImageStatusMsg_Size m < 2 ^ 62 * 2) as Hm.
  { intros m Hin. assert (∀ e, 0 ≤ f e) as Hf.
    { intros [e|]; unfold f; [pose proof (ImageStatusMsg_Size_nonneg e)|];
        match goal with |- 0 ≤ size_item ?x => pose proof (size_item_bound x) end; lia. }
    pose proof (sum_sizes_bound f (Some <$> l) (Some m) Hf) as Hb.
    specialize (Hb (list_elem_of_fmap_2 Some l m Hin)). unfold f in Hb at 1.
    pose proof (size_item_bound (ImageStatusMsg_Size m) (ImageStatusMsg_Size_nonneg m)).
    unfold ImageStatusListMsg_Size in Hs. cbn [iml_Images] in Hs. fold f in Hs. lia. }
  rewrite Forall_forall in Hz.
  assert (∀ m, m ∈ l → fills (put_image (Some m)) (enc_image m) ∧ size (enc_image m) = ImageStatusMsg_Size m ∧
    Unmarshal ImageStatusMsg_field no_image (enc_image m) = Ok m) as Himg.
  { intros m Hin. apply image_roundtrip; [by apply Hz, list_elem_of_In|]. specialize (Hm m Hin). lia. }
  set (enc := λ e : option ImageStatusMsg, enc_item 10 (match e with Some e => enc_image e | None => [] end)).
  destruct (roundtrip ImageStatusListMsg_field {| iml_Images := [] |} {| iml_Images := Some <$> l |}
    (ImageStatusListMsg_Size {| iml_Images := Some <$> l |})
    [put_all (λ e, put_message 10 (put_image e)) (Some <$> l)] [concat (enc <$> (Some <$> l))])
    as (b & Hb & _ & Hu); [| |done| |by exists b].
  - apply Forall2_cons; [|apply Forall2_nil_2]. apply emits_all.
    intros e (m & -> & Hin)%list_elem_of_fmap. destruct (Himg m Hin) as (Hf & Hl & _). specialize (Hm m Hin).
    apply emits_message; [lia|done].
  - cbn [concat]. rewrite app_nil_r. unfold ImageStatusListMsg_Size. cbn [iml_Images]. apply size_enc_all.
    intros e (m & -> & Hin)%list_elem_of_fmap. destruct (Himg m Hin) as (_ & Hl & _). specialize (Hm m Hin).
    unfold enc. rewrite size_enc_item by lia. by rewrite Hl.
  - cbn [concat]. rewrite app_nil_r.
    assert ({| iml_Images := Some <$> l |} =
      foldl (λ m e, {| iml_Images := iml_Images m ++ [e] |}) {| iml_Images := [] |} (Some <$> l)) as ->.
    { generalize (Some <$> l). clear. intros l.
      enough (∀ acc, {| iml_Images := acc ++ l |} =
        foldl (λ m e, {| iml_Images := iml_Images m ++ [e] |}) {| iml_Images := acc |} l) as H by apply (H []).
      induction l as [|x l IH]; intros acc; simpl; [by rewrite app_nil_r|]. by rewrite <- IH, <- app_assoc. }
    apply parses_concat. intros acc e (m & -> & Hin)%list_elem_of_fmap. destruct (Himg m Hin) as (_ & Hl & Hu).
    specialize (Hm m Hin). unfold enc. eapply (parses_item _ 1); [lia|intros; reflexivity|].
    apply reads_with_type. by apply (reads_message _ _ _ (λ e, {| iml_Images := iml_Images acc ++ [Some e] |}));
      [lia|].
Qed.


(** A list with a nil entry panics in the encoder. *)
Lemma put_all_app {A} (item : A → Z → M buffer Z) l1 l2 i d :
  put_all item (l1 ++ l2) i d = (i ← put_all item l2 i; put_all item l1 i) d.
Proof.
  revert i d. induction l1 as [|x l1 IH]; intros i d; simpl.
  - unfold mbind, M_bind. by destruct (put_all item l2 i d) as [[] ?].
  - unfold mbind at 1, M_bind at 1. rewrite IH. unfold mbind, M_bind.
    destruct (put_all item l2 i d) as [[] d']; try done.
Qed.

Definition image_fits (e : option ImageStatusMsg) : Prop :=
  match e with Some m => uint64 (im_Size m) | None => True end.

Lemma last_nil {A} (l : list (option A)) :
  None ∈ l → ∃ l1 l2, l = l1 ++ None :: (Some <$> l2).
Proof.
  induction l as [|x l IH] using rev_ind; intros Hin; [by apply not_elem_of_nil in Hin|].
  destruct x as [a|]; [|by exists l, []].
  apply elem_of_app in Hin as [Hin|Hin%list_elem_of_singleton]; [|done].
  destruct (IH Hin) as (l1 & l2 & ->). exists l1, (l2 ++ [a]). by rewrite fmap_app, <- app_assoc.
Qed.

Lemma ImageStatusListMsg_nil msg :
  None ∈ iml_Images msg → Forall image_fits (iml_Images msg) → ImageStatusListMsg_Size msg < 2 ^ 63 →
  ImageStatusListMsg_Marshal msg = Panic NilDereference.
Proof.
  destruct msg as [l]. cbn [iml_Images]. intros (l1 & l2 & ->)%last_nil Hz Hs.
  apply Forall_app, proj2 in Hz. apply Forall_cons_iff, proj2 in Hz. rewrite Forall_forall in Hz.
  unfold ImageStatusListMsg_Size in Hs. cbn [iml_Images] in Hs.
  set (f := λ e : option ImageStatusMsg, size_item (match e with Some e => ImageStatusMsg_Size e | None => 0 end)) in *.
  assert (∀ e, 0 ≤ f e) as Hf.
  { intros [e|]; unfold f; [pose proof (ImageStatusMsg_Size_nonneg e)|];
      match goal with |- 0 ≤ size_item ?x => pose proof (size_item_bound x) end; lia. }
  assert (sum_sizes f (l1 ++ None :: (Some <$> l2)) = sum_sizes f l1 + f None + sum_sizes f (Some <$> l2)) as Hsum.
  { clear. induction l1 as [|x l1 IH]; simpl; rewrite !sum_sizes_cons; [unfold sum_sizes at 2; simpl; lia|].
    rewrite IH. lia. }
  pose proof (sum_sizes_nonneg f l1 Hf). pose proof (Hf None).
  assert (∀ m, m ∈ l2 → ImageStatusMsg_Size m < 2 ^ 63) as Hm.
  { intros m Hin. pose proof (sum_sizes_bound f (Some <$> l2) (Some m) Hf (list_elem_of_fmap_2 Some l2 m Hin)) as Hb.
    unfold f in Hb at 1. pose proof (size_item_bound (ImageStatusMsg_Size m) (ImageStatusMsg_Size_nonneg m)). lia. }
  assert (∀ m, m ∈ l2 → fills (put_image (Some m)) (enc_image m) ∧ size (enc_image m) = ImageStatusMsg_Size m) as Himg.
  { intros m Hin. destruct (image_roundtrip m) as (? & ? & _); [|by apply Hm|done].
    apply (Hz (Some m)), list_elem_of_In. by apply list_elem_of_fmap_2. }
  set (enc := λ e : option ImageStatusMsg, enc_item 10 (match e with Some e => enc_image e | None => [] end)).
  set (s := concat (enc <$> (Some <$> l2))).
  assert (emits (put_all (λ e, put_message 10 (put_image e)) (Some <$> l2)) s) as Hem.
  { apply emits_all. intros e (m & -> & Hin)%list_elem_of_fmap. destruct (Himg m Hin) as [Hfl Hl]. specialize (Hm m Hin).
    apply emits_message; [lia|done]. }
  assert (size s = sum_sizes f (Some <$> l2)) as Hsz.
  { apply size_enc_all. intros e (m & -> & Hin)%list_elem_of_fmap. destruct (Himg m Hin) as (_ & Hl). specialize (Hm m Hin).
    unfold enc, f. rewrite size_enc_item by lia. by rewrite Hl. }
  unfold ImageStatusListMsg_Marshal, ImageStatusListMsg_fields, Marshal, MarshalToSizedBuffer, ImageStatusListMsg_Size.
  cbn [iml_Images put_fields]. fold f. rewrite Hsum.
  set (n := sum_sizes f l1 + f None + sum_sizes f (Some <$> l2)).
  set (d := replicate (Z.to_nat n) (byte_of 0)).
  assert (size d = n) as Hd by (unfold d; rewrite length_replicate; lia).
  set (k := Z.to_nat (n - size s)).
  assert (put_all (λ e, put_message 10 (put_image e)) (Some <$> l2) (size d) d
    = (Ok (size (take k d)), take k d ++ s)) as Hrun.
  { pose proof (Hem (take k d) (drop k d) []) as He. rewrite !app_nil_r, take_drop in He.
    assert (size (take k d ++ s) = size d) as Hl by (rewrite length_app, length_take; lia).
    rewrite Hl in He. apply He. rewrite length_drop. lia. }
  assert (∀ i d, (put_message 10 (put_image None) i d).1 = Panic NilDereference) as Hpanic by done.
  unfold mbind, M_bind. unfold mret at 1, M_ret at 1. rewrite put_all_app. unfold mbind, M_bind. simpl put_all.
  unfold mbind, M_bind. rewrite Hrun.
  specialize (Hpanic (size (take k d)) (take k d ++ s)).
  destruct (put_message 10 (put_image None) _ _) as [o ?]. simpl in Hpanic. by subst o.
Qed.

(** ** Commands with environment variables *)

Lemma size_entry k v : size_item (length_of k) + size_item (length_of v) < 2 ^ 63 →
  size (enc_item 10 (to_bytes k) ++ enc_item 18 (to_bytes v)) = size_item (length_of k) + size_item (length_of v).
Proof.
  intros Hl. pose proof (size_item_bound (length_of k) ltac:(lia)). pose proof (size_item_bound (length_of v) ltac:(lia)).
  rewrite length_app, Nat2Z.inj_add, !size_enc_item by lia. done.
Qed.

Notation size_env := (λ e : string * string, size_item (size_item (length_of e.1) + size_item (length_of e.2))).

Lemma size_env_bound e : size_item (length_of e.1) + size_item (length_of e.2) < size_env e.
Proof.
  apply size_item_bound. pose proof (size_item_nonneg (length (to_bytes e.1))).
  pose proof (size_item_nonneg (length (to_bytes e.2))). lia.
Qed.

Lemma size_env_nonneg e : 0 ≤ size_env e.
Proof.
  pose proof (size_env_bound e) as H. pose proof (size_item_nonneg (length (to_bytes e.1))).
  pose proof (size_item_nonneg (length (to_bytes e.2))). cbn beta in *. lia.
Qed.

Lemma env_fits envs e : sum_sizes size_env envs < 2 ^ 63 → e ∈ envs →
  size_item (length_of e.1) + size_item (length_of e.2) < 2 ^ 63 ∧ length_of e.2 < 2 ^ 63.
Proof.
  intros Hs Hin. pose proof (size_env_bound e).
  pose proof (sum_sizes_bound size_env envs e size_env_nonneg Hin). cbn beta in *.
  pose proof (size_item_bound (length_of e.2) ltac:(lia)). pose proof (size_item_nonneg (length (to_bytes e.1))). lia.
Qed.

(** The entries, in whatever order they were written. *)
Lemma insert_entries {V} (m : gmap string V) envs :
  envs ≡ₚ map_to_list m → foldl (λ m e, <[e.1 := e.2]> m) ∅ envs = m.
Proof.
  intros Hp. assert (NoDup envs.*1) as Hnd.
  { rewrite Hp. apply NoDup_fst_map_to_list. }
  assert (foldl (λ m e, <[e.1 := e.2]> m) ∅ envs = (list_to_map (reverse envs) : gmap string V)) as ->.
  { clear. induction envs as [|[k v] envs IH] using rev_ind; [done|].
    by rewrite foldl_app, reverse_app, IH. }
  rewrite <- (list_to_map_to_list m). apply list_to_map_proper; [by rewrite fmap_reverse, reverse_Permutation|].
  by rewrite reverse_Permutation.
Qed.

Lemma ExecOrAttachCmd_roundtrip m envs :
  envs ≡ₚ map_to_list (ea_Envs m) → ExecOrAttachCmd_Size m envs < 2 ^ 63 →
  ∃ b, ExecOrAttachCmd_Marshal m envs = Ok b ∧ size b = ExecOrAttachCmd_Size m envs ∧
    ExecOrAttachCmd_Unmarshal b = Ok m.
Proof.
  destruct m as [uid ctr i o e t cmd env]. unfold ExecOrAttachCmd_Marshal, ExecOrAttachCmd_Size, ExecOrAttachCmd_fields.
  cbn [ea_PodUid ea_Container ea_Stdin ea_Stdout ea_Stderr ea_Tty ea_Command ea_Envs]. intros Hp Hs.
  assert (0 ≤ sum_sizes size_env envs).
  { apply sum_sizes_nonneg, size_env_nonneg. }
  assert (0 ≤ sum_sizes (λ s, size_item (length_of s)) cmd).
  { apply sum_sizes_nonneg. intros s. apply size_item_nonneg. }
  size_facts. assert (sum_sizes size_env envs < 2 ^ 63) as Henvs by lia.
  eapply (roundtrip _ _ _ _ _ [enc_bytes 10 (to_bytes uid); enc_bytes 18 (to_bytes ctr); enc_bool 24 i; enc_bool 32 o;
    enc_bool 40 e; enc_bool 48 t; concat ((λ s, enc_item 58 (to_bytes s)) <$> cmd);
    concat ((λ e, enc_entry 66 (to_bytes e.1, to_bytes e.2)) <$> envs)]); [| |done|].
  - do 7 (apply Forall2_cons; [solve [auto with wire]|]). apply Forall2_cons; [|apply Forall2_nil_2].
    apply emits_all. intros x Hx. destruct (env_fits envs x Henvs Hx) as [Hx1 Hx2].
    apply emits_entry. rewrite size_entry by lia. lia.
  - cbn [concat]. rewrite !length_app, !Nat2Z.inj_add, !size_enc_bytes, !size_enc_bool, size_repeated by lia.
    rewrite (size_enc_all _ size_env); [simpl; lia|].
    intros x Hx. destruct (env_fits envs x Henvs Hx) as [Hx1 Hx2]. unfold enc_entry. cbn [fst snd].
    rewrite size_enc_item; rewrite size_entry by lia; [done|lia].
  - cbn [concat]. do 2 parses_step.
    eapply parses_app; [eapply (parses_switch _ 3 _ (λ x, mkExecOrAttachCmd _ _ x _ _ _ _ _)); [lia|intros; reflexivity..]|].
    eapply parses_app; [eapply (parses_switch _ 4 _ (λ x, mkExecOrAttachCmd _ _ _ x _ _ _ _)); [lia|intros; reflexivity..]|].
    eapply parses_app; [eapply (parses_switch _ 5 _ (λ x, mkExecOrAttachCmd _ _ _ _ x _ _ _)); [lia|intros; reflexivity..]|].
    eapply parses_app; [eapply (parses_switch _ 6 _ (λ x, mkExecOrAttachCmd _ _ _ _ _ x _ _)); [lia|intros; reflexivity..]|].
    eapply parses_app; [eapply (parses_repeated _ 7 ea_Command (λ m l, let '(mkExecOrAttachCmd uid ctr i o e t _ env) := m in
      mkExecOrAttachCmd uid ctr i o e t l env)); try lia; first [by intros []|by intros ? []]|].
    eapply parses_app.
    { apply (parses_concat _ _ (λ m e, let '(mkExecOrAttachCmd uid ctr i o e' t cmd env) := m in
        mkExecOrAttachCmd uid ctr i o e' t cmd (<[e.1 := e.2]> env))).
      intros [u' c' i' o' e' t' cmd' env'] x Hx. destruct (env_fits envs x Henvs Hx) as [Hx1 Hx2].
      unfold enc_entry. cbn [fst snd]. eapply (parses_item _ 8); [lia|intros; reflexivity|]. apply reads_with_type.
      eapply (reads_map (λ d, read_entry d (read_string d) ""%string)
        (λ kv, mkExecOrAttachCmd u' c' i' o' e' t' cmd' (<[kv.1 := kv.2]> env')) _ (x.1, x.2)).
      apply (reads_entry read_string); [rewrite size_entry; lia|apply reads_string; lia]. }
    match goal with |- parses _ ?a [] ?b => replace b with a; [apply parses_nil|] end. cbn.
    enough (∀ env0, foldl (λ m e, let '(mkExecOrAttachCmd uid ctr i o e' t cmd env) := m in
        mkExecOrAttachCmd uid ctr i o e' t cmd (<[e.1 := e.2]> env)) (mkExecOrAttachCmd uid ctr i o e t cmd env0) envs
      = mkExecOrAttachCmd uid ctr i o e t cmd (foldl (λ m e, <[e.1 := e.2]> m) env0 envs)) as Hfold.
    { rewrite Hfold. f_equal. by apply insert_entries. }
    clear. induction envs as [|x envs IH]; intros env0; [done|]. simpl. apply IH.
Qed.
