(* ===== verification/Fields.v ===== *)
(** Messages as tables of fields.

    The generator of [aranyagopb] expands one template per kind of field.  A
    [Kind] is such a template: how a value is written, measured and read.  A
    [field] applies a kind to a field of a message under its number, and a
    [Message] lists its fields in the order in which [MarshalToSizedBuffer]
    lays them out (the code writes them from the last to the first).  A range
    over a map has any order, so an encoder has one as an argument.  The
    messages themselves are in [PodMessages]; the ones of [Messages] are written
    out without tables. *)

From stdpp Require Import base gmap strings list fin_maps numbers.
From S2P Require Import Prelude Wire WireProofs Messages MessageProofs.

Local Open Scope Z_scope.
Local Open Scope list_scope.

(** The keys of a map, the other way round than [range] visits them. *)
Notation range_order := (list string → list string).

(** ** Kinds of fields *)

Record Kind (X : Type) := mkKind {
  kd_wire : Z;                             (* wire type *)
  kd_zero : X;                             (* the value that is not written *)
  kd_fits : X → Prop;                      (* the values of the Go type *)
  kd_size : Z → X → Z;                     (* number of the field, value *)
  kd_put : range_order → Z → X → Z → M buffer Z;
  kd_read : buffer → X → M Z X }.          (* from the previous value *)
Global Arguments mkKind {X}.
Global Arguments kd_wire {X}.
Global Arguments kd_zero {X}.
Global Arguments kd_fits {X}.
Global Arguments kd_size {X}.
Global Arguments kd_put {X}.
Global Arguments kd_read {X}.

(** The bytes in front of a field with a length: one up to number 15, then two. *)
Definition put_key (n i : Z) : M buffer Z :=
  if n <? 16 then put_tag (8 * n + 2) i
  else
    i ← put_tag (Z.shiftr (8 * n + 2) 7) i;
    put_tag (Z.lor (Z.land (8 * n + 2) 127) 128) i.

Definition key_size (n : Z) : Z := if n <? 16 then 1 else 2.

(** Integers and enums; [conv] is the conversion to the Go type. *)
Definition int_kind (conv : Z → Z) (range : Z → Prop) : Kind Z := {|
  kd_wire := 0;
  kd_zero := 0;
  kd_fits := range;
  kd_size _ v := size_int v;
  kd_put _ n v := put_int (8 * n) v;
  kd_read d _ := read_varint d conv |}.

Definition int32_kind : Kind Z := int_kind (sint 32) int32.
Definition int64_kind : Kind Z := int_kind (sint 64) int64.
Definition uint32_kind : Kind Z := int_kind (uint 32) uint32.

Definition bool_kind : Kind bool := {|
  kd_wire := 0;
  kd_zero := false;
  kd_fits _ := True;
  kd_size _ v := size_bool v;
  kd_put _ n v := put_bool (8 * n) v;
  kd_read d _ := read_bool d |}.

Definition string_kind : Kind string := {|
  kd_wire := 2;
  kd_zero := ""%string;
  kd_fits _ := True;
  kd_size _ s := size_bytes (length_of s);
  kd_put _ n s := put_bytes (8 * n + 2) (to_bytes s);
  kd_read d _ := read_string d |}.

(** [append(m.F[:0], dAtA[iNdEx:postIndex]...)], where nil and empty are the same. *)
Definition bytes_kind : Kind string := {|
  kd_wire := 2;
  kd_zero := ""%string;
  kd_fits _ := True;
  kd_size _ s := size_bytes (length_of s);
  kd_put _ n s := put_bytes (8 * n + 2) (to_bytes s);
  kd_read d _ := b ← read_bytes d; mret (of_bytes b) |}.

(** The same where they are not: an empty slice is not written. *)
Definition slice_kind : Kind (option string) := {|
  kd_wire := 2;
  kd_zero := None;
  kd_fits s := s ≠ Some ""%string;
  kd_size _ s := size_bytes (length_of (default ""%string s));
  kd_put _ n s := put_bytes (8 * n + 2) (to_bytes (default ""%string s));
  kd_read d _ := b ← read_bytes d; mret (Some (of_bytes b)) |}.

Definition strings_kind : Kind (list string) := {|
  kd_wire := 2;
  kd_zero := [];
  kd_fits _ := True;
  kd_size _ l := sum_sizes (λ s, size_item (length_of s)) l;
  kd_put _ n l := put_all (λ s, put_item (8 * n + 2) (to_bytes s)) l;
  kd_read d l := read_append l d |}.

(** ** Messages *)

Record field (A : Type) := mkField {
  f_numbers : list Z;
  f_fits : A → Prop;
  f_size : A → Z;
  f_put : range_order → A → Z → M buffer Z;
  f_read : buffer → A → Z → Z → option (M Z A);   (* its cases of the [switch] *)
  f_copy : A → A → A }.                           (* from the first to the second *)
Global Arguments mkField {A}.
Global Arguments f_numbers {A}.
Global Arguments f_fits {A}.
Global Arguments f_size {A}.
Global Arguments f_put {A}.
Global Arguments f_read {A}.
Global Arguments f_copy {A}.

(** The field [get] of a message under the number [n]. *)
Definition field_of {A X} (n : Z) (K : Kind X) (get : A → X) (set : X → A → A) : field A := {|
  f_numbers := [n];
  f_fits m := kd_fits K (get m);
  f_size m := kd_size K n (get m);
  f_put order m := kd_put K order n (get m);
  f_read d m k w :=
    if k =? n then Some (with_type (kd_wire K) w (x ← kd_read K d (get m); mret (set x m))) else None;
  f_copy m a := set (get m) a |}.

Record Message (A : Type) := mkMessage {
  msg_zero : A;
  msg_fields : list (field A) }.
Global Arguments mkMessage {A}.
Global Arguments msg_zero {A}.
Global Arguments msg_fields {A}.

Section message.
Context {A : Type} (T : Message A).

(** [Size] *)
Definition message_Size (m : A) : Z := sum_sizes (λ f, f_size f m) (msg_fields T).

(** [MarshalToSizedBuffer] and [Marshal] *)
Definition message_put (order : range_order) (m : A) : M buffer Z :=
  MarshalToSizedBuffer ((λ f, f_put f order m) <$> msg_fields T).
Definition message_Marshal (order : range_order) (m : A) : outcome buffer :=
  Marshal (message_Size m) ((λ f, f_put f order m) <$> msg_fields T).

(** The [switch] of [Unmarshal]. *)
Fixpoint switch (fs : list (field A)) (d : buffer) (m : A) (n w : Z) : option (M Z A) :=
  match fs with
  | [] => None
  | f :: fs =>
      match f_read f d m n w with
      | Some read => Some read
      | None => switch fs d m n w
      end
  end.

(** [m.Unmarshal(b)], for any [m] and for a new one. *)
Definition message_merge (m : A) (b : buffer) : outcome A := Unmarshal (switch (msg_fields T)) m b.
Definition message_Unmarshal (b : buffer) : outcome A := message_merge (msg_zero T) b.

Definition message_fits (m : A) : Prop := Forall (λ f, f_fits f m) (msg_fields T).
End message.

(** ** Fields that hold messages *)

Section nested.
Context {B : Type} (T : Message B).

(** A new message from the bytes of the field. *)
Definition read_message (d : buffer) : M Z B :=
  b ← read_bytes d;
  returned (message_Unmarshal T b).

Definition put_nested (order : range_order) (n : Z) (m : B) (i : Z) : M buffer Z :=
  put_message (8 * n + 2) (message_put T order m) i.
Definition size_nested (m : B) : Z := size_item (message_Size T m).

(** A pointer; a message that comes twice is merged. *)
Definition message_kind : Kind (option B) := {|
  kd_wire := 2;
  kd_zero := None;
  kd_fits o := match o with Some m => message_fits T m | None => True end;
  kd_size _ o := match o with Some m => size_nested m | None => 0 end;
  kd_put order n o i := match o with Some m => put_nested order n m i | None => mret i end;
  kd_read d o :=
    b ← read_bytes d;
    m ← returned (message_merge T (default (msg_zero T) o) b);
    mret (Some m) |}.

Definition messages_kind : Kind (list B) := {|
  kd_wire := 2;
  kd_zero := [];
  kd_fits l := ∀ m, m ∈ l → message_fits T m;
  kd_size _ l := sum_sizes size_nested l;
  kd_put order n l := put_all (put_nested order n) l;
  kd_read d l := m ← read_message d; mret (l ++ [m]) |}.

(** A case of a [oneof], which takes the place of any other. *)
Definition oneof_field {A} (n : Z) (get : A → option B) (set : B → A → A) : field A := {|
  f_numbers := [n];
  f_fits m := match get m with Some x => message_fits T x | None => True end;
  f_size m := match get m with Some x => size_nested x | None => 0 end;
  f_put order m i := match get m with Some x => put_nested order n x i | None => mret i end;
  f_read d m k w := if k =? n then Some (with_type 2 w (x ← read_message d; mret (set x m))) else None;
  f_copy m a := match get m with Some x => set x a | None => a end |}.
End nested.

(** ** Maps *)

(** The values of a map. *)
Record Value (V : Type) := mkValue {
  vl_zero : V;
  vl_fits : V → Prop;
  vl_size : V → Z;
  vl_put : range_order → V → Z → M buffer Z;
  vl_read : buffer → M Z V }.
Global Arguments mkValue {V}.
Global Arguments vl_zero {V}.
Global Arguments vl_fits {V}.
Global Arguments vl_size {V}.
Global Arguments vl_put {V}.
Global Arguments vl_read {V}.

Definition string_value : Value string := {|
  vl_zero := ""%string;
  vl_fits _ := True;
  vl_size s := size_item (length_of s);
  vl_put _ s := put_item 18 (to_bytes s);
  vl_read := read_string |}.

(** An empty slice is left out; the decoder begins with one. *)
Definition bytes_value : Value string := {|
  vl_zero := ""%string;
  vl_fits _ := True;
  vl_size s := size_bytes (length_of s);
  vl_put _ s := put_bytes 18 (to_bytes s);
  vl_read := read_string |}.

(** A nil message is left out; the decoder begins with nil. *)
Definition message_value {B} (T : Message B) : Value (option B) := {|
  vl_zero := None;
  vl_fits o := match o with Some m => message_fits T m | None => True end;
  vl_size o := match o with Some m => size_nested T m | None => 0 end;
  vl_put order o i := match o with Some m => put_nested T order 2 m i | None => mret i end;
  vl_read d := m ← read_message T d; mret (Some m) |}.

Definition entries {V} (order : range_order) (m : gmap string V) : list (string * V) :=
  omap (λ k, pair k <$> m !! k) (order (elements (dom m))).

Section map.
Context {V : Type} (L : Value V).

Definition size_kv (kv : string * V) : Z := size_item (length_of kv.1) + vl_size L kv.2.
Definition size_map_entry (n : Z) (kv : string * V) : Z :=
  size_kv kv + key_size n + sov (uint 64 (size_kv kv)).

Definition put_map_entry (order : range_order) (n : Z) (kv : string * V) (i : Z) : M buffer Z :=
  let baseI := i in
  i ← vl_put L order kv.2 i;
  i ← put_item 10 (to_bytes kv.1) i;
  i ← encodeVarint i (uint 64 (baseI - i));
  put_key n i.

Definition map_kind : Kind (gmap string V) := {|
  kd_wire := 2;
  kd_zero := ∅;
  kd_fits m := ∀ k v, m !! k = Some v → vl_fits L v;
  kd_size n m := sum_sizes (size_map_entry n) (map_to_list m);
  kd_put order n m := put_all (put_map_entry order n) (entries order m);
  kd_read d m := kv ← read_entry d (vl_read L d) (vl_zero L); mret (<[kv.1 := kv.2]> m) |}.
End map.
