(* ===== verification/PodMessages.v ===== *)
(** The messages about pods and images with nested messages and maps
    (cmd_pod.pb.go, cmd_image.pb.go, msg_pod.pb.go), as tables.  A row has the
    number of the field, its kind, and how it is read from and put into the
    record. *)

From stdpp Require Import base gmap strings list fin_maps numbers.
From S2P Require Import Prelude Wire Proto Fields.

Local Open Scope Z_scope.
Local Open Scope list_scope.

(** Data of a volume: file names and contents. *)
Definition NamedData_message : Message NamedData := {|
  msg_zero := Build_NamedData ∅;
  msg_fields := [
    field_of 1 (map_kind bytes_value) nd_DataMap (λ x '(Build_NamedData _), Build_NamedData x) ] |}.

Definition SELinuxOptions_message : Message SELinuxOptions := {|
  msg_zero := Build_SELinuxOptions ""%string ""%string ""%string ""%string;
  msg_fields := [
    field_of 1 string_kind se_Type (λ x '(Build_SELinuxOptions _ l r u), Build_SELinuxOptions x l r u);
    field_of 2 string_kind se_Level (λ x '(Build_SELinuxOptions t _ r u), Build_SELinuxOptions t x r u);
    field_of 3 string_kind se_Role (λ x '(Build_SELinuxOptions t l _ u), Build_SELinuxOptions t l x u);
    field_of 4 string_kind se_User (λ x '(Build_SELinuxOptions t l r _), Build_SELinuxOptions t l r x) ] |}.

Definition ContainerSecuritySpec_message : Message ContainerSecuritySpec := {|
  msg_zero := Build_ContainerSecuritySpec false false false false 0 0 [] [] 0 None;
  msg_fields := [
    field_of 1 bool_kind sec_Privileged
      (λ x '(Build_ContainerSecuritySpec _ a nr ro u g ca cd pm se), Build_ContainerSecuritySpec x a nr ro u g ca cd pm se);
    field_of 2 bool_kind sec_AllowNewPrivileges
      (λ x '(Build_ContainerSecuritySpec p _ nr ro u g ca cd pm se), Build_ContainerSecuritySpec p x nr ro u g ca cd pm se);
    field_of 3 bool_kind sec_NonRoot
      (λ x '(Build_ContainerSecuritySpec p a _ ro u g ca cd pm se), Build_ContainerSecuritySpec p a x ro u g ca cd pm se);
    field_of 4 bool_kind sec_ReadOnlyRootfs
      (λ x '(Build_ContainerSecuritySpec p a nr _ u g ca cd pm se), Build_ContainerSecuritySpec p a nr x u g ca cd pm se);
    field_of 5 int64_kind sec_User
      (λ x '(Build_ContainerSecuritySpec p a nr ro _ g ca cd pm se), Build_ContainerSecuritySpec p a nr ro x g ca cd pm se);
    field_of 6 int64_kind sec_Group
      (λ x '(Build_ContainerSecuritySpec p a nr ro u _ ca cd pm se), Build_ContainerSecuritySpec p a nr ro u x ca cd pm se);
    field_of 7 strings_kind sec_CapsAdd
      (λ x '(Build_ContainerSecuritySpec p a nr ro u g _ cd pm se), Build_ContainerSecuritySpec p a nr ro u g x cd pm se);
    field_of 8 strings_kind sec_CapsDrop
      (λ x '(Build_ContainerSecuritySpec p a nr ro u g ca _ pm se), Build_ContainerSecuritySpec p a nr ro u g ca x pm se);
    field_of 9 int32_kind sec_ProcMountKind
      (λ x '(Build_ContainerSecuritySpec p a nr ro u g ca cd _ se), Build_ContainerSecuritySpec p a nr ro u g ca cd x se);
    field_of 10 (message_kind SELinuxOptions_message) sec_SelinuxOptions
      (λ x '(Build_ContainerSecuritySpec p a nr ro u g ca cd pm _), Build_ContainerSecuritySpec p a nr ro u g ca cd pm x) ] |}.

Definition ContainerMountSpec_message : Message ContainerMountSpec := {|
  msg_zero := Build_ContainerMountSpec ""%string ""%string false ""%string [] 0 false;
  msg_fields := [
    field_of 1 string_kind ms_MountPath
      (λ x '(Build_ContainerMountSpec _ sp ro t o fm r), Build_ContainerMountSpec x sp ro t o fm r);
    field_of 2 string_kind ms_SubPath
      (λ x '(Build_ContainerMountSpec mp _ ro t o fm r), Build_ContainerMountSpec mp x ro t o fm r);
    field_of 3 bool_kind ms_ReadOnly
      (λ x '(Build_ContainerMountSpec mp sp _ t o fm r), Build_ContainerMountSpec mp sp x t o fm r);
    field_of 4 string_kind ms_Type
      (λ x '(Build_ContainerMountSpec mp sp ro _ o fm r), Build_ContainerMountSpec mp sp ro x o fm r);
    field_of 5 strings_kind ms_Options
      (λ x '(Build_ContainerMountSpec mp sp ro t _ fm r), Build_ContainerMountSpec mp sp ro t x fm r);
    field_of 6 uint32_kind ms_FileMode
      (λ x '(Build_ContainerMountSpec mp sp ro t o _ r), Build_ContainerMountSpec mp sp ro t o x r);
    field_of 7 bool_kind ms_Remote
      (λ x '(Build_ContainerMountSpec mp sp ro t o fm _), Build_ContainerMountSpec mp sp ro t o fm x) ] |}.

(** [KeyValuePair] is a pair. *)
Definition KeyValuePair_message : Message (string * string) := {|
  msg_zero := (""%string, ""%string);
  msg_fields := [
    field_of 1 string_kind fst (λ x '(_, v), (x, v));
    field_of 2 string_kind snd (λ x '(k, _), (k, x)) ] |}.

(** The messages of the three actions: a command, the parts of a request, an
    address. *)
Definition ContainerAction_Exec_message : Message (list string) := {|
  msg_zero := [];
  msg_fields := [field_of 1 strings_kind id (λ x _, x)] |}.

Definition ContainerAction_HTTP_message : Message (string * string * list (string * string)) := {|
  msg_zero := (""%string, ""%string, []);
  msg_fields := [
    field_of 1 string_kind (λ m, m.1.1) (λ x '(_, u, h), (x, u, h));
    field_of 2 string_kind (λ m, m.1.2) (λ x '(m, _, h), (m, x, h));
    field_of 3 (messages_kind KeyValuePair_message) snd (λ x '(m, u, _), (m, u, x)) ] |}.

Definition ContainerAction_Socket_message : Message string := {|
  msg_zero := ""%string;
  msg_fields := [field_of 1 string_kind id (λ x _, x)] |}.

(** The [oneof] has a case per constructor. *)
Definition ContainerAction_message : Message ContainerAction := {|
  msg_zero := Build_ContainerAction None;
  msg_fields := [
    oneof_field ContainerAction_Exec_message 1
      (λ m, match ca_Action m with Some (ContainerAction_Exec_ c) => Some c | _ => None end)
      (λ c _, Build_ContainerAction (Some (ContainerAction_Exec_ c)));
    oneof_field ContainerAction_HTTP_message 2
      (λ m, match ca_Action m with Some (ContainerAction_Http me u h) => Some (me, u, h) | _ => None end)
      (λ '(me, u, h) _, Build_ContainerAction (Some (ContainerAction_Http me u h)));
    oneof_field ContainerAction_Socket_message 3
      (λ m, match ca_Action m with Some (ContainerAction_Socket_ a) => Some a | _ => None end)
      (λ a _, Build_ContainerAction (Some (ContainerAction_Socket_ a))) ] |}.

Definition ContainerProbeSpec_message : Message ContainerProbeSpec := {|
  msg_zero := Build_ContainerProbeSpec 0 0 0 0 0 None;
  msg_fields := [
    field_of 1 int64_kind pr_InitialDelay
      (λ x '(Build_ContainerProbeSpec _ t i s f m), Build_ContainerProbeSpec x t i s f m);
    field_of 2 int64_kind pr_ProbeTimeout
      (λ x '(Build_ContainerProbeSpec d _ i s f m), Build_ContainerProbeSpec d x i s f m);
    field_of 3 int64_kind pr_ProbeInterval
      (λ x '(Build_ContainerProbeSpec d t _ s f m), Build_ContainerProbeSpec d t x s f m);
    field_of 4 int32_kind pr_SuccessThreshold
      (λ x '(Build_ContainerProbeSpec d t i _ f m), Build_ContainerProbeSpec d t i x f m);
    field_of 5 int32_kind pr_FailureThreshold
      (λ x '(Build_ContainerProbeSpec d t i s _ m), Build_ContainerProbeSpec d t i s x m);
    field_of 6 (message_kind ContainerAction_message) pr_Method
      (λ x '(Build_ContainerProbeSpec d t i s f _), Build_ContainerProbeSpec d t i s f x) ] |}.

Definition ContainerSpec_message : Message ContainerSpec := {|
  msg_zero := Build_ContainerSpec ""%string ""%string ""%string false false false [] [] ∅ ∅ None None None None;
  msg_fields := [
    field_of 1 string_kind cs_Name
      (λ x '(Build_ContainerSpec _ im wd si so t c a e ms rc lc s h), Build_ContainerSpec x im wd si so t c a e ms rc lc s h);
    field_of 2 string_kind cs_Image
      (λ x '(Build_ContainerSpec n _ wd si so t c a e ms rc lc s h), Build_ContainerSpec n x wd si so t c a e ms rc lc s h);
    field_of 3 string_kind cs_WorkingDir
      (λ x '(Build_ContainerSpec n im _ si so t c a e ms rc lc s h), Build_ContainerSpec n im x si so t c a e ms rc lc s h);
    field_of 4 bool_kind cs_Stdin
      (λ x '(Build_ContainerSpec n im wd _ so t c a e ms rc lc s h), Build_ContainerSpec n im wd x so t c a e ms rc lc s h);
    field_of 5 bool_kind cs_StdinOnce
      (λ x '(Build_ContainerSpec n im wd si _ t c a e ms rc lc s h), Build_ContainerSpec n im wd si x t c a e ms rc lc s h);
    field_of 6 bool_kind cs_Tty
      (λ x '(Build_ContainerSpec n im wd si so _ c a e ms rc lc s h), Build_ContainerSpec n im wd si so x c a e ms rc lc s h);
    field_of 7 strings_kind cs_Command
      (λ x '(Build_ContainerSpec n im wd si so t _ a e ms rc lc s h), Build_ContainerSpec n im wd si so t x a e ms rc lc s h);
    field_of 8 strings_kind cs_Args
      (λ x '(Build_ContainerSpec n im wd si so t c _ e ms rc lc s h), Build_ContainerSpec n im wd si so t c x e ms rc lc s h);
    field_of 9 (map_kind string_value) cs_Envs
      (λ x '(Build_ContainerSpec n im wd si so t c a _ ms rc lc s h), Build_ContainerSpec n im wd si so t c a x ms rc lc s h);
    field_of 10 (map_kind (message_value ContainerMountSpec_message)) cs_Mounts
      (λ x '(Build_ContainerSpec n im wd si so t c a e _ rc lc s h), Build_ContainerSpec n im wd si so t c a e x rc lc s h);
    field_of 11 (message_kind ContainerProbeSpec_message) cs_ReadinessCheck
      (λ x '(Build_ContainerSpec n im wd si so t c a e ms _ lc s h), Build_ContainerSpec n im wd si so t c a e ms x lc s h);
    field_of 12 (message_kind ContainerProbeSpec_message) cs_LivenessCheck
      (λ x '(Build_ContainerSpec n im wd si so t c a e ms rc _ s h), Build_ContainerSpec n im wd si so t c a e ms rc x s h);
    field_of 13 (message_kind ContainerSecuritySpec_message) cs_Security
      (λ x '(Build_ContainerSpec n im wd si so t c a e ms rc lc _ h), Build_ContainerSpec n im wd si so t c a e ms rc lc x h);
    field_of 14 (message_kind ContainerAction_message) cs_HookPostStart
      (λ x '(Build_ContainerSpec n im wd si so t c a e ms rc lc s _), Build_ContainerSpec n im wd si so t c a e ms rc lc s x) ] |}.

Definition PodVolumeSpec_message : Message PodVolumeSpec := {|
  msg_zero := Build_PodVolumeSpec ∅ ∅;
  msg_fields := [
    field_of 21 (map_kind string_value) vs_HostPaths (λ x '(Build_PodVolumeSpec _ v), Build_PodVolumeSpec x v);
    field_of 22 (map_kind (message_value NamedData_message)) vs_VolumeData
      (λ x '(Build_PodVolumeSpec h _), Build_PodVolumeSpec h x) ] |}.

Definition PodSecuritySpec_message : Message PodSecuritySpec := {|
  msg_zero := Build_PodSecuritySpec ∅;
  msg_fields := [
    field_of 15 (map_kind string_value) ps_Sysctls (λ x '(Build_PodSecuritySpec _), Build_PodSecuritySpec x) ] |}.

Definition PodNetworkSpec_message : Message PodNetworkSpec := {|
  msg_zero := Build_PodNetworkSpec [] [] [] ∅ ""%string;
  msg_fields := [
    field_of 1 strings_kind nw_Nameservers (λ x '(Build_PodNetworkSpec _ s o h a), Build_PodNetworkSpec x s o h a);
    field_of 2 strings_kind nw_DnsSearches (λ x '(Build_PodNetworkSpec n _ o h a), Build_PodNetworkSpec n x o h a);
    field_of 3 strings_kind nw_DnsOptions (λ x '(Build_PodNetworkSpec n s _ h a), Build_PodNetworkSpec n s x h a);
    field_of 4 (map_kind string_value) nw_Hosts
      (λ x '(Build_PodNetworkSpec n s o _ a), Build_PodNetworkSpec n s o x a);
    field_of 11 bytes_kind nw_AbbotRequestBytes
      (λ x '(Build_PodNetworkSpec n s o h _), Build_PodNetworkSpec n s o h x) ] |}.

Definition PodEnsureCmd_message : Message PodEnsureCmd := {|
  msg_zero := Build_PodEnsureCmd ""%string ""%string ""%string 0 false false false false false ""%string [] None None None ∅;
  msg_fields := [
    field_of 1 string_kind pe_PodUid
      (λ x '(Build_PodEnsureCmd _ ns n rp hi hn hp sp w h cs nw v s l), Build_PodEnsureCmd x ns n rp hi hn hp sp w h cs nw v s l);
    field_of 2 string_kind pe_Namespace
      (λ x '(Build_PodEnsureCmd u _ n rp hi hn hp sp w h cs nw v s l), Build_PodEnsureCmd u x n rp hi hn hp sp w h cs nw v s l);
    field_of 3 string_kind pe_Name
      (λ x '(Build_PodEnsureCmd u ns _ rp hi hn hp sp w h cs nw v s l), Build_PodEnsureCmd u ns x rp hi hn hp sp w h cs nw v s l);
    field_of 4 int32_kind pe_RestartPolicy
      (λ x '(Build_PodEnsureCmd u ns n _ hi hn hp sp w h cs nw v s l), Build_PodEnsureCmd u ns n x hi hn hp sp w h cs nw v s l);
    field_of 5 bool_kind pe_HostIpc
      (λ x '(Build_PodEnsureCmd u ns n rp _ hn hp sp w h cs nw v s l), Build_PodEnsureCmd u ns n rp x hn hp sp w h cs nw v s l);
    field_of 6 bool_kind pe_HostNetwork
      (λ x '(Build_PodEnsureCmd u ns n rp hi _ hp sp w h cs nw v s l), Build_PodEnsureCmd u ns n rp hi x hp sp w h cs nw v s l);
    field_of 7 bool_kind pe_HostPid
      (λ x '(Build_PodEnsureCmd u ns n rp hi hn _ sp w h cs nw v s l), Build_PodEnsureCmd u ns n rp hi hn x sp w h cs nw v s l);
    field_of 8 bool_kind pe_SharePid
      (λ x '(Build_PodEnsureCmd u ns n rp hi hn hp _ w h cs nw v s l), Build_PodEnsureCmd u ns n rp hi hn hp x w h cs nw v s l);
    field_of 9 bool_kind pe_Wait
      (λ x '(Build_PodEnsureCmd u ns n rp hi hn hp sp _ h cs nw v s l), Build_PodEnsureCmd u ns n rp hi hn hp sp x h cs nw v s l);
    field_of 10 string_kind pe_Hostname
      (λ x '(Build_PodEnsureCmd u ns n rp hi hn hp sp w _ cs nw v s l), Build_PodEnsureCmd u ns n rp hi hn hp sp w x cs nw v s l);
    field_of 11 (messages_kind ContainerSpec_message) pe_Containers
      (λ x '(Build_PodEnsureCmd u ns n rp hi hn hp sp w h _ nw v s l), Build_PodEnsureCmd u ns n rp hi hn hp sp w h x nw v s l);
    field_of 12 (message_kind PodNetworkSpec_message) pe_Network
      (λ x '(Build_PodEnsureCmd u ns n rp hi hn hp sp w h cs _ v s l), Build_PodEnsureCmd u ns n rp hi hn hp sp w h cs x v s l);
    field_of 13 (message_kind PodVolumeSpec_message) pe_Volumes
      (λ x '(Build_PodEnsureCmd u ns n rp hi hn hp sp w h cs nw _ s l), Build_PodEnsureCmd u ns n rp hi hn hp sp w h cs nw x s l);
    field_of 14 (message_kind PodSecuritySpec_message) pe_Security
      (λ x '(Build_PodEnsureCmd u ns n rp hi hn hp sp w h cs nw v _ l), Build_PodEnsureCmd u ns n rp hi hn hp sp w h cs nw v x l);
    field_of 15 (map_kind string_value) pe_Labels
      (λ x '(Build_PodEnsureCmd u ns n rp hi hn hp sp w h cs nw v s _), Build_PodEnsureCmd u ns n rp hi hn hp sp w h cs nw v s x) ] |}.

Definition PodDeleteCmd_message : Message PodDeleteCmd := {|
  msg_zero := Build_PodDeleteCmd ""%string [] 0 ∅;
  msg_fields := [
    field_of 1 string_kind pd_PodUid (λ x '(Build_PodDeleteCmd _ cs g h), Build_PodDeleteCmd x cs g h);
    field_of 2 strings_kind pd_Containers (λ x '(Build_PodDeleteCmd u _ g h), Build_PodDeleteCmd u x g h);
    field_of 10 int64_kind pd_GraceTime (λ x '(Build_PodDeleteCmd u cs _ h), Build_PodDeleteCmd u cs x h);
    field_of 11 (map_kind (message_value ContainerAction_message)) pd_HookPreStop
      (λ x '(Build_PodDeleteCmd u cs g _), Build_PodDeleteCmd u cs g x) ] |}.

Definition ImageAuthConfig_message : Message ImageAuthConfig := {|
  msg_zero := Build_ImageAuthConfig ""%string ""%string ""%string ""%string ""%string ""%string ""%string;
  msg_fields := [
    field_of 1 string_kind ia_Username
      (λ x '(Build_ImageAuthConfig _ p a s i r e), Build_ImageAuthConfig x p a s i r e);
    field_of 2 string_kind ia_Password
      (λ x '(Build_ImageAuthConfig u _ a s i r e), Build_ImageAuthConfig u x a s i r e);
    field_of 3 string_kind ia_Auth (λ x '(Build_ImageAuthConfig u p _ s i r e), Build_ImageAuthConfig u p x s i r e);
    field_of 4 string_kind ia_ServerAddress
      (λ x '(Build_ImageAuthConfig u p a _ i r e), Build_ImageAuthConfig u p a x i r e);
    field_of 5 string_kind ia_IdentityToken
      (λ x '(Build_ImageAuthConfig u p a s _ r e), Build_ImageAuthConfig u p a s x r e);
    field_of 6 string_kind ia_RegistryToken
      (λ x '(Build_ImageAuthConfig u p a s i _ e), Build_ImageAuthConfig u p a s i x e);
    field_of 7 string_kind ia_Email (λ x '(Build_ImageAuthConfig u p a s i r _), Build_ImageAuthConfig u p a s i r x) ] |}.

Definition ImagePullSpec_message : Message ImagePullSpec := {|
  msg_zero := Build_ImagePullSpec None 0;
  msg_fields := [
    field_of 1 (message_kind ImageAuthConfig_message) ip_AuthConfig
      (λ x '(Build_ImagePullSpec _ p), Build_ImagePullSpec x p);
    field_of 2 int32_kind ip_PullPolicy (λ x '(Build_ImagePullSpec a _), Build_ImagePullSpec a x) ] |}.

Definition ImageEnsureCmd_message : Message ImageEnsureCmd := {|
  msg_zero := Build_ImageEnsureCmd ∅;
  msg_fields := [
    field_of 1 (map_kind (message_value ImagePullSpec_message)) ie_Images
      (λ x '(Build_ImageEnsureCmd _), Build_ImageEnsureCmd x) ] |}.

Definition ContainerStatus_message : Message ContainerStatus := {|
  msg_zero := Build_ContainerStatus ""%string ""%string ""%string ""%string ""%string 0 0 ""%string ""%string;
  msg_fields := [
    field_of 1 string_kind st_ContainerId
      (λ x '(Build_ContainerStatus _ i ca sa fa e rc r m), Build_ContainerStatus x i ca sa fa e rc r m);
    field_of 2 string_kind st_ImageId
      (λ x '(Build_ContainerStatus c _ ca sa fa e rc r m), Build_ContainerStatus c x ca sa fa e rc r m);
    field_of 4 string_kind st_CreatedAt
      (λ x '(Build_ContainerStatus c i _ sa fa e rc r m), Build_ContainerStatus c i x sa fa e rc r m);
    field_of 5 string_kind st_StartedAt
      (λ x '(Build_ContainerStatus c i ca _ fa e rc r m), Build_ContainerStatus c i ca x fa e rc r m);
    field_of 6 string_kind st_FinishedAt
      (λ x '(Build_ContainerStatus c i ca sa _ e rc r m), Build_ContainerStatus c i ca sa x e rc r m);
    field_of 7 int32_kind st_ExitCode
      (λ x '(Build_ContainerStatus c i ca sa fa _ rc r m), Build_ContainerStatus c i ca sa fa x rc r m);
    field_of 8 int32_kind st_RestartCount
      (λ x '(Build_ContainerStatus c i ca sa fa e _ r m), Build_ContainerStatus c i ca sa fa e x r m);
    field_of 11 string_kind st_Reason
      (λ x '(Build_ContainerStatus c i ca sa fa e rc _ m), Build_ContainerStatus c i ca sa fa e rc x m);
    field_of 12 string_kind st_Message
      (λ x '(Build_ContainerStatus c i ca sa fa e rc r _), Build_ContainerStatus c i ca sa fa e rc r x) ] |}.

Definition PodStatusMsg_message : Message PodStatusMsg := {|
  msg_zero := Build_PodStatusMsg ""%string None ∅;
  msg_fields := [
    field_of 1 string_kind psm_Uid (λ x '(Build_PodStatusMsg _ n c), Build_PodStatusMsg x n c);
    field_of 2 slice_kind psm_Network (λ x '(Build_PodStatusMsg u _ c), Build_PodStatusMsg u x c);
    field_of 3 (map_kind (message_value ContainerStatus_message)) psm_Containers
      (λ x '(Build_PodStatusMsg u n _), Build_PodStatusMsg u n x) ] |}.

(** [PodStatusListMsg] is its list. *)
Definition PodStatusListMsg_message : Message (list PodStatusMsg) := {|
  msg_zero := [];
  msg_fields := [field_of 1 (messages_kind PodStatusMsg_message) id (λ x _, x)] |}.
