(* ===== verification/FieldProofs.v ===== *)
(** What is written for a message given as a table is read back ([MessageOk]),
    and its decoder ends ([MessageEnds]).  Both hold for a message when they
    hold for the kinds of its fields, so that a table needs a proof about its
    accessors only. *)

From stdpp Require Import base gmap strings list sets fin_maps numbers.
From S2P Require Import Prelude Wire WireProofs Proto Messages MessageProofs Fields.

Local Open Scope Z_scope.
Local Open Scope list_scope.

(** ** Keys *)

Lemma varint_digits_S k v : varint_digits_of (S k) v =
  if 128 <=? v then byte_of (Z.lor (Z.land v 127) 128) :: varint_digits_of k (Z.shiftr v 7) else [byte_of v].
Proof. done. Qed.

Lemma varint_small v : 0 ≤ v < 128 → varint v = [byte_of v].
Proof. intros Hv. unfold varint. rewrite varint_digits_S. by rewrite (proj2 (Z.leb_gt _ _)) by lia. Qed.

Lemma varint_two v : 128 ≤ v < 16384 →
  varint v = [byte_of (Z.lor (Z.land v 127) 128); byte_of (Z.shiftr v 7)].
Proof.
  intros Hv. assert (0 ≤ Z.shiftr v 7 < 128) as Hs.
  { rewrite Z.shiftr_div_pow2 by lia. split; [apply Z.div_pos; lia|]. apply Z.div_lt_upper_bound; lia. }
  unfold varint. rewrite !varint_digits_S, (proj2 (Z.leb_le _ _)) by lia. by rewrite (proj2 (Z.leb_gt _ _)) by lia.
Qed.

Lemma emits_key n : 0 < n < 2048 → emits (put_key n) (varint (8 * n + 2)).
Proof.
  intros Hn. unfold put_key. destruct (Z.ltb_spec n 16).
  - rewrite varint_small by lia. apply emits_tag.
  - rewrite varint_two by lia. apply (emits_bind _ (put_tag _) [_] [_]); apply emits_tag.
Qed.

Lemma size_key n : 0 < n < 2048 → size (varint (8 * n + 2)) = key_size n.
Proof.
  intros Hn. unfold key_size. destruct (Z.ltb_spec n 16); [by rewrite varint_small by lia|by rewrite varint_two by lia].
Qed.

Lemma key_parts n w : 0 < n < 2048 → 0 ≤ w < 8 → Z.land (8 * n + w) 7 = w ∧ sint 32 (Z.shiftr (8 * n + w) 3) = n.
Proof.
  intros Hn Hw. assert ((8 * n + w) / 8 = n) as Hd by (rewrite Z.mul_comm, Z.div_add_l, Z.div_small by lia; lia). split.
  - change 7 with (Z.ones 3). rewrite Z.land_ones by lia. change (2 ^ 3) with 8.
    rewrite Z.mul_comm, Z.add_comm, Z.mod_add by lia. by apply Z.mod_small.
  - rewrite Z.shiftr_div_pow2 by lia. change (2 ^ 3) with 8. rewrite Hd. apply sint_small; simpl; lia.
Qed.

(** A field behind its key. *)
Lemma parses_key {A} (field : buffer → A → Z → Z → option (M Z A)) n w r m s m' :
  0 < n < 2048 → 0 ≤ w < 8 → w ≠ 4 → (∀ d, field d m n w = Some (r d)) → reads r s m' →
  parses field m (varint (8 * n + w) ++ s) m'.
Proof.
  intros Hn Hw Hw4 Hfield Hr fuel pre post Hl Hf.
  assert (1 ≤ length (varint (8 * n + w)))%nat as Hk.
  { pose proof (size_varint (8 * n + w)). pose proof (sov_pos (8 * n + w)). lia. }
  destruct fuel as [|fuel]; [lia|]. rewrite !length_app in Hf. exists fuel. split; [lia|].
  simpl fields_loop. rewrite <- app_assoc in *. rewrite run_get.
  rewrite (proj2 (Z.leb_gt _ _)) by (rewrite !length_app; lia).
  pose proof (reads_varint (uint 64) (8 * n + w) _ ltac:(lia) pre (s ++ post) Hl) as Hkey.
  rewrite (uint_small 64) in Hkey by lia. destruct (key_parts n w Hn Hw) as [Hty Hnum].
  revert Hl Hk Hf Hkey. generalize (varint (8 * n + w)). intros key Hl Hk Hf Hkey.
  rewrite (run_bind _ _ _ _ _ Hkey), Hty, Hnum. cbv zeta.
  rewrite (proj2 (Z.eqb_neq _ _)), (proj2 (Z.leb_gt _ _)) by lia. rewrite Hfield.
  specialize (Hr (pre ++ key) post). rewrite <- !app_assoc in Hr. by rewrite (run_bind _ _ _ _ _ (Hr Hl)).
Qed.

(** ** What a kind of field promises *)

(** The search for instances goes by the names of the kinds. *)
#[global] Typeclasses Opaque int_kind int32_kind int64_kind uint32_kind bool_kind string_kind bytes_kind slice_kind
  strings_kind message_kind messages_kind map_kind field_of oneof_field string_value bytes_value message_value.

Section order.
Context (order : range_order).

(** A field of a message, apart from the others. *)
Class Lens {A X} (get : A → X) (set : X → A → A) : Prop := {
  lens_get_set x a : get (set x a) = x;
  lens_set_set x y a : set x (set y a) = set x a;
  lens_set_get a : set (get a) a = a }.

(** The [switch] of a message reads the number [n] into the field [get]. *)
Definition dispatches {A X} (sw : buffer → A → Z → Z → option (M Z A)) n (K : Kind X) get set : Prop :=
  ∀ d a w, sw d a n w = Some (with_type (kd_wire K) w (x ← kd_read K d (get a); mret (set x a))).

(** For the numbers below [limit]: what is written has the size that was computed
    and is read back into a field that has not been touched. *)
Class KindOk {X} (limit : Z) (K : Kind X) : Prop := {
  kind_size n x : 0 ≤ kd_size K n x;
  kind_wire n x : 0 < n < limit → kd_fits K x → kd_size K n x < 2 ^ 63 →
    ∃ s, emits (kd_put K order n x) s ∧ size s = kd_size K n x ∧
      ∀ A sw (get : A → X) (set : X → A → A) a, Lens get set → dispatches sw n K get set →
        get a = kd_zero K → parses sw a s (set x a) }.

Lemma set_zero {A X} (get : A → X) set `{!Lens get set} a x : get a = x → set x a = a.
Proof. intros <-. apply lens_set_get. Qed.

Global Instance int_kind_ok conv range :
  Conv conv → (∀ v, range v → conv (uint 64 v) = v) → KindOk 16 (int_kind conv range).
Proof.
  intros Hc Hr. split; [intros; apply size_int_nonneg|]. intros n v Hn Hv _. exists (enc_int (8 * n) v).
  split; [apply emits_int|]. split; [apply size_enc_int|]. intros A sw get set a Hl Hd Ha.
  eapply parses_int; [done|intros d; apply Hd|intros ->; by apply (set_zero get)|intros _].
  apply reads_with_type, (reads_map _ (λ x, set x a)).
  pose proof (reads_varint conv (uint 64 v) Hc (uint_bound 64 v ltac:(lia))) as Hread. by rewrite (Hr v Hv) in Hread.
Qed.

Global Instance int32_kind_ok : KindOk 16 int32_kind.
Proof. apply int_kind_ok; [apply _|apply read_int32]. Qed.
Global Instance int64_kind_ok : KindOk 16 int64_kind.
Proof. apply int_kind_ok; [apply _|apply read_int64]. Qed.
Global Instance uint32_kind_ok : KindOk 16 uint32_kind.
Proof. apply int_kind_ok; [apply _|apply read_uint32]. Qed.

Global Instance bool_kind_ok : KindOk 16 bool_kind.
Proof.
  split; [intros; apply size_bool_nonneg|]. intros n v Hn _ _. exists (enc_bool (8 * n) v).
  split; [apply emits_bool|]. split; [apply size_enc_bool|]. intros A sw get set a Hl Hd Ha.
  eapply parses_bool; [done|intros d; apply Hd|intros ->; by apply (set_zero get)|intros ->].
  apply reads_with_type, (reads_map _ (λ x, set x a)), reads_bool.
Qed.

(** Strings and slices, which differ in the value that was not written. *)
Lemma bytes_ok {X} (K : Kind X) (str : X → string) :
  kd_wire K = 2 → (∀ n x, kd_size K n x = size_bytes (length_of (str x))) →
  (∀ n x, kd_put K order n x = put_bytes (8 * n + 2) (to_bytes (str x))) →
  (∀ x, kd_fits K x → str x = ""%string → x = kd_zero K) →
  (∀ x y, kd_fits K x → str x ≠ ""%string → length_of (str x) < 2 ^ 63 →
     reads (λ d, kd_read K d y) (varint (length_of (str x)) ++ to_bytes (str x)) x) →
  KindOk 16 K.
Proof.
  intros Hw Hs Hp Hz Hr. split; [intros; rewrite Hs; pose proof (size_bytes_bound (length_of (str x)) ltac:(lia)); lia|].
  intros n x Hn Hf Hl. rewrite Hs in *. rewrite Hp.
  pose proof (size_bytes_bound (length_of (str x)) ltac:(lia)). exists (enc_bytes (8 * n + 2) (to_bytes (str x))).
  split; [apply emits_bytes; lia|]. split; [apply size_enc_bytes; lia|]. intros A sw get set a Hlens Hd Ha.
  destruct (decide (str x = ""%string)) as [He|He].
  - rewrite He, (set_zero get set a x) by (rewrite Ha; symmetry; auto). apply parses_nil.
  - eapply parses_bytes; [done|intros d; rewrite Hd, Hw; reflexivity|by destruct (str x)|].
    apply reads_with_type, (reads_map _ (λ x, set x a)), Hr; [done|done|lia].
Qed.

Global Instance string_kind_ok : KindOk 16 string_kind.
Proof. apply (bytes_ok _ id); try done. intros x y _ _. apply reads_string. Qed.

Lemma reads_slice s : length_of s < 2 ^ 63 →
  reads (λ d, b ← read_bytes d; mret (of_bytes b)) (varint (length_of s) ++ to_bytes s) s.
Proof.
  intros Hl. rewrite <- (String.string_of_list_ascii_of_string s) at 3.
  by apply (reads_map read_bytes of_bytes), reads_bytes.
Qed.

Global Instance bytes_kind_ok : KindOk 16 bytes_kind.
Proof. apply (bytes_ok _ id); try done. intros x y _ _. apply reads_slice. Qed.

Global Instance slice_kind_ok : KindOk 16 slice_kind.
Proof.
  apply (bytes_ok _ (default ""%string)); try done.
  - intros [s|] Hf Hs; [|done]. by destruct Hf; simpl in Hs; subst.
  - intros [s|] y _ Hne Hl; [|done]. change (length_of s < 2 ^ 63) in Hl. unfold default, id.
    rewrite <- (String.string_of_list_ascii_of_string s) at 3.
    by apply (reads_map read_bytes (λ b, Some (of_bytes b))), reads_bytes.
Qed.

(** Elements that are appended one by one. *)
Lemma repeated_ok {B} (K : Kind (list B)) (enc : Z → B → buffer) (f : B → Z) (item : Z → B → Z → M buffer Z) :
  kd_wire K = 2 → kd_zero K = [] → (∀ x, 0 ≤ f x) → (∀ n l, kd_size K n l = sum_sizes f l) →
  (∀ n l, kd_put K order n l = put_all (item n) l) →
  (∀ n l x, 0 < n < 16 → kd_fits K l → x ∈ l → f x < 2 ^ 63 →
     emits (item n x) (enc n x) ∧ size (enc n x) = f x ∧
     ∃ b, enc n x = enc_item (8 * n + 2) b ∧ ∀ l', reads (λ d, kd_read K d l') (varint (size b) ++ b) (l' ++ [x])) →
  KindOk 16 K.
Proof.
  intros Hw Hz Hpos Hs Hp Hx. split; [intros; rewrite Hs; by apply sum_sizes_nonneg|].
  intros n l Hn Hf Hl. rewrite Hs in *. rewrite Hp. exists (concat (enc n <$> l)).
  assert (∀ x, x ∈ l → f x < 2 ^ 63) as Hfit by (intros x Hin; pose proof (sum_sizes_bound f l x Hpos Hin); lia).
  split; [apply emits_all; intros x Hin; by apply (Hx n l x Hn Hf Hin (Hfit x Hin))|].
  split; [apply size_enc_all; intros x Hin; by apply (Hx n l x Hn Hf Hin (Hfit x Hin))|].
  intros A sw get set a Hlens Hd Ha.
  assert (set l a = foldl (λ a x, set (get a ++ [x]) a) a l) as ->.
  { enough (∀ a, set (get a ++ l) a = foldl (λ a x, set (get a ++ [x]) a) a l) as H by (by rewrite <- H, Ha, Hz).
    clear -Hlens. induction l as [|x l IH]; intros a; simpl; [by rewrite app_nil_r, lens_set_get|].
    by rewrite <- IH, lens_get_set, lens_set_set, <- app_assoc. }
  apply parses_concat. intros a' x Hin. destruct (Hx n l x Hn Hf Hin (Hfit x Hin)) as (_ & _ & b & -> & Hr).
  eapply parses_item; [done|intros d; rewrite Hd, Hw; reflexivity|].
  apply reads_with_type, (reads_map _ (λ x, set x a')), Hr.
Qed.

Global Instance strings_kind_ok : KindOk 16 strings_kind.
Proof.
  apply (repeated_ok _ (λ n s, enc_item (8 * n + 2) (to_bytes s)) (λ s, size_item (length_of s))
    (λ n s, put_item (8 * n + 2) (to_bytes s))); try done; [intros; apply size_item_nonneg|].
  intros n l x Hn _ _ Hl. pose proof (size_item_bound (length_of x) ltac:(lia)).
  split; [apply emits_item; lia|]. split; [apply size_enc_item; lia|]. exists (to_bytes x). split; [done|].
  intros l'. apply (reads_map read_string (λ x, l' ++ [x])), reads_string. lia.
Qed.

(** ** Messages *)

(** A field of the message whose empty value is [zero]. *)
Class FieldOk {A} (zero : A) (f : field A) : Prop := {
  field_size m : 0 ≤ f_size f m;
  field_reads d a n w r : f_read f d a n w = Some r → n ∈ f_numbers f;
  field_wire m : f_fits f m → f_size f m < 2 ^ 63 →
    ∃ s, emits (f_put f order m) s ∧ size s = f_size f m ∧
      ∀ sw a, (∀ d a n w r, f_read f d a n w = Some r → sw d a n w = Some r) → f_copy f zero a = a →
        parses sw a s (f_copy f m a) }.

Lemma field_of_ok {A X} limit zero n (K : Kind X) (get : A → X) set :
  KindOk limit K → Lens get set → 0 < n < limit → get zero = kd_zero K → FieldOk zero (field_of n K get set).
Proof.
  intros HK Hl Hn Hz. split; simpl.
  - intros m. apply kind_size.
  - intros d a k w r. destruct (Z.eqb_spec k n) as [->|]; [intros _; by left|done].
  - intros m Hf Hs. destruct (kind_wire n (get m) Hn Hf Hs) as (s & He & Hsz & Hp). exists s.
    split; [done|]. split; [done|]. intros sw a Hsw Hfresh. apply (Hp _ _ get); [done| |].
    + intros d a' w. apply Hsw. by rewrite Z.eqb_refl.
    + by rewrite <- Hfresh, (lens_get_set (get := get) (set := set)).
Qed.

(** Copied field by field from the empty message, and never over anything. *)
Fixpoint copies {A} (zero m a : A) (fs : list (field A)) : Prop :=
  match fs with
  | [] => a = m
  | f :: fs => f_copy f zero a = a ∧ copies zero m (f_copy f m a) fs
  end.

Class MessageOk {A} (T : Message A) : Prop := {
  message_fields : Forall (FieldOk (msg_zero T)) (msg_fields T);
  message_numbers : NoDup (concat (f_numbers <$> msg_fields T));
  message_copies m : copies (msg_zero T) m (msg_zero T) (msg_fields T) }.

Lemma switch_finds {A} (zero : A) fs f d a n w r :
  Forall (FieldOk zero) fs → NoDup (concat (f_numbers <$> fs)) → f ∈ fs → f_read f d a n w = Some r →
  switch fs d a n w = Some r.
Proof.
  induction 1 as [|g fs Hg Hfs IH]; intros Hnd Hin Hr; [by apply not_elem_of_nil in Hin|]. simpl in *.
  apply list.NoDup_app in Hnd as (_ & Hdis & Hnd). apply elem_of_cons in Hin as [->|Hin]; [by rewrite Hr|].
  destruct (f_read g d a n w) as [r'|] eqn:Hg'; [|by apply IH]. exfalso.
  apply (Hdis n); [by eapply field_reads|]. apply list_elem_of_In, in_concat. exists (f_numbers f).
  split; [by apply list_elem_of_In, list_elem_of_fmap_2|]. apply list_elem_of_In.
  rewrite list.Forall_forall in Hfs. specialize (Hfs f Hin). by eapply field_reads.
Qed.

Lemma message_Size_nonneg {A} (T : Message A) `{!MessageOk T} m : 0 ≤ message_Size T m.
Proof.
  unfold message_Size. pose proof message_fields as Hf. induction Hf as [|f fs Hf Hfs IH]; [done|].
  rewrite sum_sizes_cons. pose proof (field_size (f := f) m). lia.
Qed.

(** The fields of a message, one after the other. *)
Lemma fields_wire {A} (zero m : A) fs :
  Forall (FieldOk zero) fs → Forall (λ f, f_fits f m) fs → sum_sizes (λ f, f_size f m) fs < 2 ^ 63 →
  ∃ ss, Forall2 emits ((λ f, f_put f order m) <$> fs) ss ∧ size (concat ss) = sum_sizes (λ f, f_size f m) fs ∧
    ∀ sw a, (∀ f d a n w r, f ∈ fs → f_read f d a n w = Some r → sw d a n w = Some r) → copies zero m a fs →
      parses sw a (concat ss) m.
Proof.
  induction 1 as [|f fs Hf Hfs IH]; intros Hfit Hs.
  { exists []. split; [constructor|]. split; [done|]. intros sw a _ ->. apply parses_nil. }
  apply list.Forall_cons in Hfit as [Hf0 Hfit]. rewrite sum_sizes_cons in Hs |- *.
  assert (0 ≤ sum_sizes (λ f, f_size f m) fs) as Hrest.
  { clear -Hfs. induction Hfs as [|g fs Hg Hfs IH]; [done|]. rewrite sum_sizes_cons.
    pose proof (field_size (f := g) m). lia. }
  pose proof (field_size (f := f) m).
  destruct (field_wire m Hf0) as (s & He & Hsz & Hp); [lia|].
  destruct (IH Hfit) as (ss & Hes & Hss & Hps); [lia|]. exists (s :: ss).
  split; [by constructor|]. split; [simpl; rewrite length_app; lia|]. intros sw a Hsw [Hfresh Hc]. simpl.
  eapply parses_app; [apply Hp; [|done]|apply Hps; [|done]].
  - intros d a' n w r. apply Hsw. by left.
  - intros g d a' n w r Hg. apply Hsw. by right.
Qed.

(** What is written for a message has the computed size and is read back. *)
Lemma message_roundtrip {A} (T : Message A) `{!MessageOk T} m :
  message_fits T m → message_Size T m < 2 ^ 63 →
  ∃ b, fills (message_put T order m) b ∧ message_Marshal T order m = Ok b ∧ size b = message_Size T m ∧
    message_Unmarshal T b = Ok m.
Proof.
  intros Hf Hs. destruct (fields_wire (msg_zero T) m (msg_fields T) message_fields Hf Hs) as (ss & He & Hsz & Hp).
  exists (concat ss). split; [by apply fills_fields|]. split; [by apply Marshal_fills|]. split; [done|].
  apply Unmarshal_parses; [|by rewrite Hsz]. apply Hp; [|apply message_copies]. intros f d a n w r Hin Hr.
  eapply switch_finds; [apply message_fields|apply message_numbers|done|done].
Qed.

(** ** Fields that hold messages *)

Section nested.
Context {B : Type} (T : Message B) `{!MessageOk T}.

Lemma size_nested_nonneg m : 0 ≤ size_nested T m.
Proof.
  unfold size_nested. pose proof (message_Size_nonneg T m) as H. pose proof (size_item_bound _ H). lia.
Qed.

(** A message in a field. *)
Lemma nested_wire m n :
  message_fits T m → size_nested T m < 2 ^ 63 →
  ∃ b, emits (put_nested T order n m) (enc_item (8 * n + 2) b) ∧ size (enc_item (8 * n + 2) b) = size_nested T m ∧
    size b < 2 ^ 63 ∧ message_Unmarshal T b = Ok m.
Proof.
  intros Hf Hs. pose proof (size_item_bound _ (message_Size_nonneg T m)) as Hb. fold (size_nested T m) in Hb.
  destruct (message_roundtrip T m Hf) as (b & Hfill & _ & Hsz & Hu); [lia|]. exists b.
  split; [apply emits_message; [lia|done]|]. split; [|split; [lia|done]].
  unfold size_nested. rewrite <- Hsz. apply size_enc_item. lia.
Qed.

Lemma reads_new m b : size b < 2 ^ 63 → message_Unmarshal T b = Ok m →
  reads (read_message T) (varint (size b) ++ b) m.
Proof.
  intros Hs Hu. rewrite <- (app_nil_r (_ ++ b)).
  apply (reads_bind read_bytes (λ _ b, returned (message_Unmarshal T b)) _ _ b); [by apply reads_bytes|].
  rewrite Hu. apply (reads_ret m).
Qed.

Global Instance message_kind_ok : KindOk 16 (message_kind T).
Proof.
  split; [intros n [m|]; [apply size_nested_nonneg|done]|]. intros n [m|] Hn Hf Hs; simpl in *.
  - destruct (nested_wire m n Hf Hs) as (b & He & Hsz & Hb & Hu). exists (enc_item (8 * n + 2) b).
    split; [done|]. split; [done|]. intros A sw get set a Hl Hd Ha.
    eapply parses_item; [done|intros d; apply Hd|]. apply reads_with_type, (reads_map _ (λ x, set x a)).
    rewrite Ha. simpl. by apply (reads_message _ _ _ Some).
  - exists []. split; [apply emits_ret|]. split; [done|]. intros A sw get set a Hl Hd Ha.
    rewrite (set_zero get set a None Ha). apply parses_nil.
Qed.

Global Instance messages_kind_ok : KindOk 16 (messages_kind T).
Proof.
  apply (repeated_ok _ (λ n m, match message_Marshal T order m with Ok b => enc_item (8 * n + 2) b | _ => [] end)
    (size_nested T) (put_nested T order)); try done; [apply size_nested_nonneg|].
  intros n l m Hn Hf Hin Hs. specialize (Hf m Hin).
  pose proof (size_item_bound _ (message_Size_nonneg T m)) as Hb. fold (size_nested T m) in Hb.
  destruct (message_roundtrip T m Hf) as (b & Hfill & -> & Hsz & Hu); [lia|].
  split; [apply emits_message; [lia|done]|]. split.
  - unfold size_nested. rewrite <- Hsz. apply size_enc_item. lia.
  - exists b. split; [done|]. intros l'. apply (reads_map (read_message T) (λ m, l' ++ [m])), reads_new; [lia|done].
Qed.

Lemma oneof_field_ok {A} (zero : A) n (get : A → option B) set :
  0 < n < 16 → FieldOk zero (oneof_field T n get set).
Proof.
  intros Hn. split; simpl.
  - intros m. destruct (get m); [apply size_nested_nonneg|done].
  - intros d a k w r. destruct (Z.eqb_spec k n) as [->|]; [intros _; by left|done].
  - intros m. destruct (get m) as [x|]; intros Hf Hs.
    + destruct (nested_wire x n Hf Hs) as (b & He & Hsz & Hb & Hu). exists (enc_item (8 * n + 2) b).
      split; [done|]. split; [done|]. intros sw a Hsw _.
      eapply parses_item; [done|intros d; apply Hsw; by rewrite Z.eqb_refl|].
      apply reads_with_type. by apply (reads_map (read_message T) (λ x, set x a)), reads_new.
    + exists []. split; [apply emits_ret|]. split; [done|]. intros. apply parses_nil.
Qed.
End nested.

(** ** Maps *)

Class ValueOk {V} (L : Value V) : Prop := {
  value_size v : 0 ≤ vl_size L v;
  value_wire v : vl_fits L v → vl_size L v < 2 ^ 63 →
    ∃ s, emits (vl_put L order v) s ∧ size s = vl_size L v ∧
      (s = [] ∧ v = vl_zero L ∨ ∃ b, s = enc_item 18 b ∧ reads (vl_read L) (varint (size b) ++ b) v) }.

Global Instance string_value_ok : ValueOk string_value.
Proof.
  split; [intros; apply size_item_nonneg|]. intros v _ Hs. simpl in *.
  pose proof (size_item_bound (length_of v) ltac:(lia)). exists (enc_item 18 (to_bytes v)).
  split; [apply emits_item; lia|]. split; [apply size_enc_item; lia|]. right. eexists. split; [done|].
  apply reads_string. lia.
Qed.

Global Instance bytes_value_ok : ValueOk bytes_value.
Proof.
  split; [intros v; pose proof (size_bytes_bound (length_of v)); simpl; lia|]. intros v _ Hs. simpl in *.
  pose proof (size_bytes_bound (length_of v) ltac:(lia)). exists (enc_bytes 18 (to_bytes v)).
  split; [apply emits_bytes; lia|]. split; [apply size_enc_bytes; lia|]. unfold enc_bytes.
  destruct v as [|c v]; [by left|]. right. eexists. split; [done|]. apply reads_string. lia.
Qed.

Global Instance message_value_ok {B} (T : Message B) : MessageOk T → ValueOk (message_value T).
Proof.
  intros HT. split; [intros [m|]; [by apply size_nested_nonneg|done]|]. intros [m|] Hf Hs; simpl in *.
  - destruct (nested_wire T m 2 Hf Hs) as (b & He & Hsz & Hb & Hu). exists (enc_item 18 b).
    split; [done|]. split; [done|]. right. exists b. split; [done|].
    by apply (reads_map (read_message T) Some), reads_new.
  - exists []. split; [apply emits_ret|]. split; [done|]. by left.
Qed.

Lemma sum_sizes_perm {A} (f : A → Z) l1 l2 : l1 ≡ₚ l2 → sum_sizes f l1 = sum_sizes f l2.
Proof. induction 1; rewrite ?sum_sizes_cons; lia. Qed.

Section map.
Context (Horder : ∀ ks, order ks ≡ₚ ks) {V : Type} (L : Value V) `{!ValueOk L}.

Lemma entries_perm (m : gmap string V) : entries order m ≡ₚ map_to_list m.
Proof. apply keys_to_list, Horder. Qed.

Lemma size_kv_bound kv : length_of kv.1 < size_kv L kv ∧ vl_size L kv.2 ≤ size_kv L kv.
Proof.
  unfold size_kv. pose proof (value_size kv.2). pose proof (size_item_bound (length_of kv.1) ltac:(lia)). lia.
Qed.

Lemma size_map_entry_bound n kv : size_kv L kv < size_map_entry L n kv.
Proof.
  unfold size_map_entry, key_size. pose proof (sov_pos (uint 64 (size_kv L kv))).
  pose proof (uint_bound 64 (size_kv L kv)). destruct (n <? 16); lia.
Qed.

(** An entry on the wire. *)
Lemma map_entry_wire n kv :
  0 < n < 2048 → vl_fits L kv.2 → size_map_entry L n kv < 2 ^ 63 →
  ∃ s, emits (put_map_entry L order n kv) (varint (8 * n + 2) ++ s) ∧
    size (varint (8 * n + 2) ++ s) = size_map_entry L n kv ∧
    reads (λ d, read_entry d (vl_read L d) (vl_zero L)) s kv.
Proof.
  intros Hn Hf Hs. destruct kv as [k v]. cbn [fst snd] in *.
  pose proof (size_map_entry_bound n (k, v)). destruct (size_kv_bound (k, v)) as [Hk Hv]. cbn [fst snd] in *.
  destruct (value_wire v Hf) as (sv & He & Hsv & Hr); [lia|]. set (e := enc_item 10 (to_bytes k) ++ sv).
  assert (size e = size_kv L (k, v)) as Hsz.
  { unfold e, size_kv. rewrite length_app, Nat2Z.inj_add, size_enc_item by lia. simpl. lia. }
  exists (varint (size e) ++ e). split; [|split].
  - apply (emits_ext (λ i, j ← (λ i, i ← vl_put L order v i; put_item 10 (to_bytes k) i) i;
      j ← encodeVarint j (uint 64 (i - j)); put_key n j)).
    { intros i d. unfold put_map_entry, mbind, M_bind. cbn [fst snd]. by destruct (vl_put L order v i d) as [[] ?]. }
    apply emits_counted; [apply uint_small; lia|lia| |by apply emits_key].
    apply emits_bind; [done|]. apply emits_item. lia.
  - rewrite !length_app, !Nat2Z.inj_add, size_key, size_varint, Hsz by lia.
    unfold size_map_entry. rewrite uint_small by lia. lia.
  - unfold e in *. destruct Hr as [[-> ->]|(b & -> & Hr)].
    + rewrite app_nil_r in *. apply reads_entry_key. lia.
    + apply reads_entry; [lia|done].
Qed.

Global Instance map_kind_ok : KindOk 2048 (map_kind L).
Proof.
  assert (∀ n kv, 0 ≤ size_map_entry L n kv) as Hpos.
  { intros n kv. pose proof (size_map_entry_bound n kv). destruct (size_kv_bound kv). lia. }
  split; [intros; by apply sum_sizes_nonneg|]. intros n m Hn Hf Hs. simpl in *.
  rewrite <- (sum_sizes_perm _ _ _ (entries_perm m)) in Hs |- *.
  assert (∀ kv, kv ∈ entries order m → ∃ s, emits (put_map_entry L order n kv) (varint (8 * n + 2) ++ s) ∧
    size (varint (8 * n + 2) ++ s) = size_map_entry L n kv ∧
    reads (λ d, read_entry d (vl_read L d) (vl_zero L)) s kv) as Hwire.
  { intros [k v] Hin. apply map_entry_wire; [done| |].
    - apply (Hf k). by rewrite <- elem_of_map_to_list, <- (entries_perm m).
    - pose proof (sum_sizes_bound _ _ (k, v) (Hpos n) Hin). lia. }
  assert (∀ l, (∀ kv, kv ∈ l → kv ∈ entries order m) →
    ∃ s, emits (put_all (put_map_entry L order n) l) s ∧ size s = sum_sizes (size_map_entry L n) l ∧
      ∀ A sw (get : A → gmap string V) set a, Lens get set → dispatches sw n (map_kind L) get set →
        parses sw a s (set (foldl (λ m e, <[e.1 := e.2]> m) (get a) l) a)) as Hall.
  { induction l as [|kv l IH]; intros Hl.
    { exists []. split; [apply emits_ret|]. split; [done|]. intros A sw get set a Hlens _. simpl.
      rewrite lens_set_get. apply parses_nil. }
    destruct IH as (s & He & Hsz & Hp); [intros; apply Hl; by right|].
    destruct (Hwire kv) as (skv & Hekv & Hszkv & Hrkv); [apply Hl; by left|].
    exists ((varint (8 * n + 2) ++ skv) ++ s). split; [by apply (emits_bind _ (put_map_entry L order n kv))|].
    split; [rewrite length_app, sum_sizes_cons; lia|]. intros A sw get set a Hlens Hd.
    eapply parses_app; [eapply parses_key; [done|lia|lia|intros d; apply Hd|]|].
    { apply reads_with_type, (reads_map _ (λ x, set x a)).
      by apply (reads_map _ (λ kv : string * V, <[kv.1 := kv.2]> (get a))). }
    specialize (Hp A sw get set (set (<[kv.1 := kv.2]> (get a)) a) Hlens Hd). simpl.
    by rewrite lens_get_set, lens_set_set in Hp. }
  destruct (Hall (entries order m)) as (s & He & Hsz & Hp); [done|]. exists s.
  split; [done|]. split; [done|]. intros A sw get set a Hlens Hd Ha. specialize (Hp A sw get set a Hlens Hd).
  rewrite Ha in Hp. simpl in Hp. by rewrite (insert_entries m (entries order m) (entries_perm m)) in Hp.
Qed.
End map.

End order.

(** ** Decoders end

    Without a map ([p] false) a decoder answers; with one it may panic. *)

Class KindEnds {X} (p : bool) (K : Kind X) : Prop :=
  kind_moves d x : size d < 2 ^ 63 → moves p (λ _, True) (kd_read K d x).
Class FieldEnds {A} (p : bool) (f : field A) : Prop :=
  field_moves d a n w r : size d < 2 ^ 63 → f_read f d a n w = Some r → moves p (λ _, True) r.
Class MessageEnds {A} (p : bool) (T : Message A) : Prop :=
  message_moves : Forall (FieldEnds p) (msg_fields T).

Lemma moves_with_type {A} p (P : A → Prop) k w (r : M Z A) : moves p P r → moves p P (with_type k w r).
Proof. intros Hr. unfold with_type. destruct (w =? k); [done|]. intros i _. done. Qed.

Lemma moves_any {A} p (P : A → Prop) (r : M Z A) : moves false P r → moves p (λ _, True) r.
Proof. by apply moves_weaken. Qed.

Lemma moves_append p l d : size d < 2 ^ 63 → moves p (λ _, True) (read_append l d).
Proof. intros Hd. apply (moves_map _ (λ _, True)); [done|]. by eapply moves_any, moves_string. Qed.

Global Instance field_of_ends {A X} p n (K : Kind X) (get : A → X) set :
  KindEnds p K → FieldEnds p (field_of n K get set).
Proof.
  intros HK d a k w r Hd. simpl. destruct (k =? n); [|done]. intros [= <-]. apply moves_with_type.
  apply (moves_map _ (λ _, True)); [done|]. by apply kind_moves.
Qed.

Lemma message_ends {A} p (T : Message A) `{!MessageEnds p T} m b :
  size b < 2 ^ 63 → ends p (λ _ _, True) (message_merge T m b) 0.
Proof.
  intros Hd. apply Unmarshal_ends; [done|]. clear m. intros m n w r.
  pose proof message_moves as Hf. induction Hf as [|f fs Hf Hfs IH]; simpl; [done|].
  destruct (f_read f b m n w) eqn:Hr; [|done]. intros [= <-]. by eapply field_moves.
Qed.

Global Instance int_kind_ends p conv range : Conv conv → KindEnds p (int_kind conv range).
Proof. intros Hc d x Hd. exact (moves_any p _ _ (moves_varint d Hd conv Hc)). Qed.
Global Instance int32_kind_ends p : KindEnds p int32_kind.
Proof. by apply int_kind_ends, _. Qed.
Global Instance int64_kind_ends p : KindEnds p int64_kind.
Proof. by apply int_kind_ends, _. Qed.
Global Instance uint32_kind_ends p : KindEnds p uint32_kind.
Proof. by apply int_kind_ends, _. Qed.
Global Instance bool_kind_ends p : KindEnds p bool_kind.
Proof. intros d x Hd. by eapply moves_any, moves_bool. Qed.
Global Instance string_kind_ends p : KindEnds p string_kind.
Proof. intros d x Hd. by eapply moves_any, moves_string. Qed.

Lemma moves_slice {B} p d (f : buffer → B) : size d < 2 ^ 63 → moves p (λ _, True) (b ← read_bytes d; mret (f b)).
Proof. intros Hd. apply (moves_map _ (λ _, True)); [done|]. by eapply moves_any, moves_bytes. Qed.

Global Instance bytes_kind_ends p : KindEnds p bytes_kind.
Proof. intros d x. apply moves_slice. Qed.
Global Instance slice_kind_ends p : KindEnds p slice_kind.
Proof. intros d x. apply (moves_slice _ _ (λ b, Some (of_bytes b))). Qed.
Global Instance strings_kind_ends p : KindEnds p strings_kind.
Proof. intros d x. apply moves_append. Qed.

Section nested_ends.
Context {B : Type} (p : bool) (T : Message B) `{!MessageEnds p T}.

Lemma moves_read_message d : size d < 2 ^ 63 → moves p (λ _, True) (read_message T d).
Proof.
  intros Hd i Hi. eapply wp_ends_bind; [by apply wp_ends_weaken, (moves_bytes d Hd)|].
  intros b j (? & ? & Hb). pose proof (message_ends p T (msg_zero T) b Hb) as Hu.
  unfold wp, returned, message_Unmarshal. destruct (message_merge T _ b); simpl in *; auto.
Qed.

Global Instance message_kind_ends : KindEnds p (message_kind T).
Proof. intros d x Hd. apply moves_message; [done|]. intros b Hb. by apply message_ends. Qed.

Global Instance messages_kind_ends : KindEnds p (messages_kind T).
Proof. intros d x Hd. apply (moves_map _ (λ _, True)); [done|]. by apply moves_read_message. Qed.

Global Instance oneof_field_ends {A} n (get : A → option B) set : FieldEnds p (oneof_field T n get set).
Proof.
  intros d a k w r Hd. simpl. destruct (k =? n); [|done]. intros [= <-]. apply moves_with_type.
  apply (moves_map _ (λ _, True)); [done|]. by apply moves_read_message.
Qed.
End nested_ends.

Class ValueEnds {V} (L : Value V) : Prop :=
  value_moves d : size d < 2 ^ 63 → moves true (λ _, True) (vl_read L d).

Global Instance string_value_ends : ValueEnds string_value.
Proof. intros d Hd. by eapply moves_any, moves_string. Qed.
Global Instance bytes_value_ends : ValueEnds bytes_value.
Proof. intros d Hd. by eapply moves_any, moves_string. Qed.
Global Instance message_value_ends {B} (T : Message B) : MessageEnds true T → ValueEnds (message_value T).
Proof. intros HT d Hd. apply (moves_map _ (λ _, True)); [done|]. by apply moves_read_message. Qed.

Global Instance map_kind_ends {V} (L : Value V) : ValueEnds L → KindEnds true (map_kind L).
Proof.
  intros HL d m Hd. apply (moves_map _ (λ _, True)); [done|]. apply moves_entry; [done|]. by apply value_moves.
Qed.
