(* ===== verification/PodMessageProofs.v ===== *)
(** The tables of [PodMessages]: each row accesses a field of its own, so the
    messages are read back, and their decoders end. *)

From stdpp Require Import base gmap strings list fin_maps numbers.
From S2P Require Import Prelude Wire WireProofs Proto Fields PodMessages FieldProofs.

Local Open Scope Z_scope.
Local Open Scope list_scope.

(** The accessors of a record. *)
#[local] Ltac parts m :=
  destruct m;
  repeat match goal with
  | p : _ * _ |- _ => destruct p
  | a : option ContainerAction_Action |- copies _ _ _ (msg_fields ContainerAction_message) => destruct a as [[]|]
  end.
#[local] Ltac lens :=
  split; [intros ? m; parts m; reflexivity|intros ? ? m; parts m; reflexivity|intros m; parts m; reflexivity].

(** A row of a table. *)
#[local] Ltac row :=
  lazymatch goal with
  | |- FieldOk _ _ (oneof_field _ _ _ _) => apply oneof_field_ok; [apply _|lia]
  | |- FieldOk _ _ (field_of _ _ _ _) => eapply field_of_ok; [apply _|lens|lia|reflexivity]
  end.

(** A table is checked row by row; the numbers by computation. *)
#[local] Ltac table :=
  split;
  [ repeat first [apply Forall_nil_2 | apply Forall_cons_2; [row|]]
  | apply (bool_decide_unpack _); vm_compute; reflexivity
  | intros m; parts m; vm_compute; repeat split ].

#[local] Ltac table_ends := unfold MessageEnds; repeat first [apply Forall_nil_2 | apply Forall_cons_2; [apply _|]].

Section tables.
Context (order : list string → list string) (Horder : ∀ ks, order ks ≡ₚ ks).

#[local] Instance keys_of_map {V} (L : Value V) : ValueOk order L → KindOk order 2048 (map_kind L).
Proof. by apply map_kind_ok. Qed.

#[export] Instance NamedData_ok : MessageOk order NamedData_message.
Proof. table. Qed.
#[export] Instance SELinuxOptions_ok : MessageOk order SELinuxOptions_message.
Proof. table. Qed.
#[export] Instance ContainerSecuritySpec_ok : MessageOk order ContainerSecuritySpec_message.
Proof. table. Qed.
#[export] Instance ContainerMountSpec_ok : MessageOk order ContainerMountSpec_message.
Proof. table. Qed.
#[export] Instance KeyValuePair_ok : MessageOk order KeyValuePair_message.
Proof. table. Qed.
#[export] Instance ContainerAction_Exec_ok : MessageOk order ContainerAction_Exec_message.
Proof. table. Qed.
#[export] Instance ContainerAction_HTTP_ok : MessageOk order ContainerAction_HTTP_message.
Proof. table. Qed.
#[export] Instance ContainerAction_Socket_ok : MessageOk order ContainerAction_Socket_message.
Proof. table. Qed.
#[export] Instance ContainerAction_ok : MessageOk order ContainerAction_message.
Proof. table. Qed.
#[export] Instance ContainerProbeSpec_ok : MessageOk order ContainerProbeSpec_message.
Proof. table. Qed.
#[export] Instance ContainerSpec_ok : MessageOk order ContainerSpec_message.
Proof. table. Qed.
#[export] Instance PodVolumeSpec_ok : MessageOk order PodVolumeSpec_message.
Proof. table. Qed.
#[export] Instance PodSecuritySpec_ok : MessageOk order PodSecuritySpec_message.
Proof. table. Qed.
#[export] Instance PodNetworkSpec_ok : MessageOk order PodNetworkSpec_message.
Proof. table. Qed.
#[export] Instance PodEnsureCmd_ok : MessageOk order PodEnsureCmd_message.
Proof. table. Qed.
#[export] Instance PodDeleteCmd_ok : MessageOk order PodDeleteCmd_message.
Proof. table. Qed.
#[export] Instance ImageAuthConfig_ok : MessageOk order ImageAuthConfig_message.
Proof. table. Qed.
#[export] Instance ImagePullSpec_ok : MessageOk order ImagePullSpec_message.
Proof. table. Qed.
#[export] Instance ImageEnsureCmd_ok : MessageOk order ImageEnsureCmd_message.
Proof. table. Qed.
#[export] Instance ContainerStatus_ok : MessageOk order ContainerStatus_message.
Proof. table. Qed.
#[export] Instance PodStatusMsg_ok : MessageOk order PodStatusMsg_message.
Proof. table. Qed.
#[export] Instance PodStatusListMsg_ok : MessageOk order PodStatusListMsg_message.
Proof. table. Qed.

(** Messages without maps, then the others. *)
#[export] Instance SELinuxOptions_ends p : MessageEnds p SELinuxOptions_message.
Proof. table_ends. Qed.
#[export] Instance ContainerSecuritySpec_ends p : MessageEnds p ContainerSecuritySpec_message.
Proof. table_ends. Qed.
#[export] Instance ContainerMountSpec_ends p : MessageEnds p ContainerMountSpec_message.
Proof. table_ends. Qed.
#[export] Instance KeyValuePair_ends p : MessageEnds p KeyValuePair_message.
Proof. table_ends. Qed.
#[export] Instance ContainerAction_Exec_ends p : MessageEnds p ContainerAction_Exec_message.
Proof. table_ends. Qed.
#[export] Instance ContainerAction_HTTP_ends p : MessageEnds p ContainerAction_HTTP_message.
Proof. table_ends. Qed.
#[export] Instance ContainerAction_Socket_ends p : MessageEnds p ContainerAction_Socket_message.
Proof. table_ends. Qed.
#[export] Instance ContainerAction_ends p : MessageEnds p ContainerAction_message.
Proof. table_ends. Qed.
#[export] Instance ContainerProbeSpec_ends p : MessageEnds p ContainerProbeSpec_message.
Proof. table_ends. Qed.
#[export] Instance ImageAuthConfig_ends p : MessageEnds p ImageAuthConfig_message.
Proof. table_ends. Qed.
#[export] Instance ImagePullSpec_ends p : MessageEnds p ImagePullSpec_message.
Proof. table_ends. Qed.
#[export] Instance ContainerStatus_ends p : MessageEnds p ContainerStatus_message.
Proof. table_ends. Qed.
#[export] Instance NamedData_ends : MessageEnds true NamedData_message.
Proof. table_ends. Qed.
#[export] Instance ContainerSpec_ends : MessageEnds true ContainerSpec_message.
Proof. table_ends. Qed.
#[export] Instance PodVolumeSpec_ends : MessageEnds true PodVolumeSpec_message.
Proof. table_ends. Qed.
#[export] Instance PodSecuritySpec_ends : MessageEnds true PodSecuritySpec_message.
Proof. table_ends. Qed.
#[export] Instance PodNetworkSpec_ends : MessageEnds true PodNetworkSpec_message.
Proof. table_ends. Qed.
#[export] Instance PodEnsureCmd_ends : MessageEnds true PodEnsureCmd_message.
Proof. table_ends. Qed.
#[export] Instance PodDeleteCmd_ends : MessageEnds true PodDeleteCmd_message.
Proof. table_ends. Qed.
#[export] Instance ImageEnsureCmd_ends : MessageEnds true ImageEnsureCmd_message.
Proof. table_ends. Qed.
#[export] Instance PodStatusMsg_ends : MessageEnds true PodStatusMsg_message.
Proof. table_ends. Qed.
#[export] Instance PodStatusListMsg_ends : MessageEnds true PodStatusListMsg_message.
Proof. table_ends. Qed.
End tables.
