(* ===== verification/Ticket.v ===== *)
(** Numbers for concurrent messages: [nextSeq] of
    [extruntime/handler_stream.go].

    The uploading goroutines of a session and its last message share a counter;
    [nextSeq] takes a number with a compare-and-swap loop that, when it fails,
    tries the next number instead of loading the counter again.  Here the
    goroutines are interleaved freely, one atomic operation at a time. *)

From stdpp Require Import base gmap list fin_maps numbers relations.
From S2P Require Import Prelude SeqQueue.

Local Open Scope Z_scope.
Local Open Scope list_scope.

(** A goroutine before its load, in the loop, and after it. *)
Inductive pc :=
| Start
| Loop (seq : Z)
| Return (seq : Z).

Record tickets := mkTickets {
  tk_counter : Z;
  tk_threads : gmap nat pc }.

(** One atomic operation of goroutine [i]. *)
Inductive tick (i : nat) : tickets → tickets → Prop :=
| tick_load p ts :
    ts !! i = Some Start →
    tick i (mkTickets p ts) (mkTickets p (<[i := Loop p]> ts))
| tick_swap p ts :
    ts !! i = Some (Loop p) →
    tick i (mkTickets p ts) (mkTickets (uint64_succ p) (<[i := Return p]> ts))
| tick_retry p ts seq :
    ts !! i = Some (Loop seq) → seq ≠ p →
    tick i (mkTickets p ts) (mkTickets p (<[i := Loop (uint64_succ seq)]> ts)).

Definition tick_any (s s' : tickets) : Prop := ∃ i, tick i s s'.

(** [n] goroutines about to take a number. *)
Definition tickets_init (s : tickets) : Prop :=
  tk_counter s = 0 ∧ ∀ i c, tk_threads s !! i = Some c → c = Start.

(** [got] lists the goroutines that have a number, in the order of the numbers. *)
Record tickets_inv (s : tickets) (got : list nat) : Prop := {
  ti_counter : tk_counter s = Z.of_nat (length got);
  ti_nodup : NoDup got;
  ti_got i seq : tk_threads s !! i = Some (Return seq) ↔
    ∃ k, seq = Z.of_nat k ∧ got !! k = Some i;
  ti_loop i seq : tk_threads s !! i = Some (Loop seq) → 0 ≤ seq ≤ tk_counter s }.

Lemma inv_init s : tickets_init s → tickets_inv s [].
Proof.
  intros [Hp Hs]. split; [done|constructor| |].
  - intros i seq. split; [by intros ?%Hs|by intros (k & _ & ?)].
  - by intros i seq ?%Hs.
Qed.

(** There are never more numbers out than goroutines. *)
Lemma inv_bound s got : tickets_inv s got → (length got ≤ size (tk_threads s))%nat.
Proof.
  intros [_ Hnd Hg _]. rewrite <- size_dom, <- (size_list_to_set (C := gset nat) got) by done.
  apply subseteq_size. intros i Hi. apply elem_of_list_to_set, list_elem_of_lookup in Hi as [k Hk].
  apply elem_of_dom. exists (Return (Z.of_nat k)). apply Hg. eauto.
Qed.

Lemma tick_size i s s' : tick i s s' → size (tk_threads s') = size (tk_threads s).
Proof. intros []; simpl; by rewrite map_size_insert_Some. Qed.

Lemma inv_set_loop p ts got i c seq :
  tickets_inv (mkTickets p ts) got → ts !! i = Some c → (∀ n, c ≠ Return n) → 0 ≤ seq ≤ p →
  tickets_inv (mkTickets p (<[i := Loop seq]> ts)) got.
Proof.
  intros [Hc Hnd Hg Hl] Hi Hc' Hseq. simpl in *. split; simpl; [done..| |].
  - intros j n. rewrite <- Hg. destruct (decide (j = i)) as [->|Hj].
    + rewrite lookup_insert_eq, Hi. split; intros ?; simplify_eq. by destruct (Hc' n).
    + by rewrite lookup_insert_ne.
  - intros j n. destruct (decide (j = i)) as [->|Hj].
    + rewrite lookup_insert_eq. by intros [= <-].
    + rewrite lookup_insert_ne by done. apply Hl.
Qed.

(** A goroutine in the loop has no number yet, so there is one left for it. *)
Lemma inv_room p ts got i seq :
  tickets_inv (mkTickets p ts) got → ts !! i = Some (Loop seq) →
  i ∉ got ∧ (length got < size ts)%nat.
Proof.
  intros [_ Hnd Hg _] Hi. simpl in *.
  assert (i ∉ got) as Hni.
  { intros [k Hk]%list_elem_of_lookup. assert (ts !! i = Some (Return (Z.of_nat k))) by (apply Hg; eauto).
    congruence. }
  split; [done|]. rewrite <- size_dom, <- (size_list_to_set (C := gset nat) got) by done.
  apply subset_size. split.
  - intros j [k Hk]%elem_of_list_to_set%list_elem_of_lookup. apply elem_of_dom.
    exists (Return (Z.of_nat k)). apply Hg. eauto.
  - intros Hsub. apply Hni. apply (elem_of_list_to_set (C := gset nat)), Hsub, elem_of_dom. eauto.
Qed.

Lemma inv_take p ts got i :
  tickets_inv (mkTickets p ts) got → ts !! i = Some (Loop p) → i ∉ got →
  tickets_inv (mkTickets (p + 1) (<[i := Return p]> ts)) (got ++ [i]).
Proof.
  intros [Hc Hnd Hg Hl] Hi Hni. simpl in *. subst p.
  split; simpl; rewrite ?length_app; simpl; [lia| | |].
  - apply NoDup_app. split; [done|]. split; [set_solver|]. apply NoDup_singleton.
  - intros j seq. destruct (decide (j = i)) as [->|Hj].
    + rewrite lookup_insert_eq. split.
      * intros [= <-]. exists (length got). split; [done|]. by rewrite lookup_app_r, Nat.sub_diag by done.
      * intros (k & -> & Hk). apply lookup_app_Some in Hk as [Hk|[Hle Hk]].
        -- apply list_elem_of_lookup_2 in Hk. done.
        -- apply list_lookup_singleton_Some in Hk as [Hk _]. do 2 f_equal. lia.
    + rewrite lookup_insert_ne by done. rewrite Hg. split; intros (k & -> & Hk); exists k; (split; [done|]).
      * by apply lookup_app_l_Some.
      * apply lookup_app_Some in Hk as [Hk|[_ Hk]]; [done|].
        apply list_lookup_singleton_Some in Hk as [_ ?]. congruence.
  - intros j seq. destruct (decide (j = i)) as [->|Hj]; [by rewrite lookup_insert_eq|].
    rewrite lookup_insert_ne by done. intros ?%Hl. lia.
Qed.

Lemma inv_step i s s' got :
  Z.of_nat (size (tk_threads s)) ≤ MaxUint64 → tick i s s' → tickets_inv s got →
  ∃ got', tickets_inv s' got'.
Proof.
  intros Hsz Ht Hinv. pose proof (ti_counter _ _ Hinv) as Hc. pose proof (inv_bound _ _ Hinv) as Hb.
  destruct Ht as [p ts Hi|p ts Hi|p ts seq Hi Hne]; simpl in *.
  - exists got. apply (inv_set_loop p ts got i Start); try done. lia.
  - destruct (inv_room p ts got i p Hinv Hi) as [Hni Hlt]. rewrite uint64_succ_small by lia.
    exists (got ++ [i]). by apply inv_take.
  - pose proof (ti_loop _ _ Hinv _ _ Hi) as Hseq. simpl in Hseq. rewrite uint64_succ_small by lia.
    exists got. apply (inv_set_loop p ts got i (Loop seq)); try done. lia.
Qed.

Lemma inv_reachable s0 s :
  tickets_init s0 → Z.of_nat (size (tk_threads s0)) ≤ MaxUint64 → rtc tick_any s0 s →
  size (tk_threads s) = size (tk_threads s0) ∧ ∃ got, tickets_inv s got.
Proof.
  intros H0 Hsz. revert s.
  apply (rtc_ind_r (λ s, size (tk_threads s) = size (tk_threads s0) ∧ ∃ got, tickets_inv s got)).
  - split; [done|]. exists []. by apply inv_init.
  - intros s1 s2 _ [i Ht] [Hs [got Hi]].
    split; [by rewrite (tick_size _ _ _ Ht)|]. eapply inv_step; [|exact Ht|exact Hi]. by rewrite Hs.
Qed.

(** C23: However the goroutines are interleaved, no number is handed out twice, and
    the numbers handed out are those from 0 up to the counter without a gap. *)
Theorem nextSeq_unique s0 s :
  tickets_init s0 → Z.of_nat (size (tk_threads s0)) ≤ MaxUint64 → rtc tick_any s0 s →
  (∀ i j seq, tk_threads s !! i = Some (Return seq) → tk_threads s !! j = Some (Return seq) → i = j) ∧
  (∀ seq, 0 ≤ seq < tk_counter s ↔ ∃ i, tk_threads s !! i = Some (Return seq)).
Proof.
  intros H0 Hsz Hr. destruct (inv_reachable s0 s H0 Hsz Hr) as (_ & got & [Hc Hnd Hg Hl]). split.
  - intros i j seq (k & -> & Hk)%Hg (k' & Heq & Hk')%Hg. assert (k = k') as -> by lia. congruence.
  - intros seq. rewrite Hc. split.
    + intros Hs. destruct (lookup_lt_is_Some_2 got (Z.to_nat seq)) as [i Hi]; [lia|].
      exists i. apply Hg. exists (Z.to_nat seq). split; [lia|done].
    + intros (i & (k & -> & Hk%lookup_lt_Some)%Hg). lia.
Qed.

(** A goroutine that runs alone leaves the loop, after at most as many tries as
    numbers were taken since it read the counter. *)
Lemma loop_alone i n p ts seq :
  ts !! i = Some (Loop seq) → p = seq + Z.of_nat n → 0 ≤ seq → p ≤ MaxUint64 →
  ∃ s', nsteps (tick i) (S n) (mkTickets p ts) s' ∧ tk_threads s' !! i = Some (Return p).
Proof.
  revert ts seq. induction n as [|n IH]; intros ts seq Hi Hp H0 Hmax.
  - assert (seq = p) as -> by lia. eexists. split; [by apply nsteps_once, tick_swap|].
    simpl. by rewrite lookup_insert_eq.
  - destruct (IH (<[i := Loop (uint64_succ seq)]> ts) (seq + 1)) as (s' & Hs & Hr); [|lia..|].
    { rewrite lookup_insert_eq. by rewrite uint64_succ_small by lia. }
    exists s'. split; [|done]. eapply nsteps_l; [|exact Hs]. apply tick_retry; [done|lia].
Qed.

(** The loop of [nextSeq] ends: a goroutine that runs alone from now on gets the
    number of the counter, within two more steps than there are goroutines. *)
Theorem nextSeq_progress s0 s i c :
  tickets_init s0 → Z.of_nat (size (tk_threads s0)) ≤ MaxUint64 → rtc tick_any s0 s →
  tk_threads s !! i = Some c → (∀ seq, c ≠ Return seq) →
  ∃ n s', (n ≤ size (tk_threads s0) + 2)%nat ∧ nsteps (tick i) n s s' ∧
    tk_threads s' !! i = Some (Return (tk_counter s)).
Proof.
  intros H0 Hsz Hr Hi Hc. destruct (inv_reachable s0 s H0 Hsz Hr) as (Hs & got & Hinv).
  pose proof (inv_bound _ _ Hinv) as Hb. pose proof (ti_counter _ _ Hinv) as Hcnt.
  destruct s as [p ts]. simpl in *. destruct c as [|seq|seq]; [| |by destruct (Hc seq)].
  - destruct (loop_alone i 0 p (<[i := Loop p]> ts) p) as (s' & Hn & Hret);
      [by rewrite lookup_insert_eq|lia..|].
    exists 2%nat, s'. split; [lia|]. split; [|done]. eapply nsteps_l; [|exact Hn]. by apply tick_load.
  - pose proof (ti_loop _ _ Hinv _ _ Hi) as Hseq. simpl in Hseq.
    destruct (loop_alone i (Z.to_nat (p - seq)) p ts seq) as (s' & Hn & Hret); [done|lia..|].
    exists (S (Z.to_nat (p - seq))), s'. split; [lia|]. done.
Qed.

(** Two goroutines; the second one takes a number while the first one is in the
    loop. *)
Definition two_threads : tickets := mkTickets 0 {[ 0%nat := Start; 1%nat := Start ]}.
Definition one_ahead : tickets := mkTickets 1 (<[1%nat := Return 0]> (<[1%nat := Loop 0]>
  (<[0%nat := Loop 0]> (tk_threads two_threads)))).

Lemma one_ahead_reachable : rtc tick_any two_threads one_ahead.
Proof.
  eapply rtc_l; [exists 0%nat; by apply tick_load|].
  eapply rtc_l; [exists 1%nat; by apply tick_load|].
  apply rtc_once. exists 1%nat. by apply (tick_swap 1 0).
Qed.

Lemma two_threads_init : tickets_init two_threads.
Proof.
  split; [done|]. intros i c. unfold two_threads. simpl. rewrite lookup_insert_Some, lookup_singleton_Some.
  intros [[_ <-]|[_ [_ <-]]]; done.
Qed.

Lemma nextSeq_unique_witness :
  (∀ i j seq, tk_threads one_ahead !! i = Some (Return seq) →
     tk_threads one_ahead !! j = Some (Return seq) → i = j) ∧
  (∀ seq, 0 ≤ seq < tk_counter one_ahead ↔ ∃ i, tk_threads one_ahead !! i = Some (Return seq)).
Proof.
  apply (nextSeq_unique two_threads one_ahead two_threads_init); [vm_compute; discriminate|apply one_ahead_reachable].
Defined.

Lemma nextSeq_progress_witness :
  ∃ n s', (n ≤ size (tk_threads two_threads) + 2)%nat ∧ nsteps (tick 0) n one_ahead s' ∧
    tk_threads s' !! 0%nat = Some (Return 1).
Proof.
  apply (nextSeq_progress two_threads one_ahead 0 (Loop 0) two_threads_init);
    [vm_compute; discriminate|apply one_ahead_reachable|reflexivity|discriminate].
Defined.
