(* ===== verification/Engine.v ===== *)
(** The podman runtime as the engine of the handler: [libpodRuntime] implements
    [extruntime.RuntimeEngine].

    What other parties do to the streams of a session is given by [Peers]: the
    input that will have arrived when the command ends, what an attached
    container writes, and what a forwarded connection delivers. *)

From stdpp Require Import base gmap strings pretty list fin_maps numbers.
From S2P Require Import Prelude GoPath Proto Labels World Libpod BaseRuntime Storage Find Network Container Pod Image Logs Action SeqQueue Streams Handler.

Record Peers := mkPeers {
  peer_Input : string;
  peer_Attached : string * string;
  peer_Forwarded : Forwarded }.

(** The parsers of the log reader, parameters of [ReadLogs]. *)
Record LogParsers := mkLogParsers {
  parse_rfc3339 : Logs.bytes → option Z;
  parse_arhat_time : Logs.bytes → option Z;
  parse_since : Logs.bytes → option Z;
  format_time : Z → Logs.bytes;
  docker_json : Logs.bytes → option (Logs.bytes * Logs.bytes * Z);
  arhat_json : Logs.bytes → option Logs.bytes }.

Definition runtime_info (r : BaseRuntime) : RuntimeInfo :=
  mkRuntimeInfo (br_name r) (br_version r) (br_os r) (br_osImage r) (br_arch r) (br_kernelVersion r).

(** An error that arrives on an error channel. *)
Definition channel_error (err_text : error → string) (e : error) : ErrorMsg :=
  match e with
  | ErrMsg descr code => mkErrorMsg ERR_COMMON descr code
  | e => mkErrorMsg ERR_COMMON (err_text e) 0
  end.

(** What the log reader wrote to one of its streams, from the trace: of every
    write the bytes that were taken. *)
Definition written_part (to_stderr : bool) (c : call) : string :=
  match c with
  | @Call X e answer =>
      match e in Ev X return X → string with
      | Stream_Write s data =>
          λ a, if bool_decide (s = to_stderr) then String.substring 0 a.1 data else ""%string
      | _ => λ _, ""%string
      end answer
  end.

Section podman.
Context {E : Type} `{!Env E}.
Context (r : libpodRuntime) (err_text : error → string) (parsers : LogParsers) (peers : Peers) (follow : nat).
Notation W := (World E).
Notation M := (M W).

Definition written_since (w w' : W) (to_stderr : bool) : string :=
  String.concat "" (written_part to_stderr <$> drop (length (w_trace w)) (w_trace w')).

(** The input of a session, if it has one. *)
Definition session_stdin (stdin : bool) : option string :=
  if stdin then Some (peer_Input peers) else None.

Definition podman_Logs (ctx : Ctx) (options : LogsCmd) : M (option error * (string * string)) :=
  λ w,
    let read := runtime_Logs (parse_rfc3339 parsers) (parse_arhat_time parsers) (parse_since parsers)
                  (format_time parsers) (docker_json parsers) (arhat_json parsers) follow ctx options in
    match try read w with
    | (Ok res, w') =>
        (Ok (match res with inl e => Some e | inr _ => None end,
             (written_since w w' false, written_since w w' true)), w')
    | (Err e, w') => (Err e, w')
    | (Panic p, w') => (Panic p, w')
    | (Hang, w') => (Hang, w')
    end.

Definition podman_engine : RuntimeEngine W := {|
  eng_Info := runtime_info (rt_base r);
  eng_Exec ctx podUID container stdin out err command tty :=
    res ← Exec ctx podUID container (session_stdin stdin) out err command tty;
    mret (channel_error err_text <$> option_list res.1, res.2);
  eng_Attach ctx podUID container stdin out err :=
    res ← Attach ctx podUID container (session_stdin stdin) out err;
    mret (channel_error err_text <$> option_list res, peer_Attached peers);
  eng_Logs := podman_Logs;
  eng_PortForward ctx podUID protocol port :=
    PortForward podUID protocol port;; mret (peer_Forwarded peers);
  eng_EnsurePod := EnsurePod r;
  eng_DeletePod := DeletePod r;
  eng_ListPods := ListPods r;
  eng_EnsureImages := EnsureImages r;
  eng_DeleteImages ctx _ := DeleteImages r ctx;
  eng_ListImages ctx _ := ListImages r ctx;
  eng_CtxDone := select_done |}.
End podman.
