(* ===== verification/HandlerProofs.v ===== *)
(** Lemmas on the handler: what it sends, and what it leaves alone. *)

From stdpp Require Import base gmap strings pretty list fin_maps numbers.
From S2P Require Import Prelude Proto World Logs TimeoutReader SeqQueue Streams Handler.

Local Open Scope Z_scope.
Local Open Scope list_scope.

(** ** Texts of messages *)

Lemma string_app_assoc (a b c : string) : (a +:+ b) +:+ c = a +:+ (b +:+ c).
Proof. induction a as [|x a IH]; [done|]. exact (f_equal (String x) IH). Qed.

(** The payloads of a kind, put together. *)
Definition text_of (kind : Z) (l : list Msg) : string :=
  String.concat "" (omap (λ m, if bool_decide (msg_Kind m = kind) then msg_Payload m else None) l).

Lemma concat_cons d (l : list string) : String.concat "" (d :: l) = d +:+ String.concat "" l.
Proof.
  destruct l; simpl; [|done]. induction d as [|c d IH]; [done|]. exact (f_equal (String c) IH).
Qed.

Lemma text_of_app k l1 l2 : text_of k (l1 ++ l2) = text_of k l1 +:+ text_of k l2.
Proof.
  unfold text_of. rewrite omap_app. induction (omap _ l1) as [|d l IH]; [done|].
  simpl app. by rewrite !concat_cons, IH, string_app_assoc.
Qed.

Section handler.
Context {W : Type} `{!RuntimeEngine W} (codec : Codec) (maxPayloadSize : nat).
Notation H := (HState W).
Implicit Types h : H.

(** The messages handed to the send function between two states. *)
Definition sends h h' (l : list Msg) : Prop :=
  ∃ res, length res = length l ∧ hs_sent h' = hs_sent h ++ zip l res ∧ hs_link h' = hs_link h.

Lemma sends_nil h h' : hs_sent h' = hs_sent h → hs_link h' = hs_link h → sends h h' [].
Proof. intros H1 H2. exists []. split; [done|]. by rewrite app_nil_r. Qed.

Lemma sends_app h1 h2 h3 l1 l2 : sends h1 h2 l1 → sends h2 h3 l2 → sends h1 h3 (l1 ++ l2).
Proof.
  intros (r1 & L1 & S1 & K1) (r2 & L2 & S2 & K2). exists (r1 ++ r2).
  rewrite !length_app, L1, L2, S2, S1, K2, K1. split; [done|]. split; [|done].
  rewrite zip_with_app by done. by rewrite app_assoc.
Qed.

(** An operation that sends nothing and does not touch the sessions. *)
Definition silent h h' : Prop :=
  hs_sent h' = hs_sent h ∧ hs_link h' = hs_link h ∧ hs_streams h' = hs_streams h.

#[global] Instance silent_preorder : PreOrder silent.
Proof.
  split; [done|]. unfold silent. intros ??? (->&->&->) (->&->&->). done.
Qed.

Lemma silent_sends h h' : silent h h' → sends h h' [].
Proof. intros (?&?&_). by apply sends_nil. Qed.

Lemma keeps_lift {A} (m : Prelude.M W A) : keeps silent (lift m).
Proof. intros h. unfold lift. by destruct (m (hs_engine h)). Qed.

Lemma keeps_decode {A} (r : outcome A) : keeps silent (decode (W := W) r).
Proof. done. Qed.

Hint Resolve keeps_lift keeps_decode : keeps.

Lemma wp_SendMsg m (Q : outcome unit → H → Prop) h :
  (∀ o h', sends h h' [m] → hs_streams h' = hs_streams h → hs_engine h' = hs_engine h →
     (o = Ok () ↔ hs_link h (length (hs_sent h)) = None) → is_ok o = true ∨ is_err o = true → Q o h') →
  wp (SendMsg m) Q h.
Proof.
  intros HQ. unfold wp, SendMsg.
  destruct (hs_link h (length (hs_sent h))) as [e|] eqn:El; apply HQ; simpl; auto;
    try (eexists [_]; split; [done|]; split; [by simpl|done]); done.
Qed.

Lemma wp_ignore_SendMsg m (Q : outcome unit → H → Prop) h :
  (∀ h', sends h h' [m] → hs_streams h' = hs_streams h → hs_engine h' = hs_engine h → Q (Ok ()) h') →
  wp (ignore (SendMsg m)) Q h.
Proof.
  intros HQ. apply wp_ignore, wp_SendMsg. intros o h' Hs Hm He _ Ho.
  destruct o; simpl in Ho; [by apply HQ|by apply HQ|naive_solver..].
Qed.

(** ** Unary commands *)

Lemma keeps_reply k p : keeps silent (reply (W := W) k p).
Proof. apply keeps_ret. apply _. Qed.

Lemma keeps_reply_images msg : keeps silent (reply_images (W := W) codec msg).
Proof.
  unfold reply_images, Marshal_ImageStatusList. keeps_solve.
Qed.
Hint Resolve keeps_reply keeps_reply_images : keeps.

(** The kind of the reply to a command without a session. *)
Definition reply_kind (kind : Z) : option Z :=
  if decide (kind = 1) then Some 9
  else if decide (kind ∈ [11; 12; 13]) then Some 22
  else if decide (kind = 31) then Some 42
  else if decide (kind ∈ [32; 33]) then Some 41
  else None.

(** What a handler may answer. *)
Definition answers (rk : Z) (m : Prelude.M H (option Packet)) : Prop :=
  keeps silent m ∧ yields (λ p, ∃ body, p = Some (mkPacket rk body)) m.

Lemma answers_reply rk p : answers rk (reply rk p).
Proof. split; [apply keeps_reply|]. apply yields_ret. eauto. Qed.

Lemma answers_bind {A} rk (m : Prelude.M H A) k :
  keeps silent m → (∀ a, answers rk (k a)) → answers rk (m ≫= k).
Proof.
  intros Hm Hk. split; [apply keeps_bind; [apply _|done|intros; by apply Hk]|].
  apply yields_bind. intros a. by apply Hk.
Qed.

Lemma answers_reply_images msg : answers 22 (reply_images (W := W) codec msg).
Proof.
  apply answers_bind.
  - unfold Marshal_ImageStatusList. destruct (mapM id _); [apply keeps_ret|apply keeps_crash]; apply _.
  - intros. apply answers_reply.
Qed.

Lemma funcMap_answers sched kind do ctx sid payload rk :
  funcMap codec maxPayloadSize sched kind = Some do → reply_kind kind = Some rk →
  answers rk (do ctx sid payload).
Proof.
  unfold funcMap. intros Hf Hr.
  repeat (case_decide as Hk; [subst kind; injection Hf as <-; vm_compute in Hr; try discriminate Hr;
    injection Hr as <-|clear Hk]); [..|discriminate Hf].
  { apply answers_reply. }
  all: apply answers_bind; [apply keeps_decode|intros opts].
  all: apply answers_bind; [apply keeps_lift|intros msg].
  all: first [apply answers_reply_images|apply answers_reply].
Qed.

(** The goroutine of a command, by what its handler answers. *)
Lemma wp_serve_command sid seq (do : Prelude.M H (option Packet)) (Q : outcome unit → H → Prop) h :
  wp do (λ o h1,
    let sent payload := ∀ h', sends h1 h' [mkMsg MSG_RUNTIME_ARANYA_PROTO sid seq (Some payload)] →
                          hs_streams h' = hs_streams h1 → hs_engine h' = hs_engine h1 → Q (Ok ()) h' in
    match o with
    | Ok (Some p) => sent (enc_Packet codec p)
    | Ok None => Q (Ok ()) h1
    | Err e => sent (enc_ErrorMsg codec (error_message codec e))
    | Panic p => Q (Panic p) h1
    | Hang => Q Hang h1
    end) h →
  wp (serve_command codec sid seq do) Q h.
Proof.
  intros Hdo. unfold serve_command. apply wp_bind, wp_try. eapply wp_mono; [|exact Hdo].
  intros [[p|]|e|p|] h1 Hq; simpl in *; [| |..]; try done;
    apply wp_ignore_SendMsg; intros h' ???; by apply Hq.
Qed.

Lemma wp_go {A} (m : Prelude.M H A) (Q : outcome unit → H → Prop) h :
  wp m (λ o h', Q (match o with Panic p => Panic p | _ => Ok () end) h') h → wp (go m) Q h.
Proof. unfold wp, go. by destruct (m h) as [[] h']. Qed.

(** ** Uploads *)

Implicit Types (p out err : pipe).

(** [l] is what the uploaders of a session sent while the pipes went from [out]
    and [err] to [out'] and [err']. *)
Record uploaded (sid seq : Z) h h' out err out' err' (l : list Msg) : Prop := {
  up_sends : sends h h' l;
  up_streams : hs_streams h' = hs_streams h;
  up_engine : hs_engine h' = hs_engine h;
  up_out : pp_Kind out' = pp_Kind out ∧ pp_Data out = text_of (pp_Kind out) l +:+ pp_Data out';
  up_err : pp_Kind err' = pp_Kind err ∧ pp_Data err = text_of (pp_Kind err) l +:+ pp_Data err';
  up_msgs i m : l !! i = Some m → msg_Id m = sid ∧ msg_Ack m = seq + Z.of_nat i ∧
    (msg_Kind m = pp_Kind out ∨ msg_Kind m = pp_Kind err) ∧
    ∃ d, msg_Payload m = Some d ∧ (1 ≤ String.length d ≤ maxPayloadSize)%nat }.

Lemma uploaded_nil sid seq h out err : uploaded sid seq h h out err out err [].
Proof. split; try done. by apply sends_nil. Qed.

Lemma uploaded_app sid seq h1 h2 h3 o1 e1 o2 e2 o3 e3 l1 l2 :
  uploaded sid seq h1 h2 o1 e1 o2 e2 l1 →
  uploaded sid (seq + Z.of_nat (length l1)) h2 h3 o2 e2 o3 e3 l2 →
  uploaded sid seq h1 h3 o1 e1 o3 e3 (l1 ++ l2).
Proof.
  intros [] []. destruct up_out0 as [K1 D1], up_err0 as [K2 D2], up_out1 as [K3 D3], up_err1 as [K4 D4].
  rewrite K1 in D3. rewrite K2 in D4.
  split; [by eapply sends_app|congruence..| | |].
  - split; [congruence|]. by rewrite D1, D3, text_of_app, string_app_assoc.
  - split; [congruence|]. by rewrite D2, D4, text_of_app, string_app_assoc.
  - intros i m Hm. apply lookup_app_Some in Hm as [Hm|[Hi Hm]]; [by apply up_msgs0|].
    apply up_msgs1 in Hm as (? & ? & Hk & ?). rewrite K1, K2 in Hk.
    split; [done|]. split; [lia|]. done.
Qed.

(** What one read of a pipe sends: nothing when the uploader has ended, the pipe
    is empty or its last byte comes with the end of the stream, otherwise a
    message with some of the data. *)
Record read_once (sid seq : Z) h h' p p' (l : list Msg) : Prop := {
  ro_short : (length l ≤ 1)%nat;
  ro_sends : sends h h' l;
  ro_streams : hs_streams h' = hs_streams h;
  ro_engine : hs_engine h' = hs_engine h;
  ro_kind : pp_Kind p' = pp_Kind p;
  ro_data : pp_Data p = text_of (pp_Kind p) l +:+ pp_Data p';
  ro_msgs m : m ∈ l → msg_Id m = sid ∧ msg_Ack m = seq ∧ msg_Kind m = pp_Kind p ∧
    ∃ d, msg_Payload m = Some d ∧ (1 ≤ String.length d ≤ maxPayloadSize)%nat;
  ro_dead : pp_Live p = false → p' = p;
  ro_progress : pp_Live p = true → (∀ k, hs_link h k = None) →
    pp_Live p' = true ∧ (String.length (pp_Data p') ≤ String.length (pp_Data p) - 1)%nat ∨
    pp_Live p' = false ∧ String.length (pp_Data p') = 1%nat }.

Lemma read_nothing sid seq h p :
  pp_Live p = false ∨ pp_Data p = ""%string → read_once sid seq h h p p [].
Proof.
  intros Hp. split; try done; [simpl; lia|by apply sends_nil|by intros ? ?%not_elem_of_nil|].
  intros Hl _. left. destruct Hp as [|Hp]; [congruence|]. rewrite Hp. done.
Qed.

Lemma read_end sid seq h p :
  pp_Live p = true → String.length (pp_Data p) = 1%nat →
  read_once sid seq h h p (mkPipe (pp_Kind p) (pp_Data p) false) [].
Proof.
  intros Hl Hd. split; try done; [simpl; lia|by apply sends_nil|by intros ? ?%not_elem_of_nil|congruence|by right].
Qed.

Lemma read_some sid seq h h' p k b :
  let m := mkMsg (pp_Kind p) sid seq (Some (String.substring 0 k (pp_Data p))) in
  pp_Live p = true → pp_Data p ≠ ""%string → (1 ≤ k ≤ maxPayloadSize)%nat →
  sends h h' [m] → hs_streams h' = hs_streams h → hs_engine h' = hs_engine h →
  ((∀ k, hs_link h k = None) → b = true) →
  read_once sid seq h h' p
    (mkPipe (pp_Kind p) (String.substring k (String.length (pp_Data p) - k) (pp_Data p)) b) [m].
Proof.
  intros m Hl Hne Hk Hs Hm He Hb. pose proof (substring_split k (pp_Data p)) as Hsplit.
  pose proof (length_substring k (pp_Data p)) as Hlen.
  assert (1 ≤ String.length (pp_Data p))%nat by (destruct (pp_Data p); [done|simpl; lia]).
  split; simpl; try done; [..|congruence|].
  - unfold text_of. simpl. by rewrite bool_decide_true.
  - intros m' ->%list_elem_of_singleton. split_and!; [done..|]. eexists. split; [done|]. lia.
  - intros _ Hlink. left. split; [by apply Hb|].
    apply (f_equal String.length) in Hsplit. rewrite length_append in Hsplit. lia.
Qed.

(** A piece cut at its own length is cut at [k] or has everything. *)
Lemma substring_rest k s :
  let n := String.length (String.substring 0 k s) in
  String.substring n (String.length s - n) s = String.substring k (String.length s - k) s.
Proof.
  cbv zeta. rewrite length_substring. destruct (decide (k ≤ String.length s)%nat) as [Hk|Hk].
  - by rewrite Nat.min_l.
  - rewrite Nat.min_r by lia. apply Nat.nle_gt in Hk. clear -Hk.
    assert (∀ k s, (String.length s ≤ k)%nat → String.substring k (String.length s - k) s = ""%string) as H.
    { clear. induction k as [|k IH]; intros [|c s] Hk; simpl in *; [done|lia|done|apply IH; lia]. }
    rewrite !H by lia. done.
Qed.

Lemma wp_upload_read sid a p seq h :
  (1 ≤ maxPayloadSize)%nat → 0 ≤ seq < MaxUint64 →
  wp (upload_read maxPayloadSize sid a p seq) (λ o h', ∃ p' l,
    o = Ok (p', seq + Z.of_nat (length l)) ∧ read_once sid seq h h' p p' l ∧
    (ar_Ended a = false → (∀ k, hs_link h k = None) → pp_Live p = true → pp_Live p' = true)) h.
Proof.
  intros Hmax Hseq. unfold upload_read.
  destruct (pp_Live p) eqn:El; [destruct (pp_Data p) as [|c rest] eqn:Ed; simpl WaitForData; cbv iota|].
  - apply wp_ret. exists p, []. rewrite Z.add_0_r. split; [done|]. split; [apply read_nothing; by right|done].
  - destruct (Read_data maxPayloadSize a c rest Hmax) as (k & Hdata & Hk & Heof).
    destruct (Read maxPayloadSize a c rest) as [data err]. cbn [fst snd] in Hdata, Heof.
    case_decide as He.
    + apply Heof in He as (_ & -> & Hend). apply wp_ret. exists (mkPipe (pp_Kind p) (pp_Data p) false), [].
      rewrite Ed, Z.add_0_r. split; [done|]. rewrite <- Ed. split; [|congruence].
      apply read_end; [done|by rewrite Ed].
    + subst data. rewrite <- Ed, substring_rest. simpl. rewrite uint64_succ_small by done.
      apply wp_bind, wp_try, wp_SendMsg. intros o h' Hs Hm Hen Hok Ho.
      assert (∀ b, ((∀ k, hs_link h k = None) → b = true) → read_once sid seq h h' p
        (mkPipe (pp_Kind p) (String.substring k (String.length (pp_Data p) - k) (pp_Data p)) b)
        [mkMsg (pp_Kind p) sid seq (Some (String.substring 0 k (pp_Data p)))]) as Hro
        by (intros b Hb; apply read_some; [done|by rewrite Ed|done..]).
      destruct o as [[]|e|pp|]; simpl in Ho; [| |naive_solver..]; simpl; apply wp_ret;
        eexists _, [_]; (split; [done|]); (split; [apply Hro|]); try done;
        intros Hlink; apply proj2 in Hok; [|intros Hlink'; by specialize (Hok (Hlink' _))].
      by specialize (Hok (Hlink _)).
  - apply wp_ret. exists p, []. rewrite Z.add_0_r. split; [done|]. split; [apply read_nothing; by left|congruence].
Qed.

Lemma text_of_none kind (l : list Msg) : (∀ m, m ∈ l → msg_Kind m ≠ kind) → text_of kind l = ""%string.
Proof.
  unfold text_of. induction l as [|m l IH]; intros H; simpl; [done|].
  rewrite bool_decide_false by (apply H; by left). apply IH. intros m' Hm'. apply H. by right.
Qed.

(** A read as an upload of the session. *)
Lemma uploaded_read sid seq h h' out out' err l :
  pp_Kind out ≠ pp_Kind err →
  read_once sid seq h h' out out' l → uploaded sid seq h h' out err out' err l.
Proof.
  intros Hk []. split; try done.
  - split; [done|]. rewrite text_of_none; [done|]. intros m Hm.
    apply ro_msgs0 in Hm as (_ & _ & -> & _). done.
  - intros i m Hm. pose proof (lookup_lt_Some _ _ _ Hm).
    apply list_elem_of_lookup_2, ro_msgs0 in Hm as (? & ? & ? & ?).
    split; [done|]. split; [lia|]. auto.
Qed.

Lemma uploaded_swap sid seq h h' o1 e1 o2 e2 l :
  uploaded sid seq h h' o1 e1 o2 e2 l → uploaded sid seq h h' e1 o1 e2 o2 l.
Proof. intros []. split; try done. intros i m Hm. apply up_msgs0 in Hm. naive_solver. Qed.

(** How far a pipe got: after as many reads as it had bytes it is empty, unless a
    send failed or the last byte came with the end of the stream. *)
Definition reads (which : bool) (sched : schedule) : nat :=
  length (List.filter (λ x, bool_decide (x.1 = which)) sched).
Definition meets_end (which : bool) (sched : schedule) : bool :=
  existsb (λ x, bool_decide (x.1 = which) && ar_Ended x.2) sched.

Record progress h p p' (n : nat) (ended : bool) : Prop := {
  pg_dead : pp_Live p = false → p' = p;
  pg_data : pp_Live p = true → (∀ k, hs_link h k = None) →
    pp_Live p' = true ∧ (String.length (pp_Data p') ≤ String.length (pp_Data p) - n)%nat ∨
    pp_Live p' = false ∧ String.length (pp_Data p') = 1%nat;
  pg_live : pp_Live p = true → (∀ k, hs_link h k = None) → ended = false → pp_Live p' = true }.

Lemma progress_refl h p : progress h p p 0 false.
Proof. split; [done| |done]. intros Hl _. left. split; [done|lia]. Qed.

Lemma progress_trans h1 h2 p1 p2 p3 n m e1 e2 :
  hs_link h2 = hs_link h1 → progress h1 p1 p2 n e1 → progress h2 p2 p3 m e2 → progress h1 p1 p3 (n + m) (e1 || e2).
Proof.
  intros Hl [D1 P1 L1] [D2 P2 L2]. rewrite Hl in *. split.
  - intros Hp. pose proof (D1 Hp) as ->. by apply D2.
  - intros Hp Hk. destruct (P1 Hp Hk) as [[Hp2 Hlen]|[Hp2 Hlen]].
    + destruct (P2 Hp2 Hk) as [[? ?]|?]; [left; split; [done|lia]|by right].
    + right. by rewrite (D2 Hp2).
  - intros Hp Hk [He1 He2]%orb_false_iff. by apply L2, He2; [apply L1|].
Qed.

Lemma progress_read sid seq h h' p p' l a :
  read_once sid seq h h' p p' l →
  (ar_Ended a = false → (∀ k, hs_link h k = None) → pp_Live p = true → pp_Live p' = true) →
  progress h p p' 1 (ar_Ended a).
Proof. intros [] Hlive. split; [done|done|auto]. Qed.

Lemma sends_link h h' l : sends h h' l → hs_link h' = hs_link h.
Proof. by intros (? & _ & _ & ?). Qed.

Lemma wp_uploads sid sched out err seq h :
  (1 ≤ maxPayloadSize)%nat → pp_Kind out ≠ pp_Kind err →
  0 ≤ seq → seq + Z.of_nat (length sched) ≤ MaxUint64 →
  wp (uploads maxPayloadSize sid sched out err seq) (λ o h', ∃ out' err' l,
    o = Ok (out', err', seq + Z.of_nat (length l)) ∧ (length l ≤ length sched)%nat ∧
    uploaded sid seq h h' out err out' err' l ∧
    progress h out out' (reads false sched) (meets_end false sched) ∧
    progress h err err' (reads true sched) (meets_end true sched)) h.
Proof.
  intros Hmax. revert out err seq h. induction sched as [|[which a] sched IH]; intros out err seq h Hk H0 Hs.
  { apply wp_ret. exists out, err, []. rewrite Z.add_0_r. split; [done|]. split; [simpl; lia|].
    split; [apply uploaded_nil|]. split; apply progress_refl. }
  simpl length in Hs. simpl uploads. destruct which; apply wp_bind;
    (eapply wp_mono; [|apply wp_upload_read; [done|lia]]);
    intros o h1 (p1 & l1 & -> & Hr & Hlive); simpl; pose proof (progress_read _ _ _ _ _ _ _ _ Hr Hlive) as Hp1;
    pose proof Hr as [Hl1 Hs1 _ _ Hk1 _ _ _ _];
    (eapply wp_mono; [|apply IH; [congruence|lia|lia]]);
    intros o h2 (out' & err' & l2 & -> & Hl2 & Hu & Ho & He); exists out', err', (l1 ++ l2);
    rewrite length_app; simpl length; (split; [do 2 f_equal; lia|]); (split; [lia|]); apply sends_link in Hs1;
    (split; [eapply uploaded_app; [|exact Hu]|split]).
  - by apply uploaded_swap, uploaded_read.
  - exact (progress_trans _ _ _ _ _ 0 _ false _ Hs1 (progress_refl h out) Ho).
  - exact (progress_trans _ _ _ _ _ 1 _ _ _ Hs1 Hp1 He).
  - by apply uploaded_read.
  - exact (progress_trans _ _ _ _ _ 1 _ _ _ Hs1 Hp1 Ho).
  - exact (progress_trans _ _ _ _ _ 0 _ false _ Hs1 (progress_refl h err) He).
Qed.
End handler.
