(* ===== verification/Connection.v ===== *)
(** The connection to the extension hub: the main loop of
    [pkg/cmd/runtime-podman.go], the client ([libext/client.go]), the controller
    ([libext/controller.go]) and its channels ([libext/channel_bundle.go]).

    Five goroutines are interleaved freely: the main loop, the reader and the
    writer of the connection, the controller, and the goroutines of commands,
    which send messages of their own.  A bundle of channels and the connection
    made for it have one number, counted from 0.  What [HandleCmd] does with a
    command is the subject of [Handler]. *)

From stdpp Require Import base gmap strings list fin_maps functions numbers relations sorting.
From S2P Require Import Prelude World Handler.

Local Open Scope nat_scope.

Definition CMD_PING : Z := 1.

(** [channelBundle]: the contents of the two buffered channels.  [Close] closes
    [closed] and [msgCh] in one step. *)
Record channelBundle := mkBundle {
  cb_cmdCh : list Cmd;
  cb_cmdCh_closed : bool;
  cb_msgCh : list Msg;
  cb_closed : bool }.

Definition newChannelBundle : channelBundle := mkBundle [] false [] false.

(** [make(chan ..., 1)] *)
Definition capacity : nat := 1.

Inductive main_pc := MLoop | MDial (n : nat) | MRegister (n : nat) | MStream (n : nat) | MReturned.
Inductive reader_pc := RRead | RPing | RSend (c : Cmd) | RDone.
Inductive ctrl_pc := CIdle | CRegister (n : nat) | CRange (n : nat) | CSend (n : nat) (m : Msg) | CEnd.

Record link := mkLink {
  lk_main : main_pc;
  lk_reader : reader_pc;
  lk_writer : bool;               (* the writer runs *)
  lk_ctrl : ctrl_pc;
  lk_chRefreshed : list nat;
  lk_currentCB : option nat;
  lk_next : nat;
  lk_bundles : nat → channelBundle;
  lk_sendFunc : option nat;       (* the bundle of the stored send function *)
  lk_senders : list (nat * Msg);  (* goroutines of commands inside [sendMsg] *)
  lk_ctx : bool;                  (* the application context is done *)
  lk_panic : bool;
  (* history *)
  lk_received : list (nat * Cmd); (* decoded *)
  lk_handled : list (nat * Cmd);  (* passed to [HandleCmd] *)
  lk_failed : list nat }.         (* attempts that ended before their stream began *)

Definition set_main x s := mkLink x (lk_reader s) (lk_writer s) (lk_ctrl s) (lk_chRefreshed s) (lk_currentCB s)
  (lk_next s) (lk_bundles s) (lk_sendFunc s) (lk_senders s) (lk_ctx s) (lk_panic s) (lk_received s) (lk_handled s) (lk_failed s).
Definition set_reader x s := mkLink (lk_main s) x (lk_writer s) (lk_ctrl s) (lk_chRefreshed s) (lk_currentCB s)
  (lk_next s) (lk_bundles s) (lk_sendFunc s) (lk_senders s) (lk_ctx s) (lk_panic s) (lk_received s) (lk_handled s) (lk_failed s).
Definition set_writer x s := mkLink (lk_main s) (lk_reader s) x (lk_ctrl s) (lk_chRefreshed s) (lk_currentCB s)
  (lk_next s) (lk_bundles s) (lk_sendFunc s) (lk_senders s) (lk_ctx s) (lk_panic s) (lk_received s) (lk_handled s) (lk_failed s).
Definition set_ctrl x s := mkLink (lk_main s) (lk_reader s) (lk_writer s) x (lk_chRefreshed s) (lk_currentCB s)
  (lk_next s) (lk_bundles s) (lk_sendFunc s) (lk_senders s) (lk_ctx s) (lk_panic s) (lk_received s) (lk_handled s) (lk_failed s).
Definition set_chRefreshed x s := mkLink (lk_main s) (lk_reader s) (lk_writer s) (lk_ctrl s) x (lk_currentCB s)
  (lk_next s) (lk_bundles s) (lk_sendFunc s) (lk_senders s) (lk_ctx s) (lk_panic s) (lk_received s) (lk_handled s) (lk_failed s).
Definition set_current x n s := mkLink (lk_main s) (lk_reader s) (lk_writer s) (lk_ctrl s) (lk_chRefreshed s) x
  n (lk_bundles s) (lk_sendFunc s) (lk_senders s) (lk_ctx s) (lk_panic s) (lk_received s) (lk_handled s) (lk_failed s).
Definition set_bundle n x s := mkLink (lk_main s) (lk_reader s) (lk_writer s) (lk_ctrl s) (lk_chRefreshed s) (lk_currentCB s)
  (lk_next s) (<[n := x]> (lk_bundles s)) (lk_sendFunc s) (lk_senders s) (lk_ctx s) (lk_panic s) (lk_received s) (lk_handled s) (lk_failed s).
Definition set_sendFunc x s := mkLink (lk_main s) (lk_reader s) (lk_writer s) (lk_ctrl s) (lk_chRefreshed s) (lk_currentCB s)
  (lk_next s) (lk_bundles s) x (lk_senders s) (lk_ctx s) (lk_panic s) (lk_received s) (lk_handled s) (lk_failed s).
Definition set_senders x s := mkLink (lk_main s) (lk_reader s) (lk_writer s) (lk_ctrl s) (lk_chRefreshed s) (lk_currentCB s)
  (lk_next s) (lk_bundles s) (lk_sendFunc s) x (lk_ctx s) (lk_panic s) (lk_received s) (lk_handled s) (lk_failed s).
Definition set_ctx s := mkLink (lk_main s) (lk_reader s) (lk_writer s) (lk_ctrl s) (lk_chRefreshed s) (lk_currentCB s)
  (lk_next s) (lk_bundles s) (lk_sendFunc s) (lk_senders s) true (lk_panic s) (lk_received s) (lk_handled s) (lk_failed s).
Definition set_panic s := mkLink (lk_main s) (lk_reader s) (lk_writer s) (lk_ctrl s) (lk_chRefreshed s) (lk_currentCB s)
  (lk_next s) (lk_bundles s) (lk_sendFunc s) (lk_senders s) (lk_ctx s) true (lk_received s) (lk_handled s) (lk_failed s).
Definition add_received x s := mkLink (lk_main s) (lk_reader s) (lk_writer s) (lk_ctrl s) (lk_chRefreshed s) (lk_currentCB s)
  (lk_next s) (lk_bundles s) (lk_sendFunc s) (lk_senders s) (lk_ctx s) (lk_panic s) (lk_received s ++ [x]) (lk_handled s) (lk_failed s).
Definition add_handled x s := mkLink (lk_main s) (lk_reader s) (lk_writer s) (lk_ctrl s) (lk_chRefreshed s) (lk_currentCB s)
  (lk_next s) (lk_bundles s) (lk_sendFunc s) (lk_senders s) (lk_ctx s) (lk_panic s) (lk_received s) (lk_handled s ++ [x]) (lk_failed s).
Definition add_failed x s := mkLink (lk_main s) (lk_reader s) (lk_writer s) (lk_ctrl s) (lk_chRefreshed s) (lk_currentCB s)
  (lk_next s) (lk_bundles s) (lk_sendFunc s) (lk_senders s) (lk_ctx s) (lk_panic s) (lk_received s) (lk_handled s) (lk_failed s ++ [x]).

(** The channels of bundle [n]. *)
Definition set_cmdCh n l s :=
  let b := lk_bundles s n in set_bundle n (mkBundle l (cb_cmdCh_closed b) (cb_msgCh b) (cb_closed b)) s.
Definition close_cmdCh n s :=
  let b := lk_bundles s n in set_bundle n (mkBundle (cb_cmdCh b) true (cb_msgCh b) (cb_closed b)) s.
Definition set_msgCh n l s :=
  let b := lk_bundles s n in set_bundle n (mkBundle (cb_cmdCh b) (cb_cmdCh_closed b) l (cb_closed b)) s.

(** [channelBundle.Close]: closing a closed channel panics. *)
Definition Close n s :=
  let b := lk_bundles s n in
  if cb_closed b then set_panic s
  else set_bundle n (mkBundle (cb_cmdCh b) (cb_cmdCh_closed b) (cb_msgCh b) true) s.

(** [RefreshChannels] where it does not block on [chRefreshed]. *)
Definition RefreshChannels (s : link) : link :=
  let n := lk_next s in
  let s1 := set_chRefreshed (lk_chRefreshed s ++ [n]) s in
  let s2 := match lk_currentCB s1 with Some old => Close old s1 | None => s1 end in
  set_main (MDial n) (set_current (Some n) (S n) s2).

(** The context of the error group. *)
Definition group_done (s : link) : bool :=
  lk_ctx s || negb (lk_writer s) || match lk_reader s with RDone => true | _ => false end.

(** A [select] of [sendMsg] on bundle [n]; a send on a closed channel panics. *)
Inductive sendMsg (n : nat) (m : Msg) (s : link) : link → Prop :=
| send_closed : cb_closed (lk_bundles s n) = true → sendMsg n m s s
| send_queued :
    cb_closed (lk_bundles s n) = false → length (cb_msgCh (lk_bundles s n)) < capacity →
    sendMsg n m s (set_msgCh n (cb_msgCh (lk_bundles s n) ++ [m]) s)
| send_panics : cb_closed (lk_bundles s n) = true → sendMsg n m s (set_panic s).

Inductive lstep (s : link) : link → Prop :=
(* the main loop *)
| main_ctx_done : lk_main s = MLoop → lk_ctx s = true → lstep s (set_main MReturned s)
| main_refresh :
    lk_main s = MLoop → length (lk_chRefreshed s) < capacity → lstep s (RefreshChannels s)
| main_refresh_nil : (* nil channels, and a dial that fails with the context *)
    lk_main s = MLoop → lk_ctx s = true → lstep s s
| dial_ok n : lk_main s = MDial n → lstep s (set_main (MRegister n) s)
| dial_error n : lk_main s = MDial n → lstep s (add_failed n (set_main MLoop s))
| register_ok n :
    lk_main s = MRegister n → lstep s (set_writer true (set_reader RRead (set_main (MStream n) s)))
| register_error n : lk_main s = MRegister n → lstep s (add_failed n (set_main MLoop s))
| stream_end n :
    lk_main s = MStream n → lk_reader s = RDone → lk_writer s = false → lstep s (set_main MLoop s)
(* the reader *)
| decode n c :
    lk_main s = MStream n → lk_reader s = RRead → cmd_Kind c ≠ CMD_PING →
    lstep s (add_received (n, c) (set_reader (RSend c) s))
| decode_ping n :
    lk_main s = MStream n → lk_reader s = RRead → lstep s (set_reader RPing s)
| decode_error n :
    lk_main s = MStream n → lk_reader s = RRead → lstep s (close_cmdCh n (set_reader RDone s))
| read_push n c :
    lk_main s = MStream n → lk_reader s = RSend c → length (cb_cmdCh (lk_bundles s n)) < capacity →
    lstep s (set_cmdCh n (cb_cmdCh (lk_bundles s n) ++ [c]) (set_reader RRead s))
| read_ctx n :
    lk_main s = MStream n → (lk_reader s = RPing ∨ ∃ c, lk_reader s = RSend c) → group_done s = true →
    lstep s (close_cmdCh n (set_reader RDone s))
(* the writer *)
| write_pong n :
    lk_main s = MStream n → lk_writer s = true → lk_reader s = RPing → lstep s (set_reader RRead s)
| write_msg n m l :
    lk_main s = MStream n → lk_writer s = true → cb_msgCh (lk_bundles s n) = m :: l →
    lstep s (set_msgCh n l s)
| write_end n : (* an encoding error, a closed channel, the context *)
    lk_main s = MStream n → lk_writer s = true → lstep s (set_writer false s)
(* the controller *)
| ctrl_ctx_done : lk_ctrl s = CIdle → lk_ctx s = true → lstep s (set_ctrl CEnd s)
| ctrl_take n l :
    lk_ctrl s = CIdle → lk_chRefreshed s = n :: l →
    lstep s (set_ctrl (CRegister n) (set_chRefreshed l s))
| ctrl_register n :
    lk_ctrl s = CRegister n → lstep s (set_sendFunc (Some n) (set_ctrl (CRange n) s))
| ctrl_handle n c l answer :
    lk_ctrl s = CRange n → cb_cmdCh (lk_bundles s n) = c :: l →
    lstep s (set_ctrl (match answer with None => CRange n | Some m => CSend n m end)
               (add_handled (n, c) (set_cmdCh n l s)))
| ctrl_range_end n :
    lk_ctrl s = CRange n → cb_cmdCh (lk_bundles s n) = [] → cb_cmdCh_closed (lk_bundles s n) = true →
    lstep s (set_ctrl CIdle s)
| ctrl_send n m s' :
    lk_ctrl s = CSend n m → sendMsg n m (set_ctrl (CRange n) s) s' → lstep s s'
| ctrl_send_ctx n m :
    lk_ctrl s = CSend n m → lk_ctx s = true → lstep s (Close n (set_ctrl CIdle s))
(* the goroutines of commands *)
| session_load n m :
    lk_handled s ≠ [] → lk_sendFunc s = Some n → lstep s (set_senders ((n, m) :: lk_senders s) s)
| session_send n m l1 l2 s' :
    lk_senders s = l1 ++ (n, m) :: l2 → sendMsg n m (set_senders (l1 ++ l2) s) s' → lstep s s'
| session_send_ctx n m l1 l2 :
    lk_senders s = l1 ++ (n, m) :: l2 → lk_ctx s = true → lstep s (set_senders (l1 ++ l2) s)
(* the application *)
| app_cancel : lstep s (set_ctx s).

(** A panic of any goroutine ends the process. *)
Definition step (s s' : link) : Prop := lk_panic s = false ∧ lstep s s'.

(** [run] after the controller was started. *)
Definition link_start : link :=
  mkLink MLoop RDone false CIdle [] None 0 (λ _, newChannelBundle) None [] false false [] [] [].

(** ** Invariant *)

(** The attempt whose commands the controller handles now, or will handle next. *)
Definition front (s : link) : nat :=
  match lk_ctrl s with
  | CRegister n | CRange n | CSend n _ => n
  | CIdle | CEnd => lk_next s - length (lk_chRefreshed s)
  end.

Definition busy_ctrl (c : ctrl_pc) : bool :=
  match c with CRegister _ | CRange _ | CSend _ _ => true | _ => false end.

(** The attempt of the main loop, and whether its stream has begun. *)
Definition attempt (s : link) : option (nat * bool) :=
  match lk_main s with
  | MDial n | MRegister n => Some (n, false)
  | MStream n => Some (n, true)
  | _ => None
  end.

(** The commands of connection [n] in a history. *)
Definition conn (n : nat) (l : list (nat * Cmd)) : list Cmd :=
  omap (λ x, if decide (x.1 = n) then Some x.2 else None) l.

Definition in_flight (s : link) : list Cmd :=
  match lk_reader s with RSend c => [c] | _ => [] end.

Notation cmds s n := (cb_cmdCh (lk_bundles s n)).
Notation shut s n := (cb_cmdCh_closed (lk_bundles s n)).

(** No stream has begun for [n]. *)
Definition unused (s : link) (n : nat) : Prop :=
  cmds s n = [] ∧ shut s n = false ∧ conn n (lk_received s) = [] ∧ conn n (lk_handled s) = [].

Record linked (s : link) : Prop := {
  ln_attempt n b : attempt s = Some (n, b) → S n = lk_next s;
  ln_queue : lk_chRefreshed s = [] ∨ lk_chRefreshed s = [lk_next s - 1];
  ln_busy : busy_ctrl (lk_ctrl s) = true → S (front s) + length (lk_chRefreshed s) = lk_next s;
  ln_idle : length (lk_chRefreshed s) ≤ lk_next s;
  ln_shut n : n < front s → shut s n = true ∨ lk_ctx s = true;
  ln_failed n : n ∈ lk_failed s → unused s n ∧ n < lk_next s ∧ (∀ b, attempt s ≠ Some (n, b));
  ln_fresh n : attempt s = Some (n, false) ∨ lk_next s ≤ n → unused s n;
  ln_handled x : x ∈ lk_handled s → x.1 ≤ front s;
  ln_sorted : StronglySorted le (lk_handled s).*1;
  ln_fifo n : conn n (lk_handled s) ++ cmds s n `prefix_of` conn n (lk_received s);
  ln_live n : attempt s = Some (n, true) → lk_reader s ≠ RDone →
    conn n (lk_received s) = conn n (lk_handled s) ++ cmds s n ++ in_flight s }.

Lemma conn_snoc n x l :
  conn n (l ++ [x]) = conn n l ++ (if decide (x.1 = n) then [x.2] else []).
Proof. unfold conn. rewrite omap_app. f_equal. simpl. by case_decide. Qed.

Lemma linked_start : linked link_start.
Proof.
  split; simpl; try done.
  - by left.
  - intros n H. unfold front in H. simpl in H. lia.
  - intros n H. by apply elem_of_nil in H.
  - intros x H. by apply elem_of_nil in H.
  - constructor.
Qed.

(** The invariant does not look at the messages. *)
Record same_view (s s' : link) : Prop := {
  sv_attempt : attempt s' = attempt s;
  sv_reader : lk_reader s' ≠ RDone → lk_reader s ≠ RDone ∧ in_flight s' = in_flight s;
  sv_front : front s' = front s;
  sv_busy : busy_ctrl (lk_ctrl s') = busy_ctrl (lk_ctrl s);
  sv_queue : lk_chRefreshed s' = lk_chRefreshed s;
  sv_next : lk_next s' = lk_next s;
  sv_cmds n : cmds s' n = cmds s n;
  sv_shut n : shut s' n = shut s n;
  sv_ctx : lk_ctx s = true → lk_ctx s' = true;
  sv_received : lk_received s' = lk_received s;
  sv_handled : lk_handled s' = lk_handled s;
  sv_failed : lk_failed s' = lk_failed s }.

Lemma same_view_linked s s' : same_view s s' → linked s → linked s'.
Proof.
  intros [Ha Hr Hf Hb Hq Hn Hc Hs Hx Hrec Hh Hfl] [].
  assert (∀ n, unused s n → unused s' n) as Hu by (intros n; unfold unused; by rewrite Hc, Hs, Hrec, Hh).
  split; rewrite ?Ha, ?Hq, ?Hn, ?Hb, ?Hf, ?Hh, ?Hrec, ?Hfl; try done.
  - intros n H. rewrite Hs. destruct (ln_shut0 n H); auto.
  - intros n H. destruct (ln_failed0 n H) as (? & ? & ?). auto.
  - intros n H. auto.
  - intros n. by rewrite Hc.
  - intros n H1 H2. destruct (Hr H2) as [H3 ->]. rewrite Hc. auto.
Qed.

Lemma same_view_refl s : same_view s s.
Proof. by split. Qed.

Lemma same_view_trans s1 s2 s3 : same_view s1 s2 → same_view s2 s3 → same_view s1 s3.
Proof.
  intros [] []. split; try congruence; try (intros; congruence); auto.
  intros H. destruct (sv_reader1 H) as [H1 ->]. auto.
Qed.

Lemma msgCh_view n l s : same_view s (set_msgCh n l s).
Proof.
  split; try done; intros m; simpl; destruct (decide (m = n)) as [->|];
    by rewrite ?fn_lookup_insert, ?fn_lookup_insert_ne by done.
Qed.

Lemma panic_view s : same_view s (set_panic s).
Proof. by split. Qed.

Lemma Close_view n s : same_view s (Close n s).
Proof.
  unfold Close. destruct (cb_closed _); [apply panic_view|].
  split; try done; intros m; simpl; destruct (decide (m = n)) as [->|];
    by rewrite ?fn_lookup_insert, ?fn_lookup_insert_ne by done.
Qed.

Lemma sendMsg_view n m s s' : sendMsg n m s s' → same_view s s'.
Proof. intros []; [apply same_view_refl|apply msgCh_view|apply panic_view]. Qed.

Ltac at_bundle :=
  repeat match goal with
  | |- context [(<[?n := _]> ?f) ?m] =>
      destruct (decide (m = n)) as [->|]; [rewrite ?fn_lookup_insert|rewrite ?fn_lookup_insert_ne by done]
  end.

Lemma linked_fail s n :
  linked s → attempt s = Some (n, false) → linked (add_failed n (set_main MLoop s)).
Proof.
  intros [] Ha. split; try done.
  - intros m [H| ->%list_elem_of_singleton]%elem_of_app; split.
    + by apply ln_failed0.
    + split; [by apply ln_failed0|done].
    + apply ln_fresh0. by left.
    + split; [|done]. simpl. specialize (ln_attempt0 _ _ Ha). lia.
  - intros m [H|H]; [done|]. apply ln_fresh0. by right.
Qed.

Lemma linked_end s : linked s → linked (set_main MLoop s).
Proof.
  intros []. split; try done.
  - intros m H. destruct (ln_failed0 m H) as (? & ? & ?). done.
  - intros m [H|H]; [done|]. apply ln_fresh0. by right.
Qed.

Lemma linked_register s n :
  linked s → lk_main s = MRegister n → linked (set_writer true (set_reader RRead (set_main (MStream n) s))).
Proof.
  intros [] Hm. assert (attempt s = Some (n, false)) as Ha by (unfold attempt; by rewrite Hm).
  split; try done.
  - intros m b [= <- <-]. by eapply ln_attempt0.
  - intros m H. destruct (ln_failed0 m H) as (? & ? & Hn). split_and!; [done..|].
    intros b [= <- <-]. by apply (Hn false).
  - intros m [H|H]; [done|]. apply ln_fresh0. by right.
  - intros m [= <-] _. destruct (ln_fresh0 n) as (Hc & _ & Hr & Hh); [by left|].
    simpl. by rewrite Hc, Hr, Hh.
Qed.

Lemma linked_refresh s : linked s → lk_main s = MLoop → lk_chRefreshed s = [] →
  linked (RefreshChannels s).
Proof.
  intros Hl Hm Hq.
  assert (linked (set_main (MDial (lk_next s)) (set_current (Some (lk_next s)) (S (lk_next s))
                    (set_chRefreshed (lk_chRefreshed s ++ [lk_next s]) s)))) as H0.
  { destruct Hl. assert (attempt s = None) as Ha by (unfold attempt; by rewrite Hm).
    assert (front (set_main (MDial (lk_next s)) (set_current (Some (lk_next s)) (S (lk_next s))
              (set_chRefreshed (lk_chRefreshed s ++ [lk_next s]) s))) = front s) as Hf.
    { unfold front. simpl. destruct (lk_ctrl s); rewrite ?Hq; simpl; lia. }
    split; rewrite ?Hf; simpl; try done.
    - by intros n b [= <- <-].
    - right. rewrite Hq. simpl. f_equal. lia.
    - intros Hb. rewrite length_app. simpl. specialize (ln_busy0 Hb). lia.
    - rewrite length_app, Hq. simpl. lia.
    - intros n H. destruct (ln_failed0 n H) as (? & ? & ?). split_and!; [done|lia|].
      intros b [= <- <-]. lia.
    - intros n [[= <-]|H]; apply ln_fresh0; right; lia. }
  unfold RefreshChannels. simpl. destruct (lk_currentCB s) as [old|]; [|exact H0].
  eapply same_view_linked; [|exact H0].
  unfold Close. simpl. destruct (cb_closed _); [by split|].
  split; try done; intros m; simpl; at_bundle; done.
Qed.

(** A step of the stream of connection [n] changes nothing of another one. *)
Lemma linked_stream s s' n :
  linked s → lk_main s = MStream n → lk_main s' = MStream n →
  lk_ctrl s' = lk_ctrl s → lk_chRefreshed s' = lk_chRefreshed s → lk_next s' = lk_next s →
  lk_ctx s' = lk_ctx s → lk_failed s' = lk_failed s → lk_handled s' = lk_handled s →
  (∀ m, m ≠ n → lk_bundles s' m = lk_bundles s m ∧ conn m (lk_received s') = conn m (lk_received s)) →
  (shut s n = true → shut s' n = true) →
  conn n (lk_handled s) ++ cmds s' n `prefix_of` conn n (lk_received s') →
  (lk_reader s' ≠ RDone → conn n (lk_received s') = conn n (lk_handled s) ++ cmds s' n ++ in_flight s') →
  linked s'.
Proof.
  intros [] Hm Hm' Hc Hq Hnx Hx Hfl Hh Hother Hshut Hfifo Hlive.
  assert (attempt s = Some (n, true)) as Ha by (unfold attempt; by rewrite Hm).
  assert (attempt s' = Some (n, true)) as Ha' by (unfold attempt; by rewrite Hm').
  assert (front s' = front s) as Hf by (unfold front; by rewrite Hc, Hq, Hnx).
  specialize (ln_attempt0 n true Ha) as Hn.
  assert (∀ m, m ≠ n → unused s m → unused s' m) as Hu.
  { intros m Hne. destruct (Hother m Hne) as [Hb Hr]. unfold unused. by rewrite Hb, Hr, Hh. }
  split; rewrite ?Hf, ?Hq, ?Hnx, ?Hc, ?Ha', ?Hfl, ?Hx, ?Hh; try done.
  - by intros m b [= <- <-].
  - intros m H. destruct (decide (m = n)) as [->|Hne].
    + destruct (ln_shut0 n H); auto.
    + destruct (Hother m Hne) as [-> _]. auto.
  - intros m H. destruct (ln_failed0 m H) as (? & ? & Hb).
    assert (m ≠ n) by (intros ->; by apply (Hb true)).
    split_and!; [auto|done|]. intros b [= <- <-]. done.
  - intros m [H|H]; [done|]. assert (m ≠ n) by lia. auto.
  - intros m. destruct (decide (m = n)) as [->|Hne]; [done|]. destruct (Hother m Hne) as [-> ->]. auto.
  - intros m [= <-]. done.
Qed.

Lemma linked_decode s n c :
  linked s → lk_main s = MStream n → lk_reader s = RRead →
  linked (add_received (n, c) (set_reader (RSend c) s)).
Proof.
  intros Hl Hm Hr.
  apply (linked_stream s _ n); try done; simpl.
  - intros m Hne. rewrite conn_snoc. simpl. rewrite decide_False by done. by rewrite app_nil_r.
  - rewrite conn_snoc. apply prefix_app_r, Hl.
  - intros _. rewrite conn_snoc. simpl. rewrite decide_True by done.
    rewrite (ln_live s Hl n) by (unfold attempt; by rewrite ?Hm, ?Hr). unfold in_flight. simpl.
    by rewrite Hr, app_nil_r, app_assoc.
Qed.

Lemma linked_reader_end s n :
  linked s → lk_main s = MStream n → linked (close_cmdCh n (set_reader RDone s)).
Proof.
  intros Hl Hm. apply (linked_stream s _ n); try done; simpl.
  - intros m Hne. by rewrite fn_lookup_insert_ne.
  - by rewrite fn_lookup_insert.
  - rewrite fn_lookup_insert. apply Hl.
Qed.

Lemma linked_push s n c :
  linked s → lk_main s = MStream n → lk_reader s = RSend c →
  linked (set_cmdCh n (cmds s n ++ [c]) (set_reader RRead s)).
Proof.
  intros Hl Hm Hr.
  assert (conn n (lk_received s) = conn n (lk_handled s) ++ cmds s n ++ [c]) as Hlive.
  { rewrite (ln_live s Hl n) by (unfold attempt; by rewrite ?Hm, ?Hr). unfold in_flight. by rewrite Hr. }
  apply (linked_stream s _ n); try done; simpl.
  - intros m Hne. by rewrite fn_lookup_insert_ne.
  - by rewrite fn_lookup_insert.
  - rewrite fn_lookup_insert. simpl. by rewrite Hlive.
  - intros _. rewrite fn_lookup_insert. simpl. unfold in_flight. simpl. by rewrite Hlive, app_nil_r.
Qed.

Lemma linked_handle s n c l ctrl :
  linked s → lk_ctrl s = CRange n → cmds s n = c :: l → (ctrl = CRange n ∨ ∃ m, ctrl = CSend n m) →
  linked (set_ctrl ctrl (add_handled (n, c) (set_cmdCh n l s))).
Proof.
  intros [] Hc Hb Hctrl.
  assert (front s = n) as Hf by (unfold front; by rewrite Hc).
  set (s' := set_ctrl ctrl (add_handled (n, c) (set_cmdCh n l s))).
  assert (front s' = n) as Hf' by (by destruct Hctrl as [->|[m ->]]).
  assert (busy_ctrl (lk_ctrl s) = true) as Hbusy by by rewrite Hc.
  assert (∀ m, conn m (lk_handled s') ++ cmds s' m = conn m (lk_handled s) ++ cmds s m) as Hsame.
  { intros m. unfold s'. simpl. rewrite conn_snoc. simpl. at_bundle; simpl.
    - by rewrite decide_True, Hb, <- app_assoc by done.
    - by rewrite decide_False, app_nil_r by done. }
  assert (∀ m, unused s m → m ≠ n) as Hne by (intros m [Hu _] ->; congruence).
  assert (∀ m, unused s m → unused s' m) as Hu.
  { intros m H. specialize (Hne m H). unfold unused, s'. simpl. rewrite !fn_lookup_insert_ne by done.
    rewrite conn_snoc. simpl. rewrite decide_False by done. by rewrite app_nil_r. }
  split; rewrite ?Hf'; try done.
  - intros _. simpl. specialize (ln_busy0 Hbusy). by rewrite Hf in ln_busy0.
  - intros m H. unfold s'. simpl. rewrite Hf in ln_shut0. at_bundle; by apply ln_shut0.
  - intros m H. destruct (ln_failed0 m H) as (? & ? & ?). auto.
  - intros m H. auto.
  - intros x [H| ->%list_elem_of_singleton]%elem_of_app; [|done]. rewrite <- Hf. by apply ln_handled0.
  - unfold s'. simpl. rewrite fmap_app. apply StronglySorted_app. split_and!; [|done|repeat constructor].
    intros x1 x2 (x & -> & Hx)%list_elem_of_fmap ->%list_elem_of_singleton. simpl. rewrite <- Hf. by apply ln_handled0.
  - intros m. rewrite Hsame. apply ln_fifo0.
  - intros m H1 H2. rewrite app_assoc, Hsame, <- app_assoc. by apply ln_live0.
Qed.

Lemma linked_take s n l :
  linked s → lk_ctrl s = CIdle → lk_chRefreshed s = n :: l →
  linked (set_ctrl (CRegister n) (set_chRefreshed l s)).
Proof.
  intros [] Hc Hq. rewrite Hq in ln_queue0. destruct ln_queue0 as [|[= -> ->]]; [done|].
  assert (front s = lk_next s - 1) as Hf by (unfold front; by rewrite Hc, Hq).
  rewrite Hq in ln_idle0. simpl in ln_idle0.
  assert (front (set_ctrl (CRegister (lk_next s - 1)) (set_chRefreshed [] s)) = front s) as Hf' by by rewrite Hf.
  split; rewrite ?Hf'; simpl; try done.
  - by left.
  - intros _. lia.
  - lia.
Qed.

(** The controller leaves a connection. *)
Lemma linked_leave s n :
  linked s → busy_ctrl (lk_ctrl s) = true → front s = n → shut s n = true ∨ lk_ctx s = true →
  linked (set_ctrl CIdle s).
Proof.
  intros [] Hb Hf Hn. specialize (ln_busy0 Hb). rewrite Hf in *.
  assert (front (set_ctrl CIdle s) = S n) as Hf' by (unfold front; simpl; lia).
  split; rewrite ?Hf'; simpl; try done.
  - intros m H. destruct (decide (m = n)) as [->|Hne]; [done|]. apply ln_shut0. lia.
  - intros x H. specialize (ln_handled0 x H). lia.
Qed.

Lemma linked_step s s' : lstep s s' → linked s → linked s'.
Proof.
  intros Hs Hl. destruct Hs as
    [Hm Hx|Hm Hq|Hm Hx|n Hm|n Hm|n Hm|n Hm|n Hm Hr Hw|n c Hm Hr Hk|n Hm Hr|n Hm Hr|n c Hm Hr Hcap|n Hm Hr Hg
    |n Hm Hw Hr|n m l Hm Hw Hb|n Hm Hw|Hc Hx|n l Hc Hq|n Hc|n c l answer Hc Hb|n Hc Hb Hsh|n m s' Hc Hsend|n m Hc Hx
    |n m Hh Hf|n m l1 l2 s' Hsd Hsend|n m l1 l2 Hsd Hx|].
  - eapply same_view_linked; [|done]. split; try done; unfold attempt; by rewrite Hm.
  - apply linked_refresh; [done..|]. destruct (lk_chRefreshed s); [done|simpl in Hq; unfold capacity in Hq; lia].
  - done.
  - eapply same_view_linked; [|done]. split; try done; unfold attempt; by rewrite Hm.
  - apply linked_fail; [done|]. unfold attempt. by rewrite Hm.
  - by apply linked_register.
  - apply linked_fail; [done|]. unfold attempt. by rewrite Hm.
  - by apply linked_end.
  - by apply linked_decode.
  - eapply same_view_linked; [|done]. split; try done. intros _. unfold in_flight. simpl. by rewrite Hr.
  - by apply linked_reader_end.
  - by apply linked_push.
  - by apply linked_reader_end.
  - eapply same_view_linked; [|done]. split; try done. intros _. unfold in_flight. simpl. by rewrite Hr.
  - eapply same_view_linked; [apply msgCh_view|done].
  - eapply same_view_linked; [|done]. by split.
  - eapply same_view_linked; [|done]. split; try done; simpl; unfold front; by rewrite Hc.
  - by apply linked_take.
  - eapply same_view_linked; [|done]. split; try done; simpl; unfold front; by rewrite Hc.
  - apply linked_handle; [done..|]. destruct answer; eauto.
  - eapply linked_leave; [done|by rewrite Hc|by unfold front; rewrite Hc|by left].
  - eapply same_view_linked; [eapply same_view_trans; [|by eapply sendMsg_view]|done].
    split; try done; simpl; unfold front; by rewrite Hc.
  - eapply same_view_linked; [apply Close_view|].
    eapply linked_leave; [done|by rewrite Hc|by unfold front; rewrite Hc|by right].
  - eapply same_view_linked; [|done]. by split.
  - eapply same_view_linked; [eapply same_view_trans; [|by eapply sendMsg_view]|done]. by split.
  - eapply same_view_linked; [|done]. by split.
  - eapply same_view_linked; [|done]. by split.
Qed.

Lemma linked_reachable s : rtc step link_start s → linked s.
Proof.
  apply (rtc_ind_r linked); [apply linked_start|].
  intros s1 s2 _ [_ Hs] Hl. by eapply linked_step.
Qed.

(** ** Progress *)




















(** ** Properties *)

(** C14: Whatever the interleaving, the commands of a connection are handled in the
    order in which they were read, each once, and the connections one after the
    other; while the stream of a connection is read, every command that was read
    has been handled or waits. *)
Theorem commands_in_order s :
  rtc step link_start s →
  StronglySorted le (lk_handled s).*1 ∧
  (∀ n, conn n (lk_handled s) `prefix_of` conn n (lk_received s)) ∧
  (∀ n c, lk_main s = MStream n → lk_reader s = RSend c →
     conn n (lk_received s) = conn n (lk_handled s) ++ cb_cmdCh (lk_bundles s n) ++ [c]).
Proof.
  intros Hl%linked_reachable. split_and!.
  - apply Hl.
  - intros n. etrans; [|by apply (ln_fifo s Hl n)]. by apply prefix_app_r.
  - intros n c Hm Hr. rewrite (ln_live s Hl n).
    + unfold in_flight. by rewrite Hr.
    + unfold attempt. by rewrite Hm.
    + by rewrite Hr.
Qed.


(** C15: An attempt to connect that fails before its stream begins stops the
    extension for good: its channel of commands is never closed, so the
    controller waits on it, no command of this or a later connection is ever
    handled, and at most one more attempt is made before [RefreshChannels]
    blocks. *)
Theorem failed_attempt_is_final s n :
  rtc step link_start s → lk_ctx s = false → n ∈ lk_failed s →
  (∀ x, x ∈ lk_handled s → x.1 < n) ∧ lk_next s ≤ n + 2.
Proof.
  intros Hl%linked_reachable Hx Hn.
  destruct (ln_failed s Hl n Hn) as ((Hc & Hs & Hr & Hh) & Hlt & _).
  assert (front s ≤ n) as Hf.
  { destruct (decide (front s ≤ n)) as [|Hgt]; [done|]. destruct (ln_shut s Hl n) as [H|H]; [lia|congruence..]. }
  split.
  - intros x Hxh. pose proof (ln_handled s Hl x Hxh) as Hle.
    destruct (decide (x.1 = n)) as [Heq|Hne]; [|lia].
    apply list_elem_of_lookup in Hxh as [i Hi]. exfalso.
    assert (x.2 ∈ conn n (lk_handled s)) as Hin.
    { apply list_elem_of_omap. exists x. split; [by eapply list_elem_of_lookup_2|]. by rewrite decide_True. }
    rewrite Hh in Hin. by apply elem_of_nil in Hin.
  - pose proof (ln_queue s Hl) as Hq. pose proof (ln_busy s Hl) as Hb. pose proof (ln_idle s Hl) as Hi.
    assert (length (lk_chRefreshed s) ≤ 1) by (destruct Hq as [-> | ->]; simpl; lia).
    destruct (busy_ctrl (lk_ctrl s)) eqn:Hbusy; [specialize (Hb eq_refl); lia|].
    unfold front in Hf. destruct (lk_ctrl s); try done; lia.
Qed.

(** *** Runs *)

Definition exec_cmd : Cmd := mkCmd CMD_RUNTIME_ARANYA_PROTO 1 0 None.
Definition output_msg : Msg := mkMsg MSG_DATA_OUTPUT 1 0 None.

Local Ltac condition :=
  first [reflexivity | discriminate | (vm_compute; lia) | by left | by right; eexists].
Local Tactic Notation "next" uconstr(c) := eapply rtc_l; [split; [reflexivity|eapply c; condition]|].

(** C39: A session that outlives its connection can end the process: its goroutine
    still sends through the bundle of the lost connection, which
    [RefreshChannels] has closed, and a [select] with a send on a closed channel
    may choose it and panic.  Every attempt to connect succeeded. *)
Theorem lost_connection_may_panic :
  ∃ s, rtc step link_start s ∧ lk_failed s = [] ∧ lk_ctx s = false ∧
    lk_handled s = [(0, exec_cmd)] ∧ lk_panic s = true.
Proof.
  eexists. split.
  - next main_refresh. next (ctrl_take _ 0). next ctrl_register. next dial_ok. next register_ok.
    next (decode _ 0 exec_cmd). next read_push. next (ctrl_handle _ 0 exec_cmd [] None).
    next (session_load _ 0 output_msg). next decode_error. next write_end. next stream_end. next main_refresh.
    eapply rtc_once. split; [reflexivity|].
    eapply (session_send _ 0 output_msg [] []); [reflexivity|]. apply send_panics. reflexivity.
  - repeat split; reflexivity.
Qed.

(** The controller is idle again, or started, when the first attempt is made; the
    attempt fails, the next one succeeds and a command arrives. *)
Definition unheard : link :=
  add_received (1, exec_cmd) (set_reader (RSend exec_cmd) (set_writer true (set_reader RRead (set_main (MStream 1)
    (set_main (MRegister 1) (RefreshChannels (add_failed 0 (set_main MLoop (set_sendFunc (Some 0)
      (set_ctrl (CRange 0) (set_ctrl (CRegister 0) (set_chRefreshed [] (RefreshChannels link_start))))))))))))).

Lemma unheard_reachable : rtc step link_start unheard.
Proof.
  next main_refresh. next (ctrl_take _ 0). next ctrl_register. next dial_error. next main_refresh.
  next dial_ok. next register_ok. next (decode _ 1 exec_cmd). apply rtc_refl.
Qed.

Lemma failed_attempt_is_final_witness :
  lk_received unheard = [(1, exec_cmd)] ∧ (∀ x, x ∈ lk_handled unheard → x.1 < 0) ∧ lk_next unheard ≤ 0 + 2.
Proof.
  split; [reflexivity|].
  apply (failed_attempt_is_final unheard 0 unheard_reachable); [reflexivity|by left].
Defined.

Lemma commands_in_order_witness :
  conn 1 (lk_received unheard) = conn 1 (lk_handled unheard) ++ cb_cmdCh (lk_bundles unheard 1) ++ [exec_cmd].
Proof.
  destruct (commands_in_order unheard unheard_reachable) as (_ & _ & H). apply H; reflexivity.
Defined.


