(* ===== verification/Drivers.v ===== *)
(** The construction of the storage client: the registry of drivers
    ([registry.go]), their constructors ([sshfs/sshfs_unix.go],
    [general/general_unix.go], [nop.go]), the configuration
    ([client_config.go]) and [NewClient] ([client.go]).

    A driver's configuration is an [interface{}]: a pointer to the
    configuration type of a driver, or something else (a nil, the generic value
    a decoder stores in an [interface{}]).  [os.Expand] of the standard library
    is modelled, since the validation of the sshfs arguments is built on it. *)

From S2P Require Import Prelude GoPath World Libpod BaseRuntime Expand Storage.
From stdpp Require Import base gmap strings list fin_maps numbers.
From Stdlib Require Import Ascii.

(** ** os.Expand *)

(** [os.getShellName]: no round brackets. *)
Definition os_getShellName (s : string) : string * nat :=
  match s with
  | EmptyString => (EmptyString, 0)
  | String c rest =>
      if decide (c = "{"%char) then bracketed "}"%char rest
      else if isShellSpecialVar c then (String c EmptyString, 1)
      else let name := take_alnum s in (name, String.length name)
  end.

(** The names passed to the mapping, and the text when it answers nothing. *)
Fixpoint os_expand_from (skip : nat) (s : string) : list string * string :=
  match s with
  | EmptyString => ([], EmptyString)
  | String c rest =>
      match skip with
      | S k => os_expand_from k rest
      | O =>
          if bool_decide (c = "$"%char) && negb (bool_decide (rest = EmptyString)) then
            let '(name, w) := os_getShellName rest in
            let '(refs, text) := os_expand_from w rest in
            if decide (name = EmptyString) then
              (refs, if decide (0 < w) then text else String c text)
            else (name :: refs, text)
          else
            let '(refs, text) := os_expand_from 0 rest in (refs, String c text)
      end
  end.

Definition os_Expand_refs (s : string) : list string := (os_expand_from 0 s).1.
Definition os_Expand_empty (s : string) : string := (os_expand_from 0 s).2.

(** [strings.Contains(s, p)] *)
Fixpoint strings_Contains (s p : string) : bool :=
  has_prefix p s || match s with EmptyString => false | String _ s' => strings_Contains s' p end.

(** ** Drivers *)

(** A configuration as the constructors see it. *)
Inductive DriverConfigValue :=
| NopConfig
| GeneralConfig (Command : string) (Args : list string) (Fuse : bool)
| SshfsConfig (Args : list string)
| Untyped.

Definition sshfs_blacklist : list string := ["password_stdin"; "slave"]%string.

(** The loop over the arguments after the second. *)
Fixpoint sshfs_check_args (args : list string) : option error :=
  match args with
  | [] => None
  | arg :: args =>
      match os_Expand_refs arg with
      | _ :: _ => Some (Errorf ("invalid arg " +:+ arg +:+ ": should not contain env ref"))
      | [] =>
          if List.existsb (strings_Contains arg) sshfs_blacklist
          then Some (Errorf ("option " +:+ arg +:+ " is not allowed"))
          else sshfs_check_args args
      end
  end.

Definition sshfs_New (cfg : DriverConfigValue) : error + Driver :=
  match cfg with
  | SshfsConfig args =>
      match args with
      | remote :: localPath :: others =>
          let refs0 := os_Expand_refs remote in
          if negb (forallb (λ s, bool_decide (s = StorageArgEnvRemotePath)) refs0) || (1 <? length refs0)
          then inl (Errorf "first arg invalid, must include exactly one $ARHAT_STORAGE_REMOTE_PATH")
          else
            let refs1 := os_Expand_refs localPath in
            if negb (forallb (λ s, bool_decide (s = StorageArgEnvMountpoint)) refs1) || (1 <? length refs1)
               || negb (bool_decide (os_Expand_empty localPath = ""%string))
            then inl (Errorf "second arg invalid, must be $ARHAT_STORAGE_MOUNTPOINT")
            else
              match sshfs_check_args others with
              | Some e => inl e
              | None => inr (SshfsDriver (args ++ ["-f"; "-o"; "reconnect"]%string))
              end
      | _ => inl (Errorf "expect at least 2 args")
      end
  | _ => inl (Errorf "invalid config")
  end.

Definition general_New (cfg : DriverConfigValue) : error + Driver :=
  match cfg with
  | GeneralConfig command args fuse => inr (GeneralDriver command args fuse)
  | _ => inl (Errorf "invalid config")
  end.

(** ** The registry *)

Record bundle := mkBundle {
  bd_f : DriverConfigValue → error + Driver;
  bd_cf : DriverConfigValue }.

(** [supportedDrivers] before any registration. *)
Definition supportedDrivers : gmap string bundle :=
  {[ ""%string := mkBundle (λ _, inr NopDriver) NopConfig ]}.

(** A nil function is [None]. *)
Definition Register (drivers : gmap string bundle) (name : string)
    (f : option (DriverConfigValue → error + Driver)) (cf : option DriverConfigValue) :
    gmap string bundle :=
  match f, cf with
  | Some f, Some cf => if decide (name = ""%string) then drivers else <[name := mkBundle f cf]> drivers
  | _, _ => drivers
  end.

(** The drivers that the command imports. *)
Definition imported_drivers : gmap string bundle :=
  Register (Register supportedDrivers "general" (Some general_New) (Some (GeneralConfig "" [] false)))
    "sshfs" (Some sshfs_New) (Some (SshfsConfig [])).

Definition driver_not_found (name : string) : error := Errorf ("driver " +:+ name +:+ " not found").

Definition NewConfig (drivers : gmap string bundle) (name : string) : error + DriverConfigValue :=
  match drivers !! name with
  | None => inl (driver_not_found name)
  | Some b => inr (bd_cf b)
  end.

Definition NewDriver (drivers : gmap string bundle) (name : string) (config : DriverConfigValue) :
    error + Driver :=
  match drivers !! name with
  | None => inl (driver_not_found name)
  | Some b => bd_f b config
  end.

(** ** The client and its configuration *)

Record ClientConfig := mkClientConfig {
  scc_Driver : string;
  scc_Config : DriverConfigValue;
  scc_StdoutFile : string;
  scc_StderrFile : string;
  scc_SuccessTimeWait : Z;
  scc_ExtraLookupPaths : list string }.

(** [FlagsForClient]: the names, and the defaults that declaring them stores. *)
Definition FlagsForClient (prefix : string) (config : ClientConfig) : list string * ClientConfig :=
  ([prefix +:+ "driver"; prefix +:+ "stdoutFile"; prefix +:+ "stderrFile";
    prefix +:+ "successTimeWait"; prefix +:+ "extraLookupPaths"],
   mkClientConfig "" (scc_Config config) "stdout" "stderr" (5 * 10 ^ 9)%Z []).

(** [unmarshalClientConfig]: only the configuration of the driver is set.  [V] is
    the type of decoded values, [as_string] the type assertion and [decode] the
    strict JSON decoder into a configuration type. *)
Section unmarshal.
Context {V : Type} (as_string : V → option string).
Context (decode : DriverConfigValue → option V → error + DriverConfigValue).

Definition unmarshalClientConfig (drivers : gmap string bundle) (m : gmap string V) (c : ClientConfig) :
    error + ClientConfig :=
  match m !! "driver"%string with
  | None => inr c
  | Some d =>
      match as_string d with
      | None => inl (Errorf "driver type must be a string")
      | Some driverName =>
          match NewConfig drivers driverName with
          | inl e => inl (Wrapf ("unknown driver " +:+ driverName) e)
          | inr zero =>
              match decode zero (m !! "config"%string) with
              | inl e => inl (Wrapf ("failed to resolve driver config " +:+ driverName) e)
              | inr config =>
                  inr (mkClientConfig (scc_Driver c) config (scc_StdoutFile c) (scc_StderrFile c)
                         (scc_SuccessTimeWait c) (scc_ExtraLookupPaths c))
              end
          end
      end
  end.
End unmarshal.

(** Where the output of the mount commands goes. *)
Inductive writer := ProcessStdout | ProcessStderr | Discard | OutputFile (path : string).

(** [strings.ToLower] on ASCII. *)
Definition lower (c : ascii) : ascii :=
  if in_range "A"%char c "Z"%char then ascii_of_nat (nat_of_ascii c + 32) else c.
Fixpoint ToLower (s : string) : string :=
  match s with
  | EmptyString => EmptyString
  | String c s => String (lower c) (ToLower s)
  end.

(** [OpenFile] is the environment's: the error of opening a path. *)
Section client.
Context (OpenFile : string → option error).

Definition prepareFile (def : writer) (f : string) : error + writer :=
  let l := ToLower f in
  if decide (l = ""%string) then inr def
  else if decide (l = "none"%string) then inr Discard
  else if decide (l = "stderr"%string) then inr ProcessStderr
  else if decide (l = "stdout"%string) then inr ProcessStdout
  else match OpenFile f with
       | Some e => inl e
       | None => inr (OutputFile f)
       end.

(** A client before its first mount, and the writers closed on the way: when the
    second file cannot be opened the first writer is closed. *)
Definition NewClient (d : Driver) (stdoutFile stderrFile : string) : (error + Driver) * list writer :=
  match prepareFile ProcessStdout stdoutFile with
  | inl e => (inl (Wrapf "failed to prepare stdout file" e), [])
  | inr out =>
      match prepareFile ProcessStderr stderrFile with
      | inl e => (inl (Wrapf "failed to prepare stderr file" e), [out])
      | inr _ => (inr d, [])
      end
  end.

Definition CreateClient (drivers : gmap string bundle) (c : ClientConfig) : (error + Driver) * list writer :=
  match NewDriver drivers (scc_Driver c) (scc_Config c) with
  | inl e => (inl e, [])
  | inr d => NewClient d (scc_StdoutFile c) (scc_StderrFile c)
  end.
End client.

(** ** Lemmas *)

Lemma imported_lookup name :
  imported_drivers !! name =
  if decide (name = "sshfs"%string) then Some (mkBundle sshfs_New (SshfsConfig []))
  else if decide (name = "general"%string) then Some (mkBundle general_New (GeneralConfig "" [] false))
  else if decide (name = ""%string) then Some (mkBundle (λ _, inr NopDriver) NopConfig)
  else None.
Proof.
  unfold imported_drivers, Register, supportedDrivers. rewrite !decide_False by done.
  destruct (decide (name = "sshfs"%string)) as [->|H1]; [by rewrite lookup_insert_eq|].
  rewrite lookup_insert_ne by done.
  destruct (decide (name = "general"%string)) as [->|H2]; [by rewrite lookup_insert_eq|].
  rewrite lookup_insert_ne by done.
  destruct (decide (name = ""%string)) as [->|H3]; [by rewrite lookup_singleton_eq|].
  by rewrite lookup_singleton_ne.
Qed.

(** Only the default driver can be made without a typed configuration. *)
Lemma untyped_driver name d : NewDriver imported_drivers name Untyped = inr d → name = ""%string ∧ d = NopDriver.
Proof.
  unfold NewDriver. rewrite imported_lookup. repeat case_decide; simpl; try done.
  by intros [= <-].
Qed.

(** A reference in round brackets is no reference for [os.Expand]. *)
Lemma os_Expand_round name s :
  os_expand_from 0 ("$(" +:+ name +:+ s) =
  (os_Expand_refs (name +:+ s), "$(" +:+ os_Expand_empty (name +:+ s)).
Proof.
  unfold os_Expand_refs, os_Expand_empty.
  change ("$(" +:+ name +:+ s) with (String "$"%char (String "("%char (name +:+ s))).
  cbn [os_expand_from]. rewrite bool_decide_eq_true_2 by done.
  rewrite bool_decide_eq_false_2 by done. cbn [negb andb].
  change (os_getShellName (String "("%char (name +:+ s))) with (""%string, 0).
  cbn [os_expand_from]. rewrite bool_decide_eq_false_2 by done. cbn [negb andb].
  by destruct (os_expand_from 0 (name +:+ s)).
Qed.

Lemma os_expand_plain s : has_dollar s = false → os_expand_from 0 s = ([], s).
Proof.
  induction s as [|c s IH]; [done|]. simpl. intros [Hc Hs]%orb_false_iff. rewrite Hc. simpl.
  by rewrite IH.
Qed.
