(* ===== verification/Conf.v ===== *)
(** Configuration: [pkg/constant], [pkg/conf], [pkg/version].

    The YAML decoder, the flag parser of cobra and the construction of the
    loggers are third-party code and parameters of [ReadConfig]. *)

From S2P Require Import Prelude GoPath World Libpod BaseRuntime Expand Storage Drivers.
From stdpp Require Import base gmap strings pretty list fin_maps numbers.

Local Open Scope Z_scope.

(** ** pkg/constant; durations are nanoseconds *)

Definition Second : Z := 10 ^ 9.
Definition Minute : Z := 60 * Second.

Definition DefaultAppConfigFile : string := "/etc/arhat/runtime-podman.yaml".
Definition DefaultExtensionHubURL : string := "unix:///var/run/arhat.sock".
Definition DefaultPodActionTimeout : Z := 10 * Minute.
Definition DefaultImageActionTimeout : Z := 15 * Minute.
Definition DefaultPodDataDir : string := "/var/lib/arhat/podman/data".
Definition DefaultPauseImage : string := "k8s.gcr.io/pause:3.3".
Definition DefaultPauseCommand : string := "/pause".

(** ** pkg/conf/runtime.go *)

Record RuntimeConfig := mkRuntimeConfig {
  rc_DataDir : string;
  rc_ManagementNamespace : string;
  rc_PauseImage : string;
  rc_PauseCommand : list string;
  rc_ImageActionTimeout : Z;
  rc_PodActionTimeout : Z;
  rc_AbbotRequestSubCmd : string }.

(** Declaring a flag stores its default in the field it is bound to; the flags
    are listed by name.  [ManagementNamespace] has no flag. *)
Definition FlagsForRuntime (prefix : string) (config : RuntimeConfig) : list string * RuntimeConfig :=
  ([prefix +:+ "dataDir"; prefix +:+ "pauseImage"; prefix +:+ "pauseCommand";
    prefix +:+ "imageActionTimeout"; prefix +:+ "podActionTimeout"; prefix +:+ "abbotRequestSubCmd"],
   {| rc_DataDir := DefaultPodDataDir;
      rc_ManagementNamespace := rc_ManagementNamespace config;
      rc_PauseImage := DefaultPauseImage;
      rc_PauseCommand := [DefaultPauseCommand];
      rc_ImageActionTimeout := DefaultImageActionTimeout;
      rc_PodActionTimeout := DefaultPodActionTimeout;
      rc_AbbotRequestSubCmd := "process" |}).

(** ** pkg/conf/app.go *)

Record LogConfig := mkLogConfig {
  log_Level : string; log_Format : string; log_KubeLog : bool; log_File : string }.

(** The flags of [tlshelper/config_flags.go]. *)
Definition FlagsForTLSConfig (prefix : string) : list string :=
  [prefix +:+ "enabled"; prefix +:+ "insecureSkipVerify"; prefix +:+ "caCert"; prefix +:+ "cert";
   prefix +:+ "key"; prefix +:+ "serverName"; prefix +:+ "keyLogFile"; prefix +:+ "cipherSuites";
   prefix +:+ "allowInsecureHashes"; prefix +:+ "preSharedKey.identityHint";
   prefix +:+ "preSharedKey.serverHintMapping"].

(** The values of the TLS settings are only handed on; they are not modelled. *)
Record AppConfig := mkAppConfig {
  app_Log : list LogConfig;
  app_ExtensionHubURL : string;
  app_MaxDataMessagePayload : Z }.

Record Config := mkConfig {
  cf_App : AppConfig;
  cf_Runtime : RuntimeConfig;
  cf_Storage : ClientConfig }.

Definition FlagsForApp (prefix : string) (config : AppConfig) : list string * AppConfig :=
  ([prefix +:+ "extensionHubURL"; prefix +:+ "maxDataMessagePayload"] ++
   FlagsForTLSConfig (prefix +:+ "tls."),
   {| app_Log := app_Log config;
      app_ExtensionHubURL := DefaultExtensionHubURL;
      app_MaxDataMessagePayload := 65535 |}).

(** ** pkg/conf/util.go *)

(** The mapping given to [envhelper.Expand]. *)
Definition config_mapping (env : gmap string string) (s origin : string) : string :=
  match env !! s with Some v => v | None => origin end.

(** [flags.Changed(name)] *)
Definition Changed (changed : list string) (name : string) : bool := bool_decide (name ∈ changed).

(** The flags of the command line override the first log destination; without
    any destination, the one of the command line is used. *)
Definition merge_log (changed : list string) (cli : LogConfig) (logs : list LogConfig) :
    list LogConfig :=
  match logs with
  | [] => [cli]
  | l :: rest =>
      let l := if Changed changed "log.format"
               then mkLogConfig (log_Level l) (log_Format cli) (log_KubeLog l) (log_File l) else l in
      let l := if Changed changed "log.level"
               then mkLogConfig (log_Level cli) (log_Format l) (log_KubeLog l) (log_File l) else l in
      let l := if Changed changed "log.file"
               then mkLogConfig (log_Level l) (log_Format l) (log_KubeLog l) (log_File cli) else l in
      l :: rest
  end.

Definition set_log (config : Config) (logs : list LogConfig) : Config :=
  mkConfig (mkAppConfig logs (app_ExtensionHubURL (cf_App config))
              (app_MaxDataMessagePayload (cf_App config)))
           (cf_Runtime config) (cf_Storage config).

Section ReadConfig.
Context {E : Type} `{!Env E}.
Notation M := (M (World E)).

Context (yaml_Unmarshal : string → Config → error + Config).
Context (ParseFlags : Config → error + Config).
Context (SetDefaultLogger : list LogConfig → option error).
Context (env : gmap string string) (changed : list string).

Definition from_sum {A} (x : error + A) : M A :=
  match x with inl e => fail e | inr a => mret a end.

(** The configuration file, expanded and decoded over the defaults. *)
Definition load_file (configFile : string) (config : Config) : M Config :=
  res ← try (invoke (ReadFile configFile));
  configBytes ← (match res with
                 | inr b => mret b
                 | inl e => if Changed changed "config"
                            then fail (Wrapf ("failed to read config file " +:+ configFile) e)
                            else mret ""%string
                 end);
  if decide (configBytes = ""%string) then mret config
  else wrap ("failed to unmarshal config file " +:+ configFile)
         (from_sum (yaml_Unmarshal (Expand (config_mapping env) configBytes) config)).

Definition ReadConfig (configFile : string) (cliLogConfig : LogConfig) (config : Config) :
    M (Ctx * Config) :=
  config ← load_file configFile config;
  let config := set_log config (merge_log changed cliLogConfig (app_Log (cf_App config))) in
  config ← from_sum (ParseFlags config);
  match SetDefaultLogger (app_Log (cf_App config)) with
  | Some e => fail (Wrapf "failed to set default logger" e)
  | None =>
      appCtx ← with_cancel Background;
      mret (appCtx, config)
  end.
End ReadConfig.

(** ** The signal goroutine of [ReadConfig] *)

Inductive signal := Interrupt | SIGTERM_ | OtherSignal.
Inductive signal_effect := CancelApp | ExitProcess.

Global Instance signal_effect_eq_dec : EqDecision signal_effect.
Proof. solve_decision. Defined.

(** One signal: the new [exitCount] and the effect. *)
Definition on_signal (exitCount : nat) (sig : signal) : nat * list signal_effect :=
  match sig with
  | Interrupt | SIGTERM_ =>
      let exitCount := S exitCount in
      (exitCount, if decide (exitCount = 1%nat) then [CancelApp] else [ExitProcess])
  | OtherSignal => (exitCount, [])
  end.

(** The effects of a sequence of signals; [os.Exit] ends the process. *)
Fixpoint run_signals (exitCount : nat) (sigs : list signal) : list signal_effect :=
  match sigs with
  | [] => []
  | s :: sigs =>
      let '(n, eff) := on_signal exitCount s in
      if decide (ExitProcess ∈ eff) then eff else eff ++ run_signals n sigs
  end.

(** ** pkg/version *)

Record versionOptions := mkVersionOptions {
  vo_branch : bool; vo_commit : bool; vo_tag : bool; vo_arch : bool;
  vo_goVersion : bool; vo_goCompilerPlatform : bool }.

(** The variables set by the linker, and [runtime.Version()]. *)
Record buildInfo := mkBuildInfo {
  bi_branch : string; bi_commit : string; bi_tag : string; bi_arch : string;
  bi_goVersion : string; bi_goCompilerPlatform : string }.

Definition newline : string := String (Ascii.ascii_of_nat 10) "".

(** The getters of the variables. *)
Definition Branch (b : buildInfo) : string := bi_branch b.
Definition Commit (b : buildInfo) : string := bi_commit b.
Definition Tag (b : buildInfo) : string := bi_tag b.
Definition Arch (b : buildInfo) : string := bi_arch b.
Definition GoVersion (b : buildInfo) : string := bi_goVersion b.
Definition GoCompilerPlatform (b : buildInfo) : string := bi_goCompilerPlatform b.

Definition Version (b : buildInfo) : string :=
  "branch: " +:+ Branch b +:+ newline +:+
  "commit: " +:+ Commit b +:+ newline +:+
  "tag: " +:+ Tag b +:+ newline +:+
  "arch: " +:+ Arch b +:+ newline +:+
  "goVersion: " +:+ GoVersion b +:+ newline +:+
  "goCompilerPlatform: " +:+ GoCompilerPlatform b +:+ newline.

(** What [version] prints: the first requested field, or all of them. *)
Definition NewVersionCmd_Run (b : buildInfo) (opt : versionOptions) : string :=
  if vo_branch opt then Branch b
  else if vo_commit opt then Commit b
  else if vo_tag opt then Tag b
  else if vo_arch opt then Arch b
  else if vo_goVersion opt then GoVersion b
  else if vo_goCompilerPlatform opt then GoCompilerPlatform b
  else Version b.

(** ** Lemmas *)

Definition terminating (s : signal) : bool :=
  match s with OtherSignal => false | _ => true end.

Lemma run_signals_spec n sigs :
  run_signals n sigs =
  match n, length (List.filter terminating sigs) with
  | _, O => []
  | O, 1%nat => [CancelApp]
  | O, _ => [CancelApp; ExitProcess]
  | S _, _ => [ExitProcess]
  end.
Proof.
  revert n. induction sigs as [|s sigs IH]; intros n; [by destruct n|].
  destruct (terminating s) eqn:Hs; cycle 1.
  { destruct s; try done. apply IH. }
  assert (length (List.filter terminating (s :: sigs)) = S (length (List.filter terminating sigs)))
    as -> by (simpl; by rewrite Hs).
  destruct n as [|n].
  - assert (run_signals 0 (s :: sigs) = CancelApp :: run_signals 1 sigs) as ->
      by (destruct s; [reflexivity|reflexivity|discriminate]).
    rewrite IH. by destruct (length (List.filter terminating sigs)).
  - destruct s; [reflexivity|reflexivity|discriminate].
Qed.

Lemma merge_log_head changed cli logs :
  ∃ l rest, merge_log changed cli logs = l :: rest ∧
    (Changed changed "log.level" = true → log_Level l = log_Level cli) ∧
    (Changed changed "log.format" = true → log_Format l = log_Format cli) ∧
    (Changed changed "log.file" = true → log_File l = log_File cli) ∧
    rest = tail logs.
Proof.
  destruct logs as [|l logs]; simpl; [by eexists _, _|].
  eexists _, _. split; [done|].
  by destruct (Changed changed "log.format"), (Changed changed "log.level"), (Changed changed "log.file").
Qed.
