(* ===== verification/Samples.v ===== *)
(** Concrete requests, runtimes and worlds on which the theorems are
    instantiated. *)

From S2P Require Import Prelude GoPath Proto Labels World Libpod Mem BaseRuntime Storage Find Network Translate Container Pod Conf.
From stdpp Require Import base gmap strings pretty list fin_maps numbers.

Definition sample_base : BaseRuntime :=
  NewBaseRuntime TODO "/data" 1 1 "podman" "v2" "linux" "" "amd64" "".

Definition sample_runtime : libpodRuntime :=
  {| rt_ctx := TODO; rt_base := sample_base; rt_pauseImage := "pause"; rt_pauseCommand := ["/pause"%string];
     rt_abbotSubCmd := ""; rt_driver := NopDriver |}.

Definition sample_network : PodNetworkSpec :=
  {| nw_Nameservers := ["1.1.1.1"%string]; nw_DnsSearches := []; nw_DnsOptions := [];
     nw_Hosts := ∅; nw_AbbotRequestBytes := "req" |}.

Definition sample_spec (name : string) : ContainerSpec :=
  {| cs_Name := name; cs_Image := "img"; cs_WorkingDir := ""; cs_Stdin := false; cs_StdinOnce := false;
     cs_Tty := false; cs_Command := []; cs_Args := ["serve"%string]; cs_Envs := ∅; cs_Mounts := ∅;
     cs_ReadinessCheck := None; cs_LivenessCheck := None; cs_Security := None;
     cs_HookPostStart := None |}.

(** A request on the host network with two containers. *)
Definition sample_ensure : PodEnsureCmd :=
  {| pe_PodUid := "u1"; pe_Namespace := "ns"; pe_Name := "web"; pe_RestartPolicy := RESTART_ALWAYS;
     pe_HostIpc := false; pe_HostNetwork := true; pe_HostPid := false; pe_SharePid := false;
     pe_Wait := false; pe_Hostname := ""; pe_Containers := [sample_spec "app"; sample_spec "side"];
     pe_Network := Some sample_network; pe_Volumes := None; pe_Security := None; pe_Labels := ∅ |}.

(** Another pod, with its pause container. *)
Definition other_labels : strmap :=
  {[ ContainerLabelPodUID := "u2"%string; ContainerLabelPodContainer := ContainerNamePause;
     ContainerLabelPodContainerRole := ContainerRoleInfra; ContainerLabelPodNamespace := "ns"%string;
     ContainerLabelPodName := "db"%string; ContainerLabelHostNetwork := "true"%string ]}.

Definition other_pause : Container := mkContainer "c2" "ns.db._pause" other_labels "p2" [] "/log".
Definition other_work : Container :=
  mkContainer "c3" "ns.db.app" (<[ContainerLabelPodContainer := "app"%string]> other_labels) "p2" [] "/log".
Definition other_sample_pod : Pod :=
  mkPod "p2" "ns.db" {[ ContainerLabelPodUID := "u2"%string; ContainerLabelPodName := "db"%string ]}.

(** The engine that knows the other pod; calls in [faults] fail. *)
Definition sample_world (faults : list nat) : World Mem :=
  mem_world [other_pause; other_work] [other_sample_pod] faults.

(** The same, where every container is found exited after its start. *)
Definition exiting_world : World Mem :=
  mkWorld
    (mkMem [other_pause; other_work] [other_sample_pod] 0 0 [] ContainerStateRunning true
       (mkExecResult 0 None "" "") (Some (mkImageConfig "" "" ["/app"%string] [] [])) [] [] "")
    [] 0 ∅ (mkStorageClient false ∅ ∅).

(** The same, with a digest per image, two addresses per container and a
    container log of two lines. *)
Definition service_world : World Mem :=
  let line (text : string) :=
    ("2016-10-06T00:17:09Z stdout F " +:+ text +:+ String (Ascii.ascii_of_nat 10) "")%string in
  mkWorld
    (mkMem [other_pause; other_work] [other_sample_pod] 0 0 [] ContainerStateRunning false
       (mkExecResult 0 None "" "") (Some (mkImageConfig "" "" ["/app"%string] [] []))
       ["pause@sha256:abc"%string] [mkIPNet "127.0.0.1" true 8; mkIPNet "10.0.0.7" false 24]
       (line "first" +:+ line "second"))
    [] 0 ∅ (mkStorageClient false ∅ ∅).

(** A pod of the sample request without any container. *)
Definition headless_sample_pod : Pod := mkPod "p1" "ns.web" (pod_labels sample_ensure).
Definition headless_world : World Mem := mem_world [] [headless_sample_pod] [].

Definition delete_other (containers : list string) : PodDeleteCmd :=
  {| pd_PodUid := "u2"; pd_Containers := containers; pd_GraceTime := 0; pd_HookPreStop := ∅ |}.

Definition list_all : PodListCmd := {| pl_All := true; pl_Names := [] |}.
Definition list_db : PodListCmd := {| pl_All := false; pl_Names := ["db"%string] |}.

(** What the sample request does. *)
Example sample_ensure_runs :
  match EnsurePod sample_runtime TODO sample_ensure (sample_world []) with
  | (Ok msg, w) => psm_Uid msg = "u1"%string ∧ dom (psm_Containers msg) = {["app"%string; "side"%string]} ∧
                   length (wctrs w) = 5 ∧ length (wpods w) = 2
  | _ => False
  end.
Proof. vm_compute. done. Qed.

(** Facts about the sample worlds that several witnesses need. *)

Lemma sample_has_pod faults : NoDup (pod_ID <$> wpods (sample_world faults)) ∧
                              other_sample_pod ∈ wpods (sample_world faults).
Proof. split; [apply NoDup_singleton|by left]. Qed.

Lemma other_pause_matches : ctr_matches (container_filter "u2" ContainerNamePause) other_pause.
Proof. constructor. vm_compute. reflexivity. Qed.

Definition sample_config : RuntimeConfig :=
  (FlagsForRuntime "runtime." (mkRuntimeConfig "" "arhat" "" [] 0 0 "")).2.
