(* ===== verification/Runtime.v ===== *)
(** Construction and start of the runtime: [pkg/runtime/runtime.go]. *)

From S2P Require Import Prelude GoPath Proto Labels World Libpod Mem BaseRuntime Storage Find Network Translate Container ContainerProofs Pod PodProofs Conf.
From stdpp Require Import base gmap strings pretty list fin_maps numbers.

(** The libpod options of [NewPodmanRuntime], in order. *)
Definition runtime_options (config : RuntimeConfig) : list (string * string) :=
  let pauseCmd := match rc_PauseCommand config with
                  | [] => DefaultPauseCommand
                  | c :: _ => c
                  end in
  [("WithNamespace", rc_ManagementNamespace config);
   ("WithDefaultInfraImage", rc_PauseImage config);
   ("WithDefaultInfraCommand", pauseCmd);
   ("WithDefaultTransport", "docker://")]%string.

Section runtime.
Context {E : Type} `{!Env E}.
Notation M := (M (World E)).

(** The libpod runtime; the answer tells whether it has an image runtime. *)
Definition new_libpod (ctx : Ctx) (config : RuntimeConfig) : M bool :=
  env ← perform (LookupEnv "ARHAT_LIBPOD_CONFIG");
  match env with
  | Some configFile =>
      if negb (bool_decide (configFile = ""%string)) then
        wrap "failed to load custom libpod config" (invoke (Libpod_NewConfig configFile));;
        invoke (Libpod_NewRuntime ctx (Some configFile) [])
      else invoke (Libpod_NewRuntime ctx None (runtime_options config))
  | None => invoke (Libpod_NewRuntime ctx None (runtime_options config))
  end.

(** [version] is the version of libpod, [arch] the architecture of the build. *)
Definition NewPodmanRuntime (parent : Ctx) (driver : Driver) (config : RuntimeConfig)
    (version arch : string) : M libpodRuntime :=
  ctx ← with_cancel parent;
  with_defer
    (imageClient ← new_libpod ctx config;
     if negb imageClient then fail (Errorf "empty image client")
     else mret {| rt_ctx := ctx;
                  rt_base := NewBaseRuntime ctx (rc_DataDir config) (rc_ImageActionTimeout config)
                               (rc_PodActionTimeout config) "podman" version "linux" "" arch "";
                  rt_pauseImage := rc_PauseImage config;
                  rt_pauseCommand := rc_PauseCommand config;
                  rt_abbotSubCmd := "";
                  rt_driver := driver |})
    (λ _, cancel_ctx ctx).

(** ** InitRuntime *)

(** Start the abbot container if there is one. *)
Definition init_abbot : M unit :=
  res ← try findAbbotContainer;
  match res with
  | inl _ => mret ()
  | inr abbotCtr =>
      ignore (invoke (Ctr_Sync abbotCtr));;
      status ← wrap "failed to inspect abbot container state" (invoke (Ctr_State abbotCtr));
      wrap "failed to start abbot container"
        (match status with
         | ContainerStatePaused => invoke (Ctr_Unpause abbotCtr)
         | ContainerStateRunning => mret ()
         | _ => invoke (Ctr_Start abbotCtr true)
         end)
  end.

(** Restore the network of the first infra container. *)
Definition restore_network (r : libpodRuntime) (ctx : Ctx) (containers : list Container) : M unit :=
  match List.filter (λ c, bool_decide (get (ctr_Labels c) ContainerLabelPodContainerRole
                                       = ContainerRoleInfra)) containers with
  | [] => mret ()
  | ctr :: _ =>
      ignore (invoke (Ctr_Sync ctr));;
      pid ← pid_of ctr;
      ignore (net_Restore r ctx pid (ctr_ID ctr))
  end.

Definition init_pod (r : libpodRuntime) (ctx : Ctx) (pod : Pod) : M unit :=
  match pod_Labels pod !! ContainerLabelPodUID with
  | None => ignore (deletePod r TODO pod)
  | Some _ =>
      err ← perform (Pod_Start pod);
      match err with
      | Some _ => mret ()
      | None =>
          if IsHostNetwork (pod_Labels pod) then mret ()
          else
            res ← try (invoke (Pod_AllContainers pod));
            match res with
            | inl _ => mret ()
            | inr containers => restore_network r ctx containers
            end
      end
  end.

Definition InitRuntime (r : libpodRuntime) : M unit :=
  ctx ← ActionContext (rt_base r) (rt_ctx r);
  with_defer
    (init_abbot;;
     allPods ← Pods (λ _, true);
     for_each allPods (init_pod r ctx))
    (λ _, cancel_ctx ctx).
End runtime.

Section specs.
Context {E : Type} `{!Env E, !Store E, !LibpodLaws E}.
Notation W := (World E).

(** What a new runtime is made of, and that its context is already cancelled. *)
Lemma wp_NewPodmanRuntime parent driver config v arch (w : W) :
  wp (NewPodmanRuntime parent driver config v arch) (λ o w', same_store w w' ∧
    match o with
    | Ok r => ctx_canceled (w_canceled w') (rt_ctx r) = true ∧
              rt_pauseImage r = rc_PauseImage config ∧
              rt_pauseCommand r = rc_PauseCommand config ∧
              br_dataDir (rt_base r) = rc_DataDir config ∧
              rt_abbotSubCmd r = ""%string
    | Err _ => True
    | _ => False
    end) w.
Proof.
  apply wp_and.
  { apply wp_keeps. unfold NewPodmanRuntime, new_libpod. keeps_solve. }
  unfold NewPodmanRuntime. apply wp_bind. unfold wp at 1, with_cancel. simpl.
  set (c := WithCancel parent (w_ctxs w)). set (w1 := mkWorld _ _ _ _ _). clearbody w1.
  apply wp_with_defer, wp_bind.
  eapply wp_mono; [|apply (wp_returns false); unfold new_libpod; returns_solve].
  intros [b|e|p|] w2 Hr; simpl; [|done|done..].
  destruct b; simpl; [|done]. unfold wp. simpl. split; [|done].
  apply orb_true_iff. left. apply bool_decide_eq_true. set_solver.
Qed.

Lemma keeps_init_abbot {R : relation W} `{!QuietFrame R} : keeps R init_abbot.
Proof. unfold init_abbot. keeps_solve. Qed.

Lemma keeps_restore_network {R : relation W} `{!QuietFrame R} r ctx l : keeps R (restore_network r ctx l).
Proof. unfold restore_network. keeps_solve. Qed.

Lemma keeps_ActionContext {R : relation W} `{!QuietFrame R} r ctx : keeps R (ActionContext r ctx).
Proof. apply keeps_with_cancel. Qed.

#[local] Hint Resolve keeps_init_abbot keeps_restore_network : keeps.

(** [init_pod] removes nothing but a pod without a UID. *)
Lemma keeps_init_pod q r ctx p (w0 : W) :
  is_Some (pod_Labels q !! ContainerLabelPodUID) → has_pod q w0 → p ∈ wpods w0 →
  keeps (undisturbed q) (init_pod r ctx p).
Proof.
  intros Hq Hw Hp. unfold init_pod. destruct (pod_Labels p !! ContainerLabelPodUID) as [u|] eqn:Hl.
  - apply keeps_undisturbed. keeps_solve.
  - apply keeps_ignore; [apply _|]. apply keeps_undisturbed_deletePod.
    eapply has_pod_neq; [exact Hw|done|]. intros ->. destruct Hq as [u Hu]. congruence.
Qed.

(** [InitRuntime] leaves every pod that carries a UID alone. *)
Lemma wp_InitRuntime q r (w : W) :
  is_Some (pod_Labels q !! ContainerLabelPodUID) → has_pod q w →
  wp (InitRuntime r) (λ _ w', undisturbed q w w') w.
Proof.
  intros Hq Hw. unfold InitRuntime. apply wp_bind.
  eapply wp_mono; [|apply wp_and; [apply (wp_keeps same_store), keeps_ActionContext|
    apply wp_returns, returns_with_cancel]].
  intros [ctx|e|p|] w1 [Hs1 Hr1]; simpl; [|by apply undisturbed_same|done..].
  apply wp_with_defer.
  eapply (wp_mono _ (λ _ w', undisturbed q w w')).
  { intros o w2 Hu. destruct o; [..|done];
      (eapply wp_mono; [|apply (wp_keeps same_store); keeps_solve]);
      intros o' w3 Hs3; destruct o'; (etrans; [done|by apply undisturbed_same]). }
  apply wp_bind. eapply wp_mono; [|apply (wp_keeps same_store), keeps_init_abbot].
  intros [[]|e|p|] w2 Hs2; simpl; try (apply undisturbed_same; by etrans).
  apply wp_bind. eapply wp_mono; [|apply wp_Pods].
  intros [l|e|p|] w3 [Hs3 Hl]; simpl; try (apply undisturbed_same; do 2 (etrans; [done|]); done).
  assert (same_store w w3) as Hs by (do 2 (etrans; [done|]); done).
  unfold for_each. eapply (wp_fold_m (λ rest _ w', undisturbed q w w' ∧ rest ⊆ wpods w)).
  - split; [by apply undisturbed_same|]. subst l.
    assert (wpods w2 = wpods w) as Hp by (destruct Hs1 as [_ Hp1], Hs2 as [_ Hp2]; congruence).
    rewrite Hp. intros p [? _]%elem_of_bfilter. done.
  - intros p rest [] w4 [Hu Hrest].
    eapply wp_mono; [|apply wp_keeps, (keeps_init_pod q r ctx p w); [done..|set_solver]].
    intros o w5 Hu5. assert (undisturbed q w w5) by by etrans.
    destruct o; simpl; [split; [done|set_solver]|done..].
  - intros [] w4 [Hu _]. done.
Qed.
End specs.
