(* ===== verification/App.v ===== *)
(** The command: [pkg/cmd/runtime-podman.go] and [cmd/runtime-podman/main.go].

    The extension hub (TLS, codec, client, controller) is reached through the
    environment.  The main loop has no end of its own: [fuel] bounds the number
    of connections that are considered. *)

From S2P Require Import Prelude GoPath Proto Labels World Libpod Mem BaseRuntime Storage Find Network Translate Container ContainerProofs Pod PodProofs Drivers Conf Runtime.
From stdpp Require Import base gmap strings pretty list fin_maps numbers.

(** The persistent flags of the command: [config] and the flag sets of the
    application, the runtime and the storage client. *)
Definition command_flags (config : Config) : list string :=
  "config"%string :: (FlagsForApp "" (cf_App config)).1 ++
  (FlagsForRuntime "runtime." (cf_Runtime config)).1 ++ (FlagsForClient "storage." (cf_Storage config)).1.

Section app.
Context {E : Type} `{!Env E}.
Notation M := (M (World E)).

(** [for { select { case <-appCtx.Done(): return nil; default: ... } }] *)
Fixpoint serve (fuel : nat) (appCtx : Ctx) : M unit :=
  match fuel with
  | O => hang
  | S fuel =>
      done ← ctx_done appCtx;
      if done : bool then mret ()
      else perform Hub_ProcessNewStream;; serve fuel appCtx
  end.

(** The steps before the loop.  [OpenFile] opens the output files of the storage
    client. *)
Definition setup (OpenFile : string → option error) (appCtx : Ctx) (config : Config)
    (version arch : string) : M libpodRuntime :=
  wrap "failed to create tls config" (invoke (Hub_Step "tls"));;
  ok ← perform Hub_Codec;
  if negb ok then fail (WrapNil "protobuf codec not found")
  else
    wrap "failed to create extension client"
      (invoke (Hub_Step (app_ExtensionHubURL (cf_App config))));;
    d ← from_sum (CreateClient OpenFile imported_drivers (cf_Storage config)).1;
    rt ← NewPodmanRuntime appCtx d (cf_Runtime config) version arch;
    wrap "failed to create extension controller" (invoke (Hub_Step "controller"));;
    wrap "failed to start controller" (invoke (Hub_Step "start"));;
    mret rt.

Definition run (fuel : nat) (OpenFile : string → option error) (appCtx : Ctx) (config : Config)
    (version arch : string) : M unit :=
  setup OpenFile appCtx config version arch;;
  serve fuel appCtx.

(** ** The command line

    cobra parses the arguments and calls, for the selected command, first the
    [PersistentPreRunE] of the root and then the command's own function. *)

Inductive selected_command := RootCmd | VersionCmd (opt : versionOptions).

(** [PersistentPreRunE]: the version command needs no configuration. *)
Definition PersistentPreRunE (sel : selected_command) (read : M (Ctx * Config)) :
    M (option (Ctx * Config)) :=
  match sel with
  | VersionCmd _ => mret None
  | RootCmd => x ← read; mret (Some x)
  end.

(** [rootCmd.Execute()]; what the version command prints is its answer. *)
Definition Execute (fuel : nat) (OpenFile : string → option error) (b : buildInfo) (version arch : string)
    (read : M (Ctx * Config)) (sel : selected_command) : M (option string) :=
  x ← PersistentPreRunE sel read;
  match sel, x with
  | VersionCmd opt, _ => mret (Some (NewVersionCmd_Run b opt))
  | RootCmd, Some (appCtx, config) => run fuel OpenFile appCtx config version arch;; mret None
  | RootCmd, None => crash NilDereference
  end.

(** [main]: the exit code.  [reexec] tells whether the process was started again
    by a storage library, which then did its work in [reexec.Init]. *)
Definition main (reexec : bool) (fuel : nat) (OpenFile : string → option error) (b : buildInfo)
    (version arch : string) (read : M (Ctx * Config)) (args : error + selected_command) : M nat :=
  if reexec then mret 0%nat
  else
    res ← try (sel ← from_sum args; Execute fuel OpenFile b version arch read sel);
    match res with
    | inl _ => mret 1%nat
    | inr _ => mret 0%nat
    end.
End app.

Section specs.
Context {E : Type} `{!Env E}.
Notation W := (World E).

(** The loop ends as soon as the application context is cancelled, and never
    with an error. *)
Lemma serve_canceled fuel c (w : W) :
  ctx_canceled (w_canceled w) c = true → serve (S fuel) c w = (Ok (), w).
Proof. intros Hc. simpl. unfold mbind, M_bind, ctx_done. by rewrite Hc. Qed.

Lemma serve_no_error fuel c (w : W) e : (serve fuel c w).1 ≠ Err e.
Proof.
  revert w. induction fuel as [|fuel IH]; intros w; simpl; [done|].
  unfold mbind, M_bind. unfold ctx_done.
  destruct (ctx_canceled _ _); [done|]. unfold perform.
  destruct (handle (Ctx_Expired c) (w_env w)) as [[] s]; [done|].
  simpl. destruct (handle Hub_ProcessNewStream s) as [x s']. apply IH.
Qed.
End specs.
