(* ===== verification/StorageProofs.v ===== *)
(** The storage client: what its mutex and its table of mounts go through, and
    how often pod data is removed. *)

From S2P Require Import Prelude GoPath World Libpod Mem BaseRuntime Expand Storage.
From stdpp Require Import base gmap strings list fin_maps numbers.

Section client.
Context {E : Type} `{!Env E}.
Notation W := (World E).

Definition unlocked (w : W) : Prop := sto_locked (w_storage w) = false.
Definition mounts (w : W) : gmap string (list string) := sto_mounted (w_storage w).

(** The mount table outside one mount point. *)
Definition same_elsewhere (mp : string) (w w' : W) : Prop :=
  delete mp (mounts w') = delete mp (mounts w).

Lemma wp_perform_storage {X} (e : Ev X) (w : W) :
  wp (perform e) (λ o w', w_storage w' = w_storage w ∧ ∃ x, o = Ok x) w.
Proof. apply wp_perform. eauto. Qed.

Lemma wp_invoke_storage {X} (e : Ev (string + X)) (w : W) :
  wp (invoke e) (λ o w', w_storage w' = w_storage w ∧ returns_outcome o) w.
Proof.
  unfold invoke. apply wp_bind. eapply wp_mono; [|apply wp_perform_storage].
  intros o w' [Hs [[d|x] ->]]; simpl; [by apply wp_fail|by apply wp_ret].
Qed.

Lemma lock_unlocked (w : W) : unlocked w →
  lock w = (Ok (), mkWorld (w_env w) (w_trace w) (w_ctxs w) (w_canceled w)
                     (mkStorageClient true (mounts w) (sto_timers (w_storage w)))).
Proof. unfold unlocked, lock, mbind, M_bind, get_storage. simpl. by intros ->. Qed.

Lemma lock_locked (w : W) : sto_locked (w_storage w) = true → lock w = (Hang, w).
Proof. unfold lock, mbind, M_bind, get_storage. simpl. by intros ->. Qed.

Definition with_sto (w : W) (s : StorageClient) : W :=
  mkWorld (w_env w) (w_trace w) (w_ctxs w) (w_canceled w) s.

Lemma wp_set_mounted f (Q : outcome unit → W → Prop) w :
  Q (Ok ()) (with_sto w (mkStorageClient (sto_locked (w_storage w)) (f (mounts w))
                           (sto_timers (w_storage w)))) → wp (set_mounted f) Q w.
Proof. done. Qed.

Lemma wp_unlock (Q : outcome unit → W → Prop) w :
  Q (Ok ()) (with_sto w (mkStorageClient false (mounts w) (sto_timers (w_storage w)))) →
  wp unlock Q w.
Proof. done. Qed.

Lemma wp_tq_Find mp (w : W) :
  wp (tq_Find mp) (λ o w', sto_locked (w_storage w') = sto_locked (w_storage w) ∧
    mounts w' = mounts w ∧ ∃ b, o = Ok b) w.
Proof.
  unfold tq_Find. apply wp_bind. unfold wp at 1, get_storage. simpl.
  case_decide; [|apply wp_ret; eauto]. apply wp_bind.
  eapply wp_mono; [|apply wp_perform_storage]. intros o w' [Hs [b ->]]. simpl.
  unfold mounts. rewrite <- Hs. destruct b; [|apply wp_ret; eauto].
  unfold set_timers. apply wp_bind, wp_bind. unfold wp, get_storage, set_storage. simpl. eauto.
Qed.

Lemma wp_mount_wait mp (w : W) :
  unlocked w →
  wp (mount_wait mp) (λ o w', unlocked w' ∧ same_elsewhere mp w w' ∧ returns_outcome o) w.
Proof.
  intros Hu. unfold mount_wait. apply wp_bind. eapply wp_mono; [|apply wp_perform_storage].
  intros o w1 [Hs [race ->]]. simpl. unfold same_elsewhere, unlocked, mounts in *. rewrite <- Hs in *.
  destruct race as [|[d|]|]; unfold set_timers, set_mounted, wp, mbind, M_bind, get_storage,
    set_storage, lock, unlock, fail; simpl; rewrite ?Hu; simpl; rewrite ?Hu; simpl;
    rewrite ?delete_delete_eq; done.
Qed.

(** [Mount] from an unlocked client, with a mount command to run: the mutex is
    free again, and only the entry of the mount point can change. *)
Lemma wp_Mount d rp mp (w : W) :
  unlocked w → GetMountCmd d rp mp ≠ [] →
  wp (Mount d rp mp) (λ o w', unlocked w' ∧ same_elsewhere mp w w' ∧ returns_outcome o ∧
    (is_Some (mounts w !! mp) → o = Err ErrMountpointInUse ∧ mounts w' = mounts w)) w.
Proof.
  intros Hu Hcmd. unfold Mount. apply wp_bind. unfold wp at 1. rewrite lock_unlocked by done. simpl.
  set (w1 := mkWorld _ _ _ _ _). assert (mounts w1 = mounts w) as Hm1 by done.
  apply wp_bind. unfold wp at 1, get_storage. simpl. fold (mounts w).
  case_decide as Hin.
  { unfold unlock, wp, mbind, M_bind, get_storage, set_storage, fail. simpl. done. }
  apply wp_bind. eapply wp_mono; [|apply wp_tq_Find]. intros o w2 (Hl2 & Hm2 & [b ->]). simpl.
  assert (mounts w2 = mounts w) as Hm by congruence. clear Hm1 Hm2.
  destruct b.
  { unfold unlock, wp, mbind, M_bind, get_storage, set_storage, fail. simpl.
    unfold same_elsewhere, mounts in *. rewrite Hm. done. }
  destruct (GetMountCmd d rp mp) as [|c0 cmd] eqn:Hc; [done|].
  apply wp_bind, wp_try. eapply wp_mono; [|apply wp_invoke_storage].
  intros [[]|e|p|] w3 [Hs3 Hr3]; simpl; try done.
  - unfold set_timers, set_mounted, unlock, wp, mbind, M_bind, get_storage, set_storage. simpl.
    set (w4 := mkWorld _ _ _ _ _).
    match goal with |- context [mount_wait mp w4] => change (wp (mount_wait mp)
      (λ o w', unlocked w' ∧ same_elsewhere mp w w' ∧ returns_outcome o ∧
        (is_Some (mounts w !! mp) → o = Err ErrMountpointInUse ∧ mounts w' = mounts w)) w4) end.
    eapply wp_mono; [|by apply wp_mount_wait]. intros o w5 (H1 & H2 & H3).
    split; [done|]. split; [|split; [done|by intros]].
    unfold same_elsewhere in *. rewrite H2. unfold w4, mounts in *. simpl.
    rewrite Hs3, Hm. by rewrite delete_insert_eq.
  - unfold unlock, wp, mbind, M_bind, get_storage, set_storage, fail. simpl.
    unfold same_elsewhere, mounts in *. simpl. rewrite Hs3, Hm. done.
Qed.

Lemma wp_GetUnmountCmd d mp (w : W) :
  wp (GetUnmountCmd d mp) (λ o w', w_storage w' = w_storage w ∧ ∃ c, o = Ok c) w.
Proof.
  assert (∀ fuse, wp (unmount_cmd fuse mp) (λ o w', w_storage w' = w_storage w ∧ ∃ c, o = Ok c) w) as H.
  { intros fuse. unfold unmount_cmd, LookupUnmountUtil. apply wp_bind, wp_try.
    eapply wp_mono; [|apply wp_invoke_storage]. intros [b|e|p|] w1 [Hs Hr]; simpl; try done;
      apply wp_ret; eauto. }
  destruct d; simpl; [apply wp_ret; eauto|apply H|apply H].
Qed.

(** [Unmount] from an unlocked client: the mutex is free again, the mount point
    is no longer recorded, the others are. *)
Lemma wp_Unmount d mp (w : W) :
  unlocked w →
  wp (Unmount d mp) (λ o w', unlocked w' ∧ mounts w' = delete mp (mounts w) ∧ returns_outcome o ∧
    (mounts w !! mp = None → o = Ok ())) w.
Proof.
  intros Hu. unfold Unmount. apply wp_bind. unfold wp at 1. rewrite lock_unlocked by done. simpl.
  apply wp_bind. unfold wp at 1, get_storage. simpl. fold (mounts w).
  case_decide as Hin; cycle 1.
  { unfold unlock, wp, mbind, M_bind, get_storage, set_storage. simpl.
    apply eq_None_not_Some in Hin. unfold unlocked, mounts in *. simpl.
    rewrite delete_id by done. done. }
  assert (mounts w !! mp = None → False) as Hno by (intros H; rewrite H in Hin; by destruct Hin).
  apply wp_bind, wp_set_mounted. simpl. apply wp_bind, wp_unlock. simpl.
  set (w1 := with_sto _ _). apply wp_bind. eapply wp_mono; [|apply wp_GetUnmountCmd].
  intros out w2 [Hs2 [cmd ->]]. simpl.
  assert (unlocked w2 ∧ mounts w2 = delete mp (mounts w)) as [Hu2 Hm2]
    by (unfold unlocked, mounts; by rewrite Hs2).
  destruct cmd as [|c cmd].
  { apply wp_fail. split; [done|]. split; [done|]. split; [done|]. by intros []%Hno. }
  eapply wp_mono; [|apply wp_invoke_storage]. intros out w3 [Hs3 Hr3].
  unfold unlocked, mounts in *. rewrite Hs3.
  split; [done|]. split; [done|]. split; [done|]. by intros []%Hno.
Qed.

(** A client whose mutex was left locked blocks every caller. *)
Lemma Mount_locked d rp mp (w : W) :
  sto_locked (w_storage w) = true → Mount d rp mp w = (Hang, w).
Proof. intros Hl. unfold Mount, mbind, M_bind. by rewrite lock_locked. Qed.

Lemma Unmount_locked d mp (w : W) :
  sto_locked (w_storage w) = true → Unmount d mp w = (Hang, w).
Proof. intros Hl. unfold Unmount, mbind, M_bind. by rewrite lock_locked. Qed.

(** Without a mount command the mutex stays locked. *)
Lemma wp_Mount_no_command d rp mp (w : W) :
  unlocked w → mounts w !! mp = None → mp ∉ sto_timers (w_storage w) → GetMountCmd d rp mp = [] →
  wp (Mount d rp mp) (λ o w', sto_locked (w_storage w') = true ∧ ∃ e, o = Err e) w.
Proof.
  intros Hu Hm Ht Hc. unfold Mount, tq_Find, wp, mbind, M_bind. rewrite lock_unlocked by done.
  unfold get_storage. simpl. rewrite decide_False by (rewrite Hm; by intros []).
  rewrite decide_False by done. simpl. rewrite Hc. simpl. eauto.
Qed.
End client.

(** ** Removal of pod data *)

Section cleanup.
Context {E : Type} `{!Env E}.
Notation W := (World E).

Definition is_removal (c : call) : bool :=
  match c with
  | Call e _ => match e with RemoveAllOneFilesystem _ => true | _ => false end
  end.

(** Attempts to remove a directory so far. *)
Definition removals (w : W) : nat := length (List.filter is_removal (w_trace w)).

Definition no_removal (w w' : W) : Prop := removals w' = removals w.
Global Instance no_removal_preorder : PreOrder no_removal.
Proof. split; unfold no_removal; [done|congruence]. Qed.

Lemma removals_perform {X} (e : Ev X) (w : W) :
  removals (perform e w).2 =
  removals w + (if is_removal (Call e (handle e (w_env w)).1) then 1 else 0).
Proof.
  unfold removals, perform. destruct (handle e (w_env w)) as [x s]. simpl.
  rewrite List.filter_app, length_app. simpl. by destruct e.
Qed.

Lemma no_removal_perform {X} (e : Ev X) :
  (∀ x, is_removal (Call e x) = false) → keeps no_removal (perform e).
Proof. intros He w. unfold no_removal. rewrite removals_perform, He. lia. Qed.

Lemma no_removal_invoke {X} (e : Ev (string + X)) :
  (∀ x, is_removal (Call e x) = false) → keeps no_removal (invoke e).
Proof. intros He. apply keeps_bind; [apply _|by apply no_removal_perform|]. keeps_solve. Qed.

Lemma no_removal_get_storage : keeps no_removal get_storage.
Proof. done. Qed.
Lemma no_removal_set_storage s : keeps no_removal (set_storage s).
Proof. done. Qed.

#[local] Hint Resolve no_removal_get_storage no_removal_set_storage : keeps.
#[local] Hint Extern 1 (keeps no_removal (perform _)) => apply no_removal_perform; reflexivity : keeps.
#[local] Hint Extern 1 (keeps no_removal (invoke _)) => apply no_removal_invoke; reflexivity : keeps.

Lemma no_removal_Unmount d mp : keeps no_removal (Unmount d mp).
Proof.
  unfold Unmount, lock, unlock, set_mounted, GetUnmountCmd, unmount_cmd, LookupUnmountUtil.
  keeps_solve.
Qed.

Context (podDir remoteDir tmpfsDir : string) (unmount : string → M W unit).
Hypothesis Hunmount : ∀ p, keeps no_removal (unmount p).
#[local] Hint Resolve Hunmount : keeps.

Lemma wp_try_remove (w : W) :
  wp (try_remove podDir) (λ o w', removals w' = S (removals w) ∧
    ∃ err, o = Ok err ∧ (err = None → performed (RemoveAllOneFilesystem podDir) (inr ()) w')) w.
Proof.
  unfold try_remove. apply wp_bind, wp_try. unfold invoke. apply wp_bind.
  eapply (wp_mono _ (λ o w', removals w' = S (removals w) ∧
    ∃ x, o = Ok x ∧ performed (RemoveAllOneFilesystem podDir) x w')).
  - intros o w1 [Hr (x & -> & Hp)]. simpl.
    destruct x as [d|[]]; [apply wp_fail|apply wp_ret]; simpl; apply wp_ret; eauto.
    split; [done|]. eexists. by split.
  - split; [rewrite removals_perform; simpl; lia|].
    unfold perform, performed. destruct (handle _ (w_env w)) as [x s]. simpl.
    exists x. split; [done|]. apply elem_of_app. right. by left.
Qed.

(** Each round tries at most once, and only a successful removal ends the loop
    without an error. *)
Lemma wp_cleanup_loop n err (w : W) :
  (err = None → performed (RemoveAllOneFilesystem podDir) (inr ()) w) →
  wp (cleanup_loop n podDir remoteDir tmpfsDir unmount err) (λ o w',
    removals w ≤ removals w' ≤ removals w + n ∧
    (o = Ok None → performed (RemoveAllOneFilesystem podDir) (inr ()) w')) w.
Proof.
  revert err w. induction n as [|n IH]; intros err w Herr; simpl.
  { apply wp_ret. split; [lia|]. intros [= ->]. by apply Herr. }
  destruct err as [e|]; [|apply wp_ret; split; [lia|]; intros _; by apply Herr].
  clear Herr. apply wp_bind. eapply wp_mono; [|apply (wp_keeps no_removal); keeps_solve].
  intros [dirs|e1|p|] w1 H1; unfold no_removal in H1; simpl; try (split; [lia|done]).
  apply wp_bind. eapply wp_mono; [|apply (wp_keeps no_removal); unfold unmount_all; keeps_solve].
  intros [err|e1|p|] w2 H2; unfold no_removal in H2; simpl; try (split; [lia|done]).
  apply wp_bind. eapply wp_mono; [|apply (wp_keeps no_removal); keeps_solve].
  intros [[]|e1|p|] w3 H3; unfold no_removal in H3; simpl; try (split; [lia|done]).
  apply wp_bind. eapply wp_mono; [|apply (wp_keeps no_removal); keeps_solve].
  intros [[]|e1|p|] w4 H4; unfold no_removal in H4; simpl; try (split; [lia|done]).
  apply wp_bind. destruct err as [e1|].
  - apply wp_ret. simpl. eapply wp_mono; [|by apply IH]. intros o w5 [H5 Ho]. split; [lia|done].
  - eapply wp_mono; [|apply wp_try_remove]. intros o w5 (H5 & err & -> & Herr). simpl.
    eapply wp_mono; [|by apply IH]. intros o w6 [H6 Ho]. split; [lia|done].
Qed.

(** At least one and at most six attempts; success means one succeeded. *)
Lemma wp_CleanupPodData (w : W) :
  wp (CleanupPodData podDir remoteDir tmpfsDir unmount) (λ o w',
    removals w < removals w' ≤ removals w + 6 ∧
    (o = Ok () → performed (RemoveAllOneFilesystem podDir) (inr ()) w')) w.
Proof.
  unfold CleanupPodData. apply wp_bind. eapply wp_mono; [|apply wp_try_remove].
  intros o w1 (H1 & err & -> & Herr). cbn [obind]. apply wp_bind.
  eapply wp_mono; [|by apply wp_cleanup_loop].
  intros [err'|e|p|] w2 [H2 Ho]; simpl; try (split; [lia|done]).
  destruct err'; [apply wp_fail; split; [lia|done]|]. apply wp_ret. split; [lia|]. auto.
Qed.

(** Where no remote volume directory is found, a failed removal is never tried
    again. *)
Lemma wp_cleanup_loop_no_retry n e (w : W) :
  (∀ dir s, (handle (ReadDir dir) s).1 = []) →
  wp (cleanup_loop n podDir remoteDir tmpfsDir unmount (Some e)) (λ o w',
    removals w' = removals w ∧ o = Ok (Some e)) w.
Proof.
  intros Hdir. revert w. induction n as [|n IH]; intros w; simpl; [by apply wp_ret|].
  apply wp_bind. eapply (wp_mono _ (λ o w', removals w' = removals w ∧ o = Ok [])).
  - intros o w1 [H1 ->]. simpl. apply wp_bind, wp_ret. simpl. apply wp_bind, wp_ret. simpl.
    apply wp_bind. eapply (wp_mono _ (λ o w', removals w' = removals w1 ∧ o = Ok ())).
    + intros o w2 [H2 ->]. simpl. apply wp_bind, wp_ret. simpl.
      eapply wp_mono; [|apply IH]. intros o w3 [H3 ->]. split; [lia|done].
    + apply wp_and; [apply (wp_keeps no_removal); keeps_solve|].
      apply wp_perform. intros w2 _ _ _ _ _. by destruct (handle (Sleep 5) (w_env w1)).1.
  - apply wp_and; [apply (wp_keeps no_removal); keeps_solve|].
    apply wp_perform. intros w1 _ _ _ _ _. by rewrite Hdir.
Qed.
End cleanup.
