(* ===== verification/PodTheorems.v ===== *)
(** The properties of the pod operations.  Every theorem holds for any engine
    that satisfies [LibpodLaws]; its witness is a run on the in-memory engine. *)

From S2P Require Import Prelude GoPath Proto Labels World Libpod Mem BaseRuntime Storage Find Network Translate Container ContainerProofs Pod PodProofs DeleteProofs EnsureProofs Conf Samples Runtime.
From stdpp Require Import base gmap strings pretty list fin_maps numbers.

Section theorems.
Context {E : Type} `{!Env E, !Store E, !LibpodLaws E}.
Notation W := (World E).

(** C5: A successful [EnsurePod] leaves a pod and a pause container with the UID
    of the request; for every container of the request, in order, a container
    of that pod exists with the name and labels of the request, its start
    succeeded, and it was seen not to have exited (with [Wait]: it was waited
    for).  The status message carries the UID and one entry per named
    container. *)
Theorem EnsurePod_success r ctx o (w : W) msg w' :
  EnsurePod r ctx o w = (Ok msg, w') → ∃ p, ensured o p msg w'.
Proof. intros H. by apply (wp_elim _ _ _ _ _ H (wp_EnsurePod_success r ctx o w) msg). Qed.


(** C7: [EnsurePod] never touches a foreign pod: however it ends, a pod with
    another UID and another name is still there, with exactly its containers. *)
Theorem EnsurePod_isolation r ctx o q (w : W) out w' :
  foreign q o → has_pod q w → EnsurePod r ctx o w = (out, w') →
  has_pod q w' ∧ List.filter (inside_pod q) (wctrs w') ≡ₚ List.filter (inside_pod q) (wctrs w).
Proof.
  intros Hf Hw H. pose proof (EnsurePod_undisturbed q r ctx o w Hf) as Hu. rewrite H in Hu.
  by apply Hu.
Qed.

(** C13: [EnsurePod] of a request that carries network options and a spec for every
    mount never panics. *)
Theorem EnsurePod_no_panic r ctx o (w : W) p :
  complete o → (EnsurePod r ctx o w).1 ≠ Panic p.
Proof.
  intros Hc Hp. pose proof (never_panics_EnsurePod o Hc r ctx w) as H. by rewrite Hp in H.
Qed.

(** A pod whose pause container is missing is never repaired: [EnsurePod]
    of its UID fails (or blocks) and changes no pod and no container, because
    the deletion it attempts needs the pause container. *)
Theorem EnsurePod_headless_stuck r ctx o p (w : W) out w' :
  headless (pe_PodUid o) p w → EnsurePod r ctx o w = (out, w') →
  same_store w w' ∧ ∀ msg, out ≠ Ok msg.
Proof. intros Hh H. by apply (wp_elim _ _ _ _ _ H (wp_EnsurePod_headless r ctx o p w Hh)). Qed.

(** C8: [DeletePod] of a whole pod: on success the one pod of that UID and all
    its containers are gone and nothing else is, and the answer is an empty
    status for the UID; otherwise nothing outside that pod was removed.  It
    never panics. *)
Theorem DeletePod_whole r ctx o (w : W) out w' :
  pd_Containers o = [] → DeletePod r ctx o w = (out, w') →
  match out with
  | Ok msg =>
      msg = NewPodStatusMsg (pd_PodUid o) None ∅ ∧
      ∃ p, sole_pod (pd_PodUid o) p w ∧
           wpods w' = List.filter (other_pod p) (wpods w) ∧
           wctrs w' = List.filter (outside_pod p) (wctrs w)
  | Panic _ => False
  | _ => same_store w w' ∨
         ∃ p, sole_pod (pd_PodUid o) p w ∧ store_shrinks (other_pod p) (outside_pod p) w w'
  end.
Proof.
  intros Hc H. pose proof (wp_elim _ _ _ _ _ H (wp_DeletePod_whole r ctx o w Hc)) as Hw.
  destruct out; naive_solver eauto using filtered_sole_pod.
Qed.

(** C31: [DeletePod] with a list of containers removes none of them: the guard of
    [deleteContainer] returns early for every container that carries a pod
    UID, and only such containers are found. *)
Theorem DeletePod_named_removes_nothing r ctx o (w : W) out w' :
  pd_Containers o ≠ [] → pd_PodUid o ≠ ""%string → DeletePod r ctx o w = (out, w') →
  same_store w w'.
Proof. intros Hc Hu H. by apply (wp_elim _ _ _ _ _ H (wp_DeletePod_containers r ctx o w Hc Hu)). Qed.

(** [DeletePod] of a container name that the pod does not have dereferences a
    nil container (it blocks instead only in the deferred cleanup, on a storage
    client that was left locked). *)
Theorem DeletePod_unknown_container (ok : E → Prop) `{!reliable ok} r ctx o p n ns (w : W) :
  ok (w_env w) → pd_Containers o = n :: ns →
  List.filter (podLabelFilterFunc (pod_filter (pd_PodUid o))) (wpods w) = [p] →
  (∃ c, c ∈ wctrs w ∧ inside_pod p c = true ∧ IsPauseContainer (ctr_Labels c) = true) →
  List.filter (containerLabelFilterFunc (container_filter (pd_PodUid o) n)) (wctrs w) = [] →
  (DeletePod r ctx o w).1 = Panic NilDereference ∨ (DeletePod r ctx o w).1 = Hang.
Proof. intros. by apply (wp_DeletePod_missing ok r ctx o p n ns w). Qed.

(** C10: On a reliable engine [ListPods] keeps every complete pod (UID and pause
    container) with its containers, and a successful list reports each complete
    pod that it lists. *)
Theorem ListPods_keeps_complete (ok : E → Prop) `{!reliable ok} q r ctx o (w : W) out w' :
  ok (w_env w) → has_pod q w → complete_pod q w → ListPods r ctx o w = (out, w') →
  has_pod q w' ∧
  List.filter (inside_pod q) (wctrs w') ≡ₚ List.filter (inside_pod q) (wctrs w) ∧
  ∀ results, out = Ok results → q ∈ listed o w →
    ∃ s, s ∈ results ∧ pod_Labels q !! ContainerLabelPodUID = Some (psm_Uid s).
Proof.
  intros Hok Hw Hc H.
  destruct (wp_elim _ _ _ _ _ H (wp_ListPods_complete ok q r ctx o w Hok Hw Hc)) as [Hu Hr].
  destruct (Hu Hw). auto.
Qed.

(** C11: A successful [ListPods] adds nothing, reports only listed pods, and has
    removed every listed pod that carries a UID but has no pause container. *)
Theorem ListPods_reports_and_reclaims r ctx o (w : W) results w' :
  ListPods r ctx o w = (Ok results, w') →
  wpods w' `sublist_of` wpods w ∧ wctrs w' `sublist_of` wctrs w ∧
  Forall (λ s, ∃ p, p ∈ listed o w ∧
                    pod_Labels p !! ContainerLabelPodUID = Some (psm_Uid s)) results ∧
  (∀ p, p ∈ listed o w → headless_pod p w → p ∉ wpods w').
Proof. intros H. by apply (wp_elim _ _ _ _ _ H (wp_ListPods_report r ctx o w)). Qed.

(** A pod whose pause container cannot be looked up, for whatever reason, is
    removed by the listing together with its containers, even if it is
    complete. *)
Theorem ListPods_lookup_failure_removes r ctx p uid d (w : W) s w' :
  pod_Labels p !! ContainerLabelPodUID = Some uid →
  (handle AllContainers (w_env w)).1 = inl d →
  list_one r ctx p w = (Ok s, w') →
  s = None ∧ p ∉ wpods w' ∧ wctrs w' = List.filter (outside_pod p) (wctrs w).
Proof. intros Hl Hd H. by apply (wp_elim _ _ _ _ _ H (list_one_lookup_failure r ctx p uid d w Hl Hd)). Qed.

(** C9: [deletePod] is guarded: it removes a pod that carries a UID only if the
    pause container exists, if abbot exists whenever that container is on the
    cluster network, and if no cluster-network pod is left when the pod is the
    abbot pod.  A refused deletion changes nothing. *)
Theorem deletePod_guarded r ctx p uid (w : W) out w' :
  pod_Labels p !! ContainerLabelPodUID = Some uid → deletePod r ctx p w = (out, w') →
  (out = Ok () → deletable (wctrs w) uid ∧ p ∉ wpods w') ∧
  (¬ deletable (wctrs w) uid → same_store w w' ∧ ∃ e, out = Err e).
Proof.
  intros Hl H. destruct (wp_elim _ _ _ _ _ H (wp_deletePod r ctx p w)) as (_ & Hnd & Ho).
  split.
  - intros ->. destruct Ho as (-> & _ & Hd). split; [by apply Hd|].
    intros [_ Hx]%elem_of_bfilter. unfold other_pod in Hx. by rewrite bool_decide_eq_true_2 in Hx.
  - intros Hn. split; [by eapply Hnd|]. destruct out as [[]|e|pp|]; [|by eexists|done..].
    destruct Ho as (_ & _ & Hd). by destruct Hn; apply Hd.
Qed.

(** C12: [createContainer] adds exactly one container, new, in the given pod, with
    the name and labels of the request, and no pod; when it does not succeed
    it adds and removes nothing, and it panics only for a request without
    network options or for a mount without a spec. *)
Theorem createContainer_adds_one r o p spec ns (w : W) out w' :
  createContainer r o p spec ns w = (out, w') →
  match out with
  | Ok c => created p (GetContainerName (pe_Namespace o) (pe_Name o) (cs_Name spec))
              (ContainerLabels o (cs_Name spec)) c w w'
  | Panic _ => (pe_Network o = None ∨ mount_missing spec) ∧ same_store w w'
  | _ => same_store w w'
  end.
Proof. intros H. by apply (wp_elim _ _ _ _ _ H (wp_createContainer r o p spec ns w)). Qed.

(** A created container is found again: a lookup by the UID of the request
    and the name of its spec answers a container with these labels. *)
Theorem createContainer_found (ok : E → Prop) `{!reliable ok} r o p spec ns (w : W) c w' :
  ok (w_env w) → createContainer r o p spec ns w = (Ok c, w') →
  ∃ c' w'', findContainer (pe_PodUid o) (cs_Name spec) w' = (Ok c', w'') ∧
            is_container (pe_PodUid o) (cs_Name spec) c'.
Proof.
  intros Hok H. assert (ok (w_env w')) as Hok'.
  { pose proof (keeps_any_createContainer (R := stays ok) r o p spec ns w) as Hst.
    rewrite H in Hst. by apply Hst. }
  pose proof (wp_elim _ _ _ _ _ H (wp_createContainer r o p spec ns w)) as Hcr. simpl in Hcr.
  destruct Hcr as (_ & Hc & _ & _ & Hl & _).
  pose proof (wp_findContainerByLabels_reliable ok (container_filter (pe_PodUid o) (cs_Name spec)) w' Hok') as Hf.
  unfold wp in Hf. unfold findContainer.
  destruct (findContainerByLabels _ w') as [[c'|e|pp|] w'']; simpl in Hf; destruct Hf as [_ Hf]; [|destruct Hf as [_ Hno]|done..].
  - exists c', w''. split; [done|]. apply container_filter_is, Hf.
  - exfalso. apply (Hno c); [rewrite Hc; by left|]. by apply ContainerLabels_matches.
Qed.

(** The status of a pod has the UID label of its pause container and one
    entry for every container of that UID that has a name label, under that
    name, and no other entry. *)
Theorem translatePodStatus_keys b p l (w : W) msg w' :
  translatePodStatus b p l w = (Ok msg, w') →
  psm_Uid msg = get (ctr_Labels p) ContainerLabelPodUID ∧ psm_Network msg = b ∧
  ∀ name, name ∈ dom (psm_Containers msg) ↔
          name ≠ ""%string ∧ ∃ c, c ∈ l ∧ is_container (psm_Uid msg) name c.
Proof.
  intros H. destruct (wp_elim _ _ _ _ _ H (wp_translatePodStatus b p l w)) as (_ & Hu & Hn & Hd).
  split; [done|]. split; [done|]. intros name. rewrite Hd, Hu, elem_of_list_to_set.
  rewrite list_elem_of_fmap. setoid_rewrite elem_of_bfilter. setoid_rewrite reportable_true.
  unfold is_container, ctr_label_name. naive_solver.
Qed.

(** [InitRuntime] leaves every pod that carries a UID alone, with exactly its
    containers. *)
Theorem InitRuntime_keeps_managed q r (w : W) out w' :
  is_Some (pod_Labels q !! ContainerLabelPodUID) → has_pod q w → InitRuntime r w = (out, w') →
  has_pod q w' ∧ List.filter (inside_pod q) (wctrs w') ≡ₚ List.filter (inside_pod q) (wctrs w).
Proof. intros Hq Hw H. by apply (wp_elim _ _ _ _ _ H (wp_InitRuntime q r w Hq Hw)). Qed.

(** The runtime that [NewPodmanRuntime] returns holds a context that is
    already cancelled, so every context [InitRuntime] derives from it is too;
    the abbot sub-command of the configuration is not taken over. *)
Theorem NewPodmanRuntime_context_canceled parent driver config v arch (w : W) r w' :
  NewPodmanRuntime parent driver config v arch w = (Ok r, w') →
  ctx_canceled (w_canceled w') (rt_ctx r) = true ∧
  (∀ n, ctx_canceled (w_canceled w') (WithCancel (rt_ctx r) n) = true) ∧
  rt_abbotSubCmd r = ""%string.
Proof.
  intros H. destruct (wp_elim _ _ _ _ _ H (wp_NewPodmanRuntime parent driver config v arch w))
    as (_ & Hc & _ & _ & _ & Ha).
  split; [done|]. split; [|done]. intros n. simpl. by rewrite Hc, orb_true_r.
Qed.
End theorems.

(** ** Witnesses *)

Lemma EnsurePod_success_witness :
  ∃ msg w' p, EnsurePod sample_runtime TODO sample_ensure (sample_world []) = (Ok msg, w') ∧
              ensured sample_ensure p msg w'.
Proof.
  destruct (run_ok (EnsurePod sample_runtime TODO sample_ensure) (sample_world []))
    as (msg & w' & H); [vm_compute; reflexivity|].
  destruct (EnsurePod_success _ _ _ _ _ _ H) as [p Hp]. eauto.
Defined.


Lemma sample_foreign : foreign other_sample_pod sample_ensure.
Proof.
  split; [intros Hx; vm_compute in Hx; discriminate Hx..|vm_compute; reflexivity].
Qed.

Lemma EnsurePod_isolation_witness :
  let w' := (EnsurePod sample_runtime TODO sample_ensure (sample_world [12])).2 in
  has_pod other_sample_pod w' ∧
  List.filter (inside_pod other_sample_pod) (wctrs w') ≡ₚ
  List.filter (inside_pod other_sample_pod) (wctrs (sample_world [12])).
Proof.
  apply (EnsurePod_isolation sample_runtime TODO sample_ensure other_sample_pod (sample_world [12])
    (EnsurePod sample_runtime TODO sample_ensure (sample_world [12])).1).
  - apply sample_foreign.
  - apply sample_has_pod.
  - apply surjective_pairing.
Defined.

Lemma EnsurePod_no_panic_witness :
  (EnsurePod sample_runtime TODO sample_ensure (sample_world [9])).1 ≠ Panic NilDereference.
Proof.
  apply (EnsurePod_no_panic sample_runtime TODO sample_ensure (sample_world [9]) NilDereference).
  split; [eexists; reflexivity|].
  by intros spec [->|[->|[]%not_elem_of_nil]%elem_of_cons]%elem_of_cons [v Hv].
Defined.

Lemma sample_headless : headless "u1" headless_sample_pod headless_world.
Proof.
  split; [vm_compute; reflexivity|]. split; [vm_compute; reflexivity|].
  intros c Hc. by apply not_elem_of_nil in Hc.
Qed.

Lemma EnsurePod_headless_stuck_witness :
  let x := EnsurePod sample_runtime TODO sample_ensure headless_world in
  same_store headless_world x.2 ∧ ∀ msg, x.1 ≠ Ok msg.
Proof.
  apply (EnsurePod_headless_stuck sample_runtime TODO sample_ensure headless_sample_pod headless_world).
  - apply sample_headless.
  - apply surjective_pairing.
Defined.

Lemma DeletePod_whole_witness :
  ∃ msg w' p, DeletePod sample_runtime TODO (delete_other []) (sample_world []) = (Ok msg, w') ∧
    wpods w' = List.filter (other_pod p) (wpods (sample_world [])) ∧
    wctrs w' = List.filter (outside_pod p) (wctrs (sample_world [])).
Proof.
  destruct (run_ok (DeletePod sample_runtime TODO (delete_other [])) (sample_world []))
    as (msg & w' & H); [vm_compute; reflexivity|].
  destruct (DeletePod_whole sample_runtime TODO (delete_other []) (sample_world []) (Ok msg) w' eq_refl H) as [_ (p & _ & H1 & H2)]. eauto 6.
Defined.

Lemma DeletePod_named_removes_nothing_witness :
  ∃ msg w', DeletePod sample_runtime TODO (delete_other ["app"%string]) (sample_world []) = (Ok msg, w') ∧
    same_store (sample_world []) w'.
Proof.
  destruct (run_ok (DeletePod sample_runtime TODO (delete_other ["app"%string])) (sample_world []))
    as (msg & w' & H); [vm_compute; reflexivity|].
  exists msg, w'. split; [exact H|].
  apply (DeletePod_named_removes_nothing sample_runtime TODO (delete_other ["app"%string])
           (sample_world []) (Ok msg) w'); [intros Hx; discriminate Hx..|exact H].
Defined.

Lemma DeletePod_unknown_container_witness :
  (DeletePod sample_runtime TODO (delete_other ["nope"%string]) (sample_world [])).1 =
    Panic NilDereference ∨
  (DeletePod sample_runtime TODO (delete_other ["nope"%string]) (sample_world [])).1 = Hang.
Proof.
  apply (DeletePod_unknown_container faultless sample_runtime TODO (delete_other ["nope"%string])
           other_sample_pod "nope" [] (sample_world [])).
  - reflexivity.
  - reflexivity.
  - vm_compute. reflexivity.
  - exists other_pause. split; [by left|]. split; vm_compute; reflexivity.
  - vm_compute. reflexivity.
Defined.

Lemma sample_complete : complete_pod other_sample_pod (sample_world []).
Proof.
  exists "u2"%string, other_pause. split; [vm_compute; reflexivity|]. split; [by left|].
  split; [vm_compute; reflexivity|]. apply other_pause_matches.
Qed.

Lemma ListPods_keeps_complete_witness :
  let w' := (ListPods sample_runtime TODO list_db (sample_world [])).2 in
  has_pod other_sample_pod w' ∧
  List.filter (inside_pod other_sample_pod) (wctrs w') ≡ₚ
  List.filter (inside_pod other_sample_pod) (wctrs (sample_world [])).
Proof.
  destruct (ListPods_keeps_complete faultless other_sample_pod sample_runtime TODO list_db
    (sample_world []) (ListPods sample_runtime TODO list_db (sample_world [])).1
    (ListPods sample_runtime TODO list_db (sample_world [])).2) as (H1 & H2 & _).
  - reflexivity.
  - apply sample_has_pod.
  - apply sample_complete.
  - apply surjective_pairing.
  - split; assumption.
Defined.

Lemma ListPods_reports_and_reclaims_witness :
  ∃ results w', ListPods sample_runtime TODO list_all headless_world = (Ok results, w') ∧
    (headless_pod headless_sample_pod headless_world → headless_sample_pod ∉ wpods w').
Proof.
  destruct (run_ok (ListPods sample_runtime TODO list_all) headless_world)
    as (results & w' & H); [vm_compute; reflexivity|].
  destruct (ListPods_reports_and_reclaims _ _ _ _ _ _ H) as (_ & _ & _ & Hgone).
  exists results, w'. split; [exact H|]. apply Hgone. vm_compute. by left.
Defined.

Lemma ListPods_lookup_failure_removes_witness :
  ∃ s w', list_one sample_runtime TODO other_sample_pod (sample_world [0]) = (Ok s, w') ∧
    other_sample_pod ∉ wpods w'.
Proof.
  destruct (run_ok (list_one sample_runtime TODO other_sample_pod) (sample_world [0]))
    as (s & w' & H); [vm_compute; reflexivity|].
  destruct (ListPods_lookup_failure_removes sample_runtime TODO other_sample_pod "u2" "fault"
    (sample_world [0]) s w') as (_ & Hgone & _).
  - vm_compute. reflexivity.
  - vm_compute. reflexivity.
  - exact H.
  - exists s, w'. split; assumption.
Defined.

Lemma deletePod_guarded_witness :
  ∃ w', deletePod sample_runtime TODO other_sample_pod (sample_world []) = (Ok (), w') ∧
    deletable (wctrs (sample_world [])) "u2" ∧ other_sample_pod ∉ wpods w'.
Proof.
  destruct (run_ok (deletePod sample_runtime TODO other_sample_pod) (sample_world []))
    as ([] & w' & H); [vm_compute; reflexivity|].
  destruct (deletePod_guarded sample_runtime TODO other_sample_pod "u2" (sample_world []) (Ok ()) w')
    as [Hok _]; [vm_compute; reflexivity|exact H|].
  destruct (Hok eq_refl). eauto.
Defined.

Lemma createContainer_adds_one_witness :
  ∃ c w', createContainer sample_runtime sample_ensure other_sample_pod (sample_spec "app") ∅
            (sample_world []) = (Ok c, w') ∧
    created other_sample_pod "ns.web.app" (ContainerLabels sample_ensure "app") c (sample_world []) w'.
Proof.
  destruct (run_ok (createContainer sample_runtime sample_ensure other_sample_pod (sample_spec "app") ∅)
    (sample_world [])) as (c & w' & H); [vm_compute; reflexivity|].
  exists c, w'. split; [exact H|]. exact (createContainer_adds_one _ _ _ _ _ _ _ _ H).
Defined.

Lemma createContainer_found_witness :
  ∃ c' w' w'', findContainer "u1" "app" w' = (Ok c', w'') ∧
    is_container "u1" "app" c'.
Proof.
  destruct (run_ok (createContainer sample_runtime sample_ensure other_sample_pod (sample_spec "app") ∅)
    (sample_world [])) as (c & w' & H); [vm_compute; reflexivity|].
  destruct (createContainer_found faultless sample_runtime sample_ensure other_sample_pod
    (sample_spec "app") ∅ (sample_world []) c w' eq_refl H) as (c' & w'' & H1 & H2).
  exists c', w', w''. split; assumption.
Defined.

Lemma translatePodStatus_keys_witness :
  ∃ msg w', translatePodStatus None other_pause [other_pause; other_work] (sample_world []) = (Ok msg, w') ∧
    psm_Uid msg = get (ctr_Labels other_pause) ContainerLabelPodUID.
Proof.
  destruct (run_ok (translatePodStatus None other_pause [other_pause; other_work]) (sample_world []))
    as (msg & w' & H); [vm_compute; reflexivity|].
  destruct (translatePodStatus_keys _ _ _ _ _ _ H) as [Hu _]. eauto.
Defined.

Lemma InitRuntime_keeps_managed_witness :
  let w' := (InitRuntime sample_runtime (sample_world [3])).2 in
  has_pod other_sample_pod w' ∧
  List.filter (inside_pod other_sample_pod) (wctrs w') ≡ₚ
  List.filter (inside_pod other_sample_pod) (wctrs (sample_world [3])).
Proof.
  apply (InitRuntime_keeps_managed other_sample_pod sample_runtime (sample_world [3])
    (InitRuntime sample_runtime (sample_world [3])).1).
  - eexists. vm_compute. reflexivity.
  - apply sample_has_pod.
  - apply surjective_pairing.
Defined.

Lemma NewPodmanRuntime_context_canceled_witness :
  ∃ r w', NewPodmanRuntime AppContext NopDriver sample_config "2.1" "amd64" (sample_world []) = (Ok r, w') ∧
    ctx_canceled (w_canceled w') (rt_ctx r) = true.
Proof.
  destruct (run_ok (NewPodmanRuntime AppContext NopDriver sample_config "2.1" "amd64") (sample_world []))
    as (r & w' & H); [vm_compute; reflexivity|].
  destruct (NewPodmanRuntime_context_canceled _ _ _ _ _ _ _ _ H) as [Hc _]. eauto.
Defined.
