(* ===== verification/BaseTheorems.v ===== *)
(** Labels, environment, namespaces, directories and variable references. *)

From S2P Require Import Prelude GoPath Proto Labels World BaseRuntime Expand Find Samples.
From stdpp Require Import base gmap strings list fin_maps.
From Stdlib Require Import Ascii.

Local Open Scope string_scope.
Local Open Scope list_scope.
Local Open Scope nat_scope.

(** The label filter is the inclusion of the filter in the labels, for a
    filter without empty values. *)
Theorem filterLabels_inclusion filters labels :
  map_Forall (λ _ v, v ≠ "") filters →
  filterLabels filters labels = true ↔ filters ⊆ labels.
Proof. apply filterLabels_subseteq. Qed.

Lemma filterLabels_inclusion_witness :
  filterLabels (pod_filter "u2") other_labels = true ↔ pod_filter "u2" ⊆ other_labels.
Proof.
  apply (filterLabels_inclusion (pod_filter "u2") other_labels).
  intros k v Hk. unfold pod_filter in Hk. apply lookup_singleton_Some in Hk as [_ <-]. discriminate.
Defined.

(** A request cannot override the labels the runtime relies on: the UID, the
    names, the container name and the role are those of the request and the
    container, whatever its own labels say; its other labels are kept; and on
    the host network the host-network label is set. *)
Theorem ContainerLabels_protected o c k :
  ContainerLabels o c !! k =
  if decide (k = ContainerLabelHostNetwork ∧ pe_HostNetwork o = true) then Some "true"
  else if decide (k = ContainerLabelPodUID) then Some (pe_PodUid o)
  else if decide (k = ContainerLabelPodNamespace) then Some (pe_Namespace o)
  else if decide (k = ContainerLabelPodName) then Some (pe_Name o)
  else if decide (k = ContainerLabelPodContainer) then Some c
  else if decide (k = ContainerLabelPodContainerRole) then
    Some (if decide (c = ContainerNamePause) then ContainerRoleInfra else ContainerRoleWork)
  else pe_Labels o !! k.
Proof. apply ContainerLabels_lookup. Qed.

(** The namespaces a container shares: network, IPC and PID are the host's
    when the request says so; otherwise network and IPC are those of the pause
    container, as are user and UTS always, and PID is shared on request only. *)
Theorem SharedNamespaces_spec id o :
  let ns := SharedNamespaces id o in
  let ctr := "container:" +:+ id in
  get ns "net" = (if pe_HostNetwork o then "host" else ctr) ∧
  get ns "ipc" = (if pe_HostIpc o then "host" else ctr) ∧
  get ns "uts" = ctr ∧ get ns "user" = ctr ∧
  get ns "pid" = (if pe_HostPid o then "host" else if pe_SharePid o then ctr else "").
Proof.
  Transparent SharedNamespaces. unfold SharedNamespaces, get.
  destruct (pe_HostNetwork o), (pe_HostIpc o), (pe_HostPid o), (pe_SharePid o);
    repeat split; reflexivity.
Qed.

(** *** Environment of an image *)

Lemma cut_fresh sep k v :
  sep ∉ String.list_ascii_of_string k → cut sep (k +:+ String sep v) = (k, Some v).
Proof.
  induction k as [|c k IH]; simpl; intros Hk; [by rewrite decide_True|].
  apply not_elem_of_cons in Hk as [Hc Hk]. rewrite decide_False by done. by rewrite IH.
Qed.

Transparent GetEnv.
Lemma GetEnv_snoc l kv :
  GetEnv (l ++ [kv]) = <[(cut "="%char kv).1 := default "" (cut "="%char kv).2]> (GetEnv l).
Proof. unfold GetEnv. rewrite foldl_app. simpl. by destruct (cut _ kv) as [k [v|]]. Qed.
Opaque GetEnv.

(** The last entry of an image environment wins: after [KEY=value] and
    entries for other names, the key has that value. *)
Theorem GetEnv_last_wins l1 l2 k v :
  "="%char ∉ String.list_ascii_of_string k →
  Forall (λ kv, (cut "="%char kv).1 ≠ k) l2 →
  GetEnv (l1 ++ (k +:+ "=" +:+ v) :: l2) !! k = Some v.
Proof.
  intros Hk. change (k +:+ "=" +:+ v) with (k +:+ String "="%char v). 
  induction l2 as [|kv l2 IH] using rev_ind; intros Hl2.
  - rewrite GetEnv_snoc, cut_fresh by done. simpl. apply lookup_insert_eq.
  - apply Forall_app in Hl2 as [Hl2 Hkv]. apply Forall_inv in Hkv.
    rewrite app_comm_cons, app_assoc, GetEnv_snoc, lookup_insert_ne by done. by apply IH.
Qed.

Lemma GetEnv_last_wins_witness :
  GetEnv ["PATH=/bin"; "PATH=/usr/bin"; "HOME=/"] !! "PATH" = Some "/usr/bin".
Proof.
  apply (GetEnv_last_wins ["PATH=/bin"] ["HOME=/"] "PATH" "/usr/bin").
  - apply (bool_decide_unpack _). vm_compute. exact I.
  - constructor; [discriminate|constructor].
Defined.

(** *** Directories of a pod *)

Local Ltac plain_literal := by (apply (bool_decide_unpack _); vm_compute).
Local Ltac plain_list :=
  repeat first [apply Forall_nil_2 | apply Forall_cons_2 | apply Forall_app_2];
  first [assumption | plain_literal].

(** The directories of pods do not collide: under a clean absolute data
    directory, the directory of a pod determines its UID, and that of a volume
    its pod, its kind and its name. *)
Theorem pod_directories_injective r base u1 u2 t1 t2 v1 v2 :
  br_dataDir r = rooted_path base → Forall plain base →
  plain u1 → plain u2 → plain t1 → plain t2 → plain v1 → plain v2 →
  (PodDir r u1 = PodDir r u2 → u1 = u2) ∧
  (podVolumeDir r u1 t1 v1 = podVolumeDir r u2 t2 v2 → u1 = u2 ∧ t1 = t2 ∧ v1 = v2).
Proof.
  intros Hd Hb Hu1 Hu2 Ht1 Ht2 Hv1 Hv2. split.
  - rewrite !(PodDir_layout r base) by done. intros H%rooted_path_inj; [|plain_list..].
    by simplify_list_eq.
  - rewrite !(podVolumeDir_layout r base) by auto.
    rewrite !decide_False by (apply Hv1 || apply Hv2).
    intros H%rooted_path_inj; [|plain_list..]. by simplify_list_eq.
Qed.

Lemma pod_directories_injective_witness :
  (PodDir sample_base "u1" = PodDir sample_base "u2" → "u1" = "u2") ∧
  (podVolumeDir sample_base "u1" "bind" "v" = podVolumeDir sample_base "u2" "bind" "v" →
   "u1" = "u2" ∧ "bind" = "bind" ∧ "v" = "v").
Proof.
  apply (pod_directories_injective sample_base ["data"] "u1" "u2" "bind" "bind" "v" "v");
    first [reflexivity | plain_list].
Defined.

(** The directory under which a remote volume is mounted is the one the
    cleanup of the pod unmounts: joining a directory entry to the remote volume
    directory of the pod gives the directory of the volume of that name. *)
Theorem remote_volume_path_agrees r base uid vol :
  br_dataDir r = rooted_path base → Forall plain base → plain uid → plain vol →
  filepath_Join [PodRemoteVolumeDir r uid ""; vol] = PodRemoteVolumeDir r uid vol.
Proof.
  intros Hd Hb Hu Hv. unfold PodRemoteVolumeDir.
  rewrite !(podVolumeDir_layout r base) by (try done; first [plain_literal | auto]).
  rewrite decide_True, decide_False by (done || apply Hv). rewrite Join_rooted.
  - cbn [List.filter]. rewrite bool_decide_eq_false_2 by apply Hv. simpl.
    by rewrite <- !app_assoc.
  - plain_list.
  - constructor; [by left|constructor].
Qed.

Lemma remote_volume_path_agrees_witness :
  filepath_Join [PodRemoteVolumeDir sample_base "u1" ""; "vol"] = PodRemoteVolumeDir sample_base "u1" "vol".
Proof.
  apply (remote_volume_path_agrees sample_base ["data"] "u1" "vol"); first [reflexivity | plain_list].
Defined.

(** *** References to variables *)

(** Expansion replaces a reference [${NAME}] or [$(NAME)] by what the mapping
    gives for the name (and the reference itself as the fallback), copies the
    text before it, and goes on after it. *)
Theorem Expand_reference mapping p name s :
  has_dollar p = false → all_alnum name = true → 2 ≤ String.length name →
  Expand mapping (p +:+ "${" +:+ name +:+ "}" +:+ s) =
    p +:+ mapping name ("${" +:+ name +:+ "}") +:+ Expand mapping s ∧
  Expand mapping (p +:+ "$(" +:+ name +:+ ")" +:+ s) =
    p +:+ mapping name ("$(" +:+ name +:+ ")") +:+ Expand mapping s.
Proof.
  intros Hp Hn Hl. split; rewrite Expand_prefix by done; f_equal.
  - apply (Expand_bracketed mapping "{" "}"); auto.
  - apply (Expand_bracketed mapping "(" ")"); auto.
Qed.

Lemma Expand_reference_witness :
  Expand (λ n _, "<" +:+ n +:+ ">") "dir=${HOME}/x" = "dir=<HOME>/x" ∧
  Expand (λ n _, "<" +:+ n +:+ ">") "dir=$(HOME)/x" = "dir=<HOME>/x".
Proof.
  apply (Expand_reference (λ n _, "<" +:+ n +:+ ">") "dir=" "HOME" "/x");
    first [reflexivity | simpl; lia].
Defined.
