(* ===== verification/ConfigTheorems.v ===== *)
(** Properties of the configuration, of the storage drivers and of the process. *)

From S2P Require Import Prelude GoPath World Libpod Mem BaseRuntime Expand Storage Find Container Drivers Conf Samples Runtime App.
From stdpp Require Import base gmap strings pretty list fin_maps numbers.
From Stdlib Require Import Ascii.

(** ** The storage driver *)

Section driver.
Context {E : Type} `{!Env E}.
Notation W := (World E).




End driver.

Section setup.
Context {E : Type} `{!Env E}.
Notation W := (World E).

End setup.




(** ** The arguments of sshfs *)

Lemma os_Expand_refs_prefix p s : has_dollar p = false → os_Expand_refs (p +:+ s) = os_Expand_refs s.
Proof.
  unfold os_Expand_refs. induction p as [|c p IH]; [done|]. intros [Hc Hp]%orb_false_iff.
  change (String c p +:+ s) with (String c (p +:+ s)). cbn [os_expand_from]. rewrite Hc. cbn [andb].
  rewrite <- IH by done. by destruct (os_expand_from 0 (p +:+ s)).
Qed.

Lemma string_app_empty (s : string) : s +:+ "" = s.
Proof. induction s as [|c s IH]; [done|]. exact (f_equal (String c) IH). Qed.

Lemma alnum_no_dollar s : all_alnum s = true → has_dollar s = false.
Proof.
  induction s as [|c s IH]; [done|]. intros [Hc Hs]%andb_true_iff. simpl.
  rewrite IH by done. by rewrite bool_decide_eq_false_2 by (intros ->; discriminate).
Qed.

(** The check that the later arguments of sshfs hold no reference misses those
    in round brackets, which the mount command expands all the same: the driver
    is built, and the local directory appears in an argument that was meant to
    be constant. *)
Theorem sshfs_hidden_reference (p name : string) remote mountPoint :
  has_dollar p = false → all_alnum name = true → 2 ≤ String.length name →
  List.existsb (strings_Contains (p +:+ "$(" +:+ name +:+ ")")) ["password_stdin"; "slave"]%string = false →
  let args := ["$ARHAT_STORAGE_REMOTE_PATH"; "$ARHAT_STORAGE_MOUNTPOINT"; p +:+ "$(" +:+ name +:+ ")"]%string in
  ∃ d, sshfs_New (SshfsConfig args) = inr d ∧
    GetMountCmd d remote mountPoint =
      ["sshfs"; filepath_Clean remote; mountPoint;
       p +:+ (if decide (name = "ARHAT_STORAGE_MOUNTPOINT") then mountPoint
              else if decide (name = "ARHAT_STORAGE_REMOTE_PATH") then filepath_Clean remote
              else "$(" +:+ name +:+ ")"); "-f"; "-o"; "reconnect"]%string.
Proof.
  intros Hp Hn Hl Hb args.
  assert (os_Expand_refs (p +:+ "$(" +:+ name +:+ ")") = []) as Href.
  { rewrite os_Expand_refs_prefix by done. unfold os_Expand_refs. rewrite os_Expand_round. simpl.
    rewrite os_Expand_refs_prefix by by apply alnum_no_dollar. reflexivity. }
  exists (SshfsDriver (args ++ ["-f"; "-o"; "reconnect"]%string)). split.
  - unfold sshfs_New, args, sshfs_check_args, sshfs_blacklist. rewrite Href, Hb. reflexivity.
  - unfold GetMountCmd, ResolveStorageCommand, args. cbn [fmap list_fmap app].
    set (f := storage_mapping (filepath_Clean remote) mountPoint).
    assert (Expand f (p +:+ "$(" +:+ name +:+ ")") = p +:+ f name ("$(" +:+ name +:+ ")")) as ->.
    { rewrite Expand_prefix by done. f_equal.
      rewrite <- (string_app_empty (f name _)). by apply (Expand_bracketed f "(" ")"); [right| |]. }
    unfold f at 3. unfold storage_mapping at 1.
    change (Expand f "$ARHAT_STORAGE_REMOTE_PATH") with (filepath_Clean remote +:+ "").
    change (Expand f "$ARHAT_STORAGE_MOUNTPOINT") with (mountPoint +:+ "").
    by rewrite !string_app_empty.
Qed.

Lemma sshfs_hidden_reference_witness :
  let args := ["$ARHAT_STORAGE_REMOTE_PATH"; "$ARHAT_STORAGE_MOUNTPOINT"; "-ofsname=$(ARHAT_STORAGE_MOUNTPOINT)"]%string in
  ∃ d, sshfs_New (SshfsConfig args) = inr d ∧
    GetMountCmd d "/r" "/m" = ["sshfs"; "/r"; "/m"; "-ofsname=/m"; "-f"; "-o"; "reconnect"]%string.
Proof.
  apply (sshfs_hidden_reference "-ofsname=" "ARHAT_STORAGE_MOUNTPOINT" "/r" "/m");
    first [reflexivity | simpl; lia].
Defined.

(** ** The process *)

Section process.
Context {E : Type} `{!Env E}.
Notation W := (World E).

(** The exit code of the process: 1 exactly if the command line is refused, the
    configuration cannot be read or one of the steps before the main loop fails;
    the main loop itself only ends with code 0, and the version command reads no
    configuration. *)
Theorem main_exit_code fuel OpenFile b version arch read args (w : W) code w' :
  main false fuel OpenFile b version arch read args w = (Ok code, w') →
  (code = 0 ∨ code = 1) ∧
  (code = 1 ↔
     (∃ e, args = inl e) ∨
     (args = inr RootCmd ∧
       ((∃ e w1, read w = (Err e, w1)) ∨
        ∃ ctx config w1 e w2, read w = (Ok (ctx, config), w1) ∧
          setup OpenFile ctx config version arch w1 = (Err e, w2)))) ∧
  (∀ opt, args = inr (VersionCmd opt) → w' = w).
Proof.
  unfold main, try, from_sum, Execute, PersistentPreRunE, mbind, M_bind, mret, M_ret.
  destruct args as [e|[|opt]]; simpl.
  - intros [= <- <-]. split; [by right|]. split; [|done]. split; [intros _; left; by exists e|done].
  - destruct (read w) as [[[ctx config]|e|p|] w1] eqn:Hr; simpl; [|..|done|done]; cycle 1.
    { intros [= <- <-]. split; [by right|]. split; [|done]. split; [|by intros _].
      intros _. right. split; [done|]. left. by exists e, w1. }
    unfold run, mbind, M_bind.
    destruct (setup OpenFile ctx config version arch w1) as [[rt|e|p|] w2] eqn:Hs; simpl; [|..|done|done]; cycle 1.
    { intros [= <- <-]. split; [by right|]. split; [|done]. split; [|by intros _].
      intros _. right. split; [done|]. right. by exists ctx, config, w1, e, w2. }
    destruct (serve fuel ctx w2) as [[[]|e|p|] w3] eqn:Hv; simpl; [| |done|done]; cycle 1.
    { by destruct (serve_no_error fuel ctx w2 e); rewrite Hv. }
    intros [= <- <-]. split; [by left|]. split; [|done].
    split; [done|]. intros [[e ?]|[_ [(e & w4 & ?)|(c & cf & w4 & e & w5 & Heq & He)]]]; simplify_eq; congruence.
  - intros [= <- <-]. split; [by left|]. split; [|done].
    split; [done|]. intros [[e ?]|[? _]]; done.
Qed.
End process.

Lemma main_exit_code_witness :
  ∃ w', main false 5 (λ _, None) (mkBuildInfo "" "" "" "" "" "") "v" "amd64"
          (fail (Errorf "no file")) (inr RootCmd) (sample_world []) = (Ok 1, w').
Proof.
  exists (sample_world []).
  assert (main false 5 (λ _, None) (mkBuildInfo "" "" "" "" "" "") "v" "amd64"
    (fail (Errorf "no file")) (inr RootCmd) (sample_world []) = (Ok 1, sample_world [])) as H by reflexivity.
  destruct (main_exit_code _ _ _ _ _ _ _ _ _ _ H) as [_ [[Hc _] _]].
  destruct (Hc eq_refl) as [[e He]|_]; [discriminate|exact H].
Defined.
