(* ===== verification/ServiceTheorems.v ===== *)
(** The properties of storage, logs, images, sessions, configuration and the
    main loop. *)

From S2P Require Import Prelude GoPath Proto Labels World Libpod Mem BaseRuntime Expand Storage Find Network Image Logs LogsProofs Action Drivers Conf Samples Runtime App StorageProofs.
From stdpp Require Import base gmap strings pretty list fin_maps numbers.
From Stdlib Require Import Ascii.

Local Open Scope nat_scope.

(** ** Storage *)

Section storage.
Context {E : Type} `{!Env E}.
Notation W := (World E).

(** C26: [Mount] with a mount command to run returns and gives the mutex back on
    every path; it changes the table of mounts only at the mount point, and a
    mount point in use is refused without a change. *)
Theorem Mount_lock_discipline d rp mp (w : W) o w' :
  unlocked w → GetMountCmd d rp mp ≠ [] → Mount d rp mp w = (o, w') →
  unlocked w' ∧ same_elsewhere mp w w' ∧ returns_outcome o ∧
  (is_Some (mounts w !! mp) → o = Err ErrMountpointInUse ∧ mounts w' = mounts w).
Proof. intros Hu Hc H. by apply (wp_elim _ _ _ _ _ H (wp_Mount d rp mp w Hu Hc)). Qed.

(** [Unmount] returns with the mutex free and the mount point no longer
    recorded, the other mounts untouched; it succeeds without a command when
    the mount point is not recorded. *)
Theorem Unmount_spec d mp (w : W) o w' :
  unlocked w → Unmount d mp w = (o, w') →
  unlocked w' ∧ mounts w' = delete mp (mounts w) ∧ returns_outcome o ∧
  (mounts w !! mp = None → o = Ok ()).
Proof. intros Hu H. by apply (wp_elim _ _ _ _ _ H (wp_Unmount d mp w Hu)). Qed.

(** The default driver has no mount command, and [Mount] then returns without
    unlocking: the next [Mount] or [Unmount] of any path blocks for ever. *)
Theorem Mount_default_driver_deadlock rp mp (w : W) o w' :
  unlocked w → mounts w !! mp = None → mp ∉ sto_timers (w_storage w) →
  Mount NopDriver rp mp w = (o, w') →
  (∃ e, o = Err e) ∧
  ∀ d rp2 mp2, Mount d rp2 mp2 w' = (Hang, w') ∧ Unmount d mp2 w' = (Hang, w').
Proof.
  intros Hu Hm Ht H.
  destruct (wp_elim _ _ _ _ _ H (wp_Mount_no_command NopDriver rp mp w Hu Hm Ht eq_refl)) as [Hl He].
  split; [done|]. intros d rp2 mp2. split; [by apply Mount_locked|by apply Unmount_locked].
Qed.

(** [CleanupPodData] tries to remove the directory of the pod at least once
    and at most six times, and reports success only if a removal succeeded. *)
Theorem CleanupPodData_bounded podDir remoteDir tmpfsDir d (w : W) o w' :
  CleanupPodData podDir remoteDir tmpfsDir (λ path, Unmount d path) w = (o, w') →
  removals w < removals w' ≤ removals w + 6 ∧
  (o = Ok () → performed (RemoveAllOneFilesystem podDir) (inr ()) w').
Proof.
  intros H. apply (wp_elim _ _ _ _ _ H (wp_CleanupPodData podDir remoteDir tmpfsDir
    (λ path, Unmount d path) (no_removal_Unmount d) w)).
Qed.

(** Where the pod has no remote volume, the retries of [CleanupPodData] do
    nothing: a removal that fails once is not tried again. *)
Theorem CleanupPodData_no_retry podDir remoteDir tmpfsDir d (w : W) e w' :
  (∀ dir s, (handle (ReadDir dir) s).1 = []) →
  CleanupPodData podDir remoteDir tmpfsDir (λ path, Unmount d path) w = (Err e, w') →
  removals w' = S (removals w).
Proof.
  intros Hdir H. revert H. 
  assert (wp (CleanupPodData podDir remoteDir tmpfsDir (λ path, Unmount d path))
            (λ o w', ∀ e, o = Err e → removals w' = S (removals w)) w) as Hwp.
  { unfold CleanupPodData. apply wp_bind. eapply wp_mono; [|apply wp_try_remove].
    intros o w1 (H1 & [e1|] & -> & _); cbn [obind]; apply wp_bind.
    - eapply wp_mono; [|apply wp_cleanup_loop_no_retry; done].
      intros o w2 [H2 ->]. simpl. apply wp_fail. intros _ _. lia.
    - apply wp_ret. simpl. by apply wp_ret. }
  intros H. by eapply (wp_elim _ _ _ _ _ H Hwp e).
Qed.
End storage.

Definition general_driver : Driver :=
  GeneralDriver "mount" ["${ARHAT_STORAGE_REMOTE_PATH}"; "$(ARHAT_STORAGE_MOUNTPOINT)"]%string false.

Lemma Mount_lock_discipline_witness :
  let x := Mount general_driver "srv:/d" "/mnt" (sample_world []) in
  unlocked x.2 ∧ returns_outcome x.1.
Proof.
  destruct (Mount_lock_discipline general_driver "srv:/d" "/mnt" (sample_world [])
    (Mount general_driver "srv:/d" "/mnt" (sample_world [])).1
    (Mount general_driver "srv:/d" "/mnt" (sample_world [])).2) as (H1 & _ & H2 & _).
  - reflexivity.
  - discriminate.
  - apply surjective_pairing.
  - split; assumption.
Defined.

Lemma Unmount_spec_witness :
  let x := Unmount general_driver "/mnt" (sample_world []) in
  unlocked x.2 ∧ x.1 = Ok ().
Proof.
  destruct (Unmount_spec general_driver "/mnt" (sample_world [])
    (Unmount general_driver "/mnt" (sample_world [])).1
    (Unmount general_driver "/mnt" (sample_world [])).2) as (H1 & _ & _ & H2).
  - reflexivity.
  - apply surjective_pairing.
  - split; [exact H1|]. apply H2. reflexivity.
Defined.

Lemma Mount_default_driver_deadlock_witness :
  let w' := (Mount NopDriver "srv:/d" "/mnt" (sample_world [])).2 in
  Unmount general_driver "/other" w' = (Hang, w').
Proof.
  destruct (Mount_default_driver_deadlock "srv:/d" "/mnt" (sample_world [])
    (Mount NopDriver "srv:/d" "/mnt" (sample_world [])).1
    (Mount NopDriver "srv:/d" "/mnt" (sample_world [])).2) as [_ H].
  - reflexivity.
  - reflexivity.
  - intros Hx. by apply elem_of_empty in Hx.
  - apply surjective_pairing.
  - apply (H general_driver "" "/other").
Defined.

Lemma CleanupPodData_bounded_witness :
  ∃ w', CleanupPodData "/d/pods/u1" "/r" "/t" (λ path, Unmount NopDriver path) (sample_world []) = (Ok (), w') ∧
    performed (RemoveAllOneFilesystem "/d/pods/u1") (inr ()) w'.
Proof.
  destruct (run_ok (CleanupPodData "/d/pods/u1" "/r" "/t" (λ path, Unmount NopDriver path)) (sample_world []))
    as ([] & w' & H); [vm_compute; reflexivity|].
  destruct (CleanupPodData_bounded _ _ _ _ _ _ _ H) as [_ Hp]. exists w'. split; [exact H|].
  apply Hp. reflexivity.
Defined.

Lemma CleanupPodData_no_retry_witness :
  ∃ e w', CleanupPodData "/d/pods/u1" "/r" "/t" (λ path, Unmount NopDriver path) (sample_world [0]) = (Err e, w') ∧
    removals w' = 1.
Proof.
  destruct (run_err (CleanupPodData "/d/pods/u1" "/r" "/t" (λ path, Unmount NopDriver path)) (sample_world [0]))
    as (e & w' & H); [vm_compute; reflexivity|].
  exists e, w'. split; [exact H|].
  apply (CleanupPodData_no_retry "/d/pods/u1" "/r" "/t" NopDriver (sample_world [0]) e w'); [|exact H].
  reflexivity.
Defined.

(** ** Logs *)

(** C30: The tail position for [n] lines: the start of the file when it has at
    most [n] line ends; otherwise the position just after a line end with
    exactly [n] line ends after it. *)
Theorem findTailLineStartIndex_spec f (n : nat) :
  let r := findTailLineStartIndex f (Z.of_nat n) in
  (count_eol f ≤ n → r = 0) ∧
  (n < count_eol f → count_eol (drop r f) = n ∧ ∃ j, r = S j ∧ f !! j = Some eol).
Proof. apply findTail_spec. Qed.

(** A line in CRI format is read back: its time, its stream and its text,
    the text without its line end when the first tag marks a partial line. *)
Theorem parseCRILog_roundtrip parse_rfc3339 ts t stream st tag text :
  delimiter ∉ ts → parse_rfc3339 ts = Some t →
  (stream, st) ∈ [(String.list_ascii_of_string "stdout", stdout);
                  (String.list_ascii_of_string "stderr", stderr)] →
  delimiter ∉ tag →
  parseCRILog parse_rfc3339 (cri_line ts stream tag text) =
  inr (mkLogMessage t st
         (if bool_decide (split_first tagDelimiter tag = ["P"%char]) && ends_with_eol text
          then take (length text - 1) text else text)).
Proof. apply parseCRILog_line. Qed.

Lemma parseCRILog_roundtrip_witness :
  parseCRILog (λ _, Some 7%Z)
    (cri_line (String.list_ascii_of_string "2016-10-06T00:17:09Z") (String.list_ascii_of_string "stderr")
       ["P"%char] ["x"%char; eol]) =
  inr (mkLogMessage 7 stderr ["x"%char]).
Proof.
  apply (parseCRILog_roundtrip (λ _, Some 7%Z) (String.list_ascii_of_string "2016-10-06T00:17:09Z") 7%Z
    (String.list_ascii_of_string "stderr") stderr ["P"%char] ["x"%char; eol]).
  - apply (bool_decide_unpack _). vm_compute. exact I.
  - reflexivity.
  - right. left.
  - apply (bool_decide_unpack _). vm_compute. exact I.
Defined.

Section logs.
Context (parse_rfc3339 parse_arhat_time parse_since : bytes → option Z).
Context (format_time : Z → bytes).
Context (docker_json : bytes → option (bytes * bytes * Z)) (arhat_json : bytes → option bytes).
Context {E : Type} `{!Env E}.
Notation W := (World E).
Notation ReadLogs := (ReadLogs parse_rfc3339 parse_arhat_time parse_since format_time docker_json
                        arhat_json).

(** C29: A log read with a byte limit hands at most that many bytes to the
    writers of the session, whether it follows the file or not. *)
Theorem ReadLogs_byte_limit extra ctx path o (w : W) out w' :
  (0 ≤ lc_BytesLimit o)%Z → ReadLogs extra ctx path o w = (out, w') →
  (Z.of_nat (written w') ≤ Z.of_nat (written w) + lc_BytesLimit o)%Z.
Proof.
  intros Hl H. by apply (wp_elim _ _ _ _ _ H (ReadLogs_limit parse_rfc3339 parse_arhat_time parse_since
    format_time docker_json arhat_json extra ctx path o w Hl)).
Qed.

(** A log read that does not follow the file ends, with success or an error:
    the iterations provided for a file of that size are enough. *)
Theorem ReadLogs_terminates extra ctx path o (w : W) :
  lc_Follow o = false → returns_outcome (ReadLogs extra ctx path o w).1.
Proof. intros Hf. by apply ReadLogs_ends. Qed.
End logs.

Definition sample_logs (limit : Z) : LogsCmd := mkLogsCmd "u2" "app" false false "" (-1) limit false "".

Lemma ReadLogs_byte_limit_witness :
  let x := ReadLogs (λ _, Some 1%Z) (λ _, None) (λ _, None) (λ _, []) (λ _, None) (λ _, None)
             0 TODO "/log" (sample_logs 10) service_world in
  written x.2 = 10 ∧ (Z.of_nat (written x.2) ≤ 10)%Z.
Proof.
  split; [vm_compute; reflexivity|].
  apply (ReadLogs_byte_limit (λ _, Some 1%Z) (λ _, None) (λ _, None) (λ _, []) (λ _, None) (λ _, None)
    0 TODO "/log" (sample_logs 10) service_world
    (ReadLogs (λ _, Some 1%Z) (λ _, None) (λ _, None) (λ _, []) (λ _, None) (λ _, None)
             0 TODO "/log" (sample_logs 10) service_world).1).
  - discriminate.
  - apply surjective_pairing.
Defined.

Lemma ReadLogs_terminates_witness :
  returns_outcome
    (ReadLogs (λ _, Some 1%Z) (λ _, None) (λ _, None) (λ _, []) (λ _, None) (λ _, None)
       0 TODO "/log" (sample_logs (-1)) service_world).1.
Proof.
  apply (ReadLogs_terminates (λ _, Some 1%Z) (λ _, None) (λ _, None) (λ _, []) (λ _, None) (λ _, None)
    0 TODO "/log" (sample_logs (-1)) service_world).
  reflexivity.
Defined.

(** ** Images and sessions *)

Section services.
Context {E : Type} `{!Env E, !Store E, !LibpodLaws E}.
Notation W := (World E).

(** A successful [ensureImages] has pulled exactly the requested images, each
    with the credentials and the pull policy of its spec. *)
Theorem ensureImages_exact r ctx images (w : W) pulled w' :
  ensureImages r ctx images w = (Ok pulled, w') →
  dom pulled = dom images ∧
  (∀ name img, pulled !! name = Some img →
     ∃ spec, images !! name = Some (Some spec) ∧ pulled_as name spec img w').
Proof. intros H. by apply (wp_elim _ _ _ _ _ H (wp_ensureImages r ctx images w)). Qed.

(** The status list of a successful [EnsureImages] begins with one nil entry
    per image; the statuses, each with a digest, come after them. *)
Theorem EnsureImages_nil_entries r ctx o (w : W) msg w' :
  EnsureImages r ctx o w = (Ok msg, w') →
  ∃ msgs,
    iml_Images msg = replicate (size (all_images (rt_pauseImage r) o)) None ++ (Some <$> msgs) ∧
    Forall (λ m, im_Sha256 m ≠ ""%string) msgs ∧
    length msgs ≤ size (all_images (rt_pauseImage r) o).
Proof. intros H. by apply (wp_elim _ _ _ _ _ H (wp_EnsureImages r ctx o w)). Qed.

(** [Exec] runs the command of the request in the container that carries the
    UID and the name of the request, attached to stdin exactly when a reader is
    given; it fails only when that container was not found. *)
Theorem Exec_target ctx uid n i o e cmd tty (w : W) out w' :
  Exec ctx uid n i o e cmd tty w = (out, w') →
  match out with
  | Ok _ => ∃ c cfg, c ∈ wctrs w ∧ is_container uid n c ∧
                     ec_Command cfg = cmd ∧ ec_Terminal cfg = tty ∧
                     ec_AttachStdin cfg = bool_decide (is_Some i) ∧
                     attempted (Ctr_Exec c cfg i) w'
  | Err er => found_in (container_filter uid n) (wctrs w) (Err er)
  | _ => False
  end.
Proof.
  intros H. pose proof (wp_elim _ _ _ _ _ H (wp_Exec ctx uid n i o e cmd tty w)) as [_ Hw].
  destruct out; [|done..]. destruct Hw as (c & cfg & Hc & Hm & Hr).
  exists c, cfg. split; [done|]. split; [by apply container_filter_is|done].
Qed.

(** [PortForward] dials the last address of the pause container that is not a
    loopback address, with the length of its network mask appended: not the
    plain address of the pod.  Without such an address, or when the addresses
    could not be read, it dials an empty host. *)
Theorem PortForward_dials_network uid proto port (w : W) w' :
  PortForward uid proto port w = (Ok (), w') →
  ∃ c addresses, c ∈ wctrs w ∧ is_container uid ContainerNamePause c ∧
    (performed (Ctr_IPs c) (inr addresses) w' ∨ addresses = []) ∧
    attempted (Net_Dial proto
      (JoinHostPort
         match list.last (List.filter (λ a, negb (ipn_Loopback a)) addresses) with
         | Some a => ipn_IP a +:+ "/" +:+ pretty (ipn_Ones a)
         | None => ""
         end (pretty port))) w'.
Proof.
  intros H. destruct (wp_elim _ _ _ _ _ H (wp_PortForward uid proto port w))
    as (_ & c & Hc & Hm & addresses & Ha & Hd).
  exists c, addresses. split; [done|]. split; [by apply container_filter_is|]. split; [done|].
  by rewrite <- pod_address_last.
Qed.
End services.

(** ** Requests to abbot *)

(** No exec was started with stdin or with an environment. *)
Definition bare_exec (c : call) : bool :=
  match c with
  | Call e _ => match e with
                | Ctr_Exec _ cfg i => bool_decide (i = None) && bool_decide (ec_Environment cfg = ∅)
                | _ => true
                end
  end.

Section abbot.
Context {E : Type} `{!Env E}.
Notation W := (World E).

Definition bare_execs (w w' : W) : Prop :=
  ∃ l, w_trace w' = w_trace w ++ l ∧ Forall (λ c, bare_exec c = true) l.

Global Instance bare_execs_preorder : PreOrder bare_execs.
Proof.
  split; [intros w; exists []; by rewrite app_nil_r|].
  intros w1 w2 w3 (l1 & H1 & F1) (l2 & H2 & F2). exists (l1 ++ l2).
  rewrite H2, H1, app_assoc. split; [done|]. by apply Forall_app.
Qed.

Lemma bare_perform {X} (e : Ev X) :
  (∀ x, bare_exec (Call e x) = true) → keeps bare_execs (perform e).
Proof.
  intros He w. exists [Call e (handle e (w_env w)).1]. unfold perform.
  destruct (handle e (w_env w)) as [x s]. split; [done|]. by apply Forall_singleton.
Qed.

Lemma bare_invoke {X} (e : Ev (string + X)) :
  (∀ x, bare_exec (Call e x) = true) → keeps bare_execs (invoke e).
Proof. intros He. apply keeps_bind; [apply _|by apply bare_perform|]. keeps_solve. Qed.

Lemma bare_select_done c : keeps bare_execs (select_done c).
Proof.
  unfold select_done. apply keeps_bind; [apply _| |].
  - intros w. unfold ctx_done. destruct (ctx_canceled _ _); [reflexivity|].
    by apply (bare_perform (Ctx_Expired c)).
  - intros []; [by apply bare_perform|keeps_solve].
Qed.

#[local] Hint Extern 1 (keeps bare_execs (perform _)) => apply bare_perform; reflexivity : keeps.
#[local] Hint Extern 1 (keeps bare_execs (invoke _)) => apply bare_invoke; reflexivity : keeps.
#[local] Hint Resolve bare_select_done : keeps.

Lemma bare_findAbbotContainer : keeps bare_execs findAbbotContainer.
Proof. unfold findAbbotContainer, findContainerByLabels, listContainersByLabels, GetContainers. keeps_solve. Qed.
#[local] Hint Resolve bare_findAbbotContainer : keeps.

Lemma bare_exec_in_container ctx c o e cmd t :
  keeps bare_execs (execInContainer ctx c None o e cmd t ∅).
Proof. unfold execInContainer. keeps_solve. Qed.
#[local] Hint Resolve bare_exec_in_container : keeps.

(** What the pod asks of abbot never reaches it: every exec that a network
    request starts has no stdin, so the request bytes are dropped, and an empty
    environment, so the action, the PID and the container ID are too. *)
Theorem net_Do_request_dropped r ctx data pid id (w : W) :
  bare_execs w (net_Do r ctx data pid id w).2.
Proof.
  apply (keeps_bind bare_execs (handleAbbotExec r ctx (abbot_env None pid id) (Some data) true true));
    [|intros; keeps_solve].
  unfold handleAbbotExec, wait_errCh. keeps_solve.
Qed.
End abbot.

(** ** Configuration and main loop *)

(** Termination signals: whatever other signals arrive, the first interrupt
    or SIGTERM cancels the application and the second ends the process; nothing
    happens after that. *)
Theorem signals_cancel_then_exit sigs :
  run_signals 0 sigs =
  match length (List.filter terminating sigs) with
  | 0 => []
  | 1 => [CancelApp]
  | _ => [CancelApp; ExitProcess]
  end.
Proof. rewrite run_signals_spec. by destruct (length _) as [|[]]. Qed.

(** The log flags that [ReadConfig] lets override the configuration file are
    not flags of the command, so they never count as changed. *)
Theorem log_flags_not_registered config name :
  name ∈ ["log.format"; "log.level"; "log.file"]%string → name ∉ command_flags config.
Proof.
  intros Hn Hin. unfold command_flags in Hin. simpl in Hin.
  repeat (apply elem_of_cons in Hn as [->|Hn];
          [repeat (apply elem_of_cons in Hin as [Heq|Hin]; [discriminate Heq|]);
           by apply not_elem_of_nil in Hin|]).
  by apply not_elem_of_nil in Hn.
Qed.

Lemma log_flags_not_registered_witness :
  "log.level"%string ∉ command_flags (mkConfig (mkAppConfig [] "" 0) sample_config (mkClientConfig "" Untyped "" "" 0 [])).
Proof.
  apply (log_flags_not_registered (mkConfig (mkAppConfig [] "" 0) sample_config (mkClientConfig "" Untyped "" "" 0 [])) "log.level").
  right. left.
Defined.

Lemma ensureImages_exact_witness :
  ∃ pulled w', ensureImages sample_runtime TODO (all_images "pause" (Build_ImageEnsureCmd ∅))
                 (sample_world []) = (Ok pulled, w') ∧ dom pulled = {["pause"%string]}.
Proof.
  destruct (run_ok (ensureImages sample_runtime TODO (all_images "pause" (Build_ImageEnsureCmd ∅)))
    (sample_world [])) as (pulled & w' & H); [vm_compute; reflexivity|].
  destruct (ensureImages_exact _ _ _ _ _ _ H) as [Hd _]. exists pulled, w'. split; [exact H|].
  rewrite Hd. vm_compute. reflexivity.
Defined.

Lemma EnsureImages_nil_entries_witness :
  ∃ msg w', EnsureImages sample_runtime TODO (Build_ImageEnsureCmd ∅) service_world = (Ok msg, w') ∧
    ∃ msgs, iml_Images msg = None :: (Some <$> msgs).
Proof.
  destruct (run_ok (EnsureImages sample_runtime TODO (Build_ImageEnsureCmd ∅)) service_world)
    as (msg & w' & H); [vm_compute; reflexivity|].
  destruct (EnsureImages_nil_entries _ _ _ _ _ _ H) as (msgs & Hm & _).
  exists msg, w'. split; [exact H|]. exists msgs. rewrite Hm. reflexivity.
Defined.

Lemma Exec_target_witness :
  ∃ res w' c cfg, Exec TODO "u2" "app" None true true ["ls"%string] false (sample_world []) = (Ok res, w') ∧
    c ∈ wctrs (sample_world []) ∧ ec_Command cfg = ["ls"%string] ∧ attempted (Ctr_Exec c cfg None) w'.
Proof.
  destruct (run_ok (Exec TODO "u2" "app" None true true ["ls"%string] false) (sample_world []))
    as (res & w' & H); [vm_compute; reflexivity|].
  destruct (Exec_target _ _ _ _ _ _ _ _ _ _ _ H) as (c & cfg & H1 & _ & H2 & _ & _ & H3).
  exists res, w', c, cfg. split; [exact H|]. split; [exact H1|]. split; [exact H2|exact H3].
Defined.

Lemma PortForward_dials_network_witness :
  ∃ w' c addresses, PortForward "u2" "tcp" 80 service_world = (Ok (), w') ∧
    c ∈ wctrs service_world ∧ (performed (Ctr_IPs c) (inr addresses) w' ∨ addresses = []) ∧
    List.last (w_trace w') (Call Hub_Codec true) = Call (Net_Dial "tcp" "10.0.0.7/24:80") (inr ()).
Proof.
  destruct (run_ok (PortForward "u2" "tcp" 80) service_world) as ([] & w' & H);
    [vm_compute; reflexivity|].
  destruct (PortForward_dials_network _ _ _ _ _ H) as (c & addresses & Hc & _ & Ha & _).
  exists w', c, addresses. split; [exact H|]. split; [exact Hc|]. split; [exact Ha|].
  change w' with (Ok (), w').2. rewrite <- H. vm_compute. reflexivity.
Defined.
