(* ===== verification/SessionSamples.v ===== *)
(** A codec, an engine and states of the handler on which the theorems about
    sessions are instantiated. *)

From stdpp Require Import base gmap strings pretty list fin_maps numbers.
From S2P Require Import Prelude GoPath Proto Labels World Libpod Mem BaseRuntime Storage Find Container Pod Image Logs Action TimeoutReader SeqQueue Streams Handler Engine Samples.

Local Open Scope Z_scope.

Definition sample_exec : ExecOrAttachCmd := mkExecOrAttachCmd "u2" "app" true true true false ["sh"%string] ∅.

Definition no_images : ImageEnsureCmd := {| ie_Images := ∅ |}.

(** Four packets are known by name; the encoders keep what the examples look at. *)
Definition sample_codec : Codec := {|
  dec_Packet s :=
    if decide (s = "exec"%string) then Ok (mkPacket CMD_EXEC "")
    else if decide (s = "images"%string) then Ok (mkPacket CMD_IMAGE_ENSURE "")
    else if decide (s = "info"%string) then Ok (mkPacket CMD_GET_INFO "")
    else if decide (s = "ensure"%string) then Ok (mkPacket CMD_POD_ENSURE "")
    else Err (Errorf "bad packet");
  enc_Packet p := pkt_Payload p;
  dec_PodEnsure _ := Ok sample_ensure;
  dec_PodDelete _ := Ok (delete_other []);
  dec_PodList _ := Ok list_all;
  dec_ImageEnsure _ := Ok no_images;
  dec_ImageDelete _ := Ok [];
  dec_ImageList _ := Ok [];
  dec_ExecOrAttach _ := Ok sample_exec;
  dec_Logs _ := Err (Errorf "bad logs");
  dec_Resize _ := Ok (80, 24);
  dec_PortForward _ := Err (Errorf "bad forward");
  enc_PodStatus m := psm_Uid m;
  enc_PodStatusList _ := "pods";
  enc_ImageStatusList _ := "images";
  enc_RuntimeInfo i := ri_Name i;
  enc_ErrorMsg e := em_Description e;
  enc_HubError d := d;
  err_Error _ := "error" |}.

Definition sample_parsers : LogParsers :=
  mkLogParsers (λ _, None) (λ _, None) (λ _, None) (λ _, []) (λ _, None) (λ _, None).

Definition sample_peers : Peers := mkPeers "input" ("attached", "") (mkForwarded None []).

#[global] Instance sample_engine : RuntimeEngine (World Mem) :=
  podman_engine sample_runtime (λ _, "error"%string) sample_parsers sample_peers 0.

(** The world of [Samples.service_world], where an exec writes two outputs and
    ends with an exit code. *)
Definition session_world : World Mem :=
  mkWorld
    (mkMem [other_pause; other_work] [other_sample_pod] 0 0 [] ContainerStateRunning false
       (mkExecResult 3 (Some "exit"%string) "hello" "oops") (Some (mkImageConfig "" "" ["/app"%string] [] []))
       ["pause@sha256:abc"%string] [] "")
    [] 0 ∅ (mkStorageClient false ∅ ∅).

Definition sample_state : HState (World Mem) :=
  mkHState session_world NewStreamManager [] (λ _, None).

(** The same with an open session. *)
Definition busy_state : HState (World Mem) :=
  mkHState session_world (mkStreamManager {[ 7 := new_stream ]} false) [] (λ _, None).

(** Reads of three bytes, the outputs in turn; the outputs stay open. *)
Definition sample_schedule : schedule :=
  (λ which, (which, mkArrival 2 false)) <$> [false; true; false; true; false; true; false; true; false].

(** What an exec sends. *)
Example sample_exec_runs :
  match HandleCmd sample_codec 4 sample_schedule TODO 7 1 CMD_RUNTIME_ARANYA_PROTO (Some "exec"%string)
          sample_state with
  | (Ok _, h) => (λ m, (msg_Kind m, msg_Ack m, msg_Payload m)) <$> (hs_sent h).*1 =
      [(0, 0, Some "hel"%string); (21, 1, Some "oop"%string); (0, 2, Some "lo"%string);
       (21, 3, Some "s"%string); (2, 4, Some "exit"%string)]
  | _ => False
  end.
Proof. vm_compute. reflexivity. Qed.

Lemma sample_idle : sm_idle (hs_streams sample_state).
Proof. split; [done|]. intros sid s. simpl. by rewrite lookup_empty. Qed.

Lemma busy_idle : sm_idle (hs_streams busy_state).
Proof. split; [done|]. intros sid s. simpl. rewrite lookup_singleton_Some. by intros [_ <-]. Qed.

Lemma sample_not_done (w : World Mem) : (eng_CtxDone TODO w).1 = Ok false.
Proof. done. Qed.
