(* ===== verification/Commands.v ===== *)
(** The runtime as a whole: its operations as requests, what every one of them
    does to the set of managed pods, and the invariant of the states that are
    reached by any sequence of them.

    The abstract view of a world is the set of the UIDs of its pods.  [allowed]
    is the contract of each request on that set; the engine refines it. *)

From stdpp Require Import base gmap strings pretty list fin_maps fin_sets numbers relations.
From S2P Require Import Prelude GoPath Proto Labels World Libpod Mem BaseRuntime Storage Find Network Translate Container ContainerProofs Pod PodProofs DeleteProofs EnsureProofs Image Logs Action Conf Runtime SeqQueue Streams Handler Engine Samples SessionSamples.

(** ** Requests *)

Inductive request :=
| ReqEnsurePod (ctx : Ctx) (options : PodEnsureCmd)
| ReqDeletePod (ctx : Ctx) (options : PodDeleteCmd)
| ReqListPods (ctx : Ctx) (options : PodListCmd)
| ReqEnsureImages (ctx : Ctx) (options : ImageEnsureCmd)
| ReqExec (ctx : Ctx) (podUID container : string) (stdin out err : bool) (command : list string) (tty : bool)
| ReqAttach (ctx : Ctx) (podUID container : string) (stdin out err : bool)
| ReqLogs (ctx : Ctx) (options : LogsCmd)
| ReqPortForward (ctx : Ctx) (podUID protocol : string) (port : Z)
| ReqInit.

Section run.
Context {E : Type} `{!Env E}.
Context (r : libpodRuntime) (err_text : error → string) (parsers : LogParsers) (peers : Peers) (follow : nat).
Notation M := (M (World E)).

(** A request on the podman engine, without its answer. *)
Definition run_request (q : request) : M unit :=
  let eng := podman_engine r err_text parsers peers follow in
  match q with
  | ReqEnsurePod ctx o => eng_EnsurePod ctx o;; mret ()
  | ReqDeletePod ctx o => eng_DeletePod ctx o;; mret ()
  | ReqListPods ctx o => eng_ListPods ctx o;; mret ()
  | ReqEnsureImages ctx o => eng_EnsureImages ctx o;; mret ()
  | ReqExec ctx uid c i out err cmd tty => eng_Exec ctx uid c i out err cmd tty;; mret ()
  | ReqAttach ctx uid c i out err => eng_Attach ctx uid c i out err;; mret ()
  | ReqLogs ctx o => eng_Logs ctx o;; mret ()
  | ReqPortForward ctx uid proto port => eng_PortForward ctx uid proto port;; mret ()
  | ReqInit => InitRuntime r
  end.

(** The worlds that a sequence of requests leads to, however each of them ends. *)
Inductive reaches (w : World E) : list request → World E → Prop :=
| reaches_nil : reaches w [] w
| reaches_snoc qs q w1 : reaches w qs w1 → reaches w (qs ++ [q]) (run_request q w1).2.
End run.

(** The UIDs for which a pod was requested. *)
Definition ensured_uids (qs : list request) : list string :=
  omap (λ q, match q with ReqEnsurePod _ o => Some (pe_PodUid o) | _ => None end) qs.

(** ** The abstract view *)

Definition pod_uid (p : Pod) : option string := pod_Labels p !! ContainerLabelPodUID.

Section view.
Context {E : Type} `{!Env E, !Store E}.
Notation W := (World E).

(** The UIDs of the pods, with repetitions, and as a set. *)
Definition uids (w : W) : list string := omap pod_uid (wpods w).
Definition managed (w : W) : gset string := list_to_set (uids w).

(** Pod and container IDs are unique, and so are the UIDs of the pods. *)
Record well_formed (w : W) : Prop := {
  wf_pods : NoDup (pod_ID <$> wpods w);
  wf_ctrs : NoDup (ctr_ID <$> wctrs w);
  wf_uids : NoDup (uids w) }.
End view.

(** The contract: the managed UIDs [S] before and [S'] after a request that
    succeeded ([ok]) or not. *)
Definition allowed (q : request) (ok : bool) (S S' : gset string) : Prop :=
  match q with
  | ReqEnsurePod _ o =>
      S' ⊆ S ∪ {[pe_PodUid o]} ∧ (ok = true → pe_PodUid o ≠ ""%string → pe_PodUid o ∈ S')
  | ReqDeletePod _ o =>
      match pd_Containers o with
      | [] => S ∖ {[pd_PodUid o]} ⊆ S' ∧ S' ⊆ S ∧ (ok = true → S' = S ∖ {[pd_PodUid o]})
      | _ => S' = S
      end
  | ReqListPods _ _ => S' ⊆ S
  | ReqInit => S' = S
  | _ => S' = S
  end.

(** ** Frames *)

Section frames.
Context {E : Type} `{!Env E, !Store E, !LibpodLaws E}.
Notation W := (World E).

(** Pods only disappear, and container IDs stay unique. *)
Definition tame (w w' : W) : Prop :=
  wpods w' `sublist_of` wpods w ∧
  (NoDup (ctr_ID <$> wctrs w) → NoDup (ctr_ID <$> wctrs w')).

(** The pods are the same. *)
Definition same_pods (w w' : W) : Prop := wpods w' = wpods w ∧ tame w w'.

Lemma tame_same w w' : same_store w w' → tame w w'.
Proof. intros [Hc Hp]. unfold tame. by rewrite Hc, Hp. Qed.

Lemma same_pods_same w w' : same_store w w' → same_pods w w'.
Proof. intros Hs. split; [apply Hs|by apply tame_same]. Qed.

(** A preorder that does not see more than the store is kept by quiet calls. *)
Lemma store_frame (R : relation W) : PreOrder R → (∀ w w', same_store w w' → R w w') → QuietFrame R.
Proof.
  intros HR Hs. split; [done| |].
  - intros X e w Hq. by apply Hs, frame_perform.
  - intros w w' He Ht. by apply Hs, frame_local.
Qed.

#[global] Instance tame_frame : QuietFrame tame.
Proof.
  apply store_frame; [|apply tame_same]. split; [done|].
  intros w1 w2 w3 [H1 H2] [H3 H4]. split; [by etrans|auto].
Qed.

#[global] Instance same_pods_frame : QuietFrame same_pods.
Proof.
  apply store_frame.
  - split; [done|]. intros w1 w2 w3 [H1 H2] [H3 H4]. split; [congruence|by etrans].
  - apply same_pods_same.
Qed.

Lemma tame_shrinks kp kc w w' : store_shrinks kp kc w w' → tame w w'.
Proof. intros (_ & _ & Hp & Hc). split; [done|]. intros Hnd. eapply sublist_NoDup; [done|]. by apply fmap_sublist. Qed.

Lemma keeps_tame_deletePod r ctx p : keeps tame (deletePod r ctx p).
Proof. intros w. eapply tame_shrinks, shrinks_deletePod. Qed.

Lemma keeps_tame_RemovePod p : keeps tame (invoke (RemovePod p true true)).
Proof. intros w. eapply tame_shrinks, (wp_RemovePod p w). Qed.

Lemma same_pods_adds c (w w' : W) :
  wpods w' = wpods w → ctr_ID c ∉ ctr_ID <$> wctrs w → wctrs w' ≡ₚ c :: wctrs w → same_pods w w'.
Proof.
  intros Hp Hid Hc. split; [done|]. split; [by rewrite Hp|]. intros Hnd. rewrite Hc. by constructor.
Qed.

Lemma keeps_same_pods_NewContainer cfg i : keeps same_pods (invoke (NewContainer cfg i)).
Proof.
  intros w. apply (wp_mono _ _ (λ _ w', same_pods w w') w) with (2 := wp_NewContainer cfg i w).
  intros [c|e|p|] w' [Hp Hc]; [|by apply same_pods_same|done..].
  destruct Hc as (_ & _ & _ & _ & Hid & Hc). by eapply same_pods_adds.
Qed.

Lemma keeps_same_pods_createContainer r o p spec ns : keeps same_pods (createContainer r o p spec ns).
Proof.
  intros w. apply (wp_mono _ _ (λ _ w', same_pods w w') w) with (2 := wp_createContainer r o p spec ns w).
  intros [c|e|p'|] w' H; [|apply same_pods_same; tauto..].
  destruct H as (Hp & Hc & Hid & _). by eapply same_pods_adds.
Qed.

Lemma keeps_same_pods_RemoveContainer c f v : keeps same_pods (invoke (RemoveContainer c f v)).
Proof.
  apply keeps_bind; [apply _| |intros; destruct a; [apply keeps_fail|apply keeps_ret]; apply _].
  intros w. rewrite perform_storeless. pose proof (law_RemoveContainer c f v (w_env w)) as (Hp & _ & Hc & _).
  split; [done|]. split; [by unfold wpods; simpl; rewrite Hp|].
  intros Hnd. eapply sublist_NoDup; [exact Hnd|]. by apply fmap_sublist.
Qed.

(** What keeps the pods is tame. *)
Lemma keeps_tame_same_pods {A} (m : M W A) : keeps same_pods m → keeps tame m.
Proof. intros H w. apply H. Qed.

#[local] Hint Resolve keeps_tame_deletePod keeps_tame_RemovePod keeps_same_pods_NewContainer
  keeps_same_pods_createContainer keeps_same_pods_RemoveContainer : keeps.
#[local] Hint Extern 3 (keeps tame _) => apply keeps_tame_same_pods; solve [auto with keeps nocore] : keeps.

Lemma keeps_same_pods_deleteContainer c : keeps same_pods (deleteContainer c).
Proof. unfold deleteContainer, deny_abbot_deletion. keeps_solve. Qed.
#[local] Hint Resolve keeps_same_pods_deleteContainer : keeps.

Lemma keeps_same_pods_delete_some r o p : keeps same_pods (delete_some r o p).
Proof. unfold delete_some, delete_named, for_each. keeps_solve. Qed.

#[local] Hint Resolve keeps_same_pods_delete_some : keeps.

Lemma keeps_tame_cleanup_pod r p : keeps tame (cleanup_pod r p).
Proof. unfold cleanup_pod. keeps_solve. Qed.
#[local] Hint Resolve keeps_tame_cleanup_pod : keeps.

Lemma keeps_tame_pause_in_pod r ctx o p i ic : keeps tame (pause_in_pod r ctx o p i ic).
Proof. unfold pause_in_pod. keeps_solve. Qed.

Lemma keeps_tame_run_containers r ctx o p c b : keeps tame (run_containers r ctx o p c b).
Proof. unfold run_containers, create_containers, map_m, for_each. keeps_solve. Qed.

Lemma keeps_tame_ListPods r ctx o : keeps tame (ListPods r ctx o).
Proof. unfold ListPods, list_one, list_report. keeps_solve. Qed.

Lemma keeps_tame_InitRuntime r : keeps tame (InitRuntime r).
Proof. unfold InitRuntime, init_abbot, init_pod, restore_network, ActionContext, for_each. keeps_solve. Qed.

Lemma keeps_tame_DeletePod r ctx o : keeps tame (DeletePod r ctx o).
Proof.
  unfold DeletePod. keeps_solve.
Qed.
End frames.

(** ** What EnsurePod does to the pods *)

Section ensure.
Context {E : Type} `{!Env E, !Store E, !LibpodLaws E}.
Notation W := (World E).
Implicit Types w : W.

Lemma omap_sublist {A B} (f : A → option B) l k : l `sublist_of` k → omap f l `sublist_of` omap f k.
Proof. induction 1; simpl; [done|by destruct (f x); [constructor|]|by destruct (f x); [constructor|]]. Qed.

Lemma tame_wf w w' : tame w w' → well_formed w → well_formed w' ∧ managed w' ⊆ managed w.
Proof.
  intros [Hp Hc] [H1 H2 H3]. split; [split|].
  - eapply sublist_NoDup; [exact H1|by apply fmap_sublist].
  - by apply Hc.
  - eapply sublist_NoDup; [exact H3|by apply omap_sublist].
  - unfold managed. intros u. rewrite !elem_of_list_to_set.
    intros Hu. eapply elem_of_sublist; [exact Hu|]. by apply omap_sublist.
Qed.

(** Well-formed worlds stay so, and at most [u] comes to be managed. *)
Definition view_step (u : string) w w' : Prop :=
  well_formed w → well_formed w' ∧ managed w' ⊆ managed w ∪ {[u]}.

Lemma tame_view u w w' : tame w w' → view_step u w w'.
Proof. intros Ht Hw. destruct (tame_wf _ _ Ht Hw). split; [done|set_solver]. Qed.

#[global] Instance view_step_frame u : QuietFrame (view_step u).
Proof.
  apply store_frame.
  - split; [intros w Hw; split; [done|set_solver]|].
    intros w1 w2 w3 H12 H23 Hw. destruct (H12 Hw) as [Hw2 Hs2]. destruct (H23 Hw2). split; [done|set_solver].
  - intros w w' Hs. by apply tame_view, tame_same.
Qed.

Lemma keeps_view_tame {A} u (m : M W A) : keeps tame m → keeps (view_step u) m.
Proof. intros H w. by apply tame_view. Qed.

(** Steps before the new pod: the UID stays unused. *)
Lemma wp_tame_bind {A B} u (m : M W A) (k : A → M W B) w :
  keeps tame m → u ∉ uids w →
  (∀ a w1, u ∉ uids w1 → wp (k a) (λ _ w', view_step u w1 w') w1) →
  wp (m ≫= k) (λ _ w', view_step u w w') w.
Proof.
  intros Hm Hu Hk. apply wp_bind. unfold wp at 1. pose proof (Hm w) as Ht.
  destruct (m w) as [[a|e|p|] w1]; simpl in *; [|by apply tame_view..].
  assert (u ∉ uids w1) as Hu1.
  { intros Hin. apply Hu. unfold uids in *. destruct Ht as [Hp _].
    eapply elem_of_sublist; [exact Hin|]. by apply omap_sublist. }
  eapply wp_mono; [|by apply Hk]. intros o w2 Hv. etrans; [by apply tame_view|exact Hv].
Qed.

Lemma keeps_tame_delete_previous r ctx n : keeps tame (delete_previous r ctx n).
Proof.
  unfold delete_previous. apply keeps_bind; [apply _|keeps_solve|].
  intros []; [keeps_solve|apply keeps_tame_deletePod].
Qed.

Lemma view_NewPod o p w w' :
  pe_PodUid o ∉ uids w → wctrs w' = wctrs w → pod_Labels p = pod_labels o →
  pod_ID p ∉ pod_ID <$> wpods w → wpods w' ≡ₚ p :: wpods w → view_step (pe_PodUid o) w w'.
Proof.
  intros Hu Hc Hl Hid Hp [H1 H2 H3].
  assert (uids w' ≡ₚ pe_PodUid o :: uids w) as Huids.
  { unfold uids. rewrite Hp. simpl. unfold pod_uid at 1. by rewrite Hl, pod_labels_uid. }
  split; [split|].
  - rewrite Hp. by constructor.
  - by rewrite Hc.
  - rewrite Huids. by constructor.
  - unfold managed. rewrite Huids. simpl. set_solver.
Qed.

Lemma view_createPauseContainer r ctx o w :
  pe_PodUid o ∉ uids w → wp (createPauseContainer r ctx o) (λ _ w', view_step (pe_PodUid o) w w') w.
Proof.
  intros Hu. unfold createPauseContainer.
  apply wp_tame_bind; [apply keeps_tame_delete_previous|done|intros _ w1 Hu1].
  apply wp_tame_bind; [unfold require_abbot; keeps_solve|done|intros _ w2 Hu2].
  apply wp_tame_bind; [keeps_solve|done|intros image w3 Hu3].
  apply wp_tame_bind; [unfold getImageConfig; keeps_solve|done|intros ic w4 Hu4].
  apply wp_bind. eapply wp_mono; [|apply wp_NewPod].
  intros [p|e|p|] w5 [Hc Hp]; simpl; [|apply tame_view, tame_same; by split|done..].
  destruct Hp as (_ & Hl & Hid & _ & Hp).
  eapply wp_mono; [|apply (wp_keeps tame), keeps_tame_pause_in_pod].
  intros o' w6 Ht. etrans; [by eapply view_NewPod|by apply tame_view].
Qed.

Lemma not_found_unused uid w :
  List.filter (podLabelFilterFunc (pod_filter uid)) (wpods w) = [] → uid ∉ uids w.
Proof.
  intros Hnil Hin. unfold uids in Hin. apply list_elem_of_omap in Hin as (p & Hp & Hl).
  assert (p ∈ List.filter (podLabelFilterFunc (pod_filter uid)) (wpods w)) as H.
  { apply elem_of_bfilter. split; [done|]. by apply pod_filter_carries. }
  rewrite Hnil in H. by apply not_elem_of_nil in H.
Qed.

Lemma view_obtain_pod r ctx o w :
  wp (obtain_pod r ctx o) (λ _ w', view_step (pe_PodUid o) w w') w.
Proof.
  unfold obtain_pod. apply wp_bind, wp_try. eapply wp_mono; [|apply wp_findPod].
  intros [p|e|p|] w1 [Hs Hp]; simpl; [| |done..].
  - eapply wp_mono; [|apply (wp_keeps tame)].
    + intros o' w2 Ht. apply tame_view. etrans; [by apply tame_same|exact Ht].
    + apply keeps_bind; [apply _|apply keeps_try; auto with keeps|].
      intros []; [|keeps_solve]. apply keeps_bind; [apply _| |keeps_solve].
      apply keeps_ignore; [apply _|]. apply keeps_tame_deletePod.
  - destruct (errors_Is e ErrNotFound) eqn:Ee; simpl; [|by apply wp_fail, tame_view, tame_same].
    destruct Hp as [[-> Hnil]|[_ ?]]; [|congruence].
    apply wp_wrap. eapply wp_mono; [|apply view_createPauseContainer, not_found_unused].
    + intros o' w2 Hv. assert (view_step (pe_PodUid o) w w2) as H; [|by destruct o'].
      etrans; [by apply tame_view, tame_same|exact Hv].
    + destruct Hs as [_ Hs]. by rewrite Hs.
Qed.

Lemma view_EnsurePod r ctx o : keeps (view_step (pe_PodUid o)) (EnsurePod r ctx o).
Proof.
  unfold EnsurePod. apply keeps_bind; [apply _|auto with keeps|intros ctx'].
  apply keeps_with_defer; [apply _| |intros; keeps_solve].
  apply keeps_bind; [apply _|intros w; apply view_obtain_pod|intros x].
  apply keeps_with_defer; [apply _| |intros; apply keeps_on_error; [apply _|]];
    apply keeps_view_tame; [apply keeps_tame_run_containers|apply keeps_tame_cleanup_pod].
Qed.
End ensure.

(** ** Sessions and images leave the pods alone *)

Section quiet_requests.
Context {E : Type} `{!Env E} {R : relation (World E)} `{!QuietFrame R}.
Context (parse_rfc3339 parse_arhat_time parse_since : Logs.bytes → option Z).
Context (format_time : Z → Logs.bytes).
Context (docker_json : Logs.bytes → option (Logs.bytes * Logs.bytes * Z)).
Context (arhat_json : Logs.bytes → option Logs.bytes).

Lemma keeps_log_write opts n m : keeps R (log_write format_time opts n m).
Proof. unfold log_write. keeps_solve. Qed.
#[local] Hint Resolve keeps_log_write : keeps.

Lemma keeps_emit_line opts st l :
  keeps R (emit_line parse_rfc3339 parse_arhat_time format_time docker_json arhat_json opts st l).
Proof. unfold emit_line. keeps_solve. Qed.
#[local] Hint Resolve keeps_emit_line : keeps.

Lemma keeps_waitLogs fuel k : keeps R (waitLogs fuel k).
Proof.
  revert k. induction fuel as [|fuel IH]; intros k; simpl; [apply keeps_hang; apply _|].
  apply keeps_bind; [apply _|keeps_solve|]. intros []; keeps_solve; apply IH.
Qed.
#[local] Hint Resolve keeps_waitLogs : keeps.

Lemma keeps_follow_eof fuel path st l : keeps R (follow_eof fuel path st l).
Proof. unfold follow_eof. keeps_solve. Qed.
#[local] Hint Resolve keeps_follow_eof : keeps.

Lemma keeps_read_loop fuel ctx path opts st :
  keeps R (read_loop parse_rfc3339 parse_arhat_time format_time docker_json arhat_json fuel ctx path opts st).
Proof.
  revert st. induction fuel as [|fuel IH]; intros st; simpl; [apply keeps_hang; apply _|].
  apply keeps_bind; [apply _|keeps_solve|intros []; [keeps_solve|]].
  destruct (rs_stop st); [keeps_solve|]. destruct (read_line (rs_rest st)) as [l rest].
  apply keeps_bind; [apply _|keeps_solve|]. intros []; [apply IH|keeps_solve].
Qed.
#[local] Hint Resolve keeps_read_loop : keeps.

Lemma keeps_runtime_Logs extra ctx o :
  keeps R (runtime_Logs parse_rfc3339 parse_arhat_time parse_since format_time docker_json arhat_json extra ctx o).
Proof. unfold runtime_Logs, ReadLogs. keeps_solve. Qed.
End quiet_requests.

Section refinement.
Context {E : Type} `{!Env E, !Store E, !LibpodLaws E}.
Context (r : libpodRuntime) (err_text : error → string) (parsers : LogParsers) (peers : Peers) (follow : nat).
Notation W := (World E).
Notation run := (run_request r err_text parsers peers follow).
Implicit Types w : W.

Lemma keeps_podman_Logs {R : relation W} `{!QuietFrame R} ctx o : keeps R (podman_Logs parsers follow ctx o).
Proof.
  intros w. unfold podman_Logs.
  match goal with |- context [try ?m w] =>
    assert (keeps R (try m)) as Hk by (apply keeps_try; apply keeps_runtime_Logs) end.
  specialize (Hk w). by destruct (try _ w) as [[] w'].
Qed.

Lemma elem_of_managed u w : u ∈ managed w ↔ ∃ p, p ∈ wpods w ∧ pod_uid p = Some u.
Proof. unfold managed, uids. by rewrite elem_of_list_to_set, list_elem_of_omap. Qed.

Lemma other_pod_spec p q : other_pod p q = true ↔ pod_ID q ≠ pod_ID p.
Proof. unfold other_pod. by rewrite negb_true_iff, bool_decide_eq_false. Qed.

(** Without its one pod a UID is not managed, and nothing else changes. *)
Lemma managed_without uid p w :
  well_formed w → sole_pod uid p w →
  ∀ u, u ∈ managed w ∖ {[uid]} ↔ ∃ q, q ∈ List.filter (other_pod p) (wpods w) ∧ pod_uid q = Some u.
Proof.
  intros [Hnd _ _] (Hp & Hg & Hsole) u. rewrite elem_of_difference, elem_of_managed, not_elem_of_singleton.
  setoid_rewrite elem_of_bfilter. setoid_rewrite other_pod_spec. split.
  - intros [(q & Hq & Hu) Hne]. exists q. split; [split; [done|]|done]. intros Hid.
    assert (q = p) as ->; [|apply get_Some in Hu; congruence].
    by apply (NoDup_fmap_same pod_ID (wpods w)).
  - intros (q & [Hq Hid] & Hu). split; [eauto|]. intros ->. apply Hid. by rewrite (Hsole q).
Qed.

Lemma refine_DeletePod ctx o w out w' :
  well_formed w → run (ReqDeletePod ctx o) w = (out, w') →
  allowed (ReqDeletePod ctx o) (is_ok out) (managed w) (managed w').
Proof.
  intros Hwf Hrun. unfold run_request in Hrun. simpl in Hrun. simpl.
  destruct (DeletePod r ctx o w) as [od wd] eqn:Ed.
  assert (w' = wd ∧ is_ok out = is_ok od) as [-> ->].
  { unfold mbind, M_bind in Hrun. rewrite Ed in Hrun. by destruct od; injection Hrun as <- <-. }
  clear Hrun. destruct (pd_Containers o) as [|n ns] eqn:Hc.
  - pose proof (wp_elim _ _ _ _ _ Ed (wp_DeletePod_whole r ctx o w Hc)) as Hw.
    assert (∀ p, sole_pod (pd_PodUid o) p w → store_shrinks (other_pod p) (outside_pod p) w wd →
      managed w ∖ {[pd_PodUid o]} ⊆ managed wd ∧ managed wd ⊆ managed w) as Hpart.
    { intros p Hs Hsh. split; [|by apply tame_wf; [eapply tame_shrinks|]].
      intros u (q & Hq & Hu)%(managed_without _ p w Hwf Hs). destruct Hsh as (Hf & _).
      rewrite <- Hf in Hq. apply elem_of_managed. exists q. split; [by apply elem_of_bfilter in Hq as [? _]|done]. }
    assert (managed w ∖ {[pd_PodUid o]} ⊆ managed w) as Hd by set_solver.
    destruct od as [msg|e|pp|]; simpl in *; [| |done|].
    + destruct Hw as (_ & p & Hp & Hpods & _). apply filtered_sole_pod in Hp.
      assert (managed wd = managed w ∖ {[pd_PodUid o]}) as ->; [|done].
      apply set_eq. intros u. rewrite (managed_without _ p w Hwf Hp), <- Hpods. apply elem_of_managed.
    + destruct Hw as [[_ Hs]|(p & Hp & Hsh)]; [|split_and!; [eapply Hpart|eapply Hpart|done]; eauto using filtered_sole_pod].
      assert (managed wd = managed w) as -> by by unfold managed, uids; rewrite Hs. done.
    + destruct Hw as [[_ Hs]|(p & Hp & Hsh)]; [|split_and!; [eapply Hpart|eapply Hpart|done]; eauto using filtered_sole_pod].
      assert (managed wd = managed w) as -> by by unfold managed, uids; rewrite Hs. done.
  - assert (same_pods w wd) as [Hs _]; [|by unfold managed, uids; rewrite Hs].
    assert (keeps same_pods (DeletePod r ctx o)) as Hk; [|specialize (Hk w); by rewrite Ed in Hk].
    unfold DeletePod. rewrite Hc. apply keeps_with_defer; [apply _| |intros; keeps_solve].
    apply keeps_bind; [apply _|keeps_solve|intros p]. apply keeps_same_pods_delete_some.
Qed.

Lemma refine_InitRuntime w out w' :
  well_formed w → InitRuntime r w = (out, w') → managed w' = managed w.
Proof.
  intros Hwf Hrun. apply set_eq. intros u. split.
  - pose proof (keeps_tame_InitRuntime r w) as Ht. rewrite Hrun in Ht.
    destruct (tame_wf _ _ Ht Hwf) as [_ Hs]. apply Hs.
  - rewrite !elem_of_managed. intros (q & Hq & Hu). exists q. split; [|done].
    assert (has_pod q w) as Hhp by (split; [apply Hwf|done]).
    pose proof (wp_elim _ _ _ _ _ Hrun (wp_InitRuntime q r w (mk_is_Some _ _ Hu) Hhp)) as Hund.
    by destruct (Hund Hhp) as [[_ ?] _].
Qed.

(** The outcome of a request is that of its operation. *)
Lemma run_drop {A} (m : M W A) w out w' :
  (m;; mret ()) w = (out, w') → ∃ o, m w = (o, w') ∧ is_ok out = is_ok o.
Proof. unfold mbind, M_bind. destruct (m w) as [[] ?]; intros [= <- <-]; eauto. Qed.

Lemma managed_same w w' : same_store w w' → managed w' = managed w.
Proof. intros [_ Hs]. unfold managed, uids. by rewrite Hs. Qed.

Lemma refine_quiet {A} (m : M W A) w out w' :
  keeps same_store m → (m;; mret ()) w = (out, w') → managed w' = managed w ∧ tame w w'.
Proof.
  intros Hk (o & Hm & _)%run_drop. specialize (Hk w). rewrite Hm in Hk.
  split; [by apply managed_same|by apply tame_same].
Qed.

Lemma quiet_requests_same q :
  match q with
  | ReqEnsureImages _ _ | ReqExec _ _ _ _ _ _ _ _ | ReqAttach _ _ _ _ _ _ | ReqLogs _ _
  | ReqPortForward _ _ _ _ => keeps same_store (run q)
  | _ => True
  end.
Proof.
  destruct q; simpl; try done; (apply keeps_bind; [apply _| |keeps_solve]).
  - auto with keeps.
  - unfold Exec, execInContainer. keeps_solve.
  - unfold Attach. keeps_solve.
  - apply keeps_podman_Logs.
  - unfold PortForward, Forward. keeps_solve.
Qed.

(** Every request keeps the worlds well-formed. *)
Lemma request_wf q w : well_formed w → well_formed (run q w).2.
Proof.
  intros Hwf.
  assert (∀ w', tame w w' → well_formed w') as Ht by (intros w' H; by apply (tame_wf w w')).
  assert (keeps same_store (run q) → well_formed (run q w).2) as Hq
    by (intros Hk; apply Ht, tame_same, Hk).
  pose proof (quiet_requests_same q) as Hs. destruct q; simpl in *; try (by apply Hq).
  - assert (keeps (view_step (pe_PodUid options)) (EnsurePod r ctx options;; mret ())) as Hk; [|by apply Hk].
    apply keeps_bind; [apply _|apply view_EnsurePod|keeps_solve].
  - assert (keeps tame (DeletePod r ctx options;; mret ())) as Hk; [|by apply Ht, Hk].
    apply keeps_bind; [apply _|apply keeps_tame_DeletePod|keeps_solve].
  - assert (keeps tame (ListPods r ctx options;; mret ())) as Hk; [|by apply Ht, Hk].
    apply keeps_bind; [apply _|apply keeps_tame_ListPods|keeps_solve].
  - apply Ht, keeps_tame_InitRuntime.
Qed.

Lemma refine_EnsurePod ctx o w out w' :
  well_formed w → run (ReqEnsurePod ctx o) w = (out, w') →
  allowed (ReqEnsurePod ctx o) (is_ok out) (managed w) (managed w').
Proof.
  intros Hwf (oe & He & ->)%run_drop. simpl. split.
  - pose proof (view_EnsurePod r ctx o w Hwf) as [_ Hs]. simpl in He. by rewrite He in Hs.
  - intros Hok Hu. destruct oe as [msg| | |]; try done.
    destruct (wp_elim _ _ _ _ _ He (wp_EnsurePod_success r ctx o w) msg eq_refl) as (p & [pc Hready] & _).
    destruct Hready as (Hp & Hg & _). apply elem_of_managed. exists p. split; [done|].
    by apply get_nonempty.
Qed.

(** C1: The engine implements the contract: from a well-formed world every request
    changes the set of managed pods as the contract of its kind allows. *)
Theorem engine_refines q w out w' :
  well_formed w → run q w = (out, w') →
  well_formed w' ∧ allowed q (is_ok out) (managed w) (managed w').
Proof.
  intros Hwf Hrun. split; [pose proof (request_wf q w Hwf) as H; by rewrite Hrun in H|].
  pose proof (quiet_requests_same q) as Hs.
  assert (keeps same_store (run q) → managed w' = managed w) as Hq.
  { intros Hk. apply managed_same. specialize (Hk w). by rewrite Hrun in Hk. }
  destruct q; try (by apply Hq).
  - by apply refine_EnsurePod.
  - by apply refine_DeletePod.
  - simpl in *. apply run_drop in Hrun as (o & Hl & _).
    pose proof (keeps_tame_ListPods r ctx options w) as Ht. rewrite Hl in Ht.
    by apply (tame_wf w w').
  - simpl in *. by eapply refine_InitRuntime.
Qed.

(** Whatever requests the engine has served, however they ended, and whatever
    calls to libpod failed: pod and container IDs are unique, no two pods have
    the same UID, and every UID was there at the beginning or was requested. *)
Theorem reachable_well_formed w qs w' :
  well_formed w → reaches r err_text parsers peers follow w qs w' →
  well_formed w' ∧ managed w' ⊆ managed w ∪ list_to_set (ensured_uids qs).
Proof.
  intros Hwf Hr. induction Hr as [|qs q w1 Hr [Hwf1 IH]]; [split; [done|set_solver]|].
  split; [by apply request_wf|].
  assert (managed (run q w1).2 ⊆ managed w1 ∪ list_to_set (ensured_uids [q])) as Hq.
  { destruct (run q w1) as [out w2] eqn:Eq. pose proof (quiet_requests_same q) as Hs. simpl.
    assert (keeps same_store (run q) → managed w2 ⊆ managed w1 ∪ list_to_set (ensured_uids [q])) as Hqs.
    { intros Hk. specialize (Hk w1). rewrite Eq in Hk. simpl in Hk. rewrite (managed_same _ _ Hk). set_solver. }
    destruct q; try (by apply Hqs).
    - apply refine_EnsurePod in Eq as [H _]; [|done]. simpl. set_solver.
    - apply refine_DeletePod in Eq as H; [|done]. simpl in *.
      destruct (pd_Containers options); [set_solver|rewrite H; set_solver].
    - simpl in *. apply run_drop in Eq as (o & Hl & _).
      pose proof (keeps_tame_ListPods r ctx options w1) as Ht. rewrite Hl in Ht.
      destruct (tame_wf _ _ Ht Hwf1). set_solver.
    - simpl in *. apply refine_InitRuntime in Eq as ->; [set_solver|done]. }
  unfold ensured_uids in *. rewrite omap_app, list_to_set_app_L. set_solver.
Qed.
End refinement.

(** ** Witnesses *)

Lemma sample_well_formed : well_formed (sample_world []).
Proof. split; apply (bool_decide_unpack _); vm_compute; reflexivity. Qed.

Lemma engine_refines_witness :
  let x := run_request sample_runtime (λ _, "error"%string) sample_parsers sample_peers 0
             (ReqEnsurePod TODO sample_ensure) (sample_world []) in
  managed (sample_world []) = {["u2"%string]} ∧ managed x.2 = {["u1"%string; "u2"%string]} ∧
  well_formed x.2 ∧
  allowed (ReqEnsurePod TODO sample_ensure) (is_ok x.1) (managed (sample_world [])) (managed x.2).
Proof.
  split; [apply (bool_decide_unpack _); vm_compute; reflexivity|].
  split; [apply (bool_decide_unpack _); vm_compute; reflexivity|].
  apply (engine_refines sample_runtime (λ _, "error"%string) sample_parsers sample_peers 0
    (ReqEnsurePod TODO sample_ensure) (sample_world [])); [apply sample_well_formed|apply surjective_pairing].
Defined.

Lemma reachable_well_formed_witness :
  let run := run_request sample_runtime (λ _, "error"%string) sample_parsers sample_peers 0 in
  let w := (run (ReqDeletePod TODO (delete_other [])) (run (ReqEnsurePod TODO sample_ensure) (sample_world [])).2).2 in
  well_formed w ∧
  managed w ⊆ managed (sample_world []) ∪
    list_to_set (ensured_uids [ReqEnsurePod TODO sample_ensure; ReqDeletePod TODO (delete_other [])]).
Proof.
  apply (reachable_well_formed sample_runtime (λ _, "error"%string) sample_parsers sample_peers 0
    (sample_world []) [ReqEnsurePod TODO sample_ensure; ReqDeletePod TODO (delete_other [])]).
  - apply sample_well_formed.
  - apply (reaches_snoc _ _ _ _ _ _ [ReqEnsurePod TODO sample_ensure]).
    apply (reaches_snoc _ _ _ _ _ _ []). apply reaches_nil.
Defined.
