(* ===== verification/SessionTheorems.v ===== *)
(** Properties of the handler of commands and of its sessions. *)

From stdpp Require Import base gmap strings pretty list fin_maps numbers.
From S2P Require Import Prelude GoPath Proto Labels World Libpod Mem BaseRuntime Storage Find Container Pod Image Logs Action TimeoutReader SeqQueue Streams Handler Engine HandlerProofs Samples SessionSamples.

Local Open Scope Z_scope.
Local Open Scope list_scope.

Section handler.
Context {W : Type} `{!RuntimeEngine W} (codec : Codec) (maxPayloadSize : nat).
Notation H := (HState W).
Implicit Types h : H.

Lemma HandleCmd_command sched ctx sid seq payload pkt do (Q : outcome unit → H → Prop) h :
  dec_Packet codec payload = Ok pkt → funcMap codec maxPayloadSize sched (pkt_Kind pkt) = Some do →
  wp (serve_command codec sid seq (do ctx sid (pkt_Payload pkt)))
     (λ o h', Q (match o with Panic p => Panic p | _ => Ok () end) h') h →
  wp (HandleCmd codec maxPayloadSize sched ctx sid seq CMD_RUNTIME_ARANYA_PROTO (Some payload)) Q h.
Proof.
  intros Hp Hf Hq. unfold HandleCmd. rewrite !decide_False by done. rewrite decide_True by done. simpl.
  rewrite Hp. apply wp_bind, wp_ret. simpl. rewrite Hf. by apply wp_go.
Qed.

(** A command without a session gets exactly one reply, under its own session and
    sequence number: a packet of the kind that belongs to the command, or an
    error. *)
Theorem HandleCmd_reply sched ctx sid seq payload pkt rk do h h' :
  dec_Packet codec payload = Ok pkt →
  reply_kind (pkt_Kind pkt) = Some rk →
  funcMap codec maxPayloadSize sched (pkt_Kind pkt) = Some do →
  (do ctx sid (pkt_Payload pkt) h).1 ≠ Hang →
  HandleCmd codec maxPayloadSize sched ctx sid seq CMD_RUNTIME_ARANYA_PROTO (Some payload) h
    = (Ok (), h') →
  hs_streams h' = hs_streams h ∧
  ∃ data, sends h h' [mkMsg MSG_RUNTIME_ARANYA_PROTO sid seq (Some data)] ∧
    ((∃ body, data = enc_Packet codec (mkPacket rk body)) ∨
     (∃ descr, data = enc_ErrorMsg codec (mkErrorMsg ERR_COMMON descr 0))).
Proof.
  intros Hp Hr Hf Hnh Hrun.
  destruct (funcMap_answers codec maxPayloadSize sched _ do ctx sid (pkt_Payload pkt) rk Hf Hr) as [Hk Hy].
  eapply (wp_elim _ (λ o h', o = Ok () → hs_streams h' = hs_streams h ∧
    ∃ data, sends h h' [mkMsg MSG_RUNTIME_ARANYA_PROTO sid seq (Some data)] ∧
      ((∃ body, data = enc_Packet codec (mkPacket rk body)) ∨
       (∃ descr, data = enc_ErrorMsg codec (mkErrorMsg ERR_COMMON descr 0)))) _ _ _ Hrun); [|done].
  eapply HandleCmd_command; [done..|]. apply wp_serve_command.
  unfold wp. specialize (Hk h). specialize (Hy h). unfold wp in Hy.
  destruct (do ctx sid (pkt_Payload pkt) h) as [o h1]. simpl in *.
  pose proof (silent_sends _ _ Hk) as Hs0. destruct Hk as (_ & _ & Hst).
  destruct o as [p|e|p|]; simpl; [| |done..].
  - destruct (Hy p eq_refl) as [body ->]. intros h2 Hs2 Hst2 _ _. split; [congruence|].
    eexists. split; [exact (sends_app _ _ _ _ _ Hs0 Hs2)|]. left. eauto.
  - intros h2 Hs2 Hst2 _ _. split; [congruence|].
    eexists. split; [exact (sends_app _ _ _ _ _ Hs0 Hs2)|]. right. by eexists.
Qed.

(** ** Sessions *)

(** The messages of a session: outputs numbered from 0 with their pieces of the
    two streams, then the last message. *)
Record session_sent (sid : Z) (texts : string * string) (last : Z → Msg) h h' (outs : list Msg) : Prop := {
  ss_sent : sends h h' (outs ++ [last (Z.of_nat (length outs))]);
  ss_msgs i m : outs !! i = Some m → msg_Id m = sid ∧ msg_Ack m = Z.of_nat i ∧
    (msg_Kind m = MSG_DATA_OUTPUT ∨ msg_Kind m = MSG_RUNTIME_DATA_STDERR) ∧
    ∃ d, msg_Payload m = Some d ∧ (1 ≤ String.length d ≤ maxPayloadSize)%nat;
  ss_out : ∃ rest, texts.1 = text_of MSG_DATA_OUTPUT outs +:+ rest;
  ss_err : ∃ rest, texts.2 = text_of MSG_RUNTIME_DATA_STDERR outs +:+ rest }.

Lemma string_app_nil_r (s : string) : s +:+ "" = s.
Proof. induction s as [|c s IH]; [done|]. exact (f_equal (String c) IH). Qed.

Lemma length_zero (s : string) : String.length s = 0%nat → s = ""%string.
Proof. by destruct s. Qed.

(** What arrives of an output that is read to its end: all of it, or all but the
    last byte if a read met the end of the stream. *)
Record delivered (ended : bool) (output text : string) : Prop := {
  dl_most : text = output ∨ ∃ c, output = text +:+ String c "";
  dl_all : ended = false → text = output }.

Lemma progress_delivers (h : H) p p' n ended text :
  progress h p p' n ended → (∀ k, hs_link h k = None) → (String.length (pp_Data p) ≤ n)%nat →
  (pp_Live p = false → pp_Data p = ""%string) → pp_Data p = text +:+ pp_Data p' →
  delivered ended (pp_Data p) text.
Proof.
  intros [Hdead Hdata Hlive] Hlink Hn Hl Ht. destruct (pp_Live p) eqn:El.
  - destruct (Hdata eq_refl Hlink) as [[_ Hz]|[Hz Hlen]].
    + rewrite (length_zero (pp_Data p')), string_app_nil_r in Ht by lia. split; auto.
    + split.
      * right. rewrite Ht. destruct (pp_Data p') as [|c [|]]; simplify_eq/=; eauto.
      * intros He. by rewrite (Hlive eq_refl Hlink He) in Hz.
  - rewrite Hl in Ht |- * by done. destruct text; [split; auto|done].
Qed.

(** What a session sends once its operation ran: [run] answered [err] and the two
    texts and left the state [h]. *)
Lemma wp_session_end sid sched err out_text err_text (use_out use_err : bool) h :
  (1 ≤ maxPayloadSize)%nat → Z.of_nat (length sched) < MaxUint64 → sm_idle (hs_streams h) →
  (use_out = false → out_text = ""%string) → (use_err = false → err_text = ""%string) →
  wp (u ← uploads maxPayloadSize sid sched
            (mkPipe MSG_DATA_OUTPUT out_text use_out)
            (mkPipe MSG_RUNTIME_DATA_STDERR err_text use_err) 0;
      ignore (SendMsg (last_message codec sid (nextSeq u.2).1 err));;
      Del sid)
     (λ o h', o = Ok () ∧ sm_sessions (hs_streams h') = delete sid (sm_sessions (hs_streams h)) ∧
        sm_locked (hs_streams h') = false ∧ hs_engine h' = hs_engine h ∧
        ∃ outs, session_sent sid (out_text, err_text) (λ n, last_message codec sid n err) h h' outs ∧
          ((∀ k, hs_link h k = None) →
           (String.length out_text ≤ reads false sched)%nat →
           (String.length err_text ≤ reads true sched)%nat →
           delivered (meets_end false sched) out_text (text_of MSG_DATA_OUTPUT outs) ∧
           delivered (meets_end true sched) err_text (text_of MSG_RUNTIME_DATA_STDERR outs))) h.
Proof.
  intros Hmax Hlen Hidle Hnout Hnerr. apply wp_bind.
  eapply wp_mono; [|apply wp_uploads; [done|done|lia|lia]].
  intros o h1 (out' & err' & outs & -> & _ & Hu & Ho & He). simpl.
  apply wp_bind, wp_ignore_SendMsg. intros h2 Hs2 Hst2 Hen2. simpl.
  destruct Hu as [Us Ust Uen [_ Uo] [_ Ue] Um]. simpl in *.
  unfold wp. pose proof (wp_Del sid h2) as HD. unfold wp in HD.
  change (get_sm h2) with (hs_streams h2) in HD. rewrite Hst2, Ust in HD. specialize (HD Hidle).
  assert (silent_but : hs_sent (Del sid h2).2 = hs_sent h2 ∧ hs_link (Del sid h2).2 = hs_link h2 ∧
    hs_engine (Del sid h2).2 = hs_engine h2).
  { clear HD. unfold Del, sm_Lock, sm_Unlock, set_sessions, with_defer, sm_get, sm_put, of_outcome,
      mbind, M_bind. simpl. destruct (sm_locked (hs_streams h2)); [done|]. simpl.
    destruct (sm_sessions (hs_streams h2) !! sid) as [s|]; [|done].
    unfold stream_close. by destruct (st_working s). }
  destruct (Del sid h2) as [o h3]. simpl in *. destruct HD as [-> HD].
  destruct silent_but as (Hsent3 & Hlink3 & Hen3).
  change (get_sm h3) with (hs_streams h3) in HD. rewrite HD. split; [done|]. split; [done|]. split; [done|].
  split; [congruence|].
  exists outs. split.
  - split.
    + eapply sends_app; [exact Us|]. destruct Hs2 as (rs & L & S & K). exists rs.
      rewrite Hsent3, Hlink3. done.
    + done.
    + by exists (pp_Data out').
    + by exists (pp_Data err').
  - intros Hlink Hro Hre.
    split; [apply (progress_delivers _ _ _ _ _ _ Ho)|apply (progress_delivers _ _ _ _ _ _ He)]; auto.
Qed.

(** The code and the text of the error of a session. *)
Definition merged (acc : option ErrorMsg) (errs : list ErrorMsg) : option ErrorMsg :=
  foldl (λ acc e, Some match acc with
                       | None => e
                       | Some m => mkErrorMsg (em_Kind m) (em_Description m +:+ "; " +:+ em_Description e)
                           (if negb (em_Code e =? 0) && (em_Code m =? 0) then em_Code e else em_Code m)
                       end) acc errs.

Lemma wp_collect ctx acc errs h :
  (∀ w, (eng_CtxDone ctx w).1 = Ok false) →
  wp (collectStreamErrors codec ctx acc errs) (λ o h', silent h h' ∧ o = Ok (merged acc errs)) h.
Proof.
  intros Hnd. revert acc h. induction errs as [|e errs IH]; intros acc h; simpl; apply wp_bind;
    unfold wp at 1, lift; pose proof (Hnd (hs_engine h)) as Hd;
    destruct (eng_CtxDone ctx (hs_engine h)) as [o w]; simpl in *; subst o; simpl.
  - by apply wp_ret.
  - eapply wp_mono; [|apply IH]. intros o h' [Hs ->]. split; [|done].
    etrans; [|exact Hs]. done.
Qed.


End handler.

Section handler2.
Context {W : Type} `{!RuntimeEngine W} (codec : Codec) (maxPayloadSize : nat).
Notation H := (HState W).
Implicit Types h : H.

(** The errors of a session become one: the code is the first that is not zero,
    the text is that of all of them in the order they arrived. *)
Theorem session_error ctx e errs h :
  (∀ w, (eng_CtxDone ctx w).1 = Ok false) →
  wp (collectStreamErrors codec ctx None (e :: errs)) (λ o _, ∃ m, o = Ok (Some m) ∧
    em_Kind m = em_Kind e ∧
    em_Code m = default 0 (head (List.filter (λ c, negb (c =? 0)) (em_Code <$> e :: errs))) ∧
    em_Description m = String.concat "; " (em_Description <$> e :: errs)) h.
Proof.
  intros Hnd. eapply wp_mono; [|by apply wp_collect]. intros o h' [_ ->].
  unfold merged. cbn [foldl]. clear h h' Hnd. revert e. induction errs as [|e' errs IH]; intros e.
  { exists e. split; [done|]. split; [done|]. split; [|done]. simpl. by destruct (em_Code e =? 0) eqn:E;
      [apply Z.eqb_eq in E|]. }
  cbn [foldl]. match goal with |- context [foldl _ (Some ?m1) errs] => destruct (IH m1) as (m & -> & Hk & Hc & Hd) end.
  exists m. split; [done|]. split; [done|]. simpl in *. split.
  - rewrite Hc. by destruct (em_Code e =? 0) eqn:E0, (em_Code e' =? 0) eqn:E1; simpl; rewrite ?E0, ?E1; simpl.
  - rewrite Hd. destruct errs; simpl; by rewrite ?string_app_assoc.
Qed.

(** A command for a session that has an input under way runs nothing of its own:
    it fails, and its end takes the session of the other command away. *)
Theorem session_taken_over sched ctx sid seq payload pkt opts s h :
  dec_Packet codec payload = Ok pkt → pkt_Kind pkt = CMD_EXEC →
  dec_ExecOrAttach codec (pkt_Payload pkt) = Ok opts → ea_Stdin opts = true →
  sm_idle (hs_streams h) → sm_sessions (hs_streams h) !! sid = Some s →
  (1 ≤ maxPayloadSize)%nat → Z.of_nat (length sched) < MaxUint64 →
  wp (HandleCmd codec maxPayloadSize sched ctx sid seq CMD_RUNTIME_ARANYA_PROTO (Some payload))
     (λ o h', o = Ok () ∧ hs_engine h' = hs_engine h ∧
        sm_sessions (hs_streams h') = delete sid (sm_sessions (hs_streams h)) ∧
        sends h h' [mkMsg MSG_ERROR sid 0 (Some (enc_ErrorMsg codec
                      (mkErrorMsg ERR_COMMON (err_Error codec ErrAlreadyExists) 0)))]) h.
Proof.
  intros Hp Hk Ho Hin Hidle Hs Hmax Hlen.
  eapply (HandleCmd_command codec maxPayloadSize _ _ _ _ _ pkt (handleExec codec maxPayloadSize sched)); [done| |].
  { by rewrite Hk. }
  apply wp_serve_command. unfold handleExec. rewrite Ho. apply wp_bind, wp_ret. simpl.
  apply wp_bind. unfold handleStreamOperation, run_session. rewrite Hin. apply wp_bind, wp_bind, wp_try.
  set (h1 := mkHState (hs_engine h) (mkStreamManager (sm_sessions (hs_streams h)) false) (hs_sent h) (hs_link h)).
  assert (∀ op : M W (list ErrorMsg * (string * string)),
    start_session sid true op h = (Err ErrAlreadyExists, h1)) as Hadd.
  { intros op. destruct Hidle as [Hl _]. unfold start_session, Add, sm_Lock, sm_Unlock, with_defer, sm_get, sm_put,
      mbind, M_bind. simpl. rewrite Hl. simpl. by rewrite Hs. }
  unfold wp at 1. rewrite Hadd. simpl. apply wp_ret. cbn [obind fst snd].
  assert (sm_idle (hs_streams h1)) as Hi1 by (destruct Hidle as [? Hw]; split; [done|exact Hw]).
  assert (∀ b : bool, (if b then ""%string else ""%string) = ""%string) as Hb by by intros [].
  rewrite !Hb.
  eapply wp_mono; [|by apply wp_session_end].
  intros o h2 (-> & Hsess & _ & Hen & outs & Hsent & _). cbn [obind]. apply wp_ret.
  split; [done|]. split; [by rewrite Hen|]. split; [by rewrite Hsess|].
  destruct Hsent as [Hsent Hm [r1 Ht1] [r2 Ht2]]. destruct outs as [|m outs]; [exact Hsent|].
  exfalso. destruct (Hm 0%nat m eq_refl) as (_ & _ & Hkind & d & Hd & Hlen1).
  assert (∀ k, msg_Kind m = k → ∃ rest, text_of k (m :: outs) = d +:+ rest) as Htext.
  { intros k Hmk. unfold text_of. simpl. rewrite bool_decide_true by done. rewrite Hd, concat_cons. eauto. }
  simpl in Ht1, Ht2.
  destruct Hkind as [Hkind|Hkind]; destruct (Htext _ Hkind) as [rest Hrest];
    [rewrite Hrest in Ht1; apply (f_equal String.length) in Ht1; rewrite !length_append in Ht1
    |rewrite Hrest in Ht2; apply (f_equal String.length) in Ht2; rewrite !length_append in Ht2];
    simpl in *; lia.
Qed.

Lemma handle_one_ok sched ctx cmd h h1 :
  HandleCmd codec maxPayloadSize sched ctx (cmd_Id cmd) (cmd_Seq cmd) (cmd_Kind cmd) (cmd_Payload cmd) h
    = (Ok (), h1) →
  handle_one codec maxPayloadSize sched ctx cmd h = (Ok (), h1).
Proof. intros Hc. unfold handle_one, mbind, M_bind, try. by rewrite Hc. Qed.

Lemma handle_one_hang sched ctx cmd h h1 :
  HandleCmd codec maxPayloadSize sched ctx (cmd_Id cmd) (cmd_Seq cmd) (cmd_Kind cmd) (cmd_Payload cmd) h
    = (Hang, h1) →
  handle_one codec maxPayloadSize sched ctx cmd h = (Hang, h1).
Proof. intros Hc. unfold handle_one, mbind, M_bind, try. by rewrite Hc. Qed.

Lemma handleSession_ok ctx x later h h1 :
  handle_one codec maxPayloadSize x.1 ctx x.2 h = (Ok (), h1) →
  handleSession codec maxPayloadSize ctx (x :: later) h = handleSession codec maxPayloadSize ctx later h1.
Proof. intros Hc. unfold handleSession, for_each. cbn [fold_m]. unfold mbind at 1, M_bind at 1. by rewrite Hc. Qed.

Lemma handleSession_hang ctx x later h h1 :
  handle_one codec maxPayloadSize x.1 ctx x.2 h = (Hang, h1) →
  handleSession codec maxPayloadSize ctx (x :: later) h = (Hang, h1).
Proof. intros Hc. unfold handleSession, for_each. cbn [fold_m]. unfold mbind at 1, M_bind at 1. by rewrite Hc. Qed.

(** C38: The hub closes the input of a session: the next piece of input of the session
    stops the loop of the controller, and no command after it is looked at. *)
Theorem input_close_stops_controller sched ctx sid seq1 seq2 p1 p2 later s h :
  sm_idle (hs_streams h) → sm_sessions (hs_streams h) !! sid = Some s →
  ∃ h', handleSession codec maxPayloadSize ctx
     ((sched, mkCmd CMD_DATA_CLOSE sid seq1 p1) :: (sched, mkCmd CMD_DATA_INPUT sid seq2 p2) :: later) h
  = (Hang, h').
Proof.
  intros Hidle Hs.
  destruct (close_keeps_flag sid seq1 h) as (h1 & Hw & _ & Hhang & _); [done|by exists s|].
  specialize (Hhang seq2 (Some (default ""%string p2))).
  destruct (Write sid seq2 (Some (default ""%string p2)) h1) as [o h2] eqn:E. simpl in Hhang. subst o.
  exists h2. rewrite (handleSession_ok _ _ _ _ h1) by by apply handle_one_ok.
  by apply handleSession_hang, handle_one_hang.
Qed.

(** A command that is not known changes nothing and is answered, under the type
    of an output message (the type 0 that the handler returns), not of an error. *)
Theorem unknown_command_answer sched ctx cmd h :
  cmd_Kind cmd ≠ CMD_DATA_INPUT → cmd_Kind cmd ≠ CMD_DATA_CLOSE →
  cmd_Kind cmd ≠ CMD_RUNTIME_ARANYA_PROTO →
  wp (handle_one codec maxPayloadSize sched ctx cmd) (λ _ h',
    hs_engine h' = hs_engine h ∧ hs_streams h' = hs_streams h ∧
    ∃ data, sends h h' [mkMsg MSG_DATA_OUTPUT (cmd_Id cmd) (cmd_Seq cmd) (Some data)]) h.
Proof.
  intros H1 H2 H3. unfold handle_one, HandleCmd. rewrite !decide_False by done.
  apply wp_bind, wp_try, wp_fail. simpl. apply wp_SendMsg. eauto 6.
Qed.
End handler2.

(** ** The podman runtime behind the handler *)

Lemma mapM_id_None {A} (l : list (option A)) : None ∈ l → mapM id l = None.
Proof.
  induction l as [|x l IH]; [by intros ?%not_elem_of_nil|]. simpl. intros [<-|Hin]%elem_of_cons; [done|].
  destruct x; simpl; [|done]. by rewrite IH.
Qed.

(** An image list with a nil entry ends the process. *)
Lemma nil_image_panics {W} `{!RuntimeEngine W} codec maxPayloadSize sched ctx sid seq payload pkt opts msg w1
    (h : HState W) :
  dec_Packet codec payload = Ok pkt → pkt_Kind pkt = CMD_IMAGE_ENSURE →
  dec_ImageEnsure codec (pkt_Payload pkt) = Ok opts →
  eng_EnsureImages ctx opts (hs_engine h) = (Ok msg, w1) → None ∈ iml_Images msg →
  (HandleCmd codec maxPayloadSize sched ctx sid seq CMD_RUNTIME_ARANYA_PROTO (Some payload) h).1
  = Panic NilDereference.
Proof.
  intros Hp Hk Ho Hrun Hin.
  apply (HandleCmd_command codec maxPayloadSize sched ctx sid seq payload pkt
    (λ ctx _, handleImageEnsure codec ctx) (λ o _, o = Panic NilDereference)); [done|by rewrite Hk|].
  apply wp_serve_command. unfold handleImageEnsure. rewrite Ho. apply wp_bind, wp_ret. simpl.
  apply wp_bind. unfold wp at 1, lift. simpl. rewrite Hrun. simpl.
  apply wp_bind. unfold Marshal_ImageStatusList. by rewrite mapM_id_None.
Qed.

(** C35: A request for images that succeeds ends the process: the status list begins
    with nil entries, and the encoder dereferences them. *)
Theorem image_ensure_crashes {E : Type} `{!Env E, !Store E, !LibpodLaws E}
    (r : libpodRuntime) (err_text : error → string) (parsers : LogParsers) (peers : Peers) (follow : nat)
    (codec : Codec) (maxPayloadSize : nat) sched ctx sid seq payload pkt opts msg w1 (h : HState (World E)) :
  dec_Packet codec payload = Ok pkt → pkt_Kind pkt = CMD_IMAGE_ENSURE →
  dec_ImageEnsure codec (pkt_Payload pkt) = Ok opts →
  EnsureImages r ctx opts (hs_engine h) = (Ok msg, w1) →
  (HandleCmd (RuntimeEngine0 := podman_engine r err_text parsers peers follow) codec maxPayloadSize
     sched ctx sid seq CMD_RUNTIME_ARANYA_PROTO (Some payload) h).1 = Panic NilDereference.
Proof.
  intros Hp Hk Ho Hrun.
  pose proof (wp_elim _ _ _ _ _ Hrun (wp_EnsureImages r ctx opts (hs_engine h))) as [_ (msgs & Himg & _)].
  apply (nil_image_panics (RuntimeEngine0 := podman_engine r err_text parsers peers follow) codec maxPayloadSize
    sched ctx sid seq payload pkt opts msg w1); try done.
  rewrite Himg. apply elem_of_app. left.
  assert (size (all_images (rt_pauseImage r) opts) ≠ 0)%nat as Hsz.
  { unfold all_images. intros Hz%map_size_empty_inv.
    apply (f_equal (lookup (rt_pauseImage r))) in Hz.
    rewrite lookup_union, lookup_singleton_eq, lookup_empty in Hz.
    by destruct (ie_Images opts !! rt_pauseImage r). }
  destruct (size _); [done|]. simpl. by left.
Qed.

(** ** Witnesses *)

Lemma HandleCmd_reply_witness :
  let h' := (HandleCmd sample_codec 4 [] TODO 7 5 CMD_RUNTIME_ARANYA_PROTO (Some "info"%string) sample_state).2 in
  hs_streams h' = hs_streams sample_state ∧
  ∃ data, sends sample_state h' [mkMsg MSG_RUNTIME_ARANYA_PROTO 7 5 (Some data)] ∧
    ((∃ body, data = enc_Packet sample_codec (mkPacket MSG_RUNTIME_INFO body)) ∨
     (∃ descr, data = enc_ErrorMsg sample_codec (mkErrorMsg ERR_COMMON descr 0))).
Proof.
  apply (HandleCmd_reply sample_codec 4 [] TODO 7 5 "info"%string (mkPacket CMD_GET_INFO "") MSG_RUNTIME_INFO
    (λ _ _ _, handleGetInfo sample_codec) sample_state); [reflexivity..| |reflexivity].
  discriminate.
Defined.


(** Both outputs end while they are read, and the fifth byte of the first one is
    left for the second read: it is not sent. *)
Example exec_loses_last_byte :
  match HandleCmd sample_codec 4
          ((λ which, (which, mkArrival 9 true)) <$> [false; true; false; true])
          TODO 7 1 CMD_RUNTIME_ARANYA_PROTO (Some "exec"%string) sample_state with
  | (Ok _, h) => (λ m, (msg_Kind m, msg_Ack m, msg_Payload m)) <$> (hs_sent h).*1 =
      [(0, 0, Some "hell"%string); (21, 1, Some "oops"%string); (2, 2, Some "exit"%string)]
  | _ => False
  end.
Proof. vm_compute. reflexivity. Qed.

Lemma session_error_witness :
  wp (collectStreamErrors sample_codec TODO None
        [mkErrorMsg ERR_COMMON "a" 0; mkErrorMsg ERR_COMMON "b" 3; mkErrorMsg ERR_COMMON "c" 4])
     (λ o _, ∃ m, o = Ok (Some m) ∧ em_Kind m = ERR_COMMON ∧ em_Code m = 3 ∧
        em_Description m = "a; b; c"%string) sample_state.
Proof.
  apply (session_error sample_codec TODO (mkErrorMsg ERR_COMMON "a" 0)
    [mkErrorMsg ERR_COMMON "b" 3; mkErrorMsg ERR_COMMON "c" 4] sample_state). apply sample_not_done.
Defined.

Lemma session_taken_over_witness :
  wp (HandleCmd sample_codec 4 sample_schedule TODO 7 1 CMD_RUNTIME_ARANYA_PROTO (Some "exec"%string))
     (λ o h', o = Ok () ∧ hs_engine h' = hs_engine busy_state ∧
        sm_sessions (hs_streams h') = delete 7 (sm_sessions (hs_streams busy_state)) ∧
        sends busy_state h' [mkMsg MSG_ERROR 7 0 (Some "error"%string)]) busy_state.
Proof.
  apply (session_taken_over sample_codec 4 sample_schedule TODO 7 1 "exec"%string (mkPacket CMD_EXEC "")
    sample_exec new_stream busy_state); [reflexivity..|apply busy_idle|reflexivity|lia|reflexivity].
Defined.

Lemma input_close_stops_controller_witness :
  ∃ h', handleSession sample_codec 4 TODO
     (([], mkCmd CMD_DATA_CLOSE 7 0 None) :: ([], mkCmd CMD_DATA_INPUT 7 1 None) ::
      [([], mkCmd CMD_RUNTIME_ARANYA_PROTO 8 0 (Some "info"%string))]) busy_state
  = (Hang, h').
Proof.
  apply (input_close_stops_controller sample_codec 4 [] TODO 7 0 1 None None
    [([], mkCmd CMD_RUNTIME_ARANYA_PROTO 8 0 (Some "info"%string))] new_stream busy_state);
    [apply busy_idle|reflexivity].
Defined.

Lemma unknown_command_answer_witness :
  wp (handle_one sample_codec 4 [] TODO (mkCmd 1 9 2 None)) (λ _ h',
    hs_engine h' = hs_engine sample_state ∧ hs_streams h' = hs_streams sample_state ∧
    ∃ data, sends sample_state h' [mkMsg MSG_DATA_OUTPUT 9 2 (Some data)]) sample_state.
Proof. apply (unknown_command_answer sample_codec 4 [] TODO (mkCmd 1 9 2 None)); discriminate. Defined.

Lemma image_ensure_crashes_witness :
  (HandleCmd sample_codec 4 [] TODO 7 5 CMD_RUNTIME_ARANYA_PROTO (Some "images"%string) sample_state).1
  = Panic NilDereference.
Proof.
  apply (image_ensure_crashes sample_runtime (λ _, "error"%string) sample_parsers sample_peers 0
    sample_codec 4 [] TODO 7 5 "images"%string (mkPacket CMD_IMAGE_ENSURE "") no_images
    {| iml_Images := [None; Some {| im_Sha256 := "abc"; im_Size := 0; im_Refs := ["pause"%string] |}] |}
    (EnsureImages sample_runtime TODO no_images session_world).2 sample_state);
    [reflexivity..|vm_compute; reflexivity].
Defined.
