(* ===== verification/WireCodec.v ===== *)
(** The handler's codec: the generated code. *)

From stdpp Require Import base gmap strings list sets fin_maps numbers.
From S2P Require Import Prelude Wire WireProofs Proto World SeqQueue Streams Handler HandlerProofs Messages MessageProofs Fields PodMessages FieldProofs PodMessageProofs SessionTheorems.

Local Open Scope Z_scope.
Local Open Scope list_scope.

Definition marshalled (o : outcome buffer) : string :=
  match o with Ok b => of_bytes b | _ => ""%string end.

(** The order in which maps are ranged over and the texts of errors are left
    open. *)
Definition wire_codec (order : range_order) (err_text : error → string) : Codec := {|
  dec_Packet s := Packet_Unmarshal (to_bytes s);
  enc_Packet p := marshalled (Packet_Marshal p);
  dec_PodEnsure s := message_Unmarshal PodEnsureCmd_message (to_bytes s);
  dec_PodDelete s := message_Unmarshal PodDeleteCmd_message (to_bytes s);
  dec_PodList s := PodListCmd_Unmarshal (to_bytes s);
  dec_ImageEnsure s := message_Unmarshal ImageEnsureCmd_message (to_bytes s);
  dec_ImageDelete s := ImageRefs_Unmarshal (to_bytes s);
  dec_ImageList s := ImageRefs_Unmarshal (to_bytes s);
  dec_ExecOrAttach s := ExecOrAttachCmd_Unmarshal (to_bytes s);
  dec_Logs s := LogsCmd_Unmarshal (to_bytes s);
  dec_Resize s := TerminalResizeCmd_Unmarshal (to_bytes s);
  dec_PortForward s := PortForwardCmd_Unmarshal (to_bytes s);
  enc_PodStatus m := marshalled (message_Marshal PodStatusMsg_message order m);
  enc_PodStatusList l := marshalled (message_Marshal PodStatusListMsg_message order l);
  enc_ImageStatusList l := marshalled (ImageStatusListMsg_Marshal {| iml_Images := Some <$> l |});
  enc_RuntimeInfo i := marshalled (RuntimeInfo_Marshal i);
  enc_ErrorMsg e := marshalled (ErrorMsg_Marshal e);
  enc_HubError d := marshalled (HubError_Marshal d);
  err_Error := err_text |}.

Lemma exec_decoder_panics {W} `{!RuntimeEngine W} codec maxPayloadSize sched ctx sid seq payload data p (h : HState W) :
  dec_Packet codec payload = Ok (mkPacket CMD_EXEC data) → dec_ExecOrAttach codec data = Panic p →
  HandleCmd codec maxPayloadSize sched ctx sid seq CMD_RUNTIME_ARANYA_PROTO (Some payload) h = (Panic p, h).
Proof.
  intros Hp He. pose proof (HandleCmd_command codec maxPayloadSize sched ctx sid seq payload _
    (handleExec codec maxPayloadSize sched) (λ o h', (o, h') = (Panic p, h)) h Hp eq_refl) as H.
  unfold wp in H. destruct (HandleCmd _ _ _ _ _ _ _ _ _) as [o h']. apply H. clear H o h'.
  apply wp_serve_command. unfold handleExec. cbn [pkt_Payload]. by rewrite He.
Qed.

(** ** Packets *)

(** A message in a packet, as either side builds it. *)
Definition packed (kind : Z) (body : outcome buffer) : string :=
  marshalled (Packet_Marshal (mkPacket kind (marshalled body))).

(** A message that the wire can carry. *)
Definition sendable {A} (T : Message A) (m : A) : Prop := message_fits T m ∧ message_Size T m < 2 ^ 62.

Lemma bytes_of_string (b : buffer) : to_bytes (of_bytes b) = b.
Proof. apply String.list_ascii_of_string_of_list_ascii. Qed.

Lemma size_item_room l : 0 ≤ l < 2 ^ 62 → size_bytes l ≤ l + 11.
Proof.
  intros Hl. unfold size_bytes, size_item. pose proof (sov_bound (uint 64 l) (uint_bound 64 l ltac:(done))).
  destruct (0 <? l); lia.
Qed.

Lemma read_packed kind b : int32 kind → size b < 2 ^ 62 →
  Packet_Unmarshal (to_bytes (packed kind (Ok b))) = Ok (mkPacket kind (of_bytes b)).
Proof.
  intros Hk Hs. destruct (Packet_roundtrip (mkPacket kind (of_bytes b))) as (p & Hp & _ & Hu); [done| |].
  - unfold Packet_Size. cbn [pkt_Kind pkt_Payload]. rewrite bytes_of_string.
    pose proof (size_int_bound kind). pose proof (size_item_room (size b)). lia.
  - unfold packed. cbn [marshalled]. rewrite Hp. cbn [marshalled]. by rewrite bytes_of_string.
Qed.

Lemma sent_message {A} (T : Message A) order `{!MessageOk order T} m : sendable T m →
  ∃ b, message_Marshal T order m = Ok b ∧ size b < 2 ^ 62 ∧ message_Unmarshal T b = Ok m.
Proof.
  intros [Hf Hs]. destruct (message_roundtrip order T m Hf) as (b & _ & Hm & Hb & Hu); [lia|].
  exists b. by rewrite Hb.
Qed.

(** ** Requests about pods *)

(** How the hub sees the answer [r] of the engine: one message with the status,
    or with the text of the error; none if the goroutine does not get there. *)
Definition answered {W B} (kind : Z) (T : Message B) (err_text : error → string) (sid seq : Z)
    (r : outcome B) (h h' : HState W) : Prop :=
  match r with
  | Ok m => sendable T m →
      ∃ reply body, sends h h' [mkMsg MSG_RUNTIME_ARANYA_PROTO sid seq (Some reply)] ∧
        Packet_Unmarshal (to_bytes reply) = Ok (mkPacket kind body) ∧ message_Unmarshal T (to_bytes body) = Ok m
  | Err e => length_of (err_text e) < 2 ^ 62 →
      ∃ reply, sends h h' [mkMsg MSG_RUNTIME_ARANYA_PROTO sid seq (Some reply)] ∧
        ErrorMsg_Unmarshal (to_bytes reply) = Ok (mkErrorMsg ERR_COMMON (err_text e) 0)
  | Panic _ | Hang => hs_sent h' = hs_sent h
  end.

(** The handler does what the engine does, and nothing else but answer. *)
Definition served {W B} (kind : Z) (T : Message B) (err_text : error → string) (sid seq : Z)
    (engine : Prelude.M W B) (h : HState W) (run : outcome unit * HState W) : Prop :=
  let r := engine (hs_engine h) in
  run.1 = match r.1 with Panic p => Panic p | _ => Ok () end ∧
  hs_engine run.2 = r.2 ∧ hs_streams run.2 = hs_streams h ∧
  answered kind T err_text sid seq r.1 h run.2.

Lemma sends_from {W} (h h1 h' : HState W) l :
  hs_sent h1 = hs_sent h → hs_link h1 = hs_link h → sends h1 h' l → sends h h' l.
Proof. intros H1 H2 (res & ? & ? & ?). exists res. split; [done|]. by rewrite <- H1, <- H2. Qed.

Lemma request_served {W B} `{!RuntimeEngine W} order err_text maxPayloadSize sched ctx sid seq data kind payload
    do rkind (T : Message B) `{!MessageOk order T} enc (engine : Prelude.M W B) (h : HState W) :
  Packet_Unmarshal (to_bytes data) = Ok (mkPacket kind payload) →
  funcMap (wire_codec order err_text) maxPayloadSize sched kind = Some do →
  do ctx sid payload h = (msg ← lift engine; reply rkind (enc msg)) h →
  (∀ m, enc m = marshalled (message_Marshal T order m)) → int32 rkind →
  served rkind T err_text sid seq engine h
    (HandleCmd (wire_codec order err_text) maxPayloadSize sched ctx sid seq CMD_RUNTIME_ARANYA_PROTO (Some data) h).
Proof.
  intros Hp Hf Hdo Henc Hk.
  pose proof (HandleCmd_command (wire_codec order err_text) maxPayloadSize sched ctx sid seq data _ do
    (λ o h', served rkind T err_text sid seq engine h (o, h')) h Hp Hf) as H.
  unfold wp in H. destruct (HandleCmd _ _ _ _ _ _ _ _ _) as [o h']. apply H. clear H o h'.
  apply wp_serve_command. unfold wp. cbn [pkt_Payload]. rewrite Hdo. unfold mbind, M_bind, lift, served.
  destruct (engine (hs_engine h)) as [[m|e|p|] w]; cbn [fst snd reply mret M_ret].
  - intros h' Hs Hst He. rewrite He, Hst. split_and!; [done..|]. intros Hm.
    destruct (sent_message T order m Hm) as (b & Hb & Hsz & Hu). eexists _, (of_bytes b).
    split; [by eapply sends_from; [..|exact Hs]|]. rewrite Henc, Hb. split; [by apply (read_packed rkind b)|].
    by rewrite bytes_of_string.
  - intros h' Hs Hst He. rewrite He, Hst. split_and!; [done..|]. intros Hl. eexists.
    split; [by eapply sends_from; [..|exact Hs]|]. cbn [enc_ErrorMsg wire_codec].
    destruct (ErrorMsg_roundtrip (mkErrorMsg ERR_COMMON (err_text e) 0)) as (b & Hb & _ & Hu);
      [by vm_compute..| |].
    2: { unfold error_message. cbn [err_Error wire_codec]. rewrite Hb. cbn [marshalled]. by rewrite bytes_of_string. }
    unfold ErrorMsg_Size. cbn [em_Kind em_Description em_Code]. pose proof (size_item_room (length_of (err_text e))).
    change (size_int ERR_COMMON) with 0. change (size_int 0) with 0. lia.
  - done.
  - done.
Qed.
