(* ===== verification/WireTheorems.v ===== *)
(** Properties of the wire format, and the handler on the wire. *)

From stdpp Require Import base gmap strings list sets fin_maps numbers.
From S2P Require Import Prelude Wire WireProofs Proto World Libpod Mem Image Logs SeqQueue Streams Handler Engine HandlerProofs Messages MessageProofs Fields PodMessages FieldProofs PodMessageProofs WireCodec Samples SessionSamples SessionTheorems.

Local Open Scope Z_scope.
Local Open Scope list_scope.

(** ** Decoders end *)

(** The cases of the [switch] of a message. *)
Ltac moves_field :=
  apply moves_with_type;
  first
    [ eapply (moves_map _ any); [done|];
      first [ by apply moves_append
            | eapply moves_weaken; [done|]; first
                [ by apply moves_varint, _ | by apply moves_string | by apply moves_bytes | by apply moves_bool ]
            | apply moves_entry; [done|by eapply moves_weaken, moves_string] ]
    | apply moves_message; [done|] ].

Ltac decoder_ends m :=
  apply Unmarshal_ends; [done|]; intros m n w r Hr; try destruct m; unfold Packet_field, RuntimeInfo_field, Msg_field,
    Cmd_field, ErrorMsg_field, ImageStatusMsg_field, ImageStatusListMsg_field, ExecOrAttachCmd_field, LogsCmd_field,
    PortForwardCmd_field, TerminalResizeCmd_field, PodListCmd_field, ImageRefs_field in Hr;
  repeat (case_match; try discriminate Hr); injection Hr as <-; moves_field.

Lemma image_ends b : size b < 2 ^ 63 → ends false (λ _ _, True) (Unmarshal ImageStatusMsg_field no_image b) 0.
Proof. intros Hd. decoder_ends m. Qed.

Lemma ends_answers {A} p (o : outcome A) : ends p (λ _ _, True) o 0 → o ≠ Hang.
Proof. by destruct o. Qed.

Lemma table_answers {A} (T : Message A) `{!MessageEnds true T} b : size b < 2 ^ 63 → message_Unmarshal T b ≠ Hang.
Proof. intros Hb. by eapply ends_answers, message_ends. Qed.

Lemma ends_settled {A} (o : outcome A) : ends false (λ _ _, True) o 0 → returns_outcome o.
Proof. by destruct o. Qed.

(** C20: Whatever bytes arrive, the decoders of messages without maps answer a
    message or an error: they do not read outside of the bytes, although the
    lengths in them are arbitrary 64-bit numbers, and their loops end.  The
    decoders of messages with maps end as well; they may panic. *)
Theorem decoders_return d :
  size d < 2 ^ 63 →
  returns_outcome (Packet_Unmarshal d) ∧ returns_outcome (RuntimeInfo_Unmarshal d) ∧
  returns_outcome (Cmd_Unmarshal d) ∧ returns_outcome (Msg_Unmarshal d) ∧ returns_outcome (ErrorMsg_Unmarshal d) ∧
  returns_outcome (ImageStatusListMsg_Unmarshal d) ∧ returns_outcome (LogsCmd_Unmarshal d) ∧
  returns_outcome (PortForwardCmd_Unmarshal d) ∧ returns_outcome (TerminalResizeCmd_Unmarshal d) ∧
  returns_outcome (PodListCmd_Unmarshal d) ∧ returns_outcome (ImageRefs_Unmarshal d) ∧
  ExecOrAttachCmd_Unmarshal d ≠ Hang ∧ message_Unmarshal PodEnsureCmd_message d ≠ Hang ∧
  message_Unmarshal PodDeleteCmd_message d ≠ Hang ∧ message_Unmarshal ImageEnsureCmd_message d ≠ Hang ∧
  message_Unmarshal PodStatusMsg_message d ≠ Hang ∧ message_Unmarshal PodStatusListMsg_message d ≠ Hang.
Proof.
  intros Hd. split_and!;
    lazymatch goal with
    | |- message_Unmarshal _ _ ≠ Hang => apply table_answers; [apply _|done]
    | |- _ ≠ Hang => eapply (ends_answers true); decoder_ends m
    | |- _ => apply ends_settled; try decoder_ends m
    end.
  by apply image_ends.
Qed.

Lemma decoders_return_witness : size [byte_of 18; byte_of 255; byte_of 255] < 2 ^ 63 ∧
  returns_outcome (Packet_Unmarshal [byte_of 18; byte_of 255; byte_of 255]) ∧
  Packet_Unmarshal [byte_of 18; byte_of 255; byte_of 255] = Err ErrUnexpectedEOF.
Proof.
  split; [vm_compute; reflexivity|]. split; [|vm_compute; reflexivity].
  apply (decoders_return [byte_of 18; byte_of 255; byte_of 255]). vm_compute. reflexivity.
Defined.

Definition round_trips {A} (T : Message A) (order : range_order) : Prop :=
  ∀ m, message_fits T m → message_Size T m < 2 ^ 63 →
    ∃ b, message_Marshal T order m = Ok b ∧ size b = message_Size T m ∧ message_Unmarshal T b = Ok m.

Lemma table_round_trips {A} (T : Message A) order : MessageOk order T → round_trips T order.
Proof. intros ? m Hf Hs. destruct (message_roundtrip order T m Hf Hs) as (b & _ & Hb). by exists b. Qed.

(** C19: What the encoders write, the decoders read back: packets, the information
    about the runtime, commands and messages of the hub, errors, the commands,
    and the status of images and pods, with numbers of their width, strings of
    any bytes, and the entries of a map in any order.  (A payload that is empty
    but not nil is not written and arrives as nil.) *)
Theorem messages_round_trip :
  (∀ m, int32 (pkt_Kind m) → Packet_Size m < 2 ^ 63 →
     ∃ b, Packet_Marshal m = Ok b ∧ size b = Packet_Size m ∧ Packet_Unmarshal b = Ok m) ∧
  (∀ m, RuntimeInfo_Size m < 2 ^ 63 →
     ∃ b, RuntimeInfo_Marshal m = Ok b ∧ size b = RuntimeInfo_Size m ∧ RuntimeInfo_Unmarshal b = Ok m) ∧
  (∀ m, int32 (cmd_Kind m) → uint64 (cmd_Id m) → uint64 (cmd_Seq m) → cmd_Payload m ≠ Some ""%string →
     Cmd_Size m < 2 ^ 63 → ∃ b, Cmd_Marshal m = Ok b ∧ size b = Cmd_Size m ∧ Cmd_Unmarshal b = Ok m) ∧
  (∀ m, int32 (msg_Kind m) → uint64 (msg_Id m) → uint64 (msg_Ack m) → msg_Payload m ≠ Some ""%string →
     Msg_Size m < 2 ^ 63 → ∃ b, Msg_Marshal m = Ok b ∧ size b = Msg_Size m ∧ Msg_Unmarshal b = Ok m) ∧
  (∀ m, int32 (em_Kind m) → int64 (em_Code m) → ErrorMsg_Size m < 2 ^ 63 →
     ∃ b, ErrorMsg_Marshal m = Ok b ∧ size b = ErrorMsg_Size m ∧ ErrorMsg_Unmarshal b = Ok m) ∧
  (∀ l : list ImageStatusMsg, Forall (λ m, uint64 (im_Size m)) l →
     ImageStatusListMsg_Size {| iml_Images := Some <$> l |} < 2 ^ 63 →
     ∃ b, ImageStatusListMsg_Marshal {| iml_Images := Some <$> l |} = Ok b ∧
       ImageStatusListMsg_Unmarshal b = Ok {| iml_Images := Some <$> l |}) ∧
  (∀ m envs, envs ≡ₚ map_to_list (ea_Envs m) → ExecOrAttachCmd_Size m envs < 2 ^ 63 →
     ∃ b, ExecOrAttachCmd_Marshal m envs = Ok b ∧ size b = ExecOrAttachCmd_Size m envs ∧
       ExecOrAttachCmd_Unmarshal b = Ok m) ∧
  (∀ m, int64 (lc_TailLines m) → int64 (lc_BytesLimit m) → LogsCmd_Size m < 2 ^ 63 →
     ∃ b, LogsCmd_Marshal m = Ok b ∧ size b = LogsCmd_Size m ∧ LogsCmd_Unmarshal b = Ok m) ∧
  (∀ m, int32 (pf_Port m) → PortForwardCmd_Size m < 2 ^ 63 →
     ∃ b, PortForwardCmd_Marshal m = Ok b ∧ size b = PortForwardCmd_Size m ∧ PortForwardCmd_Unmarshal b = Ok m) ∧
  (∀ m, uint32 m.1 → uint32 m.2 → ∃ b, TerminalResizeCmd_Marshal m = Ok b ∧ size b = TerminalResizeCmd_Size m ∧
     TerminalResizeCmd_Unmarshal b = Ok m) ∧
  (∀ m, PodListCmd_Size m < 2 ^ 63 →
     ∃ b, PodListCmd_Marshal m = Ok b ∧ size b = PodListCmd_Size m ∧ PodListCmd_Unmarshal b = Ok m) ∧
  (∀ refs, sum_sizes (λ s, size_item (length_of s)) refs < 2 ^ 63 →
     ∃ b, ImageRefs_Marshal refs = Ok b ∧ size b = sum_sizes (λ s, size_item (length_of s)) refs ∧
       ImageRefs_Unmarshal b = Ok refs) ∧
  (∀ order, (∀ ks, order ks ≡ₚ ks) →
     round_trips PodEnsureCmd_message order ∧ round_trips PodDeleteCmd_message order ∧
     round_trips ImageEnsureCmd_message order ∧ round_trips PodStatusMsg_message order ∧
     round_trips PodStatusListMsg_message order).
Proof.
  split_and!;
    [exact Packet_roundtrip|exact RuntimeInfo_roundtrip|exact Cmd_roundtrip|exact Msg_roundtrip
    |exact ErrorMsg_roundtrip|exact ImageStatusListMsg_roundtrip|exact ExecOrAttachCmd_roundtrip
    |exact LogsCmd_roundtrip|exact PortForwardCmd_roundtrip|exact TerminalResizeCmd_roundtrip
    |exact PodListCmd_roundtrip|exact ImageRefs_roundtrip
    |intros order Horder; split_and!; apply table_round_trips;
       [by apply PodEnsureCmd_ok|by apply PodDeleteCmd_ok|by apply ImageEnsureCmd_ok|by apply PodStatusMsg_ok
       |by apply PodStatusListMsg_ok]].
Qed.

(** ** The handler on the wire *)

Definition sample_text (_ : error) : string := "error".

(** The image list that the handler sends is what the generated encoder
    writes for it, a panic of the encoder included: it panics exactly when the
    list has a nil entry. *)
Theorem image_list_on_the_wire {W} order err_text msg (h : HState W) :
  Forall image_fits (iml_Images msg) → ImageStatusListMsg_Size msg < 2 ^ 63 →
  Marshal_ImageStatusList (wire_codec order err_text) msg h
    = (outcome_map of_bytes (ImageStatusListMsg_Marshal msg), h) ∧
  (ImageStatusListMsg_Marshal msg = Panic NilDereference ↔ None ∈ iml_Images msg).
Proof.
  intros Hf Hs. unfold Marshal_ImageStatusList. destruct (mapM id (iml_Images msg)) as [l|] eqn:Em.
  - assert (iml_Images msg = Some <$> l) as Himg.
    { apply mapM_Some in Em. revert Em. clear. generalize (iml_Images msg). intros images Em.
      induction Em as [|x y ? ? Hxy _ IH]; [done|]. unfold id in Hxy. subst x. rewrite fmap_cons. by f_equal. }
    destruct msg as [images]. simpl in *. subst images.
    destruct (ImageStatusListMsg_roundtrip l) as (b & Hb & _); [|done|].
    { rewrite Forall_fmap in Hf. exact Hf. }
    rewrite Hb. split; [done|]. split; [done|].
    intros (x & ? & _)%list_elem_of_fmap. done.
  - assert (None ∈ iml_Images msg) as Hn.
    { apply mapM_None in Em. apply Exists_exists in Em as (x & Hx & Hid). unfold id in Hid. subst x.
      by apply list_elem_of_In. }
    by rewrite ImageStatusListMsg_nil.
Qed.

Lemma image_list_on_the_wire_witness :
  let msg := {| iml_Images := [Some {| im_Sha256 := "s"; im_Size := 7; im_Refs := ["a"%string] |}; None] |} in
  Forall image_fits (iml_Images msg) ∧
  (Marshal_ImageStatusList (wire_codec id sample_text) msg sample_state).1 = Panic NilDereference.
Proof.
  set (msg := {| iml_Images := _ |}).
  assert (Forall image_fits (iml_Images msg)) as Hf.
  { apply Forall_cons_2; [by vm_compute|]. apply Forall_cons_2; [done|]. apply Forall_nil_2. }
  assert (ImageStatusListMsg_Size msg < 2 ^ 63) as Hs by (vm_compute; reflexivity).
  split; [exact Hf|].
  destruct (image_list_on_the_wire id sample_text msg sample_state Hf Hs) as [-> Hp].
  rewrite (proj2 Hp); [reflexivity|]. unfold msg. simpl. apply list_elem_of_further, list_elem_of_here.
Defined.

(** An exec with one entry in its environment, whose only field is unknown and
    as long as an [int] can say. *)
Definition overlong_entry : buffer :=
  byte_of 66 :: byte_of 10 :: byte_of 26 :: varint (2 ^ 63 - 11).
Definition overlong_exec : string :=
  of_bytes (byte_of 8 :: byte_of CMD_EXEC :: byte_of 18 :: byte_of 12 :: overlong_entry).

(** C37: Sixteen bytes end the process: the end of an unknown field inside the
    entry of a map overflows, the negative index is not noticed, and the next
    byte is read in front of the message.  It does not matter what the engine
    is or what else runs. *)
Theorem overlong_exec_crashes {W} `{!RuntimeEngine W} order err_text maxPayloadSize sched ctx sid seq (h : HState W) :
  String.length overlong_exec = 16%nat ∧
  ExecOrAttachCmd_Unmarshal overlong_entry = Panic IndexOutOfRange ∧
  HandleCmd (wire_codec order err_text) maxPayloadSize sched ctx sid seq CMD_RUNTIME_ARANYA_PROTO (Some overlong_exec) h
    = (Panic IndexOutOfRange, h).
Proof.
  assert (ExecOrAttachCmd_Unmarshal overlong_entry = Panic IndexOutOfRange) as He by (vm_compute; reflexivity).
  assert (Packet_Unmarshal (to_bytes overlong_exec) = Ok (mkPacket CMD_EXEC (of_bytes overlong_entry))) as Hp
    by (vm_compute; reflexivity).
  split; [vm_compute; reflexivity|]. split; [exact He|]. eapply exec_decoder_panics; [exact Hp|].
  cbn [dec_ExecOrAttach wire_codec]. by rewrite bytes_of_string.
Qed.





(** C36: Requests about pods on the wire.  What the hub encodes is what the engine is
    asked, and the engine's status is what the hub decodes from the one message
    it gets back, in whatever orders the two sides range over the maps; an error
    arrives as its text.  The handler leaves the engine where the operation left
    it, and a panic of the operation ends the process. *)
Theorem pod_requests_on_the_wire {W} `{!RuntimeEngine W} hub order err_text maxPayloadSize sched ctx sid seq
    (h : HState W) :
  (∀ ks, hub ks ≡ₚ ks) → (∀ ks, order ks ≡ₚ ks) →
  let run data := HandleCmd (wire_codec order err_text) maxPayloadSize sched ctx sid seq CMD_RUNTIME_ARANYA_PROTO
                    (Some data) h in
  (∀ o, sendable PodEnsureCmd_message o →
     served MSG_POD_STATUS PodStatusMsg_message err_text sid seq (eng_EnsurePod ctx o) h
       (run (packed CMD_POD_ENSURE (message_Marshal PodEnsureCmd_message hub o)))) ∧
  (∀ o, sendable PodDeleteCmd_message o →
     served MSG_POD_STATUS PodStatusMsg_message err_text sid seq (eng_DeletePod ctx o) h
       (run (packed CMD_POD_DELETE (message_Marshal PodDeleteCmd_message hub o)))) ∧
  (∀ o, PodListCmd_Size o < 2 ^ 62 →
     served MSG_POD_STATUS_LIST PodStatusListMsg_message err_text sid seq (eng_ListPods ctx o) h
       (run (packed CMD_POD_LIST (PodListCmd_Marshal o)))).
Proof.
  intros Hhub Horder run. unfold run. clear run. pose proof (PodStatusMsg_ok order Horder). pose proof (PodStatusListMsg_ok order Horder).
  pose proof (PodEnsureCmd_ok hub Hhub). pose proof (PodDeleteCmd_ok hub Hhub). split_and!; intros o Ho.
  - destruct (sent_message _ hub o Ho) as (b & -> & Hs & Hu).
    eapply request_served; [apply _|by apply read_packed|reflexivity| |reflexivity|by vm_compute].
    unfold handlePodEnsure. cbn [dec_PodEnsure wire_codec]. by rewrite bytes_of_string, Hu.
  - destruct (sent_message _ hub o Ho) as (b & -> & Hs & Hu).
    eapply request_served; [apply _|by apply read_packed|reflexivity| |reflexivity|by vm_compute].
    unfold handlePodDelete. cbn [dec_PodDelete wire_codec]. by rewrite bytes_of_string, Hu.
  - destruct (PodListCmd_roundtrip o) as (b & -> & Hs & Hu); [lia|].
    eapply request_served; [apply _|apply read_packed; [by vm_compute|lia]|reflexivity| |reflexivity|by vm_compute].
    unfold handlePodList. cbn [dec_PodList wire_codec]. by rewrite bytes_of_string, Hu.
Qed.

Lemma empty_fits {V} (m : gmap string V) (P : V → Prop) : m = ∅ → ∀ k v, m !! k = Some v → P v.
Proof. intros -> k v. by rewrite lookup_empty. Qed.

(** The fields of a concrete message. *)
Ltac fits :=
  unfold message_fits; first [apply Forall_nil_2 | apply Forall_cons_2; [fits_row|fits]]
with fits_row :=
  cbn [f_fits field_of kd_fits string_kind bytes_kind bool_kind int32_kind strings_kind int_kind map_kind message_kind
       messages_kind];
  lazymatch goal with
  | |- True => exact I
  | |- int32 _ => vm_compute; split; [discriminate|reflexivity]
  | |- ∀ k v, _ !! k = Some v → _ => apply empty_fits; reflexivity
  | |- match ?o with _ => _ end => let x := eval hnf in o in change o with x; cbn beta iota; first [exact I | fits]
  | |- _ => idtac
  end.

Lemma sample_spec_fits name : message_fits ContainerSpec_message (sample_spec name).
Proof. fits. Qed.

Lemma sample_sendable : sendable PodEnsureCmd_message sample_ensure.
Proof.
  split; [|vm_compute; reflexivity]. fits.
  unfold sample_ensure. cbn [pe_Containers].
  intros m [->|[->|?%not_elem_of_nil]%elem_of_cons]%elem_of_cons; [apply sample_spec_fits..|done].
Qed.

Definition request_state : HState (World Mem) := mkHState (Samples.sample_world []) NewStreamManager [] (λ _, None).

(** The two sides range over maps in opposite orders. *)
Lemma pod_requests_on_the_wire_witness :
  sendable PodEnsureCmd_message sample_ensure ∧
  served MSG_POD_STATUS PodStatusMsg_message sample_text 7 3 (eng_EnsurePod TODO sample_ensure) request_state
    (HandleCmd (wire_codec id sample_text) 4 [] TODO 7 3 CMD_RUNTIME_ARANYA_PROTO
       (Some (packed CMD_POD_ENSURE (message_Marshal PodEnsureCmd_message reverse sample_ensure))) request_state).
Proof.
  split; [exact sample_sendable|].
  destruct (pod_requests_on_the_wire reverse id sample_text 4 [] TODO 7 3 request_state) as (H & _ & _).
  - intros ks. apply reverse_Permutation.
  - done.
  - exact (H sample_ensure sample_sendable).
Defined.

(** A mount of which only the name is on the wire decodes to a nil pointer, and the
    process ends with the request. *)
Definition nil_mount_ensure : PodEnsureCmd :=
  {| pe_PodUid := "u1"; pe_Namespace := "ns"; pe_Name := "web"; pe_RestartPolicy := RESTART_ALWAYS;
     pe_HostIpc := false; pe_HostNetwork := true; pe_HostPid := false; pe_SharePid := false;
     pe_Wait := false; pe_Hostname := "";
     pe_Containers := [
       {| cs_Name := "app"; cs_Image := "img"; cs_WorkingDir := ""; cs_Stdin := false; cs_StdinOnce := false;
          cs_Tty := false; cs_Command := []; cs_Args := []; cs_Envs := ∅; cs_Mounts := {["data"%string := None]};
          cs_ReadinessCheck := None; cs_LivenessCheck := None; cs_Security := None; cs_HookPostStart := None |}];
     pe_Network := Some sample_network;
     pe_Volumes := Some {| vs_HostPaths := {["data"%string := "/srv"%string]}; vs_VolumeData := ∅ |};
     pe_Security := None; pe_Labels := ∅ |}.

Example nil_mount_crashes :
  message_Unmarshal PodEnsureCmd_message (to_bytes (marshalled (message_Marshal PodEnsureCmd_message id nil_mount_ensure)))
    = Ok nil_mount_ensure ∧
  (HandleCmd (wire_codec id sample_text) 4 [] TODO 7 3 CMD_RUNTIME_ARANYA_PROTO
     (Some (packed CMD_POD_ENSURE (message_Marshal PodEnsureCmd_message id nil_mount_ensure))) request_state).1
    = Panic NilDereference.
Proof. split; vm_compute; reflexivity. Qed.
