(* ===== verification/Service.v ===== *)
(** The whole service: the connection of [Connection] with the handler of
    [Handler], and the podman engine below it.

    [HandleCmd] is cut at its [go] statement: [accept_cmd] runs in the loop of
    the controller, the goroutine it starts is a [task].  A task runs whenever
    it is scheduled, so commands may overtake each other; here it runs in one step
    ([Concurrent] interleaves the calls of requests).  Its messages are handed to [sendMsg] in any order with those of
    other tasks.  A command that blocks the loop of the controller stays there,
    and a panic ends the process. *)

From stdpp Require Import base gmap strings pretty list fin_maps fin_sets numbers relations.
From S2P Require Import Prelude GoPath Proto Labels World Libpod Mem BaseRuntime Storage Find Network Translate Container ContainerProofs Pod PodProofs DeleteProofs EnsureProofs Image Logs Action Conf Runtime SeqQueue Streams Handler Engine HandlerProofs Connection Commands Samples SessionSamples.

Local Open Scope list_scope.

(** ** Commands and tasks *)

Record task := mkTask { tk_Id : Z; tk_Seq : Z; tk_Pkt : Packet }.

Section handler.
Context {W : Type} `{!RuntimeEngine W} (codec : Codec) (maxPayloadSize : nat) (ctx : Ctx).
Notation H := (HState W).
Notation M := (Prelude.M H).

(** What [HandleCmd] does in its caller. *)
Definition accept_cmd (sid seq kind : Z) (payload : option string) : M (option task) :=
  if decide (kind = CMD_DATA_INPUT) then Write sid seq (Some (default ""%string payload));; mret None
  else if decide (kind = CMD_DATA_CLOSE) then Write sid seq None;; mret None
  else if decide (kind = CMD_RUNTIME_ARANYA_PROTO) then
    pkt ← Handler.decode (dec_Packet codec (default ""%string payload));
    match funcMap codec maxPayloadSize [] (pkt_Kind pkt) with
    | None => fail (Errorf "unknown runtime cmd type")
    | Some _ => mret (Some (mkTask sid seq pkt))
    end
  else fail (Errorf "unknown cmd type").

(** The body of the goroutine. *)
Definition run_task (sched : schedule) (t : task) : M unit :=
  match funcMap codec maxPayloadSize sched (pkt_Kind (tk_Pkt t)) with
  | Some do => serve_command codec (tk_Id t) (tk_Seq t) (do ctx (tk_Id t) (pkt_Payload (tk_Pkt t)))
  | None => mret ()
  end.

(** The kinds of commands do not depend on the schedule. *)
Lemma funcMap_known sched kind :
  funcMap codec maxPayloadSize sched kind = None ↔ funcMap codec maxPayloadSize [] kind = None.
Proof. unfold funcMap. by repeat case_decide. Qed.

(** [HandleCmd] is its two parts, one after the other. *)
Lemma HandleCmd_parts sched sid seq kind payload h :
  HandleCmd codec maxPayloadSize sched ctx sid seq kind payload h
  = (t ← accept_cmd sid seq kind payload;
     match t with Some t => go (run_task sched t) | None => mret () end) h.
Proof.
  unfold HandleCmd, accept_cmd. repeat case_decide; unfold mbind, M_bind, mret, M_ret.
  - by destruct (Write _ _ _ h) as [[[]|?|?|] ?].
  - by destruct (Write _ _ _ h) as [[[]|?|?|] ?].
  - unfold Handler.decode. destruct (dec_Packet codec _) as [pkt|?|?|]; try done.
    destruct (funcMap codec maxPayloadSize sched (pkt_Kind pkt)) as [do|] eqn:E1.
    + destruct (funcMap codec maxPayloadSize [] (pkt_Kind pkt)) eqn:E2;
        [|apply (funcMap_known sched) in E2; congruence].
      unfold run_task. cbn [tk_Pkt tk_Id tk_Seq]. by rewrite E1.
    + apply funcMap_known in E1. by rewrite E1.
  - done.
Qed.

(** ** The service *)

Record service := mkService {
  sv_link : link;
  sv_handler : H;
  sv_tasks : list task;      (* goroutines that were started *)
  sv_out : list Msg;         (* messages on their way to [sendMsg] *)
  sv_blocked : bool;         (* the controller is stuck in a command *)
  sv_panic : bool }.

(** The messages that the handler handed to the send function between two states. *)
Definition new_messages (h h' : H) : list Msg := drop (length (hs_sent h)) (hs_sent h').*1.

Definition is_panic {A} (o : outcome A) : bool := match o with Panic _ => true | _ => false end.
Definition is_hang {A} (o : outcome A) : bool := match o with Hang => true | _ => false end.

(** The answer of the controller to a command: the error, if there is one. *)
Definition answer_of {A} (c : Cmd) (o : outcome A) : option Msg :=
  match o with
  | Err e => Some (mkMsg 0 (cmd_Id c) (cmd_Seq c) (Some (enc_HubError codec (err_Error codec e))))
  | _ => None
  end.

Definition started (o : outcome (option task)) : list task :=
  match o with Ok (Some t) => [t] | _ => [] end.

Inductive sstep (s : service) : service → Prop :=
(* the client, the reader, the writer, and the controller between commands *)
| service_net l' :
    step (sv_link s) l' → lk_handled l' = lk_handled (sv_link s) →
    lk_senders l' `sublist_of` lk_senders (sv_link s) →
    (sv_blocked s = true → lk_ctrl l' = lk_ctrl (sv_link s)) →
    sstep s (mkService l' (sv_handler s) (sv_tasks s) (sv_out s) (sv_blocked s) false)
(* the controller takes a command *)
| service_handle n c rest o h' :
    lk_panic (sv_link s) = false → sv_blocked s = false →
    lk_ctrl (sv_link s) = CRange n → cb_cmdCh (lk_bundles (sv_link s) n) = c :: rest →
    accept_cmd (cmd_Id c) (cmd_Seq c) (cmd_Kind c) (cmd_Payload c) (sv_handler s) = (o, h') →
    sstep s (mkService
      (set_ctrl (match answer_of c o with None => CRange n | Some m => CSend n m end)
         (add_handled (n, c) (set_cmdCh n rest (sv_link s))))
      h' (sv_tasks s ++ started o) (sv_out s) (is_hang o) (is_panic o))
(* a goroutine runs *)
| service_run l1 t l2 sched o h' :
    sv_tasks s = l1 ++ t :: l2 → run_task sched t (sv_handler s) = (o, h') →
    sstep s (mkService (sv_link s) h' (l1 ++ l2) (sv_out s ++ new_messages (sv_handler s) h')
               (sv_blocked s) (is_panic o))
(* and loads the send function for a message *)
| service_send n m l1 l2 :
    lk_panic (sv_link s) = false →
    sv_out s = l1 ++ m :: l2 → lk_handled (sv_link s) ≠ [] → lk_sendFunc (sv_link s) = Some n →
    sstep s (mkService (set_senders ((n, m) :: lk_senders (sv_link s)) (sv_link s)) (sv_handler s)
               (sv_tasks s) (l1 ++ l2) (sv_blocked s) false).

(** Nothing follows a panic. *)
Definition svstep (s s' : service) : Prop := sv_panic s = false ∧ sstep s s'.

Definition service_start (h : H) : service := mkService link_start h [] [] false false.

(** The connection of the service is a connection. *)
Lemma service_link s s' : svstep s s' → rtc step (sv_link s) (sv_link s').
Proof.
  intros [_ Hs]. inversion Hs as [l' Hl|n c rest o h' Hp Hb Hc Hcmds Hrun|l1 t l2 sched o h' Ht Hrun
    |n m l1 l2 Hp Hout Hh Hf]; subst; simpl.
  - by apply rtc_once.
  - apply rtc_once. split; [done|]. by apply ctrl_handle.
  - apply rtc_refl.
  - apply rtc_once. split; [done|]. by apply session_load.
Qed.

Lemma service_link_rtc h s : rtc svstep (service_start h) s → rtc step link_start (sv_link s).
Proof.
  intros Hr. change link_start with (sv_link (service_start h)).
  induction Hr as [|s1 s2 s3 H12 _ IH]; [done|]. etrans; [by apply service_link|exact IH].
Qed.
End handler.
