(* ===== verification/ServiceProofs.v ===== *)
(** Properties of the whole service ([Service]): what its commands do to the pods
    of the engine, and whose messages reach the hub.

    Both are proved by one rule: a task keeps every relation on the state of the
    handler that its parts keep ([respects], [keeps_run_task]). *)

From stdpp Require Import base gmap strings pretty list fin_maps fin_sets numbers relations sorting functions.
From S2P Require Import Prelude GoPath Proto Labels World Libpod Mem BaseRuntime Storage Find Network Translate Container ContainerProofs Pod PodProofs DeleteProofs EnsureProofs Image Logs Action Conf Runtime SeqQueue Streams Handler Engine HandlerProofs Connection Commands Samples SessionSamples Service.

Local Open Scope list_scope.

(** ** What a task keeps *)

Section tasks.
Context {W : Type} `{!RuntimeEngine W} (codec : Codec) (maxPayloadSize : nat).
Notation H := (HState W).
Implicit Types (h : H) (R : relation H).

(** A relation that the parts of a command respect: the messages of session
    [sid], the stream manager, and the engine, which is asked to ensure the pods
    of [wanted] only. *)
Record respects R (sid : Z) (wanted : PodEnsureCmd → Prop) : Prop := {
  rs_preorder : PreOrder R;
  rs_streams m : keeps R (sm_put (W := H) m);
  rs_send m : msg_Id m = sid → keeps R (SendMsg m);
  rs_ctx ctx : keeps R (lift (eng_CtxDone ctx));
  rs_exec ctx u c i o e cmd tty : keeps R (lift (eng_Exec ctx u c i o e cmd tty));
  rs_attach ctx u c i o e : keeps R (lift (eng_Attach ctx u c i o e));
  rs_logs ctx o : keeps R (lift (eng_Logs ctx o));
  rs_forward ctx u p n : keeps R (lift (eng_PortForward ctx u p n));
  rs_ensure ctx o : wanted o → keeps R (lift (eng_EnsurePod ctx o));
  rs_delete ctx o : keeps R (lift (eng_DeletePod ctx o));
  rs_list ctx o : keeps R (lift (eng_ListPods ctx o));
  rs_images ctx o : keeps R (lift (eng_EnsureImages ctx o));
  rs_remove_images ctx l : keeps R (lift (eng_DeleteImages ctx l));
  rs_list_images ctx l : keeps R (lift (eng_ListImages ctx l)) }.

Section respected.
Context R sid wanted (Hr : respects R sid wanted).

#[local] Instance respected_preorder : PreOrder R := rs_preorder _ _ _ Hr.

Lemma keeps_handler_decode {A} (r : outcome A) : keeps R (Handler.decode (W := W) r).
Proof. intros h. by simpl. Qed.

(** After a decoder its result is known. *)
Lemma keeps_decode_bind {A B} (r : outcome A) (k : A → Prelude.M H B) :
  (∀ a, r = Ok a → keeps R (k a)) → keeps R (Handler.decode r ≫= k).
Proof.
  intros Hk h. unfold Handler.decode, mbind, M_bind. destruct r as [a|?|?|]; simpl; try done. by apply Hk.
Qed.

Lemma keeps_sm_get : keeps R (sm_get (W := H)).
Proof. intros h. by simpl. Qed.

Lemma keeps_of_outcome {A} (o : outcome A) : keeps R (of_outcome (W := H) o).
Proof. intros h. by simpl. Qed.

#[local] Hint Resolve keeps_handler_decode keeps_sm_get keeps_of_outcome : keeps.
#[local] Hint Extern 1 (keeps R (sm_put _)) => apply (rs_streams _ _ _ Hr) : keeps.
#[local] Hint Extern 1 (keeps R (lift _)) =>
  first [apply (rs_ctx _ _ _ Hr)|apply (rs_exec _ _ _ Hr)|apply (rs_attach _ _ _ Hr)|apply (rs_logs _ _ _ Hr)
        |apply (rs_forward _ _ _ Hr)|apply (rs_delete _ _ _ Hr)|apply (rs_list _ _ _ Hr)
        |apply (rs_images _ _ _ Hr)|apply (rs_remove_images _ _ _ Hr)|apply (rs_list_images _ _ _ Hr)] : keeps.
#[local] Hint Extern 2 (keeps R (SendMsg _)) => apply (rs_send _ _ _ Hr); reflexivity : keeps.

Lemma keeps_set_sessions f : keeps R (set_sessions (W := H) f).
Proof. unfold set_sessions. keeps_solve. Qed.
#[local] Hint Resolve keeps_set_sessions : keeps.

Lemma keeps_sm_Lock : keeps R (sm_Lock (W := H)).
Proof. unfold sm_Lock. keeps_solve. Qed.
Lemma keeps_sm_Unlock : keeps R (sm_Unlock (W := H)).
Proof. unfold sm_Unlock. keeps_solve. Qed.
Lemma keeps_sm_find s : keeps R (sm_find (W := H) s).
Proof. unfold sm_find. keeps_solve. Qed.
#[local] Hint Resolve keeps_sm_Lock keeps_sm_Unlock keeps_sm_find : keeps.

Lemma keeps_Add {A} s (create : Prelude.M H A) : keeps R create → keeps R (Add s create).
Proof. intros Hc. unfold Add. keeps_solve. Qed.
Lemma keeps_Del s : keeps R (Del (W := H) s).
Proof. unfold Del. keeps_solve. Qed.
Lemma keeps_Write s seq data : keeps R (Write (W := H) s seq data).
Proof. unfold Write. keeps_solve. Qed.
Lemma keeps_Resize s cols rows : keeps R (Resize (W := H) s cols rows).
Proof. unfold Resize. keeps_solve. Qed.
#[local] Hint Resolve keeps_Del keeps_Write keeps_Resize : keeps.
#[local] Hint Extern 2 (keeps R (Add _ _)) => apply keeps_Add : keeps.

(** The parts of a session. *)
Lemma keeps_uploads sched out err seq : keeps R (uploads maxPayloadSize sid sched out err seq).
Proof.
  revert out err seq. induction sched as [|[[] n] sched IH]; intros out err seq; simpl; [apply keeps_ret; apply _|..];
    (apply keeps_bind; [apply _| |intros; apply IH]); unfold upload_read; keeps_solve.
Qed.

Lemma keeps_collectStreamErrors ctx acc errs : keeps R (collectStreamErrors codec ctx acc errs).
Proof. revert acc. induction errs as [|e errs IH]; intros acc; simpl; keeps_solve. Qed.

Lemma keeps_collect_forward_errors ctx acc errs : keeps R (collect_forward_errors codec ctx acc errs).
Proof. revert acc. induction errs as [|e errs IH]; intros acc; simpl; keeps_solve. Qed.

#[local] Hint Resolve keeps_uploads keeps_collectStreamErrors keeps_collect_forward_errors : keeps.
#[local] Hint Extern 2 (keeps R (SendMsg (last_message _ sid _ ?e))) =>
  apply (rs_send _ _ _ Hr); unfold last_message; destruct e; reflexivity : keeps.

Lemma keeps_handleStreamOperation o e sched run :
  keeps R run → keeps R (handleStreamOperation codec maxPayloadSize sid o e sched run).
Proof. intros Hrun. unfold handleStreamOperation. keeps_solve. Qed.

Lemma keeps_run_session ctx stdin op : keeps R (lift op) → keeps R (run_session codec ctx sid stdin op).
Proof. intros Hop. unfold run_session, start_session. keeps_solve. Qed.
#[local] Hint Extern 2 (keeps R (handleStreamOperation _ _ _ _ _ _ _)) => apply keeps_handleStreamOperation : keeps.
#[local] Hint Extern 2 (keeps R (run_session _ _ _ _ _)) => apply keeps_run_session : keeps.

Lemma keeps_end_forward seq err : keeps R (end_forward codec sid seq err).
Proof. unfold end_forward. keeps_solve. Qed.
#[local] Hint Resolve keeps_end_forward : keeps.

Lemma keeps_reply_images' msg : keeps R (reply_images (W := W) codec msg).
Proof. unfold reply_images, Marshal_ImageStatusList, reply. keeps_solve. Qed.
#[local] Hint Resolve keeps_reply_images' : keeps.

(** The entry of the table for [kind], with a payload whose pods are wanted. *)
Lemma keeps_funcMap sched kind do ctx payload :
  funcMap codec maxPayloadSize sched kind = Some do →
  (∀ o, kind = CMD_POD_ENSURE → dec_PodEnsure codec payload = Ok o → wanted o) →
  keeps R (do ctx sid payload).
Proof.
  unfold funcMap. intros Hf Hw.
  repeat (case_decide as Hk; [injection Hf as <-|clear Hk]); [..|discriminate Hf].
  1: unfold handleGetInfo, reply; keeps_solve.
  10: { apply keeps_decode_bind. intros o Ho. apply keeps_bind; [apply _| |unfold reply; keeps_solve].
       apply (rs_ensure _ _ _ Hr). by apply Hw. }
  all: unfold handleExec, handleAttach, handleLogs, handleTtyResize, handlePortForward, handleImageList,
    handleImageEnsure, handleImageDelete, handlePodList, handlePodDelete, reply; clear Hw; keeps_solve.
Qed.

End respected.

(** The pods that a task may ensure. *)
Definition asks_for (t : task) (o : PodEnsureCmd) : Prop :=
  pkt_Kind (tk_Pkt t) = CMD_POD_ENSURE ∧ dec_PodEnsure codec (pkt_Payload (tk_Pkt t)) = Ok o.

Lemma keeps_run_task R ctx sched t :
  respects R (tk_Id t) (asks_for t) → keeps R (run_task codec maxPayloadSize ctx sched t).
Proof.
  intros Hr. pose proof (rs_preorder _ _ _ Hr). unfold run_task.
  destruct (funcMap _ _ _ _) as [do|] eqn:Hf; [|apply keeps_ret; apply _].
  unfold serve_command. apply keeps_bind; [apply _|apply keeps_try|intros [e|[pkt|]]]; [|..|apply keeps_ret; apply _].
  - eapply keeps_funcMap; [exact Hr|exact Hf|]. intros o Hk Ho. by split.
  - apply keeps_ignore; [apply _|]. by apply (rs_send _ _ _ Hr).
  - apply keeps_ignore; [apply _|]. by apply (rs_send _ _ _ Hr).
Qed.

(** ** Whose messages a task sends *)

(** Only messages of session [sid] were sent. *)
Definition sends_as (sid : Z) h h' : Prop :=
  ∃ l, hs_sent h' = hs_sent h ++ l ∧ ∀ m, m ∈ l.*1 → msg_Id m = sid.

#[global] Instance sends_as_preorder sid : PreOrder (sends_as sid).
Proof.
  split.
  - intros h. exists []. rewrite app_nil_r. split; [done|]. by intros m ?%not_elem_of_nil.
  - intros h1 h2 h3 (l1 & H1 & I1) (l2 & H2 & I2). exists (l1 ++ l2). rewrite H2, H1, app_assoc.
    split; [done|]. intros m. rewrite fmap_app, elem_of_app. intros [?|?]; auto.
Qed.

Lemma sends_as_nothing sid h h' : hs_sent h' = hs_sent h → sends_as sid h h'.
Proof. intros H1. exists []. rewrite app_nil_r. split; [done|]. by intros m ?%not_elem_of_nil. Qed.

Lemma sends_as_lift sid {A} (m : Prelude.M W A) : keeps (sends_as sid) (lift m).
Proof. intros h. apply sends_as_nothing. unfold lift. by destruct (m (hs_engine h)). Qed.

Lemma sends_as_respects sid wanted : respects (sends_as sid) sid wanted.
Proof.
  split; try (intros; apply sends_as_lift); [apply _| |].
  - intros m h. by apply sends_as_nothing.
  - intros m Hm h. unfold SendMsg. destruct (hs_link h _) as [e|]; simpl; (eexists; split; [done|]);
      intros m'; by intros ->%list_elem_of_singleton.
Qed.

Lemma new_messages_of sid h h' m : sends_as sid h h' → m ∈ new_messages h h' → msg_Id m = sid.
Proof.
  intros (l & Hl & Hid). unfold new_messages. rewrite Hl, fmap_app.
  rewrite drop_app_length' by (by rewrite length_fmap). apply Hid.
Qed.
End tasks.

(** ** Messages inside the connection *)

(** A message on its way: in a goroutine that sends, in a channel, or held by the
    controller. *)
Definition carries (s : link) (m : Msg) : Prop :=
  (∃ n, (n, m) ∈ lk_senders s) ∨ (∃ n, m ∈ cb_msgCh (lk_bundles s n)) ∨ (∃ n, lk_ctrl s = CSend n m).

(** [s'] carries nothing that [s] does not. *)
Definition carries_less (s s' : link) : Prop := ∀ m, carries s' m → carries s m.

Lemma carries_senders s m : (∃ n, (n, m) ∈ lk_senders s) → carries s m.
Proof. by left. Qed.

Lemma carries_less_intro s s' :
  (∀ x, x ∈ lk_senders s' → x ∈ lk_senders s) →
  (∀ n m, m ∈ cb_msgCh (lk_bundles s' n) → carries s m) →
  (∀ n m, lk_ctrl s' = CSend n m → carries s m) → carries_less s s'.
Proof. intros H1 H2 H3 m [(n & Hm)|[(n & Hm)|(n & Hm)]]; [left; eauto|eauto..]. Qed.

(** A step that leaves the three places alone. *)
Lemma carries_same s s' :
  lk_senders s' = lk_senders s → (∀ n, cb_msgCh (lk_bundles s' n) = cb_msgCh (lk_bundles s n)) →
  (∀ n m, lk_ctrl s' = CSend n m → lk_ctrl s = CSend n m) → carries_less s s'.
Proof.
  intros H1 H2 H3. apply carries_less_intro; [by rewrite H1| |].
  - intros n m. rewrite H2. right. left. eauto.
  - intros n m H. right. right. eauto.
Qed.

(** Replacing a bundle by one with the same messages. *)
Lemma msgCh_insert (f : nat → channelBundle) n b k :
  cb_msgCh b = cb_msgCh (f n) → cb_msgCh ((<[n:=b]> f) k) = cb_msgCh (f k).
Proof. intros Hb. destruct (decide (k = n)) as [->|]; [by rewrite fn_lookup_insert|by rewrite fn_lookup_insert_ne]. Qed.

Lemma carries_Close n s : carries_less s (Close n s).
Proof. unfold Close. destruct (cb_closed _); apply carries_same; try done. intros k. by apply msgCh_insert. Qed.

Lemma carries_Refresh s : carries_less s (RefreshChannels s).
Proof.
  unfold RefreshChannels. destruct (lk_currentCB (set_chRefreshed _ s)) as [old|].
  - intros m Hm. apply (carries_Close old (set_chRefreshed (lk_chRefreshed s ++ [lk_next s]) s)) in Hm. exact Hm.
  - by apply carries_same.
Qed.

(** Where a message goes that is sent. *)
Lemma carries_sendMsg n m s s' m' : sendMsg n m s s' → carries s' m' → m' = m ∨ carries s m'.
Proof.
  intros [|Hc Hl|]; [by right| |by right].
  intros [(k & Hk)|[(k & Hk)|(k & Hk)]].
  - right. left. eauto.
  - simpl in Hk. destruct (decide (k = n)) as [->|];
      [rewrite fn_lookup_insert in Hk; simpl in Hk|rewrite fn_lookup_insert_ne in Hk by done; right; right; left; eauto].
    apply elem_of_app in Hk as [Hk| ->%list_elem_of_singleton]; [right; right; left; eauto|by left].
  - right. right. right. eauto.
Qed.

Lemma elem_of_remove {A} (x y : A) l1 l2 : x ∈ l1 ++ l2 → x ∈ l1 ++ y :: l2.
Proof. rewrite !elem_of_app, elem_of_cons. tauto. Qed.

(** Without a new sender or a new command the connection makes no messages. *)
Lemma carries_lstep s s' :
  lstep s s' → lk_handled s' = lk_handled s → lk_senders s' `sublist_of` lk_senders s → carries_less s s'.
Proof.
  intros Hs Hh Hsub.
  destruct Hs; try (by apply carries_same);
    try (apply carries_same; [done| |done]; intros k; simpl; by apply msgCh_insert).
  - apply carries_Refresh.
  - apply carries_less_intro; [done| |intros k m' Hm; right; right; eauto].
    intros k m' Hm. simpl in Hm. right. left.
    destruct (decide (k = n)) as [->|];
      [rewrite fn_lookup_insert in Hm|rewrite fn_lookup_insert_ne in Hm by done; eauto].
    exists n. rewrite H1. by right.
  - simpl in Hh. exfalso. apply (f_equal length) in Hh. rewrite length_app in Hh. simpl in Hh. lia.
  - intros m' Hm. destruct (carries_sendMsg _ _ _ _ m' H0 Hm) as [->|[?|[?|(k & Hk)]]];
      [right; right; eauto|by left|right; by left|discriminate Hk].
  - intros m' Hm. apply carries_Close in Hm. revert Hm. by apply carries_same.
  - simpl in Hsub. apply sublist_length in Hsub. simpl in Hsub. lia.
  - intros m' Hm. destruct (carries_sendMsg _ _ _ _ m' H0 Hm) as [->|[(k & Hk)|[?|?]]].
    + left. exists n. rewrite H. apply elem_of_app. right. left.
    + left. exists k. rewrite H. by apply elem_of_remove.
    + right. by left.
    + right. by right.
  - apply carries_less_intro; [|intros k m' Hm; right; left; eauto|intros k m' Hm; right; right; eauto].
    intros x Hx. rewrite H. by apply elem_of_remove.
Qed.

(** What was handled was received. *)
Lemma handled_received s x : rtc step link_start s → x ∈ lk_handled s → x ∈ lk_received s.
Proof.
  intros Hs Hx. destruct (linked_reachable s Hs) as [_ _ _ _ _ _ _ _ _ Hf _].
  assert (x.2 ∈ conn x.1 (lk_handled s)) as Hin.
  { unfold conn. apply list_elem_of_omap. exists x. split; [done|]. by rewrite decide_True. }
  destruct (Hf x.1) as [l Hl].
  assert (x.2 ∈ conn x.1 (lk_received s)) as Hr by (rewrite Hl; by apply elem_of_app; left; apply elem_of_app; left).
  unfold conn in Hr. apply list_elem_of_omap in Hr as ([k c] & Hin' & Hc). simpl in Hc.
  case_decide as Hk; [|done]. injection Hc as ->. destruct x as [k' c']. simpl in *. by subst.
Qed.

(** ** What runs in the service comes from the hub *)

Section provenance.
Context {W : Type} `{!RuntimeEngine W} (codec : Codec) (maxPayloadSize : nat) (ctx : Ctx).
Notation H := (HState W).
Notation svstep := (svstep codec maxPayloadSize ctx).
Notation service := (service (W := W)).
Implicit Types (h : H) (s : service).

(** The task of a command. *)
Definition task_of (c : Cmd) (t : task) : Prop :=
  cmd_Kind c = CMD_RUNTIME_ARANYA_PROTO ∧ tk_Id t = cmd_Id c ∧ tk_Seq t = cmd_Seq c ∧
  dec_Packet codec (default ""%string (cmd_Payload c)) = Ok (tk_Pkt t).

Lemma accept_cmd_task c t h h' :
  accept_cmd codec maxPayloadSize (cmd_Id c) (cmd_Seq c) (cmd_Kind c) (cmd_Payload c) h = (Ok (Some t), h') →
  task_of c t.
Proof.
  unfold accept_cmd. case_decide; [|case_decide; [|case_decide as Hk; [|done]]]; unfold mbind, M_bind.
  1, 2: by destruct (Write _ _ _ h) as [[[]|?|?|] ?].
  unfold Handler.decode. destruct (dec_Packet codec _) as [pkt|?|?|] eqn:Hp; try done.
  destruct (funcMap _ _ _ _); [|done]. intros [= <- _]. by split_and!.
Qed.

Lemma started_task c t o h h' :
  accept_cmd codec maxPayloadSize (cmd_Id c) (cmd_Seq c) (cmd_Kind c) (cmd_Payload c) h = (o, h') →
  t ∈ started o → task_of c t.
Proof.
  intros Hrun Ht. destruct o as [[t'|]|?|?|]; try by apply not_elem_of_nil in Ht.
  apply list_elem_of_singleton in Ht as ->. by eapply accept_cmd_task.
Qed.

(** Every task and every message belongs to a command that was handled. *)
Record tied s : Prop := {
  ti_tasks t : t ∈ sv_tasks s → ∃ x, x ∈ lk_handled (sv_link s) ∧ task_of x.2 t;
  ti_msgs m : m ∈ sv_out s ∨ carries (sv_link s) m → ∃ x, x ∈ lk_handled (sv_link s) ∧ msg_Id m = cmd_Id x.2 }.

Lemma tied_start h : tied (service_start h).
Proof.
  split; simpl; [by intros t ?%not_elem_of_nil|].
  intros m [?%not_elem_of_nil|[(n & ?%not_elem_of_nil)|[(n & Hm)|(n & ?)]]]; try done.
  simpl in Hm. by apply not_elem_of_nil in Hm.
Qed.

Lemma carries_handle n c rest l answer m :
  cb_cmdCh (lk_bundles l n) = c :: rest →
  carries (set_ctrl (match answer with None => CRange n | Some a => CSend n a end)
             (add_handled (n, c) (set_cmdCh n rest l))) m →
  answer = Some m ∨ carries l m.
Proof.
  intros Hc [(k & Hk)|[(k & Hk)|(k & Hk)]].
  - right. left. eauto.
  - right. right. left. exists k. simpl in Hk. by rewrite msgCh_insert in Hk.
  - simpl in Hk. destruct answer; [|done]. injection Hk as -> ->. by left.
Qed.

Lemma tied_step s s' : svstep s s' → tied s → tied s'.
Proof.
  intros [_ Hs] [Htasks Hmsgs].
  destruct Hs as [l' [_ Hl] Hh Hsub _|n c rest o h' Hp Hb Hc Hcmds Hrun|l1 t l2 sched o h' Ht Hrun
    |n m l1 l2 Hp Hout Hhd Hf].
  - split; simpl; rewrite Hh; [done|]. intros m [Hm|Hm]; [eauto|].
    apply Hmsgs. right. by eapply carries_lstep.
  - assert (∀ x, x ∈ lk_handled (sv_link s) → x ∈ lk_handled (sv_link s) ++ [(n, c)]) as Hmono
      by (intros x Hx; apply elem_of_app; by left).
    assert ((n, c) ∈ lk_handled (sv_link s) ++ [(n, c)]) as Hnew by (apply elem_of_app; right; left).
    split; simpl.
    + intros t [Ht|Ht]%elem_of_app; [destruct (Htasks t Ht) as (x & ? & ?); eauto|].
      exists (n, c). split; [done|]. by eapply started_task.
    + intros m [Hm|Hm]; [destruct (Hmsgs m) as (x & ? & ?); eauto|].
      apply carries_handle in Hm as [Ha|Hm]; [|destruct (Hmsgs m) as (x & ? & ?); eauto|done].
      exists (n, c). split; [done|]. unfold answer_of in Ha. destruct o; try done. by injection Ha as <-.
  - assert (t ∈ sv_tasks s) as Hin by (rewrite Ht; apply elem_of_app; right; left).
    destruct (Htasks t Hin) as (x & Hx & Htx). split; simpl.
    + intros t' Ht'. apply Htasks. rewrite Ht. by apply elem_of_remove.
    + intros m [[Hm|Hm]%elem_of_app|Hm]; [by apply Hmsgs; left| |by apply Hmsgs; right].
      exists x. split; [done|]. destruct Htx as (_ & <- & _).
      eapply new_messages_of; [|exact Hm].
      pose proof (keeps_run_task codec maxPayloadSize _ ctx sched t (sends_as_respects _ _)
        (sv_handler s)) as Hk. by rewrite Hrun in Hk.
  - split; simpl; [done|]. intros m' [Hm|[(k & Hk)|Hm]].
    + apply Hmsgs. left. rewrite Hout. by apply elem_of_remove.
    + simpl in Hk. apply elem_of_cons in Hk as [[= -> ->]|Hk]; apply Hmsgs.
      * left. rewrite Hout. apply elem_of_app. right. left.
      * right. left. eauto.
    + apply Hmsgs. right. by right.
Qed.

Lemma tied_reachable h s : rtc svstep (service_start h) s → tied s.
Proof. intros Hr. eapply (rtc_ind_r (λ s, tied s)); [apply tied_start| |exact Hr]. intros. by eapply tied_step. Qed.

(** C16: In every state of the service every message for the hub, wherever it is on
    its way, carries the session of a command that came from the hub before. *)
Theorem messages_answer_commands h s m :
  rtc svstep (service_start h) s → m ∈ sv_out s ∨ carries (sv_link s) m →
  ∃ x, x ∈ lk_received (sv_link s) ∧ msg_Id m = cmd_Id x.2.
Proof.
  intros Hr Hm. destruct (ti_msgs _ (tied_reachable h s Hr) m Hm) as (x & Hx & Hid).
  exists x. split; [|done]. apply handled_received; [|done]. by eapply service_link_rtc.
Qed.
End provenance.

(** ** The pods of the podman service *)


Section pods.
Context {E : Type} `{!Env E, !Store E, !LibpodLaws E}.
Notation W := (World E).

(** Well-formed worlds stay so, and at most the UIDs of [U] come to be managed. *)
Definition grows (U : gset string) (w w' : W) : Prop :=
  well_formed w → well_formed w' ∧ managed w' ⊆ managed w ∪ U.


Lemma tame_grows U (w w' : W) : tame w w' → grows U w w'.
Proof. intros Ht Hw. destruct (tame_wf _ _ Ht Hw). split; [done|]. set_solver. Qed.

#[global] Instance grows_frame U : QuietFrame (grows U).
Proof.
  apply store_frame; [split|].
  - intros w Hw. split; [done|]. set_solver.
  - intros w1 w2 w3 H12 H23 Hw. destruct (H12 Hw) as [Hw2 H1]. destruct (H23 Hw2). split; [done|]. set_solver.
  - intros w w' Hs. by apply tame_grows, tame_same.
Qed.

(** The same on the state of the handler. *)
Definition engine_grows (U : gset string) (h h' : HState W) : Prop := grows U (hs_engine h) (hs_engine h').

#[global] Instance engine_grows_preorder U : PreOrder (engine_grows U).
Proof.
  split; [intros h; unfold engine_grows; reflexivity|].
  intros h1 h2 h3 H1 H2. unfold engine_grows in *. by etrans.
Qed.



Context (r : libpodRuntime) (err_text : error → string) (parsers : LogParsers) (peers : Peers) (follow : nat).
#[local] Instance the_engine : RuntimeEngine W := podman_engine r err_text parsers peers follow.


Context (codec : Codec) (maxPayloadSize : nat) (ctx : Ctx).
Notation svstep := (svstep codec maxPayloadSize ctx).








End pods.

(** ** Witnesses *)

(** The hub connects and asks for a pod; the request runs, and its reply is on its
    way. *)
Definition ensure_cmd : Cmd := mkCmd CMD_RUNTIME_ARANYA_PROTO 7 3 (Some "ensure"%string).

Definition ensure_task : task := mkTask 7 3 (mkPacket CMD_POD_ENSURE "").

Definition sample_handler : HState (World Mem) :=
  mkHState (sample_world []) NewStreamManager [] (λ _, None).

(** Steps of the network with an idle handler. *)
Definition net_step (l l' : link) : Prop :=
  step l l' ∧ lk_handled l' = lk_handled l ∧ lk_senders l' `sublist_of` lk_senders l.

Lemma net_steps {W} `{!RuntimeEngine W} codec max ctx (h : HState W) ts out l l' :
  rtc net_step l l' →
  rtc (svstep codec max ctx) (mkService l h ts out false false) (mkService l' h ts out false false).
Proof.
  induction 1 as [|l1 l2 l3 (Hs & Hh & Hsub) _ IH]; [done|]. eapply rtc_l; [|exact IH].
  split; [done|]. by apply (service_net _ _ _ (mkService l1 h ts out false false) l2).
Qed.

Local Ltac condition := first [reflexivity | discriminate | (vm_compute; lia)].
Local Tactic Notation "net" uconstr(c) :=
  eapply rtc_l; [split; [split; [reflexivity|eapply c; condition]|split; reflexivity]|].

(** The command has arrived. *)
Definition asked : link :=
  set_cmdCh 0 [ensure_cmd] (set_reader RRead
    (add_received (0, ensure_cmd) (set_reader (RSend ensure_cmd) (set_writer true (set_reader RRead (set_main (MStream 0)
    (set_main (MRegister 0) (set_sendFunc (Some 0) (set_ctrl (CRange 0) (set_ctrl (CRegister 0) (set_chRefreshed []
    (RefreshChannels link_start)))))))))))).

Lemma asked_reachable : rtc net_step link_start asked.
Proof.
  net main_refresh. net (ctrl_take _ 0). net ctrl_register. net dial_ok. net register_ok.
  net (Connection.decode _ 0 ensure_cmd). net read_push. apply rtc_refl.
Qed.

(** The controller has taken it and started its goroutine. *)
Definition accepted_service : service :=
  mkService (set_ctrl (CRange 0) (add_handled (0, ensure_cmd) (set_cmdCh 0 [] asked))) sample_handler [ensure_task]
    [] false false.

(** The request has run. *)
Definition served_handler : HState (World Mem) :=
  (run_task sample_codec 4 TODO [] ensure_task sample_handler).2.

Definition served_service : service :=
  mkService (set_ctrl (CRange 0) (add_handled (0, ensure_cmd) (set_cmdCh 0 [] asked))) served_handler []
    (new_messages sample_handler served_handler) false false.

Lemma served_reachable : rtc (svstep sample_codec 4 TODO) (service_start sample_handler) served_service.
Proof.
  etrans; [apply net_steps, asked_reachable|]. apply (rtc_l _ _ accepted_service).
  - split; [reflexivity|].
    apply (service_handle _ _ _ (mkService asked sample_handler [] [] false false) 0 ensure_cmd []
      (Ok (Some ensure_task)) sample_handler); [reflexivity..|]. vm_compute. reflexivity.
  - assert ((run_task sample_codec 4 TODO [] ensure_task sample_handler).1 = Ok ()) as Ho by (vm_compute; reflexivity).
    apply rtc_once. split; [reflexivity|].
    apply (service_run _ _ _ accepted_service [] ensure_task [] [] (Ok ()) served_handler); [reflexivity|].
    unfold served_handler. rewrite <- Ho. apply surjective_pairing.
Qed.


Lemma messages_answer_commands_witness :
  let m := mkMsg MSG_RUNTIME_ARANYA_PROTO 7 3 (Some "u1"%string) in
  sv_out served_service = [m] ∧ ∃ x, x ∈ lk_received (sv_link served_service) ∧ msg_Id m = cmd_Id x.2.
Proof.
  intros m. assert (sv_out served_service = [m]) as Hm by (vm_compute; reflexivity). split; [done|].
  apply (messages_answer_commands sample_codec 4 TODO sample_handler served_service m served_reachable).
  left. rewrite Hm. by left.
Defined.
