(* ===== verification/Concurrent.v ===== *)
(** Requests that run at the same time.

    A command of the hub runs in a goroutine of its own, so the calls of several
    requests reach libpod in any order that keeps the order of each.  [Commands]
    and [Service] run a request in one piece; here the piece is the single call.

    What a request does against any environment at all is the set of its traces:
    the answers it gets may be anything, so they may be those that libpod gives
    while others work.  A concurrent execution is an interleaving of such traces
    in which libpod, call by call, gave these answers.  A trace may be cut at any
    point, for requests that are not finished.  The client side (contexts, the
    table of mounts) is the request's own. *)

From stdpp Require Import base gmap strings pretty list fin_maps fin_sets numbers relations.
From S2P Require Import Prelude GoPath Proto Labels World Libpod Mem BaseRuntime Storage Find Network Translate Container ContainerProofs Pod PodProofs DeleteProofs EnsureProofs Image Logs Action Conf Runtime SeqQueue Streams Handler Engine Samples SessionSamples Commands.

(** ** Executions *)

(** The answers that the environment [s] gives to a sequence of calls. *)
Inductive answered {E} `{!Env E} : E → list call → E → Prop :=
| answered_nil s : answered s [] s
| answered_cons s X (e : Ev X) tr s' :
    answered (handle e s).2 tr s' → answered s (Call e (handle e s).1 :: tr) s'.

(** A merge of sequences that keeps the order of each. *)
Inductive interleaving {A} : list (list A) → list A → Prop :=
| interleaving_nil ts : Forall (eq []) ts → interleaving ts []
| interleaving_cons ts1 c t ts2 tr :
    interleaving (ts1 ++ t :: ts2) tr → interleaving (ts1 ++ (c :: t) :: ts2) (c :: tr).

Section executions.
Context (r : libpodRuntime) (err_text : error → string) (parsers : LogParsers) (peers : Peers) (follow : nat).

(** The first calls of a request, with answers from anywhere. *)
Definition request_trace (q : request) (tr : list call) : Prop :=
  ∃ (E : Type) (HE : Env E) (w : World E) (later : list call),
    w_trace w = [] ∧ w_trace (run_request r err_text parsers peers follow q w).2 = tr ++ later.

(** The requests [qs] side by side, from the state [s] of libpod to [s']. *)
Definition concurrently {E} `{!Env E} (qs : list request) (s : E) (tr : list call) (s' : E) : Prop :=
  ∃ ts, Forall2 request_trace qs ts ∧ interleaving ts tr ∧ answered s tr s'.
End executions.

(** ** What a request may create and remove *)

(** Pods and containers, as libpod hands them out. *)
Notation object := (Pod + Container)%type.

(** What a request may remove once it got this answer. *)
Definition handles_of (q : request) (c : call) : list object :=
  match c with
  | @Call X e answer =>
      match e in Ev X return X → list object with
      | AllPods => λ a,
          match a, q with
          | inr l, ReqEnsurePod _ o => inl <$> List.filter (podLabelFilterFunc (pod_filter (pe_PodUid o))) l
          | inr l, ReqDeletePod _ o => inl <$> List.filter (podLabelFilterFunc (pod_filter (pd_PodUid o))) l
          | inr l, ReqListPods _ o => inl <$> List.filter (podLabelFilterFunc (list_filters o)) l
          | inr l, ReqInit => inl <$> List.filter (λ p, bool_decide (pod_uid p = None)) l
          | _, _ => []
          end
      | LookupPod n => λ a,
          match a, q with
          | inr p, ReqEnsurePod _ o => if decide (n = pod_name o) then [inl p] else []
          | _, _ => []
          end
      | NewPod _ _ => λ a,
          match a, q with
          | inr p, ReqEnsurePod _ _ => [inl p]
          | _, _ => []
          end
      | AllContainers => λ a, match a with inr l => inr <$> l | inl _ => [] end
      | _ => λ _, []
      end answer
  end.

(** What a call removes, and whether the call is one that the program makes: the
    removal of a pod is forced, a container is removed by itself only when it
    carries no pod UID, and a pod is made for the request. *)
Definition removed (c : call) : option object :=
  match c with
  | @Call X e _ =>
      match e with RemovePod p _ _ => Some (inl p) | RemoveContainer c _ _ => Some (inr c) | _ => None end
  end.

(** The pod that a call made, with the labels it was asked for. *)
Definition created_pod (c : call) : option (strmap * Pod) :=
  match c with
  | @Call X e answer =>
      match e in Ev X return X → option (strmap * Pod) with
      | NewPod _ ls => λ a, match a with inr p => Some (ls, p) | inl _ => None end
      | _ => λ _, None
      end answer
  end.

Definition permitted (q : request) (c : call) : bool :=
  match c with
  | @Call X e _ =>
      match e with
      | RemovePod _ removeCtrs force => removeCtrs && force
      | RemoveContainer ctr _ _ => bool_decide (ctr_Labels ctr !! ContainerLabelPodUID = None)
      | NewPod n ls =>
          match q with
          | ReqEnsurePod _ o => bool_decide (n = pod_name o ∧ ls = pod_labels o)
          | _ => false
          end
      | _ => true
      end
  end.

(** Everything that is removed was handed out before: in [pre], or in [tr]. *)
Fixpoint sourced (f : call → list object) (pre tr : list call) : Prop :=
  match tr with
  | [] => True
  | c :: tr =>
      (∀ p, removed c = Some p → ∃ c0, c0 ∈ pre ∧ p ∈ f c0) ∧ sourced f (pre ++ [c]) tr
  end.

Lemma sourced_app f pre tr1 tr2 :
  sourced f pre (tr1 ++ tr2) ↔ sourced f pre tr1 ∧ sourced f (pre ++ tr1) tr2.
Proof.
  revert pre. induction tr1 as [|c tr1 IH]; intros pre; simpl; [rewrite app_nil_r; tauto|].
  rewrite IH, <- app_assoc. simpl. tauto.
Qed.

Lemma sourced_mono f g pre pre' tr :
  (∀ c, c ∈ pre → c ∈ pre') → (∀ c p, p ∈ f c → p ∈ g c) → sourced f pre tr → sourced g pre' tr.
Proof.
  intros H1 H2. revert pre pre' H1. induction tr as [|c tr IH]; intros pre pre' H1; simpl; [done|].
  intros [H3 H4]. split.
  - intros p Hp. destruct (H3 p Hp) as (c0 & Hc & Hf). exists c0. auto.
  - eapply IH; [|exact H4]. intros c0. rewrite !elem_of_app. intros [Hc|Hc]; auto.
Qed.

(** A trace within the limits of its request. *)
Definition disciplined (q : request) (tr : list call) : Prop :=
  sourced (handles_of q) [] tr ∧ Forall (λ c, permitted q c = true) tr.

Lemma disciplined_snoc q tr c :
  disciplined q tr → permitted q c = true →
  (∀ p, removed c = Some p → ∃ c0, c0 ∈ tr ∧ p ∈ handles_of q c0) → disciplined q (tr ++ [c]).
Proof.
  intros [H1 H2] Hp Hr. split; [apply sourced_app; by split|]. apply Forall_app. split; [done|]. by constructor.
Qed.

Lemma disciplined_prefix q tr later : disciplined q (tr ++ later) → disciplined q tr.
Proof. intros [[H1 _]%sourced_app [H2 _]%Forall_app]. by split. Qed.

(** ** Every request keeps within its limits *)

Section discipline.
Context {E : Type} `{!Env E} (q : request).
Notation W := (World E).
Notation M := (M W).
Implicit Types (w : W) (ps : list object).

(** The request was handed [ps]. *)
Definition obtained ps w : Prop := ∀ p, p ∈ ps → ∃ c, c ∈ w_trace w ∧ p ∈ handles_of q c.

Lemma obtained_grows ps w w' : trace_grows w w' → obtained ps w → obtained ps w'.
Proof.
  intros [l Hl] H p Hp. destruct (H p Hp) as (c & Hc & Hf). exists c. split; [|done].
  rewrite Hl. apply elem_of_app. by left.
Qed.

(** Steps of a request that holds [ps]. *)
Definition within ps w w' : Prop :=
  trace_grows w w' ∧ (obtained ps w → disciplined q (w_trace w) → disciplined q (w_trace w')).

Lemma within_call ps {X} (e : Ev X) w :
  (∀ a, permitted q (Call e a) = true) →
  (∀ a p, removed (Call e a) = Some p → p ∈ ps) → within ps w (perform e w).2.
Proof.
  intros Hp Hr. rewrite perform_storeless. split; [by eexists|]. intros Hps Hd. simpl.
  apply disciplined_snoc; [done|apply Hp|]. intros p Hrm. apply Hps. by eapply Hr.
Qed.

#[global] Instance within_frame ps : QuietFrame (within ps).
Proof.
  split.
  - split; [intros w; split; [reflexivity|done]|].
    intros w1 w2 w3 [T1 D1] [T2 D2]. split; [by etrans|]. intros Hps Hd.
    apply D2; [by eapply obtained_grows|auto].
  - intros X e w Hq. apply within_call; intros a; by destruct e.
  - intros w w' He Ht. split; [by apply frame_local|]. by rewrite Ht.
Qed.

Lemma keeps_invoke_within ps {X} (e : Ev (string + X)) :
  (∀ a, permitted q (Call e a) = true) → (∀ a p, removed (Call e a) = Some p → p ∈ ps) →
  keeps (within ps) (invoke e).
Proof.
  intros Hp Hr. apply keeps_bind; [apply _|intros w; by apply within_call|intros []; keeps_solve].
Qed.

Lemma keeps_within_RemovePod ps p : inl p ∈ ps → keeps (within ps) (invoke (RemovePod p true true)).
Proof. intros Hp. apply keeps_invoke_within; [done|]. by intros _ p' [= <-]. Qed.

Lemma keeps_within_NewContainer ps cfg i : keeps (within ps) (invoke (NewContainer cfg i)).
Proof. by apply keeps_invoke_within. Qed.

Lemma keeps_within_RemoveContainer ps c f v :
  inr c ∈ ps → ctr_Labels c !! ContainerLabelPodUID = None →
  keeps (within ps) (invoke (RemoveContainer c f v)).
Proof.
  intros Hc Hl. apply keeps_invoke_within; [intros a; simpl; by apply bool_decide_eq_true|]. by intros _ p' [= <-].
Qed.

#[local] Hint Resolve keeps_within_NewContainer : keeps.
#[local] Hint Extern 2 (keeps (within _) (invoke (RemovePod _ _ _))) => apply keeps_within_RemovePod : keeps.

(** The operations on a pod that was handed out. *)
Lemma keeps_within_deletePod ps r ctx p : inl p ∈ ps → keeps (within ps) (deletePod r ctx p).
Proof. intros Hp. unfold deletePod, deletePod_checks. keeps_solve. Qed.

Lemma keeps_within_deleteContainer ps c :
  (∀ d, c = Some d → inr d ∈ ps) → keeps (within ps) (deleteContainer c).
Proof.
  intros Hc. unfold deleteContainer. destruct c as [c|]; [|keeps_solve].
  apply keeps_bind; [apply _|keeps_solve|intros u].
  destruct (ctr_Labels c !! ContainerLabelPodUID) eqn:Hu; [keeps_solve|].
  pose proof (keeps_within_RemoveContainer ps c true true (Hc c eq_refl) Hu). keeps_solve.
Qed.

Lemma keeps_within_createContainer ps r o p spec ns : keeps (within ps) (createContainer r o p spec ns).
Proof. unfold createContainer, new_container. keeps_solve. Qed.
#[local] Hint Resolve keeps_within_createContainer : keeps.

Lemma keeps_within_cleanup_pod ps r p : inl p ∈ ps → keeps (within ps) (cleanup_pod r p).
Proof. intros Hp. apply keeps_ignore; [apply _|]. by apply keeps_within_deletePod. Qed.

Lemma keeps_within_pause_in_pod ps r ctx o p i ic : inl p ∈ ps → keeps (within ps) (pause_in_pod r ctx o p i ic).
Proof.
  intros Hp. pose proof (keeps_within_cleanup_pod ps r p Hp). unfold pause_in_pod. keeps_solve.
Qed.

Lemma keeps_within_run_containers ps r ctx o p c b : keeps (within ps) (run_containers r ctx o p c b).
Proof. unfold run_containers, create_containers, map_m, for_each. keeps_solve. Qed.

Lemma keeps_within_list_one ps r ctx p : inl p ∈ ps → keeps (within ps) (list_one r ctx p).
Proof.
  intros Hp. pose proof (keeps_within_deletePod ps r TODO p Hp). pose proof (keeps_within_RemovePod ps p Hp).
  unfold list_one, list_report. keeps_solve.
Qed.

Lemma keeps_within_init_pod ps r ctx p :
  (pod_uid p = None → inl p ∈ ps) → keeps (within ps) (init_pod r ctx p).
Proof.
  intros Hp. unfold init_pod, pod_uid in *. destruct (pod_Labels p !! _); [unfold restore_network; keeps_solve|].
  apply keeps_ignore; [apply _|]. apply keeps_within_deletePod. auto.
Qed.

(** An operation that keeps within the limits and hands out [g a]. *)
Definition gets {A} ps (g : A → list object) (m : M A) : Prop := ∀ w,
  obtained ps w → disciplined q (w_trace w) →
  wp m (λ o w', trace_grows w w' ∧ disciplined q (w_trace w') ∧ ∀ a, o = Ok a → obtained (g a) w') w.

Lemma gets_keeps {A} ps (g : A → list object) (m : M A) :
  keeps (within ps) m → (∀ a p, p ∈ g a → p ∈ ps) → gets ps g m.
Proof.
  intros Hm Hg w Hps Hd. destruct (Hm w) as [Ht Hd']. split; [done|]. split; [auto|].
  intros a _ p Hp. eapply obtained_grows; [exact Ht|exact Hps|by eapply Hg].
Qed.

Lemma gets_bind {A B} ps (g : A → list object) (h : B → list object) (m : M A) (k : A → M B) :
  gets ps g m → (∀ a, gets (g a ++ ps) h (k a)) → gets ps h (m ≫= k).
Proof.
  intros Hm Hk w Hps Hd. apply wp_bind. eapply wp_mono; [|by apply Hm].
  intros [a|e|p|] w1 (Ht & Hd1 & Ha); simpl; try done.
  eapply wp_mono; [|apply Hk; [|done]].
  - intros o w2 (Ht2 & ? & ?). split; [by etrans|done].
  - intros p [Hp|Hp]%elem_of_app; [by eapply Ha|]. by eapply obtained_grows.
Qed.

Lemma gets_try {A} ps (g : A → list object) (m : M A) :
  gets ps g m → gets ps (λ res, match res with inl _ => [] | inr a => g a end) (try m).
Proof.
  intros Hm w Hps Hd. apply wp_try. eapply wp_mono; [|by apply Hm].
  intros [a|e|p|] w1 (Ht & Hd1 & Ha); simpl; (split; [done|]); (split; [done|]); try done.
  - intros x [= <-]. by apply Ha.
  - by intros x [= <-] p ?%not_elem_of_nil.
Qed.

Lemma gets_wrap {A} ps (g : A → list object) msg (m : M A) : gets ps g m → gets ps g (wrap msg m).
Proof.
  intros Hm w Hps Hd. apply wp_wrap. eapply wp_mono; [|by apply Hm].
  intros [a|e|p|] w1 (Ht & Hd1 & Ha); simpl; (split; [done|]); by (split; [done|]).
Qed.

Lemma gets_with_defer {A} ps (g : A → list object) (body : M A) d :
  gets ps g body → (∀ o, keeps (within ps) (d o)) → gets ps g (with_defer body d).
Proof.
  intros Hb Hd w Hps Hdisc. apply wp_with_defer. eapply wp_mono; [|by apply Hb].
  assert (∀ o w1, trace_grows w w1 → disciplined q (w_trace w1) →
    trace_grows w (d o w1).2 ∧ disciplined q (w_trace (d o w1).2) ∧ trace_grows w1 (d o w1).2) as Hrun.
  { intros o w1 Ht Hd1. destruct (Hd o w1) as [Ht2 Hd2]. split; [by etrans|]. split; [|done].
    apply Hd2; [by eapply obtained_grows|done]. }
  intros [a|e|p|] w1 (Ht & Hd1 & Ha); simpl; [| | |by split_and!];
    match goal with |- wp (d ?o) _ _ => destruct (Hrun o w1 Ht Hd1) as (H1 & H2 & H3); unfold wp;
      destruct (d o w1) as [[] w2] end; simpl in *; split_and!; try done;
    intros x [= <-]; (eapply obtained_grows; [exact H3|by apply Ha]).
Qed.

Lemma gets_none {A} ps (g : A → list object) (m : M A) : keeps (within ps) m → (∀ a, g a = []) → gets ps g m.
Proof. intros Hm Hg. apply gets_keeps; [done|]. intros a p. by rewrite Hg, elem_of_nil. Qed.

(** What an answer hands out. *)
Lemma gets_invoke {X} ps (g : X → list object) (e : Ev (string + X)) :
  (∀ a, permitted q (Call e a) = true) → (∀ a, removed (Call e a) = None) →
  (∀ x p, p ∈ g x → p ∈ handles_of q (Call e (inr x))) → gets ps g (invoke e).
Proof.
  intros Hp Hr Hg w Hps Hd. unfold invoke. apply wp_bind, wp_perform. intros w' _ Ht _ _ _.
  assert (trace_grows w w') as Hgrows by by eexists.
  assert (disciplined q (w_trace w')) as Hd'.
  { rewrite Ht. apply disciplined_snoc; [done|apply Hp|]. intros p. by rewrite Hr. }
  destruct (handle e (w_env w)).1 as [d|x]; simpl; [apply wp_fail|apply wp_ret]; split_and!; try done.
  intros x' [= <-] p Hin. exists (Call e (inr x)). split; [|by apply Hg].
  rewrite Ht. apply elem_of_app. right. left.
Qed.

Lemma gets_ret {A} ps (g : A → list object) a : (∀ p, p ∈ g a → p ∈ ps) → gets ps g (mret a).
Proof.
  intros Hg w Hps Hd. apply wp_ret. split; [reflexivity|]. split; [done|].
  intros a' [= <-] p Hp. by apply Hps, Hg.
Qed.

Lemma gets_fail {A} ps (g : A → list object) e : gets ps g (fail e).
Proof. intros w Hps Hd. apply wp_fail. split; [reflexivity|]. by split. Qed.

(** The pods of a list that pass the filter. *)
Lemma gets_Pods f ps :
  (∀ l p, p ∈ List.filter f l → inl p ∈ handles_of q (Call AllPods (inr l))) → gets ps (fmap inl) (Pods f).
Proof.
  intros Hf. unfold Pods. apply (gets_bind _ (λ l, inl <$> List.filter f l)).
  - apply gets_invoke; [done..|]. intros l p (p' & -> & Hp)%list_elem_of_fmap. by apply Hf.
  - intros l. apply gets_ret. intros p Hp. apply elem_of_app. by left.
Qed.

Lemma gets_findPod uid ps :
  (∀ l p, p ∈ List.filter (podLabelFilterFunc (pod_filter uid)) l →
     inl p ∈ handles_of q (Call AllPods (inr l))) →
  gets ps (λ p, [inl p]) (findPod uid).
Proof.
  intros Hf. unfold findPod. apply (gets_bind _ (fmap inl)); [by apply gets_Pods|].
  intros [|p [|]]; [apply gets_fail|apply gets_ret|apply gets_fail].
  intros p' ->%list_elem_of_singleton. by left.
Qed.

Lemma gets_findContainer uid name ps : gets ps (λ c, [inr c]) (findContainer uid name).
Proof.
  unfold findContainer, findContainerByLabels, listContainersByLabels, GetContainers.
  apply (gets_bind _ (fmap inr)).
  - apply (gets_bind _ (fmap inr)); [by apply gets_invoke|]. intros l. apply gets_ret.
    intros p (c & -> & [Hc _]%elem_of_bfilter)%list_elem_of_fmap. apply elem_of_app. left. by apply list_elem_of_fmap_2.
  - intros [|c l]; [apply gets_fail|]. apply gets_ret. intros p ->%list_elem_of_singleton. by left.
Qed.

(** The end of a request: nothing is handed on. *)
Lemma gets_last {A} ps (m : M A) : keeps (within ps) m → gets ps (λ _, []) m.
Proof. intros Hm. by apply gets_none. Qed.

End discipline.

Section requests.
Context {E : Type} `{!Env E}.
Context (r : libpodRuntime) (err_text : error → string) (parsers : LogParsers) (peers : Peers) (follow : nat).
Notation W := (World E).

Section ensure.
Context (ctx0 : Ctx) (o : PodEnsureCmd).
Notation q := (ReqEnsurePod ctx0 o).

Lemma gets_delete_previous ps ctx : gets (E := E) q ps (λ _, []) (delete_previous r ctx (pod_name o)).
Proof.
  unfold delete_previous. eapply gets_bind.
  - apply gets_try, (gets_invoke _ _ (λ p, [inl p])); [done..|]. intros p p' Hp. simpl. by rewrite decide_True.
  - intros [e|p]; apply gets_last; [keeps_solve|]. apply keeps_within_deletePod. by left.
Qed.

Lemma gets_createPauseContainer ps ctx :
  gets (E := E) q ps (λ x, [inl x.1.1]) (createPauseContainer r ctx o).
Proof.
  unfold createPauseContainer. eapply gets_bind; [apply gets_delete_previous|intros ?].
  eapply (gets_bind _ _ (λ _, [])); [apply gets_last; unfold require_abbot; keeps_solve|intros ?].
  eapply (gets_bind _ _ (λ _, [])); [apply gets_last; keeps_solve|intros image].
  eapply (gets_bind _ _ (λ _, [])); [apply gets_last; keeps_solve|intros ic].
  eapply (gets_bind _ _ (λ p, [inl p])).
  - apply gets_invoke; [|done..]. intros answer. simpl. by apply bool_decide_eq_true.
  - intros p. unfold pause_in_pod.
    assert (∀ ps', keeps (within (E := E) q (inl p :: ps')) (cleanup_pod r p)) as Hc
      by (intros ps'; apply keeps_within_cleanup_pod; by left).
    apply gets_with_defer; [|intros []; simpl; keeps_solve].
    eapply (gets_bind _ _ (λ _, [])); [apply gets_last; keeps_solve|intros ?].
    eapply (gets_bind _ _ (λ _, [])); [apply gets_last; apply keeps_within_NewContainer|intros c].
    apply gets_with_defer; [|intros []; simpl; keeps_solve].
    eapply (gets_bind _ _ (λ _, [])); [apply gets_last; keeps_solve|intros b].
    apply gets_ret. intros p' ->%list_elem_of_singleton. simpl. by left.
Qed.

Lemma gets_obtain_pod ps ctx : gets (E := E) q ps (λ x, [inl x.1.1]) (obtain_pod r ctx o).
Proof.
  unfold obtain_pod. eapply gets_bind.
  - apply gets_try, gets_findPod. intros l p Hp. simpl. by apply list_elem_of_fmap_2.
  - intros [e|p].
    + destruct (negb _); [apply gets_fail|]. apply gets_wrap, gets_createPauseContainer.
    + eapply (gets_bind _ _ (λ _, [])); [apply gets_last; keeps_solve|intros [e|c]].
      * eapply (gets_bind _ _ (λ _, [])); [|intros ?; apply gets_fail].
        apply gets_last. apply keeps_ignore; [apply _|]. apply keeps_within_deletePod. by left.
      * apply gets_ret. intros p' ->%list_elem_of_singleton. simpl. by left.
Qed.

Lemma gets_EnsurePod ctx : gets (E := E) q [] (λ _, []) (EnsurePod r ctx o).
Proof.
  unfold EnsurePod. eapply (gets_bind _ _ (λ _, [])); [apply gets_last; keeps_solve|intros ctx'].
  apply gets_with_defer; [|intros []; simpl; keeps_solve].
  eapply gets_bind; [apply gets_obtain_pod|intros x].
  apply gets_with_defer; [apply gets_last, keeps_within_run_containers|].
  intros []; simpl; [keeps_solve| |keeps_solve..]. apply keeps_within_cleanup_pod. by left.
Qed.
End ensure.

(** One container of a deletion, then all of them. *)
Lemma gets_delete_named q ps uid name : gets (E := E) q ps (λ _, []) (delete_named uid name).
Proof.
  unfold delete_named. eapply gets_bind; [apply gets_try, gets_findContainer|intros res].
  eapply (gets_bind _ _ (λ c, match c with Some c => [inr c] | None => [] end)).
  - destruct res as [e|c]; [destruct (negb _); [apply gets_fail|apply gets_ret; by intros p ?%not_elem_of_nil]|].
    apply gets_ret. intros p Hp. apply elem_of_app. by left.
  - intros c. apply gets_last. apply keeps_wrap, keeps_within_deleteContainer. intros d ->. by left.
Qed.

Lemma gets_delete_some q ps o p : gets (E := E) q ps (λ _, []) (delete_some r o p).
Proof.
  unfold delete_some. eapply (gets_bind _ _ (λ _, [])); [apply gets_last; keeps_solve|intros res].
  destruct (List.filter _ _) as [|pauseCtr l]; [apply gets_fail|].
  eapply (gets_bind _ _ (λ _, [])); [|intros u; apply gets_last; keeps_solve].
  unfold for_each. generalize ([] ++ ps) as ps'. generalize tt as acc.
  induction (pd_Containers o) as [|n names IH]; intros acc ps'; simpl; [apply gets_ret; by intros p' ?%not_elem_of_nil|].
  eapply gets_bind; [apply gets_delete_named|intros u; apply IH].
Qed.

Lemma gets_DeletePod ctx0 o ctx : gets (E := E) (ReqDeletePod ctx0 o) [] (λ _, []) (DeletePod r ctx o).
Proof.
  unfold DeletePod. apply gets_with_defer; [|intros; keeps_solve].
  eapply (gets_bind _ _ (λ p, [inl p])).
  - apply gets_wrap, gets_findPod. intros l p Hp. simpl. by apply list_elem_of_fmap_2.
  - intros p. destruct (pd_Containers o); [|apply gets_delete_some].
    apply gets_last, keeps_bind; [apply _| |keeps_solve]. apply keeps_within_deletePod. by left.
Qed.

Lemma gets_ListPods ctx0 o ctx : gets (E := E) (ReqListPods ctx0 o) [] (λ _, []) (ListPods r ctx o).
Proof.
  unfold ListPods. eapply (gets_bind _ _ (fmap inl)).
  - apply gets_Pods. intros l p Hp. simpl. by apply list_elem_of_fmap_2.
  - intros l. apply gets_last, keeps_bind; [apply _|keeps_solve|intros actx].
    apply keeps_with_defer; [apply _| |intros; keeps_solve].
    apply keeps_fold_m_in; [apply _|]. intros b p Hp. apply keeps_bind; [apply _| |keeps_solve].
    apply keeps_within_list_one. apply elem_of_app. left. by apply list_elem_of_fmap_2.
Qed.

Lemma gets_InitRuntime : gets (E := E) ReqInit [] (λ _, []) (InitRuntime r).
Proof.
  unfold InitRuntime. eapply (gets_bind _ _ (λ _, [])); [apply gets_last; unfold ActionContext; keeps_solve|intros ctx].
  apply gets_with_defer; [|intros; keeps_solve].
  eapply (gets_bind _ _ (λ _, [])); [apply gets_last; unfold init_abbot; keeps_solve|intros ?].
  set (f p := bool_decide (pod_uid p = None)).
  eapply (gets_bind _ _ (λ l, inl <$> List.filter f l)).
  - unfold Pods. apply (gets_bind _ _ (λ l, inl <$> List.filter f l)); [by apply gets_invoke|].
    intros l. apply gets_ret. intros p (p' & -> & [[Hp _]%elem_of_bfilter Hb]%elem_of_bfilter)%list_elem_of_fmap.
    apply elem_of_app. left. apply list_elem_of_fmap_2. by apply elem_of_bfilter.
  - intros l. apply gets_last, keeps_fold_m_in; [apply _|]. intros [] p Hp. apply keeps_within_init_pod. intros Hu.
    apply elem_of_app. left. apply list_elem_of_fmap_2, elem_of_bfilter. split; [done|]. by apply bool_decide_eq_true.
Qed.

Lemma gets_run q : gets (E := E) q [] (λ _, []) (run_request r err_text parsers peers follow q).
Proof.
  destruct q; simpl.
  1: eapply gets_bind; [apply gets_EnsurePod|intros; by apply gets_ret].
  1: eapply gets_bind; [apply gets_DeletePod|intros; by apply gets_ret].
  1: eapply gets_bind; [apply gets_ListPods|intros; by apply gets_ret].
  6: apply gets_InitRuntime.
  all: apply gets_last; apply keeps_bind; [apply _| |keeps_solve].
  - keeps_solve.
  - unfold Exec, execInContainer. keeps_solve.
  - unfold Attach. keeps_solve.
  - apply keeps_podman_Logs. apply _.
  - unfold PortForward, Forward. keeps_solve.
Qed.
End requests.

(** A trace of a request is disciplined. *)
Lemma request_disciplined r err_text parsers peers follow q tr :
  request_trace r err_text parsers peers follow q tr → disciplined q tr.
Proof.
  intros (E & HE & w & later & Ht & Hrun). apply (disciplined_prefix q tr later). rewrite <- Hrun.
  apply (gets_run r err_text parsers peers follow q w).
  - by intros p ?%not_elem_of_nil.
  - rewrite Ht. split; [done|constructor].
Qed.
