(* ===== verification/ConcurrentTheorems.v ===== *)
(** What holds for requests that run at the same time ([Concurrent]), and what
    does not: the effects of each are contained, but the steps of a request are
    not one step, and a request may act on what another one has half done. *)

From stdpp Require Import base gmap strings pretty list fin_maps fin_sets numbers relations.
From S2P Require Import Prelude GoPath Proto Labels World Libpod Mem BaseRuntime Storage Find Network Translate Container ContainerProofs Pod PodProofs DeleteProofs EnsureProofs Image Logs Action Conf Runtime SeqQueue Streams Handler Engine Samples SessionSamples Commands Concurrent.

(** ** Interleavings *)

(** What one of the requests may remove after this answer. *)
Definition handed_out (qs : list request) (c : call) : list object := mjoin ((λ q, handles_of q c) <$> qs).

Lemma elem_of_handed_out qs c p : p ∈ handed_out qs c ↔ ∃ q, q ∈ qs ∧ p ∈ handles_of q c.
Proof.
  unfold handed_out. rewrite list_elem_of_join. setoid_rewrite list_elem_of_fmap. split.
  - intros (l & Hp & q & -> & Hq). eauto.
  - intros (q & Hq & Hp). eauto.
Qed.

(** Removals stay sourced in a merge. *)
Lemma interleaving_sourced f pre ts tr :
  interleaving ts tr → (∀ t, t ∈ ts → sourced f pre t) → sourced f pre tr.
Proof.
  intros Hi. revert pre. induction Hi as [ts _|ts1 c t ts2 tr _ IH]; intros pre Hts; simpl; [done|].
  assert (sourced f pre (c :: t)) as [Hc Ht] by (apply Hts, elem_of_app; right; left).
  split; [done|]. apply IH. intros t' [Ht'|[->|Ht']%elem_of_cons]%elem_of_app; [|done|];
    (eapply sourced_mono; [|done|apply Hts]); try (apply elem_of_app; (by left) || (right; by right));
    intros c' Hc'; apply elem_of_app; by left.
Qed.

Lemma interleaving_elem {A} (ts : list (list A)) tr c : interleaving ts tr → c ∈ tr → ∃ t, t ∈ ts ∧ c ∈ t.
Proof.
  induction 1 as [|ts1 d t ts2 tr _ IH]; [by intros ?%not_elem_of_nil|].
  intros [->|Hc]%elem_of_cons; [exists (d :: t); split; [apply elem_of_app; right; left|left]|].
  destruct (IH Hc) as (t' & [Ht|[->|Ht]%elem_of_cons]%elem_of_app & Hin).
  - exists t'. split; [apply elem_of_app; by left|done].
  - exists (d :: t). split; [apply elem_of_app; right; left|by right].
  - exists t'. split; [apply elem_of_app; right; by right|done].
Qed.

Section laws.
Context {E : Type} `{!Env E, !Store E, !LibpodLaws E}.
Implicit Types (s : E) (q : request).

(** Unique IDs of pods and containers. *)
Definition distinct s : Prop := NoDup (pod_ID <$> pods s) ∧ NoDup (ctr_ID <$> ctrs s).

(** The pods that a request is about: what it was sent for, and what it takes for
    the remains of an earlier one. *)
Definition concerns q (p : Pod) : Prop :=
  match q with
  | ReqEnsurePod _ o =>
      get (pod_Labels p) ContainerLabelPodUID = pe_PodUid o ∨ pod_Name p = pod_name o ∨
      String.prefix (pod_name o) (pod_ID p) = true
  | ReqDeletePod _ o => get (pod_Labels p) ContainerLabelPodUID = pd_PodUid o
  | ReqListPods _ o => podLabelFilterFunc (list_filters o) p = true
  | ReqInit => pod_uid p = None
  | _ => False
  end.

(** A permitted call on the pods. *)
Lemma call_distinct q {X} (e : Ev X) s a :
  permitted q (Call e a) = true → distinct s → distinct (handle e s).2.
Proof.
  intros Hp [H1 H2]. unfold distinct.
  destruct (quiet e) eqn:Hq; [by destruct (law_quiet e s Hq) as [-> ->]|].
  destruct e; try discriminate Hq; simpl in Hp.
  - pose proof (law_NewPod name labels s) as [-> Hn]. destruct (handle _ s).1; [by rewrite Hn|].
    destruct Hn as (_ & _ & Hid & _ & ->). split; [|done]. by constructor.
  - pose proof (law_NewContainer config stdin s) as [-> Hn]. destruct (handle _ s).1; [by rewrite Hn|].
    destruct Hn as (_ & _ & _ & _ & Hid & ->). split; [done|]. by constructor.
  - pose proof (law_RemoveContainer ctr force removeVolume s) as (-> & _ & Hc & _). split; [done|].
    eapply sublist_NoDup; [exact H2|]. by apply fmap_sublist.
  - apply andb_true_iff in Hp as [-> ->]. pose proof (law_RemovePod pod s) as (_ & _ & Hps & Hc & _).
    split; [eapply sublist_NoDup; [exact H1|]|eapply sublist_NoDup; [exact H2|]]; by apply fmap_sublist.
Qed.

Lemma call_pods q {X} (e : Ev X) s a p :
  permitted q (Call e a) = true → p ∈ pods (handle e s).2 →
  p ∈ pods s ∨ ∃ ctx o, q = ReqEnsurePod ctx o ∧ pod_Labels p = pod_labels o.
Proof.
  intros Hp Hin. destruct (quiet e) eqn:Hq; [destruct (law_quiet e s Hq) as [_ Hs]; rewrite Hs in Hin; by left|].
  destruct e; try discriminate Hq; simpl in Hp.
  - destruct q; try discriminate Hp. apply bool_decide_eq_true in Hp as [-> ->].
    pose proof (law_NewPod (pod_name options) (pod_labels options) s) as [_ Hn].
    destruct (handle _ s).1; [left; by rewrite <- Hn|]. destruct Hn as (_ & Hl & _ & _ & Hps).
    rewrite Hps in Hin. apply elem_of_cons in Hin as [->|?]; [right; eauto|by left].
  - pose proof (law_NewContainer config stdin s) as [Hs _]. left. by rewrite <- Hs.
  - pose proof (law_RemoveContainer ctr force removeVolume s) as (Hs & _). left. by rewrite <- Hs.
  - apply andb_true_iff in Hp as [-> ->]. pose proof (law_RemovePod pod s) as (_ & _ & Hps & _).
    left. by eapply elem_of_sublist.
Qed.

(** A pod that is to stay, with containers of it that carry a pod UID. *)
Definition members (b : Pod) (ds : list Container) : Prop := ∀ d, d ∈ ds →
  ctr_PodID d = pod_ID b ∧ ctr_Labels d !! ContainerLabelPodUID ≠ None.

Definition intact (b : Pod) (ds : list Container) s : Prop := b ∈ pods s ∧ ∀ d, d ∈ ds → d ∈ ctrs s.

(** A pod or container of another pod; a container with a pod UID is not removed
    by itself. *)
Definition apart (b : Pod) (ds : list Container) (x : object) : Prop :=
  match x with
  | inl p => pod_ID p ≠ pod_ID b
  | inr c => ctr_Labels c !! ContainerLabelPodUID = None → ∀ d, d ∈ ds → ctr_ID c ≠ ctr_ID d
  end.

Lemma call_spares q {X} (e : Ev X) s a b ds :
  permitted q (Call e a) = true → members b ds → intact b ds s →
  (∀ x, removed (Call e a) = Some x → apart b ds x) → intact b ds (handle e s).2.
Proof.
  intros Hp Hm [Hb Hds] Hrm. unfold intact.
  destruct (quiet e) eqn:Hq; [by destruct (law_quiet e s Hq) as [-> ->]|].
  destruct e; try discriminate Hq; simpl in Hp.
  - pose proof (law_NewPod name labels s) as [-> Hn]. destruct (handle _ s).1; [by rewrite Hn|].
    destruct Hn as (_ & _ & _ & _ & ->). split; [by right|done].
  - pose proof (law_NewContainer config stdin s) as [-> Hn]. destruct (handle _ s).1; [by rewrite Hn|].
    destruct Hn as (_ & _ & _ & _ & _ & Hn). split; [done|]. intros d Hd. rewrite Hn. right. auto.
  - apply bool_decide_eq_true in Hp. pose proof (law_RemoveContainer ctr force removeVolume s) as (-> & Hf & _).
    split; [done|]. intros d Hd. assert (d ∈ List.filter (other_ctr ctr) (ctrs s)) as Hin.
    { apply elem_of_bfilter. split; [auto|]. apply negb_true_iff, bool_decide_eq_false. intros Heq.
      by apply (Hrm _ eq_refl Hp d Hd). }
    rewrite <- Hf in Hin. by apply elem_of_bfilter in Hin as [? _].
  - apply andb_true_iff in Hp as [-> ->]. pose proof (law_RemovePod pod s) as (Hf & Hfc & _).
    pose proof (Hrm _ eq_refl) as Ha. simpl in Ha. split.
    + assert (b ∈ List.filter (other_pod pod) (pods s)) as Hin.
      { apply elem_of_bfilter. split; [done|]. by apply other_pod_spec. }
      rewrite <- Hf in Hin. by apply elem_of_bfilter in Hin as [? _].
    + intros d Hd. assert (d ∈ List.filter (outside_pod pod) (ctrs s)) as Hin.
      { apply elem_of_bfilter. split; [auto|]. apply negb_true_iff, bool_decide_eq_false.
        by rewrite (proj1 (Hm d Hd)). }
      rewrite <- Hfc in Hin. by apply elem_of_bfilter in Hin as [? _].
Qed.

Lemma same_ID s p b : distinct s → p ∈ pods s → b ∈ pods s → pod_ID p = pod_ID b → p = b.
Proof.
  intros [Hnd _]. by apply NoDup_fmap_same.
Qed.

(** Pods that a request is not about are not handed out. *)
Lemma handed_pod_other q {X} (e : Ev X) s p b :
  distinct s → b ∈ pods s → ¬ concerns q b → inl p ∈ handles_of q (Call e (handle e s).1) → pod_ID p ≠ pod_ID b.
Proof.
  intros Hd Hb Hq Hin.
  assert (p ∈ pods s → concerns q p → pod_ID p ≠ pod_ID b) as Hthere.
  { intros Hp Hc Hid. rewrite (same_ID s p b Hd Hp Hb Hid) in Hc. by apply Hq. }
  destruct e; try (by apply not_elem_of_nil in Hin); simpl in Hin.
  - destruct (handle AllContainers s).1 as [d|l]; [by apply not_elem_of_nil in Hin|].
    by apply list_elem_of_fmap in Hin as (? & ? & _).
  - pose proof (law_AllPods s) as Hl.
    destruct (handle AllPods s).1 as [d|l]; [by apply not_elem_of_nil in Hin|]. rewrite (Hl l eq_refl) in Hin.
    destruct q; try (by apply not_elem_of_nil in Hin);
      apply list_elem_of_fmap in Hin as (p' & [= <-] & [? Hf]%elem_of_bfilter); (apply Hthere; [assumption|]).
    + left. by apply pod_filter_get.
    + by apply pod_filter_get.
    + exact Hf.
    + by apply bool_decide_eq_true in Hf.
  - pose proof (law_LookupPod idOrName s) as Hl.
    destruct (handle _ s).1 as [d|p']; [by apply not_elem_of_nil in Hin|].
    destruct q; try (by apply not_elem_of_nil in Hin). case_decide; [|by apply not_elem_of_nil in Hin].
    apply list_elem_of_singleton in Hin as [= ->]. destruct (Hl p' eq_refl) as [? Hn]. subst.
    apply Hthere; [done|]. simpl. tauto.
  - pose proof (law_NewPod name labels s) as [_ Hn].
    destruct (handle _ s).1 as [d|p']; [by apply not_elem_of_nil in Hin|].
    destruct q; try (by apply not_elem_of_nil in Hin). apply list_elem_of_singleton in Hin as [= ->].
    destruct Hn as (_ & _ & Hid & _). intros Heq. apply Hid. rewrite Heq. by apply list_elem_of_fmap_2.
Qed.

(** A container that is handed out is one that is there. *)
Lemma handed_ctr_there q {X} (e : Ev X) s c : inr c ∈ handles_of q (Call e (handle e s).1) → c ∈ ctrs s.
Proof.
  intros Hin. destruct e; try (by apply not_elem_of_nil in Hin); simpl in Hin.
  - pose proof (law_AllContainers s) as Hl.
    destruct (handle AllContainers s).1 as [d|l]; [by apply not_elem_of_nil in Hin|]. rewrite (Hl l eq_refl) in Hin.
    by apply list_elem_of_fmap in Hin as (c' & [= <-] & ?).
  - destruct (handle AllPods s).1 as [d|l]; [by apply not_elem_of_nil in Hin|].
    destruct q; try (by apply not_elem_of_nil in Hin); by apply list_elem_of_fmap in Hin as (? & ? & _).
  - destruct (handle _ s).1; [by apply not_elem_of_nil in Hin|]. destruct q; try (by apply not_elem_of_nil in Hin).
    case_decide; [by apply list_elem_of_singleton in Hin|by apply not_elem_of_nil in Hin].
  - destruct (handle _ s).1; [by apply not_elem_of_nil in Hin|]. destruct q; try (by apply not_elem_of_nil in Hin).
    by apply list_elem_of_singleton in Hin.
Qed.

Lemma handed_out_apart q {X} (e : Ev X) s x b ds :
  distinct s → members b ds → intact b ds s → ¬ concerns q b →
  x ∈ handles_of q (Call e (handle e s).1) → apart b ds x.
Proof.
  intros Hd Hm [Hb Hds] Hq Hin. destruct x as [p|c]; simpl; [by eapply handed_pod_other|].
  intros Hu d Hdd Hid. apply (proj2 (Hm d Hdd)). rewrite <- Hu. f_equal. f_equal.
  symmetry. eapply NoDup_fmap_same; [apply (proj2 Hd)|by eapply handed_ctr_there|by apply Hds|done].
Qed.
End laws.

(** ** What holds for concurrent requests *)

Section concurrent.
Context {E : Type} `{!Env E, !Store E, !LibpodLaws E}.
Context (r : libpodRuntime) (err_text : error → string) (parsers : LogParsers) (peers : Peers) (follow : nat).
Notation request_trace := (request_trace r err_text parsers peers follow).
Notation concurrently := (concurrently r err_text parsers peers follow).
Implicit Types (s : E).

Lemma request_of qs ts t : Forall2 request_trace qs ts → t ∈ ts → ∃ q, q ∈ qs ∧ request_trace q t.
Proof.
  intros Hall Ht. apply list_elem_of_lookup in Ht as [i Hi].
  destruct (Forall2_lookup_r _ _ _ _ _ Hall Hi) as (q & Hq & Hqt). exists q. split; [|done].
  by eapply list_elem_of_lookup_2.
Qed.

(** A merge of requests: its calls are permitted, its removals sourced. *)
Lemma concurrent_disciplined qs s tr s' :
  concurrently qs s tr s' →
  (∀ c, c ∈ tr → ∃ q, q ∈ qs ∧ permitted q c = true) ∧ sourced (handed_out qs) [] tr ∧ answered s tr s'.
Proof.
  intros (ts & Hall & Hi & Ha). split; [|split; [|done]].
  - intros c Hc. destruct (interleaving_elem _ _ _ Hi Hc) as (t & Ht & Hct).
    destruct (request_of _ _ _ Hall Ht) as (q & Hq & [_ Hp]%request_disciplined). exists q. split; [done|].
    rewrite Forall_forall in Hp. by apply Hp.
  - eapply interleaving_sourced; [exact Hi|]. intros t Ht.
    destruct (request_of _ _ _ Hall Ht) as (q & Hq & [Hs _]%request_disciplined).
    eapply sourced_mono; [|exact (λ c p Hp, proj2 (elem_of_handed_out qs c p) (ex_intro _ q (conj Hq Hp)))|exact Hs].
    by intros c ?%not_elem_of_nil.
Qed.

(** C4: Requests at the same time, call by call: pod and container IDs stay unique,
    and every pod was there before or carries the labels of a requested pod. *)
Theorem concurrent_pods qs s tr s' :
  distinct s → concurrently qs s tr s' →
  distinct s' ∧ ∀ p, p ∈ pods s' → p ∈ pods s ∨
    ∃ ctx o, ReqEnsurePod ctx o ∈ qs ∧ pod_Labels p = pod_labels o.
Proof.
  intros Hd (Hp & _ & Ha)%concurrent_disciplined.
  induction Ha as [s|s X e tr s' Ha IH]; [auto|].
  destruct (Hp (Call e (handle e s).1)) as (q & Hq & Hpq); [by left|].
  destruct IH as [Hd' Hold]; [by eapply call_distinct|intros c Hc; apply Hp; by right|]. split; [done|].
  intros p Hin. destruct (Hold p Hin) as [Hin'|?]; [|by right].
  destruct (call_pods q e s _ p Hpq Hin') as [?|(ctx & o & -> & Hl)]; [by left|right; eauto].
Qed.

Lemma intact_concurrently qs s tr s' b ds :
  distinct s → concurrently qs s tr s' → members b ds → intact b ds s → (∀ q, q ∈ qs → ¬ concerns q b) →
  intact b ds s'.
Proof.
  intros Hd (Hp & Hs & Ha)%concurrent_disciplined Hm Hb Hq.
  assert (∀ c x, c ∈ [] → x ∈ handed_out qs c → apart b ds x) as Hpre by (by intros c x ?%not_elem_of_nil).
  revert Hs Hpre. generalize (@nil call) at 1 2 as pre.
  induction Ha as [s|s X e tr s' Ha IH]; intros pre Hs Hpre; [done|]. destruct Hs as [Hrm Hs].
  destruct (Hp (Call e (handle e s).1)) as (q & Hqin & Hpq); [by left|].
  assert (distinct (handle e s).2) as Hd' by by eapply call_distinct.
  assert (intact b ds (handle e s).2) as Hb'.
  { eapply call_spares; [exact Hpq|done..|]. intros x Hr. destruct (Hrm x Hr) as (c & Hc & Hh). by eapply Hpre. }
  apply (IH Hd' (λ c Hc, Hp c (proj2 (elem_of_cons _ _ _) (or_intror Hc))) Hb' _ Hs).
  intros c x [Hc| ->%list_elem_of_singleton]%elem_of_app Hh; [by eapply Hpre|].
  apply elem_of_handed_out in Hh as (q' & Hq' & Hh). eapply handed_out_apart; [exact Hd|done..|by apply Hq|exact Hh].
Qed.

(** C3: A pod that none of the requests is about survives them, in whatever order
    their calls reach libpod and whichever of them fail, and so does each of its
    containers that carries a pod UID. *)
Theorem concurrent_bystander qs s tr s' b :
  distinct s → concurrently qs s tr s' → b ∈ pods s → (∀ q, q ∈ qs → ¬ concerns q b) →
  b ∈ pods s' ∧
  ∀ d, d ∈ ctrs s → ctr_PodID d = pod_ID b → ctr_Labels d !! ContainerLabelPodUID ≠ None → d ∈ ctrs s'.
Proof.
  intros Hd Hc Hb Hq. split.
  - eapply (intact_concurrently qs s tr s' b []); [done..| |split; [done|]|done]; by intros d ?%not_elem_of_nil.
  - intros d Hin Hid Hl. eapply (intact_concurrently qs s tr s' b [d]); [done..| |split; [done|]|done|by left];
      intros d' ->%list_elem_of_singleton; done.
Qed.
End concurrent.

(** ** One request alone *)

Section alone.
Context {E : Type} `{!Env E}.
Context (r : libpodRuntime) (err_text : error → string) (parsers : LogParsers) (peers : Peers) (follow : nat).
Notation run := (run_request r err_text parsers peers follow).
Notation W := (World E).

Lemma answered_app (s1 s2 s3 : E) tr1 tr2 : answered s1 tr1 s2 → answered s2 tr2 s3 → answered s1 (tr1 ++ tr2) s3.
Proof. induction 1; [done|]. intros. simpl. constructor. auto. Qed.

Lemma answered_split (s1 s3 : E) tr1 tr2 :
  answered s1 (tr1 ++ tr2) s3 → ∃ s2, answered s1 tr1 s2 ∧ answered s2 tr2 s3.
Proof.
  revert s1. induction tr1 as [|c tr1 IH]; intros s1 H; simpl in H; [eexists; split; [constructor|exact H]|].
  inversion H as [|s X e tr s' H1]; subst. destruct (IH _ H1) as (s2 & ? & ?).
  exists s2. split; [by constructor|done].
Qed.

(** The trace has grown by calls that the environment answered. *)
Definition served (w w' : W) : Prop :=
  ∃ l, w_trace w' = w_trace w ++ l ∧ answered (w_env w) l (w_env w').

#[global] Instance served_frame : Frame served.
Proof.
  assert (PreOrder served) as Hpre.
  { split; [intros w; exists []; rewrite app_nil_r; by split; [|constructor]|].
    intros w1 w2 w3 (l1 & T1 & A1) (l2 & T2 & A2). exists (l1 ++ l2).
    rewrite T2, T1, app_assoc. split; [done|]. by eapply answered_app. }
  assert (∀ X (e : Ev X) (w : W), served w (perform e w).2) as Hperf.
  { intros X e w. rewrite perform_storeless. exists [Call e (handle e (w_env w)).1]. split; [done|].
    simpl. constructor. constructor. }
  split; [split|]; [done|intros; apply Hperf| |done].
  intros w w' He Ht. exists []. rewrite Ht, app_nil_r, He. by split; [|constructor].
Qed.

Lemma keeps_served_run q : keeps served (run q).
Proof.
  destruct q; simpl. 1-8: apply keeps_bind; [apply _| |keeps_solve].
  - apply keeps_any_EnsurePod.
  - apply keeps_any_DeletePod.
  - apply keeps_any_ListPods.
  - keeps_solve.
  - unfold Exec, execInContainer. keeps_solve.
  - unfold Attach. keeps_solve.
  - apply keeps_podman_Logs. apply _.
  - unfold PortForward, Forward. keeps_solve.
  - unfold InitRuntime, init_abbot, init_pod, restore_network, ActionContext, for_each. keeps_solve.
Qed.

(** The first [n] calls of a request that runs alone. *)
Lemma run_prefix q (w : W) n :
  w_trace w = [] →
  let tr := take n (w_trace (run q w).2) in
  request_trace r err_text parsers peers follow q tr ∧ ∃ s, answered (w_env w) tr s.
Proof.
  intros Ht tr. split.
  - exists E, _, w, (drop n (w_trace (run q w).2)). split; [done|].
    unfold tr. by rewrite take_drop.
  - destruct (keeps_served_run q w) as (l & Hl & Ha). rewrite Ht in Hl. simpl in Hl.
    rewrite <- (take_drop n l) in Ha. apply answered_split in Ha as (s & Ha & _).
    exists s. unfold tr. by rewrite Hl.
Qed.
End alone.

(** ** What does not hold *)

(** The state after a sequence of calls. *)
Definition replay {E} `{!Env E} (s : E) (tr : list call) : E :=
  foldl (λ s c, match c with Call e _ => (handle e s).2 end) s tr.

Lemma answered_replay {E} `{!Env E} (s s' : E) tr : answered s tr s' → s' = replay s tr.
Proof. induction 1; [done|]. exact IHanswered. Qed.

Lemma interleaving_seq {A} (l1 l2 : list A) : interleaving [l1; l2] (l1 ++ l2).
Proof.
  induction l1 as [|c l1 IH]; simpl; [|by apply (interleaving_cons [] c l1)].
  induction l2 as [|c l2 IH]; [constructor; by repeat constructor|by apply (interleaving_cons [[]] c l2 [])].
Qed.

(** A world at its beginning. *)
Definition fresh_world {E} (s : E) : World E := mkWorld s [] 0 ∅ (mkStorageClient false ∅ ∅).

Section races.
Context {E : Type} `{!Env E}.
Context (r : libpodRuntime) (err_text : error → string) (parsers : LogParsers) (peers : Peers) (follow : nat).
Notation run := (run_request r err_text parsers peers follow).
Notation concurrently := (concurrently r err_text parsers peers follow).

(** The first calls of one request, then another one from start to end. *)
Lemma then_runs q1 q2 (s : E) n :
  let tr1 := take n (w_trace (run q1 (fresh_world s)).2) in
  let w2 := (run q2 (fresh_world (replay s tr1))).2 in
  answered s tr1 (replay s tr1) ∧ concurrently [q1; q2] s (tr1 ++ w_trace w2) (w_env w2).
Proof.
  intros tr1 w2. destruct (run_prefix r err_text parsers peers follow q1 (fresh_world s) n eq_refl) as [Hq1 [s1 Ha1]].
  fold tr1 in Hq1, Ha1. simpl in Ha1. pose proof (answered_replay _ _ _ Ha1) as ->. split; [done|].
  destruct (keeps_served_run r err_text parsers peers follow q2 (fresh_world (replay s tr1))) as (l & Hl & Ha2).
  simpl in Hl. exists [tr1; w_trace w2]. split; [|split].
  - constructor; [done|]. constructor; [|constructor]. exists E, _, (fresh_world (replay s tr1)), [].
    split; [done|]. by rewrite app_nil_r.
  - apply interleaving_seq.
  - eapply answered_app; [exact Ha1|]. subst l. exact Ha2.
Qed.

(** An environment that is interrupted: before the call with number [sh_wait],
    others change it. *)
Record Shared := mkShared { sh_env : E; sh_wait : nat; sh_others : E → E }.

#[global] Instance shared_env : Env Shared := {|
  handle X e s :=
    match sh_wait s with
    | S k => let '(x, s') := handle e (sh_env s) in (x, mkShared s' k (sh_others s))
    | O => let '(x, s') := handle e (sh_others s (sh_env s)) in (x, mkShared s' 0 id)
    end |}.

Lemma answered_calm (s : E) tr sh : answered (mkShared s 0 id) tr sh → answered s tr (sh_env sh).
Proof.
  intros Ha. remember (mkShared s 0 id) as sh0 eqn:Hs. revert s Hs.
  induction Ha as [sh|sh X e tr sh' Ha IH]; intros s ->; [constructor|].
  assert ((handle e (mkShared s 0 id)).1 = (handle e s).1 ∧
          (handle e (mkShared s 0 id)).2 = mkShared (handle e s).2 0 id) as [-> Hs']
    by (simpl; unfold id; by destruct (handle e s)).
  rewrite Hs' in IH. constructor. by apply IH.
Qed.

Lemma answered_interrupted f (s : E) k tr sh :
  answered (mkShared s k f) tr sh → k < length tr →
  answered s (take k tr) (replay s (take k tr)) ∧
  answered (f (replay s (take k tr))) (drop k tr) (sh_env sh).
Proof.
  intros Ha. remember (mkShared s k f) as sh0 eqn:Hs. revert s k Hs.
  induction Ha as [sh|sh X e tr sh' Ha IH]; intros s k -> Hk; [simpl in Hk; lia|]. destruct k as [|k].
  - split; [constructor|]. change (answered (f s) (Call e (handle e (mkShared s 0 f)).1 :: tr) (sh_env sh')).
    assert ((handle e (mkShared s 0 f)).1 = (handle e (f s)).1 ∧
            (handle e (mkShared s 0 f)).2 = mkShared (handle e (f s)).2 0 id) as [-> Hs']
      by (simpl; by destruct (handle e (f s))).
    constructor. rewrite Hs' in Ha. by apply answered_calm in Ha.
  - assert ((handle e (mkShared s (S k) f)).1 = (handle e s).1 ∧
            (handle e (mkShared s (S k) f)).2 = mkShared (handle e s).2 k f) as [-> Hs']
      by (simpl; by destruct (handle e s)).
    simpl in Hk. destruct (IH _ _ Hs') as [H1 H2]; [lia|]. split; [by constructor|exact H2].
Qed.

Lemma interleaving_around {A} (l1 l2 l3 : list A) : interleaving [l1 ++ l3; l2] (l1 ++ l2 ++ l3).
Proof.
  induction l1 as [|c l1 IH]; simpl; [|by apply (interleaving_cons [] c (l1 ++ l3))].
  induction l2 as [|c l2 IH]; [|by apply (interleaving_cons [l3] c l2 [])].
  simpl. induction l3 as [|c l3 IH]; [constructor; by repeat constructor|by apply (interleaving_cons [] c l3)].
Qed.

(** The first [k] calls of one request, then another one from start to end, then
    the rest of the first. *)
Lemma interrupted q1 q2 (s : E) k :
  let others s := w_env (run q2 (fresh_world s)).2 in
  let w1 := (run q1 (fresh_world (mkShared s k others))).2 in
  let tr := w_trace w1 in
  let w2 := (run q2 (fresh_world (replay s (take k tr)))).2 in
  k < length tr →
  concurrently [q1; q2] s (take k tr ++ w_trace w2 ++ drop k tr) (sh_env (w_env w1)).
Proof.
  intros others w1 tr w2 Hk.
  destruct (keeps_served_run r err_text parsers peers follow q1 (fresh_world (mkShared s k others))) as (l1 & Hl1 & Ha1).
  simpl in Hl1. fold w1 in Hl1, Ha1. fold tr in Hl1. subst l1. simpl in Ha1.
  destruct (answered_interrupted _ _ _ _ _ Ha1 Hk) as [H1 H2].
  destruct (keeps_served_run r err_text parsers peers follow q2 (fresh_world (replay s (take k tr)))) as (l2 & Hl2 & Ha2).
  simpl in Hl2. fold w2 in Hl2, Ha2. subst l2. exists [tr; w_trace w2]. split; [|split].
  - constructor; [|constructor; [|constructor]].
    + exists Shared, _, (fresh_world (mkShared s k others)), []. split; [done|]. by rewrite app_nil_r.
    + exists E, _, (fresh_world (replay s (take k tr))), []. split; [done|]. by rewrite app_nil_r.
  - rewrite <- (take_drop k tr) at 1. apply interleaving_around.
  - eapply answered_app; [exact H1|]. eapply answered_app; [exact Ha2|exact H2].
Qed.

Context `{!Store E, !LibpodLaws E}.

Lemma created_is_there (s s' : E) tr c ls p :
  answered s (tr ++ [c]) s' → created_pod c = Some (ls, p) → p ∈ pods s' ∧ pod_Labels p = ls.
Proof.
  intros (s1 & _ & Ha)%answered_split Hc. inversion Ha as [|s2 X e tr2 s3 Hnil]; subst. inversion Hnil; subst.
  destruct e; try discriminate Hc. simpl in Hc. pose proof (law_NewPod name labels s1) as [_ Hn].
  destruct (handle (NewPod name labels) s1).1; [done|]. injection Hc as <- <-.
  destruct Hn as (_ & Hl & _ & _ & ->). split; [by left|done].
Qed.

(** C32: A list request removes a pod that is being created: when it runs after a
    request has made its pod and before it has made the pause container, the new
    pod has no pause container yet and is taken for a remainder. *)
Theorem list_removes_new_pod ctx o lctx lo (s : E) n p results w' :
  let tr1 := take (S n) (w_trace (run (ReqEnsurePod ctx o) (fresh_world s)).2) in
  let s1 := replay s tr1 in
  tr1 !! n = Some (Call (NewPod (pod_name o) (pod_labels o)) (inr p)) →
  podLabelFilterFunc (list_filters lo) p = true →
  (∀ c, c ∈ ctrs s1 → ¬ ctr_matches (container_filter (pe_PodUid o) ContainerNamePause) c) →
  ListPods r lctx lo (fresh_world s1) = (Ok results, w') →
  ∃ tr2, concurrently [ReqEnsurePod ctx o; ReqListPods lctx lo] s (tr1 ++ tr2) (w_env w') ∧
    p ∈ pods s1 ∧ pod_uid p = Some (pe_PodUid o) ∧ p ∉ pods (w_env w').
Proof.
  intros tr1 s1 Hn Hf Hno Hlist.
  destruct (then_runs (ReqEnsurePod ctx o) (ReqListPods lctx lo) s (S n)) as [Ha1 Hc].
  fold tr1 in Ha1, Hc. fold s1 in Ha1, Hc. simpl in Hc. unfold mbind, M_bind in Hc. rewrite Hlist in Hc. simpl in Hc.
  exists (w_trace w'). split; [exact Hc|].
  assert (p ∈ pods s1 ∧ pod_Labels p = pod_labels o) as [Hp Hl].
  { eapply (created_is_there s s1 (take n tr1) (Call (NewPod (pod_name o) (pod_labels o)) (inr p))); [|reflexivity]. rewrite <- (take_S_r _ _ _ Hn).
    rewrite take_ge; [exact Ha1|]. unfold tr1. rewrite length_take. lia. }
  assert (pod_uid p = Some (pe_PodUid o)) as Hu by (unfold pod_uid; rewrite Hl; apply pod_labels_uid).
  split_and!; [done|done|].
  apply (wp_elim _ _ _ _ _ Hlist (wp_ListPods_report r lctx lo (fresh_world s1))).
  - apply elem_of_bfilter. by split.
  - exists (pe_PodUid o). split; [done|]. exact Hno.
Qed.
End races.

(** ** Two requests for one UID *)


Notation sample_concurrently :=
  (concurrently sample_runtime (λ _, "error"%string) sample_parsers sample_peers 0).
Notation sample_run := (run_request sample_runtime (λ _, "error"%string) sample_parsers sample_peers 0).


(** ** Witnesses *)

Definition list_web : PodListCmd := {| pl_All := false; pl_Names := ["web"%string] |}.

Lemma sample_distinct : distinct (w_env (sample_world [])).
Proof. split; apply (bool_decide_unpack _); vm_compute; reflexivity. Qed.

Lemma concurrent_pods_witness :
  ∃ tr s', sample_concurrently [ReqEnsurePod TODO sample_ensure; ReqListPods TODO list_web]
             (w_env (sample_world [])) tr s' ∧ length (pods s') = 2 ∧ distinct s' ∧
    ∀ p, p ∈ pods s' → p ∈ pods (w_env (sample_world [])) ∨
      ∃ ctx o, ReqEnsurePod ctx o ∈ [ReqEnsurePod TODO sample_ensure; ReqListPods TODO list_web] ∧
        pod_Labels p = pod_labels o.
Proof.
  unshelve epose proof (interrupted sample_runtime (λ _, "error"%string) sample_parsers sample_peers 0
    (ReqEnsurePod TODO sample_ensure) (ReqListPods TODO list_web) (w_env (sample_world [])) 3 _) as Hc; [vm_compute; lia|].
  eexists _, _. split; [exact Hc|]. split; [vm_compute; reflexivity|].
  exact (concurrent_pods _ _ _ _ _ _ _ _ _ sample_distinct Hc).
Defined.

Lemma concurrent_bystander_witness :
  ∃ tr s', sample_concurrently [ReqEnsurePod TODO sample_ensure; ReqListPods TODO list_web]
             (w_env (sample_world [])) tr s' ∧
    other_sample_pod ∈ pods s' ∧ other_pause ∈ ctrs s' ∧ other_work ∈ ctrs s'.
Proof.
  unshelve epose proof (interrupted sample_runtime (λ _, "error"%string) sample_parsers sample_peers 0
    (ReqEnsurePod TODO sample_ensure) (ReqListPods TODO list_web) (w_env (sample_world [])) 5 _) as Hc; [vm_compute; lia|].
  eexists _, _. split; [exact Hc|].
  refine (match concurrent_bystander _ _ _ _ _ _ _ _ _ other_sample_pod sample_distinct Hc _ _ with
          | conj Hb Hds => conj Hb (conj (Hds other_pause _ _ _) (Hds other_work _ _ _)) end);
    try reflexivity; try (vm_compute; discriminate).
  - left.
  - intros q [->|[->|[]%not_elem_of_nil]%elem_of_cons]%elem_of_cons; simpl.
    + intros [H|[H|H]]; vm_compute in H; discriminate H.
    + intros H. vm_compute in H. discriminate H.
  - left.
  - right. left.
Defined.

Lemma list_removes_new_pod_witness :
  let tr1 := take 5 (w_trace (sample_run (ReqEnsurePod TODO sample_ensure) (fresh_world (w_env (sample_world [])))).2) in
  let s1 := replay (w_env (sample_world [])) tr1 in
  ∃ p w' tr2, sample_concurrently [ReqEnsurePod TODO sample_ensure; ReqListPods TODO list_all]
      (w_env (sample_world [])) (tr1 ++ tr2) (w_env w') ∧
    p ∈ pods s1 ∧ pod_uid p = Some "u1"%string ∧ p ∉ pods (w_env w').
Proof.
  intros tr1 s1. destruct (run_ok (ListPods sample_runtime TODO list_all) (fresh_world s1)) as (results & w' & Hl);
    [vm_compute; reflexivity|].
  eexists _, w'. eapply (list_removes_new_pod sample_runtime (λ _, "error"%string) sample_parsers sample_peers 0
    TODO sample_ensure TODO list_all (w_env (sample_world [])) 4).
  - vm_compute. reflexivity.
  - vm_compute. reflexivity.
  - assert (ctrs s1 = [other_pause; other_work]) as Hctrs by (vm_compute; reflexivity).
    fold tr1. fold s1. rewrite Hctrs.
    intros c [->|[->|[]%not_elem_of_nil]%elem_of_cons]%elem_of_cons [Hm]; vm_compute in Hm; discriminate Hm.
  - exact Hl.
Defined.
